(* ===== verification/_CoqProject ===== *)
-Q . S2P
Prelude.v
GoStd.v
SkipList.v
Memtable.v
Bloom.v
Wal.v
TornLog.v
SSTWriter.v
SSTReader.v
SSTIterator.v
GoHeap.v
MergeIterator.v
Manifest.v
Protocol.v
RaftLog.v
Engine.v
EngineRun.v
EngineFaults.v
Compaction.v
CompactionFaults.v
CompactOutput.v
CompactTables.v
Shelf.v
Recovery.v
CompactInstall.v
CompactWrite.v
CompactRun.v
EngineClose.v
Raft.v
RaftSystem.v
RaftLoops.v
RaftElection.v
RaftFaults.v
RaftLogs.v
RaftSafety.v
RaftStateMachine.v
RaftProgress.v
RaftCommit.v
Transport.v
Server.v
Client.v
TcpServer.v
Cli.v
CmdBench.v
Node.v
Replica.v
Events.v
ClusterManager.v
ClusterFaults.v
Api.v
ApiBench.v
HttpServer.v
ServerMain.v
