(* ===== verification/Prelude.v ===== *)
(** * A verification development for the kvstore repository

    The repository is a key-value store in Go: an LSM-tree storage engine
    (memtable, write-ahead log, sorted table files, manifest, compaction), a
    Raft layer that replicates it, a TCP server and client with their wire
    protocol, and a JSON API with a manager of clusters in one process.  This
    library models the program from the bytes on disk up to the calls of
    clients and to clusters of nodes, and proves what makes it correct.

    ** Conventions

    A Go function [T.Method] is the definition [T_Method]; unexported helpers
    keep their names.  Pure code is a function, fallible code returns [res]
    (a value, an [error], a panic or exhausted fuel), stateful code is in the
    monad [M St] of explicit state passing over the struct's record.  A
    [byte slice] is [list byte], an [option] of it where the code looks at
    nil; lengths and offsets are [Z] with the wrap-around of [uint32],
    [uint64] and [int64] written out where the code adds or converts.
    Objects the code shares by pointer (skip-list nodes, iterators, memtables,
    readers, nodes, channels) are positions in a store.  Methods that hold a
    mutex for their whole body are one transition; where locks are released,
    the method is split and the parts interleave.  What the device, the clock
    and the random generator answer is an argument: a file carries the plan of
    its faults, a power failure ([crash]) keeps the synced prefix and any part
    of the rest.

    ** Files

    - Prelude: bytes, words, [bytes.Compare], the two monads, slices, sorted
      association lists, and the tactics used everywhere.
    - GoStd: the parts of the standard library the code calls: CRC-32, FNV,
      [io.ReadFull], files with faults, [bufio.Writer].  GoHeap: the
      container/heap package.
    - SkipList, Memtable: memtable/skiplist.go, memtable/memtable.go.
    - Bloom, SSTWriter, SSTReader, SSTIterator: sstable/bloom.go, writer.go,
      reader.go, iterator.go.
    - Wal: wal/wal.go.  TornLog: a batch on a failing device, and opening the
      log after a power failure within it.  Manifest: engine/manifest.go.
    - MergeIterator: engine/merge_iterator.go, with the [Iterator] interface as
      a class, its laws as a second class, and the adapters as instances.
    - Engine: engine/engine.go, every operation, and the read path.  EngineRun:
      writes and flush stages as a step relation.  EngineFaults: flushes that
      fail.
    - Compaction: engine/compaction.go.  CompactOutput: the tables a compaction
      writes.  CompactTables: merging tables and moving them between levels.
      CompactionFaults: runs of L0 compaction that lose data.
    - Shelf: the tables with their readers, manifest entries and files, and the
      compaction under way.  Recovery: the invariant of the whole engine and
      [Open] after a power failure, also one inside an operation.  CompactWrite, CompactInstall: the two
      halves of a compaction.  CompactRun: clients, flushes, compactions and
      power failures as one step relation.  EngineClose: a graceful shutdown.
    - RaftLog: raft/log.go.  Raft: raft/raft.go and the RPC types of
      raft/transport.go.  RaftSystem: a cluster as a step relation, and an
      executable scheduler for concrete runs.  RaftLoops: the goroutines of a
      node, whose turns are its events.  RaftElection: election safety.
      RaftLogs, RaftSafety, RaftStateMachine: what transitions do to logs, the
      invariants over runs, and the theorems on committed entries.
      RaftProgress, RaftCommit: runs that elect a leader and commit a command,
      from any state.  RaftFaults: runs on failing disks and other shortcomings.
      Transport: the client cache of raft/transport.go under concurrent calls.
    - Node: raft/node.go.  Replica: nodes with their engines, as one system.
    - Protocol: server/protocol.go.  Server: the connections of server/tcp.go,
      over the interface [KV] that the engine implements.  TcpServer: its life
      from [Start] to [Stop].  Client: client/client.go.
    - Events: server/events.go.  ClusterManager: server/cluster.go.
      ClusterFaults: what goes wrong there.  Api: the endpoints of
      server/api.go.  ApiBench: its benchmarks and its crash recovery demo.
      HttpServer: server/http.go, and the starting and stopping of both HTTP
      servers over a state machine for net/http.
    - Cli: cmd/client/main.go.  CmdBench: cmd/bench/main.go.  ServerMain:
      cmd/server/main.go, the two servers, the flush and compaction goroutines
      and [main] as one process.

    ** What is proved

    - The parts refine simple data.  The skip list under the memtable is a
      finite map with tombstones and iterates in key order; a Bloom filter has
      no false negatives; a table file written by the writer is read back
      exactly, also after a power failure, by lookups and by iterators; the
      log is a list of segments whose acknowledged records replay exactly; the
      manifest on disk describes the levels in memory; the merge of law-abiding
      iterators yields each key once with the entry of the best source; the
      codecs of the protocol and of the Raft commands invert each other.
    - The engine refines a map.  [Engine.engine_reads_layers]: in any state
      that represents a stack of layers, including deeper levels, [Get] finds
      the newest entry and [ReadRange] the sorted live pairs.
      [EngineRun.engine_refines_map]: under any interleaving of operations and
      flush stages these are the answers of the map of acknowledged writes.
      [CompactRun.engine_survives_crashes]: with compactions, power failures and
      reopening among the steps, no acknowledged write is lost, also when power
      fails while tables or the log are being written.
      [EngineClose.engine_close_keeps_data]: [Close] ends and leaves tables that
      hold them all, and [ApiBench.crash_recovery_reports_all] is what the demo
      of the API reports because of it.
      [ServerMain.server_shutdown_keeps_data]: a server process ended by a signal
      loses nothing it acknowledged, through either server.
      [CompactRun.run_compaction_keeps_answers]: a run of the compaction
      goroutine ends, closes no reader in use and changes no answer;
      [CompactOutput.compaction_output_tables]: how its output is cut.
    - Raft is safe.  [RaftElection.raft_election_safety]: one leader per term,
      as long as term files are written.  On healthy disks,
      [RaftStateMachine.raft_log_matching], [raft_leader_completeness] and
      [raft_state_machine_safety], for any network, scheduling and restarts;
      [raft_state_typed]: the ranges of every field of a node.
    - Raft can move.  [RaftCommit.raft_can_commit]: every reachable state has a
      continuation in which a chosen node leads and commits a given command.
      [Transport.transport_owns_clients]: the cached connections are open ones
      to their peers, whatever calls run at the same time.
    - The replicas agree.  [Replica.replicas_agree] composes the two: engines
      fed by Raft, flushing and compacting at any time, answer with the content
      of prefixes of one sequence of commands, also across restarts.  [ClusterManager.cluster_start_is_boot]:
      the clusters the program starts are the ones this is about.
    - Clients see the store.  [Client.remote_calls_are_local]: calls over a
      connection have the results and effects of calls on the store, but for
      batches whose keys and values differ in number ([client_batch_unchecked]);
      [Api.api_answers_like_store] the same for the JSON API and
      [Cli.cli_shows_store] for the command line;
      [TcpServer.tcp_stop_drains]: no request is served after [Stop], and
      [HttpServer.http_drained] the same over HTTP when [Stop] does not time out.
      [Events.event_bus_delivers]: what subscribers receive.
    - Single operations are atomic on failing devices: appends to the log and
      to the Raft log, records of the manifest.
    - Where the code falls short the theorem says how: empty values turn into
      deletions, records appended after a torn tail are lost, failed or dropped
      flushes lose data, [Close] can hang, ranges of a closed engine are short,
      L0 compaction keeps the oldest value and races with flushes, installing a
      compaction is not atomic, a single level panics, truncating the Raft log is
      not atomic,
      unwritten votes and entries break Raft's guarantees, overwritten
      proposals are acknowledged, one node alone never leads, some payloads
      panic the decoders, the client does not check its batches, deletions are
      never dropped from the tables, reads of a cluster can miss acknowledged writes, a
      cluster can fail to stop, the TCP server waits for silent clients,
      benchmarks write around Raft, and the benchmark program panics on few
      keys.

    The theorems about the whole engine assume what these exceptions demand:
    values that are not empty ([clean]), a flush channel with room, flushes
    that succeed; tables below 2^30 bytes of entries, and numbers of files and
    records within their widths.  L0 is compacted only while its tables share no
    key and no flush is between its manifest entry and its publication, and power
    fails between steps, while tables are written or within an operation's write
    to the log, not within the installation of a compaction (see CompactionFaults
    for what happens otherwise); a run does not go on from a log with a torn
    record ([wal_append_after_torn_tail_lost]).  Files stay created and removed
    across a power failure although no directory is ever synced, and the file of
    a Raft node's term and vote, which is never synced either, survives a restart
    as written.  The theorems on logs and replicas
    assume disks that do not fail ([healthy_io]) and terms, indices and entries
    within their widths; messages may be lost, delayed, reordered and repeated.

    ** Fuel

    Loops that are not structural take fuel, and the theorems say how much is
    enough: searches get the length of the list plus one, replays the length
    of the file plus one (every record has at least one byte), the merge and
    range loops one step per stored entry plus one, the loop over a connection
    the bytes that arrived plus one.  [bufio.Writer.Write] needs at most three
    rounds ([bufio_spills_total]).

    ** Not modelled

    Memory: allocations succeed.  Publications on the event bus happen one after
    the other.  Clocks: timers may fire at any time (RaftLoops has the range of timeouts).
    File paths other than the log's file names, gob encoding, JSON text (requests
    are taken as decoded, responses as values), the pages of the dashboard and
    flag parsing: text that other packages read and write.  Opening, mapping,
    listening and dialling are answers given as arguments; a mapped file is its
    bytes, and unmapping leaves none. *)

From stdpp Require Export prelude list gmap strings sorting.
From Stdlib Require Export ZArith Lia Strings.Byte.

#[global] Open Scope Z_scope.
#[export] Set Warnings "-clear-no-such-hyp".

(** ** Notations of the development *)

Declare Scope kv_scope.
Delimit Scope kv_scope with kv.

(** ** Bytes and little-endian words

    A Go [byte] is [Byte.byte]; a Go [[]byte] whose nil-ness does not matter
    is [bytes], one whose nil-ness is observed is [option bytes] ([None] is
    [nil]). *)

Abbreviation bytes := (list byte).

Definition byteZ (b : byte) : Z := Z.of_N (Byte.to_N b).
Definition Zbyte (z : Z) : byte :=
  match Byte.of_N (Z.to_N (z mod 256)) with Some b => b | None => x00 end.

(** The bytes of a slice, nil or not; and a slice after a codec that writes
    its length and bytes and reads a zero length back as nil. *)
Definition val_bytes (v : option bytes) : bytes := default [] v.
Definition norm_value (v : option bytes) : option bytes :=
  match v with Some [] => None | v => v end.

(** [len] is Go's [len] on a slice, as an [int]. *)
Definition len {A} (l : list A) : Z := Z.of_nat (length l).

(** [binary.LittleEndian.PutUintNN] writes [putLE (NN/8)]; [UintNN] reads [getLE]. *)
Fixpoint putLE (n : nat) (z : Z) : bytes :=
  match n with
  | O => []
  | S n => Zbyte z :: putLE n (z / 256)
  end.

Fixpoint getLE (b : bytes) : Z :=
  match b with
  | [] => 0
  | x :: b => byteZ x + 256 * getLE b
  end.

(** Machine-width integers: truncation to [uint32] and [uint64], and the
    reinterpretation of a [uint64] as an [int64]. *)
Definition u32 (z : Z) : Z := z mod 2 ^ 32.
Definition u64 (z : Z) : Z := z mod 2 ^ 64.
Definition i64 (z : Z) : Z := (z + 2 ^ 63) mod 2 ^ 64 - 2 ^ 63.

(** ** Lexicographic order: [bytes.Compare] and [bytes.Equal] *)

Fixpoint bcompare (a b : bytes) : comparison :=
  match a, b with
  | [], [] => Eq
  | [], _ :: _ => Lt
  | _ :: _, [] => Gt
  | x :: a, y :: b =>
      match byteZ x ?= byteZ y with
      | Eq => bcompare a b
      | c => c
      end
  end.

Definition blt (a b : bytes) : Prop := bcompare a b = Lt.
Definition ble (a b : bytes) : Prop := bcompare a b <> Gt.
Definition bltb (a b : bytes) : bool := match bcompare a b with Lt => true | _ => false end.
Definition bleb (a b : bytes) : bool := match bcompare a b with Gt => false | _ => true end.
Definition beqb (a b : bytes) : bool := match bcompare a b with Eq => true | _ => false end.

Infix "<ₖ" := blt (at level 70) : kv_scope.
Infix "≤ₖ" := ble (at level 70) : kv_scope.
#[global] Open Scope kv_scope.

(** ** Errors and results

    [Err] is a returned Go error, [Panic] a run-time panic (index out of
    range, nil dereference), [OutOfFuel] the artefact of a bounded loop. *)

Inductive error :=
| ErrNotFound
| ErrFrozen
| ErrEOF
| ErrUnexpectedEOF
| ErrIO
| Errorf (msg : string)
| Wrap (ctx : string) (e : error).

Inductive res (A : Type) :=
| Ok (a : A)
| Err (e : error)
| Panic
| OutOfFuel.
Arguments Ok {A} a.
Arguments Err {A} e.
Arguments Panic {A}.
Arguments OutOfFuel {A}.

#[global] Instance res_ret : MRet res := fun A a => Ok a.
#[global] Instance res_bind : MBind res := fun A B k m =>
  match m with
  | Ok a => k a
  | Err e => Err e
  | Panic => Panic
  | OutOfFuel => OutOfFuel
  end.

(** Stateful, fallible operations: the state reached is kept on every exit. *)
Definition M (St A : Type) : Type := St -> res A * St.
#[global] Instance M_ret {St} : MRet (M St) := fun A a s => (Ok a, s).
#[global] Instance M_bind {St} : MBind (M St) := fun A B k m s =>
  match m s with
  | (Ok a, s') => k a s'
  | (Err e, s') => (Err e, s')
  | (Panic, s') => (Panic, s')
  | (OutOfFuel, s') => (OutOfFuel, s')
  end.

(** A computation that leaves the state alone, and the state itself. *)
Definition lift {St A} (r : res A) : M St A := fun s => (r, s).
Definition get_st {St} : M St St := fun s => (Ok s, s).
Definition put_st {St} (s : St) : M St unit := fun _ => (Ok tt, s).
Definition throw {St A} (e : error) : M St A := fun s => (Err e, s).

(** [if err != nil { return fmt.Errorf("ctx: %w", err) }] *)
Definition wrap {St A} (ctx : string) (m : M St A) : M St A := fun s =>
  match m s with
  | (Err e, s') => (Err (Wrap ctx e), s')
  | r => r
  end.

(** A Go slice expression [b[lo:hi]] on a slice whose capacity is its length. *)
Definition slice (b : bytes) (lo hi : Z) : res bytes :=
  if (0 <=? lo) && (lo <=? hi) && (hi <=? len b)
  then Ok (take (Z.to_nat (hi - lo)) (drop (Z.to_nat lo) b))
  else Panic.

(** [binary.LittleEndian.UintNN(b[lo:hi])] *)
Definition uint_at (b : bytes) (lo hi : Z) : res Z := s ← slice b lo hi; Ok (getLE s).

(** A Go index expression [l[i]]. *)
Definition index {A} (l : list A) (i : Z) : res A :=
  if 0 <=? i then
    match l !! Z.to_nat i with Some x => Ok x | None => Panic end
  else Panic.

(** ** Sorted association lists *)

Fixpoint assoc {A} (k : bytes) (l : list (bytes * A)) : option A :=
  match l with
  | [] => None
  | (k', v) :: l => if beqb k' k then Some v else assoc k l
  end.

Definition ksorted {A} (l : list (bytes * A)) : Prop := StronglySorted blt (l.*1).

(** Insertion or replacement in a sorted association list. *)
Fixpoint ains {A} (k : bytes) (v : A) (l : list (bytes * A)) : list (bytes * A) :=
  match l with
  | [] => [(k, v)]
  | (k', v') :: l' =>
      match bcompare k k' with
      | Lt => (k, v) :: l
      | Eq => (k, v) :: l'
      | Gt => (k', v') :: ains k v l'
      end
  end.

(** The entries of a sorted list from the first key not below [k] on. *)
Fixpoint from_key {A} (k : bytes) (l : list (bytes * A)) : list (bytes * A) :=
  match l with
  | [] => []
  | (k', v) :: l' => if bltb k' k then from_key k l' else l
  end.

(** ** Tactics and hint databases *)

Create HintDb kv discriminated.
#[export] Hint Constants Opaque : kv.
Create Rewrite HintDb kvlen.

Ltac lens := unfold len in *; rewrite ?length_app, ?length_take, ?length_drop, ?length_cons,
  ?length_nil, ?length_insert, ?length_replicate in *; try lia.

(** ** Bytes *)

Lemma byteZ_range b : 0 <= byteZ b < 256.
Proof. unfold byteZ. pose proof (Byte.to_N_bounded b). lia. Qed.

Lemma byteZ_inj b c : byteZ b = byteZ c -> b = c.
Proof.
  unfold byteZ. intros H%N2Z.inj.
  pose proof (Byte.of_to_N b) as Hb. pose proof (Byte.of_to_N c) as Hc. congruence.
Qed.

Lemma byteZ_Zbyte z : byteZ (Zbyte z) = z mod 256.
Proof.
  unfold Zbyte, byteZ. pose proof (Z.mod_pos_bound z 256 ltac:(lia)) as Hb.
  destruct (Byte.of_N (Z.to_N (z mod 256))) as [b|] eqn:E.
  - apply Byte.to_of_N in E. rewrite E. lia.
  - apply Byte.of_N_None_iff in E. lia.
Qed.

Lemma Zbyte_byteZ b : Zbyte (byteZ b) = b.
Proof.
  apply byteZ_inj. rewrite byteZ_Zbyte, Z.mod_small; [done|apply byteZ_range].
Qed.

Lemma byteZ_Zbyte_small z : 0 <= z < 256 -> byteZ (Zbyte z) = z.
Proof. intros. rewrite byteZ_Zbyte. by apply Z.mod_small. Qed.

#[global] Instance byte_eq_dec : EqDecision byte.
Proof.
  refine (fun a b => match decide (byteZ a = byteZ b) with left H => left _ | right H => right _ end).
  - exact (byteZ_inj _ _ H).
  - intros ->. exact (H eq_refl).
Defined.

#[global] Program Instance byte_countable : Countable byte :=
  inj_countable byteZ (fun z => Some (Zbyte z)) _.
Next Obligation. intros b. simpl. by rewrite Zbyte_byteZ. Qed.

(** ** Little-endian words *)

Lemma length_putLE n z : length (putLE n z) = n.
Proof. revert z. induction n; intros; simpl; congruence. Qed.

Lemma len_putLE n z : len (putLE n z) = Z.of_nat n.
Proof. unfold len. by rewrite length_putLE. Qed.

Lemma getLE_bound b : 0 <= getLE b < 256 ^ len b.
Proof.
  induction b as [|x b IH]; unfold len in *; [simpl; lia|].
  rewrite length_cons, Nat2Z.inj_succ, Z.pow_succ_r by lia. simpl.
  pose proof (byteZ_range x). nia.
Qed.

Lemma getLE_putLE n z : getLE (putLE n z) = z mod 256 ^ Z.of_nat n.
Proof.
  revert z. induction n as [|n IH]; intros z; [by rewrite Z.mod_1_r|].
  rewrite Nat2Z.inj_succ, Z.pow_succ_r by lia. simpl. rewrite IH, byteZ_Zbyte.
  rewrite Z.rem_mul_r by lia. done.
Qed.

Lemma getLE_putLE32 z : 0 <= z < 2 ^ 32 -> getLE (putLE 4 z) = z.
Proof. intros. rewrite getLE_putLE. by apply Z.mod_small. Qed.

Lemma getLE_putLE32_u32 z : getLE (putLE 4 z) = u32 z.
Proof. by rewrite getLE_putLE. Qed.

Lemma getLE_putLE64 z : 0 <= z < 2 ^ 64 -> getLE (putLE 8 z) = z.
Proof. intros. rewrite getLE_putLE. by apply Z.mod_small. Qed.

Lemma putLE_getLE b : putLE (length b) (getLE b) = b.
Proof.
  induction b as [|x b IH]; [done|]. simpl.
  pose proof (byteZ_range x). f_equal.
  - apply byteZ_inj. rewrite byteZ_Zbyte, Z.mul_comm, Z.mod_add, Z.mod_small; lia.
  - rewrite Z.mul_comm, Z.div_add, Z.div_small, Z.add_0_l by lia. done.
Qed.

Lemma u32_small z : 0 <= z < 2 ^ 32 -> u32 z = z.
Proof. apply Z.mod_small. Qed.

Lemma u32_range z : 0 <= u32 z < 2 ^ 32.
Proof. apply Z.mod_pos_bound. lia. Qed.

Lemma i64_small z : - 2 ^ 63 <= z < 2 ^ 63 -> i64 z = z.
Proof. intros. unfold i64. rewrite Z.mod_small; lia. Qed.

Lemma i64_u64 z : - 2 ^ 63 <= z < 2 ^ 63 -> i64 (u64 z) = z.
Proof.
  intros. unfold i64, u64. rewrite Zplus_mod_idemp_l. fold (i64 z). by apply i64_small.
Qed.

#[global] Opaque putLE getLE.
#[global] Arguments slice : simpl never.
#[global] Arguments len : simpl never.

(** ** Lengths *)

Lemma len_nonneg {A} (l : list A) : 0 <= len l.
Proof. unfold len. lia. Qed.

Lemma len_nil {A} : len (@nil A) = 0.
Proof. done. Qed.

Lemma len_cons {A} (x : A) l : len (x :: l) = 1 + len l.
Proof. unfold len. rewrite length_cons. lia. Qed.

Lemma len_app {A} (l k : list A) : len (l ++ k) = len l + len k.
Proof. unfold len. rewrite length_app. lia. Qed.

Lemma len_0_nil {A} (l : list A) : len l = 0 -> l = [].
Proof. destruct l; [done|]. rewrite len_cons. pose proof (len_nonneg l). lia. Qed.

Lemma len_replicate {A} n (x : A) : len (replicate n x) = Z.of_nat n.
Proof. unfold len. by rewrite length_replicate. Qed.

#[export] Hint Rewrite @len_app @len_cons @len_nil @len_replicate len_putLE : kvlen.

(** ** Lexicographic order *)

Lemma bcompare_eq a b : bcompare a b = Eq <-> a = b.
Proof.
  split; [|intros ->].
  - revert b. induction a as [|x a IH]; intros [|y b]; simpl; try done.
    destruct (Z.compare_spec (byteZ x) (byteZ y)) as [Hxy|Hxy|Hxy]; try done.
    intros Hab. f_equal; [by apply byteZ_inj|by apply IH].
  - induction b as [|y b IH]; simpl; [done|]. by rewrite Z.compare_refl.
Qed.

Lemma bcompare_refl a : bcompare a a = Eq.
Proof. by apply bcompare_eq. Qed.

Lemma bcompare_antisym a b : bcompare b a = CompOpp (bcompare a b).
Proof.
  revert b. induction a as [|x a IH]; intros [|y b]; simpl; try done.
  rewrite (Z.compare_antisym (byteZ x) (byteZ y)).
  destruct (byteZ x ?= byteZ y); simpl; [apply IH|done|done].
Qed.

Lemma blt_trans a b c : a <ₖ b -> b <ₖ c -> a <ₖ c.
Proof.
  unfold blt. revert b c. induction a as [|x a IH]; intros [|y b] [|z c]; simpl; try done.
  destruct (Z.compare_spec (byteZ x) (byteZ y)) as [Hxy|Hxy|Hxy]; try done;
  destruct (Z.compare_spec (byteZ y) (byteZ z)) as [Hyz|Hyz|Hyz]; try done; intros ??;
  destruct (Z.compare_spec (byteZ x) (byteZ z)); try lia; eauto.
Qed.

Lemma blt_irrefl a : ~ a <ₖ a.
Proof. unfold blt. by rewrite bcompare_refl. Qed.

#[global] Instance blt_strict : StrictOrder blt.
Proof. split; [exact blt_irrefl|exact blt_trans]. Qed.

Lemma bltb_spec a b : bltb a b = true <-> a <ₖ b.
Proof. unfold bltb, blt. by destruct (bcompare a b). Qed.

Lemma bltb_false a b : bltb a b = false <-> b ≤ₖ a.
Proof.
  unfold bltb, ble. rewrite (bcompare_antisym a b). by destruct (bcompare a b).
Qed.

Lemma bleb_spec a b : bleb a b = true <-> a ≤ₖ b.
Proof. unfold bleb, ble. destruct (bcompare a b); split; intros; congruence. Qed.

Lemma bleb_bltb a b : bleb a b = negb (bltb b a).
Proof. unfold bleb, bltb. rewrite (bcompare_antisym a b). by destruct (bcompare a b). Qed.

Lemma beqb_spec a b : beqb a b = true <-> a = b.
Proof. unfold beqb. rewrite <- bcompare_eq. by destruct (bcompare a b). Qed.

Lemma beqb_refl a : beqb a a = true.
Proof. by apply beqb_spec. Qed.

Lemma beqb_false a b : beqb a b = false <-> a <> b.
Proof. rewrite <- beqb_spec. destruct (beqb a b); split; intros; congruence. Qed.

Lemma ble_eq_lt a b : a ≤ₖ b <-> a = b \/ a <ₖ b.
Proof.
  unfold ble, blt. rewrite <- bcompare_eq. destruct (bcompare a b); intuition congruence.
Qed.

Lemma blt_not_ble a b : a <ₖ b <-> ~ b ≤ₖ a.
Proof. rewrite <- bltb_false, <- bltb_spec. destruct (bltb a b); intuition congruence. Qed.

Lemma ble_refl a : a ≤ₖ a.
Proof. apply ble_eq_lt. by left. Qed.

Lemma blt_ble a b : a <ₖ b -> a ≤ₖ b.
Proof. intros. apply ble_eq_lt. by right. Qed.

Lemma ble_total a b : a ≤ₖ b \/ b <ₖ a.
Proof.
  destruct (bltb b a) eqn:E; [right; by apply bltb_spec|left; by apply bltb_false].
Qed.

Lemma blt_trichotomy a b : a <ₖ b \/ a = b \/ b <ₖ a.
Proof. destruct (ble_total a b) as [[]%ble_eq_lt|]; auto. Qed.

Lemma ble_lt_trans a b c : a ≤ₖ b -> b <ₖ c -> a <ₖ c.
Proof. intros [->|H]%ble_eq_lt; [done|by apply blt_trans]. Qed.

Lemma blt_le_trans a b c : a <ₖ b -> b ≤ₖ c -> a <ₖ c.
Proof. intros H [<-|H']%ble_eq_lt; [done|by eapply blt_trans]. Qed.

Lemma ble_trans a b c : a ≤ₖ b -> b ≤ₖ c -> a ≤ₖ c.
Proof. intros [->|H]%ble_eq_lt H'; [done|]. by apply blt_ble, (blt_le_trans _ b). Qed.

Lemma blt_ne a b : a <ₖ b -> a <> b.
Proof. intros H ->. by apply blt_irrefl in H. Qed.

#[global] Instance ble_preorder : PreOrder ble.
Proof. split; [exact ble_refl|exact ble_trans]. Qed.

#[global] Instance blt_dec a b : Decision (blt a b).
Proof. unfold blt. apply _. Defined.

#[global] Instance ble_dec a b : Decision (ble a b).
Proof. unfold ble. apply _. Defined.

#[export] Hint Resolve ble_refl blt_ble blt_ne : kv.

(** Case analysis on a boolean key comparison, with the order facts named. *)
Ltac kcase a b :=
  let E := fresh "E" in
  destruct (bltb a b) eqn:E; [apply bltb_spec in E|apply bltb_false in E].

Ltac keq a b :=
  let E := fresh "E" in
  destruct (beqb a b) eqn:E; [apply beqb_spec in E; try subst|apply beqb_false in E].

(** Discharges goals that contradict the strict key order. *)
Ltac korder :=
  subst;
  repeat match goal with
  | H : ?a <ₖ ?a |- _ => by apply blt_irrefl in H
  | H : ?a <ₖ ?b, H' : ?b ≤ₖ ?a |- _ => by apply blt_not_ble in H
  | H : ?a <ₖ ?b, H' : ?b <ₖ ?a |- _ => by destruct (blt_irrefl a (blt_trans _ _ _ H H'))
  | H : ~ (?a ≤ₖ ?b) |- _ => apply blt_not_ble in H
  end; try done; eauto using blt_trans, ble_trans, blt_le_trans, ble_lt_trans with kv.

(** ** Slices *)

Lemma slice_ok b lo hi :
  0 <= lo <= hi -> hi <= len b ->
  slice b lo hi = Ok (take (Z.to_nat (hi - lo)) (drop (Z.to_nat lo) b)).
Proof.
  intros. unfold slice.
  rewrite (proj2 (Z.leb_le 0 lo)), (proj2 (Z.leb_le lo hi)), (proj2 (Z.leb_le hi (len b))) by lia.
  done.
Qed.

(** The slice in the middle of a three-way concatenation. *)
Lemma slice_mid a m c lo hi :
  lo = len a -> hi = lo + len m -> slice (a ++ m ++ c) lo hi = Ok m.
Proof.
  intros -> ->. pose proof (len_nonneg a). pose proof (len_nonneg m). pose proof (len_nonneg c).
  rewrite slice_ok by (autorewrite with kvlen; lia).
  replace (Z.to_nat (len a + len m - len a)) with (length m) by (unfold len; lia).
  unfold len. rewrite Nat2Z.id, drop_app_length, take_app_length. done.
Qed.

Lemma slice_pre m c lo hi : lo = 0 -> hi = len m -> slice (m ++ c) lo hi = Ok m.
Proof. intros -> ->. by apply (slice_mid []). Qed.

Lemma slice_all m lo hi : lo = 0 -> hi = len m -> slice m lo hi = Ok m.
Proof. intros -> ->. rewrite <- (app_nil_r m) at 1. by apply slice_pre. Qed.

Lemma slice_app_r a b lo hi :
  len a <= lo -> slice (a ++ b) lo hi = slice b (lo - len a) (hi - len a).
Proof.
  intros Ha. pose proof (len_nonneg a). unfold slice. rewrite len_app.
  rewrite (proj2 (Z.leb_le 0 lo)), (proj2 (Z.leb_le 0 (lo - len a))) by lia.
  replace (lo - len a <=? hi - len a) with (lo <=? hi) by (destruct (Z.leb_spec lo hi), (Z.leb_spec (lo - len a) (hi - len a)); try done; lia).
  replace (hi - len a <=? len b) with (hi <=? len a + len b)
    by (destruct (Z.leb_spec hi (len a + len b)), (Z.leb_spec (hi - len a) (len b)); try done; lia).
  destruct (_ && _); [|done]. f_equal. f_equal; [lia|]. rewrite drop_app_ge by (unfold len in *; lia).
  f_equal. unfold len. lia.
Qed.

(** Reduces a bind whose first computation is a value. *)
Ltac rstep := cbn [mbind res_bind]; cbv beta iota.

(** Evaluates a slice of a concatenation whose bounds are known lengths. *)
Ltac len_lia := autorewrite with kvlen; lia.
Ltac slice_step :=
  repeat rewrite slice_app_r by len_lia;
  first [rewrite slice_pre by len_lia | rewrite slice_all by len_lia].

Lemma slice_panic b lo hi : hi < lo -> slice b lo hi = Panic.
Proof.
  intros. unfold slice. rewrite (proj2 (Z.leb_gt lo hi)), andb_false_r by lia. done.
Qed.

Lemma index_ok {A} (l : list A) (i : nat) x : l !! i = Some x -> index l (Z.of_nat i) = Ok x.
Proof.
  intros H. unfold index. rewrite (proj2 (Z.leb_le 0 _)) by lia. rewrite Nat2Z.id, H. done.
Qed.

(** ** Sorted association lists *)

Lemma ksorted_nil {A} : ksorted (@nil (bytes * A)).
Proof. constructor. Qed.

Lemma Forall_fst {A B} (P : A -> Prop) (l : list (A * B)) :
  Forall (fun e => P e.1) l <-> Forall P l.*1.
Proof. symmetry. apply (Forall_fmap fst P). Qed.

Lemma ksorted_cons {A} k (v : A) l :
  ksorted ((k, v) :: l) <-> Forall (fun e => k <ₖ e.1) l /\ ksorted l.
Proof.
  unfold ksorted. simpl. rewrite (Forall_fst (blt k)). split.
  - intros H%StronglySorted_inv. tauto.
  - intros []. by constructor.
Qed.

Lemma ksorted_app {A} (l k : list (bytes * A)) :
  ksorted (l ++ k) <->
  ksorted l /\ ksorted k /\ (forall a b, a ∈ l -> b ∈ k -> a.1 <ₖ b.1).
Proof.
  induction l as [|[x v] l IH]; simpl.
  - split; [intros; split_and!; [apply ksorted_nil|done|set_solver]|tauto].
  - rewrite !ksorted_cons, IH, Forall_app, !Forall_forall. split.
    + intros ([H1 H2] & H3 & H4 & H5). split_and!; try done.
      intros a b [->|Ha]%elem_of_cons Hb; [by apply H2|by apply H5].
    + intros ([H1 H2] & H3 & H4). split_and!; try done.
      * intros e He. by apply (H4 (x, v)); [left|].
      * intros a b Ha Hb. apply H4; [by right|done].
Qed.

Lemma assoc_app {A} k (l l' : list (bytes * A)) :
  assoc k (l ++ l') = match assoc k l with Some v => Some v | None => assoc k l' end.
Proof. induction l as [|[k' v] l IH]; simpl; [done|]. by destruct (beqb k' k). Qed.

Lemma assoc_Some {A} k (l : list (bytes * A)) v : assoc k l = Some v -> (k, v) ∈ l.
Proof.
  induction l as [|[k' v'] l IH]; simpl; [done|]. keq k' k; intros H; simplify_eq.
  - left.
  - right. auto.
Qed.

Lemma assoc_None {A} k (l : list (bytes * A)) : assoc k l = None <-> k ∉ l.*1.
Proof.
  induction l as [|[k' v'] l IH]; simpl.
  - split; [intros _; apply not_elem_of_nil|done].
  - rewrite not_elem_of_cons. keq k' k; [split; [done|tauto]|]. rewrite IH. naive_solver.
Qed.

Lemma assoc_elem {A} k (l : list (bytes * A)) v :
  ksorted l -> (k, v) ∈ l -> assoc k l = Some v.
Proof.
  induction l as [|[k' v'] l IH]; [set_solver|].
  rewrite ksorted_cons, Forall_forall. intros [Hlt Hs] [?|Hin]%elem_of_cons; simplify_eq/=.
  - by rewrite beqb_refl.
  - specialize (Hlt _ Hin). keq k' k; [by apply blt_irrefl in Hlt|auto].
Qed.

Lemma assoc_below {A} k (l : list (bytes * A)) :
  Forall (fun e => k <ₖ e.1) l -> assoc k l = None.
Proof.
  intros H. apply assoc_None. rewrite list_elem_of_fmap. intros ([] & -> & Hin).
  rewrite Forall_forall in H. apply H in Hin. by apply blt_irrefl in Hin.
Qed.

Lemma ains_fst {A} k (v : A) l x : x ∈ (ains k v l).*1 <-> x = k \/ x ∈ l.*1.
Proof.
  induction l as [|[k' v'] l IH]; simpl; [set_solver|].
  destruct (bcompare k k') eqn:E; simpl; try set_solver.
  apply bcompare_eq in E. subst. set_solver.
Qed.

Lemma ains_sorted {A} k (v : A) l : ksorted l -> ksorted (ains k v l).
Proof.
  induction l as [|[k' v'] l IH]; simpl.
  - intros _. apply ksorted_cons. auto using ksorted_nil.
  - rewrite ksorted_cons. intros [Hf Hs]. destruct (bcompare k k') eqn:E.
    + apply bcompare_eq in E. subst. by apply ksorted_cons.
    + apply ksorted_cons. rewrite ksorted_cons, Forall_cons. split_and!; try done.
      eapply Forall_impl; [exact Hf|]. intros e ?. by eapply blt_trans.
    + apply ksorted_cons. split; [|auto].
      rewrite (Forall_fst (blt k')), Forall_forall in Hf |- *.
      intros x [->|Hx]%ains_fst; [|auto].
      unfold blt. by rewrite bcompare_antisym, E.
Qed.

Lemma assoc_ains {A} k (v : A) l k' :
  ksorted l -> assoc k' (ains k v l) = if beqb k k' then Some v else assoc k' l.
Proof.
  induction l as [|[k1 v1] l IH]; simpl; [done|].
  rewrite ksorted_cons. intros [Hf Hs]. destruct (bcompare k k1) eqn:E; simpl; [|done|].
  - apply bcompare_eq in E. subst. by destruct (beqb k1 k').
  - rewrite IH by done. keq k1 k'; keq k k'; try done. by rewrite bcompare_refl in E.
Qed.

(** Splitting a sorted list at a key. *)
Lemma from_key_split {A} k (l : list (bytes * A)) :
  ksorted l ->
  exists lo, l = lo ++ from_key k l /\ Forall (fun e => e.1 <ₖ k) lo /\
    Forall (fun e => k ≤ₖ e.1) (from_key k l).
Proof.
  induction l as [|[k' v] l IH]; simpl; [intros _; by exists []|].
  intros Hs. pose proof Hs as [Hf Hs']%ksorted_cons. kcase k' k.
  - destruct (IH Hs') as (lo & Hl & Hlo & Hhi). exists ((k', v) :: lo).
    simpl. rewrite <- Hl. auto.
  - exists []. split_and!; [done..|]. constructor; [done|].
    eapply Forall_impl; [exact Hf|]. intros e ?. by apply blt_ble, (ble_lt_trans _ k').
Qed.

Lemma from_key_app {A} k (lo hi : list (bytes * A)) :
  Forall (fun e => e.1 <ₖ k) lo -> Forall (fun e => k ≤ₖ e.1) hi -> from_key k (lo ++ hi) = hi.
Proof.
  intros Hlo Hhi. induction Hlo as [|[k' v] lo Hk' Hlo IH]; simpl in *.
  - destruct Hhi as [|[k' v] hi Hk']; simpl; [done|]. by rewrite (proj2 (bltb_false _ _)).
  - by rewrite (proj2 (bltb_spec _ _)).
Qed.

Lemma ains_app {A} k (v : A) lo hi :
  Forall (fun e => e.1 <ₖ k) lo -> ains k v (lo ++ hi) = lo ++ ains k v hi.
Proof.
  induction 1 as [|[k' v'] lo Hk' Hlo IH]; simpl in *; [done|].
  by rewrite bcompare_antisym, Hk', IH.
Qed.

Lemma assoc_split {A} k (lo hi : list (bytes * A)) :
  Forall (fun e => e.1 <ₖ k) lo -> assoc k (lo ++ hi) = assoc k hi.
Proof.
  induction 1 as [|[k' v'] lo Hk' Hlo IH]; simpl in *; [done|].
  keq k' k; [by apply blt_irrefl in Hk'|done].
Qed.

(** ** Filters *)

Lemma filter_keep {A} (P : A -> Prop) `{!forall x, Decision (P x)} (l : list A) : Forall P l -> filter P l = l.
Proof. induction 1 as [|x l Hx Hl IH]; [done|]. rewrite filter_cons, decide_True by done. by rewrite IH. Qed.

Lemma filter_drop {A} (P : A -> Prop) `{!forall x, Decision (P x)} (l : list A) :
  Forall (fun x => ~ P x) l -> filter P l = [].
Proof. induction 1 as [|x l Hx Hl IH]; [done|]. by rewrite filter_cons, decide_False by done. Qed.

Lemma filter_ext_in {A} (P Q : A -> Prop) `{!forall x, Decision (P x)} `{!forall x, Decision (Q x)} (l : list A) :
  (forall x, x ∈ l -> P x <-> Q x) -> filter P l = filter Q l.
Proof.
  induction l as [|x l IH]; intros HPQ; [done|]. rewrite !filter_cons, IH by (intros; apply HPQ; by right).
  specialize (HPQ x ltac:(left)). repeat case_decide; tauto.
Qed.

(** ** Inverting computations *)

Lemma M_bind_Ok {St A B} (m : M St A) (k : A -> M St B) s b s' :
  (x ← m; k x) s = (Ok b, s') -> exists a s1, m s = (Ok a, s1) /\ k a s1 = (Ok b, s').
Proof. unfold mbind, M_bind. destruct (m s) as [[] s1]; intros; simplify_eq; eauto. Qed.

Lemma M_bind_run {St A B} (m : M St A) (k : A -> M St B) s a s1 :
  m s = (Ok a, s1) -> (x ← m; k x) s = k a s1.
Proof. unfold mbind, M_bind. by intros ->. Qed.

Lemma res_bind_run {A B} (m : res A) (k : A -> res B) a : m = Ok a -> (x ← m; k x) = k a.
Proof. by intros ->. Qed.

Lemma res_bind_Ok {A B} (m : res A) (k : A -> res B) b :
  (x ← m; k x) = Ok b -> exists a, m = Ok a /\ k a = Ok b.
Proof. destruct m; simpl; intros; simplify_eq; eauto. Qed.

(** Splits a successful stateful computation into its successful steps. *)
Ltac minv H :=
  let a := fresh "a" in let s := fresh "s" in let E := fresh "E" in
  apply M_bind_Ok in H as (a & s & E & H).

(** Runs the slice or index expression at the head of a bind. *)
Ltac slice_solve :=
  repeat rewrite slice_app_r by len_lia;
  first [apply slice_pre; len_lia | apply slice_all; len_lia].
Ltac slice_bind :=
  match goal with
  | |- (mbind ?k (slice ?b ?lo ?hi)) = _ =>
      erewrite (res_bind_run (slice b lo hi) k) by slice_solve; cbv beta
  end.

(** ** Fixed-width reads *)

Lemma slice_total b lo hi : 0 <= lo <= hi -> hi <= len b -> exists c, slice b lo hi = Ok c.
Proof. intros. eexists. by apply slice_ok. Qed.

Lemma uint_at_total b lo hi : 0 <= lo <= hi -> hi <= len b -> exists v, uint_at b lo hi = Ok v /\ 0 <= v.
Proof.
  intros. unfold uint_at. rewrite slice_ok by lia. eexists. split; [done|]. apply getLE_bound.
Qed.

Lemma uint_at_pre a c lo hi : lo = 0 -> hi = len a -> uint_at (a ++ c) lo hi = Ok (getLE a).
Proof. intros. unfold uint_at. by rewrite slice_pre. Qed.

Lemma uint_at_all a lo hi : lo = 0 -> hi = len a -> uint_at a lo hi = Ok (getLE a).
Proof. intros. unfold uint_at. by rewrite slice_all. Qed.

Lemma uint_at_app_r a b lo hi :
  len a <= lo -> uint_at (a ++ b) lo hi = uint_at b (lo - len a) (hi - len a).
Proof. intros. unfold uint_at. by rewrite slice_app_r. Qed.

(** Runs the fixed-width read at the head of a bind. *)
Ltac uint_solve :=
  repeat rewrite uint_at_app_r by len_lia;
  first [apply uint_at_pre; len_lia | apply uint_at_all; len_lia].
Ltac uint_bind :=
  match goal with
  | |- (mbind ?k (uint_at ?b ?lo ?hi)) = _ =>
      erewrite (res_bind_run (uint_at b lo hi) k) by uint_solve; cbv beta
  end.
