(* ===== verification/GoStd.v ===== *)
(** * The parts of Go's standard library the store uses

    [hash/crc32] (IEEE), [hash/fnv] (32a and 64a), [io.ReadFull] on a byte
    stream, an [os.File] opened for appending, and [bufio.Writer].

    System calls take their outcome from the file's [faults] plan: an entry
    [None] is a call that succeeds, [Some n] one that fails after [n] bytes
    were transferred; an exhausted plan is a device without faults.  [synced]
    is the length of the prefix that an [fsync] made durable. *)

From S2P Require Import Prelude.

(** ** hash/crc32 *)

Definition crc_shift (c : Z) : Z :=
  if Z.testbit c 0 then Z.lxor (Z.shiftr c 1) 0xEDB88320 else Z.shiftr c 1.

Definition crc_update (c : Z) (b : byte) : Z :=
  Nat.iter 8 crc_shift (Z.lxor c (byteZ b)).

Definition ChecksumIEEE (data : bytes) : Z :=
  Z.lxor (fold_left crc_update data 0xFFFFFFFF) 0xFFFFFFFF.

(** ** hash/fnv *)

Definition fnv32a (key : bytes) : Z :=
  fold_left (fun h b => u32 (Z.lxor h (byteZ b) * 16777619)) key 2166136261.

Definition fnv64a (key : bytes) : Z :=
  fold_left (fun h b => u64 (Z.lxor h (byteZ b) * 1099511628211)) key 14695981039346656037.

(** ** io.ReadFull *)

(** [ReadFull n s] reads exactly [n] bytes of the stream [s]; it returns them
    with the rest of the stream. *)
Definition ReadFull (n : Z) (s : bytes) : res (bytes * bytes) :=
  if n <=? len s then Ok (take (Z.to_nat n) s, drop (Z.to_nat n) s)
  else if bool_decide (s = []) then Err ErrEOF
  else Err ErrUnexpectedEOF.

(** [if n > 0 { io.ReadFull(f, buf) }] *)
Definition ReadSome (n : Z) (s : bytes) : res (bytes * bytes) :=
  if 0 <? n then ReadFull n s else Ok ([], s).

(** ** os.File, appended to at its end *)

Abbreviation fault := (option nat).

Record File := mkFile {
  contents : bytes;
  synced : nat;
  faults : list fault;
  fclosed : bool
}.

(** A call on a closed file fails without transferring anything. *)
Definition next_fault (f : File) : fault :=
  if fclosed f then Some 0%nat else default None (head (faults f)).

Definition File_Write (p : bytes) : M File Z := fun f =>
  match next_fault f with
  | None => (Ok (len p), mkFile (contents f ++ p) (synced f) (tail (faults f)) (fclosed f))
  | Some n => (Err ErrIO, mkFile (contents f ++ take n p) (synced f) (tail (faults f)) (fclosed f))
  end.

Definition File_Sync : M File unit := fun f =>
  match next_fault f with
  | None => (Ok tt, mkFile (contents f) (length (contents f)) (tail (faults f)) (fclosed f))
  | Some _ => (Err ErrIO, mkFile (contents f) (synced f) (tail (faults f)) (fclosed f))
  end.

Definition File_Close : M File unit := fun f =>
  match next_fault f with
  | None => (Ok tt, mkFile (contents f) (synced f) (tail (faults f)) true)
  | Some _ => (Err ErrIO, mkFile (contents f) (synced f) (tail (faults f)) true)
  end.

(** A power failure keeps the synced prefix and any part of what follows it. *)
Definition crash (n : nat) (f : File) : File :=
  mkFile (take (synced f + n) (contents f)) (length (take (synced f + n) (contents f))) [] true.

(** ** bufio.Writer with the default 4096-byte buffer *)

Definition bufSize : Z := 4096.

Record Bufio := mkBufio {
  bfile : File;
  bbuf : bytes;
  berr : option error
}.

Definition bufio_NewWriter (f : File) : Bufio := mkBufio f [] None.

Definition Available (b : Bufio) : Z := bufSize - len (bbuf b).

(** The number of bytes a failing write of [p] transferred. *)
Definition transferred (f : File) (p : bytes) : bytes :=
  match next_fault f with None => p | Some n => take n p end.

Definition bufio_Flush : M Bufio unit := fun b =>
  match berr b with
  | Some e => (Err e, b)
  | None =>
      if bool_decide (bbuf b = []) then (Ok tt, b)
      else match File_Write (bbuf b) (bfile b) with
           | (Ok _, f) => (Ok tt, mkBufio f [] None)
           | (_, f) =>
               (Err ErrIO,
                mkBufio f (drop (length (transferred (bfile b) (bbuf b))) (bbuf b)) (Some ErrIO))
           end
  end.

(** One iteration of the loop of [Write] for a [p] that does not fit; the
    second component is what remains of [p]. *)
Definition bufio_spill (p : bytes) (b : Bufio) : Bufio * bytes :=
  if bool_decide (bbuf b = []) then
    match File_Write p (bfile b) with
    | (Ok _, f) => (mkBufio f [] None, [])
    | (_, f) =>
        (mkBufio f [] (Some ErrIO), drop (length (transferred (bfile b) p)) p)
    end
  else
    let room := Z.to_nat (Available b) in
    (snd (bufio_Flush (mkBufio (bfile b) (bbuf b ++ take room p) None)), drop room p).

(** The loop body runs at most twice: once to top up and flush a non-empty
    buffer, once to write the rest directly. *)
Fixpoint bufio_spills (fuel : nat) (p : bytes) (b : Bufio) : res (Bufio * bytes) :=
  if (Available b <? len p) && bool_decide (berr b = None) then
    match fuel with
    | O => OutOfFuel
    | S fuel => let '(b', p') := bufio_spill p b in bufio_spills fuel p' b'
    end
  else Ok (b, p).

Definition bufio_Write (p : bytes) : M Bufio Z := fun b =>
  match bufio_spills 3 p b with
  | Ok (b', p') =>
      match berr b' with
      | Some e => (Err e, b')
      | None => (Ok (len p), mkBufio (bfile b') (bbuf b' ++ p') None)
      end
  | Err e => (Err e, b)
  | Panic => (Panic, b)
  | OutOfFuel => (OutOfFuel, b)
  end.

Definition bufio_WriteByte (c : byte) : M Bufio unit := fun b =>
  match berr b with
  | Some e => (Err e, b)
  | None =>
      let '(r, b') := if Available b <=? 0 then bufio_Flush b else (Ok tt, b) in
      match r with
      | Ok _ => (Ok tt, mkBufio (bfile b') (bbuf b' ++ [c]) None)
      | _ => (r, b')
      end
  end.

(** Everything the writer accepted: what reached the file, then the buffer. *)
Definition bstream (b : Bufio) : bytes := contents (bfile b) ++ bbuf b.

(** The buffer never exceeds its capacity and is in use only without an error. *)
Definition bufio_wf (b : Bufio) : Prop := len (bbuf b) <= bufSize.

(** A file on a device that will not fail. *)
Definition healthy (f : File) : Prop := faults f = [] /\ fclosed f = false.

(** ** Checksums are 32-bit words *)

Lemma lxor_bound n a b : 0 < n -> 0 <= a < 2 ^ n -> 0 <= b < 2 ^ n -> 0 <= Z.lxor a b < 2 ^ n.
Proof.
  intros Hn Ha Hb. split; [apply Z.lxor_nonneg; split; lia|].
  assert (Z.lxor a b = Z.lxor a b mod 2 ^ n) as ->; [|apply Z.mod_pos_bound; lia].
  rewrite <- Z.land_ones by lia. apply Z.bits_inj'. intros i Hi.
  rewrite Z.land_spec, Z.lxor_spec, Z.testbit_ones_nonneg by lia.
  destruct (Z.ltb_spec i n); [by rewrite andb_true_r|].
  rewrite (Z.bits_above_log2 a), (Z.bits_above_log2 b); [done| | | |]; try lia.
  - destruct (decide (b = 0)) as [->|]; [simpl; lia|]. apply Z.log2_lt_pow2; [lia|].
    pose proof (Z.pow_le_mono_r 2 n i). lia.
  - destruct (decide (a = 0)) as [->|]; [simpl; lia|]. apply Z.log2_lt_pow2; [lia|].
    pose proof (Z.pow_le_mono_r 2 n i). lia.
Qed.

Lemma crc_shift_bound c : 0 <= c < 2 ^ 32 -> 0 <= crc_shift c < 2 ^ 32.
Proof.
  intros Hc. unfold crc_shift.
  assert (0 <= Z.shiftr c 1 < 2 ^ 32).
  { rewrite Z.shiftr_div_pow2 by lia. change (2 ^ 1) with 2.
    pose proof (Z.div_pos c 2). pose proof (Z.div_le_upper_bound c 2 c). lia. }
  destruct (Z.testbit c 0); [|done]. apply lxor_bound; lia.
Qed.

Lemma crc_update_bound c b : 0 <= c < 2 ^ 32 -> 0 <= crc_update c b < 2 ^ 32.
Proof.
  intros Hc. unfold crc_update. pose proof (byteZ_range b).
  assert (0 <= Z.lxor c (byteZ b) < 2 ^ 32) as Hx by (apply lxor_bound; lia).
  generalize dependent (Z.lxor c (byteZ b)). intros x Hx. simpl.
  do 8 apply crc_shift_bound. done.
Qed.

Lemma ChecksumIEEE_bound data : 0 <= ChecksumIEEE data < 2 ^ 32.
Proof.
  unfold ChecksumIEEE. apply lxor_bound; [lia| |lia].
  assert (forall c, 0 <= c < 2 ^ 32 -> 0 <= fold_left crc_update data c < 2 ^ 32) as H.
  { induction data as [|b data IH]; intros c Hc; simpl; [done|]. by apply IH, crc_update_bound. }
  apply H. lia.
Qed.

(** The published check value of CRC-32/ISO-HDLC on the ASCII string 123456789. *)
Example ChecksumIEEE_check :
  ChecksumIEEE [x31; x32; x33; x34; x35; x36; x37; x38; x39] = 0xCBF43926.
Proof. vm_compute. reflexivity. Qed.

(** The published FNV-1a values of the one-byte string a. *)
Example fnv_check : fnv32a [x61] = 0xE40C292C /\ fnv64a [x61] = 0xAF63DC4C8601EC8C.
Proof. split; vm_compute; reflexivity. Qed.

(** ** Reading *)

Lemma ReadFull_app a s : ReadFull (len a) (a ++ s) = Ok (a, s).
Proof.
  unfold ReadFull. rewrite (proj2 (Z.leb_le _ _)) by (rewrite len_app; pose proof (len_nonneg s); lia).
  unfold len. rewrite Nat2Z.id, take_app_length, drop_app_length. done.
Qed.

Lemma ReadFull_app' n a s : n = len a -> ReadFull n (a ++ s) = Ok (a, s).
Proof. intros ->. apply ReadFull_app. Qed.

Lemma ReadFull_short n s : len s < n -> exists e, ReadFull n s = Err e.
Proof.
  intros. unfold ReadFull. rewrite (proj2 (Z.leb_gt _ _)) by done. case_bool_decide; eauto.
Qed.

Lemma ReadFull_Ok n s a r : 0 <= n -> ReadFull n s = Ok (a, r) -> s = a ++ r /\ len a = n.
Proof.
  unfold ReadFull. intros Hn. destruct (Z.leb_spec n (len s)); [|by case_bool_decide].
  intros ?. simplify_eq. rewrite take_drop. split; [done|].
  unfold len in *. rewrite length_take. lia.
Qed.

Lemma ReadSome_app a s : ReadSome (len a) (a ++ s) = Ok (a, s).
Proof.
  unfold ReadSome. destruct (Z.ltb_spec 0 (len a)); [apply ReadFull_app|].
  pose proof (len_nonneg a). by rewrite (len_0_nil a) by lia.
Qed.

(** Reading does not look past what it consumes. *)
Lemma ReadFull_mono n s a r q : ReadFull n s = Ok (a, r) -> ReadFull n (s ++ q) = Ok (a, r ++ q).
Proof.
  unfold ReadFull. destruct (Z.leb_spec n (len s)); [|by case_bool_decide].
  intros ?; simplify_eq. rewrite (proj2 (Z.leb_le _ _)) by (rewrite len_app; pose proof (len_nonneg q); lia).
  rewrite take_app_le, drop_app_le by (unfold len in *; lia). done.
Qed.

Lemma ReadSome_mono n s a r q : ReadSome n s = Ok (a, r) -> ReadSome n (s ++ q) = Ok (a, r ++ q).
Proof. unfold ReadSome. case_match; [apply ReadFull_mono|]. intros. by simplify_eq. Qed.

Lemma ReadFull_cases n s :
  0 <= n -> (exists a r, ReadFull n s = Ok (a, r) /\ len a = n) \/ exists e, ReadFull n s = Err e.
Proof.
  intros Hn. unfold ReadFull. destruct (Z.leb_spec n (len s)); [left|right; case_bool_decide; eauto].
  eexists _, _. split; [done|]. unfold len in *. rewrite length_take. lia.
Qed.

Lemma ReadSome_cases n s : (exists a r, ReadSome n s = Ok (a, r)) \/ exists e, ReadSome n s = Err e.
Proof.
  unfold ReadSome. destruct (Z.ltb_spec 0 n); [|eauto].
  destruct (ReadFull_cases n s) as [(a & r & ? & _)|]; [lia|eauto|eauto].
Qed.

(** Follows a chain of successful reads, extending each by [q]. *)
Ltac mono_step q H :=
  let a := fresh "a" in let E := fresh "E" in
  apply res_bind_Ok in H as (a & E & H);
  first [destruct a as [? ?]; first [rewrite (ReadFull_mono _ _ _ _ q E)|rewrite (ReadSome_mono _ _ _ _ q E)]
        |rewrite E]; rstep.

(** ** Files and buffered writers *)

Lemma File_Write_Ok p f n f' :
  File_Write p f = (Ok n, f') ->
  n = len p /\ contents f' = contents f ++ p /\ synced f' = synced f /\ faults f' = tail (faults f) /\
  fclosed f = false /\ fclosed f' = false.
Proof.
  unfold File_Write, next_fault. destruct (fclosed f); [done|].
  destruct (default None _); intros; simplify_eq/=; done.
Qed.

Lemma File_Sync_Ok f u f' :
  File_Sync f = (Ok u, f') ->
  contents f' = contents f /\ synced f' = length (contents f) /\ faults f' = tail (faults f) /\
  fclosed f = false /\ fclosed f' = false.
Proof.
  unfold File_Sync, next_fault. destruct (fclosed f); [done|].
  destruct (default None _); intros; simplify_eq/=; done.
Qed.

Lemma File_Write_healthy p f :
  healthy f -> File_Write p f = (Ok (len p), mkFile (contents f ++ p) (synced f) [] false).
Proof. intros [H1 H2]. unfold File_Write, next_fault. by rewrite H1, H2. Qed.

Lemma File_Sync_healthy f :
  healthy f -> File_Sync f = (Ok tt, mkFile (contents f) (length (contents f)) [] false).
Proof. intros [H1 H2]. unfold File_Sync, next_fault. by rewrite H1, H2. Qed.

Lemma healthy_grow c n : healthy (mkFile c n [] false).
Proof. done. Qed.

Lemma bufio_Flush_Ok b u b' :
  bufio_Flush b = (Ok u, b') ->
  berr b = None /\ berr b' = None /\ bbuf b' = [] /\ contents (bfile b') = bstream b.
Proof.
  unfold bufio_Flush, bstream. destruct (berr b) as [e|] eqn:Eb; [done|].
  case_bool_decide as Hb.
  - intros ?; simplify_eq. rewrite Hb, app_nil_r, Eb. done.
  - destruct (File_Write (bbuf b) (bfile b)) as [[n| | |] f] eqn:E; intros; simplify_eq/=.
    apply File_Write_Ok in E as (_ & -> & _). done.
Qed.

Lemma bufio_Flush_nofault b :
  berr b = None -> healthy (bfile b) ->
  exists b', bufio_Flush b = (Ok tt, b') /\ healthy (bfile b').
Proof.
  intros He Hf. unfold bufio_Flush. rewrite He. case_bool_decide; [eauto|].
  rewrite File_Write_healthy by done. eauto using healthy_grow.
Qed.

Lemma bufio_spill_ok p b b' p' :
  berr b = None -> bufio_spill p b = (b', p') -> berr b' = None ->
  bstream b' ++ p' = bstream b ++ p /\ bbuf b' = [] /\ len p' <= len p.
Proof.
  intros He. unfold bufio_spill. case_bool_decide as Hb.
  - destruct (File_Write p (bfile b)) as [[n| | |] f] eqn:E; intros; simplify_eq/=.
    apply File_Write_Ok in E as (_ & Hc & _). unfold bstream. rewrite Hb. simpl.
    rewrite Hc, !app_nil_r. pose proof (len_nonneg p). done.
  - destruct (bufio_Flush _) as [r b2] eqn:E. simpl. intros ?; simplify_eq. intros He'.
    assert (exists u, r = Ok u) as [u ->].
    { unfold bufio_Flush in E. simpl in E. case_bool_decide; [simplify_eq; eauto|].
      destruct (File_Write _ _) as [[]?]; simplify_eq/=; eauto. }
    apply bufio_Flush_Ok in E as (_ & _ & Hbb & Hc). unfold bstream in *. simpl in *.
    rewrite Hbb, Hc, app_nil_r, <- !app_assoc, take_drop. split_and!; try done. lens.
Qed.

Lemma bufio_spills_ok fuel p b b' p' :
  bufio_spills fuel p b = Ok (b', p') -> berr b' = None ->
  berr b = None /\ bstream b' ++ p' = bstream b ++ p.
Proof.
  revert p b. induction fuel as [|fuel IH]; intros p b; simpl;
    destruct ((Available b <? len p) && bool_decide (berr b = None)) eqn:E; intros H He';
    simplify_eq; auto.
  apply andb_prop in E as [_ Hb%bool_decide_eq_true].
  destruct (bufio_spill p b) as [b2 p2] eqn:Es. apply IH in H as [He2 Hst]; [|done].
  apply bufio_spill_ok in Es as (Hs & _); [|done..]. split; [done|congruence].
Qed.

Lemma bufio_Write_Ok p b n b' :
  bufio_Write p b = (Ok n, b') ->
  berr b = None /\ berr b' = None /\ n = len p /\ bstream b' = bstream b ++ p.
Proof.
  unfold bufio_Write. destruct (bufio_spills 3 p b) as [[b2 p2]| | |] eqn:E; try done.
  destruct (berr b2) eqn:Eb; intros; simplify_eq.
  apply bufio_spills_ok in E as [Hb Hs]; [|done]. split_and!; try done.
  unfold bstream in *. simpl. by rewrite <- Hs, app_assoc.
Qed.

Lemma bufio_spill_nofault p b :
  berr b = None -> healthy (bfile b) ->
  berr (bufio_spill p b).1 = None /\ healthy (bfile (bufio_spill p b).1).
Proof.
  intros He Hf. unfold bufio_spill, bufio_Flush. simpl. rewrite !File_Write_healthy by done.
  repeat case_bool_decide; done.
Qed.

Lemma bufio_spill_decrease p b :
  bbuf (bufio_spill p b).1 = [] \/ berr (bufio_spill p b).1 <> None.
Proof.
  unfold bufio_spill, bufio_Flush. simpl. case_bool_decide.
  - unfold File_Write. destruct (next_fault _); simpl; auto.
  - case_bool_decide; simpl; [auto|]. unfold File_Write. destruct (next_fault _); simpl; auto.
Qed.

Lemma bufio_spill_direct p b : bbuf b = [] -> berr (bufio_spill p b).1 = None -> (bufio_spill p b).2 = [].
Proof.
  intros Hb. unfold bufio_spill. rewrite bool_decide_true by done.
  unfold File_Write. by destruct (next_fault _).
Qed.

Lemma bufio_spills_done fuel p b :
  berr b <> None \/ len p <= Available b -> bufio_spills fuel p b = Ok (b, p).
Proof.
  intros H. assert ((Available b <? len p) && bool_decide (berr b = None) = false) as E.
  { destruct H as [H|H]; [by rewrite (bool_decide_false _ H), andb_false_r|].
    by rewrite (proj2 (Z.ltb_ge _ _) H). }
  destruct fuel; simpl; by rewrite E.
Qed.

(** Two iterations always suffice: the loop of [Write] terminates. *)
Lemma bufio_spills_total p b : exists r, bufio_spills 3 p b = Ok r.
Proof.
  assert (forall fuel p b, bbuf b = [] -> exists r, bufio_spills (S fuel) p b = Ok r) as Hempty.
  { intros fuel p0 b0 Hb. cbn [bufio_spills]. destruct (_ && _); [|eauto].
    destruct (bufio_spill p0 b0) as [b1 p1] eqn:Es. exists (b1, p1). apply bufio_spills_done.
    destruct (berr b1) eqn:Eb; [by left|right].
    pose proof (bufio_spill_direct p0 b0 Hb) as Hd. pose proof (bufio_spill_decrease p0 b0) as Hl.
    rewrite Es in Hd, Hl. simpl in *. rewrite Hd by done.
    destruct Hl as [Hl|]; [|done]. unfold Available, bufSize. rewrite Hl, !len_nil. lia. }
  cbn [bufio_spills]. destruct (_ && _); [|eauto].
  destruct (bufio_spill p b) as [b1 p1] eqn:Es.
  destruct (bufio_spill_decrease p b) as [Hd|Hd]; rewrite Es in Hd; simpl in Hd.
  - apply (Hempty 1%nat p1 b1 Hd).
  - exists (b1, p1). change (bufio_spills 2 p1 b1 = Ok (b1, p1)). apply bufio_spills_done. by left.
Qed.

Lemma bufio_spills_nofault fuel p b b' p' :
  berr b = None -> healthy (bfile b) -> bufio_spills fuel p b = Ok (b', p') ->
  berr b' = None /\ healthy (bfile b').
Proof.
  revert p b. induction fuel as [|fuel IH]; intros p b He Hf; simpl;
    (destruct (_ && _) eqn:E; [|intros; simplify_eq; done]); [done|].
  destruct (bufio_spill p b) as [b1 p1] eqn:Es. intros H.
  destruct (bufio_spill_nofault p b He Hf) as [H1 H2]. rewrite Es in H1, H2. eauto.
Qed.

Lemma bufio_Write_nofault p b :
  berr b = None -> healthy (bfile b) ->
  exists b', bufio_Write p b = (Ok (len p), b') /\ healthy (bfile b').
Proof.
  intros He Hf. unfold bufio_Write. destruct (bufio_spills_total p b) as [[b1 p1] E].
  rewrite E. destruct (bufio_spills_nofault _ _ _ _ _ He Hf E) as [-> H]. eauto.
Qed.

(** ** What reaches the disk, also when a call fails *)

Lemma File_Write_prefix p f r f' :
  File_Write p f = (r, f') ->
  exists q, q `prefix_of` p /\ contents f' = contents f ++ q /\ synced f' = synced f.
Proof.
  unfold File_Write. destruct (next_fault f) as [n|]; intros ?; simplify_eq/=.
  - exists (take n p). split_and!; try done. exists (drop n p). by rewrite take_drop.
  - by exists p.
Qed.

Lemma File_Sync_any f r f' :
  File_Sync f = (r, f') ->
  contents f' = contents f /\ (synced f' = synced f \/ synced f' = length (contents f)).
Proof. unfold File_Sync. destruct (next_fault f); intros ?; simplify_eq/=; auto. Qed.

(** A write through an empty buffer puts a prefix of the data into the file
    and keeps the rest buffered, whatever fails. *)
Lemma bufio_Write_prefix p b r b' :
  bbuf b = [] -> berr b = None -> bufio_Write p b = (r, b') ->
  exists q, contents (bfile b') = contents (bfile b) ++ q /\ q `prefix_of` p /\
    synced (bfile b') = synced (bfile b) /\ (berr b' = None -> q ++ bbuf b' = p).
Proof.
  intros Hb He. unfold bufio_Write. cbn [bufio_spills].
  rewrite (bool_decide_true (berr b = None)), andb_true_r by done.
  destruct (Available b <? len p) eqn:Ea.
  - destruct (bufio_spill p b) as [b1 p1] eqn:Es.
    assert (exists q, contents (bfile b1) = contents (bfile b) ++ q /\ q `prefix_of` p /\
      synced (bfile b1) = synced (bfile b) /\ bbuf b1 = [] /\ (berr b1 = None -> q = p /\ p1 = [])) as (q & Hc & Hq & Hsy & Hb1 & Hq1).
    { unfold bufio_spill in Es. rewrite bool_decide_true in Es by done.
      destruct (File_Write p (bfile b)) as [rw f] eqn:Ew.
      pose proof (File_Write_prefix _ _ _ _ Ew) as (q & Hq & Hc & Hsy).
      destruct rw; simplify_eq/=; exists q; split_and!; try done.
      apply File_Write_Ok in Ew as (_ & Hc' & _). intros _. rewrite Hc in Hc'.
      split; [by apply (inj (contents (bfile b) ++.)) in Hc'|done]. }
    change (if (Available b1 <? len p1) && bool_decide (berr b1 = None) then _ else _)
      with (bufio_spills 2 p1 b1).
    rewrite bufio_spills_done.
    2: { destruct (berr b1) eqn:Eb1; [by left|right]. destruct (Hq1 eq_refl) as [_ ->].
         unfold Available. rewrite Hb1, !len_nil. done. }
    destruct (berr b1) eqn:Eb1; intros ?; simplify_eq/=.
    + exists q. split_and!; try done. congruence.
    + exists q. split_and!; try done. destruct (Hq1 eq_refl) as [-> ->]. intros _. by rewrite Hb1, app_nil_r.
  - rewrite He. intros ?; simplify_eq/=. exists []. rewrite Hb, app_nil_r.
    split_and!; try done. apply prefix_nil.
Qed.

Lemma bufio_Flush_prefix b r b' :
  bufio_Flush b = (r, b') ->
  exists q, contents (bfile b') = contents (bfile b) ++ q /\ q `prefix_of` bbuf b /\
    synced (bfile b') = synced (bfile b).
Proof.
  unfold bufio_Flush. destruct (berr b).
  { intros ?; simplify_eq. exists []. rewrite app_nil_r. split_and!; try done. apply prefix_nil. }
  case_bool_decide.
  { intros ?; simplify_eq. exists []. rewrite app_nil_r. split_and!; try done. apply prefix_nil. }
  destruct (File_Write (bbuf b) (bfile b)) as [rw f] eqn:Ew.
  pose proof (File_Write_prefix _ _ _ _ Ew) as (q & Hq & Hc & Hsy).
  destruct rw; intros ?; simplify_eq/=; by exists q.
Qed.

Lemma bufio_WriteByte_Ok c b u b' :
  bufio_WriteByte c b = (Ok u, b') -> berr b' = None /\ bstream b' = bstream b ++ [c].
Proof.
  unfold bufio_WriteByte. destruct (berr b) eqn:Eb; [done|]. destruct (Available b <=? 0).
  - destruct (bufio_Flush b) as [[]b1] eqn:Ef; intros; simplify_eq/=.
    apply bufio_Flush_Ok in Ef as (_ & _ & Hbb & Hc). split; [done|].
    unfold bstream in *. simpl. by rewrite Hbb, Hc.
  - intros; simplify_eq/=. split; [done|]. unfold bstream. simpl. by rewrite app_assoc.
Qed.

Lemma bufio_WriteByte_nofault c b :
  berr b = None -> healthy (bfile b) ->
  exists b', bufio_WriteByte c b = (Ok tt, b') /\ berr b' = None /\ healthy (bfile b').
Proof.
  intros He Hf. unfold bufio_WriteByte. rewrite He. destruct (Available b <=? 0); [|eauto].
  destruct (bufio_Flush_nofault b He Hf) as (b' & -> & Hb'). simpl. eauto.
Qed.
