(* ===== verification/SkipList.v ===== *)
(** * memtable/skiplist.go: the skip list behind the memtable

    Nodes live in a store [sl_nodes] and are named by their position in it;
    allocating a node appends to the store, so pointers are shared exactly as
    in the code.  [coins] are the outcomes of [rng.Float64() < pFactor] that
    one call of [randomLevel] draws.

    [sl_wf] is the representation invariant: every level links exactly the
    nodes tall enough for it, in strictly increasing key order.  The theorems
    show that [Put], [Get] and the iterator refine a sorted association list
    of keys to values, a [None] value being a tombstone. *)

From S2P Require Import Prelude.

Definition maxLevel : nat := 20.

Abbreviation loc := nat.

Record node := mkNode {
  nkey : bytes;
  nvalue : option bytes;
  forward : list (option loc)
}.

Record SkipList := mkSkipList {
  sl_nodes : list node;
  sl_head : loc;
  sl_level : nat;
  sl_count : Z;
  sl_size : Z
}.

Definition NewSkipList : SkipList :=
  mkSkipList [mkNode [] None (replicate maxLevel None)] 0%nat 0%nat 0 0.

(** [for lvl < maxLevel && rng.Float64() < pFactor { lvl++ }] from [lvl]. *)
Fixpoint randomLevel_from (lvl : nat) (coins : list bool) : nat :=
  match coins with
  | c :: coins => if (lvl <? maxLevel)%nat && c then randomLevel_from (S lvl) coins else lvl
  | [] => lvl
  end.

Definition randomLevel (coins : list bool) : nat := randomLevel_from 1 coins.

Definition copyBytes (b : option bytes) : option bytes :=
  match b with None => None | Some b => Some b end.

Definition vlen (v : option bytes) : Z := match v with None => 0 | Some v => len v end.

(** ** Pointer accesses *)

Definition deref (ns : list node) (p : loc) : res node :=
  match ns !! p with Some n => Ok n | None => Panic end.

Definition load_fwd (ns : list node) (p : loc) (i : nat) : res (option loc) :=
  n ← deref ns p;
  match forward n !! i with Some q => Ok q | None => Panic end.

Definition store_fwd (ns : list node) (p : loc) (i : nat) (q : option loc) : res (list node) :=
  n ← deref ns p;
  if (i <? length (forward n))%nat
  then Ok (<[p := mkNode (nkey n) (nvalue n) (<[i := q]> (forward n))]> ns)
  else Panic.

(** ** Searching *)

(** The inner loop: follow level [i] while the next key is below [key]. *)
Fixpoint walk (fuel : nat) (ns : list node) (i : nat) (key : bytes) (current : loc) : res loc :=
  match fuel with
  | O => OutOfFuel
  | S fuel =>
      next ← load_fwd ns current i;
      match next with
      | None => Ok current
      | Some q =>
          n ← deref ns q;
          if bltb (nkey n) key then walk fuel ns i key q else Ok current
      end
  end.

(** The outer loop of [Put]: descend from level [i - 1] to 0, recording the
    predecessor at each level. *)
Fixpoint search_update (ns : list node) (key : bytes) (i : nat) (current : loc)
    (update : list (option loc)) : res (loc * list (option loc)) :=
  match i with
  | O => Ok (current, update)
  | S i =>
      current ← walk (length ns) ns i key current;
      search_update ns key i current (<[i := Some current]> update)
  end.

(** The outer loop of [Get] and [Seek]. *)
Fixpoint search (ns : list node) (key : bytes) (i : nat) (current : loc) : res loc :=
  match i with
  | O => Ok current
  | S i => current ← walk (length ns) ns i key current; search ns key i current
  end.

(** [target != nil && bytes.Equal(target.key, key)] *)
Definition hit (ns : list node) (target : option loc) (key : bytes) : res (option (loc * node)) :=
  match target with
  | None => Ok None
  | Some t => n ← deref ns t; Ok (if beqb (nkey n) key then Some (t, n) else None)
  end.

(** [for i := sl.level; i < lvl; i++ { update[i] = sl.head }] *)
Definition fill_update (update : list (option loc)) (h : loc) (from lvl : nat) : list (option loc) :=
  fold_left (fun u i => <[i := Some h]> u) (seq from (lvl - from)) update.

(** [newNode.forward[i] = update[i].forward[i]; update[i].forward[i] = newNode]
    for every [i] of [lvls]. *)
Fixpoint link (ns : list node) (update : list (option loc)) (newNode : loc) (lvls : list nat)
    : res (list node) :=
  match lvls with
  | [] => Ok ns
  | i :: lvls =>
      u ← match update !! i with Some (Some u) => Ok u | _ => Panic end;
      next ← load_fwd ns u i;
      ns ← store_fwd ns newNode i next;
      ns ← store_fwd ns u i (Some newNode);
      link ns update newNode lvls
  end.

(** The update of an existing node. *)
Definition put_existing (value : option bytes) (t : loc) (n : node) (sl : SkipList) : SkipList :=
  mkSkipList (<[t := mkNode (nkey n) (copyBytes value) (forward n)]> (sl_nodes sl))
    (sl_head sl) (sl_level sl) (sl_count sl)
    (sl_size sl + (vlen value - vlen (nvalue n))).

(** The insertion of a new node. *)
Definition put_new (coins : list bool) (key : bytes) (value : option bytes)
    (update : list (option loc)) (sl : SkipList) : res SkipList :=
  let lvl := randomLevel coins in
  let grow := (sl_level sl <? lvl)%nat in
  let update := if grow then fill_update update (sl_head sl) (sl_level sl) lvl else update in
  let level := if grow then lvl else sl_level sl in
  let newNode := length (sl_nodes sl) in
  let ns := sl_nodes sl ++ [mkNode key (copyBytes value) (replicate lvl None)] in
  ns ← link ns update newNode (seq 0 lvl);
  Ok (mkSkipList ns (sl_head sl) level (sl_count sl + 1)
        (sl_size sl + (len key + vlen value + Z.of_nat lvl * 8 + 64))).

Definition SkipList_Put (coins : list bool) (key : bytes) (value : option bytes) (sl : SkipList)
    : res SkipList :=
  '(current, update) ←
    search_update (sl_nodes sl) key (sl_level sl) (sl_head sl) (replicate maxLevel None);
  target ← load_fwd (sl_nodes sl) current 0%nat;
  found ← hit (sl_nodes sl) target key;
  match found with
  | Some (t, n) => Ok (put_existing value t n sl)
  | None => put_new coins key value update sl
  end.

Definition SkipList_Get (key : bytes) (sl : SkipList) : res (option bytes * bool) :=
  let ns := sl_nodes sl in
  current ← search ns key (sl_level sl) (sl_head sl);
  target ← load_fwd ns current 0%nat;
  found ← hit ns target key;
  match found with
  | Some (_, n) => Ok (nvalue n, true)
  | None => Ok (None, false)
  end.

Definition SkipList_Delete (coins : list bool) (key : bytes) (sl : SkipList) : res SkipList :=
  SkipList_Put coins key None sl.

Definition SkipList_Len (sl : SkipList) : Z := sl_count sl.
Definition SkipList_Size (sl : SkipList) : Z := sl_size sl.

(** ** Iterator: the node it points at; [None] is the nil pointer *)

Abbreviation SLIterator := (option loc).

Definition SkipList_NewIterator (sl : SkipList) : SLIterator := None.

Definition SLIterator_SeekToFirst (sl : SkipList) : res SLIterator :=
  load_fwd (sl_nodes sl) (sl_head sl) 0%nat.

Definition SLIterator_Seek (sl : SkipList) (target : bytes) : res SLIterator :=
  current ← search (sl_nodes sl) target (sl_level sl) (sl_head sl);
  load_fwd (sl_nodes sl) current 0%nat.

Definition SLIterator_Next (sl : SkipList) (it : SLIterator) : res SLIterator :=
  match it with
  | Some p => load_fwd (sl_nodes sl) p 0%nat
  | None => Ok None
  end.

Definition SLIterator_Valid (it : SLIterator) : bool :=
  match it with Some _ => true | None => false end.

Definition SLIterator_Key (sl : SkipList) (it : SLIterator) : res bytes :=
  match it with
  | None => Ok []
  | Some p => n ← deref (sl_nodes sl) p; Ok (nkey n)
  end.

Definition SLIterator_Value (sl : SkipList) (it : SLIterator) : res (option bytes) :=
  match it with
  | None => Ok None
  | Some p => n ← deref (sl_nodes sl) p; Ok (nvalue n)
  end.

Definition SLIterator_IsTombstone (sl : SkipList) (it : SLIterator) : res bool :=
  match it with
  | None => Ok false
  | Some p => n ← deref (sl_nodes sl) p; Ok (bool_decide (nvalue n = None))
  end.

(** [for it.Valid() { ... it.Key(), it.Value() ...; it.Next() }]: the entries a
    full traversal visits. *)
Fixpoint SLIterator_drain (fuel : nat) (sl : SkipList) (it : SLIterator)
    : res (list (bytes * option bytes)) :=
  if SLIterator_Valid it then
    match fuel with
    | O => OutOfFuel
    | S fuel =>
        k ← SLIterator_Key sl it;
        v ← SLIterator_Value sl it;
        it ← SLIterator_Next sl it;
        rest ← SLIterator_drain fuel sl it;
        Ok ((k, v) :: rest)
    end
  else Ok [].

(** ** The representation invariant *)

Definition fwd (ns : list node) (p : loc) (i : nat) : option (option loc) :=
  n ← ns !! p; forward n !! i.
Definition keyof (ns : list node) (p : loc) : bytes := from_option nkey [] (ns !! p).
Definition valof (ns : list node) (p : loc) : option bytes := from_option nvalue None (ns !! p).
Definition height (ns : list node) (p : loc) : nat :=
  from_option (fun n => length (forward n)) 0%nat (ns !! p).

(** Following level [i] from [p] visits exactly [ls]. *)
Fixpoint chain (ns : list node) (i : nat) (p : loc) (ls : list loc) : Prop :=
  match ls with
  | [] => fwd ns p i = Some None
  | q :: ls => fwd ns p i = Some (Some q) /\ chain ns i q ls
  end.

Definition at_level (ns : list node) (i : nat) (order : list loc) : list loc :=
  filter (fun p => i < height ns p)%nat order.

Definition node_size (ns : list node) (p : loc) : Z :=
  len (keyof ns p) + vlen (valof ns p) + Z.of_nat (height ns p) * 8 + 64.

Definition sumZ (l : list Z) : Z := foldr Z.add 0 l.

Record sl_wf (sl : SkipList) (order : list loc) : Prop := {
  wf_head : sl_head sl = 0%nat;
  wf_head_height : height (sl_nodes sl) 0%nat = maxLevel;
  wf_order : Forall (fun p => p <> 0 /\ 1 <= height (sl_nodes sl) p <= sl_level sl)%nat order;
  wf_sorted : StronglySorted blt (keyof (sl_nodes sl) <$> order);
  wf_level : (sl_level sl <= maxLevel)%nat;
  wf_chain : forall i, (i < maxLevel)%nat ->
    chain (sl_nodes sl) i 0%nat (at_level (sl_nodes sl) i order);
  wf_alloc : length (sl_nodes sl) = S (length order);
  wf_count : sl_count sl = len order;
  wf_size : sl_size sl = sumZ (node_size (sl_nodes sl) <$> order)
}.

Definition entries_of (ns : list node) (order : list loc) : list (bytes * option bytes) :=
  (fun p => (keyof ns p, valof ns p)) <$> order.

(** [sl_repr sl l]: the skip list holds exactly the entries [l], in order. *)
Definition sl_repr (sl : SkipList) (l : list (bytes * option bytes)) : Prop :=
  exists order, sl_wf sl order /\ l = entries_of (sl_nodes sl) order.

(** The iterator stands before the entries [rest]. *)
Definition it_repr (sl : SkipList) (it : SLIterator) (rest : list (bytes * option bytes)) : Prop :=
  exists order done todo, sl_wf sl order /\ order = done ++ todo /\
    it = head todo /\ rest = entries_of (sl_nodes sl) todo.

Fixpoint lastd (p : loc) (l : list loc) : loc :=
  match l with [] => p | q :: l => lastd q l end.


(** ** Random levels *)

Lemma randomLevel_from_bound lvl coins :
  (lvl <= maxLevel)%nat -> (lvl <= randomLevel_from lvl coins <= maxLevel)%nat.
Proof.
  revert lvl. induction coins as [|c coins IH]; intros lvl H; simpl; [lia|].
  destruct (Nat.ltb_spec lvl maxLevel); simpl; [|lia].
  destruct c; [|lia]. specialize (IH (S lvl)). lia.
Qed.

Lemma randomLevel_range coins : (1 <= randomLevel coins <= maxLevel)%nat.
Proof. apply randomLevel_from_bound. unfold maxLevel. lia. Qed.

(** ** Pointer accesses *)

Lemma load_fwd_fwd ns p i q : fwd ns p i = Some q -> load_fwd ns p i = Ok q.
Proof.
  unfold fwd, load_fwd, deref. destruct (ns !! p) as [n|] eqn:E; simpl; [|done]. by intros ->.
Qed.

Lemma height_lookup ns p : (0 < height ns p)%nat -> exists n, ns !! p = Some n.
Proof. unfold height. destruct (ns !! p); simpl; [eauto|lia]. Qed.

Lemma deref_keyof ns p :
  (0 < height ns p)%nat ->
  exists n, deref ns p = Ok n /\ ns !! p = Some n /\ nkey n = keyof ns p /\ nvalue n = valof ns p.
Proof.
  intros [n E]%height_lookup. exists n. unfold deref, keyof, valof. by rewrite E.
Qed.

Lemma fwd_height ns p i : is_Some (fwd ns p i) <-> (i < height ns p)%nat.
Proof.
  unfold fwd, height. destruct (ns !! p) as [n|]; simpl.
  - by rewrite <- lookup_lt_is_Some.
  - split; [by intros [? [=]]|lia].
Qed.

Lemma store_fwd_ok ns p i q :
  (i < height ns p)%nat ->
  exists ns', store_fwd ns p i q = Ok ns' /\ length ns' = length ns /\
    (forall r j, fwd ns' r j = if decide (r = p /\ j = i) then Some q else fwd ns r j) /\
    (forall r, keyof ns' r = keyof ns r) /\ (forall r, valof ns' r = valof ns r) /\
    (forall r, height ns' r = height ns r).
Proof.
  intros Hh. destruct (height_lookup ns p ltac:(lia)) as [n E].
  assert (length (forward n) = height ns p) as Hl by (unfold height; by rewrite E).
  pose proof (lookup_lt_Some _ _ _ E) as Hp.
  eexists. unfold store_fwd, deref. rewrite E. simpl.
  rewrite (proj2 (Nat.ltb_lt _ _)) by lia. split; [done|]. rewrite length_insert. split; [done|].
  unfold fwd, keyof, valof, height. split_and!; intros r; [intros j|..];
    (destruct (decide (r = p)) as [->|Hr];
      [rewrite list_lookup_insert_eq, E by done|rewrite list_lookup_insert_ne by done]); simpl; try done.
  - case_decide as Hd.
    + destruct Hd as [_ ->]. apply list_lookup_insert_eq. lia.
    + apply list_lookup_insert_ne. naive_solver.
  - rewrite decide_False by naive_solver. done.
  - by rewrite length_insert.
Qed.

(** ** Chains *)

Lemma lastd_app p l k : lastd p (l ++ k) = lastd (lastd p l) k.
Proof. revert p. induction l; simpl; auto. Qed.

Lemma lastd_in p l : lastd p l = p \/ lastd p l ∈ l.
Proof.
  revert p. induction l as [|q l IH]; intros p; simpl; [by left|]. right.
  destruct (IH q) as [->|]; [left|by right].
Qed.

Lemma chain_app ns i p l k : chain ns i p (l ++ k) -> chain ns i (lastd p l) k.
Proof. revert p. induction l as [|q l IH]; intros p; simpl; [done|]. intros []. auto. Qed.

Lemma chain_ext ns ns' i p l :
  (forall q, q ∈ p :: l -> fwd ns' q i = fwd ns q i) -> chain ns i p l -> chain ns' i p l.
Proof.
  revert p. induction l as [|q l IH]; intros p Hext; simpl.
  - rewrite Hext; [done|left].
  - intros [H1 H2]. rewrite Hext by left. split; [done|]. apply IH; [|done].
    intros r Hr. apply Hext. by right.
Qed.

Lemma chain_next ns i p l : chain ns i p l -> load_fwd ns p i = Ok (head l).
Proof. intros H. apply load_fwd_fwd. destruct l; [done|by destruct H]. Qed.

(** Splicing [new] in after the prefix [A]. *)
Lemma chain_splice ns ns' i p A B new :
  NoDup (p :: A ++ B) -> new ∉ p :: A ++ B ->
  chain ns i p (A ++ B) ->
  (forall r, r <> lastd p A -> r <> new -> fwd ns' r i = fwd ns r i) ->
  fwd ns' (lastd p A) i = Some (Some new) ->
  fwd ns' new i = fwd ns (lastd p A) i ->
  chain ns' i p (A ++ new :: B).
Proof.
  revert p. induction A as [|q A IH]; intros p Hnd Hnew Hc Hoth Hu Hn; simpl in *.
  - split; [done|]. destruct B as [|b B]; simpl in *; [by rewrite Hn|].
    rewrite Hn. destruct Hc as [Hp Hc]. split; [done|].
    eapply chain_ext; [|exact Hc]. intros r Hr. apply Hoth; intros ->.
    + apply NoDup_cons in Hnd as [Hnd _]. done.
    + apply Hnew. by right.
  - destruct Hc as [Hp Hc]. apply NoDup_cons in Hnd as [Hpn Hnd]. split.
    + rewrite Hoth; [done| |].
      * intros ->. apply Hpn. destruct (lastd_in q A) as [->|Hin]; [left|]. right. set_solver.
      * intros ->. apply Hnew. left.
    + apply IH; try done. intros H. apply Hnew. by right.
Qed.

(** ** Levels *)

Lemma at_level_app ns i l k : at_level ns i (l ++ k) = at_level ns i l ++ at_level ns i k.
Proof. apply filter_app. Qed.

Lemma at_level_ext ns ns' i l :
  (forall p, p ∈ l -> height ns' p = height ns p) -> at_level ns' i l = at_level ns i l.
Proof.
  intros H. unfold at_level. induction l as [|p l IH]; [done|].
  rewrite !filter_cons. rewrite H by left. rewrite IH; [done|]. intros q Hq. apply H. by right.
Qed.

Lemma at_level_all ns i l : Forall (fun p => i < height ns p)%nat l -> at_level ns i l = l.
Proof.
  unfold at_level. induction 1 as [|p l Hp Hl IH]; [done|].
  rewrite filter_cons, decide_True by done. by rewrite IH.
Qed.

Lemma at_level_none ns i l : Forall (fun p => height ns p <= i)%nat l -> at_level ns i l = [].
Proof.
  unfold at_level. induction 1 as [|p l Hp Hl IH]; [done|].
  rewrite filter_cons, decide_False by lia. done.
Qed.

Lemma elem_of_at_level ns i p l : p ∈ at_level ns i l <-> (i < height ns p)%nat /\ p ∈ l.
Proof. unfold at_level. by rewrite list_elem_of_filter. Qed.

(** The last node of level [i + 1] is on level [i]: where the descent lands. *)
Lemma at_level_descend ns i h l :
  exists A B, at_level ns i l = A ++ B /\ lastd h A = lastd h (at_level ns (S i) l).
Proof.
  destruct (at_level ns (S i) l) as [|y ys] eqn:E using rev_ind.
  - by exists [], (at_level ns i l).
  - assert (y ∈ at_level ns i l) as (A & B & HAB)%list_elem_of_split.
    { assert (y ∈ at_level ns (S i) l) as Hy by (rewrite E; set_solver).
      rewrite elem_of_at_level in *. split; [lia|tauto]. }
    exists (A ++ [y]), B. rewrite HAB, <- app_assoc. split; [done|]. by rewrite !lastd_app.
Qed.

(** ** The search loops *)

Lemma walk_split ns i k A B fuel p :
  chain ns i p (A ++ B) ->
  Forall (fun q => 0 < height ns q)%nat (A ++ B) ->
  Forall (fun q => keyof ns q <ₖ k) A ->
  Forall (fun q => k ≤ₖ keyof ns q) B ->
  (length A < fuel)%nat ->
  walk fuel ns i k p = Ok (lastd p A).
Proof.
  revert p fuel. induction A as [|q A IH]; intros p [|fuel] Hc Hh HA HB Hf; simpl in *; try lia.
  - rewrite (chain_next _ _ _ _ Hc). destruct B as [|b B]; simpl; [done|].
    apply Forall_cons in Hh as [Hh _], HB as [HB _].
    destruct (deref_keyof ns b Hh) as (n & -> & _ & Hk & _). simpl.
    rewrite Hk, (proj2 (bltb_false _ _)) by done. done.
  - destruct Hc as [Hp Hc]. rewrite (load_fwd_fwd _ _ _ _ Hp). simpl.
    apply Forall_cons in Hh as [Hh Hh'], HA as [HA HA'].
    destruct (deref_keyof ns q Hh) as (n & -> & _ & Hk & _). simpl.
    rewrite Hk, (proj2 (bltb_spec _ _)) by done. apply IH; try done. lia.
Qed.

Section searching.
Context (sl : SkipList) (L R : list loc) (k : bytes).
Context (Hwf : sl_wf sl (L ++ R)).
Context (HL : Forall (fun p => keyof (sl_nodes sl) p <ₖ k) L).
Context (HR : Forall (fun p => k ≤ₖ keyof (sl_nodes sl) p) R).

Let ns := sl_nodes sl.

(** The predecessor of [k] at level [i]. *)
Definition pred_at (i : nat) : loc := lastd 0%nat (at_level ns i L).

Lemma height_pos p : p ∈ L ++ R -> (0 < height ns p)%nat.
Proof. intros Hp. pose proof (wf_order _ _ Hwf) as H. rewrite Forall_forall in H.
  specialize (H _ Hp). simpl in H. unfold ns. lia. Qed.

Lemma pred_at_top i : (sl_level sl <= i)%nat -> pred_at i = 0%nat.
Proof.
  intros Hi. unfold pred_at. rewrite at_level_none; [done|].
  pose proof (wf_order _ _ Hwf) as [H _]%Forall_app. eapply Forall_impl; [exact H|].
  simpl. unfold ns. lia.
Qed.

Lemma pred_at_chain i : (i < maxLevel)%nat -> chain ns i (pred_at i) (at_level ns i R).
Proof.
  intros Hi. pose proof (wf_chain _ _ Hwf i Hi) as Hc. fold ns in Hc. rewrite at_level_app in Hc.
  by apply chain_app in Hc.
Qed.

Lemma walk_pred i :
  (S i <= sl_level sl)%nat -> walk (length ns) ns i k (pred_at (S i)) = Ok (pred_at i).
Proof.
  intros Hi. pose proof (wf_level _ _ Hwf).
  destruct (at_level_descend ns i 0%nat L) as (A & B & HAB & Hlast).
  pose proof (wf_chain _ _ Hwf i ltac:(lia)) as Hc. fold ns in Hc.
  rewrite at_level_app, HAB, <- app_assoc in Hc. apply chain_app in Hc. rewrite Hlast in Hc.
  fold (pred_at (S i)) in Hc.
  assert (forall p, p ∈ B -> p ∈ L) as HBL.
  { intros p Hp. assert (p ∈ at_level ns i L) as Hin by (rewrite HAB; set_solver).
    by apply elem_of_at_level in Hin as [_ ?]. }
  unfold pred_at at 2. rewrite HAB, lastd_app, Hlast. apply (walk_split _ _ _ _ (at_level ns i R)).
  - exact Hc.
  - apply Forall_forall. intros p [Hp|[_ Hp]%elem_of_at_level]%elem_of_app;
      apply height_pos, elem_of_app; auto.
  - rewrite Forall_forall in *. auto.
  - rewrite Forall_forall in *. intros p [_ Hp]%elem_of_at_level. auto.
  - pose proof (wf_alloc _ _ Hwf) as Hal. fold ns in Hal. rewrite length_app in Hal.
    assert (length (A ++ B) <= length L)%nat as Hlen by (rewrite <- HAB; apply length_filter).
    rewrite length_app in Hlen. lia.
Qed.

Lemma search_pred i :
  (i <= sl_level sl)%nat -> search ns k i (pred_at i) = Ok (pred_at 0%nat).
Proof.
  induction i as [|i IH]; intros Hi; simpl; [done|].
  rewrite walk_pred by done. simpl. apply IH. lia.
Qed.

Lemma search_update_pred i upd :
  (i <= sl_level sl)%nat -> length upd = maxLevel ->
  exists upd', search_update ns k i (pred_at i) upd = Ok (pred_at 0%nat, upd') /\
    length upd' = maxLevel /\
    (forall j, (j < i)%nat -> upd' !! j = Some (Some (pred_at j))) /\
    (forall j, (i <= j)%nat -> upd' !! j = upd !! j).
Proof.
  revert upd. induction i as [|i IH]; intros upd Hi Hu; simpl.
  - eexists. split_and!; try done. lia.
  - rewrite walk_pred by done. simpl.
    destruct (IH (<[i := Some (pred_at i)]> upd)) as (upd' & Hs & Hl & Hlt & Hge); [lia|by rewrite length_insert|].
    pose proof (wf_level _ _ Hwf). exists upd'. split_and!; try done.
    + intros j Hj. destruct (decide (j = i)) as [->|]; [|apply Hlt; lia].
      rewrite Hge by lia. apply list_lookup_insert_eq. lia.
    + intros j Hj. rewrite Hge by lia. apply list_lookup_insert_ne. lia.
Qed.

Lemma search_target : load_fwd ns (pred_at 0%nat) 0%nat = Ok (head R).
Proof using Hwf.
  rewrite (chain_next _ _ _ _ (pred_at_chain 0%nat ltac:(unfold maxLevel; lia))).
  rewrite at_level_all; [done|]. apply Forall_forall. intros p Hp.
  apply height_pos, elem_of_app. by right.
Qed.

Lemma search_hit :
  hit ns (head R) k =
  Ok (match R with
      | p :: _ => if beqb (keyof ns p) k
                  then option_map (fun n => (p, n)) (ns !! p) else None
      | [] => None
      end).
Proof.
  pose proof height_pos as Hpos. clear HL HR. destruct R as [|p R']; [done|]. simpl.
  destruct (deref_keyof ns p) as (n & -> & E & <- & _).
  { apply Hpos, elem_of_app. right. left. }
  simpl.
  rewrite E. done.
Qed.

End searching.

(** ** Splitting the node order at a key *)

Lemma entries_of_sorted ns order :
  StronglySorted blt (keyof ns <$> order) <-> ksorted (entries_of ns order).
Proof. unfold ksorted, entries_of. rewrite <- list_fmap_compose. done. Qed.

Lemma order_split ns k order :
  StronglySorted blt (keyof ns <$> order) ->
  exists L R, order = L ++ R /\ Forall (fun p => keyof ns p <ₖ k) L /\
    Forall (fun p => k ≤ₖ keyof ns p) R.
Proof.
  intros (lo & Heq & Hlo & Hhi)%entries_of_sorted%(from_key_split k).
  unfold entries_of in *. apply fmap_app_inv in Heq as (L & R & Hlo' & Hhi' & ->).
  exists L, R. split; [done|]. rewrite Hhi' in Hhi. rewrite Hlo' in Hlo.
  by rewrite !Forall_fmap in *.
Qed.

Lemma entries_of_app ns l k : entries_of ns (l ++ k) = entries_of ns l ++ entries_of ns k.
Proof. apply fmap_app. Qed.

Lemma entries_of_cons ns p l : entries_of ns (p :: l) = (keyof ns p, valof ns p) :: entries_of ns l.
Proof. done. Qed.

Lemma entries_of_ext ns ns' l :
  (forall p, p ∈ l -> keyof ns' p = keyof ns p /\ valof ns' p = valof ns p) ->
  entries_of ns' l = entries_of ns l.
Proof.
  intros H. apply list_fmap_ext. intros i p Hp%list_elem_of_lookup_2.
  by destruct (H p Hp) as [-> ->].
Qed.

Lemma entries_of_Forall (P : bytes -> Prop) ns l :
  Forall (fun p => P (keyof ns p)) l -> Forall (fun e => P e.1) (entries_of ns l).
Proof. intros H. unfold entries_of. rewrite Forall_fmap. done. Qed.

(** ** Get *)

Lemma SkipList_Get_spec sl l k :
  sl_repr sl l ->
  SkipList_Get k sl = Ok (match assoc k l with Some v => (v, true) | None => (None, false) end).
Proof.
  intros (order & Hwf & ->).
  destruct (order_split _ k _ (wf_sorted _ _ Hwf)) as (L & R & -> & HL & HR).
  unfold SkipList_Get. rewrite (wf_head _ _ Hwf).
  pose proof (search_pred sl L R k Hwf HL HR (sl_level sl) ltac:(done)) as Hsearch.
  rewrite (pred_at_top sl L R Hwf) in Hsearch by done. rewrite Hsearch. simpl.
  rewrite (search_target sl L R Hwf). simpl.
  rewrite (search_hit sl L R k Hwf). simpl.
  rewrite entries_of_app, assoc_split by (by apply (entries_of_Forall (fun x => x <ₖ k))).
  destruct R as [|p R]; [done|]. simpl. keq (keyof (sl_nodes sl) p) k.
  - destruct (deref_keyof (sl_nodes sl) p) as (n & _ & -> & _ & Hv).
    { apply (height_pos sl L (p :: R) Hwf). set_solver. }
    simpl. by rewrite Hv.
  - assert (Forall (fun e => k <ₖ e.1) (entries_of (sl_nodes sl) R)) as Hb.
    { pose proof (wf_sorted _ _ Hwf) as Hs. rewrite fmap_app in Hs.
      apply StronglySorted_app_1_r in Hs. simpl in Hs. apply StronglySorted_inv in Hs as [_ Hs].
      rewrite Forall_fmap in Hs. apply (entries_of_Forall (blt k)).
      apply Forall_cons in HR as [HR _]. eapply Forall_impl; [exact Hs|].
      intros q Hq. by eapply ble_lt_trans. }
    by rewrite (assoc_below _ _ Hb).
Qed.

(** ** Put *)

Lemma sumZ_app l k : sumZ (l ++ k) = sumZ l + sumZ k.
Proof. induction l; simpl; lia. Qed.

Lemma sorted_NoDup ns order : StronglySorted blt (keyof ns <$> order) -> NoDup order.
Proof.
  induction order as [|p order IH]; simpl; [constructor|].
  intros [Hs Hf]%StronglySorted_inv. constructor; [|auto].
  intros Hp. rewrite Forall_fmap, Forall_forall in Hf. by apply Hf, blt_irrefl in Hp.
Qed.

Section same_shape.
Context (ns ns' : list node).
Context (Hkey : forall p, keyof ns' p = keyof ns p).
Context (Hheight : forall p, height ns' p = height ns p).

Lemma same_keys (order : list loc) : keyof ns' <$> order = keyof ns <$> order.
Proof. apply list_fmap_ext. auto. Qed.

Lemma same_at_level i order : at_level ns' i order = at_level ns i order.
Proof. apply at_level_ext. auto. Qed.

Lemma same_node_size p : valof ns' p = valof ns p -> node_size ns' p = node_size ns p.
Proof. intros H. unfold node_size. by rewrite Hkey, Hheight, H. Qed.

Lemma same_sizes (l : list loc) :
  (forall p, p ∈ l -> valof ns' p = valof ns p) -> node_size ns' <$> l = node_size ns <$> l.
Proof.
  intros H. apply list_fmap_ext. intros i p Hp%list_elem_of_lookup_2. by apply same_node_size, H.
Qed.
End same_shape.

(** Overwriting the value of a node that is already in the list. *)
Lemma put_hit sl L R p n v :
  sl_wf sl (L ++ p :: R) -> sl_nodes sl !! p = Some n ->
  let ns' := <[p := mkNode (nkey n) v (forward n)]> (sl_nodes sl) in
  let sl' := mkSkipList ns' (sl_head sl) (sl_level sl) (sl_count sl)
               (sl_size sl + (vlen v - vlen (nvalue n))) in
  sl_wf sl' (L ++ p :: R) /\
  entries_of ns' (L ++ p :: R) =
    entries_of (sl_nodes sl) L ++ (nkey n, v) :: entries_of (sl_nodes sl) R.
Proof.
  intros Hwf Hp ns' sl'. set (ns := sl_nodes sl) in *.
  pose proof (lookup_lt_Some _ _ _ Hp) as Hlt.
  assert (forall r, ns' !! r = if decide (r = p) then Some (mkNode (nkey n) v (forward n)) else ns !! r) as Hl.
  { intros r. unfold ns'. case_decide; subst; [by apply list_lookup_insert_eq|].
    by apply list_lookup_insert_ne. }
  assert (forall r, keyof ns' r = keyof ns r) as Hk.
  { intros r. unfold keyof. rewrite Hl. case_decide; subst; [by rewrite Hp|done]. }
  assert (forall r, height ns' r = height ns r) as Hh.
  { intros r. unfold height. rewrite Hl. case_decide; subst; [by rewrite Hp|done]. }
  assert (forall r i, fwd ns' r i = fwd ns r i) as Hf.
  { intros r i. unfold fwd. rewrite Hl. case_decide; subst; [by rewrite Hp|done]. }
  assert (forall r, r <> p -> valof ns' r = valof ns r) as Hv.
  { intros r ?. unfold valof. by rewrite Hl, decide_False. }
  assert (valof ns' p = v) as Hvp by (unfold valof; by rewrite Hl, decide_True).
  assert (valof ns p = nvalue n) as Hvn by (unfold valof; by rewrite Hp).
  assert (keyof ns p = nkey n) as Hkn by (unfold keyof; by rewrite Hp).
  pose proof (sorted_NoDup _ _ (wf_sorted _ _ Hwf)) as (_ & Hdis & [HpR _]%NoDup_cons)%NoDup_app.
  assert (p ∉ L) as HpL by (intros H; apply (Hdis p H); left).
  assert (forall r, r ∈ L \/ r ∈ R -> valof ns' r = valof ns r) as Hv'.
  { intros r Hr. apply Hv. intros ->. tauto. }
  split.
  - destruct Hwf as [H1 H2 H3 H4 H5 H6 H7 H8 H9]. fold ns in H2, H3, H4, H6, H7, H9.
    split; simpl; try done.
    + by rewrite Hh.
    + eapply Forall_impl; [exact H3|]. simpl. intros r. by rewrite Hh.
    + by rewrite (same_keys ns ns').
    + intros i Hi. rewrite (same_at_level ns ns') by done.
      eapply chain_ext; [intros; apply Hf|]. by apply H6.
    + unfold ns'. by rewrite length_insert.
    + rewrite H9. rewrite !fmap_app, !fmap_cons, !sumZ_app. simpl.
      rewrite !(same_sizes ns ns') by auto.
      unfold node_size at 5. rewrite Hk, Hh, Hvp. unfold node_size at 2. rewrite Hvn. lia.
  - rewrite entries_of_app, entries_of_cons, Hk, Hvp, Hkn. fold ns.
    rewrite (entries_of_ext ns ns' L), (entries_of_ext ns ns' R); [done|..]; auto.
Qed.

(** *** Linking a fresh node, level by level *)

Section linking.
Context (L R : list loc) (new : loc) (lvl : nat) (update : list (option loc)).

(** Levels below [j] already contain [new], the others do not. *)
Definition linked (ns : list node) (j : nat) : Prop :=
  forall i, (i < maxLevel)%nat ->
    chain ns i 0%nat
      (at_level ns i L ++ (if (i <? j)%nat then [new] else []) ++ at_level ns i R).

Record link_pre (ns : list node) : Prop := {
  lp_nodup : NoDup (0%nat :: L ++ R);
  lp_fresh : new ∉ 0%nat :: L ++ R;
  lp_head : height ns 0%nat = maxLevel;
  lp_height : height ns new = lvl;
  lp_lvl : (lvl <= maxLevel)%nat;
  lp_update : forall i, (i < lvl)%nat -> update !! i = Some (Some (lastd 0%nat (at_level ns i L)))
}.

Definition same_data (ns ns' : list node) : Prop :=
  length ns' = length ns /\ (forall p, keyof ns' p = keyof ns p) /\
  (forall p, valof ns' p = valof ns p) /\ (forall p, height ns' p = height ns p).

Lemma link_pre_same ns ns' : same_data ns ns' -> link_pre ns -> link_pre ns'.
Proof.
  intros (_ & Hk & Hv & Hh) [H1 H2 H3 H4 H5 H6]. split; rewrite ?Hh; try done.
  intros i Hi. rewrite (same_at_level ns ns') by done. auto.
Qed.

Lemma lastd_height ns i : link_pre ns -> (i < maxLevel)%nat -> (i < height ns (lastd 0%nat (at_level ns i L)))%nat.
Proof.
  intros Hp Hi. destruct (lastd_in 0%nat (at_level ns i L)) as [->|[H _]%elem_of_at_level]; [|done].
  rewrite (lp_head _ Hp). done.
Qed.

(** One iteration of the linking loop. *)
Lemma link_step ns i lvls :
  link_pre ns -> (i < lvl)%nat -> linked ns i ->
  exists ns', link ns update new (i :: lvls) = link ns' update new lvls /\
    same_data ns ns' /\ linked ns' (S i).
Proof.
  intros Hp Hi Hl. pose proof (lp_lvl _ Hp). set (u := lastd 0%nat (at_level ns i L)).
  pose proof (lastd_height ns i Hp ltac:(lia)) as Hu. fold u in Hu.
  pose proof (Hl i ltac:(lia)) as Hc. rewrite Nat.ltb_irrefl in Hc. simpl in Hc.
  simpl. rewrite (lp_update _ Hp i Hi). simpl. fold u.
  pose proof (chain_next _ _ _ _ (chain_app _ _ _ _ _ Hc)) as Hn. fold u in Hn. rewrite Hn. simpl.
  destruct (store_fwd_ok ns new i (head (at_level ns i R))) as (ns1 & -> & Hlen1 & Hf1 & Hk1 & Hv1 & Hh1).
  { by rewrite (lp_height _ Hp). }
  simpl. destruct (store_fwd_ok ns1 u i (Some new)) as (ns2 & -> & Hlen2 & Hf2 & Hk2 & Hv2 & Hh2).
  { by rewrite Hh1. }
  simpl. exists ns2. split; [done|].
  assert (same_data ns ns2) as Hsd.
  { split_and!; intros; rewrite ?Hlen2, ?Hk2, ?Hv2, ?Hh2; auto. }
  assert (u <> new) as Hne.
  { intros Hun. apply (lp_fresh _ Hp). rewrite <- Hun. unfold u.
    destruct (lastd_in 0%nat (at_level ns i L)) as [->|[_ H']%elem_of_at_level]; [left|]. right. set_solver. }
  assert (forall r j, ~ (j = i /\ (r = u \/ r = new)) -> fwd ns2 r j = fwd ns r j) as Hoth.
  { intros r j Hr. rewrite Hf2, Hf1. rewrite !decide_False by tauto. done. }
  split; [done|]. intros j Hj. destruct Hsd as (_ & _ & _ & Hh).
  rewrite !(same_at_level ns ns2) by done.
  destruct (decide (j = i)) as [->|Hji].
  - rewrite (proj2 (Nat.ltb_lt i (S i))) by lia. simpl.
    assert (forall x, x ∈ 0%nat :: at_level ns i L ++ at_level ns i R -> x ∈ 0%nat :: L ++ R) as Hsub.
    { intros x. rewrite !elem_of_cons, !elem_of_app, !elem_of_at_level. tauto. }
    apply (chain_splice ns); try done.
    + pose proof (lp_nodup _ Hp) as [H0 Hnd]%NoDup_cons. apply NoDup_cons. split.
      * intros Hx. apply H0. rewrite !elem_of_app, !elem_of_at_level in *. tauto.
      * rewrite <- at_level_app. by apply NoDup_filter.
    + intros Hx. by apply (lp_fresh _ Hp), Hsub.
    + intros r Hr1 Hr2. apply Hoth. intros [_ [|]]; done.
    + fold u. by rewrite Hf2, decide_True.
    + rewrite Hf2, decide_False, Hf1, decide_True by naive_solver. fold u.
      pose proof (chain_app _ _ _ _ _ Hc) as Hc'. fold u in Hc'.
      destruct (at_level ns i R); simpl in *; [by rewrite Hc'|]. by destruct Hc' as [-> _].
  - replace (j <? S i)%nat with (j <? i)%nat.
    + eapply chain_ext; [|by apply Hl]. intros r _. apply Hoth. tauto.
    + destruct (Nat.ltb_spec j i), (Nat.ltb_spec j (S i)); try done; lia.
Qed.

Lemma link_ok todo ns j :
  link_pre ns -> (j + todo = lvl)%nat -> linked ns j ->
  exists ns', link ns update new (seq j todo) = Ok ns' /\ same_data ns ns' /\ linked ns' lvl.
Proof.
  revert ns j. induction todo as [|todo IH]; intros ns j Hp Hj Hl; cbn [seq].
  - exists ns. split; [done|]. split; [by split_and!|]. by replace lvl with j by lia.
  - destruct (link_step ns j (seq (S j) todo) Hp ltac:(lia) Hl) as (ns1 & -> & Hs1 & Hl1).
    destruct (IH ns1 (S j)) as (ns2 & -> & Hs2 & Hl2); [by eapply link_pre_same|lia|done|].
    exists ns2. split_and!; try done.
    destruct Hs1 as (?&Hk1&Hv1&Hh1), Hs2 as (?&Hk2&Hv2&Hh2).
    split_and!; [congruence|intros p; congruence..].
Qed.
End linking.

Lemma fill_update_lookup upd h from lvl j :
  (lvl <= length upd)%nat ->
  fill_update upd h from lvl !! j =
    if decide (from <= j < lvl)%nat then Some (Some h) else upd !! j.
Proof.
  unfold fill_update. intros Hl.
  assert (forall n from upd, (from + n <= length upd)%nat ->
    fold_left (fun u i => <[i := Some h]> u) (seq from n) upd !! j =
    if decide (from <= j < from + n)%nat then Some (Some h) else upd !! j) as H.
  { induction n as [|n IH]; intros f u Hfu; simpl; [rewrite decide_False by lia; done|].
    rewrite IH by (rewrite length_insert; lia).
    repeat case_decide; try lia; try done.
    - assert (j = f) as -> by lia. apply list_lookup_insert_eq. lia.
    - apply list_lookup_insert_ne. lia. }
  destruct (decide (from <= lvl)%nat).
  - rewrite H by lia. by replace (from + (lvl - from))%nat with lvl by lia.
  - replace (lvl - from)%nat with 0%nat by lia. simpl. rewrite decide_False by lia. done.
Qed.

Lemma wf_bound sl order p : sl_wf sl order -> p ∈ 0%nat :: order -> (p < length (sl_nodes sl))%nat.
Proof.
  intros Hwf Hp. assert (0 < height (sl_nodes sl) p)%nat as [n Hn]%height_lookup.
  { apply elem_of_cons in Hp as [->|Hp].
    - rewrite (wf_head_height _ _ Hwf). unfold maxLevel. lia.
    - pose proof (wf_order _ _ Hwf) as H. rewrite Forall_forall in H. specialize (H _ Hp).
      simpl in H. lia. }
  by eapply lookup_lt_Some.
Qed.

Lemma alloc_same (ns : list node) n p : (p < length ns)%nat -> (ns ++ [n]) !! p = ns !! p.
Proof. intros. by apply lookup_app_l. Qed.

(** Allocating a node changes nothing on the nodes already linked. *)
Lemma alloc_linked sl L R k v lvl :
  sl_wf sl (L ++ R) ->
  linked L R (length (sl_nodes sl)) (sl_nodes sl ++ [mkNode k v (replicate lvl None)]) 0%nat /\
  (forall p, p ∈ 0%nat :: L ++ R ->
     keyof (sl_nodes sl ++ [mkNode k v (replicate lvl None)]) p = keyof (sl_nodes sl) p /\
     valof (sl_nodes sl ++ [mkNode k v (replicate lvl None)]) p = valof (sl_nodes sl) p /\
     height (sl_nodes sl ++ [mkNode k v (replicate lvl None)]) p = height (sl_nodes sl) p).
Proof.
  intros Hwf. assert (forall p, p ∈ 0%nat :: L ++ R ->
    (sl_nodes sl ++ [mkNode k v (replicate lvl None)]) !! p = sl_nodes sl !! p) as Hl.
  { intros p Hp. apply alloc_same. by eapply wf_bound. }
  assert (forall p, p ∈ L ++ R -> height (sl_nodes sl ++ [mkNode k v (replicate lvl None)]) p
    = height (sl_nodes sl) p) as Hh.
  { intros p Hp. unfold height. rewrite Hl; [done|by right]. }
  split.
  - intros i Hi. simpl. rewrite <- at_level_app, (at_level_ext (sl_nodes sl)) by done.
    eapply chain_ext; [|by apply (wf_chain _ _ Hwf)].
    intros q Hq. unfold fwd. rewrite Hl; [done|].
    rewrite elem_of_cons, elem_of_at_level in Hq. rewrite elem_of_cons. tauto.
  - intros p Hp. unfold keyof, valof, height. by rewrite Hl.
Qed.

(** The state after a fresh node was linked satisfies the invariant. *)
Lemma put_miss_wf sl L R k v lvl ns2 :
  sl_wf sl (L ++ R) -> (1 <= lvl <= maxLevel)%nat ->
  Forall (fun p => keyof (sl_nodes sl) p <ₖ k) L ->
  Forall (fun p => k <ₖ keyof (sl_nodes sl) p) R ->
  let new := length (sl_nodes sl) in
  same_data (sl_nodes sl ++ [mkNode k v (replicate lvl None)]) ns2 ->
  linked L R new ns2 lvl ->
  sl_wf (mkSkipList ns2 (sl_head sl) (Nat.max (sl_level sl) lvl) (sl_count sl + 1)
           (sl_size sl + (len k + vlen v + Z.of_nat lvl * 8 + 64))) (L ++ new :: R) /\
  entries_of ns2 (L ++ new :: R) =
    entries_of (sl_nodes sl) L ++ (k, v) :: entries_of (sl_nodes sl) R.
Proof.
  intros Hwf Hlvl HL HR new (Hlen & Hk & Hv & Hh) Hlinked. set (ns := sl_nodes sl) in *.
  destruct (alloc_linked sl L R k v lvl Hwf) as [_ Hold]. fold ns in Hold.
  assert (forall p, p ∈ 0%nat :: L ++ R -> keyof ns2 p = keyof ns p /\ valof ns2 p = valof ns p
    /\ height ns2 p = height ns p) as Hsame.
  { intros p Hp. rewrite Hk, Hv, Hh. auto. }
  assert (keyof ns2 new = k /\ valof ns2 new = v /\ height ns2 new = lvl) as (Hkn & Hvn & Hhn).
  { rewrite Hk, Hv, Hh. unfold keyof, valof, height, new.
    rewrite list_lookup_middle by done. simpl. by rewrite length_replicate. }
  assert (forall p, p ∈ L \/ p ∈ R -> p ∈ 0%nat :: L ++ R) as Hin.
  { intros p. rewrite elem_of_cons, elem_of_app. tauto. }
  pose proof (wf_bound _ _ 0%nat Hwf ltac:(left)) as H0. fold ns in H0.
  assert (entries_of ns2 (L ++ new :: R) = entries_of ns L ++ (k, v) :: entries_of ns R) as Hent.
  { rewrite entries_of_app, entries_of_cons, Hkn, Hvn.
    rewrite (entries_of_ext ns ns2 L), (entries_of_ext ns ns2 R); [done|..];
      intros p Hp; destruct (Hsame p); auto; tauto. }
  split; [|done]. pose proof (wf_order _ _ Hwf) as Hord.
  assert (forall p, p ∈ L \/ p ∈ R -> node_size ns2 p = node_size ns p) as Hsz.
  { intros p Hp. unfold node_size. by destruct (Hsame p (Hin p Hp)) as (-> & -> & ->). }
  destruct Hwf as [H1 H2 H3 H4 H5 H6 H7 H8 H9]. fold ns in H2, H3, H4, H6, H7, H9.
  split; simpl; try done.
  - by destruct (Hsame 0%nat ltac:(left)) as (_ & _ & ->).
  - apply Forall_forall. intros p [Hp|[->|Hp]%elem_of_cons]%elem_of_app.
    2: rewrite Hhn; lia.
    all: destruct (Hsame p (Hin p ltac:(tauto))) as (_ & _ & ->);
      rewrite Forall_forall in H3; specialize (H3 p); rewrite elem_of_app in H3; naive_solver lia.
  - apply entries_of_sorted. rewrite Hent. apply entries_of_sorted in H4.
    rewrite entries_of_app in H4. apply ksorted_app in H4 as (HsL & HsR & _).
    apply (entries_of_Forall (fun x => x <ₖ k)) in HL. apply (entries_of_Forall (blt k)) in HR.
    rewrite ksorted_app, ksorted_cons. split_and!; try done. rewrite Forall_forall in HL, HR.
    intros a b Ha [->|Hb]%elem_of_cons; [by apply HL|]. eapply blt_trans; [by apply HL|by apply HR].
  - lia.
  - intros i Hi. specialize (Hlinked i Hi). rewrite at_level_app. unfold at_level at 2.
    rewrite filter_cons, Hhn. fold (at_level ns2 i R).
    destruct (Nat.ltb_spec i lvl); [rewrite decide_True by done|rewrite decide_False by lia]; done.
  - rewrite Hlen. rewrite !length_app in *. simpl in *. lia.
  - rewrite H8. unfold len. rewrite !length_app. simpl. lia.
  - rewrite H9. rewrite !fmap_app, !fmap_cons, !sumZ_app. simpl.
    assert (node_size ns2 new = len k + vlen v + Z.of_nat lvl * 8 + 64) as ->.
    { unfold node_size. by rewrite Hkn, Hvn, Hhn. }
    assert (forall l : list loc, (forall p, p ∈ l -> p ∈ L \/ p ∈ R) -> node_size ns2 <$> l = node_size ns <$> l) as Hfm.
    { intros l Hl. apply list_fmap_ext. intros i p Hp%list_elem_of_lookup_2. auto. }
    rewrite !Hfm by auto. lia.
Qed.

(** The [update] array names the predecessor of the key at every level of the
    new node, also at levels the list did not have yet. *)
Lemma put_update_levels sl L R k v upd lvl :
  sl_wf sl (L ++ R) -> (lvl <= maxLevel)%nat -> length upd = maxLevel ->
  (forall j, (j < sl_level sl)%nat -> upd !! j = Some (Some (pred_at sl L j))) ->
  let upd' := if (sl_level sl <? lvl)%nat then fill_update upd (sl_head sl) (sl_level sl) lvl else upd in
  let ns1 := sl_nodes sl ++ [mkNode k v (replicate lvl None)] in
  forall i, (i < lvl)%nat -> upd' !! i = Some (Some (lastd 0%nat (at_level ns1 i L))).
Proof.
  intros Hwf Hlvl Hlen Hupd upd' ns1 i Hi.
  destruct (alloc_linked sl L R k v lvl Hwf) as [_ Hsame].
  unfold ns1. rewrite (at_level_ext (sl_nodes sl)).
  2: { intros p Hp. apply Hsame. right. set_solver. }
  fold (pred_at sl L i). unfold upd'. destruct (Nat.ltb_spec (sl_level sl) lvl).
  - rewrite fill_update_lookup by lia. case_decide; [|apply Hupd; lia].
    rewrite (pred_at_top sl L R Hwf) by lia. by rewrite (wf_head _ _ Hwf).
  - apply Hupd. lia.
Qed.

Lemma copyBytes_id v : copyBytes v = v.
Proof. by destruct v. Qed.

(** The searching half of [Put]. *)
Lemma put_search sl L R coins k v :
  sl_wf sl (L ++ R) ->
  Forall (fun p => keyof (sl_nodes sl) p <ₖ k) L ->
  Forall (fun p => k ≤ₖ keyof (sl_nodes sl) p) R ->
  exists upd, length upd = maxLevel /\
    (forall j, (j < sl_level sl)%nat -> upd !! j = Some (Some (pred_at sl L j))) /\
    SkipList_Put coins k v sl =
      match R with
      | p :: _ => if beqb (keyof (sl_nodes sl) p) k
                  then match sl_nodes sl !! p with
                       | Some n => Ok (put_existing v p n sl)
                       | None => put_new coins k v upd sl
                       end
                  else put_new coins k v upd sl
      | [] => put_new coins k v upd sl
      end.
Proof.
  intros Hwf HL HR.
  destruct (search_update_pred sl L R k Hwf HL HR (sl_level sl) (replicate maxLevel None))
    as (upd & Hs & Hul & Hupd & _); [done|by rewrite length_replicate|].
  exists upd. split_and!; [done..|]. unfold SkipList_Put. rewrite (wf_head _ _ Hwf).
  rewrite (pred_at_top sl L R Hwf) in Hs by done. rewrite Hs. simpl.
  rewrite (search_target sl L R Hwf). simpl. rewrite (search_hit sl L R k Hwf). simpl.
  destruct R as [|p R]; [done|]. destruct (beqb _ k); [|done]. by destruct (sl_nodes sl !! p).
Qed.

(** The inserting half of [Put], for a key the list does not hold. *)
Lemma put_new_spec sl L R coins k v upd :
  sl_wf sl (L ++ R) -> length upd = maxLevel ->
  (forall j, (j < sl_level sl)%nat -> upd !! j = Some (Some (pred_at sl L j))) ->
  Forall (fun p => keyof (sl_nodes sl) p <ₖ k) L ->
  Forall (fun p => k <ₖ keyof (sl_nodes sl) p) R ->
  exists sl', put_new coins k v upd sl = Ok sl' /\
    sl_repr sl' (entries_of (sl_nodes sl) L ++ (k, v) :: entries_of (sl_nodes sl) R).
Proof.
  intros Hwf Hul Hupd HL HR. pose proof (randomLevel_range coins) as Hlvl.
  unfold put_new. rewrite copyBytes_id.
  pose proof (put_update_levels sl L R k v upd (randomLevel coins) Hwf ltac:(lia) Hul Hupd) as Hu.
  destruct (alloc_linked sl L R k v (randomLevel coins) Hwf) as [Hl0 Hsame].
  assert (link_pre L R (length (sl_nodes sl)) (randomLevel coins)
    (if (sl_level sl <? randomLevel coins)%nat
     then fill_update upd (sl_head sl) (sl_level sl) (randomLevel coins) else upd)
    (sl_nodes sl ++ [mkNode k v (replicate (randomLevel coins) None)])) as Hpre.
  { split; [| | | |lia|exact Hu].
    - pose proof (sorted_NoDup _ _ (wf_sorted _ _ Hwf)). apply NoDup_cons. split; [|done].
      intros H0. pose proof (wf_order _ _ Hwf) as Ho. rewrite Forall_forall in Ho.
      by destruct (Ho _ H0) as [[] _].
    - intros Hin. apply (wf_bound _ _ _ Hwf) in Hin. lia.
    - destruct (Hsame 0%nat ltac:(left)) as (_ & _ & ->). apply (wf_head_height _ _ Hwf).
    - unfold height. rewrite list_lookup_middle by done. simpl. by rewrite length_replicate. }
  destruct (link_ok L R _ _ _ (randomLevel coins) _ 0%nat Hpre ltac:(lia) Hl0) as (ns2 & -> & Hsd & Hl2).
  simpl. eexists. split; [done|].
  destruct (put_miss_wf sl L R k v (randomLevel coins) ns2 Hwf Hlvl HL HR Hsd Hl2) as [Hwf' He].
  eexists. split; [|symmetry; exact He].
  replace (if (sl_level sl <? randomLevel coins)%nat then randomLevel coins else sl_level sl)
    with (Nat.max (sl_level sl) (randomLevel coins)); [exact Hwf'|].
  destruct (Nat.ltb_spec (sl_level sl) (randomLevel coins)); lia.
Qed.

Lemma sorted_tail_above sl L p R k :
  sl_wf sl (L ++ p :: R) -> k ≤ₖ keyof (sl_nodes sl) p ->
  Forall (fun q => k <ₖ keyof (sl_nodes sl) q) R.
Proof.
  intros Hwf Hp. pose proof (wf_sorted _ _ Hwf) as Hs. rewrite fmap_app in Hs.
  apply StronglySorted_app_1_r in Hs. simpl in Hs. apply StronglySorted_inv in Hs as [_ Hs].
  rewrite Forall_fmap in Hs. eapply Forall_impl; [exact Hs|]. intros q Hq. by eapply ble_lt_trans.
Qed.

Lemma SkipList_Put_spec sl l coins k v :
  sl_repr sl l ->
  exists sl', SkipList_Put coins k v sl = Ok sl' /\ sl_repr sl' (ains k v l).
Proof.
  intros (order & Hwf & ->).
  destruct (order_split _ k _ (wf_sorted _ _ Hwf)) as (L & R & -> & HL & HR).
  destruct (put_search sl L R coins k v Hwf HL HR) as (upd & Hul & Hupd & ->).
  rewrite entries_of_app, ains_app by (by apply (entries_of_Forall (fun x => x <ₖ k))).
  destruct R as [|p R]; [by apply (put_new_spec sl L [])|]. rewrite entries_of_cons. simpl.
  pose proof HR as [HRp _]%Forall_cons.
  destruct (deref_keyof (sl_nodes sl) p) as (n & _ & Hp & Hkn & _).
  { apply (height_pos sl L (p :: R) Hwf). set_solver. }
  keq (keyof (sl_nodes sl) p) k.
  - rewrite Hp, bcompare_refl. eexists. split; [done|].
    destruct (put_hit sl L R p n v Hwf Hp) as [Hwf' He].
    eexists. unfold put_existing. rewrite copyBytes_id. split; [exact Hwf'|].
    simpl. by rewrite He, Hkn.
  - apply ble_eq_lt in HRp as [|HRp]; [congruence|]. rewrite HRp.
    apply (put_new_spec sl L (p :: R)); try done. constructor; [done|].
    eapply sorted_tail_above; [done|auto with kv].
Qed.

Lemma NewSkipList_repr : sl_repr NewSkipList [].
Proof.
  exists []. split; [|done].
  split; [done|done|constructor|constructor|simpl; lia| |done|done|done].
  intros i Hi. unfold at_level, fwd. cbn -[replicate maxLevel].
  by apply lookup_replicate_2.
Qed.

Lemma sl_repr_sorted sl l : sl_repr sl l -> ksorted l.
Proof. intros (order & Hwf & ->). apply entries_of_sorted, (wf_sorted _ _ Hwf). Qed.

Lemma sl_repr_count sl l : sl_repr sl l -> SkipList_Len sl = len l.
Proof.
  intros (order & Hwf & ->). unfold SkipList_Len. rewrite (wf_count _ _ Hwf).
  unfold len, entries_of. by rewrite length_fmap.
Qed.

(** The bytes of a list of entries with [c] more for each. *)
Definition weight (c : Z) (l : list (bytes * option bytes)) : Z := sumZ ((fun kv => len kv.1 + vlen kv.2 + c) <$> l).

Lemma weight_cons c kv l : weight c (kv :: l) = len kv.1 + vlen kv.2 + c + weight c l.
Proof. done. Qed.

Lemma vlen_nonneg v : 0 <= vlen v.
Proof. destruct v; [apply len_nonneg|done]. Qed.

Lemma weight_nonneg c l : 0 <= c -> 0 <= weight c l.
Proof.
  intros Hc. induction l as [|[k v] l IH]; [done|]. rewrite weight_cons. pose proof (len_nonneg k). pose proof (vlen_nonneg v). simpl. lia.
Qed.

Lemma weight_ains c k v l : 0 <= c -> weight c (ains k v l) <= len k + vlen v + c + weight c l.
Proof.
  intros Hc. induction l as [|[k' v'] l IH]; [done|]. cbn [ains]. pose proof (len_nonneg k'). pose proof (vlen_nonneg v').
  destruct (bcompare k k'); rewrite !weight_cons; simpl in *; lia.
Qed.

(** The size counter is the sum over the nodes: 72 to 224 bytes per entry more
    than its bytes. *)
Lemma sl_repr_size sl l : sl_repr sl l -> weight 72 l <= SkipList_Size sl <= weight 224 l.
Proof.
  intros (order & Hwf & ->). unfold SkipList_Size. rewrite (wf_size _ _ Hwf).
  pose proof (wf_order _ _ Hwf) as Ho. pose proof (wf_level _ _ Hwf) as Hmax. unfold maxLevel in Hmax. clear Hwf.
  induction order as [|p order IH]; [done|].
  apply Forall_cons in Ho as [Hp Ho]. rewrite entries_of_cons, !weight_cons.
  change (sumZ (node_size ?ns <$> p :: order)) with (node_size ns p + sumZ (node_size ns <$> order)).
  specialize (IH Ho). unfold node_size at 1 3. simpl. lia.
Qed.

(** ** The iterator walks the entries in key order *)

Lemma head_entries sl done todo :
  sl_wf sl (done ++ todo) ->
  match todo with
  | [] => True
  | p :: _ => exists n, deref (sl_nodes sl) p = Ok n /\
      nkey n = keyof (sl_nodes sl) p /\ nvalue n = valof (sl_nodes sl) p
  end.
Proof.
  intros Hwf. destruct todo as [|p todo]; [done|].
  destruct (deref_keyof (sl_nodes sl) p) as (n & ? & _ & ? & ?); [|eauto].
  apply (height_pos sl done (p :: todo) Hwf). set_solver.
Qed.

Lemma SLIterator_SeekToFirst_spec sl l :
  sl_repr sl l -> exists it, SLIterator_SeekToFirst sl = Ok it /\ it_repr sl it l.
Proof.
  intros (order & Hwf & ->). unfold SLIterator_SeekToFirst. rewrite (wf_head _ _ Hwf).
  change 0%nat with (pred_at sl [] 0%nat) at 1.
  rewrite (search_target sl [] order Hwf). eexists. split; [done|].
  exists order, [], order. done.
Qed.

Lemma SLIterator_Seek_spec sl l k :
  sl_repr sl l -> exists it, SLIterator_Seek sl k = Ok it /\ it_repr sl it (from_key k l).
Proof.
  intros (order & Hwf & ->).
  destruct (order_split _ k _ (wf_sorted _ _ Hwf)) as (L & R & -> & HL & HR).
  unfold SLIterator_Seek. rewrite (wf_head _ _ Hwf).
  pose proof (search_pred sl L R k Hwf HL HR (sl_level sl) ltac:(done)) as Hsearch.
  rewrite (pred_at_top sl L R Hwf) in Hsearch by done. rewrite Hsearch. simpl.
  rewrite (search_target sl L R Hwf). eexists. split; [done|]. exists (L ++ R), L, R.
  split_and!; try done. rewrite entries_of_app. apply from_key_app.
  - by apply (entries_of_Forall (fun x => x <ₖ k)).
  - by apply (entries_of_Forall (ble k)).
Qed.

Lemma SLIterator_Next_spec sl it rest :
  it_repr sl it rest -> exists it', SLIterator_Next sl it = Ok it' /\ it_repr sl it' (tail rest).
Proof.
  intros (order & done & todo & Hwf & -> & -> & ->). destruct todo as [|p todo]; simpl.
  - eexists. split; [done|]. by exists (done ++ []), done, [].
  - assert (done ++ p :: todo = (done ++ [p]) ++ todo) as Hassoc by (by rewrite <- app_assoc).
    rewrite Hassoc in Hwf. pose proof (search_target sl (done ++ [p]) todo Hwf) as Ht.
    unfold pred_at in Ht. rewrite at_level_all in Ht.
    2: { apply Forall_forall. intros q Hq. apply (height_pos _ _ _ Hwf). set_solver. }
    rewrite lastd_app in Ht. simpl in Ht. rewrite Ht.
    eexists. split; [done|]. exists ((done ++ [p]) ++ todo), (done ++ [p]), todo. done.
Qed.

Lemma SLIterator_read_spec sl it rest :
  it_repr sl it rest ->
  SLIterator_Valid it = negb (bool_decide (rest = [])) /\
  SLIterator_Key sl it = Ok (from_option fst [] (head rest)) /\
  SLIterator_Value sl it = Ok (from_option snd None (head rest)) /\
  SLIterator_IsTombstone sl it =
    Ok (match rest with [] => false | e :: _ => bool_decide (e.2 = None) end).
Proof.
  intros (order & done & todo & Hwf & -> & -> & ->). pose proof (head_entries sl done todo Hwf) as Hh.
  destruct todo as [|p todo]; simpl; [done|].
  destruct Hh as (n & -> & Hk & Hv). simpl. by rewrite Hk, Hv.
Qed.

Lemma SLIterator_drain_spec sl it rest fuel :
  it_repr sl it rest -> (length rest <= fuel)%nat -> SLIterator_drain fuel sl it = Ok rest.
Proof.
  revert it rest. induction fuel as [|fuel IH]; intros it rest Hit Hlen;
    destruct (SLIterator_read_spec _ _ _ Hit) as (Hv & Hk & Hval & _); simpl; rewrite Hv;
    destruct rest as [|[k v] rest]; simpl in *; try done; [lia|].
  rewrite Hk. simpl. rewrite Hval. simpl.
  destruct (SLIterator_Next_spec _ _ _ Hit) as (it' & -> & Hit'). simpl in *.
  rewrite (IH _ _ Hit') by lia. done.
Qed.
