(* ===== verification/Memtable.v ===== *)
(** * memtable/memtable.go: the freezable memtable

    Every method holds the table's mutex for its whole body, so a method is
    one atomic transition of the state record.  The theorems refine any
    history of writes to a finite map from keys to values or tombstones. *)

From S2P Require Import Prelude SkipList.

Definition defaultMaxSize : Z := 4 * 1024 * 1024.

Record Memtable := mkMemtable {
  m_sl : SkipList;
  m_maxSize : Z;
  m_frozen : bool
}.

Definition NewMemtable (maxSize : Z) : Memtable :=
  mkMemtable NewSkipList (if maxSize <=? 0 then defaultMaxSize else maxSize) false.

Definition Memtable_Put (coins : list bool) (key : bytes) (value : option bytes) : M Memtable unit :=
  m ← get_st;
  if m_frozen m then throw ErrFrozen
  else sl ← lift (SkipList_Put coins key value (m_sl m));
       put_st (mkMemtable sl (m_maxSize m) (m_frozen m)).

(** The value, whether the key was found, whether it is a tombstone. *)
Definition Memtable_Get (key : bytes) (m : Memtable) : res (option bytes * bool * bool) :=
  '(val, ok) ← SkipList_Get key (m_sl m);
  if (negb ok : bool) then Ok (None, false, false) else Ok (val, true, bool_decide (val = None)).

Definition Memtable_Delete (coins : list bool) (key : bytes) : M Memtable unit :=
  m ← get_st;
  if m_frozen m then throw ErrFrozen
  else sl ← lift (SkipList_Delete coins key (m_sl m));
       put_st (mkMemtable sl (m_maxSize m) (m_frozen m)).

Definition Memtable_ShouldFlush (m : Memtable) : bool := m_maxSize m <=? SkipList_Size (m_sl m).
Definition Memtable_Freeze (m : Memtable) : Memtable := mkMemtable (m_sl m) (m_maxSize m) true.
Definition Memtable_IsFrozen (m : Memtable) : bool := m_frozen m.
Definition Memtable_NewIterator (m : Memtable) : SLIterator := SkipList_NewIterator (m_sl m).
Definition Memtable_ApproximateSize (m : Memtable) : Z := SkipList_Size (m_sl m).

(** ** Histories *)

Inductive mop :=
| MPut (coins : list bool) (key : bytes) (value : option bytes)
| MDelete (coins : list bool) (key : bytes).

Definition mop_run (o : mop) : M Memtable unit :=
  match o with
  | MPut coins k v => Memtable_Put coins k v
  | MDelete coins k => Memtable_Delete coins k
  end.

Fixpoint mops_run (os : list mop) : M Memtable unit :=
  match os with
  | [] => mret tt
  | o :: os => mop_run o;; mops_run os
  end.

(** The abstract memtable: a key is absent, a tombstone, or a value. *)
Definition mop_spec (m : gmap bytes (option bytes)) (o : mop) : gmap bytes (option bytes) :=
  match o with
  | MPut _ k v => <[k := v]> m
  | MDelete _ k => <[k := None]> m
  end.

(** A traversal of the whole table, as [flushMemtable] makes it. *)
Definition Memtable_scan (m : Memtable) : res (list (bytes * option bytes)) :=
  it ← SLIterator_SeekToFirst (m_sl m);
  SLIterator_drain (length (sl_nodes (m_sl m))) (m_sl m) it.

Definition mt_repr (m : Memtable) (l : list (bytes * option bytes)) : Prop := sl_repr (m_sl m) l.

(** ** Each operation on the sorted-list representation *)

Lemma Memtable_Put_spec m l coins k v :
  mt_repr m l -> m_frozen m = false ->
  exists m', Memtable_Put coins k v m = (Ok tt, m') /\ mt_repr m' (ains k v l) /\
    m_frozen m' = false /\ m_maxSize m' = m_maxSize m.
Proof.
  intros Hr Hf. destruct (SkipList_Put_spec _ _ coins k v Hr) as (sl' & E & Hr').
  unfold Memtable_Put, mbind, M_bind, get_st, lift, put_st. rewrite Hf, E. eauto.
Qed.

Lemma Memtable_Delete_spec m l coins k :
  mt_repr m l -> m_frozen m = false ->
  exists m', Memtable_Delete coins k m = (Ok tt, m') /\ mt_repr m' (ains k None l) /\
    m_frozen m' = false /\ m_maxSize m' = m_maxSize m.
Proof. apply Memtable_Put_spec. Qed.

Lemma Memtable_Get_spec m l k :
  mt_repr m l ->
  Memtable_Get k m =
    Ok (match assoc k l with
        | Some v => (v, true, bool_decide (v = None))
        | None => (None, false, false)
        end).
Proof.
  intros Hr. unfold Memtable_Get. rewrite (SkipList_Get_spec _ _ k Hr). simpl.
  by destruct (assoc k l).
Qed.

Lemma Memtable_scan_spec m l : mt_repr m l -> Memtable_scan m = Ok l.
Proof.
  intros Hr. unfold Memtable_scan.
  destruct (SLIterator_SeekToFirst_spec _ _ Hr) as (it & -> & Hit). simpl.
  apply SLIterator_drain_spec; [done|]. destruct Hr as (order & Hwf & ->).
  unfold entries_of. rewrite length_fmap, (wf_alloc _ _ Hwf). lia.
Qed.

Lemma NewMemtable_repr n : mt_repr (NewMemtable n) [].
Proof. apply NewSkipList_repr. Qed.

Lemma mop_run_spec m l o :
  mt_repr m l -> m_frozen m = false ->
  exists m' l', mop_run o m = (Ok tt, m') /\ mt_repr m' l' /\ m_frozen m' = false /\
    (forall s : gmap bytes (option bytes), (forall k, assoc k l = s !! k) ->
       forall k, assoc k l' = mop_spec s o !! k).
Proof.
  intros Hr Hf.
  assert (forall k v, exists m' l', Memtable_Put (match o with MPut c _ _ | MDelete c _ => c end) k v m = (Ok tt, m') /\
    mt_repr m' l' /\ m_frozen m' = false /\ (forall s : gmap bytes (option bytes), (forall k, assoc k l = s !! k) ->
       forall k', assoc k' l' = (<[k := v]> s) !! k')) as H.
  { intros k v. destruct (Memtable_Put_spec m l (match o with MPut c _ _ | MDelete c _ => c end) k v Hr Hf)
      as (m' & E & Hr' & Hf' & _).
    exists m', (ains k v l). split_and!; try done. intros s Hs k'.
    rewrite assoc_ains by (by eapply sl_repr_sorted). rewrite lookup_insert.
    keq k k'; [by rewrite decide_True|by rewrite decide_False]. }
  destruct o as [coins k v|coins k]; apply H.
Qed.

Lemma mops_run_spec os m l :
  mt_repr m l -> m_frozen m = false ->
  exists m' l', mops_run os m = (Ok tt, m') /\ mt_repr m' l' /\ m_frozen m' = false /\
    (forall s : gmap bytes (option bytes), (forall k, assoc k l = s !! k) ->
       forall k, assoc k l' = fold_left mop_spec os s !! k).
Proof.
  revert m l. induction os as [|o os IH]; intros m l Hr Hf; [by exists m, l|].
  destruct (mop_run_spec m l o Hr Hf) as (m1 & l1 & E1 & Hr1 & Hf1 & Hs1).
  destruct (IH m1 l1 Hr1 Hf1) as (m2 & l2 & E2 & Hr2 & Hf2 & Hs2).
  exists m2, l2. split_and!; try done.
  - simpl. unfold mbind, M_bind. by rewrite E1.
  - intros s Hs. apply Hs2. by apply Hs1.
Qed.

(** ** Properties *)

(** C23.  Any history of [Put] and [Delete] on a fresh memtable succeeds, and
    the table then answers every [Get] as the finite map the history denotes:
    absent, tombstone, or the last value written. *)
Theorem memtable_refines_map :
  forall (maxSize : Z) (os : list mop),
  exists m, mops_run os (NewMemtable maxSize) = (Ok tt, m) /\
    forall k, Memtable_Get k m =
      Ok (match fold_left mop_spec os ∅ !! k with
          | None => (None, false, false)
          | Some v => (v, true, bool_decide (v = None))
          end).
Proof.
  intros n os. destruct (mops_run_spec os _ [] (NewMemtable_repr n) eq_refl) as (m & l & E & Hr & _ & Hs).
  exists m. split; [done|]. intros k. rewrite (Memtable_Get_spec m l k Hr).
  by rewrite (Hs ∅ (fun k => eq_sym (lookup_empty k)) k).
Qed.

(** A full traversal of the memtable terminates and yields each key of
    the denoted map exactly once, in strictly increasing byte order, with its
    value or tombstone: what [flushMemtable] hands to the SSTable writer. *)
Theorem memtable_scan_sorted :
  forall (maxSize : Z) (os : list mop),
  exists m l, mops_run os (NewMemtable maxSize) = (Ok tt, m) /\ Memtable_scan m = Ok l /\
    ksorted l /\ SkipList_Len (m_sl m) = len l /\
    forall k, assoc k l = fold_left mop_spec os ∅ !! k.
Proof.
  intros n os. destruct (mops_run_spec os _ [] (NewMemtable_repr n) eq_refl) as (m & l & E & Hr & _ & Hs).
  exists m, l. split_and!; [done|by apply Memtable_scan_spec|by eapply sl_repr_sorted|by apply sl_repr_count|].
  intros k. apply Hs. intros k'. by rewrite lookup_empty.
Qed.

(** Once frozen, the memtable rejects every write with [ErrFrozen] and
    its contents and answers no longer change, whatever writes are attempted. *)
Theorem memtable_frozen_immutable :
  forall (m : Memtable) (o : mop),
  mop_run o (Memtable_Freeze m) = (Err ErrFrozen, Memtable_Freeze m) /\
  forall k, Memtable_Get k (Memtable_Freeze m) = Memtable_Get k m.
Proof. intros m [coins k v|coins k]; done. Qed.
