(* ===== verification/Bloom.v ===== *)
(** * sstable/bloom.go: the per-table Bloom filter

    All index arithmetic is [uint32] and wraps; an index outside the bit
    array, or a zero modulus, is a panic.  The theorems: the filter built from
    a set of keys never answers "definitely not" for one of them, also after
    an encode/decode round trip, and none of its operations panics. *)

From S2P Require Import Prelude GoStd.
From Stdlib Require Import SpecFloat.

Record BloomFilter := mkBloom {
  bf_bits : bytes;
  bf_m : Z;
  bf_k : Z
}.

(** [uint32(float64(bitsPerKey) * 0.693)], in binary64 arithmetic. *)
Definition float64_of_int (z : Z) : spec_float := binary_normalize 53 1024 z 0 false.
Definition float64_0_693 : spec_float := S754_finite false 6241989083535507 (-53).
Definition uint32_of_float64 (f : spec_float) : Z :=
  match f with
  | S754_finite false m e => u32 (Z.shiftl (Z.pos m) e)
  | S754_finite true m e => u32 (- Z.shiftl (Z.pos m) e)
  | _ => 0
  end.
Definition num_hashes (bitsPerKey : Z) : Z :=
  uint32_of_float64 (SFmul 53 1024 (float64_of_int bitsPerKey) float64_0_693).

Definition NewBloomFilter (numKeys bitsPerKey : Z) : BloomFilter :=
  let bitsPerKey := if bitsPerKey <=? 0 then 10 else bitsPerKey in
  let numKeys := if numKeys <? 1 then 1 else numKeys in
  let m := u32 (numKeys * bitsPerKey) in
  let m := if m <? 8 then 8 else m in
  let k := num_hashes bitsPerKey in
  let k := if k <? 1 then 1 else k in
  let k := if 30 <? k then 30 else k in
  let numBytes := u32 (m + 7) / 8 in
  mkBloom (replicate (Z.to_nat numBytes) x00) m k.

Definition bloomHashes (key : bytes) : Z * Z :=
  (fnv32a key, u32 (Z.shiftr (fnv64a key) 32)).

(** [(h1 + i*h2) % bf.m] *)
Definition bit_index (h1 h2 i m : Z) : res Z :=
  if m =? 0 then Panic else Ok (u32 (h1 + u32 (i * h2)) mod m).

(** [bits[bit/8] |= 1 << (bit % 8)] *)
Definition set_bit (bits : bytes) (bit : Z) : res bytes :=
  b ← index bits (bit / 8);
  Ok (<[Z.to_nat (bit / 8) := Zbyte (Z.lor (byteZ b) (Z.shiftl 1 (bit mod 8)))]> bits).

(** The loop of [Add], for the hash numbers [hs]. *)
Fixpoint add_loop (h1 h2 m : Z) (hs : list Z) (bits : bytes) : res bytes :=
  match hs with
  | [] => Ok bits
  | i :: hs =>
      bit ← bit_index h1 h2 i m;
      bits ← set_bit bits bit;
      add_loop h1 h2 m hs bits
  end.

Definition BloomFilter_Add (key : bytes) (bf : BloomFilter) : res BloomFilter :=
  let '(h1, h2) := bloomHashes key in
  bits ← add_loop h1 h2 (bf_m bf) (seqZ 0 (bf_k bf)) (bf_bits bf);
  Ok (mkBloom bits (bf_m bf) (bf_k bf)).

(** The loop of [MayContain]. *)
Fixpoint may_loop (h1 h2 m : Z) (bits : bytes) (hs : list Z) : res bool :=
  match hs with
  | [] => Ok true
  | i :: hs =>
      bit ← bit_index h1 h2 i m;
      b ← index bits (bit / 8);
      if Z.land (byteZ b) (Z.shiftl 1 (bit mod 8)) =? 0 then Ok false
      else may_loop h1 h2 m bits hs
  end.

Definition BloomFilter_MayContain (bf : BloomFilter) (key : bytes) : res bool :=
  let '(h1, h2) := bloomHashes key in
  may_loop h1 h2 (bf_m bf) (bf_bits bf) (seqZ 0 (bf_k bf)).

Definition BloomFilter_Encode (bf : BloomFilter) : bytes :=
  putLE 4 (bf_m bf) ++ putLE 4 (bf_k bf) ++ bf_bits bf.

Definition DecodeBloomFilter (data : bytes) : res BloomFilter :=
  if len data <? 8 then Err (Errorf "bloom filter data too short") else
  mb ← slice data 0 4;
  kb ← slice data 4 8;
  let m := getLE mb in
  let k := getLE kb in
  let numBytes := u32 (m + 7) / 8 in
  if u32 (len data - 8) <? numBytes then Err (Errorf "bloom filter data truncated") else
  bits ← slice data 8 (u32 (8 + numBytes));
  Ok (mkBloom bits m k).

(** [for _, k := range keys { bf.Add(k) }] *)
Fixpoint bloom_add_all (keys : list bytes) (bf : BloomFilter) : res BloomFilter :=
  match keys with
  | [] => Ok bf
  | k :: keys => bf ← BloomFilter_Add k bf; bloom_add_all keys bf
  end.

(** ** Well-formed filters *)

Record bf_wf (bf : BloomFilter) : Prop := {
  bf_m_range : 0 < bf_m bf /\ bf_m bf + 7 < 2 ^ 32;
  bf_k_range : 0 <= bf_k bf < 2 ^ 32;
  bf_bits_len : len (bf_bits bf) = (bf_m bf + 7) / 8
}.

(** Bit [n] of the array. *)
Definition getbit (bits : bytes) (n : Z) : bool :=
  match bits !! Z.to_nat (n / 8) with
  | Some b => Z.testbit (byteZ b) (n mod 8)
  | None => false
  end.

(** ** Bits of bytes *)

Lemma land_shiftl1 x j : 0 <= j -> (Z.land x (Z.shiftl 1 j) =? 0) = negb (Z.testbit x j).
Proof.
  intros Hj. rewrite Z.shiftl_1_l. destruct (Z.testbit x j) eqn:E; simpl.
  - apply Z.eqb_neq. intros H. assert (Z.testbit (Z.land x (2 ^ j)) j = false) as H' by (by rewrite H, Z.bits_0).
    rewrite Z.land_spec, E, Z.pow2_bits_true in H' by done. done.
  - apply Z.eqb_eq. apply Z.bits_inj'. intros i Hi. rewrite Z.land_spec, Z.bits_0, Z.pow2_bits_eqb by done.
    destruct (Z.eqb_spec j i); [subst; by rewrite E|by rewrite andb_false_r].
Qed.

Lemma lor_byte_bit x j :
  0 <= x < 256 -> 0 <= j < 8 -> 0 <= Z.lor x (Z.shiftl 1 j) < 256.
Proof.
  intros Hx Hj. split; [apply Z.lor_nonneg; split; [lia|apply Z.shiftl_nonneg; lia]|].
  assert (Z.lor x (Z.shiftl 1 j) = Z.lor x (Z.shiftl 1 j) mod 2 ^ 8) as ->; [|apply Z.mod_pos_bound; lia].
  rewrite <- Z.land_ones by lia. apply Z.bits_inj'. intros i Hi.
  rewrite Z.land_spec, Z.lor_spec, Z.testbit_ones_nonneg, Z.shiftl_1_l, Z.pow2_bits_eqb by lia.
  destruct (Z.ltb_spec i 8); [by rewrite andb_true_r|]. rewrite andb_false_r.
  rewrite <- (Z.mod_small x (2 ^ 8)) by lia. rewrite Z.mod_pow2_bits_high by lia.
  simpl. apply Z.eqb_neq. lia.
Qed.

Lemma getbit_set_bit bits bit bits' n :
  0 <= bit -> 0 <= n -> set_bit bits bit = Ok bits' ->
  getbit bits' n = (n =? bit) || getbit bits n.
Proof.
  intros Hbit Hn. unfold set_bit, index.
  rewrite (proj2 (Z.leb_le 0 (bit / 8))) by (apply Z.div_pos; lia).
  destruct (bits !! Z.to_nat (bit / 8)) as [b|] eqn:Eb; simpl; intros; simplify_eq.
  pose proof (Z.mod_pos_bound bit 8 ltac:(lia)) as Hm. pose proof (byteZ_range b) as Hb.
  unfold getbit. pose proof (lookup_lt_Some _ _ _ Eb) as Hlt.
  pose proof (Z.div_mod n 8 ltac:(lia)). pose proof (Z.div_mod bit 8 ltac:(lia)).
  pose proof (Z.mod_pos_bound n 8 ltac:(lia)).
  destruct (decide (n / 8 = bit / 8)) as [Heq|Hne].
  - rewrite Heq, list_lookup_insert_eq, Eb by done.
    rewrite byteZ_Zbyte_small by (by apply lor_byte_bit).
    rewrite Z.lor_spec, Z.shiftl_1_l, Z.pow2_bits_eqb by lia. rewrite orb_comm. f_equal.
    destruct (Z.eqb_spec (bit mod 8) (n mod 8)), (Z.eqb_spec n bit); try done; lia.
  - rewrite list_lookup_insert_ne; [|pose proof (Z.div_pos n 8); pose proof (Z.div_pos bit 8); lia].
    destruct (Z.eqb_spec n bit); [congruence|done].
Qed.

Lemma set_bit_ok bits bit :
  0 <= bit < 8 * len bits -> exists bits', set_bit bits bit = Ok bits' /\ len bits' = len bits.
Proof.
  intros Hb. unfold set_bit.
  destruct (bits !! Z.to_nat (bit / 8)) as [b|] eqn:E.
  - unfold index. rewrite (proj2 (Z.leb_le 0 _)), E by (apply Z.div_pos; lia). simpl.
    eexists. split; [done|]. unfold len. by rewrite length_insert.
  - apply lookup_ge_None in E. pose proof (Z.div_lt_upper_bound bit 8 (len bits)). unfold len in *. lia.
Qed.

(** ** Hash positions stay inside the array *)

Lemma bit_index_ok h1 h2 i m : 0 < m -> exists b, bit_index h1 h2 i m = Ok b /\ 0 <= b < m.
Proof.
  intros Hm. unfold bit_index. rewrite (proj2 (Z.eqb_neq m 0)) by lia.
  eexists. split; [done|]. by apply Z.mod_pos_bound.
Qed.

Lemma bits_cover bf b : bf_wf bf -> 0 <= b < bf_m bf -> 0 <= b < 8 * len (bf_bits bf).
Proof.
  intros [H1 H2 H3] Hb. rewrite H3. pose proof (Z.div_mod (bf_m bf + 7) 8 ltac:(lia)).
  pose proof (Z.mod_pos_bound (bf_m bf + 7) 8 ltac:(lia)). lia.
Qed.

Section loops.
Context (h1 h2 m : Z) (nbytes : Z).
Context (Hm : 0 < m) (Hcover : forall b, 0 <= b < m -> b < 8 * nbytes).

Lemma add_loop_spec hs bits :
  len bits = nbytes ->
  exists bits', add_loop h1 h2 m hs bits = Ok bits' /\ len bits' = nbytes /\
    (forall n, 0 <= n -> getbit bits n = true -> getbit bits' n = true) /\
    (forall i b, i ∈ hs -> bit_index h1 h2 i m = Ok b -> getbit bits' b = true).
Proof.
  revert bits. induction hs as [|i hs IH]; intros bits Hl; simpl.
  { exists bits. split_and!; try done. intros i b []%elem_of_nil. }
  destruct (bit_index_ok h1 h2 i m Hm) as (b & Hbi & Hb). rewrite Hbi. simpl.
  destruct (set_bit_ok bits b) as (bits1 & Hs & Hl1). { rewrite Hl. split; [lia|by apply Hcover]. }
  rewrite Hs. simpl. destruct (IH bits1) as (bits2 & -> & Hl2 & Hmono & Hset); [congruence|].
  exists bits2. split_and!; try done.
  - intros n Hn Hg. apply Hmono; [done|].
    rewrite (getbit_set_bit bits b bits1 n) by (done || lia). by rewrite Hg, orb_true_r.
  - intros j bj [->|Hj]%elem_of_cons Hbj; [|by eapply Hset].
    assert (bj = b) as -> by congruence.
    apply Hmono; [lia|]. rewrite (getbit_set_bit bits b bits1 b) by (done || lia).
    by rewrite Z.eqb_refl.
Qed.

Lemma may_loop_spec hs bits :
  len bits = nbytes ->
  exists r, may_loop h1 h2 m bits hs = Ok r /\
    (r = true <-> forall i b, i ∈ hs -> bit_index h1 h2 i m = Ok b -> getbit bits b = true).
Proof.
  intros Hl. induction hs as [|i hs (r & IHr & IH)]; simpl.
  { exists true. split; [done|]. split; [|done]. intros _ i b []%elem_of_nil. }
  destruct (bit_index_ok h1 h2 i m Hm) as (b & Hbi & Hb). rewrite Hbi. simpl.
  destruct (bits !! Z.to_nat (b / 8)) as [x|] eqn:E.
  2: { apply lookup_ge_None in E. pose proof (Hcover b Hb).
       pose proof (Z.div_lt_upper_bound b 8 (len bits)). unfold len in *. lia. }
  unfold index. rewrite (proj2 (Z.leb_le 0 _)), E by (apply Z.div_pos; lia). simpl.
  rewrite land_shiftl1 by (apply Z.mod_pos_bound; lia).
  assert (getbit bits b = Z.testbit (byteZ x) (b mod 8)) as Hg by (unfold getbit; by rewrite E).
  rewrite <- Hg. destruct (getbit bits b) eqn:Eg; simpl.
  - rewrite IHr. exists r. split; [done|]. rewrite IH. split.
    + intros H j bj [->|Hj]%elem_of_cons Hbj; [congruence|eauto].
    + intros H j bj Hj. apply H. by right.
  - exists false. split; [done|]. split; [done|]. intros H.
    rewrite (H i b) in Eg; [done|left|done].
Qed.
End loops.

(** ** Operations on well-formed filters *)

Lemma num_hashes_10 : num_hashes 10 = 6.
Proof. vm_compute. reflexivity. Qed.

Lemma u32_add7 m : 0 < m -> m + 7 < 2 ^ 32 -> u32 (m + 7) / 8 = (m + 7) / 8.
Proof. intros. rewrite u32_small; lia. Qed.

Lemma NewBloomFilter_wf n b :
  0 < n -> 0 < b -> n * b + 7 < 2 ^ 32 -> bf_wf (NewBloomFilter n b).
Proof.
  intros Hn Hb Hnb. unfold NewBloomFilter.
  rewrite (proj2 (Z.leb_gt b 0)), (proj2 (Z.ltb_ge n 1)) by lia.
  rewrite (u32_small (n * b)) by nia.
  set (m := if n * b <? 8 then 8 else n * b).
  assert (0 < m /\ m + 7 < 2 ^ 32) as [H1 H2] by (unfold m; destruct (Z.ltb_spec (n * b) 8); lia).
  split; simpl; [done| |].
  - destruct (Z.ltb_spec (num_hashes b) 1); [simpl; lia|].
    destruct (Z.ltb_spec 30 (num_hashes b)); lia.
  - rewrite u32_add7 by done. unfold len. rewrite length_replicate.
    rewrite Z2Nat.id; [done|]. apply Z.div_pos; lia.
Qed.

Lemma bf_wf_cover bf : bf_wf bf -> forall b, 0 <= b < bf_m bf -> b < 8 * len (bf_bits bf).
Proof. intros H b Hb. by apply bits_cover. Qed.

Lemma BloomFilter_Add_spec bf k :
  bf_wf bf ->
  exists bf', BloomFilter_Add k bf = Ok bf' /\ bf_wf bf' /\
    bf_m bf' = bf_m bf /\ bf_k bf' = bf_k bf /\ BloomFilter_MayContain bf' k = Ok true /\
    (forall k', BloomFilter_MayContain bf k' = Ok true -> BloomFilter_MayContain bf' k' = Ok true).
Proof.
  intros Hwf. pose proof (bf_wf_cover bf Hwf) as Hc. destruct Hwf as [H1 H2 H3].
  unfold BloomFilter_Add, BloomFilter_MayContain. destruct (bloomHashes k) as [h1 h2] eqn:Eh.
  destruct (add_loop_spec h1 h2 (bf_m bf) _ ltac:(lia) Hc (seqZ 0 (bf_k bf)) (bf_bits bf) eq_refl)
    as (bits' & -> & Hl & Hmono & Hset).
  simpl. eexists. split; [done|]. simpl. split_and!; try done.
  - split; simpl; [done|done|]. by rewrite Hl.
  - rewrite <- Hl in Hc.
    destruct (may_loop_spec h1 h2 (bf_m bf) _ ltac:(lia) Hc (seqZ 0 (bf_k bf)) bits' eq_refl) as (r & -> & Hr).
    by rewrite (proj2 Hr Hset).
  - intros k'. generalize (fnv32a k') (u32 (Z.shiftr (fnv64a k') 32)). intros g1 g2.
    destruct (may_loop_spec g1 g2 (bf_m bf) _ ltac:(lia) Hc (seqZ 0 (bf_k bf)) _ eq_refl) as (r & -> & Hr).
    intros [= ->]. rewrite <- Hl in Hc.
    destruct (may_loop_spec g1 g2 (bf_m bf) _ ltac:(lia) Hc (seqZ 0 (bf_k bf)) bits' eq_refl) as (r' & -> & Hr').
    f_equal. apply Hr'. intros i b Hi Hb. apply Hmono; [|by eapply Hr].
    destruct (bit_index_ok g1 g2 i (bf_m bf) ltac:(lia)) as (b' & Hb' & ?).
    rewrite Hb in Hb'. injection Hb' as ->. lia.
Qed.

(** A query of a well-formed filter does not panic. *)
Lemma bloom_may_total bf k : bf_wf bf -> exists b, BloomFilter_MayContain bf k = Ok b.
Proof.
  intros Hwf. pose proof (bf_wf_cover bf Hwf) as Hc. destruct Hwf as [Hm _ _].
  unfold BloomFilter_MayContain. destruct (bloomHashes k) as [h1 h2].
  destruct (may_loop_spec h1 h2 (bf_m bf) _ ltac:(lia) Hc (seqZ 0 (bf_k bf)) _ eq_refl) as (r & -> & _). eauto.
Qed.

Lemma bloom_add_all_spec ks bf :
  bf_wf bf ->
  exists bf', bloom_add_all ks bf = Ok bf' /\ bf_wf bf' /\ bf_m bf' = bf_m bf /\ bf_k bf' = bf_k bf /\
    (forall k, k ∈ ks \/ BloomFilter_MayContain bf k = Ok true -> BloomFilter_MayContain bf' k = Ok true).
Proof.
  revert bf. induction ks as [|k ks IH]; intros bf Hwf; simpl.
  - exists bf. split_and!; try done. intros k [[]%elem_of_nil|]; done.
  - destruct (BloomFilter_Add_spec bf k Hwf) as (bf1 & -> & Hwf1 & Hm1 & Hk1 & Hin & Hmono). simpl.
    destruct (IH bf1 Hwf1) as (bf2 & -> & Hwf2 & Hm2 & Hk2 & Hall).
    exists bf2. split_and!; try done; [congruence..|].
    intros k' [[->|Hk']%elem_of_cons|Hk']; apply Hall; auto.
Qed.

Lemma DecodeBloomFilter_Encode bf :
  bf_wf bf -> DecodeBloomFilter (BloomFilter_Encode bf) = Ok bf.
Proof.
  intros [[Hm0 Hm] Hk Hl]. unfold DecodeBloomFilter, BloomFilter_Encode.
  assert (len (putLE 4 (bf_m bf) ++ putLE 4 (bf_k bf) ++ bf_bits bf) = 8 + (bf_m bf + 7) / 8) as Hlen.
  { autorewrite with kvlen. rewrite Hl. lia. }
  assert (0 <= (bf_m bf + 7) / 8 < 2 ^ 29 + 1) as Hd.
  { split; [apply Z.div_pos; lia|]. apply Z.div_lt_upper_bound; lia. }
  rewrite Hlen, (proj2 (Z.ltb_ge _ 8)) by lia.
  slice_step. simpl. slice_step. simpl.
  rewrite !getLE_putLE32 by lia. rewrite u32_add7 by lia.
  rewrite u32_small, (proj2 (Z.ltb_ge _ _)) by lia.
  rewrite (u32_small (8 + _)) by lia. slice_step. simpl. by destruct bf.
Qed.

(** ** Properties *)

(** C32.  No false negatives: a filter sized for the keys and filled with them
    answers "may contain" for each of them, before and after it went through
    its on-disk encoding, and neither building nor querying it panics. *)
Theorem bloom_no_false_negative :
  forall (keys : list bytes) (bitsPerKey : Z) (key : bytes),
  0 < bitsPerKey -> Z.max 1 (len keys) * bitsPerKey + 7 < 2 ^ 32 -> key ∈ keys ->
  exists bf, bloom_add_all keys (NewBloomFilter (len keys) bitsPerKey) = Ok bf /\
    BloomFilter_MayContain bf key = Ok true /\
    DecodeBloomFilter (BloomFilter_Encode bf) = Ok bf.
Proof.
  intros keys b key Hb Hsz Hin.
  assert (0 < len keys) as Hpos.
  { destruct keys as [|x ks]; [by apply elem_of_nil in Hin|]. rewrite len_cons.
    pose proof (len_nonneg ks). lia. }
  destruct (bloom_add_all_spec keys (NewBloomFilter (len keys) b)) as (bf & E & Hwf & _ & _ & Hall).
  { rewrite Z.max_r in Hsz by lia. by apply NewBloomFilter_wf. }
  exists bf. split_and!; [done|by apply Hall; left|by apply DecodeBloomFilter_Encode].
Qed.

Lemma bloom_no_false_negative_witness :
  0 < 10 /\ Z.max 1 (len [[x61]; [x62; x63]]) * 10 + 7 < 2 ^ 32 /\ [x61] ∈ [[x61]; [x62; x63]] /\
  exists bf, bloom_add_all [[x61]; [x62; x63]] (NewBloomFilter 2 10) = Ok bf /\
    BloomFilter_MayContain bf [x61] = Ok true /\
    DecodeBloomFilter (BloomFilter_Encode bf) = Ok bf.
Proof.
  split; [lia|]. split; [vm_compute; reflexivity|]. split; [left|].
  apply (bloom_no_false_negative [[x61]; [x62; x63]] 10 [x61]);
    [lia|vm_compute; reflexivity|left].
Defined.
