(* ===== verification/Wal.v ===== *)
(** * wal/wal.go: the write-ahead log

    A log is a directory of files named by increasing ids ([w_files], keyed by
    file name, which a Go string is: a sequence of bytes) of which the last is
    open for appending through a [bufio.Writer].  [dirview] is what a reader
    of the directory sees: the closed files and the active one's on-disk
    contents.  Operations run under the log's mutex, so each is one
    transition.

    The theorems cover the record codec, replay of intact and of torn files,
    durability of acknowledged records across a power failure, and the
    refinement of [Append]/[AppendBatch]/[Rotate]/[PurgeOlderThan]/[Replay]
    to an abstract list of segments. *)

From S2P Require Import Prelude GoStd.

Definition RecordPut : byte := x01.
Definition RecordDelete : byte := x02.

Definition wal_defaultMaxSize : Z := 64 * 1024 * 1024.

Record WRecord := mkRecord {
  r_type : byte;
  r_key : bytes;
  r_value : option bytes
}.

Record WAL := mkWAL {
  w_files : gmap bytes File;
  w_name : bytes;
  w_linked : bool;
  w_fileID : Z;
  w_size : Z;
  w_maxSize : Z;
  w_buf : Bufio
}.

(** ** Record codec *)

Definition record_payload (rec : WRecord) : bytes :=
  [r_type rec] ++ putLE 4 (len (r_key rec)) ++ r_key rec ++
  putLE 4 (len (val_bytes (r_value rec))) ++ val_bytes (r_value rec).

Definition encodeRecord (rec : WRecord) : bytes :=
  let dataSize := 1 + 4 + len (r_key rec) + 4 + len (val_bytes (r_value rec)) in
  putLE 4 (ChecksumIEEE (record_payload rec)) ++ putLE 4 dataSize ++ record_payload rec.

(** [None] is the [false] of the Go function. *)
Definition decodeRecordData (data : bytes) : res (option WRecord) :=
  if len data <? 9 then Ok None else
  typ ← index data 0;
  let off := 1 in
  kl ← slice data off (off + 4);
  let keyLen := getLE kl in
  let off := off + 4 in
  if len data <? off + keyLen then Ok None else
  key ← slice data off (off + keyLen);
  let off := off + keyLen in
  if len data <? off + 4 then Ok None else
  vl ← slice data off (off + 4);
  let valLen := getLE vl in
  let off := off + 4 in
  if len data <? off + valLen then Ok None else
  val ← (if 0 <? valLen then v ← slice data off (off + valLen); Ok (Some v) else Ok None);
  Ok (Some (mkRecord typ key val)).

(** ** File names *)

(** [fmt.Sprintf("%d", id)], at most [fuel] digits. *)
Fixpoint digits (fuel : nat) (n : Z) : bytes :=
  match fuel with
  | O => []
  | S fuel => (if n <? 10 then [] else digits fuel (n / 10)) ++ [Zbyte (48 + n mod 10)]
  end.

(** ".wal" *)
Definition dotwal : bytes := [x2e; x77; x61; x6c].

Definition walFileName (id : Z) : bytes :=
  let d := digits 20 id in
  replicate (6 - length d) x30 ++ d ++ dotwal.

(** [strings.HasSuffix] and [strings.TrimSuffix] for a matching suffix. *)
Definition HasSuffix (name suffix : bytes) : bool :=
  (length suffix <=? length name)%nat && beqb (drop (length name - length suffix) name) suffix.
Definition TrimSuffix (name suffix : bytes) : bytes :=
  if HasSuffix name suffix then take (length name - length suffix) name else name.

(** [strconv.ParseUint(s, 10, 64)]; [None] is a syntax or range error. *)
Definition parse_digit (acc : option Z) (b : byte) : option Z :=
  a ← acc;
  if (48 <=? byteZ b) && (byteZ b <=? 57) then Some (a * 10 + (byteZ b - 48)) else None.
Definition ParseUint (s : bytes) : option Z :=
  if bool_decide (s = []) then None else
  v ← fold_left parse_digit s (Some 0);
  if v <? 2 ^ 64 then Some v else None.

Definition wal_id (name : bytes) : option Z :=
  if HasSuffix name dotwal then ParseUint (TrimSuffix name dotwal) else None.

(** Sorted file ids among the names of a directory. *)
Definition findWALFiles (names : list bytes) : list Z := merge_sort Z.le (omap wal_id names).

(** ** Opening *)

Inductive open_outcome :=
| Opened (plan : list fault)
| OpenFails
| StatFails.

Definition dirview (w : WAL) : gmap bytes File :=
  if w_linked w then <[w_name w := bfile (w_buf w)]> (w_files w) else w_files w.

(** The names [os.ReadDir] returns. *)
Definition names_of (files : gmap bytes File) : list bytes := (map_to_list files).*1.

Definition openFile (o : open_outcome) : M WAL unit := fun w =>
  match o with
  | OpenFails => (Err (Wrap "wal: open file" ErrIO), w)
  | StatFails => (Err (Wrap "wal: stat" ErrIO), w)
  | Opened plan =>
      let name := walFileName (w_fileID w) in
      let files := dirview w in
      let old := default (mkFile [] 0 [] true) (files !! name) in
      (Ok tt,
       mkWAL (delete name files) name true (w_fileID w) (len (contents old)) (w_maxSize w)
         (bufio_NewWriter (mkFile (contents old) (synced old) plan false)))
  end.

(** A log value before [openFile]: no file is open. *)
Definition wal_unopened (files : gmap bytes File) (id maxSize : Z) : WAL :=
  mkWAL files [] false id 0 maxSize (bufio_NewWriter (mkFile [] 0 [] true)).

(** [Open] on the files of the directory; [mkdir_ok] and [readdir_ok] are the
    outcomes of [os.MkdirAll] and [os.ReadDir]. *)
Definition WAL_Open (mkdir_ok readdir_ok : bool) (o : open_outcome) (files : gmap bytes File)
    (maxSize : Z) : res WAL :=
  if negb mkdir_ok then Err (Wrap "wal: mkdir" ErrIO) else
  let maxSize := if maxSize <=? 0 then wal_defaultMaxSize else maxSize in
  if negb readdir_ok then Err (Wrap "wal: readdir" ErrIO) else
  let ids := findWALFiles (names_of files) in
  let fileID := default 1 (last ids) in
  match openFile o (wal_unopened files fileID maxSize) with
  | (Ok _, w) => Ok w
  | (Err e, _) => Err e
  | (Panic, _) => Panic
  | (OutOfFuel, _) => OutOfFuel
  end.

(** ** Appending *)

Definition set_buf (w : WAL) (b : Bufio) : WAL :=
  mkWAL (w_files w) (w_name w) (w_linked w) (w_fileID w) (w_size w) (w_maxSize w) b.

(** An operation on [w.buf], and one on [w.file]. *)
Definition on_buf {A} (m : M Bufio A) : M WAL A := fun w =>
  let '(r, b) := m (w_buf w) in (r, set_buf w b).
Definition on_file {A} (m : M File A) : M WAL A := fun w =>
  let '(r, f) := m (bfile (w_buf w)) in
  (r, set_buf w (mkBufio f (bbuf (w_buf w)) (berr (w_buf w)))).

Definition grow_size (n : Z) : M WAL unit := fun w =>
  (Ok tt, mkWAL (w_files w) (w_name w) (w_linked w) (w_fileID w) (w_size w + n) (w_maxSize w) (w_buf w)).

Definition write_record (rec : WRecord) : M WAL unit :=
  n ← wrap "wal: write" (on_buf (bufio_Write (encodeRecord rec)));
  grow_size n.

Definition flush_and_sync : M WAL unit :=
  wrap "wal: flush" (on_buf bufio_Flush);;
  wrap "wal: sync" (on_file File_Sync).

Definition WAL_Append (rec : WRecord) : M WAL unit :=
  write_record rec;; flush_and_sync.

Fixpoint write_records (recs : list WRecord) : M WAL unit :=
  match recs with
  | [] => mret tt
  | rec :: recs => write_record rec;; write_records recs
  end.

Definition WAL_AppendBatch (recs : list WRecord) : M WAL unit :=
  write_records recs;; flush_and_sync.

Definition WAL_Sync : M WAL unit :=
  wrap "wal: flush" (on_buf bufio_Flush);; on_file File_Sync.

Definition incr_fileID : M WAL Z := fun w =>
  (Ok (w_fileID w),
   mkWAL (w_files w) (w_name w) (w_linked w) (u64 (w_fileID w + 1)) (w_size w) (w_maxSize w) (w_buf w)).

(** Returns the id of the file that was closed. *)
Definition WAL_Rotate (o : open_outcome) : M WAL Z :=
  wrap "wal: flush" (on_buf bufio_Flush);;
  wrap "wal: sync" (on_file File_Sync);;
  wrap "wal: close" (on_file File_Close);;
  oldID ← incr_fileID;
  openFile o;;
  mret oldID.

Definition WAL_Close : M WAL unit :=
  wrap "wal: flush" (on_buf bufio_Flush);;
  wrap "wal: sync" (on_file File_Sync);;
  on_file File_Close.

(** ** Replaying *)

Section replay.
Context {St : Type} (fn : WRecord -> M St unit).

(** The loop of [replayFile] on the unread part [s] of the file. *)
Fixpoint replay_loop (fuel : nat) (s : bytes) : M St unit :=
  match fuel with
  | O => lift OutOfFuel
  | S fuel =>
      match ReadFull 8 s with
      | Ok (header, s) =>
          crc ← lift (slice header 0 4);
          dl ← lift (slice header 4 8);
          match ReadFull (getLE dl) s with
          | Ok (data, s) =>
              if negb (ChecksumIEEE data =? getLE crc) then mret tt else
              rec ← lift (decodeRecordData data);
              match rec with
              | None => mret tt
              | Some rec => fn rec;; replay_loop fuel s
              end
          | _ => mret tt
          end
      | _ => mret tt
      end
  end.

Definition replayFile (files : gmap bytes File) (name : bytes) : M St unit :=
  match files !! name with
  | None => throw (Wrap "wal: open for replay" ErrIO)
  | Some f => replay_loop (S (length (contents f))) (contents f)
  end.

Fixpoint replay_files (files : gmap bytes File) (ids : list Z) : M St unit :=
  match ids with
  | [] => mret tt
  | id :: ids => replayFile files (walFileName id);; replay_files files ids
  end.

Definition WAL_Replay (w : WAL) : M St unit :=
  replay_files (dirview w) (findWALFiles (names_of (dirview w))).
End replay.

(** ** Purging *)

(** [os.Remove] of one name; an open file stays readable through its handle. *)
Definition remove_name (name : bytes) (w : WAL) : WAL :=
  mkWAL (delete name (w_files w)) (w_name w)
    (w_linked w && negb (beqb name (w_name w))) (w_fileID w) (w_size w) (w_maxSize w) (w_buf w).

(** [remove_ok] tells, for each id removed, whether [os.Remove] succeeds. *)
Fixpoint purge_ids (remove_ok : Z -> bool) (fileID : Z) (ids : list Z) : M WAL unit :=
  match ids with
  | [] => mret tt
  | id :: ids =>
      if id <=? fileID then
        if remove_ok id then
          w ← get_st; put_st (remove_name (walFileName id) w);; purge_ids remove_ok fileID ids
        else throw (Wrap "wal: purge" ErrIO)
      else purge_ids remove_ok fileID ids
  end.

Definition WAL_PurgeOlderThan (remove_ok : Z -> bool) (fileID : Z) : M WAL unit :=
  w ← get_st;
  purge_ids remove_ok fileID (findWALFiles (names_of (dirview w))).

(** ** The abstract log *)

(** What replay delivers for a record: an empty value comes back as [nil]. *)
Definition norm_record (r : WRecord) : WRecord := mkRecord (r_type r) (r_key r) (norm_value (r_value r)).

(** The lengths fit their 32-bit fields. *)
Definition record_fits (r : WRecord) : Prop :=
  9 + len (r_key r) + len (val_bytes (r_value r)) < 2 ^ 32.

Definition encode_all (rs : list WRecord) : bytes := concat (encodeRecord <$> rs).

(** Deliver a list of records to the callback, in order. *)
Fixpoint deliver {St} (fn : WRecord -> M St unit) (rs : list WRecord) : M St unit :=
  match rs with
  | [] => mret tt
  | r :: rs => fn r;; deliver fn rs
  end.

(** A torn write: a proper prefix of what one record encodes to. *)
Definition torn (s : bytes) : Prop :=
  exists r rest, record_fits r /\ encodeRecord r = s ++ rest /\ rest <> [].

(** ** The codec round trip *)

Lemma len_record_payload r :
  len (record_payload r) = 9 + len (r_key r) + len (val_bytes (r_value r)).
Proof. unfold record_payload. len_lia. Qed.

Lemma decode_record_payload r :
  record_fits r -> decodeRecordData (record_payload r) = Ok (Some (norm_record r)).
Proof.
  intros Hfit. unfold record_fits in Hfit. unfold decodeRecordData. rewrite len_record_payload.
  pose proof (len_nonneg (r_key r)). pose proof (len_nonneg (val_bytes (r_value r))).
  rewrite (proj2 (Z.ltb_ge _ 9)) by lia. unfold record_payload.
  change (index _ 0) with (Ok (r_type r)). rstep.
  slice_step. rstep. rewrite getLE_putLE32 by lia.
  rewrite (proj2 (Z.ltb_ge _ _)) by lia.
  slice_step. rstep. rewrite (proj2 (Z.ltb_ge _ _)) by lia.
  slice_step. rstep. rewrite getLE_putLE32 by lia. rewrite (proj2 (Z.ltb_ge _ _)) by lia.
  unfold norm_record, norm_value.
  destruct (Z.ltb_spec 0 (len (val_bytes (r_value r)))) as [Hv|Hv].
  - slice_step. rstep. unfold val_bytes in *. destruct (r_value r) as [[|x v]|]; done.
  - assert (val_bytes (r_value r) = []) as Hnil by (apply len_0_nil; lia).
    unfold val_bytes in *. by destruct (r_value r) as [[|x v]|].
Qed.

Lemma len_encodeRecord r :
  len (encodeRecord r) = 17 + len (r_key r) + len (val_bytes (r_value r)).
Proof. unfold encodeRecord. rewrite !len_app, len_record_payload. len_lia. Qed.

(** ** Replaying an intact prefix and a torn tail *)

Section replaying.
Context {St : Type} (fn : WRecord -> M St unit).

(** One iteration of the loop on an intact record. *)
Lemma replay_loop_record fuel r s st :
  record_fits r ->
  replay_loop fn (S fuel) (encodeRecord r ++ s) st = (fn (norm_record r);; replay_loop fn fuel s) st.
Proof.
  intros Hfit. cbn [replay_loop]. unfold encodeRecord.
  pose proof (ChecksumIEEE_bound (record_payload r)). unfold record_fits in Hfit.
  pose proof (len_nonneg (r_key r)). pose proof (len_nonneg (val_bytes (r_value r))).
  set (hdr := putLE 4 (ChecksumIEEE (record_payload r)) ++
    putLE 4 (1 + 4 + len (r_key r) + 4 + len (val_bytes (r_value r)))).
  rewrite <- !app_assoc, (app_assoc (putLE 4 _) (putLE 4 _)). fold hdr.
  rewrite (ReadFull_app' 8 hdr) by (unfold hdr; len_lia).
  unfold mbind, M_bind, lift at 1. unfold hdr at 1. slice_step.
  unfold lift at 1, hdr. slice_step. rewrite !getLE_putLE32 by lia.
  rewrite ReadFull_app' by (rewrite len_record_payload; lia).
  rewrite Z.eqb_refl. simpl. unfold lift. by rewrite decode_record_payload.
Qed.

Lemma replay_loop_short fuel s st : len s < 8 -> replay_loop fn (S fuel) s st = (Ok tt, st).
Proof. intros H. simpl. destruct (ReadFull_short 8 s H) as [e ->]. done. Qed.

Lemma app_prefix_split {A} (a b c d : list A) :
  (length a <= length c)%nat -> a ++ b = c ++ d -> exists e, c = a ++ e /\ b = e ++ d.
Proof.
  intros Hl Heq. exists (drop (length a) c).
  assert (take (length a) (a ++ b) = take (length a) (c ++ d)) as Ht by (by rewrite Heq).
  assert (drop (length a) (a ++ b) = drop (length a) (c ++ d)) as Hd by (by rewrite Heq).
  rewrite take_app_length, take_app_le in Ht by done.
  rewrite drop_app_length, drop_app_le in Hd by done.
  split; [|done]. rewrite Ht at 1. by rewrite take_drop.
Qed.

(** A torn record ends the replay of its file without an error. *)
Lemma replay_loop_torn fuel s st : torn s -> replay_loop fn (S fuel) s st = (Ok tt, st).
Proof.
  intros (r & rest & Hfit & Henc & Hrest).
  destruct (decide (len s < 8)) as [Hs|Hs]; [by apply replay_loop_short|].
  unfold encodeRecord in Henc. unfold record_fits in Hfit.
  pose proof (len_nonneg (r_key r)). pose proof (len_nonneg (val_bytes (r_value r))).
  rewrite app_assoc in Henc. set (hdr := putLE 4 (ChecksumIEEE (record_payload r)) ++
    putLE 4 (1 + 4 + len (r_key r) + 4 + len (val_bytes (r_value r)))) in *.
  assert (len hdr = 8) as Hhdr by (unfold hdr; len_lia).
  apply app_prefix_split in Henc as (e & -> & Hp); [|unfold len in *; lia].
  cbn [replay_loop]. rewrite (ReadFull_app' 8 hdr) by done.
  unfold mbind, M_bind, lift at 1. unfold hdr at 1. slice_step.
  unfold lift at 1, hdr. slice_step. rewrite (getLE_putLE32 (1 + 4 + _ + 4 + _)) by lia.
  pose proof (len_record_payload r) as Hlp. rewrite Hp, len_app in Hlp.
  assert (0 < len rest). { destruct rest; [done|]. rewrite len_cons. pose proof (len_nonneg rest). lia. }
  destruct (ReadFull_short (1 + 4 + len (r_key r) + 4 + len (val_bytes (r_value r))) e) as [err ->]; [lia|].
  done.
Qed.

Lemma encode_all_cons r rs : encode_all (r :: rs) = encodeRecord r ++ encode_all rs.
Proof. done. Qed.

Lemma replay_loop_all rs t fuel st :
  Forall record_fits rs -> t = [] \/ torn t -> (length rs < fuel)%nat ->
  replay_loop fn fuel (encode_all rs ++ t) st = deliver fn (norm_record <$> rs) st.
Proof.
  intros Hfit Ht. revert fuel st. induction Hfit as [|r rs Hr Hfit IH]; intros [|fuel] st Hf; simpl in Hf; try lia.
  - unfold encode_all. cbn [fmap list_fmap concat app]. destruct Ht as [->|Ht].
    + by apply replay_loop_short.
    + by apply replay_loop_torn.
  - rewrite encode_all_cons, <- app_assoc, replay_loop_record by done.
    cbn [fmap list_fmap deliver]. unfold mbind, M_bind.
    destruct (fn (norm_record r) st) as [[[]| | |] st']; try done. apply IH. lia.
Qed.

Lemma length_encode_all rs : (length rs <= length (encode_all rs))%nat.
Proof.
  induction rs as [|r rs IH]; [simpl; lia|]. rewrite encode_all_cons, length_app. simpl.
  pose proof (len_encodeRecord r) as H. unfold len in H. lia.
Qed.
End replaying.

(** ** File names *)

Lemma parse_app l k acc :
  fold_left parse_digit (l ++ k) acc = fold_left parse_digit k (fold_left parse_digit l acc).
Proof. apply fold_left_app. Qed.

Lemma parse_digit_ok a n :
  parse_digit (Some a) (Zbyte (48 + n mod 10)) = Some (a * 10 + n mod 10).
Proof.
  pose proof (Z.mod_pos_bound n 10 ltac:(lia)). unfold parse_digit.
  rewrite byteZ_Zbyte_small by lia. simpl.
  rewrite (proj2 (Z.leb_le 48 _)), (proj2 (Z.leb_le _ 57)) by lia. simpl. f_equal. lia.
Qed.

Lemma parse_digits fuel n :
  0 <= n < 10 ^ Z.of_nat fuel -> fold_left parse_digit (digits fuel n) (Some 0) = Some n.
Proof.
  revert n. induction fuel as [|fuel IH]; intros n Hn; [simpl in *; f_equal; lia|].
  cbn [digits]. rewrite parse_app. destruct (Z.ltb_spec n 10).
  - cbn [fold_left]. rewrite parse_digit_ok, Z.mod_small by lia. done.
  - rewrite Nat2Z.inj_succ, Z.pow_succ_r in Hn by lia.
    rewrite IH by (split; [apply Z.div_pos; lia|apply Z.div_lt_upper_bound; lia]).
    cbn [fold_left]. rewrite parse_digit_ok. f_equal. pose proof (Z.div_mod n 10). lia.
Qed.

Lemma parse_zeros k : fold_left parse_digit (replicate k x30) (Some 0) = Some 0.
Proof. by induction k. Qed.

Lemma wal_id_walFileName id : 0 <= id < 2 ^ 64 -> wal_id (walFileName id) = Some id.
Proof.
  intros Hid. unfold wal_id, TrimSuffix, walFileName.
  rewrite app_assoc. set (s := replicate (6 - length (digits 20 id)) x30 ++ digits 20 id).
  assert (HasSuffix (s ++ dotwal) dotwal = true) as ->.
  { unfold HasSuffix. rewrite length_app, Nat.add_sub, drop_app_length, beqb_refl, andb_true_r.
    apply Nat.leb_le. lia. }
  rewrite length_app, Nat.add_sub, take_app_length. unfold ParseUint.
  rewrite bool_decide_false.
  2: { intros [_ H]%app_nil. cbn [digits] in H. by apply app_nil in H as [_ H]. }
  unfold s. rewrite parse_app, parse_zeros, parse_digits by lia.
  simpl. by rewrite (proj2 (Z.ltb_lt _ _)) by lia.
Qed.

Lemma walFileName_inj id id' :
  0 <= id < 2 ^ 64 -> 0 <= id' < 2 ^ 64 -> walFileName id = walFileName id' -> id = id'.
Proof.
  intros H H' Heq. apply wal_id_walFileName in H, H'. rewrite Heq in H. congruence.
Qed.

(** Reading a directory of log files back gives their ids, sorted. *)
Lemma findWALFiles_sorted names ids :
  Forall (fun id => 0 <= id < 2 ^ 64) ids -> StronglySorted Z.lt ids ->
  names ≡ₚ (walFileName <$> ids) -> findWALFiles names = ids.
Proof.
  intros Hr Hs Hp. unfold findWALFiles.
  assert (omap wal_id (walFileName <$> ids) = ids) as Homap.
  { clear Hs Hp. induction Hr as [|id ids Hid Hr IH]; [done|]. rewrite fmap_cons.
    cbn [omap list_omap]. rewrite wal_id_walFileName by done. by rewrite IH. }
  apply (StronglySorted_unique_strong Z.le).
  - intros x y _ _ Hxy Hyx. lia.
  - apply StronglySorted_merge_sort; [apply _|apply _].
  - clear -Hs. induction Hs as [|x l Hs IH Hf]; constructor; [done|].
    eapply Forall_impl; [exact Hf|]. simpl. lia.
  - rewrite merge_sort_Permutation, Hp, Homap. done.
Qed.

(** ** One append, on any device and across a power failure *)

(** The active file holds exactly the encoded records [rs], all durable, and
    nothing is buffered. *)
Record active_clean (w : WAL) (rs : list WRecord) : Prop := {
  ac_buf : bbuf (w_buf w) = [];
  ac_err : berr (w_buf w) = None;
  ac_contents : contents (bfile (w_buf w)) = encode_all rs;
  ac_synced : synced (bfile (w_buf w)) = length (encode_all rs);
  ac_fits : Forall record_fits rs
}.

Lemma encode_all_app rs rs' : encode_all (rs ++ rs') = encode_all rs ++ encode_all rs'.
Proof. unfold encode_all. by rewrite fmap_app, concat_app. Qed.

Lemma encode_all_one r : encode_all [r] = encodeRecord r.
Proof. unfold encode_all. simpl. by rewrite app_nil_r. Qed.

(** The three exits of [Append]: what is on disk afterwards. *)
Lemma WAL_Append_disk w rs r res' w' :
  active_clean w rs -> WAL_Append r w = (res', w') ->
  exists q, contents (bfile (w_buf w')) = encode_all rs ++ q /\ q `prefix_of` encodeRecord r /\
    (length (encode_all rs) <= synced (bfile (w_buf w')))%nat /\
    (res' = Ok tt -> q = encodeRecord r /\ bbuf (w_buf w') = [] /\ berr (w_buf w') = None /\
       synced (bfile (w_buf w')) = length (contents (bfile (w_buf w')))).
Proof.
  intros [Hb He Hc Hs _]. unfold WAL_Append, write_record, flush_and_sync, wrap, on_buf, on_file.
  unfold mbind, M_bind. destruct (bufio_Write (encodeRecord r) (w_buf w)) as [rw b1] eqn:Ew.
  pose proof (bufio_Write_prefix _ _ _ _ Hb He Ew) as (q & Hc1 & Hq & Hs1 & Hrest).
  destruct rw as [n|e| |]; simpl; try (intros ?; simplify_eq/=; exists q; rewrite Hc1, Hc;
    split_and!; try done; lia).
  apply bufio_Write_Ok in Ew as (_ & He1 & _ & Hst1). specialize (Hrest He1).
  destruct (bufio_Flush b1) as [rf b2] eqn:Ef.
  pose proof (bufio_Flush_prefix _ _ _ Ef) as (q2 & Hc2 & Hq2 & Hs2).
  assert (contents (bfile b2) = encode_all rs ++ (q ++ q2) /\ q ++ q2 `prefix_of` encodeRecord r) as [Hc2' Hqq].
  { rewrite Hc2, Hc1, Hc, <- app_assoc. split; [done|]. rewrite <- Hrest. by apply prefix_app. }
  destruct rf as [u|e| |]; simpl; try (intros ?; simplify_eq/=; exists (q ++ q2); rewrite Hc2';
    split_and!; try done; lia).
  apply bufio_Flush_Ok in Ef as (_ & He2 & Hb2 & Hst2).
  assert (contents (bfile b2) = encode_all rs ++ encodeRecord r) as Hfull.
  { rewrite Hst2, Hst1. unfold bstream. by rewrite Hb, app_nil_r, Hc. }
  destruct (File_Sync (bfile b2)) as [rs' f3] eqn:Es.
  pose proof (File_Sync_any _ _ _ Es) as [Hc3 Hs3].
  assert (length (encode_all rs) <= synced f3)%nat as Hle.
  { destruct Hs3 as [-> | ->]; [lia|]. rewrite Hfull, length_app. lia. }
  destruct rs' as [u'|e| |]; simpl; intros ?; simplify_eq/=; exists (encodeRecord r);
    rewrite Hc3, Hfull; split_and!; try done.
  intros _. apply File_Sync_Ok in Es as (_ & Hsy & _). by rewrite Hsy, Hfull.
Qed.

(** A crashed file holds the old records, then a prefix of the new one. *)
Lemma crash_prefix f rs q x n :
  contents f = encode_all rs ++ q -> q `prefix_of` x ->
  (length (encode_all rs) <= synced f)%nat ->
  exists q', contents (crash n f) = encode_all rs ++ q' /\ q' `prefix_of` x /\
    (synced f = length (contents f) -> q' = q).
Proof.
  intros Hc Hq Hs. simpl. rewrite Hc, take_app_ge by lia.
  exists (take (synced f + n - length (encode_all rs)) q). split_and!; [done| |].
  - etrans; [|exact Hq]. exists (drop (synced f + n - length (encode_all rs)) q). by rewrite take_drop.
  - intros ->. apply take_ge. rewrite length_app. lia.
Qed.

(** Replaying a file that ends in a prefix of the encoding of [r]. *)
Lemma replay_prefix {St} (fn : WRecord -> M St unit) rs q r st :
  Forall record_fits rs -> record_fits r -> q `prefix_of` encodeRecord r ->
  let s := encode_all rs ++ q in
  replay_loop fn (S (length s)) s st = deliver fn (norm_record <$> rs) st \/
  (q = encodeRecord r /\
   replay_loop fn (S (length s)) s st = deliver fn (norm_record <$> rs ++ [r]) st).
Proof.
  intros Hrs Hr [rest Hq] s. destruct (decide (rest = [])) as [->|Hne].
  - right. rewrite app_nil_r in Hq. split; [done|]. unfold s.
    rewrite <- Hq, <- encode_all_one, <- encode_all_app, <- (app_nil_r (encode_all _)).
    apply replay_loop_all; [by apply Forall_app_2; [|constructor]|by left|].
    rewrite app_nil_r. pose proof (length_encode_all (rs ++ [r])). lia.
  - left. unfold s. apply replay_loop_all; [done| |].
    + destruct (decide (q = [])) as [->|]; [by left|right]. by exists r, rest.
    + pose proof (length_encode_all rs). rewrite length_app. lia.
Qed.

(** C27.  Crash atomicity of [Append].  From a clean log holding [rs], let one
    [Append r] run on a device that may fail at any call, then lose power at
    any moment: replaying the file delivers either exactly [rs] or exactly
    [rs] followed by [r], without an error; and if [Append] had returned
    success, it is the latter. *)
Theorem wal_append_crash_atomic :
  forall (St : Type) (fn : WRecord -> M St unit) (w w' : WAL) (rs : list WRecord) (r : WRecord)
    (result : res unit) (n : nat) (st : St),
  active_clean w rs -> record_fits r -> WAL_Append r w = (result, w') ->
  let s := contents (crash n (bfile (w_buf w'))) in
  (result <> Ok tt /\ replay_loop fn (S (length s)) s st = deliver fn (norm_record <$> rs) st) \/
  replay_loop fn (S (length s)) s st = deliver fn (norm_record <$> rs ++ [r]) st.
Proof.
  intros St fn w w' rs r result n st Hw Hr Happ s.
  destruct (WAL_Append_disk _ _ _ _ _ Hw Happ) as (q & Hc & Hq & Hle & Hok).
  destruct (crash_prefix _ rs q _ n Hc Hq Hle) as (q' & Hc' & Hq' & Hfull).
  assert (result = Ok tt -> q' = encodeRecord r) as Hres.
  { intros Hr'. destruct (Hok Hr') as (<- & _ & _ & Hsy). auto. }
  unfold s. rewrite Hc'.
  destruct (replay_prefix fn rs q' r st (ac_fits _ _ Hw) Hr Hq') as [Hrep|[_ Hrep]]; [|by right].
  destruct (decide (q' = encodeRecord r)) as [->|Hne].
  - right. rewrite <- encode_all_one, <- encode_all_app, <- (app_nil_r (encode_all _)).
    apply replay_loop_all; [apply Forall_app_2; [apply (ac_fits _ _ Hw)|by constructor]|by left|].
    rewrite app_nil_r. pose proof (length_encode_all (rs ++ [r])). lia.
  - left. split; [|done]. intros H. auto.
Qed.

(** ** Refinement to a list of segments *)

Record wspec := mkWspec {
  ws_closed : list (Z * list WRecord);
  ws_id : Z;
  ws_active : list WRecord
}.

Record wal_repr (w : WAL) (s : wspec) : Prop := {
  wr_ids : StronglySorted Z.lt ((ws_closed s).*1 ++ [ws_id s]);
  wr_range : Forall (fun id => 0 <= id < 2 ^ 64) ((ws_closed s).*1 ++ [ws_id s]);
  wr_closed : forall id rs, (id, rs) ∈ ws_closed s ->
    exists f, w_files w !! walFileName id = Some f /\ contents f = encode_all rs /\
      synced f = length (contents f);
  wr_dom : dom (w_files w) = list_to_set (walFileName <$> (ws_closed s).*1);
  wr_name : w_name w = walFileName (ws_id s);
  wr_linked : w_linked w = true;
  wr_fileID : w_fileID w = ws_id s;
  wr_size : w_size w = len (encode_all (ws_active s));
  wr_healthy : healthy (bfile (w_buf w));
  wr_active : active_clean w (ws_active s);
  wr_fits : Forall (fun seg => Forall record_fits seg.2) (ws_closed s)
}.

(** All records of the log, oldest first. *)
Definition ws_records (s : wspec) : list WRecord := concat (ws_closed s).*2 ++ ws_active s.

Inductive wop :=
| WAppend (r : WRecord)
| WBatch (rs : list WRecord)
| WRotate
| WPurge (fileID : Z).

Definition wop_run (o : wop) : M WAL unit :=
  match o with
  | WAppend r => WAL_Append r
  | WBatch rs => WAL_AppendBatch rs
  | WRotate => WAL_Rotate (Opened []);; mret tt
  | WPurge n => WAL_PurgeOlderThan (fun _ => true) n
  end.

Fixpoint wops_run (os : list wop) : M WAL unit :=
  match os with
  | [] => mret tt
  | o :: os => wop_run o;; wops_run os
  end.

Definition wop_spec (s : wspec) (o : wop) : wspec :=
  match o with
  | WAppend r => mkWspec (ws_closed s) (ws_id s) (ws_active s ++ [r])
  | WBatch rs => mkWspec (ws_closed s) (ws_id s) (ws_active s ++ rs)
  | WRotate => mkWspec (ws_closed s ++ [(ws_id s, ws_active s)]) (ws_id s + 1) []
  | WPurge n => mkWspec (filter (fun seg => n < seg.1) (ws_closed s)) (ws_id s) (ws_active s)
  end.

(** What the engine respects: records fit their length fields, the id does
    not overflow, and only ids of closed files are purged. *)
Definition wop_ok (s : wspec) (o : wop) : Prop :=
  match o with
  | WAppend r => record_fits r
  | WBatch rs => Forall record_fits rs
  | WRotate => ws_id s + 1 < 2 ^ 64
  | WPurge n => n < ws_id s
  end.

Fixpoint wops_ok (s : wspec) (os : list wop) : Prop :=
  match os with
  | [] => True
  | o :: os => wop_ok s o /\ wops_ok (wop_spec s o) os
  end.

(** A buffered write and a flush on a healthy device. *)
Lemma write_records_healthy rs w :
  berr (w_buf w) = None -> healthy (bfile (w_buf w)) ->
  exists w', write_records rs w = (Ok tt, w') /\
    berr (w_buf w') = None /\ healthy (bfile (w_buf w')) /\
    bstream (w_buf w') = bstream (w_buf w) ++ encode_all rs /\
    w' = mkWAL (w_files w) (w_name w) (w_linked w) (w_fileID w) (w_size w + len (encode_all rs))
           (w_maxSize w) (w_buf w').
Proof.
  revert w. induction rs as [|r rs IH]; intros w He Hh.
  - exists w. unfold encode_all. simpl. rewrite len_nil, Z.add_0_r, app_nil_r.
    split_and!; try done. by destruct w.
  - cbn [write_records]. unfold write_record, wrap, on_buf, grow_size, mbind, M_bind.
    destruct (bufio_Write_nofault (encodeRecord r) (w_buf w) He Hh) as (b & E & Hhb). rewrite E.
    apply bufio_Write_Ok in E as (_ & Heb & _ & Hst). simpl.
    destruct (IH (mkWAL (w_files w) (w_name w) (w_linked w) (w_fileID w)
      (w_size w + len (encodeRecord r)) (w_maxSize w) b)) as (w' & E' & He' & Hh' & Hst' & Hw'); [done..|].
    simpl in *. rewrite E'. exists w'. split_and!; try done.
    + rewrite Hst', Hst, encode_all_cons, <- app_assoc. done.
    + rewrite Hw' at 1. rewrite encode_all_cons, len_app. f_equal. lia.
Qed.

Lemma flush_and_sync_healthy w :
  berr (w_buf w) = None -> healthy (bfile (w_buf w)) ->
  exists b, flush_and_sync w = (Ok tt, set_buf w b) /\ berr b = None /\ bbuf b = [] /\
    healthy (bfile b) /\ contents (bfile b) = bstream (w_buf w) /\
    synced (bfile b) = length (bstream (w_buf w)).
Proof.
  intros He Hh. unfold flush_and_sync, wrap, on_buf, on_file, mbind, M_bind.
  destruct (bufio_Flush_nofault _ He Hh) as (b & E & Hhb). rewrite E. simpl.
  apply bufio_Flush_Ok in E as (_ & Heb & Hbb & Hst).
  rewrite File_Sync_healthy by done. eexists. split; [done|]. simpl. by rewrite Hst, Hbb.
Qed.

Lemma WAL_AppendBatch_repr w s rs :
  wal_repr w s -> Forall record_fits rs ->
  exists w', WAL_AppendBatch rs w = (Ok tt, w') /\ wal_repr w' (wop_spec s (WBatch rs)).
Proof.
  intros Hw Hrs. pose proof (wr_active _ _ Hw) as [Hb He Hc Hs Hf].
  unfold WAL_AppendBatch, mbind, M_bind.
  destruct (write_records_healthy rs w He (wr_healthy _ _ Hw)) as (w1 & -> & He1 & Hh1 & Hst1 & Hw1).
  destruct (flush_and_sync_healthy w1 He1 Hh1) as (b & -> & Heb & Hbb & Hhb & Hcb & Hsb).
  eexists. split; [done|].
  assert (bstream (w_buf w1) = encode_all (ws_active s ++ rs)) as Hst.
  { rewrite Hst1, encode_all_app. unfold bstream. by rewrite Hb, Hc, app_nil_r. }
  destruct Hw as [W1 W2 W3 W4 W5 W6 W7 W8 W9 W10 W11].
  split; simpl; try done; rewrite Hw1; simpl; try done.
  - rewrite W8, encode_all_app, len_app. done.
  - split; simpl; try done; [by rewrite Hcb, Hst|by rewrite Hsb, Hst|by apply Forall_app_2].
Qed.

Lemma WAL_Append_batch r w : WAL_Append r w = WAL_AppendBatch [r] w.
Proof.
  unfold WAL_Append, WAL_AppendBatch. cbn [write_records]. unfold mbind, M_bind.
  by destruct (write_record r w) as [[]].
Qed.

Lemma elem_of_last_sorted (ids : list Z) x y :
  StronglySorted Z.lt (ids ++ [y]) -> x ∈ ids -> x < y.
Proof. intros Hs Hx. apply (StronglySorted_app_1_elem_of _ _ _ x y Hs Hx). left. Qed.

Lemma active_not_closed w s : wal_repr w s -> w_files w !! walFileName (ws_id s) = None.
Proof.
  intros Hw. apply not_elem_of_dom. rewrite (wr_dom _ _ Hw), elem_of_list_to_set, list_elem_of_fmap.
  intros (id & Heq & Hid). pose proof (wr_range _ _ Hw) as Hr. rewrite Forall_forall in Hr.
  apply walFileName_inj in Heq; [|apply Hr; set_solver..].
  pose proof (elem_of_last_sorted _ _ _ (wr_ids _ _ Hw) Hid). lia.
Qed.

Lemma WAL_Rotate_repr w s :
  wal_repr w s -> ws_id s + 1 < 2 ^ 64 ->
  exists w', WAL_Rotate (Opened []) w = (Ok (ws_id s), w') /\ wal_repr w' (wop_spec s WRotate).
Proof.
  intros Hw Hid. pose proof (wr_active _ _ Hw) as [Hb He Hc Hs Hf].
  pose proof (wr_range _ _ Hw) as Hr. pose proof (wr_ids _ _ Hw) as Hsort.
  assert (0 <= ws_id s) as Hpos. { rewrite Forall_forall in Hr. apply Hr. set_solver. }
  assert (forall id, id ∈ (ws_closed s).*1 ++ [ws_id s] -> id <= ws_id s) as Hle.
  { intros id [Hi|Hi%list_elem_of_singleton]%elem_of_app; [|lia].
    pose proof (elem_of_last_sorted _ _ _ Hsort Hi). lia. }
  unfold WAL_Rotate, wrap, on_buf, on_file, incr_fileID, mbind, M_bind.
  assert (bufio_Flush (w_buf w) = (Ok tt, w_buf w)) as ->.
  { unfold bufio_Flush. rewrite He, bool_decide_true by done. done. }
  simpl. rewrite File_Sync_healthy by apply (wr_healthy _ _ Hw). simpl. eexists. split.
  { rewrite (wr_fileID _ _ Hw). done. }
  assert (u64 (ws_id s + 1) = ws_id s + 1) as Hu.
  { unfold u64. rewrite Z.mod_small; lia. }
  unfold dirview. simpl. rewrite Hu, (wr_linked _ _ Hw), (wr_name _ _ Hw).
  assert (walFileName (ws_id s) <> walFileName (ws_id s + 1)) as Hne.
  { intros Heq%walFileName_inj; lia. }
  assert (w_files w !! walFileName (ws_id s + 1) = None) as Hfresh.
  { apply not_elem_of_dom. rewrite (wr_dom _ _ Hw), elem_of_list_to_set, list_elem_of_fmap.
    intros (id & Heq & Hi). rewrite Forall_forall in Hr.
    specialize (Hle id ltac:(set_solver)). specialize (Hr id ltac:(set_solver)).
    apply walFileName_inj in Heq; lia. }
  split; simpl; try done; rewrite ?lookup_insert_ne, ?Hfresh by done; simpl; try done.
  - rewrite fmap_app. simpl. apply StronglySorted_app. split_and!; [|done|repeat constructor].
    intros x y Hx ->%list_elem_of_singleton. specialize (Hle x Hx). lia.
  - rewrite fmap_app. simpl. apply Forall_app_2; [done|]. constructor; [lia|done].
  - intros id rs [Hin|Hin%list_elem_of_singleton]%elem_of_app.
    + destruct (wr_closed _ _ Hw id rs Hin) as (f & Hf' & Hcf). exists f. split; [|done].
      rewrite lookup_delete_ne, lookup_insert_ne; [done|..].
      * intros Heq. rewrite <- Heq, active_not_closed in Hf' by done. done.
      * intros Heq. rewrite <- Heq, Hfresh in Hf'. done.
    + simplify_eq. rewrite lookup_delete_ne, lookup_insert_eq by done. eexists. split; [done|]. done.
  - rewrite dom_delete_L, dom_insert_L, (wr_dom _ _ Hw), !fmap_app, list_to_set_app_L. simpl.
    apply not_elem_of_dom in Hfresh. rewrite (wr_dom _ _ Hw) in Hfresh. set_solver.
  - apply Forall_app_2; [apply (wr_fits _ _ Hw)|]. by constructor.
Qed.

Definition set_files (w : WAL) (files : gmap bytes File) : WAL :=
  mkWAL files (w_name w) (w_linked w) (w_fileID w) (w_size w) (w_maxSize w) (w_buf w).

(** Names an id list makes [PurgeOlderThan n] remove. *)
Definition purged (n : Z) (ids : list Z) (k : bytes) : Prop :=
  Exists (fun id => id <= n /\ walFileName id = k) ids.

#[global] Instance purged_dec n ids k : Decision (purged n ids k).
Proof. unfold purged. apply _. Defined.

Lemma purge_ids_all n ids w :
  Forall (fun id => id <= n -> walFileName id <> w_name w) ids ->
  exists files, purge_ids (fun _ => true) n ids w = (Ok tt, set_files w files) /\
    forall k, files !! k = if decide (purged n ids k) then None else w_files w !! k.
Proof.
  unfold purged. revert w. induction ids as [|id ids IH]; intros w Hne; cbn [purge_ids].
  - exists (w_files w). split; [by destruct w|]. intros k. rewrite decide_False; [done|].
    intros H. by apply Exists_nil in H.
  - apply Forall_cons in Hne as [Hid Hne]. destruct (Z.leb_spec id n).
    + unfold mbind, M_bind, get_st, put_st.
      destruct (IH (remove_name (walFileName id) w)) as (files & -> & Hfiles); [done|].
      exists files. split.
      { unfold set_files, remove_name. simpl. by rewrite (proj2 (beqb_false _ _)), andb_true_r by auto. }
      intros k. rewrite Hfiles. simpl. rewrite lookup_delete.
      destruct (decide (walFileName id = k)) as [Hk|Hk].
      * rewrite (decide_True (P := Exists _ (id :: ids))) by (apply Exists_cons; auto).
        by destruct (decide _).
      * apply decide_ext. rewrite Exists_cons. tauto.
    + destruct (IH w Hne) as (files & -> & Hfiles). exists files. split; [done|].
      intros k. rewrite Hfiles. apply decide_ext. rewrite Exists_cons. split; [tauto|].
      intros [[]|]; [lia|done].
Qed.

(** Listing a directory of log files, and finding their ids. *)
Lemma names_of_ids (files : gmap bytes File) ids :
  StronglySorted Z.lt ids -> Forall (fun id => 0 <= id < 2 ^ 64) ids ->
  dom files = list_to_set (walFileName <$> ids) -> names_of files ≡ₚ walFileName <$> ids.
Proof.
  intros Hs Hr Hdom. apply NoDup_Permutation.
  - apply NoDup_fst_map_to_list.
  - clear Hdom. induction Hs as [|id ids Hs IH Hf]; simpl; constructor.
    + rewrite list_elem_of_fmap. intros (id' & Heq & Hid'). apply Forall_cons in Hr as [Hr Hr'].
      rewrite Forall_forall in Hf, Hr'. apply walFileName_inj in Heq; [|done|auto].
      specialize (Hf _ Hid'). lia.
    + apply IH. by apply Forall_cons in Hr as [_ Hr].
  - intros name. rewrite <- (elem_of_list_to_set (C := gset bytes) name (walFileName <$> ids)).
    rewrite <- Hdom, elem_of_dom. unfold is_Some, names_of. setoid_rewrite <- elem_of_map_to_list.
    rewrite list_elem_of_fmap. split.
    + intros ([k f] & -> & Hin). by exists f.
    + intros (f & Hin). by exists (name, f).
Qed.

Lemma find_ids (files : gmap bytes File) ids :
  StronglySorted Z.lt ids -> Forall (fun id => 0 <= id < 2 ^ 64) ids ->
  dom files = list_to_set (walFileName <$> ids) -> findWALFiles (names_of files) = ids.
Proof. intros Hs Hr Hd. apply findWALFiles_sorted; [done..|]. by apply names_of_ids. Qed.

Lemma dom_dirview w s :
  wal_repr w s -> dom (dirview w) = list_to_set (walFileName <$> ((ws_closed s).*1 ++ [ws_id s])).
Proof.
  intros Hw. unfold dirview. rewrite (wr_linked _ _ Hw), (wr_name _ _ Hw), dom_insert_L, (wr_dom _ _ Hw).
  rewrite fmap_app, list_to_set_app_L. simpl. by rewrite (right_id_L ∅ (∪)), (comm_L (∪)).
Qed.

Lemma find_dirview w s : wal_repr w s -> findWALFiles (names_of (dirview w)) = (ws_closed s).*1 ++ [ws_id s].
Proof.
  intros Hw. apply find_ids; [apply (wr_ids _ _ Hw)|apply (wr_range _ _ Hw)|by apply dom_dirview].
Qed.

Lemma filter_fst_sorted n (segs : list (Z * list WRecord)) y :
  StronglySorted Z.lt (segs.*1 ++ [y]) ->
  StronglySorted Z.lt ((filter (fun seg => n < seg.1) segs).*1 ++ [y]).
Proof.
  induction segs as [|[i rs] segs IH]; simpl; [done|]. intros [Hs Hf]%StronglySorted_inv.
  rewrite filter_cons. case_decide; [|auto]. simpl. constructor; [auto|].
  rewrite Forall_forall in Hf |- *. intros x Hx. apply Hf. rewrite elem_of_app in *.
  destruct Hx as [Hx|Hx]; [left|by right]. rewrite list_elem_of_fmap in *.
  destruct Hx as (seg & -> & [_ Hseg]%list_elem_of_filter). eauto.
Qed.

Lemma WAL_Purge_repr w s n :
  wal_repr w s -> n < ws_id s ->
  exists w', WAL_PurgeOlderThan (fun _ => true) n w = (Ok tt, w') /\ wal_repr w' (wop_spec s (WPurge n)).
Proof.
  intros Hw Hn. unfold WAL_PurgeOlderThan, mbind, M_bind, get_st. rewrite (find_dirview w s Hw).
  pose proof (wr_range _ _ Hw) as Hr. rewrite Forall_forall in Hr.
  pose proof (wr_ids _ _ Hw) as Hids.
  assert (forall seg, seg ∈ ws_closed s -> 0 <= seg.1 < 2 ^ 64 /\ seg.1 < ws_id s) as Hseg.
  { intros seg Hs. assert (seg.1 ∈ (ws_closed s).*1) as Hi by (apply list_elem_of_fmap; eauto).
    split; [apply Hr; set_solver|by apply (elem_of_last_sorted _ _ _ Hids)]. }
  destruct (purge_ids_all n ((ws_closed s).*1 ++ [ws_id s]) w) as (files & -> & Hfiles).
  { apply Forall_forall. intros id Hid Hle. rewrite (wr_name _ _ Hw). intros Heq.
    apply walFileName_inj in Heq; [lia|by apply Hr|apply Hr; set_solver]. }
  eexists. split; [done|]. destruct Hw as [W1 W2 W3 W4 W5 W6 W7 W8 W9 W10 W11].
  split; simpl; try done.
  - by apply filter_fst_sorted.
  - apply Forall_forall. intros id [Hid|Hid]%elem_of_app; apply Hr; [|set_solver].
    apply list_elem_of_fmap in Hid as (seg & -> & [_ Hin]%list_elem_of_filter).
    apply elem_of_app. left. apply list_elem_of_fmap. eauto.
  - intros id rs [Hlt Hin]%list_elem_of_filter. simpl in Hlt. rewrite Hfiles, decide_False; [by apply W3|].
    intros (i & Hi & Hle & Heq)%Exists_exists. apply walFileName_inj in Heq; [lia|by apply Hr|].
    by apply (Hseg (id, rs)).
  - apply set_eq. intros k. rewrite elem_of_dom, Hfiles, elem_of_list_to_set, list_elem_of_fmap.
    assert (is_Some (w_files w !! k) <-> exists seg, k = walFileName seg.1 /\ seg ∈ ws_closed s) as Hk.
    { rewrite <- elem_of_dom, W4, elem_of_list_to_set, list_elem_of_fmap. split.
      - intros (i & -> & Hi). apply list_elem_of_fmap in Hi as (seg & -> & ?). eauto.
      - intros (seg & -> & ?). exists seg.1. split; [done|]. apply list_elem_of_fmap. eauto. }
    case_decide as Hd.
    + split; [by intros [? [=]]|]. intros (i & -> & Hi). exfalso.
      apply list_elem_of_fmap in Hi as (seg & -> & [Hlt Hin]%list_elem_of_filter).
      apply Exists_exists in Hd as (j & Hj & Hle & Heq).
      apply walFileName_inj in Heq; [lia|by apply Hr|by apply Hseg].
    + rewrite Hk. split.
      * intros (seg & -> & Hin). exists seg.1. split; [done|]. apply list_elem_of_fmap.
        exists seg. split; [done|]. apply list_elem_of_filter. split; [|done].
        destruct (decide (n < seg.1)); [done|]. exfalso. apply Hd, Exists_exists. exists seg.1.
        split_and!; [|lia|done]. apply elem_of_app. left. apply list_elem_of_fmap. eauto.
      * intros (i & -> & Hi). apply list_elem_of_fmap in Hi as (seg & -> & [_ Hin]%list_elem_of_filter). eauto.
  - by destruct W10.
  - apply Forall_forall. intros seg [_ Hin]%list_elem_of_filter. by apply (proj1 (Forall_forall _ _) W11).
Qed.

Lemma wop_run_repr o w s :
  wal_repr w s -> wop_ok s o ->
  exists w', wop_run o w = (Ok tt, w') /\ wal_repr w' (wop_spec s o).
Proof.
  intros Hw Hok. destruct o as [r|rs| |n]; simpl in *.
  - rewrite WAL_Append_batch. apply WAL_AppendBatch_repr; [done|by constructor].
  - by apply WAL_AppendBatch_repr.
  - destruct (WAL_Rotate_repr w s Hw Hok) as (w' & E & Hw').
    exists w'. unfold mbind, M_bind. by rewrite E.
  - by apply WAL_Purge_repr.
Qed.

Lemma wops_run_repr os w s :
  wal_repr w s -> wops_ok s os ->
  exists w', wops_run os w = (Ok tt, w') /\ wal_repr w' (fold_left wop_spec os s).
Proof.
  revert w s. induction os as [|o os IH]; intros w s Hw Hok; simpl in *; [eauto|].
  destruct Hok as [Ho Hok]. destruct (wop_run_repr o w s Hw Ho) as (w1 & E & Hw1).
  unfold mbind, M_bind. rewrite E. by apply IH.
Qed.

(** ** Replaying a represented log *)

Lemma deliver_app {St} (fn : WRecord -> M St unit) rs rs' st :
  deliver fn (rs ++ rs') st = (deliver fn rs;; deliver fn rs') st.
Proof.
  revert st. induction rs as [|r rs IH]; intros st; [done|]. simpl. unfold mbind, M_bind.
  destruct (fn r st) as [[[]| | |] st']; done.
Qed.

Lemma replayFile_encoded {St} (fn : WRecord -> M St unit) files name f rs st :
  files !! name = Some f -> contents f = encode_all rs -> Forall record_fits rs ->
  replayFile fn files name st = deliver fn (norm_record <$> rs) st.
Proof.
  intros Hf Hc Hrs. unfold replayFile. rewrite Hf, Hc.
  pose proof (replay_loop_all fn rs [] (S (length (encode_all rs))) st Hrs) as H.
  rewrite app_nil_r in H. apply H; [by left|]. pose proof (length_encode_all rs). lia.
Qed.

Lemma replay_files_segs {St} (fn : WRecord -> M St unit) files segs st :
  Forall (fun seg => Forall record_fits seg.2 /\
    exists f, files !! walFileName seg.1 = Some f /\ contents f = encode_all seg.2) segs ->
  replay_files fn files segs.*1 st = deliver fn (norm_record <$> concat segs.*2) st.
Proof.
  intros H. revert st. induction H as [|[id rs] segs (Hfit & f & Hf & Hc) Hs IH]; intros st; [done|].
  simpl in *. rewrite fmap_app, deliver_app. unfold mbind, M_bind.
  rewrite (replayFile_encoded fn files _ f rs) by done.
  destruct (deliver fn (norm_record <$> rs) st) as [[[]| | |] st']; done.
Qed.

Definition ws_all (s : wspec) : list (Z * list WRecord) := ws_closed s ++ [(ws_id s, ws_active s)].

Lemma ws_all_ids s : (ws_all s).*1 = (ws_closed s).*1 ++ [ws_id s].
Proof. unfold ws_all. by rewrite fmap_app. Qed.

Lemma ws_all_records s : concat (ws_all s).*2 = ws_records s.
Proof. unfold ws_all, ws_records. rewrite fmap_app, concat_app. simpl. by rewrite app_nil_r. Qed.

(** Every segment is found in the directory. *)
Lemma dirview_segs w s :
  wal_repr w s ->
  Forall (fun seg => Forall record_fits seg.2 /\
    exists f, dirview w !! walFileName seg.1 = Some f /\ contents f = encode_all seg.2 /\
      synced f = length (contents f)) (ws_all s).
Proof.
  intros Hw. unfold dirview, ws_all. rewrite (wr_linked _ _ Hw), (wr_name _ _ Hw).
  apply Forall_app_2.
  - apply Forall_forall. intros [id rs] Hin. split.
    { by apply (proj1 (Forall_forall _ _) (wr_fits _ _ Hw)). }
    destruct (wr_closed _ _ Hw id rs Hin) as (f & Hf & Hc). exists f. split; [|done].
    rewrite lookup_insert_ne; [done|]. simpl. intros Heq.
    rewrite <- Heq, active_not_closed in Hf by done. done.
  - constructor; [|done]. simpl. split; [apply (wr_active _ _ Hw)|].
    rewrite lookup_insert_eq. eexists. split; [done|].
    rewrite (ac_contents _ _ (wr_active _ _ Hw)). split; [done|]. apply (wr_active _ _ Hw).
Qed.

Lemma WAL_Replay_repr {St} (fn : WRecord -> M St unit) w s st :
  wal_repr w s -> WAL_Replay fn w st = deliver fn (norm_record <$> ws_records s) st.
Proof.
  intros Hw. unfold WAL_Replay. rewrite (find_dirview w s Hw), <- ws_all_ids.
  rewrite replay_files_segs; [by rewrite ws_all_records|].
  eapply Forall_impl; [by apply dirview_segs|]. naive_solver.
Qed.

(** ** Opening a log: the represented directory *)

(** A directory that holds exactly the segments [segs]. *)
Record dir_repr (files : gmap bytes File) (segs : list (Z * list WRecord)) : Prop := {
  dr_ids : StronglySorted Z.lt segs.*1;
  dr_range : Forall (fun id => 0 <= id < 2 ^ 64) segs.*1;
  dr_files : forall id rs, (id, rs) ∈ segs ->
    exists f, files !! walFileName id = Some f /\ contents f = encode_all rs /\
      synced f = length (contents f);
  dr_dom : dom files = list_to_set (walFileName <$> segs.*1);
  dr_fits : Forall (fun seg => Forall record_fits seg.2) segs
}.

(** The log state [Open] starts from. *)
Definition ws_open (segs : list (Z * list WRecord)) : wspec :=
  match last segs with
  | None => mkWspec [] 1 []
  | Some (id, rs) => mkWspec (take (length segs - 1) segs) id rs
  end.

Lemma ws_open_all s : ws_open (ws_all s) = s.
Proof.
  unfold ws_open, ws_all. rewrite last_snoc, length_app. simpl. rewrite Nat.add_sub, take_app_length.
  by destruct s.
Qed.

Lemma dir_repr_dirview w s : wal_repr w s -> dir_repr (dirview w) (ws_all s).
Proof.
  intros Hw. split; rewrite ?ws_all_ids.
  - apply (wr_ids _ _ Hw).
  - apply (wr_range _ _ Hw).
  - intros id rs Hin. pose proof (dirview_segs w s Hw) as H. rewrite Forall_forall in H.
    by apply H in Hin as [_ Hin].
  - by apply dom_dirview.
  - eapply Forall_impl; [by apply dirview_segs|]. naive_solver.
Qed.

(** Synced files survive a power failure. *)
Lemma dir_repr_crash files segs (n : bytes -> nat) :
  dir_repr files segs -> dir_repr (map_imap (fun k f => Some (crash (n k) f)) files) segs.
Proof.
  intros [D1 D2 D3 D4 D5]. split; try done.
  - intros id rs Hin. destruct (D3 id rs Hin) as (f & Hf & Hc & Hs).
    exists (crash (n (walFileName id)) f). rewrite map_lookup_imap, Hf. simpl. split; [done|].
    rewrite Hs, take_ge by lia. done.
  - rewrite <- D4. apply set_eq. intros k. rewrite !elem_of_dom, map_lookup_imap.
    destruct (files !! k); simpl; split; intros []; eauto; done.
Qed.

Lemma WAL_Open_empty maxSize :
  exists w, WAL_Open true true (Opened []) ∅ maxSize = Ok w /\ wal_repr w (ws_open []).
Proof.
  eexists. split; [done|]. split; simpl; try done; try (repeat constructor; lia).
  intros id rs H. by apply not_elem_of_nil in H.
Qed.

Lemma WAL_Open_snoc files segs id rs maxSize :
  dir_repr files (segs ++ [(id, rs)]) ->
  exists w, WAL_Open true true (Opened []) files maxSize = Ok w /\ wal_repr w (mkWspec segs id rs).
Proof.
  intros [D1 D2 D3 D4 D5]. rewrite fmap_app in *. simpl in *.
  unfold WAL_Open. rewrite (find_ids _ _ D1 D2 D4), last_snoc. simpl.
  destruct (D3 id rs) as (f & Hf & Hc & Hsy); [set_solver|]. eexists. split; [done|].
  unfold dirview. simpl. rewrite Hf. simpl.
  assert (0 <= id < 2 ^ 64) as Hid. { rewrite Forall_forall in D2. apply D2. set_solver. }
  assert (forall i, i ∈ segs.*1 -> walFileName i <> walFileName id) as Hne.
  { intros i Hi Heq. rewrite Forall_forall in D2. apply walFileName_inj in Heq; [|apply D2; set_solver|done].
    pose proof (elem_of_last_sorted _ _ _ D1 Hi). lia. }
  split; simpl; try done.
  - intros i rs' Hin. destruct (D3 i rs') as (f' & Hf' & Hc' & Hs'); [set_solver|].
    exists f'. split; [|done]. rewrite lookup_delete_ne; [done|]. intros Heq.
    apply (Hne i); [|done]. apply list_elem_of_fmap. by exists (i, rs').
  - rewrite dom_delete_L, D4, fmap_app, list_to_set_app_L. simpl.
    assert (walFileName id ∉ (list_to_set (walFileName <$> segs.*1) : gset bytes)) as Hni.
    { rewrite elem_of_list_to_set, list_elem_of_fmap. intros (i & Heq & Hi). by apply (Hne i). }
    set_solver.
  - by rewrite Hc.
  - apply Forall_app in D5 as [_ [D5 _]%Forall_cons]. split; simpl; try done. by rewrite Hsy, Hc.
  - by apply Forall_app in D5 as [D5 _].
Qed.

Lemma WAL_Open_repr files segs maxSize :
  dir_repr files segs ->
  exists w, WAL_Open true true (Opened []) files maxSize = Ok w /\ wal_repr w (ws_open segs).
Proof.
  destruct segs as [|[id rs] segs _] using rev_ind; intros Hd.
  - assert (files = ∅) as ->; [|apply WAL_Open_empty].
    apply dom_empty_inv_L, (dr_dom _ _ Hd).
  - unfold ws_open. rewrite last_snoc, length_app. simpl. rewrite Nat.add_sub, take_app_length.
    by apply WAL_Open_snoc.
Qed.

(** ** The properties *)

(** C26.  Durability and refinement of the log.  Open a directory that holds
    the segments [segs] (none for a fresh log), run any sequence of [Append],
    [AppendBatch], [Rotate] and [PurgeOlderThan] on a device that does not fail,
    with records and file numbers within their widths and purging only files that
    were closed by a rotation ([wops_ok]), lose power, and reopen: replay
    delivers, in order and without an error, exactly the records of the abstract
    segment log after those operations, with an empty value delivered as nil
    ([norm_record]), which the engine takes for a deletion. *)
Theorem wal_refines_segments :
  forall (St : Type) (fn : WRecord -> M St unit) (files : gmap bytes File)
    (segs : list (Z * list WRecord)) (os : list wop) (maxSize maxSize' : Z) (n : bytes -> nat) (st : St),
  dir_repr files segs -> wops_ok (ws_open segs) os ->
  exists w w' w2,
    WAL_Open true true (Opened []) files maxSize = Ok w /\
    wops_run os w = (Ok tt, w') /\
    WAL_Open true true (Opened []) (map_imap (fun k f => Some (crash (n k) f)) (dirview w')) maxSize' = Ok w2 /\
    WAL_Replay fn w2 st =
      deliver fn (norm_record <$> ws_records (fold_left wop_spec os (ws_open segs))) st.
Proof.
  intros St fn files segs os maxSize maxSize' n st Hd Hok.
  destruct (WAL_Open_repr files segs maxSize Hd) as (w & Ho & Hw).
  destruct (wops_run_repr os w _ Hw Hok) as (w' & Hr & Hw').
  destruct (WAL_Open_repr _ _ maxSize' (dir_repr_crash _ _ n (dir_repr_dirview _ _ Hw'))) as (w2 & Ho2 & Hw2).
  rewrite ws_open_all in Hw2. exists w, w', w2. split_and!; try done. by apply WAL_Replay_repr.
Qed.

(** A replay callback that records what it is given. *)
Definition collect (r : WRecord) : M (list WRecord) unit := fun l => (Ok tt, l ++ [r]).

Lemma dir_repr_empty : dir_repr ∅ [].
Proof.
  split; simpl; try done; try constructor. intros id rs H. by apply not_elem_of_nil in H.
Qed.

Lemma wal_refines_segments_witness :
  let r1 := mkRecord RecordPut [x61] (Some [x31]) in
  let r2 := mkRecord RecordDelete [x61] None in
  exists w w' w2,
    WAL_Open true true (Opened []) ∅ 0 = Ok w /\
    wops_run [WAppend r1; WRotate; WBatch [r2; r1]; WPurge 1] w = (Ok tt, w') /\
    WAL_Open true true (Opened []) (map_imap (fun k f => Some (crash 3 f)) (dirview w')) 7 = Ok w2 /\
    WAL_Replay collect w2 [] = (Ok tt, [r2; r1]).
Proof.
  intros r1 r2.
  apply (wal_refines_segments (list WRecord) collect ∅ [] [WAppend r1; WRotate; WBatch [r2; r1]; WPurge 1]
    0 7 (fun _ => 3%nat) []).
  - exact dir_repr_empty.
  - repeat split; repeat constructor.
Defined.

Lemma wal_append_crash_atomic_witness :
  let r := mkRecord RecordPut [x61] (Some [x31]) in
  exists w w', WAL_Append r w = (Err (Wrap "wal: flush" ErrIO), w') /\
    (replay_loop collect (S (length (contents (crash 9 (bfile (w_buf w')))))) (contents (crash 9 (bfile (w_buf w')))) [] = (Ok tt, []) \/
     replay_loop collect (S (length (contents (crash 9 (bfile (w_buf w')))))) (contents (crash 9 (bfile (w_buf w')))) [] = (Ok tt, [r])).
Proof.
  intros r.
  set (w := set_buf (wal_unopened ∅ 1 0) (bufio_NewWriter (mkFile [] 0 [Some 5%nat] false))).
  exists w, (snd (WAL_Append r w)). split; [reflexivity|].
  destruct (wal_append_crash_atomic (list WRecord) collect w (snd (WAL_Append r w)) [] r
    (fst (WAL_Append r w)) 9 []) as [[_ H]|H].
  - split; reflexivity || constructor.
  - reflexivity.
  - apply surjective_pairing.
  - left. exact H.
  - right. exact H.
Defined.

(** A record acknowledged after a torn tail is lost.  [Open] appends to
    the newest file without cutting a torn record off its end, so there is a
    directory left by a power failure on which [Open] and [Append] succeed,
    the record is durable on disk, and yet replay does not deliver it. *)
Theorem wal_append_after_torn_tail_lost :
  exists (f : File) (r : WRecord) (w w' : WAL),
    torn (contents f) /\
    WAL_Open true true (Opened []) {[walFileName 1 := f]} 0 = Ok w /\
    WAL_Append r w = (Ok tt, w') /\
    contents (bfile (w_buf w')) = contents f ++ encodeRecord r /\
    synced (bfile (w_buf w')) = length (contents f ++ encodeRecord r) /\
    WAL_Replay collect w' [] = (Ok tt, []).
Proof.
  set (r := mkRecord RecordPut [x61] (Some [x31])).
  set (f := mkFile (take 10 (encodeRecord r)) 10 [] true).
  eexists f, r, _, _. split_and!; [|reflexivity..].
  exists r, (drop 10 (encodeRecord r)). split_and!; [reflexivity| |done].
  symmetry. apply take_drop.
Qed.
