(* ===== verification/TornLog.v ===== *)
(** * wal/wal.go: a log interrupted while it is written

    [AppendBatch] on a device that may fail at any call, and [Open] and
    [Replay] on what a power failure then leaves: the old records and as many
    of the new ones as were written whole, the rest being ignored. *)

From S2P Require Import Prelude GoStd Wal.

(** ** What a buffered writer has put into its file *)

(** The file grew to a part of [T], and nothing was synced. *)
Definition grew (f : File) (T : bytes) (f' : File) : Prop :=
  contents f `prefix_of` contents f' /\ contents f' `prefix_of` T /\ synced f' = synced f.

Lemma grew_write p f r f' x : File_Write p f = (r, f') -> p `prefix_of` x -> grew f (contents f ++ x) f'.
Proof.
  intros (q & Hq & Hc & Hs)%File_Write_prefix Hp. unfold grew. rewrite Hc. split_and!; [by eexists| |done]. apply prefix_app. by etrans.
Qed.

Lemma grew_refl f x : grew f (contents f ++ x) f.
Proof. split_and!; [done|by eexists|done]. Qed.

Lemma grew_trans f T f1 f2 : grew f T f1 -> grew f1 T f2 -> grew f T f2.
Proof. intros (A1 & A2 & A3) (B1 & B2 & B3). split_and!; [by etrans|done|congruence]. Qed.

Lemma grew_Flush b r b' : bufio_Flush b = (r, b') -> grew (bfile b) (bstream b) (bfile b').
Proof. intros (q & Hc & Hq & Hs)%bufio_Flush_prefix. unfold grew, bstream. rewrite Hc. split_and!; [by eexists|by apply prefix_app|done]. Qed.

Lemma grew_spill p b b' p' : bufio_spill p b = (b', p') -> grew (bfile b) (bstream b ++ p) (bfile b').
Proof.
  unfold bufio_spill, bstream. case_bool_decide as Hb.
  - rewrite Hb, app_nil_r. destruct (File_Write p (bfile b)) as [r f] eqn:E. intros H. eapply grew_write; [|done].
    destruct r; injection H as <- <-; exact E.
  - destruct (bufio_Flush _) as [r b2] eqn:E. intros [= <- <-]. apply grew_Flush in E as (A1 & A2 & A3). cbn in *.
    split_and!; [done| |done]. etrans; [exact A2|]. unfold bstream. cbn. rewrite <- app_assoc. do 2 apply prefix_app.
    exists (drop (Z.to_nat (Available b)) p). by rewrite take_drop.
Qed.

Lemma grew_spills fuel p b b' p' : berr b = None -> bufio_spills fuel p b = Ok (b', p') -> grew (bfile b) (bstream b ++ p) (bfile b').
Proof.
  revert p b. induction fuel as [|fuel IH]; intros p b He; cbn [bufio_spills]; (destruct (_ && _); [|intros [= <- <-]]); try done.
  1,3: unfold bstream; rewrite <- app_assoc; apply grew_refl.
  destruct (bufio_spill p b) as [b1 p1] eqn:E. intros H. pose proof (grew_spill _ _ _ _ E) as H1. destruct (berr b1) eqn:He1.
  - rewrite bufio_spills_done in H by (left; by rewrite He1). by injection H as <- <-.
  - destruct (bufio_spill_ok _ _ _ _ He E He1) as [Hs _]. eapply grew_trans; [exact H1|]. rewrite <- Hs. by apply IH.
Qed.

Lemma grew_Write p b r b' : berr b = None -> bufio_Write p b = (r, b') -> grew (bfile b) (bstream b ++ p) (bfile b').
Proof.
  intros He. unfold bufio_Write. destruct (bufio_spills_total p b) as [[b1 p1] E]. rewrite E.
  pose proof (grew_spills _ _ _ _ _ He E). by destruct (berr b1); intros [= <- <-].
Qed.

(** ** A batch on any device *)

(** The parts of the log that writing leaves alone. *)
Definition same_dir (w w' : WAL) : Prop :=
  w_files w' = w_files w /\ w_name w' = w_name w /\ w_linked w' = w_linked w /\ w_fileID w' = w_fileID w.

Lemma write_records_grew recs w r w' :
  berr (w_buf w) = None -> write_records recs w = (r, w') ->
  grew (bfile (w_buf w)) (bstream (w_buf w) ++ encode_all recs) (bfile (w_buf w')) /\ same_dir w w' /\
  (r = Ok tt -> berr (w_buf w') = None /\ bstream (w_buf w') = bstream (w_buf w) ++ encode_all recs).
Proof.
  revert w. induction recs as [|rec recs IH]; intros w He; cbn [write_records].
  { intros [= <- <-]. unfold encode_all. cbn. rewrite app_nil_r. split_and!; try done. apply grew_refl. }
  unfold write_record, wrap, on_buf, grow_size, mbind, M_bind. destruct (bufio_Write (encodeRecord rec) (w_buf w)) as [x b] eqn:E.
  pose proof (grew_Write _ _ _ _ He E) as H. rewrite encode_all_cons, app_assoc.
  assert (grew (bfile (w_buf w)) ((bstream (w_buf w) ++ encodeRecord rec) ++ encode_all recs) (bfile b)) as H'.
  { destruct H as (A1 & A2 & A3). split_and!; [done|by apply prefix_app_r|done]. }
  destruct x as [n|e| |]; try (by intros [= <- <-]). apply bufio_Write_Ok in E as (_ & Hb & _ & Hst). cbn.
  intros (A & B & C)%IH; [|done]. cbn in *. rewrite Hst in *. split_and!; [by eapply grew_trans|done|done].
Qed.

Lemma WAL_AppendBatch_disk w rs recs r w' :
  active_clean w rs -> WAL_AppendBatch recs w = (r, w') ->
  same_dir w w' /\ exists q, contents (bfile (w_buf w')) = encode_all rs ++ q /\ q `prefix_of` encode_all recs /\
    (length (encode_all rs) <= synced (bfile (w_buf w')))%nat.
Proof.
  intros [Hb He Hc Hs _]. unfold WAL_AppendBatch, mbind, M_bind. destruct (write_records recs w) as [x w1] eqn:E.
  destruct (write_records_grew recs w x w1 He E) as ((A1 & A2 & A3) & D1 & Hok).
  assert (bstream (w_buf w) = encode_all rs) as Hst by (unfold bstream; by rewrite Hb, app_nil_r, Hc). rewrite Hst in *.
  assert (forall f, contents (bfile (w_buf w)) `prefix_of` contents f -> contents f `prefix_of` encode_all rs ++ encode_all recs ->
    exists q, contents f = encode_all rs ++ q /\ q `prefix_of` encode_all recs) as Hq.
  { intros f [q Hf] Hp. exists q. rewrite Hf, Hc in *. split; [done|]. by apply prefix_app_inv in Hp. }
  destruct x as [[]|e| |]; try (intros [= <- <-]; split; [done|]; destruct (Hq _ A1 A2) as (q & ? & ?); exists q; split_and!; [done..|lia]).
  destruct (Hok eq_refl) as [He1 Hst1]. unfold flush_and_sync, wrap, on_buf, on_file, mbind, M_bind.
  destruct (bufio_Flush (w_buf w1)) as [y b] eqn:Ef. pose proof (grew_Flush _ _ _ Ef) as (B1 & B2 & B3). rewrite Hst1 in B2.
  assert (contents (bfile (w_buf w)) `prefix_of` contents (bfile b)) as B1' by by etrans.
  destruct y as [[]|e| |]; try (intros [= <- <-]; split; [done|]; destruct (Hq _ B1' B2) as (q & ? & ?); exists q; cbn; split_and!; [done..|lia]).
  cbn. destruct (File_Sync (bfile b)) as [z f] eqn:Es. apply File_Sync_any in Es as [Hcf Hsf].
  destruct (Hq _ B1' B2) as (q & Hqc & Hqp).
  destruct z; intros [= <- <-]; (split; [done|]); exists q; cbn; rewrite Hcf; split_and!; try done;
    (destruct Hsf as [-> | ->]; [lia|rewrite Hqc, length_app; lia]).
Qed.

(** Part of a sequence of records: some of them whole, and a torn one. *)
Lemma encode_all_part recs q :
  Forall record_fits recs -> q `prefix_of` encode_all recs ->
  exists j t, q = encode_all (take j recs) ++ t /\ (t = [] \/ torn t).
Proof.
  intros Hf. revert q. induction Hf as [|r recs Hr Hf IH]; intros q Hq.
  { exists 0%nat, []. apply prefix_nil_inv in Hq as ->. split; [done|by left]. }
  rewrite encode_all_cons in Hq. destruct (decide (length (encodeRecord r) <= length q)%nat) as [Hl|Hl].
  - destruct Hq as [rest Hq]. apply app_prefix_split in Hq as (q' & -> & Hq'); [|done].
    destruct (IH q') as (j & t & -> & Ht); [by exists rest|]. exists (S j), t. cbn [take]. by rewrite encode_all_cons, <- app_assoc.
  - destruct Hq as [rest Hq]. symmetry in Hq. apply app_prefix_split in Hq as (rest' & Hr' & _); [|lia].
    exists 0%nat, q. split; [done|]. destruct (decide (q = [])); [by left|right]. exists r, rest'. split_and!; try done.
    intros ->. rewrite app_nil_r in Hr'. rewrite Hr' in Hl. lia.
Qed.

(** ** Opening what is left *)

(** Closed files as they were written, and an active one that may be torn. *)
Record dir_torn (files : gmap bytes File) (segs : list (Z * list WRecord)) (id : Z) (rs : list WRecord) : Prop := {
  dt_ids : StronglySorted Z.lt (segs.*1 ++ [id]);
  dt_range : Forall (fun id => 0 <= id < 2 ^ 64) (segs.*1 ++ [id]);
  dt_files : forall i rs', (i, rs') ∈ segs -> exists f, files !! walFileName i = Some f /\ contents f = encode_all rs';
  dt_active : exists f t, files !! walFileName id = Some f /\ contents f = encode_all rs ++ t /\ (t = [] \/ torn t);
  dt_dom : dom files = list_to_set (walFileName <$> segs.*1 ++ [id]);
  dt_fits : Forall (fun seg => Forall record_fits seg.2) segs;
  dt_fits' : Forall record_fits rs
}.

(** [Open] succeeds on it and [Replay] delivers all whole records. *)
Lemma WAL_Open_torn files segs id rs maxSize :
  dir_torn files segs id rs ->
  exists w, WAL_Open true true (Opened []) files maxSize = Ok w /\
    forall St (fn : WRecord -> M St unit) st, WAL_Replay fn w st = deliver fn (norm_record <$> concat segs.*2 ++ rs) st.
Proof.
  intros [D1 D2 D3 (f & t & Hf & Hc & Ht) D5 D6 D7]. unfold WAL_Open. rewrite (find_ids _ _ D1 D2 D5), last_snoc. simpl.
  eexists. split; [done|]. intros St fn st. unfold WAL_Replay, dirview. simpl. rewrite Hf. simpl.
  set (files' := <[walFileName id := _]> _).
  assert (dom files' = dom files) as Hdom.
  { unfold files'. rewrite dom_insert_L, dom_delete_L. apply set_eq. intros k. rewrite elem_of_union, elem_of_difference, elem_of_singleton.
    destruct (decide (k = walFileName id)) as [-> |]; [|tauto]. rewrite elem_of_dom, Hf. split; [eauto|by left]. }
  assert (forall i, i ∈ segs.*1 -> walFileName i <> walFileName id) as Hne.
  { intros i Hi Heq. rewrite Forall_forall in D2. apply walFileName_inj in Heq; [|apply D2; set_solver..].
    pose proof (elem_of_last_sorted _ _ _ D1 Hi). lia. }
  rewrite (find_ids files' (segs.*1 ++ [id])) by (done || by rewrite Hdom).
  assert (forall ids1 ids2 st, replay_files fn files' (ids1 ++ ids2) st = (replay_files fn files' ids1;; replay_files fn files' ids2) st) as Happ.
  { intros ids1 ids2. induction ids1 as [|i ids1 IH]; intros st'; [done|]. cbn [app replay_files]. unfold mbind, M_bind in *.
    destruct (replayFile fn files' (walFileName i) st') as [[[]| | |] s]; by try apply IH. }
  rewrite Happ, fmap_app, deliver_app. unfold mbind, M_bind. rewrite replay_files_segs.
  2: { apply Forall_forall. intros [i rs'] Hin. split; [by apply (proj1 (Forall_forall _ _) D6) in Hin|].
       destruct (D3 i rs' Hin) as (f' & Hf' & Hc'). exists f'. split; [|done]. cbn. unfold files'.
       assert (walFileName i <> walFileName id) by (apply Hne, list_elem_of_fmap; by exists (i, rs')).
       by rewrite lookup_insert_ne, lookup_delete_ne. }
  destruct (deliver fn (norm_record <$> concat segs.*2) st) as [[[]| | |] st']; try done.
  cbn [replay_files]. unfold mbind, M_bind, replayFile, files'. rewrite lookup_insert_eq. cbn [contents]. rewrite Hc.
  rewrite replay_loop_all; [|done|done|pose proof (length_encode_all rs); rewrite length_app; lia].
  by destruct (deliver fn (norm_record <$> rs) st') as [[[]| | |] s].
Qed.

(** ** Interrupted appends *)

(** The log with a device that answers its next calls by [plan]. *)
Definition log_faults (plan : list fault) (w : WAL) : WAL :=
  set_buf w (mkBufio (mkFile (contents (bfile (w_buf w))) (synced (bfile (w_buf w))) plan (fclosed (bfile (w_buf w)))) (bbuf (w_buf w)) (berr (w_buf w))).

(** After a batch that was interrupted, and a power failure, the directory
    holds the old records and some of the new ones. *)
Lemma batch_interrupted w s plan recs r w' (nw : bytes -> nat) :
  wal_repr w s -> Forall record_fits recs -> WAL_AppendBatch recs (log_faults plan w) = (r, w') ->
  exists j, dir_torn (map_imap (fun k f => Some (crash (nw k) f)) (dirview w')) (ws_closed s) (ws_id s) (ws_active s ++ take j recs).
Proof.
  intros Hw Hfit E. pose proof (wr_active _ _ Hw) as Hac.
  assert (active_clean (log_faults plan w) (ws_active s)) as Hac' by (destruct Hac; by split).
  destruct (WAL_AppendBatch_disk _ _ _ _ _ Hac' E) as ((S1 & S2 & S3 & S4) & q & Hc & Hq & Hsy).
  destruct (crash_prefix _ _ q _ (nw (walFileName (ws_id s))) Hc Hq Hsy) as (q' & Hc' & Hq' & _).
  destruct (encode_all_part recs q' Hfit Hq') as (j & t & -> & Ht). exists j.
  assert (dirview w' = <[walFileName (ws_id s) := bfile (w_buf w')]> (w_files w)) as Hd.
  { unfold dirview. rewrite S1, S2, S3. unfold log_faults, set_buf. cbn. by rewrite (wr_linked _ _ Hw), (wr_name _ _ Hw). }
  pose proof (active_not_closed _ _ Hw) as Hna. rewrite Hd. split.
  - apply (wr_ids _ _ Hw).
  - apply (wr_range _ _ Hw).
  - intros i rs' Hin. destruct (wr_closed _ _ Hw i rs' Hin) as (f & Hf & Hcf & Hsf). exists (crash (nw (walFileName i)) f).
    rewrite map_lookup_imap, lookup_insert_ne, Hf by (intros Heq; rewrite Heq in Hna; congruence).
    split; [done|]. cbn. by rewrite Hsf, take_ge by lia.
  - eexists _, t. rewrite map_lookup_imap, lookup_insert_eq. split; [done|]. split; [|done]. by rewrite encode_all_app, <- app_assoc.
  - transitivity (dom (<[walFileName (ws_id s):=bfile (w_buf w')]> (w_files w))).
    + apply set_eq. intros k. rewrite !elem_of_dom, map_lookup_imap. destruct (<[_:=_]> _ !! k); cbn; split; intros []; eauto; done.
    + rewrite dom_insert_L, (wr_dom _ _ Hw), fmap_app, list_to_set_app_L. cbn. by rewrite (right_id_L ∅ (∪)), (comm_L (∪)).
  - apply (wr_fits _ _ Hw).
  - apply Forall_app_2; [apply Hac|]. by apply Forall_take.
Qed.
