(* ===== verification/SSTWriter.v ===== *)
(** * sstable/writer.go: writing a sorted table

    [Writer_Add] and [Writer_Finish] over the buffered file of GoStd.v, and
    the layout of the finished file as a function of the list of blocks
    ([table_bytes]).  [write_table_Ok] shows that feeding a writer a list of
    entries leaves exactly that layout on disk, synced, with the entries cut
    into non-empty blocks. *)

From S2P Require Import Prelude GoStd Bloom.

Definition defaultBlockSize : Z := 4096.
Definition magicNumber : Z := 0x4B56535354424C00.
Definition sst_version : Z := 1.
Definition footerSize : Z := 48.
Definition entryTypeValue : byte := x01.
Definition entryTypeTombstone : byte := x02.

Record indexEntry := mkIndexEntry {
  ie_lastKey : bytes;
  ie_offset : Z;
  ie_blockSize : Z
}.

(** sstable/iterator.go: one key of a data block. *)
Record entry := mkEntry {
  e_key : bytes;
  e_value : option bytes;
  e_tombstone : bool
}.

Record Writer := mkWriter {
  sw_buf : Bufio;
  sw_blockBuf : bytes;
  sw_blockEntries : Z;
  sw_indexEntries : list indexEntry;
  sw_keys : list bytes;
  sw_offset : Z;
  sw_entryCount : Z;
  sw_minKey : option bytes;
  sw_maxKey : option bytes;
  sw_blockSize : Z
}.

(** [plan] is the fault plan of the created file, [None] a failing [os.Create]. *)
Definition NewWriter (plan : option (list fault)) (blockSize : Z) : res Writer :=
  let blockSize := if blockSize <=? 0 then defaultBlockSize else blockSize in
  match plan with
  | None => Err ErrIO
  | Some plan =>
      Ok (mkWriter (bufio_NewWriter (mkFile [] 0 plan false)) [] 0 [] [] 0 0 None None blockSize)
  end.

(** [w.buf.Write], [w.buf.Flush] and the calls on [w.file]. *)
Definition sw_on_buf {A} (m : M Bufio A) : M Writer A := fun w =>
  let '(r, b) := m (sw_buf w) in
  (r, mkWriter b (sw_blockBuf w) (sw_blockEntries w) (sw_indexEntries w) (sw_keys w) (sw_offset w)
        (sw_entryCount w) (sw_minKey w) (sw_maxKey w) (sw_blockSize w)).
Definition sw_on_file {A} (m : M File A) : M Writer A :=
  sw_on_buf (fun b => let '(r, f) := m (bfile b) in (r, mkBufio f (bbuf b) (berr b))).

Definition encodeEntry (key : bytes) (value : option bytes) (tombstone : bool) : bytes :=
  putLE 4 (len key) ++ putLE 4 (if tombstone then 0 else len (val_bytes value)) ++
  [if tombstone then entryTypeTombstone else entryTypeValue] ++ key ++
  (if tombstone then [] else val_bytes value).

(** The bookkeeping after a block was written: index entry, offset, empty block. *)
Definition close_block (blockTotal : Z) : M Writer unit := fun w =>
  match index (sw_keys w) (len (sw_keys w) - 1) with
  | Ok lastKey =>
      (Ok tt,
       mkWriter (sw_buf w) [] 0
         (sw_indexEntries w ++ [mkIndexEntry lastKey (sw_offset w) blockTotal]) (sw_keys w)
         (sw_offset w + blockTotal) (sw_entryCount w) (sw_minKey w) (sw_maxKey w) (sw_blockSize w))
  | _ => (Panic, w)
  end.

Definition flushBlock : M Writer unit :=
  w ← get_st;
  if sw_blockEntries w =? 0 then mret tt else
  let entryData := sw_blockBuf w in
  let dataCRC := ChecksumIEEE entryData in
  n1 ← sw_on_buf (bufio_Write entryData);
  n2 ← sw_on_buf (bufio_Write (putLE 4 (sw_blockEntries w) ++ putLE 4 dataCRC));
  close_block (n1 + n2).

Definition add_entry (key : bytes) (value : option bytes) (tombstone : bool) (w : Writer) : Writer :=
  mkWriter (sw_buf w) (sw_blockBuf w ++ encodeEntry key value tombstone) (sw_blockEntries w + 1)
    (sw_indexEntries w) (sw_keys w ++ [key]) (sw_offset w) (sw_entryCount w + 1)
    (if sw_entryCount w =? 0 then Some key else sw_minKey w) (Some key) (sw_blockSize w).

Definition Writer_Add (key : bytes) (value : option bytes) (tombstone : bool) : M Writer unit :=
  w ← get_st;
  put_st (add_entry key value tombstone w);;
  w ← get_st;
  if sw_blockSize w <=? len (sw_blockBuf w) then flushBlock else mret tt.

Definition encodeIndexEntry (ie : indexEntry) : bytes :=
  putLE 4 (len (ie_lastKey ie)) ++ ie_lastKey ie ++ putLE 8 (u64 (ie_offset ie)) ++
  putLE 4 (u32 (ie_blockSize ie)).

(** [n, err := w.buf.Write(p); w.offset += int64(n)] *)
Definition write_advance (p : bytes) : M Writer unit :=
  n ← sw_on_buf (bufio_Write p);
  w ← get_st;
  put_st (mkWriter (sw_buf w) (sw_blockBuf w) (sw_blockEntries w) (sw_indexEntries w) (sw_keys w)
            (sw_offset w + n) (sw_entryCount w) (sw_minKey w) (sw_maxKey w) (sw_blockSize w)).

(** The first 44 bytes of the footer, and the whole of it. *)
Definition footer_body (indexOffset indexSize bloomOffset bloomSize : Z) : bytes :=
  putLE 8 (u64 indexOffset) ++ putLE 4 (u32 indexSize) ++ putLE 8 (u64 bloomOffset) ++
  putLE 4 (u32 bloomSize) ++ replicate 8 x00 ++ putLE 8 magicNumber ++ putLE 4 sst_version.
Definition encodeFooter (indexOffset indexSize bloomOffset bloomSize : Z) : bytes :=
  footer_body indexOffset indexSize bloomOffset bloomSize ++
  putLE 4 (ChecksumIEEE (footer_body indexOffset indexSize bloomOffset bloomSize)).

Definition Writer_Finish : M Writer unit :=
  flushBlock;;
  w ← get_st;
  let indexOffset := sw_offset w in
  let indexData := concat (encodeIndexEntry <$> sw_indexEntries w) in
  write_advance indexData;;
  write_advance (putLE 4 (len (sw_indexEntries w)) ++ putLE 4 (ChecksumIEEE indexData));;
  w ← get_st;
  let indexSize := sw_offset w - indexOffset in
  let bloomOffset := sw_offset w in
  let numKeys := if len (sw_keys w) <? 1 then 1 else len (sw_keys w) in
  bf ← lift (bloom_add_all (sw_keys w) (NewBloomFilter numKeys 10));
  let bloomData := BloomFilter_Encode bf in
  write_advance bloomData;;
  write_advance (putLE 4 (ChecksumIEEE bloomData));;
  w ← get_st;
  let bloomSize := sw_offset w - bloomOffset in
  sw_on_buf (bufio_Write (encodeFooter indexOffset indexSize bloomOffset bloomSize));;
  sw_on_buf bufio_Flush;;
  sw_on_file File_Sync;;
  sw_on_file File_Close.

Definition Writer_EntryCount (w : Writer) : Z := sw_entryCount w.

(** Adding a list of entries, as the callers of [Add] do. *)
Fixpoint add_entries (es : list entry) : M Writer unit :=
  match es with
  | [] => mret tt
  | e :: es => Writer_Add (e_key e) (e_value e) (e_tombstone e);; add_entries es
  end.

(** The life of a writer: create the file, add the entries, finish. *)
Definition write_table (plan : option (list fault)) (blockSize : Z) (es : list entry) : res File :=
  w ← NewWriter plan blockSize;
  match (add_entries es;; Writer_Finish) w with
  | (Ok _, w) => Ok (bfile (sw_buf w))
  | (Err e, _) => Err e
  | (Panic, _) => Panic
  | (OutOfFuel, _) => OutOfFuel
  end.

(** ** The layout of a table *)

Definition entry_bytes (e : entry) : bytes := encodeEntry (e_key e) (e_value e) (e_tombstone e).
Definition entries_bytes (es : list entry) : bytes := concat (entry_bytes <$> es).
Definition block_bytes (b : list entry) : bytes :=
  entries_bytes b ++ putLE 4 (len b) ++ putLE 4 (ChecksumIEEE (entries_bytes b)).
Definition blocks_bytes (bs : list (list entry)) : bytes := concat (block_bytes <$> bs).

Definition last_key (b : list entry) : bytes := default [] (e_key <$> last b).

(** The index of blocks laid out from offset [off] on. *)
Fixpoint index_of (off : Z) (bs : list (list entry)) : list indexEntry :=
  match bs with
  | [] => []
  | b :: bs => mkIndexEntry (last_key b) off (len (block_bytes b)) :: index_of (off + len (block_bytes b)) bs
  end.

Definition index_bytes (bs : list (list entry)) : bytes := concat (encodeIndexEntry <$> index_of 0 bs).
Definition index_block (bs : list (list entry)) : bytes :=
  index_bytes bs ++ putLE 4 (len bs) ++ putLE 4 (ChecksumIEEE (index_bytes bs)).
Definition bloom_block (bf : BloomFilter) : bytes :=
  BloomFilter_Encode bf ++ putLE 4 (ChecksumIEEE (BloomFilter_Encode bf)).

Definition table_bytes (bs : list (list entry)) (bf : BloomFilter) : bytes :=
  blocks_bytes bs ++ index_block bs ++ bloom_block bf ++
  encodeFooter (len (blocks_bytes bs)) (len (index_block bs))
    (len (blocks_bytes bs) + len (index_block bs)) (len (bloom_block bf)).

(** The filter of a table. *)
Definition table_bloom (es : list entry) (bf : BloomFilter) : Prop :=
  bloom_add_all (e_key <$> es) (NewBloomFilter (Z.max 1 (len es)) 10) = Ok bf.

(** The bytes of all entries; the bound under which every 32-bit field fits. *)
Definition table_fits (es : list entry) : Prop := len (entries_bytes es) < 2 ^ 30.

(** ** Sizes *)

Lemma len_entry_bytes e :
  len (entry_bytes e) = 9 + len (e_key e) + len (if e_tombstone e then [] else val_bytes (e_value e)).
Proof. unfold entry_bytes, encodeEntry. destruct (e_tombstone e); len_lia. Qed.

Lemma entries_bytes_cons e es : entries_bytes (e :: es) = entry_bytes e ++ entries_bytes es.
Proof. done. Qed.

Lemma entries_bytes_app es es' : entries_bytes (es ++ es') = entries_bytes es ++ entries_bytes es'.
Proof. unfold entries_bytes. by rewrite fmap_app, concat_app. Qed.

Lemma len_entries_bytes es : 9 * len es <= len (entries_bytes es).
Proof.
  induction es as [|e es IH]; [done|]. rewrite entries_bytes_cons, len_app, len_cons, len_entry_bytes.
  pose proof (len_nonneg (e_key e)). pose proof (len_nonneg (if e_tombstone e then [] else val_bytes (e_value e))).
  lia.
Qed.

Lemma entries_bytes_concat (bs : list (list entry)) :
  entries_bytes (concat bs) = concat (entries_bytes <$> bs).
Proof. induction bs as [|b bs IH]; [done|]. simpl. by rewrite entries_bytes_app, IH. Qed.

Lemma blocks_bytes_app bs bs' : blocks_bytes (bs ++ bs') = blocks_bytes bs ++ blocks_bytes bs'.
Proof. unfold blocks_bytes. by rewrite fmap_app, concat_app. Qed.

Lemma blocks_bytes_cons b bs : blocks_bytes (b :: bs) = block_bytes b ++ blocks_bytes bs.
Proof. done. Qed.

Lemma blocks_bytes_snoc bs b : blocks_bytes (bs ++ [b]) = blocks_bytes bs ++ block_bytes b.
Proof. rewrite blocks_bytes_app. unfold blocks_bytes at 2. cbn [fmap list_fmap concat]. by rewrite app_nil_r. Qed.

Lemma concat_snoc {A} (bs : list (list A)) b : concat (bs ++ [b]) = concat bs ++ b.
Proof. rewrite concat_app. cbn [concat]. by rewrite app_nil_r. Qed.

Lemma len_block_bytes b : len (block_bytes b) = len (entries_bytes b) + 8.
Proof. unfold block_bytes. len_lia. Qed.

Lemma index_of_app off bs bs' :
  index_of off (bs ++ bs') = index_of off bs ++ index_of (off + len (blocks_bytes bs)) bs'.
Proof.
  revert off. induction bs as [|b bs IH]; intros off; simpl; [by rewrite Z.add_0_r|].
  rewrite IH. unfold blocks_bytes at 2. simpl. fold (blocks_bytes bs). rewrite len_app, Z.add_assoc. done.
Qed.

Lemma length_index_of off bs : length (index_of off bs) = length bs.
Proof. revert off. induction bs; intros; simpl; auto. Qed.

Lemma bloom_exists es : table_fits es -> exists bf, table_bloom es bf /\ bf_wf bf.
Proof.
  intros Hfit. unfold table_fits in Hfit. unfold table_bloom.
  pose proof (len_entries_bytes es). pose proof (len_nonneg es).
  destruct (bloom_add_all_spec (e_key <$> es) (NewBloomFilter (Z.max 1 (len es)) 10)) as (bf & E & Hwf & _).
  { apply NewBloomFilter_wf; lia. }
  eauto.
Qed.

(** ** The writer's invariant *)

(** [bs] are the blocks written so far, [cur] the entries of the open block. *)
Record sw_inv (w : Writer) (bs : list (list entry)) (cur : list entry) : Prop := {
  si_err : berr (sw_buf w) = None;
  si_stream : bstream (sw_buf w) = blocks_bytes bs;
  si_index : sw_indexEntries w = index_of 0 bs;
  si_keys : sw_keys w = e_key <$> (concat bs ++ cur);
  si_offset : sw_offset w = len (blocks_bytes bs);
  si_blockBuf : sw_blockBuf w = entries_bytes cur;
  si_blockEntries : sw_blockEntries w = len cur;
  si_count : sw_entryCount w = len (concat bs ++ cur);
  si_nonempty : Forall (fun b => b <> []) bs
}.

Definition sw_set_buf (w : Writer) (b : Bufio) : Writer :=
  mkWriter b (sw_blockBuf w) (sw_blockEntries w) (sw_indexEntries w) (sw_keys w) (sw_offset w)
    (sw_entryCount w) (sw_minKey w) (sw_maxKey w) (sw_blockSize w).

Definition sw_healthy (w : Writer) : Prop := berr (sw_buf w) = None /\ healthy (bfile (sw_buf w)).

Lemma sw_write_Ok p w n w' :
  sw_on_buf (bufio_Write p) w = (Ok n, w') ->
  exists b, w' = sw_set_buf w b /\ n = len p /\ berr b = None /\ bstream b = bstream (sw_buf w) ++ p.
Proof.
  unfold sw_on_buf. destruct (bufio_Write p (sw_buf w)) as [r b] eqn:E. intros ?; simplify_eq.
  apply bufio_Write_Ok in E as (_ & ? & ? & ?). by exists b.
Qed.

Lemma sw_write_healthy p w :
  sw_healthy w -> exists b, sw_on_buf (bufio_Write p) w = (Ok (len p), sw_set_buf w b) /\
    sw_healthy (sw_set_buf w b).
Proof.
  intros [He Hh]. unfold sw_on_buf. destruct (bufio_Write_nofault p _ He Hh) as (b & E & Hb).
  rewrite E. exists b. split; [done|]. apply bufio_Write_Ok in E as (_ & ? & _). done.
Qed.

Lemma last_key_snoc bs (cur : list entry) w :
  sw_inv w bs cur -> cur <> [] -> index (sw_keys w) (len (sw_keys w) - 1) = Ok (last_key cur).
Proof.
  intros Hw Hc. rewrite (si_keys _ _ _ Hw). destruct cur as [|e cur _] using rev_ind; [done|].
  rewrite app_assoc, fmap_app. simpl. unfold last_key. rewrite last_snoc. simpl.
  rewrite len_app, len_cons, len_nil. replace (_ + (1 + 0) - 1) with (Z.of_nat (length (e_key <$> concat bs ++ cur)))
    by (unfold len; lia).
  apply index_ok. by rewrite lookup_app_r, Nat.sub_diag by lia.
Qed.

Lemma flushBlock_Ok w bs cur u w' :
  sw_inv w bs cur -> flushBlock w = (Ok u, w') ->
  (cur = [] /\ w' = w) \/ (cur <> [] /\ sw_inv w' (bs ++ [cur]) []).
Proof.
  intros Hw. unfold flushBlock. intros H. minv H. injection E as <- <-.
  rewrite (si_blockEntries _ _ _ Hw) in H. destruct (Z.eqb_spec (len cur) 0) as [Hz|Hz].
  { apply len_0_nil in Hz. left. by injection H. }
  right. assert (cur <> []) as Hne by (intros ->; done). split; [done|].
  minv H. apply sw_write_Ok in E as (b1 & -> & -> & He1 & Hs1).
  minv H. apply sw_write_Ok in E as (b2 & -> & -> & He2 & Hs2).
  unfold close_block in H. simpl in H. rewrite (last_key_snoc _ _ _ Hw Hne) in H.
  injection H as _ <-. simpl in *. destruct Hw as [H1 H2 H3 H4 H5 H6 H7 H8 H9].
  assert (block_bytes cur = sw_blockBuf w ++ putLE 4 (len cur) ++ putLE 4 (ChecksumIEEE (sw_blockBuf w))) as Hb.
  { by rewrite H6. }
  split; simpl; try done.
  - by rewrite Hs2, Hs1, H2, blocks_bytes_snoc, Hb, <- !app_assoc.
  - rewrite H3, index_of_app, H5. cbn [index_of]. by rewrite Hb, (len_app (sw_blockBuf w)), Z.add_0_l.
  - by rewrite H4, concat_snoc, app_nil_r.
  - by rewrite blocks_bytes_snoc, (len_app (blocks_bytes bs)), H5, Hb, (len_app (sw_blockBuf w)).
  - by rewrite H8, concat_snoc, app_nil_r.
  - apply Forall_app_2; [done|]. by constructor.
Qed.

Lemma add_entry_inv w bs cur e :
  sw_inv w bs cur -> sw_inv (add_entry (e_key e) (e_value e) (e_tombstone e) w) bs (cur ++ [e]).
Proof.
  intros [H1 H2 H3 H4 H5 H6 H7 H8 H9]. split; simpl; try done.
  - by rewrite H4, app_assoc, (fmap_app _ _ [e]).
  - rewrite H6, entries_bytes_app. unfold entries_bytes at 3. simpl. by rewrite app_nil_r.
  - by rewrite H7, len_app.
  - by rewrite H8, app_assoc, (len_app _ [e]).
Qed.

Lemma Writer_Add_Ok w bs cur e u w' :
  sw_inv w bs cur -> Writer_Add (e_key e) (e_value e) (e_tombstone e) w = (Ok u, w') ->
  exists bs' cur', sw_inv w' bs' cur' /\ concat bs' ++ cur' = concat bs ++ cur ++ [e].
Proof.
  intros Hw H. unfold Writer_Add in H. minv H. injection E as <- <-. minv H. injection E as <- <-.
  minv H. injection E as <- <-. pose proof (add_entry_inv _ _ _ e Hw) as Hw'.
  case_match.
  - destruct (flushBlock_Ok _ _ _ _ _ Hw' H) as [[Hnil _]|[_ Hf]]; [by destruct cur|].
    eexists _, _. split; [exact Hf|]. by rewrite concat_snoc, app_nil_r.
  - injection H as <- <-. eauto.
Qed.

Lemma add_entries_Ok es w bs cur u w' :
  sw_inv w bs cur -> add_entries es w = (Ok u, w') ->
  exists bs' cur', sw_inv w' bs' cur' /\ concat bs' ++ cur' = concat bs ++ cur ++ es.
Proof.
  revert w bs cur. induction es as [|e es IH]; intros w bs cur Hw H; cbn [add_entries] in H.
  - injection H as <- <-. rewrite app_nil_r. eauto.
  - minv H. destruct (Writer_Add_Ok _ _ _ _ _ _ Hw E) as (bs1 & cur1 & Hw1 & Hc1).
    destruct (IH _ _ _ Hw1 H) as (bs2 & cur2 & Hw2 & Hc2). exists bs2, cur2. split; [done|].
    rewrite Hc2, app_assoc, Hc1, <- !app_assoc. done.
Qed.

(** ** Finishing *)

Lemma write_advance_Ok p w u w' :
  write_advance p w = (Ok u, w') ->
  exists b, w' = mkWriter b (sw_blockBuf w) (sw_blockEntries w) (sw_indexEntries w) (sw_keys w)
    (sw_offset w + len p) (sw_entryCount w) (sw_minKey w) (sw_maxKey w) (sw_blockSize w) /\
    berr b = None /\ bstream b = bstream (sw_buf w) ++ p.
Proof.
  unfold write_advance. intros H. minv H. apply sw_write_Ok in E as (b & -> & -> & He & Hs).
  minv H. injection E as <- <-. injection H as _ <-. exists b. done.
Qed.

Lemma sw_finish_tail w u w' :
  (sw_on_buf bufio_Flush;; sw_on_file File_Sync;; sw_on_file File_Close) w = (Ok u, w') ->
  contents (bfile (sw_buf w')) = bstream (sw_buf w) /\
  synced (bfile (sw_buf w')) = length (contents (bfile (sw_buf w'))) /\
  fclosed (bfile (sw_buf w')) = true.
Proof.
  intros H. minv H. unfold sw_on_buf in E. destruct (bufio_Flush _) as [r b] eqn:Ef. injection E as -> <-.
  apply bufio_Flush_Ok in Ef as (_ & _ & _ & Hc). minv H. unfold sw_on_file, sw_on_buf in E, H. simpl in *.
  destruct (File_Sync (bfile b)) as [r f] eqn:Es. injection E as -> <-.
  apply File_Sync_Ok in Es as (Hc' & Hs & _). simpl in H.
  unfold File_Close in H. destruct (next_fault f); [done|]. injection H as _ <-. simpl.
  by rewrite Hs, Hc', Hc.
Qed.

(** A successful [Finish] left a complete, synced table, whatever the device
    did before. *)
Lemma Writer_Finish_Ok w bs cur u w' :
  sw_inv w bs cur -> Writer_Finish w = (Ok u, w') ->
  exists bs' bf, concat bs' = concat bs ++ cur /\ Forall (fun b => b <> []) bs' /\
    table_bloom (concat bs') bf /\
    contents (bfile (sw_buf w')) = table_bytes bs' bf /\
    synced (bfile (sw_buf w')) = length (contents (bfile (sw_buf w'))) /\
    fclosed (bfile (sw_buf w')) = true.
Proof.
  intros Hw H. unfold Writer_Finish in H. minv H.
  assert (exists bs', sw_inv s bs' [] /\ concat bs' = concat bs ++ cur) as (bs' & Hs & Hcc).
  { apply (flushBlock_Ok _ _ _ _ _ Hw) in E as [[-> ->]|[_ Hi]].
    - exists bs. by rewrite app_nil_r.
    - exists (bs ++ [cur]). by rewrite concat_snoc. }
  clear E Hw. destruct Hs as [H1 H2 H3 H4 H5 H6 H7 H8 H9]. rewrite app_nil_r in H4, H8.
  minv H. injection E as <- <-. rewrite H3, H5 in H. fold (index_bytes bs') in H.
  minv H. apply write_advance_Ok in E as (b1 & -> & He1 & Hs1).
  minv H. apply write_advance_Ok in E as (b2 & -> & He2 & Hs2). simpl in *.
  minv H. injection E as <- <-. simpl in H. rewrite H5 in H.
  minv H. unfold lift in E. injection E as E <-.
  minv H. apply write_advance_Ok in E0 as (b3 & -> & He3 & Hs3).
  minv H. apply write_advance_Ok in E0 as (b4 & -> & He4 & Hs4). simpl in *.
  minv H. injection E0 as <- <-. simpl in H.
  minv H. apply sw_write_Ok in E0 as (b5 & -> & _ & He5 & Hs5).
  apply sw_finish_tail in H as (Hc & Hsy & Hcl). exists bs', a2.
  assert (len (index_of 0 bs') = len bs') as Hli by (unfold len; by rewrite length_index_of).
  split_and!; try done.
  - unfold table_bloom. rewrite <- E, H4. f_equal. f_equal. unfold len. rewrite length_fmap.
    destruct (Z.ltb_spec (Z.of_nat (length (concat bs'))) 1); lia.
  - rewrite Hc. cbn [sw_buf sw_set_buf]. rewrite Hs5. cbn [sw_buf]. rewrite Hs4, Hs3, Hs2, Hs1, H2, Hli.
    unfold table_bytes. match goal with |- context [encodeFooter ?x ?y ?z (?t - _)] =>
      replace y with (len (index_block bs')) by (unfold index_block; len_lia);
      replace z with (len (blocks_bytes bs') + len (index_block bs')) by (unfold index_block; len_lia) end.
    match goal with |- context [encodeFooter _ _ _ (?t - _)] =>
      replace (t - (len (blocks_bytes bs') + len (index_block bs'))) with (len (bloom_block a2))
      by (unfold index_block, bloom_block; len_lia) end.
    generalize (encodeFooter (len (blocks_bytes bs')) (len (index_block bs'))
      (len (blocks_bytes bs') + len (index_block bs')) (len (bloom_block a2))). intros footer.
    unfold index_block, bloom_block. by rewrite <- !app_assoc.
Qed.

(** ** Progress on a device without faults *)

Lemma flushBlock_healthy w bs cur :
  sw_inv w bs cur -> sw_healthy w -> exists w', flushBlock w = (Ok tt, w') /\ sw_healthy w'.
Proof.
  intros Hw Hh. unfold flushBlock. rewrite (M_bind_run _ _ _ w w) by done.
  rewrite (si_blockEntries _ _ _ Hw). destruct (Z.eqb_spec (len cur) 0) as [|Hz]; [by exists w|].
  assert (cur <> []) as Hne by (intros ->; done).
  destruct (sw_write_healthy (sw_blockBuf w) w Hh) as (b1 & E1 & Hh1). rewrite (M_bind_run _ _ _ _ _ E1).
  edestruct (fun p => sw_write_healthy p _ Hh1) as (b2 & E2 & Hh2). rewrite (M_bind_run _ _ _ _ _ E2).
  unfold close_block. simpl. rewrite (last_key_snoc _ _ _ Hw Hne). eauto.
Qed.

Lemma Writer_Add_healthy w bs cur e :
  sw_inv w bs cur -> sw_healthy w ->
  exists w', Writer_Add (e_key e) (e_value e) (e_tombstone e) w = (Ok tt, w') /\ sw_healthy w'.
Proof.
  intros Hw Hh. unfold Writer_Add. pose proof (add_entry_inv _ _ _ e Hw) as Hw'.
  set (w1 := add_entry (e_key e) (e_value e) (e_tombstone e) w) in *.
  rewrite (M_bind_run _ _ _ w w), (M_bind_run _ _ _ tt w1), (M_bind_run _ _ _ w1 w1) by done.
  case_match; [by eapply flushBlock_healthy|by exists w1].
Qed.

Lemma add_entries_healthy es w bs cur :
  sw_inv w bs cur -> sw_healthy w -> exists w', add_entries es w = (Ok tt, w') /\ sw_healthy w'.
Proof.
  revert w bs cur. induction es as [|e es IH]; intros w bs cur Hw Hh; cbn [add_entries]; [by exists w|].
  destruct (Writer_Add_healthy _ _ _ e Hw Hh) as (w1 & E & Hh1). rewrite (M_bind_run _ _ _ _ _ E).
  destruct (Writer_Add_Ok _ _ _ _ _ _ Hw E) as (bs1 & cur1 & Hw1 & _). by eapply IH.
Qed.

Lemma write_advance_healthy p w :
  sw_healthy w -> exists w', write_advance p w = (Ok tt, w') /\ sw_healthy w' /\ sw_keys w' = sw_keys w.
Proof.
  intros Hh. unfold write_advance. destruct (sw_write_healthy p w Hh) as (b & E & Hh').
  rewrite (M_bind_run _ _ _ _ _ E), (M_bind_run _ _ _ (sw_set_buf w b) (sw_set_buf w b)) by done.
  eexists. split; [done|]. done.
Qed.

Lemma sw_finish_tail_healthy w :
  sw_healthy w ->
  exists w', (sw_on_buf bufio_Flush;; sw_on_file File_Sync;; sw_on_file File_Close) w = (Ok tt, w').
Proof.
  intros [He Hh]. destruct (bufio_Flush_nofault _ He Hh) as (b & E & Hb).
  unfold mbind, M_bind, sw_on_file, sw_on_buf. rewrite E. simpl.
  rewrite File_Sync_healthy by done. simpl. eauto.
Qed.

Lemma Writer_Finish_healthy w bs cur :
  sw_inv w bs cur -> sw_healthy w -> table_fits (concat bs ++ cur) ->
  exists w', Writer_Finish w = (Ok tt, w').
Proof.
  intros Hw Hh Hfit. unfold Writer_Finish.
  destruct (flushBlock_healthy _ _ _ Hw Hh) as (w1 & E1 & Hh1). rewrite (M_bind_run _ _ _ _ _ E1).
  assert (sw_keys w1 = e_key <$> (concat bs ++ cur)) as Hk.
  { destruct (flushBlock_Ok _ _ _ _ _ Hw E1) as [[-> ->]|[_ Hw1]]; [apply (si_keys _ _ _ Hw)|].
    by rewrite (si_keys _ _ _ Hw1), concat_snoc, app_nil_r. }
  rewrite (M_bind_run _ _ _ w1 w1) by done.
  edestruct (fun p => write_advance_healthy p _ Hh1) as (w2 & E2 & Hh2 & Hk2).
  rewrite (M_bind_run _ _ _ _ _ E2).
  edestruct (fun p => write_advance_healthy p _ Hh2) as (w3 & E3 & Hh3 & Hk3).
  rewrite (M_bind_run _ _ _ _ _ E3), (M_bind_run _ _ _ w3 w3) by done.
  rewrite Hk3, Hk2, Hk. destruct (bloom_exists _ Hfit) as (bf & Hbf & _).
  rewrite (M_bind_run _ _ _ bf w3).
  2: { unfold lift. rewrite <- Hbf. do 3 f_equal. unfold len. rewrite length_fmap.
       destruct (Z.ltb_spec (Z.of_nat (length (concat bs ++ cur))) 1); f_equal; lia. }
  edestruct (fun p => write_advance_healthy p _ Hh3) as (w4 & E4 & Hh4 & _).
  rewrite (M_bind_run _ _ _ _ _ E4).
  edestruct (fun p => write_advance_healthy p _ Hh4) as (w5 & E5 & Hh5 & _).
  rewrite (M_bind_run _ _ _ _ _ E5), (M_bind_run _ _ _ w5 w5) by done.
  edestruct (fun p => sw_write_healthy p _ Hh5) as (b6 & E6 & Hh6). rewrite (M_bind_run _ _ _ _ _ E6).
  by apply sw_finish_tail_healthy.
Qed.

(** ** A whole table *)

Lemma NewWriter_inv plan bsz w : NewWriter (Some plan) bsz = Ok w -> sw_inv w [] [].
Proof. intros [= <-]. split; done. Qed.

(** Whatever the device does, a table that was written successfully is
    complete and durable. *)
Lemma write_table_Ok plan bsz es f :
  write_table plan bsz es = Ok f ->
  exists bs bf, concat bs = es /\ Forall (fun b => b <> []) bs /\ table_bloom es bf /\
    contents f = table_bytes bs bf /\ synced f = length (contents f).
Proof.
  unfold write_table. destruct plan as [plan|]; [|done]. simpl.
  set (w := mkWriter _ _ _ _ _ _ _ _ _ _). assert (sw_inv w [] []) as Hw by by apply (NewWriter_inv plan bsz).
  destruct ((add_entries es;; Writer_Finish) w) as [[u| | |] w'] eqn:E; intros; simplify_eq.
  minv E. destruct (add_entries_Ok _ _ _ _ _ _ Hw E0) as (bs & cur & Hs & Hc).
  destruct (Writer_Finish_Ok _ _ _ _ _ Hs E) as (bs' & bf & Hcc & Hne & Hbf & Hct & Hsy & _).
  simpl in Hc. rewrite Hc in Hcc. exists bs', bf. rewrite Hcc in Hbf. split_and!; done.
Qed.

Lemma write_table_healthy bsz es :
  table_fits es -> exists f, write_table (Some []) bsz es = Ok f.
Proof.
  intros Hfit. unfold write_table. simpl. set (w := mkWriter _ _ _ _ _ _ _ _ _ _).
  assert (sw_inv w [] []) as Hw by by apply (NewWriter_inv [] bsz).
  destruct (add_entries_healthy es w [] [] Hw) as (w1 & E1 & Hh1); [done|].
  rewrite (M_bind_run _ _ _ _ _ E1).
  destruct (add_entries_Ok _ _ _ _ _ _ Hw E1) as (bs & cur & Hs & Hc).
  destruct (Writer_Finish_healthy _ _ _ Hs Hh1) as (w2 & ->); [by rewrite Hc|]. eauto.
Qed.
