(* ===== verification/SSTReader.v ===== *)
(** * sstable/reader.go: reading a sorted table

    [OpenReader] parses a whole file image (the mapped region), [Reader_Get]
    looks one key up.  Offsets are Go [int]s: their sums wrap at 64 bits
    ([i64]), and a slice out of range panics.  [OpenReader_table] shows that
    the layout of SSTWriter.v is read back exactly, [Reader_Get_repr] that a
    lookup equals a linear scan of the entries written. *)

From S2P Require Import Prelude GoStd Bloom SSTWriter.

Record Footer := mkFooter {
  IndexOffset : Z;
  IndexSize : Z;
  BloomOffset : Z;
  BloomSize : Z;
  MagicNumber : Z;
  Version : Z
}.

Record Reader := mkReader {
  sr_data : bytes;
  sr_size : Z;
  sr_footer : Footer;
  sr_index : list indexEntry;
  sr_bloom : BloomFilter;
  sr_minKey : option bytes;
  sr_maxKey : option bytes
}.

Definition parseFooter (data : bytes) (size : Z) : res Footer :=
  footerData ← slice data (size - footerSize) (len data);
  storedCRC ← uint_at footerData 44 48;
  body ← slice footerData 0 44;
  if negb (storedCRC =? ChecksumIEEE body) then Err (Errorf "sstable: footer CRC mismatch") else
  io ← uint_at footerData 0 8;
  isz ← uint_at footerData 8 12;
  bo ← uint_at footerData 12 20;
  bsz ← uint_at footerData 20 24;
  magic ← uint_at footerData 32 40;
  ver ← uint_at footerData 40 44;
  if negb (magic =? magicNumber) then Err (Errorf "sstable: bad magic number: %x") else
  if negb (ver =? sst_version) then Err (Errorf "sstable: unsupported version: %d") else
  Ok (mkFooter (i64 io) isz (i64 bo) bsz magic ver).

(** The loop of [parseIndex] for the remaining [n] blocks. *)
Fixpoint parse_index_entries (n : nat) (pos : Z) (entryData : bytes) : res (list indexEntry) :=
  match n with
  | O => Ok []
  | S n =>
      if len entryData <? pos + 4 then Err (Errorf "sstable: index entry truncated") else
      keyLen ← uint_at entryData pos (pos + 4);
      let pos := pos + 4 in
      if len entryData <? pos + keyLen then Err (Errorf "sstable: index key truncated") else
      lastKey ← slice entryData pos (pos + keyLen);
      let pos := pos + keyLen in
      if len entryData <? pos + 12 then Err (Errorf "sstable: index offset/size truncated") else
      offset ← uint_at entryData pos (pos + 8);
      let pos := pos + 8 in
      blockSize ← uint_at entryData pos (pos + 4);
      let pos := pos + 4 in
      rest ← parse_index_entries n pos entryData;
      Ok (mkIndexEntry lastKey (i64 offset) blockSize :: rest)
  end.

Definition parseIndex (data : bytes) (size : Z) (f : Footer) : res (list indexEntry) :=
  let off := IndexOffset f in
  let sz := IndexSize f in
  if (off <? 0) || (size <? i64 (off + sz)) then Err (Errorf "sstable: index block out of range") else
  indexData ← slice data off (i64 (off + sz));
  if len indexData <? 8 then Err (Errorf "sstable: index block too small") else
  let trailerStart := len indexData - 8 in
  numBlocks ← uint_at indexData trailerStart (trailerStart + 4);
  storedCRC ← uint_at indexData (trailerStart + 4) (trailerStart + 8);
  entryData ← slice indexData 0 trailerStart;
  if negb (storedCRC =? ChecksumIEEE entryData) then Err (Errorf "sstable: index block CRC mismatch") else
  parse_index_entries (Z.to_nat numBlocks) 0 entryData.

Definition parseBloom (data : bytes) (size : Z) (f : Footer) : res BloomFilter :=
  let off := BloomOffset f in
  let sz := BloomSize f in
  if (off <? 0) || (size <? i64 (off + sz)) then Err (Errorf "sstable: bloom block out of range") else
  bloomBlock ← slice data off (i64 (off + sz));
  if len bloomBlock <? 4 then Err (Errorf "sstable: bloom block too small") else
  bloomData ← slice bloomBlock 0 (len bloomBlock - 4);
  storedCRC ← uint_at bloomBlock (len bloomBlock - 4) (len bloomBlock);
  if negb (storedCRC =? ChecksumIEEE bloomData) then Err (Errorf "sstable: bloom filter CRC mismatch") else
  match DecodeBloomFilter bloomData with
  | Err e => Err (Wrap "sstable" e)
  | r => r
  end.

(** The loop of [decodeBlock] for the remaining [n] entries. *)
Fixpoint decode_entries (n : nat) (pos : Z) (entryData : bytes) : res (list entry) :=
  match n with
  | O => Ok []
  | S n =>
      if len entryData <? pos + 9 then Err (Errorf "sstable: entry header truncated") else
      keyLen ← uint_at entryData pos (pos + 4);
      valLen ← uint_at entryData (pos + 4) (pos + 8);
      typ ← index entryData (pos + 8);
      let pos := pos + 9 in
      if len entryData <? pos + keyLen then Err (Errorf "sstable: entry key truncated") else
      key ← slice entryData pos (pos + keyLen);
      let pos := pos + keyLen in
      if bool_decide (typ = entryTypeValue) && (0 <? valLen) then
        if len entryData <? pos + valLen then Err (Errorf "sstable: entry value truncated") else
        value ← slice entryData pos (pos + valLen);
        rest ← decode_entries n (pos + valLen) entryData;
        Ok (mkEntry key (Some value) (bool_decide (typ = entryTypeTombstone)) :: rest)
      else
        rest ← decode_entries n pos entryData;
        Ok (mkEntry key None (bool_decide (typ = entryTypeTombstone)) :: rest)
  end.

Definition decodeBlock (data : bytes) (offset blockSize : Z) : res (list entry) :=
  if len data <? i64 (offset + blockSize) then Err (Errorf "sstable: data block out of range") else
  blockData ← slice data offset (i64 (offset + blockSize));
  if len blockData <? 8 then Err (Errorf "sstable: data block too small") else
  let trailerStart := len blockData - 8 in
  numEntries ← uint_at blockData trailerStart (trailerStart + 4);
  storedCRC ← uint_at blockData (trailerStart + 4) (trailerStart + 8);
  entryData ← slice blockData 0 trailerStart;
  if negb (storedCRC =? ChecksumIEEE entryData) then Err (Errorf "sstable: data block CRC mismatch") else
  decode_entries (Z.to_nat numEntries) 0 entryData.

(** [minKey] and [maxKey] from the first block and the last index entry; an
    undecodable first block is ignored. *)
Definition min_max (data : bytes) (ix : list indexEntry) : res (option bytes * option bytes) :=
  match ix with
  | [] => Ok (None, None)
  | firstBlock :: _ =>
      lastBlock ← index ix (len ix - 1);
      match decodeBlock data (ie_offset firstBlock) (ie_blockSize firstBlock) with
      | Ok entries => Ok (e_key <$> head entries, Some (ie_lastKey lastBlock))
      | Err _ => Ok (None, Some (ie_lastKey lastBlock))
      | Panic => Panic
      | OutOfFuel => OutOfFuel
      end
  end.

(** [mapped] is the result of [os.Open], [Stat] and [Mmap]: the file image,
    or the error of the call that failed. *)
Definition OpenReader (mapped : res bytes) : res Reader :=
  data ← mapped;
  let size := len data in
  if size <? footerSize then Err (Errorf "sstable: file too small to contain footer") else
  footer ← parseFooter data size;
  ix ← parseIndex data size footer;
  bf ← parseBloom data size footer;
  mm ← min_max data ix;
  Ok (mkReader data size footer ix bf mm.1 mm.2).

(** [Close] with the answers of [Munmap] and of the file's [Close].  The region
    and the file are released together and an image is never empty, so that
    [r.data] and [r.file] are nil together: exactly when [sr_data] is empty. *)
Definition Reader_Close (munmap close : option error) : M Reader unit := fun r =>
  match sr_data r with
  | [] => (Ok tt, r)
  | _ :: _ =>
      (match munmap, close with Some err, _ | None, Some err => Err err | None, None => Ok tt end,
       mkReader [] (sr_size r) (sr_footer r) (sr_index r) (sr_bloom r) (sr_minKey r) (sr_maxKey r))
  end.

(** The binary search of [Get] and of [Seek]: the first block whose last key
    is not below [key], or [-1]. *)
Fixpoint find_block (fuel : nat) (ix : list indexEntry) (key : bytes) (lo hi blockIdx : Z) : res Z :=
  match fuel with
  | O => OutOfFuel
  | S fuel =>
      if lo <=? hi then
        let mid := lo + Z.quot (hi - lo) 2 in
        ie ← index ix mid;
        match bcompare (ie_lastKey ie) key with
        | Lt => find_block fuel ix key (mid + 1) hi blockIdx
        | _ => find_block fuel ix key lo (mid - 1) mid
        end
      else Ok blockIdx
  end.

Definition search_index (ix : list indexEntry) (key : bytes) : res Z :=
  find_block (S (length ix)) ix key 0 (len ix - 1) (-1).

(** The scan of a decoded block: the value and whether the key was found. *)
Fixpoint scan_entries (entries : list entry) (key : bytes) : option bytes * bool :=
  match entries with
  | [] => (None, false)
  | e :: entries =>
      if beqb (e_key e) key then
        if e_tombstone e then (None, true) else (e_value e, true)
      else scan_entries entries key
  end.

Definition Reader_Get (r : Reader) (key : bytes) : res (option bytes * bool) :=
  if len (sr_index r) =? 0 then Ok (None, false) else
  may ← BloomFilter_MayContain (sr_bloom r) key;
  if negb may then Ok (None, false) else
  blockIdx ← search_index (sr_index r) key;
  if blockIdx =? -1 then Ok (None, false) else
  ie ← index (sr_index r) blockIdx;
  entries ← decodeBlock (sr_data r) (ie_offset ie) (ie_blockSize ie);
  Ok (scan_entries entries key).

Definition Reader_MayContain (r : Reader) (key : bytes) : res bool :=
  BloomFilter_MayContain (sr_bloom r) key.
Definition Reader_MinKey (r : Reader) : option bytes := sr_minKey r.
Definition Reader_MaxKey (r : Reader) : option bytes := sr_maxKey r.

(** ** What a table holds, as a reader sees it *)

Definition norm_entry (e : entry) : entry :=
  mkEntry (e_key e) (if e_tombstone e then None else norm_value (e_value e)) (e_tombstone e).

Definition kv (e : entry) : bytes * (option bytes * bool) := (e_key e, (e_value e, e_tombstone e)).

(** Keys strictly ascending. *)
Definition esorted (es : list entry) : Prop := StronglySorted blt (e_key <$> es).

Record reader_repr (r : Reader) (bs : list (list entry)) : Prop := {
  rr_index : sr_index r = index_of 0 bs;
  rr_blocks : forall pre b post, bs = pre ++ b :: post ->
    decodeBlock (sr_data r) (len (blocks_bytes pre)) (len (block_bytes b)) = Ok (norm_entry <$> b);
  rr_bloom : forall k, k ∈ e_key <$> concat bs -> BloomFilter_MayContain (sr_bloom r) k = Ok true;
  rr_bloom_total : bf_wf (sr_bloom r);
  rr_nonempty : Forall (fun b => b <> []) bs;
  rr_min : sr_minKey r = e_key <$> head (concat bs);
  rr_max : sr_maxKey r = e_key <$> last (concat bs)
}.

(** ** Codecs *)

Lemma index_app_r {A} (a b : list A) i : len a <= i -> index (a ++ b) i = index b (i - len a).
Proof.
  intros. pose proof (len_nonneg a). unfold index.
  rewrite !(proj2 (Z.leb_le 0 _)) by lia. rewrite lookup_app_r by (unfold len in *; lia).
  do 2 f_equal. unfold len. by replace (Z.to_nat i - length a)%nat with (Z.to_nat (i - Z.of_nat (length a))) by lia.
Qed.

Lemma parseFooter_encode pre io isz bo bsz :
  0 <= io < 2 ^ 63 -> 0 <= isz < 2 ^ 32 -> 0 <= bo < 2 ^ 63 -> 0 <= bsz < 2 ^ 32 ->
  let data := pre ++ encodeFooter io isz bo bsz in
  parseFooter data (len data) = Ok (mkFooter io isz bo bsz magicNumber sst_version).
Proof.
  intros Hio Hisz Hbo Hbsz data. unfold data, encodeFooter.
  set (body := footer_body io isz bo bsz). assert (len body = 44) as Hb.
  { unfold body, footer_body. autorewrite with kvlen. done. }
  pose proof (ChecksumIEEE_bound body) as Hcrc.
  unfold parseFooter, footerSize. autorewrite with kvlen. rewrite Hb.
  slice_bind. uint_bind. slice_bind. rewrite getLE_putLE32 by done. rewrite Z.eqb_refl.
  cbn [negb]. unfold body, footer_body. rewrite <- !app_assoc. do 6 uint_bind.
  unfold u64, u32. rewrite !Z.mod_small by lia.
  rewrite !getLE_putLE64, !getLE_putLE32 by (done || lia). rewrite !Z.eqb_refl. cbn [negb].
  by rewrite !i64_small by lia.
Qed.

Lemma parse_index_entries_encode ies pre :
  Forall (fun ie => len (ie_lastKey ie) < 2 ^ 32 /\ 0 <= ie_offset ie < 2 ^ 63 /\
    0 <= ie_blockSize ie < 2 ^ 32) ies ->
  parse_index_entries (length ies) (len pre) (pre ++ concat (encodeIndexEntry <$> ies)) = Ok ies.
Proof.
  intros H. revert pre. induction H as [|[k off bs] ies (Hk & Hoff & Hbs) H IH]; intros pre; [done|].
  cbn [fmap list_fmap concat length parse_index_entries]. simpl in Hk, Hoff, Hbs.
  pose proof (len_nonneg k). pose proof (len_nonneg (concat (encodeIndexEntry <$> ies))) as Hrest.
  set (rest := concat (encodeIndexEntry <$> ies)) in *.
  unfold encodeIndexEntry at 1 2 3 4 5 6 7 8. cbn [ie_lastKey ie_offset ie_blockSize].
  assert (len (pre ++ encodeIndexEntry (mkIndexEntry k off bs) ++ rest) = len pre + 16 + len k + len rest) as Hl.
  { unfold encodeIndexEntry. simpl. len_lia. }
  specialize (IH (pre ++ encodeIndexEntry (mkIndexEntry k off bs))).
  rewrite <- app_assoc, len_app in IH. unfold encodeIndexEntry in *. cbn [ie_lastKey ie_offset ie_blockSize] in *.
  rewrite <- !app_assoc in *. rewrite Hl.
  rewrite (proj2 (Z.ltb_ge _ _)) by lia. uint_bind. rewrite getLE_putLE32 by lia.
  rewrite (proj2 (Z.ltb_ge _ _)) by lia. slice_bind.
  rewrite (proj2 (Z.ltb_ge _ _)) by lia. uint_bind. uint_bind.
  autorewrite with kvlen in IH.
  replace (len pre + 4 + len k + 8 + 4) with (len pre + (Z.of_nat 4 + (len k + (Z.of_nat 8 + Z.of_nat 4)))) by lia.
  rewrite IH. rstep. unfold u64, u32. rewrite !Z.mod_small by lia.
  by rewrite getLE_putLE64, getLE_putLE32, i64_small by lia.
Qed.

Definition entry_fits (e : entry) : Prop := len (entry_bytes e) < 2 ^ 32.

(** One entry in front of the rest of a block. *)
Lemma decode_entries_cons n pre e rest :
  entry_fits e ->
  decode_entries (S n) (len pre) (pre ++ entry_bytes e ++ rest) =
  (es ← decode_entries n (len (pre ++ entry_bytes e)) (pre ++ entry_bytes e ++ rest);
   Ok (norm_entry e :: es)).
Proof.
  unfold entry_fits. rewrite len_entry_bytes. intros Hfit. cbn [decode_entries].
  pose proof (len_nonneg pre). pose proof (len_nonneg rest).
  pose proof (len_nonneg (e_key e)). pose proof (len_nonneg (val_bytes (e_value e))).
  pose proof (len_nonneg (if e_tombstone e then [] else val_bytes (e_value e))).
  rewrite !len_app, len_entry_bytes. rewrite (proj2 (Z.ltb_ge _ _)) by lia.
  set (data := pre ++ entry_bytes e ++ rest).
  set (vlen := if e_tombstone e then 0 else len (val_bytes (e_value e))).
  set (v := if e_tombstone e then [] else val_bytes (e_value e)) in *.
  set (typ := if e_tombstone e then entryTypeTombstone else entryTypeValue).
  assert (data = pre ++ putLE 4 (len (e_key e)) ++ putLE 4 vlen ++ [typ] ++ e_key e ++ v ++ rest) as Hd.
  { unfold data, entry_bytes, encodeEntry. by rewrite <- !app_assoc. }
  assert (0 <= vlen < 2 ^ 32) as Hvl by (unfold vlen, v in *; destruct (e_tombstone e); lia).
  assert (len v = vlen) as Hlv by (unfold v, vlen; by destruct (e_tombstone e)).
  rewrite (res_bind_run (uint_at data _ _) _ (len (e_key e))).
  2: { rewrite <- (getLE_putLE32 (len (e_key e))), Hd by lia. uint_solve. }
  rewrite (res_bind_run (uint_at data _ _) _ vlen).
  2: { rewrite <- (getLE_putLE32 vlen), Hd by lia. uint_solve. }
  rewrite (res_bind_run (index data _) _ typ).
  2: { rewrite Hd. do 3 rewrite index_app_r by len_lia. autorewrite with kvlen.
       replace (_ - _ - _ - _) with 0 by lia. done. }
  cbv beta zeta. rewrite (proj2 (Z.ltb_ge _ _)) by lia.
  rewrite (res_bind_run (slice data _ _) _ (e_key e)).
  2: { rewrite Hd. slice_solve. }
  replace (len pre + (9 + len (e_key e) + len v)) with (len pre + 9 + len (e_key e) + vlen) by lia.
  unfold norm_entry. subst typ. destruct (e_tombstone e) eqn:Et.
  - subst vlen. simpl. rewrite Z.add_0_r. by destruct (decode_entries _ _ _).
  - rewrite bool_decide_true, andb_true_l by done. unfold norm_value. subst vlen v.
    destruct (Z.ltb_spec 0 (len (val_bytes (e_value e)))) as [Hpos|Hz].
    + rewrite (proj2 (Z.ltb_ge _ _)) by lia.
      rewrite (res_bind_run (slice data _ _) _ (val_bytes (e_value e))).
      2: { rewrite Hd. slice_solve. }
      destruct (e_value e) as [[|x v]|]; simpl in *; rewrite ?len_nil in Hpos; (lia || by destruct (decode_entries _ _ _)).
    + assert (val_bytes (e_value e) = []) as Hnil by (apply len_0_nil; lia).
      rewrite Hnil, len_nil, Z.add_0_r.
      destruct (e_value e) as [[|x v]|]; simpl in *; (done || by destruct (decode_entries _ _ _)).
Qed.

Lemma decode_entries_encode es pre :
  Forall entry_fits es ->
  decode_entries (length es) (len pre) (pre ++ entries_bytes es) = Ok (norm_entry <$> es).
Proof.
  intros H. revert pre. induction H as [|e es He H IH]; intros pre; [done|].
  rewrite entries_bytes_cons, length_cons, decode_entries_cons by done.
  rewrite app_assoc, IH. done.
Qed.

Lemma decodeBlock_encode pre b post :
  Forall entry_fits b -> len b < 2 ^ 32 -> len pre + len (block_bytes b) < 2 ^ 63 ->
  decodeBlock (pre ++ block_bytes b ++ post) (len pre) (len (block_bytes b)) = Ok (norm_entry <$> b).
Proof.
  intros Hfit Hn Hsz. unfold decodeBlock.
  pose proof (len_nonneg pre). pose proof (len_nonneg post). pose proof (len_nonneg b).
  pose proof (len_block_bytes b) as Hl. pose proof (len_nonneg (entries_bytes b)).
  rewrite i64_small by lia. rewrite (proj2 (Z.ltb_ge _ _)) by len_lia.
  rewrite (res_bind_run (slice _ _ _) _ (block_bytes b)) by (by apply slice_mid).
  rewrite (proj2 (Z.ltb_ge _ _)) by lia. cbv zeta. rewrite Hl.
  unfold block_bytes. pose proof (ChecksumIEEE_bound (entries_bytes b)).
  uint_bind. uint_bind. slice_bind. rewrite !getLE_putLE32 by lia. rewrite Z.eqb_refl. cbn [negb].
  replace (Z.to_nat (len b)) with (length b) by (unfold len; lia).
  apply (decode_entries_encode b []). done.
Qed.

(** ** Bounds of a table *)

Lemma entry_fits_table es : table_fits es -> Forall entry_fits es.
Proof.
  unfold table_fits, entry_fits. induction es as [|e es IH]; [done|].
  rewrite entries_bytes_cons, len_app. pose proof (len_nonneg (entry_bytes e)).
  pose proof (len_nonneg (entries_bytes es)). intros. constructor; [lia|]. apply IH. lia.
Qed.

Lemma len_blocks_bytes bs :
  len (blocks_bytes bs) = len (entries_bytes (concat bs)) + 8 * len bs.
Proof.
  induction bs as [|b bs IH]; [done|]. rewrite blocks_bytes_cons, len_app, IH, len_cons.
  cbn [concat]. rewrite entries_bytes_app, len_app, len_block_bytes. lia.
Qed.

Lemma len_blocks_entries (bs : list (list entry)) :
  Forall (fun b => b <> []) bs -> len bs <= len (concat bs).
Proof.
  induction 1 as [|b bs Hb H IH]; simpl; [done|]. rewrite len_cons, len_app.
  destruct b; [done|]. rewrite len_cons. pose proof (len_nonneg b). lia.
Qed.

Lemma len_last_key b : len (last_key b) <= len (entries_bytes b).
Proof.
  unfold last_key. destruct b as [|e b _] using rev_ind; [done|]. rewrite last_snoc. simpl.
  rewrite entries_bytes_app, len_app. unfold entries_bytes at 2. simpl. rewrite app_nil_r, len_entry_bytes.
  pose proof (len_nonneg (entries_bytes b)).
  pose proof (len_nonneg (if e_tombstone e then [] else val_bytes (e_value e))). lia.
Qed.

Lemma len_encodeIndexEntry ie : len (encodeIndexEntry ie) = 16 + len (ie_lastKey ie).
Proof. unfold encodeIndexEntry. len_lia. Qed.

Lemma len_index_entries off bs :
  len (concat (encodeIndexEntry <$> index_of off bs)) <= len (entries_bytes (concat bs)) + 16 * len bs.
Proof.
  revert off. induction bs as [|b bs IH]; intros off; [done|]. cbn [index_of fmap list_fmap concat].
  rewrite entries_bytes_app, !len_app, len_cons, len_encodeIndexEntry. cbn [ie_lastKey].
  specialize (IH (off + len (block_bytes b))). pose proof (len_last_key b). lia.
Qed.

Lemma index_of_bounds off bs :
  0 <= off ->
  Forall (fun ie => len (ie_lastKey ie) <= len (blocks_bytes bs) /\
    off <= ie_offset ie <= off + len (blocks_bytes bs) /\
    0 <= ie_blockSize ie <= len (blocks_bytes bs)) (index_of off bs).
Proof.
  revert off. induction bs as [|b bs IH]; intros off Hoff; simpl; [done|].
  pose proof (len_nonneg (block_bytes b)). pose proof (len_nonneg (blocks_bytes bs)).
  assert (len (blocks_bytes (b :: bs)) = len (block_bytes b) + len (blocks_bytes bs)) as Hl.
  { by rewrite blocks_bytes_cons, len_app. }
  constructor; simpl.
  - pose proof (len_last_key b). pose proof (len_block_bytes b). lia.
  - eapply Forall_impl; [apply IH; lia|]. simpl. intros ie. lia.
Qed.

Record table_bounds (bs : list (list entry)) : Prop := {
  tb_blocks : len bs < 2 ^ 28;
  tb_data : len (blocks_bytes bs) < 2 ^ 31;
  tb_index : len (index_block bs) < 2 ^ 32;
  tb_entries : forall b, b ∈ bs -> Forall entry_fits b /\ len b < 2 ^ 32
}.

Lemma table_bounds_fits bs :
  table_fits (concat bs) -> Forall (fun b => b <> []) bs -> table_bounds bs.
Proof.
  intros Hfit Hne. pose proof (len_blocks_entries bs Hne). pose proof (len_entries_bytes (concat bs)).
  pose proof (entry_fits_table _ Hfit) as Hef. unfold table_fits in Hfit. split.
  - lia.
  - rewrite len_blocks_bytes. lia.
  - unfold index_block. pose proof (len_index_entries 0 bs). unfold index_bytes. len_lia.
  - intros b Hb. apply list_elem_of_split in Hb as (l1 & l2 & ->).
    rewrite concat_app in *. simpl in *. split.
    + by apply Forall_app in Hef as [_ [Hef _]%Forall_app].
    + rewrite !len_app in *. pose proof (len_nonneg (concat l1)). pose proof (len_nonneg (concat l2)).
      pose proof (len_nonneg b). lia.
Qed.

(** ** Opening a table *)

Lemma parseIndex_table bs pre post io isz bo bsz :
  table_bounds bs -> len pre < 2 ^ 31 -> io = len pre -> isz = len (index_block bs) ->
  let data := pre ++ index_block bs ++ post in
  parseIndex data (len data) (mkFooter io isz bo bsz magicNumber sst_version) = Ok (index_of 0 bs).
Proof.
  intros Hb Hpre -> -> data. unfold parseIndex. cbn [IndexOffset IndexSize].
  pose proof (len_nonneg pre). pose proof (len_nonneg post). pose proof (len_nonneg (index_block bs)).
  pose proof (tb_index _ Hb) as Hix. rewrite i64_small by lia.
  rewrite (proj2 (Z.ltb_ge (len pre) 0)), (proj2 (Z.ltb_ge (len data) _)) by (unfold data; len_lia).
  cbn [orb]. rewrite (res_bind_run (slice _ _ _) _ (index_block bs)) by (by apply slice_mid).
  assert (len (index_block bs) = len (index_bytes bs) + 8) as Hl by (unfold index_block; len_lia).
  pose proof (len_nonneg (index_bytes bs)).
  rewrite (proj2 (Z.ltb_ge _ _)) by lia. cbv zeta. rewrite Hl. unfold index_block.
  pose proof (ChecksumIEEE_bound (index_bytes bs)). pose proof (tb_blocks _ Hb). pose proof (len_nonneg bs).
  uint_bind. uint_bind. slice_bind. rewrite !getLE_putLE32 by lia. rewrite Z.eqb_refl. cbn [negb].
  replace (Z.to_nat (len bs)) with (length (index_of 0 bs)) by (rewrite length_index_of; unfold len; lia).
  apply (parse_index_entries_encode (index_of 0 bs) []).
  eapply Forall_impl; [apply (index_of_bounds 0); lia|]. simpl. pose proof (tb_data _ Hb). intros ie. lia.
Qed.

Lemma parseBloom_table bf pre post io isz bo bsz :
  bf_wf bf -> len pre < 2 ^ 62 -> bo = len pre -> bsz = len (bloom_block bf) ->
  let data := pre ++ bloom_block bf ++ post in
  parseBloom data (len data) (mkFooter io isz bo bsz magicNumber sst_version) = Ok bf.
Proof.
  intros Hwf Hpre -> -> data. unfold parseBloom. cbn [BloomOffset BloomSize].
  assert (len (bloom_block bf) = len (BloomFilter_Encode bf) + 4) as Hl by (unfold bloom_block; len_lia).
  pose proof (len_nonneg pre). pose proof (len_nonneg post). pose proof (len_nonneg (BloomFilter_Encode bf)).
  assert (len (BloomFilter_Encode bf) < 2 ^ 32).
  { unfold BloomFilter_Encode. autorewrite with kvlen. destruct Hwf as [Hm _ ->].
    assert ((bf_m bf + 7) / 8 < 2 ^ 30); [apply Z.div_lt_upper_bound|]; lia. }
  rewrite i64_small by lia.
  rewrite (proj2 (Z.ltb_ge (len pre) 0)), (proj2 (Z.ltb_ge (len data) _)) by (unfold data; len_lia).
  cbn [orb]. rewrite (res_bind_run (slice _ _ _) _ (bloom_block bf)) by (by apply slice_mid).
  rewrite (proj2 (Z.ltb_ge _ _)) by lia. rewrite Hl. unfold bloom_block.
  pose proof (ChecksumIEEE_bound (BloomFilter_Encode bf)).
  slice_bind. uint_bind. rewrite getLE_putLE32 by lia. rewrite Z.eqb_refl. cbn [negb].
  by rewrite DecodeBloomFilter_Encode.
Qed.

Lemma table_bloom_spec es bf :
  table_fits es -> table_bloom es bf ->
  bf_wf bf /\ forall k, k ∈ e_key <$> es -> BloomFilter_MayContain bf k = Ok true.
Proof.
  intros Hfit Hbf. unfold table_fits in Hfit. pose proof (len_entries_bytes es). pose proof (len_nonneg es).
  destruct (bloom_add_all_spec (e_key <$> es) (NewBloomFilter (Z.max 1 (len es)) 10)) as (bf' & E & Hwf & _ & _ & Hk).
  { apply NewBloomFilter_wf; lia. }
  unfold table_bloom in Hbf. rewrite Hbf in E. injection E as <-. auto.
Qed.

Lemma len_table_bytes bs bf : table_bounds bs -> bf_wf bf -> len (table_bytes bs bf) < 2 ^ 40.
Proof.
  intros Hb Hwf. pose proof (tb_data _ Hb). pose proof (tb_index _ Hb). destruct Hwf as [Hm _ Hl].
  assert ((bf_m bf + 7) / 8 < 2 ^ 30) by (apply Z.div_lt_upper_bound; lia).
  unfold table_bytes, bloom_block, encodeFooter, footer_body, BloomFilter_Encode. autorewrite with kvlen. lia.
Qed.

Lemma blocks_decode bs pre b post tail :
  table_bounds bs -> bs = pre ++ b :: post ->
  decodeBlock (blocks_bytes bs ++ tail) (len (blocks_bytes pre)) (len (block_bytes b)) = Ok (norm_entry <$> b).
Proof.
  intros Hb ->. destruct (tb_entries _ Hb b) as [Hf Hn]; [set_solver|].
  pose proof (tb_data _ Hb) as Hd. rewrite blocks_bytes_app, blocks_bytes_cons in *. rewrite !len_app in Hd.
  pose proof (len_nonneg (blocks_bytes post)).
  rewrite <- !app_assoc. apply decodeBlock_encode; [done|done|lia].
Qed.

Lemma last_concat (bs : list (list entry)) b : b <> [] -> last (concat (bs ++ [b])) = last b.
Proof.
  intros Hb. rewrite concat_snoc, last_app. destruct b as [|e b _] using rev_ind; [done|].
  by rewrite last_snoc.
Qed.

Lemma last_key_last b : b <> [] -> Some (last_key b) = e_key <$> last b.
Proof. intros Hb. unfold last_key. destruct b as [|e b _] using rev_ind; [done|]. by rewrite last_snoc. Qed.

Lemma min_max_table bs data :
  Forall (fun b => b <> []) bs ->
  (forall b post, bs = b :: post -> decodeBlock data 0 (len (block_bytes b)) = Ok (norm_entry <$> b)) ->
  min_max data (index_of 0 bs) = Ok (e_key <$> head (concat bs), e_key <$> last (concat bs)).
Proof.
  intros Hne Hdec. destruct bs as [|b bs]; [done|].
  assert ((ie ← index (index_of 0 (b :: bs)) (len (index_of 0 (b :: bs)) - 1);
    Ok (Some (ie_lastKey ie))) = Ok (e_key <$> last (concat (b :: bs)))) as Hlast.
  { destruct (exists_last (l := b :: bs)) as (bs' & b' & Heq); [done|]. rewrite Heq in *.
    apply Forall_app in Hne as [_ [Hb' _]%Forall_cons]. rewrite last_concat by done.
    rewrite index_of_app. cbn [index_of].
    match goal with |- context [index ?l (len ?l - 1)] =>
      replace (len l - 1) with (Z.of_nat (length (index_of 0 bs'))) by (unfold len; rewrite length_app; simpl; lia) end.
    erewrite index_ok by (by rewrite lookup_app_r, Nat.sub_diag by lia). simpl. by rewrite last_key_last. }
  unfold min_max. change (index_of 0 (b :: bs)) with
    (mkIndexEntry (last_key b) 0 (len (block_bytes b)) :: index_of (0 + len (block_bytes b)) bs) in *.
  destruct (index _ _) as [ie| | |]; try done. injection Hlast as Hlast. rstep.
  cbn [ie_offset ie_blockSize]. rewrite (Hdec b bs) by done. rewrite Hlast.
  apply Forall_cons in Hne as [Hb _]. by destruct b.
Qed.

Lemma OpenReader_table bs bf :
  table_fits (concat bs) -> Forall (fun b => b <> []) bs -> table_bloom (concat bs) bf ->
  exists r, OpenReader (Ok (table_bytes bs bf)) = Ok r /\ reader_repr r bs.
Proof.
  intros Hfit Hne Hbf. pose proof (table_bounds_fits _ Hfit Hne) as Hb.
  destruct (table_bloom_spec _ _ Hfit Hbf) as [Hwf Hmay].
  pose proof (tb_data _ Hb) as Hd. pose proof (tb_index _ Hb) as Hi.
  set (footer := encodeFooter (len (blocks_bytes bs)) (len (index_block bs))
    (len (blocks_bytes bs) + len (index_block bs)) (len (bloom_block bf))).
  pose proof (len_nonneg (blocks_bytes bs)). pose proof (len_nonneg (index_block bs)).
  pose proof (len_nonneg (bloom_block bf)).
  assert (len footer = 48) as Hf.
  { unfold footer, encodeFooter, footer_body. autorewrite with kvlen. done. }
  assert (len (bloom_block bf) < 2 ^ 32) as Hbl.
  { unfold bloom_block, BloomFilter_Encode. autorewrite with kvlen. destruct Hwf as [Hm _ ->].
    assert ((bf_m bf + 7) / 8 < 2 ^ 30); [apply Z.div_lt_upper_bound|]; lia. }
  unfold OpenReader. rstep.
  assert (len (table_bytes bs bf) = len (blocks_bytes bs) + len (index_block bs) + len (bloom_block bf) + 48) as Hl.
  { unfold table_bytes. fold footer. rewrite !len_app, Hf. lia. }
  rewrite (proj2 (Z.ltb_ge _ footerSize)) by (unfold footerSize; lia).
  set (pre := blocks_bytes bs ++ index_block bs ++ bloom_block bf).
  assert (table_bytes bs bf = pre ++ footer) as Ht.
  { unfold table_bytes, pre. fold footer. by rewrite <- !app_assoc. }
  erewrite res_bind_run.
  2: { rewrite Ht. apply parseFooter_encode; lia. }
  rewrite (res_bind_run (parseIndex _ _ _) _ (index_of 0 bs)) by (by apply parseIndex_table).
  rewrite (res_bind_run (parseBloom _ _ _) _ bf).
  2: { unfold table_bytes. rewrite (app_assoc (blocks_bytes bs)).
       apply parseBloom_table; rewrite ?len_app; try done; lia. }
  assert (forall p b q, bs = p ++ b :: q ->
    decodeBlock (table_bytes bs bf) (len (blocks_bytes p)) (len (block_bytes b)) = Ok (norm_entry <$> b)) as Hdec.
  { intros p b q Heq. unfold table_bytes. by eapply blocks_decode. }
  rewrite (res_bind_run (min_max _ _) _ (e_key <$> head (concat bs), e_key <$> last (concat bs))).
  2: { apply min_max_table; [done|]. intros b post Heq. apply (Hdec [] b post Heq). }
  eexists. split; [done|]. by split.
Qed.

(** ** The binary search *)

Definition index_sorted (ix : list indexEntry) : Prop := StronglySorted blt (ie_lastKey <$> ix).

Lemma sorted_lookup_le ix i j x y :
  index_sorted ix -> (i <= j)%nat -> ix !! i = Some x -> ix !! j = Some y -> ie_lastKey x ≤ₖ ie_lastKey y.
Proof.
  unfold index_sorted. revert i j. induction ix as [|ie ix IH]; intros i j Hs Hij Hi Hj; [done|].
  apply StronglySorted_inv in Hs as [Hs Hf]. destruct i as [|i], j as [|j]; simplify_eq/=; try lia.
  - apply ble_refl.
  - apply blt_ble. rewrite Forall_forall in Hf. apply Hf, list_elem_of_fmap. eexists.
    split; [done|by eapply list_elem_of_lookup_2].
  - apply (IH i j); try done. lia.
Qed.

Definition found_block (ix : list indexEntry) (key : bytes) (r : Z) : Prop :=
  (r = -1 /\ forall i x, ix !! i = Some x -> ie_lastKey x <ₖ key) \/
  (exists i x, r = Z.of_nat i /\ ix !! i = Some x /\ key ≤ₖ ie_lastKey x /\
    forall j y, (j < i)%nat -> ix !! j = Some y -> ie_lastKey y <ₖ key).

(** The loop invariant: everything before [lo] is below the key, everything
    after [hi] is not, and [blockIdx] is the position after [hi]. *)
Lemma find_block_spec fuel ix key lo hi b :
  index_sorted ix -> 0 <= lo <= hi + 1 -> hi < len ix -> hi - lo + 1 < Z.of_nat fuel ->
  (forall i x, Z.of_nat i < lo -> ix !! i = Some x -> ie_lastKey x <ₖ key) ->
  (forall i x, hi < Z.of_nat i -> ix !! i = Some x -> key ≤ₖ ie_lastKey x) ->
  b = (if hi + 1 <? len ix then hi + 1 else -1) ->
  exists r, find_block fuel ix key lo hi b = Ok r /\ found_block ix key r.
Proof.
  intros Hs. revert lo hi b. induction fuel as [|fuel IH]; intros lo hi b Hlo Hhi Hf Hlow Hup Hb; [lia|].
  cbn [find_block]. destruct (Z.leb_spec lo hi) as [Hle|Hgt].
  - rewrite Z.quot_div_nonneg by lia. set (mid := lo + (hi - lo) / 2).
    assert (lo <= mid <= hi) as Hmid.
    { unfold mid. pose proof (Z.div_pos (hi - lo) 2). pose proof (Z.mul_div_le (hi - lo) 2). lia. }
    destruct (lookup_lt_is_Some_2 ix (Z.to_nat mid)) as [ie Hie]; [unfold len in *; lia|].
    rewrite (res_bind_run (index ix mid) _ ie) by (rewrite <- (Z2Nat.id mid) by lia; by apply index_ok).
    destruct (bcompare (ie_lastKey ie) key) eqn:E.
    1,3: apply IH; try lia; try done;
      [intros i x Hi Hx; transitivity (ie_lastKey ie);
        [by apply ble_eq_lt; destruct (blt_trichotomy key (ie_lastKey ie)) as [|[|Hlt]]; auto; unfold blt in Hlt; congruence
        |eapply sorted_lookup_le; [done| |exact Hie|exact Hx]; lia]
      |rewrite (proj2 (Z.ltb_lt _ _)) by lia; lia].
    apply IH; try lia; try done. intros i x Hi Hx. eapply ble_lt_trans; [|exact E].
    eapply sorted_lookup_le; [done| |exact Hx|exact Hie]. lia.
  - assert (hi + 1 = lo) as Hlh by lia. eexists. split; [done|]. subst b.
    destruct (Z.ltb_spec (hi + 1) (len ix)).
    + destruct (lookup_lt_is_Some_2 ix (Z.to_nat (hi + 1))) as [ie Hie]; [unfold len in *; lia|].
      right. exists (Z.to_nat (hi + 1)), ie. split_and!; [lia|done|apply (Hup (Z.to_nat (hi + 1))); [lia|done]|].
      intros j y Hj. apply Hlow. lia.
    + left. split; [done|]. intros i x Hx. pose proof (lookup_lt_Some _ _ _ Hx).
      apply (Hlow i); [unfold len in *; lia|done].
Qed.

Lemma search_index_spec ix key :
  index_sorted ix -> exists r, search_index ix key = Ok r /\ found_block ix key r.
Proof.
  intros Hs. pose proof (len_nonneg ix). apply find_block_spec; try done; try lia.
  - unfold len. lia.
  - intros i x Hi Hx%lookup_lt_Some. unfold len in *. lia.
  - rewrite (proj2 (Z.ltb_ge _ _)) by lia. done.
Qed.

(** ** Sorted blocks *)

Lemma esorted_app es es' :
  esorted (es ++ es') <->
  esorted es /\ esorted es' /\ (forall e e', e ∈ es -> e' ∈ es' -> e_key e <ₖ e_key e').
Proof.
  unfold esorted. rewrite fmap_app, StronglySorted_app. split.
  - intros (H1 & H2 & H3). split_and!; try done. intros e e' He He'.
    apply H1; apply list_elem_of_fmap; eauto.
  - intros (H1 & H2 & H3). split_and!; try done.
    intros x y (e & -> & He)%list_elem_of_fmap (e' & -> & He')%list_elem_of_fmap. auto.
Qed.

Lemma last_key_in b : b <> [] -> exists e, e ∈ b /\ e_key e = last_key b.
Proof.
  intros Hb. destruct b as [|e b _] using rev_ind; [done|]. exists e. unfold last_key.
  rewrite last_snoc. set_solver.
Qed.

Lemma last_key_max b e : esorted b -> e ∈ b -> e_key e ≤ₖ last_key b.
Proof.
  intros Hs He. destruct b as [|e' b _] using rev_ind; [by apply elem_of_nil in He|].
  unfold last_key. rewrite last_snoc. simpl. apply esorted_app in Hs as (_ & _ & H).
  apply elem_of_app in He as [He| ->%list_elem_of_singleton]; [|apply ble_refl].
  apply blt_ble, H; [done|left].
Qed.

Lemma index_of_sorted off bs :
  Forall (fun b => b <> []) bs -> esorted (concat bs) -> index_sorted (index_of off bs).
Proof.
  intros Hne. revert off. induction Hne as [|b bs Hb Hne IH]; intros off Hs; [constructor|].
  simpl in Hs. apply esorted_app in Hs as (H1 & H2 & H3). unfold index_sorted in *. simpl.
  constructor; [by apply IH|]. apply Forall_forall. intros k Hk.
  assert (exists b', b' ∈ bs /\ k = last_key b') as (b' & Hin & ->).
  { clear -Hk. revert off Hk. generalize (len (block_bytes b)). intros n off.
    revert off n. induction bs as [|b' bs IH]; intros off n Hk; simpl in Hk; [by apply elem_of_nil in Hk|].
    apply elem_of_cons in Hk as [->|Hk]; [exists b'; split; [left|done]|].
    destruct (IH _ _ Hk) as (b'' & ? & ?). exists b''. split; [by right|done]. }
  rewrite Forall_forall in Hne. destruct (last_key_in b Hb) as (e & He & <-).
  destruct (last_key_in b' (Hne _ Hin)) as (e' & He' & <-). apply H3; [done|].
  apply list_elem_of_In, in_concat. exists b'. by rewrite <- !list_elem_of_In.
Qed.

Lemma index_of_lookup off bs i x :
  index_of off bs !! i = Some x ->
  exists pre b post, bs = pre ++ b :: post /\ length pre = i /\
    x = mkIndexEntry (last_key b) (off + len (blocks_bytes pre)) (len (block_bytes b)).
Proof.
  revert off i. induction bs as [|b bs IH]; intros off [|i] H; simplify_eq/=.
  - exists [], b, bs. by rewrite Z.add_0_r.
  - destruct (IH _ _ H) as (pre & b' & post & -> & <- & ->). exists (b :: pre), b', post.
    split_and!; try done. rewrite blocks_bytes_cons, len_app, Z.add_assoc. done.
Qed.

(** Where the search leads among sorted blocks. *)
Lemma search_index_blocks bs key :
  Forall (fun b => b <> []) bs -> esorted (concat bs) ->
  (search_index (index_of 0 bs) key = Ok (-1) /\ Forall (fun e => e_key e <ₖ key) (concat bs)) \/
  (exists pre b post, bs = pre ++ b :: post /\
    search_index (index_of 0 bs) key = Ok (Z.of_nat (length pre)) /\
    index_of 0 bs !! length pre = Some (mkIndexEntry (last_key b) (len (blocks_bytes pre)) (len (block_bytes b))) /\
    key ≤ₖ last_key b /\ Forall (fun e => e_key e <ₖ key) (concat pre)).
Proof.
  intros Hne Hs. destruct (search_index_spec (index_of 0 bs) key) as (r & -> & Hr); [by apply index_of_sorted|].
  assert (forall b i off bs', bs' !! i = Some b -> exists x, index_of off bs' !! i = Some x /\ ie_lastKey x = last_key b) as Hlk.
  { intros b i off bs'. revert i off. induction bs' as [|b' bs' IH]; intros [|i] off H; simplify_eq/=; eauto. }
  assert (forall bs', (forall b, b ∈ bs' -> esorted b /\ last_key b <ₖ key) -> Forall (fun e => e_key e <ₖ key) (concat bs')) as Hall.
  { intros bs' H. apply Forall_concat, Forall_forall. intros b Hb. apply Forall_forall. intros e He.
    destruct (H b Hb). eapply ble_lt_trans; [by apply last_key_max|done]. }
  assert (forall b, b ∈ bs -> esorted b) as Hsb.
  { intros b (l1 & l2 & ->)%list_elem_of_split. rewrite concat_app in Hs. simpl in Hs.
    apply esorted_app in Hs as (_ & (H & _)%esorted_app & _). done. }
  destruct Hr as [[-> Hr]|(i & x & -> & Hx & Hk & Hlt)].
  - left. split; [done|]. apply Hall. intros b Hb. split; [auto|].
    apply list_elem_of_lookup in Hb as [i Hi]. destruct (Hlk _ _ 0 _ Hi) as (x & Hx & <-). eauto.
  - right. pose proof Hx as Hx'. apply index_of_lookup in Hx as (pre & b & post & Heq & <- & ->).
    exists pre, b, post. split_and!; try done. apply Hall. intros b' Hb'.
    split; [apply Hsb; rewrite Heq; set_solver|].
    apply list_elem_of_lookup in Hb' as [j Hj]. pose proof (lookup_lt_Some _ _ _ Hj).
    destruct (Hlk b' j 0 bs) as (y & Hy & <-); [by rewrite Heq, lookup_app_l|]. by eapply Hlt.
Qed.

(** ** Looking a key up *)

Lemma scan_entries_app es es' key :
  Forall (fun e => e_key e <> key) es -> scan_entries (es ++ es') key = scan_entries es' key.
Proof. induction 1 as [|e es He H IH]; simpl; [done|]. by rewrite (proj2 (beqb_false _ _) He). Qed.

Lemma scan_entries_none es key :
  Forall (fun e => e_key e <> key) es -> scan_entries es key = (None, false).
Proof. intros H. rewrite <- (app_nil_r es). by rewrite scan_entries_app. Qed.

Lemma scan_entries_app_l es es' key :
  Forall (fun e => e_key e <> key) es' -> scan_entries (es ++ es') key = scan_entries es key.
Proof.
  intros H. induction es as [|e es IH]; simpl; [by apply scan_entries_none|]. by rewrite IH.
Qed.

Lemma norm_keys_ne es key :
  Forall (fun e => e_key e <> key) es -> Forall (fun e => e_key e <> key) (norm_entry <$> es).
Proof. intros H. apply Forall_fmap. eapply Forall_impl; [exact H|]. done. Qed.

(** A lookup through filter, index and block equals a scan of all entries. *)
Lemma Reader_Get_repr r bs key :
  reader_repr r bs -> esorted (concat bs) ->
  Reader_Get r key = Ok (scan_entries (norm_entry <$> concat bs) key).
Proof.
  intros Hr Hs. unfold Reader_Get. rewrite (rr_index _ _ Hr).
  destruct (Z.eqb_spec (len (index_of 0 bs)) 0) as [Hz|Hz].
  { apply len_0_nil in Hz. by destruct bs. }
  destruct (bloom_may_total _ key (rr_bloom_total _ _ Hr)) as [may Hmay]. rewrite Hmay. rstep.
  destruct may; cbn [negb].
  2: { rewrite scan_entries_none; [done|]. apply norm_keys_ne, Forall_forall. intros e He Heq.
       rewrite (rr_bloom _ _ Hr) in Hmay; [done|]. apply list_elem_of_fmap. eauto. }
  destruct (search_index_blocks bs key (rr_nonempty _ _ Hr) Hs) as [[-> Hall]|(pre & b & post & Heq & -> & Hix & Hk & Hpre)]; rstep.
  - rewrite scan_entries_none; [done|]. apply norm_keys_ne. eapply Forall_impl; [exact Hall|]. intros e. apply blt_ne.
  - rewrite (proj2 (Z.eqb_neq _ _)) by lia. rewrite (index_ok _ _ _ Hix). rstep. cbn [ie_offset ie_blockSize].
    rewrite (rr_blocks _ _ Hr pre b post Heq). rstep. subst bs.
    rewrite concat_app in Hs |- *. simpl in *. apply esorted_app in Hs as (_ & (Hb & _ & Hpost)%esorted_app & _).
    rewrite !fmap_app, scan_entries_app, scan_entries_app_l; [done| |].
    + apply norm_keys_ne, Forall_forall. intros e He Heq. subst key.
      destruct (last_key_in b) as (e' & He' & Hl).
      { pose proof (rr_nonempty _ _ Hr) as Hne. rewrite Forall_forall in Hne. apply Hne. set_solver. }
      rewrite <- Hl in Hk.
      specialize (Hpost _ _ He' He). korder.
    + apply norm_keys_ne. eapply Forall_impl; [exact Hpre|]. intros e. apply blt_ne.
Qed.

(** ** Properties *)

Lemma write_open plan bsz es f n :
  table_fits es -> write_table plan bsz es = Ok f ->
  exists r bs, OpenReader (Ok (contents (crash n f))) = Ok r /\ reader_repr r bs /\ concat bs = es.
Proof.
  intros Hfit Hw. destruct (write_table_Ok _ _ _ _ Hw) as (bs & bf & <- & Hne & Hbf & Hc & Hsy).
  destruct (OpenReader_table bs bf Hfit Hne Hbf) as (r & Hr & Hrepr).
  exists r, bs. split_and!; try done. simpl. rewrite Hsy, take_ge by lia. by rewrite Hc.
Qed.

(** C25.  A table round trip.  Write any sorted entries with any block size.
    On a device without faults this succeeds; and whenever it succeeds, on a
    device with any faults, then even after a power failure the file opens,
    [MinKey]/[MaxKey] are the first and the last key, and [Get] of any key
    (through Bloom filter, index search and block scan) answers exactly what a
    scan of the entries written answers, each with its value as the reader
    decodes it ([norm_entry]): an empty value comes back as nil, as found but not
    distinguished by [Get] from a deletion. *)
Theorem sstable_write_open_get :
  forall (plan : option (list fault)) (bsz : Z) (es : list entry) (n : nat),
  esorted es -> table_fits es ->
  (exists f, write_table (Some []) bsz es = Ok f) /\
  (forall f, write_table plan bsz es = Ok f ->
    exists r, OpenReader (Ok (contents (crash n f))) = Ok r /\
      Reader_MinKey r = e_key <$> head es /\ Reader_MaxKey r = e_key <$> last es /\
      forall key, Reader_Get r key = Ok (scan_entries (norm_entry <$> es) key)).
Proof.
  intros plan bsz es n Hs Hfit. split; [by apply write_table_healthy|]. intros f Hw.
  destruct (write_open _ _ _ _ n Hfit Hw) as (r & bs & Hr & Hrepr & <-). exists r.
  split; [done|]. split; [apply (rr_min _ _ Hrepr)|]. split; [apply (rr_max _ _ Hrepr)|].
  intros key. by apply Reader_Get_repr.
Qed.

Definition sample_entries : list entry :=
  [mkEntry [x61] (Some [x31]) false; mkEntry [x62] None true; mkEntry [x63; x64] (Some [x32; x33]) false].

Lemma sample_sorted : esorted sample_entries.
Proof. repeat constructor. Qed.

Lemma sstable_write_open_get_witness :
  exists f, write_table (Some []) 12 sample_entries = Ok f /\
    exists r, OpenReader (Ok (contents (crash 0 f))) = Ok r /\
      Reader_Get r [x63; x64] = Ok (Some [x32; x33], true) /\ Reader_Get r [x62] = Ok (None, true) /\
      Reader_Get r [x7a] = Ok (None, false).
Proof.
  destruct (sstable_write_open_get (Some []) 12 sample_entries 0 sample_sorted) as [[f Hf] H].
  - vm_compute. reflexivity.
  - exists f. split; [exact Hf|]. destruct (H f Hf) as (r & Hr & _ & _ & Hget). exists r.
    split; [exact Hr|]. rewrite !Hget. split; [reflexivity|]. split; reflexivity.
Defined.

(** An empty value does not survive a table: a key stored with an empty
    value is read back exactly like a deleted key (nil, found). *)
Theorem sstable_empty_value_reads_as_tombstone :
  forall (plan : option (list fault)) (bsz : Z) (es : list entry) (key : bytes) (f : File),
  esorted es -> table_fits es -> mkEntry key (Some []) false ∈ es -> write_table plan bsz es = Ok f ->
  exists r, OpenReader (Ok (contents f)) = Ok r /\ Reader_Get r key = Ok (None, true).
Proof.
  intros plan bsz es key f Hs Hfit Hin Hw.
  destruct (write_open _ _ _ _ (length (contents f)) Hfit Hw) as (r & bs & Hr & Hrepr & <-).
  exists r. simpl in Hr. rewrite take_ge in Hr by lia. split; [done|].
  rewrite (Reader_Get_repr r bs) by done. f_equal.
  apply list_elem_of_split in Hin as (l1 & l2 & Heq). rewrite Heq in *. rewrite fmap_app.
  rewrite scan_entries_app; [simpl; by rewrite beqb_refl|].
  apply norm_keys_ne, Forall_forall. intros e He.
  apply esorted_app in Hs as (_ & _ & H). apply blt_ne, (H e (mkEntry key (Some []) false)); [done|left].
Qed.

