(* ===== verification/SSTIterator.v ===== *)
(** * sstable/iterator.go: iterating over a sorted table

    The iterator's fields are kept as they are: the block number, the decoded
    entries of that block, the position in them and the validity flag.
    [sit_repr] relates an iterator to the list of entries it has still to
    produce; [SeekToFirst], [Seek] and [Next] are shown to be the operations
    on that list. *)

From S2P Require Import Prelude GoStd Bloom SSTWriter SSTReader.

Record SSTIterator := mkSSTIterator {
  it_reader : Reader;
  it_blockIdx : Z;
  it_entries : list entry;
  it_entryIdx : Z;
  it_valid : bool
}.

Definition Reader_NewIterator (r : Reader) : SSTIterator := mkSSTIterator r (-1) [] (-1) false.

Definition sit_invalid (it : SSTIterator) : SSTIterator :=
  mkSSTIterator (it_reader it) (it_blockIdx it) (it_entries it) (it_entryIdx it) false.

Definition loadBlock (idx : Z) (it : SSTIterator) : res SSTIterator :=
  ie ← index (sr_index (it_reader it)) idx;
  entries ← decodeBlock (sr_data (it_reader it)) (ie_offset ie) (ie_blockSize ie);
  Ok (mkSSTIterator (it_reader it) idx entries (it_entryIdx it) (it_valid it)).

(** [if err := it.loadBlock(idx); err != nil { it.valid = false; return }] *)
Definition load_or_invalid (idx : Z) (it : SSTIterator) (k : SSTIterator -> res SSTIterator) : res SSTIterator :=
  match loadBlock idx it with
  | Ok it' => k it'
  | Err _ => Ok (sit_invalid it)
  | Panic => Panic
  | OutOfFuel => OutOfFuel
  end.

Definition SSTIterator_SeekToFirst (it : SSTIterator) : res SSTIterator :=
  if len (sr_index (it_reader it)) =? 0 then Ok (sit_invalid it) else
  load_or_invalid 0 it (fun it =>
    Ok (mkSSTIterator (it_reader it) (it_blockIdx it) (it_entries it) 0 (0 <? len (it_entries it)))).

Definition SSTIterator_Next (it : SSTIterator) : res SSTIterator :=
  if negb (it_valid it) then Ok it else
  let it := mkSSTIterator (it_reader it) (it_blockIdx it) (it_entries it) (it_entryIdx it + 1) true in
  if len (it_entries it) <=? it_entryIdx it then
    let nextBlock := it_blockIdx it + 1 in
    if len (sr_index (it_reader it)) <=? nextBlock then Ok (sit_invalid it) else
    load_or_invalid nextBlock it (fun it =>
      Ok (mkSSTIterator (it_reader it) (it_blockIdx it) (it_entries it) 0
            (negb (len (it_entries it) =? 0))))
  else Ok it.

(** The first entry of a block not below [target]. *)
Fixpoint first_geq (entries : list entry) (target : bytes) (i : Z) : option Z :=
  match entries with
  | [] => None
  | e :: entries =>
      match bcompare (e_key e) target with
      | Lt => first_geq entries target (i + 1)
      | _ => Some i
      end
  end.

Definition SSTIterator_Seek (target : bytes) (it : SSTIterator) : res SSTIterator :=
  if len (sr_index (it_reader it)) =? 0 then Ok (sit_invalid it) else
  blockIdx ← search_index (sr_index (it_reader it)) target;
  if blockIdx =? -1 then Ok (sit_invalid it) else
  load_or_invalid blockIdx it (fun it =>
    match first_geq (it_entries it) target 0 with
    | Some i => Ok (mkSSTIterator (it_reader it) (it_blockIdx it) (it_entries it) i true)
    | None =>
        SSTIterator_Next
          (mkSSTIterator (it_reader it) blockIdx (it_entries it) (len (it_entries it)) true)
    end).

Definition SSTIterator_Valid (it : SSTIterator) : bool := it_valid it.

(** [it.entries[it.entryIdx]], the zero value when the iterator is not valid. *)
Definition sit_current {A} (proj : entry -> A) (zero : A) (it : SSTIterator) : res A :=
  if negb (it_valid it) then Ok zero else e ← index (it_entries it) (it_entryIdx it); Ok (proj e).

Definition SSTIterator_Key : SSTIterator -> res (option bytes) := sit_current (fun e => Some (e_key e)) None.
Definition SSTIterator_Value : SSTIterator -> res (option bytes) := sit_current e_value None.
Definition SSTIterator_IsTombstone : SSTIterator -> res bool := sit_current e_tombstone false.

(** Reading an iterator to its end, at most [fuel] entries. *)
Fixpoint sit_drain (fuel : nat) (it : SSTIterator) : res (list entry) :=
  match fuel with
  | O => OutOfFuel
  | S fuel =>
      if SSTIterator_Valid it then
        k ← SSTIterator_Key it;
        v ← SSTIterator_Value it;
        t ← SSTIterator_IsTombstone it;
        it' ← SSTIterator_Next it;
        es ← sit_drain fuel it';
        Ok (mkEntry (default [] k) v t :: es)
      else Ok []
  end.

(** ** The entries still to come *)

Section repr.
Context (r : Reader) (bs : list (list entry)) (Hr : reader_repr r bs).

(** The iterator stands at the first of [rest], which ends with the last block. *)
Inductive sit_repr (it : SSTIterator) : list entry -> Prop :=
| sit_end : it_reader it = r -> it_valid it = false -> sit_repr it []
| sit_at pre done e cur post :
    it_reader it = r -> it_valid it = true -> bs = pre ++ (done ++ e :: cur) :: post ->
    it_blockIdx it = Z.of_nat (length pre) -> it_entries it = norm_entry <$> (done ++ e :: cur) ->
    it_entryIdx it = Z.of_nat (length done) ->
    sit_repr it (norm_entry <$> (e :: cur ++ concat post)).

Lemma loadBlock_repr it pre b post :
  it_reader it = r -> bs = pre ++ b :: post ->
  loadBlock (Z.of_nat (length pre)) it =
  Ok (mkSSTIterator r (Z.of_nat (length pre)) (norm_entry <$> b) (it_entryIdx it) (it_valid it)).
Proof.
  intros Hit Heq. unfold loadBlock. rewrite Hit, (rr_index _ _ Hr).
  assert (index_of 0 bs !! length pre =
    Some (mkIndexEntry (last_key b) (len (blocks_bytes pre)) (len (block_bytes b)))) as Hix.
  { rewrite Heq, index_of_app, lookup_app_r, length_index_of, Nat.sub_diag; [done|].
    rewrite length_index_of. lia. }
  rewrite (index_ok _ _ _ Hix). rstep. cbn [ie_offset ie_blockSize].
  by rewrite (rr_blocks _ _ Hr pre b post Heq).
Qed.

Lemma block_cons (b : list entry) pre post : bs = pre ++ b :: post -> exists e cur, b = e :: cur.
Proof.
  intros ->. pose proof (rr_nonempty _ _ Hr) as Hne. rewrite Forall_forall in Hne.
  destruct b as [|e cur]; [by destruct (Hne []); [set_solver|]|eauto].
Qed.

Lemma len_index_repr : len (sr_index r) = len bs.
Proof. rewrite (rr_index _ _ Hr). unfold len. by rewrite length_index_of. Qed.

(** Entering a block at its first entry. *)
Lemma sit_enter pre b post :
  bs = pre ++ b :: post ->
  sit_repr (mkSSTIterator r (Z.of_nat (length pre)) (norm_entry <$> b) 0 true)
    (norm_entry <$> (b ++ concat post)).
Proof.
  intros Heq. destruct (block_cons b pre post Heq) as (e & cur & ->).
  by apply (sit_at _ pre [] e cur post).
Qed.

Lemma Next_repr it e rest :
  sit_repr it (e :: rest) -> exists it', SSTIterator_Next it = Ok it' /\ sit_repr it' rest.
Proof.
  intros H. inversion H as [|pre d e0 cur post Hrd Hv Heq Hbi Hen Hei Heqr]; subst; clear H.
  unfold SSTIterator_Next. rewrite Hv. cbn [negb]. cbv zeta. cbn [it_entries it_entryIdx it_reader it_blockIdx].
  rewrite Hen, Hei, Hbi, Hrd, len_index_repr. unfold len at 1.
  rewrite length_fmap, length_app, length_cons. destruct cur as [|e1 cur].
  - rewrite (proj2 (Z.leb_le _ _)) by (simpl; lia). destruct post as [|b post].
    + rewrite (proj2 (Z.leb_le _ _)) by (rewrite Heq; unfold len; rewrite length_app; simpl; lia).
      eexists. split; [done|]. by constructor.
    + rewrite (proj2 (Z.leb_gt _ _)) by (rewrite Heq; unfold len; rewrite length_app; simpl; lia).
      unfold load_or_invalid.
      assert (bs = (pre ++ [d ++ [e0]]) ++ b :: post) as Heq' by by rewrite <- app_assoc.
      replace (Z.of_nat (length pre) + 1) with (Z.of_nat (length (pre ++ [d ++ [e0]])))
        by (rewrite length_app; simpl; lia).
      erewrite loadBlock_repr by done. destruct (block_cons b _ _ Heq') as (e1 & cur & ->).
      eexists. split; [done|]. simpl. apply (sit_enter _ _ _ Heq').
  - rewrite (proj2 (Z.leb_gt _ _)) by (simpl; lia). eexists. split; [done|].
    apply (sit_at _ pre (d ++ [e0]) e1 cur post); simpl; try done.
    + by rewrite <- app_assoc.
    + by rewrite <- app_assoc.
    + rewrite length_app. simpl. lia.
Qed.

Lemma current_repr {A} (proj : entry -> A) zero it e rest :
  sit_repr it (e :: rest) -> sit_current proj zero it = Ok (proj e).
Proof.
  intros H. inversion H as [|pre d e0 cur post Hrd Hv Heq Hbi Hen Hei Heqr]; subst; clear H.
  unfold sit_current. rewrite Hv, Hen, Hei. cbn [negb]. rewrite fmap_app.
  erewrite index_ok; [done|]. rewrite lookup_app_r, length_fmap, Nat.sub_diag; [done|].
  rewrite length_fmap. lia.
Qed.

Lemma valid_repr it rest : sit_repr it rest -> SSTIterator_Valid it = negb (bool_decide (rest = [])).
Proof. intros H. unfold SSTIterator_Valid. by destruct H. Qed.

Lemma drain_repr fuel it rest :
  sit_repr it rest -> (length rest < fuel)%nat -> sit_drain fuel it = Ok rest.
Proof.
  revert it rest. induction fuel as [|fuel IH]; intros it rest H Hf; [lia|].
  cbn [sit_drain]. rewrite (valid_repr it rest H). destruct rest as [|e rest]; simpl; [done|].
  unfold SSTIterator_Key, SSTIterator_Value, SSTIterator_IsTombstone.
  rewrite !(current_repr _ _ it e rest H). rstep.
  destruct (Next_repr it e rest H) as (it' & -> & Hit'). rstep.
  rewrite (IH it' rest Hit') by (simpl in Hf; lia). rstep. by destruct e.
Qed.

Lemma SeekToFirst_repr it :
  it_reader it = r ->
  exists it', SSTIterator_SeekToFirst it = Ok it' /\ sit_repr it' (norm_entry <$> concat bs).
Proof.
  intros Hit. unfold SSTIterator_SeekToFirst. rewrite Hit, len_index_repr.
  assert (bs = [] \/ exists b post, bs = b :: post) as [Ebs|(b & post & Ebs)] by (destruct bs; eauto).
  - rewrite Ebs. eexists. split; [done|]. by constructor.
  - rewrite (proj2 (Z.eqb_neq _ _)) by (rewrite Ebs, len_cons; pose proof (len_nonneg post); lia).
    unfold load_or_invalid. change 0 with (Z.of_nat (length (@nil (list entry)))) at 1.
    erewrite (loadBlock_repr it [] b post) by done.
    destruct (block_cons b [] post Ebs) as (e & cur & ->). eexists. split; [done|].
    rewrite Ebs. apply (sit_enter [] _ post). done.
Qed.

(** The linear scan of [Seek]. *)
Lemma first_geq_app target (lo : list entry) hi i :
  Forall (fun e => e_key e <ₖ target) lo -> Forall (fun e => target ≤ₖ e_key e) hi ->
  first_geq (lo ++ hi) target i = match hi with [] => None | _ :: _ => Some (i + len lo) end.
Proof using.
  intros Hlo Hhi. revert i. induction Hlo as [|e lo He Hlo IH]; intros i; simpl.
  - destruct Hhi as [|e hi He]; simpl; [done|]. rewrite Z.add_0_r. unfold ble in He.
    rewrite bcompare_antisym in He. by destruct (bcompare (e_key e) target).
  - rewrite He, IH, len_cons. destruct hi; [done|]. f_equal. lia.
Qed.

(** Splitting sorted entries at a key. *)
Lemma esorted_split target (es : list entry) :
  esorted es -> exists lo hi, es = lo ++ hi /\ Forall (fun e => e_key e <ₖ target) lo /\
    Forall (fun e => target ≤ₖ e_key e) hi.
Proof using.
  induction es as [|e es IH]; intros Hs; [by exists [], []|].
  pose proof (proj1 (esorted_app [e] es) Hs) as (_ & Hs' & Hlt). kcase (e_key e) target.
  - destruct (IH Hs') as (lo & hi & -> & Hlo & Hhi). exists (e :: lo), hi. auto.
  - exists [], (e :: es). split_and!; [done..|]. constructor; [done|]. apply Forall_forall.
    intros e' He'. eapply blt_ble, ble_lt_trans; [done|]. apply Hlt; [left|done].
Qed.

Lemma Seek_repr it target :
  it_reader it = r -> esorted (concat bs) ->
  exists it' lo hi, SSTIterator_Seek target it = Ok it' /\ concat bs = lo ++ hi /\
    Forall (fun e => e_key e <ₖ target) lo /\ Forall (fun e => target ≤ₖ e_key e) hi /\
    sit_repr it' (norm_entry <$> hi).
Proof.
  intros Hit Hs. unfold SSTIterator_Seek. rewrite Hit, len_index_repr.
  destruct (Z.eqb_spec (len bs) 0) as [Hz|Hz].
  { apply len_0_nil in Hz. rewrite Hz. eexists _, [], []. split_and!; try done. by constructor. }
  rewrite (rr_index _ _ Hr).
  destruct (search_index_blocks bs target (rr_nonempty _ _ Hr) Hs)
    as [[-> Hall]|(pre & b & post & Heq & -> & _ & Hk & Hpre)]; rstep.
  { eexists _, (concat bs), []. rewrite app_nil_r. split_and!; try done. by constructor. }
  rewrite (proj2 (Z.eqb_neq _ _)) by lia. unfold load_or_invalid. erewrite loadBlock_repr by done.
  cbn [it_entries it_reader it_blockIdx]. assert (concat bs = concat pre ++ b ++ concat post) as Hcc.
  { rewrite Heq, concat_app. done. }
  rewrite Hcc in *. apply esorted_app in Hs as (_ & (Hb & _ & Hpost)%esorted_app & _).
  destruct (esorted_split target b Hb) as (lo & hi & Hbe & Hlo & Hhi).
  assert (first_geq (norm_entry <$> b) target 0 =
    match norm_entry <$> hi with [] => None | _ :: _ => Some (0 + len (norm_entry <$> lo)) end) as ->.
  { rewrite Hbe, fmap_app, first_geq_app; [done|by apply Forall_fmap..]. }
  destruct (last_key_in b) as (el & Hel & Hlk).
  { destruct (block_cons b pre post Heq) as (? & ? & ->). done. }
  destruct hi as [|e cur].
  { exfalso. rewrite Hbe, app_nil_r in Hel. rewrite Forall_forall in Hlo. apply Hlo in Hel.
    rewrite Hlk in Hel. korder. }
  simpl. eexists _, (concat pre ++ lo), ((e :: cur) ++ concat post). split_and!; [done| | | |].
  - by rewrite Hbe, <- !app_assoc.
  - by apply Forall_app_2.
  - apply Forall_app_2; [done|]. apply Forall_forall. intros e' He'.
    apply blt_ble. apply (ble_lt_trans _ (last_key b)); [done|]. rewrite <- Hlk. by apply Hpost.
  - apply (sit_at _ pre lo e cur post); simpl; try done.
    + by rewrite <- Hbe.
    + by rewrite Hbe.
    + unfold len. by rewrite length_fmap.
Qed.
End repr.

(** ** Properties *)

(** C28.  Iterating over a table.  On a table that was written and opened
    again, an iterator from [SeekToFirst] produces all entries in key order,
    and one from [Seek target] produces exactly the entries whose key is not
    below [target]; neither panics, and the number of entries plus one bounds
    the calls of [Next]. *)
Theorem sstable_iterator_enumerates :
  forall (plan : option (list fault)) (bsz : Z) (es : list entry) (f : File) (n : nat) (target : bytes),
  esorted es -> table_fits es -> write_table plan bsz es = Ok f ->
  exists r it it', OpenReader (Ok (contents (crash n f))) = Ok r /\
    SSTIterator_SeekToFirst (Reader_NewIterator r) = Ok it /\
    sit_drain (S (length es)) it = Ok (norm_entry <$> es) /\
    SSTIterator_Seek target (Reader_NewIterator r) = Ok it' /\
    sit_drain (S (length es)) it' = Ok (norm_entry <$> filter (fun e => target ≤ₖ e_key e) es).
Proof.
  intros plan bsz es f n target Hs Hfit Hw.
  destruct (write_open _ _ _ _ n Hfit Hw) as (r & bs & Hr & Hrepr & <-).
  destruct (SeekToFirst_repr r bs Hrepr (Reader_NewIterator r)) as (it & Hit & Hrit); [done|].
  destruct (Seek_repr r bs Hrepr (Reader_NewIterator r) target) as (it' & lo & hi & Hit' & Hcc & Hlo & Hhi & Hrit'); [done..|].
  exists r, it, it'. split_and!; try done.
  - apply (drain_repr r bs Hrepr); [done|]. rewrite length_fmap. lia.
  - assert (filter (fun e => target ≤ₖ e_key e) (concat bs) = hi) as ->.
    { rewrite Hcc, filter_app, (filter_keep _ hi) by done. rewrite (filter_drop _ lo); [done|].
      eapply Forall_impl; [exact Hlo|]. intros e He. by apply blt_not_ble in He. }
    apply (drain_repr r bs Hrepr); [done|]. rewrite Hcc, length_fmap, length_app. lia.
Qed.

Lemma sstable_iterator_enumerates_witness :
  exists f r it it', write_table (Some []) 12 sample_entries = Ok f /\
    OpenReader (Ok (contents (crash 0 f))) = Ok r /\
    SSTIterator_SeekToFirst (Reader_NewIterator r) = Ok it /\
    sit_drain 4 it = Ok sample_entries /\
    SSTIterator_Seek [x62] (Reader_NewIterator r) = Ok it' /\
    sit_drain 4 it' = Ok (drop 1 sample_entries).
Proof.
  destruct (write_table_healthy 12 sample_entries) as [f Hf]; [vm_compute; reflexivity|].
  destruct (sstable_iterator_enumerates (Some []) 12 sample_entries f 0 [x62] sample_sorted)
    as (r & it & it' & H1 & H2 & H3 & H4 & H5).
  - vm_compute. reflexivity.
  - exact Hf.
  - exists f, r, it, it'. repeat split; [exact Hf|exact H1|exact H2|exact H3|exact H4|exact H5].
Defined.
