(* ===== verification/GoHeap.v ===== *)
(** * container/heap

    The four entry points of Go's binary heap on a slice, written as in the
    standard library ([up], [down], [Init], [Push], [Pop]) over a [less] that
    may panic.  For a [less] that decides a total preorder on the elements,
    each preserves the heap order and permutes the elements, and [Pop] returns
    a least one. *)

From S2P Require Import Prelude.

Section heap.
Context {A : Type} (less : A -> A -> res bool).

Definition less_at (l : list A) (i j : nat) : res bool :=
  match l !! i, l !! j with
  | Some x, Some y => less x y
  | _, _ => Panic
  end.

Definition swap (l : list A) (i j : nat) : res (list A) :=
  match l !! i, l !! j with
  | Some x, Some y => Ok (<[i := y]> (<[j := x]> l))
  | _, _ => Panic
  end.

(** [i := (j - 1) / 2] truncates toward zero, so the root is its own parent. *)
Definition parent (j : nat) : nat := Nat.div2 (j - 1).

Fixpoint heap_up (fuel : nat) (l : list A) (j : nat) : res (list A) :=
  match fuel with
  | O => OutOfFuel
  | S fuel =>
      let i := parent j in
      if bool_decide (i = j) then Ok l else
      b ← less_at l j i;
      if negb b then Ok l else
      l ← swap l i j;
      heap_up fuel l i
  end.

Fixpoint heap_down (fuel : nat) (l : list A) (i n : nat) : res (list A) :=
  match fuel with
  | O => OutOfFuel
  | S fuel =>
      let j1 := (2 * i + 1)%nat in
      if (n <=? j1)%nat then Ok l else
      let j2 := S j1 in
      right_less ← (if (j2 <? n)%nat then less_at l j2 j1 else Ok false);
      let j := if (right_less : bool) then j2 else j1 in
      b ← less_at l j i;
      if negb b then Ok l else
      l ← swap l i j;
      heap_down fuel l j n
  end.

(** The loop of [Init] for the indices below [k], downwards. *)
Fixpoint heap_init_loop (k : nat) (l : list A) : res (list A) :=
  match k with
  | O => Ok l
  | S k => l ← heap_down (S (length l)) l k (length l); heap_init_loop k l
  end.

Definition heap_Init (l : list A) : res (list A) := heap_init_loop (Nat.div2 (length l)) l.

(** The methods a slice needs for [heap.Push] and [heap.Pop]. *)
Definition slice_Push (x : A) (l : list A) : list A := l ++ [x].
Definition slice_Pop (l : list A) : res (A * list A) :=
  let n := length l in
  match n, l !! (n - 1)%nat with
  | S _, Some item => Ok (item, take (n - 1) l)
  | _, _ => Panic
  end.

Definition heap_Push (x : A) (l : list A) : res (list A) :=
  let l := slice_Push x l in heap_up (S (length l)) l (length l - 1).

Definition heap_Pop (l : list A) : res (A * list A) :=
  let n := (length l - 1)%nat in
  l ← swap l 0 n;
  l ← heap_down (S n) l 0 n;
  slice_Pop l.

(** ** Correctness *)

Context (le : A -> A -> Prop).

(** [le] is a total preorder on the elements of [l] that [less] decides. *)
Record le_ok (l : list A) : Prop := {
  lo_less : forall x y, x ∈ l -> y ∈ l -> exists b, less x y = Ok b /\ (if b then ~ le y x else le y x);
  lo_total : forall x y, x ∈ l -> y ∈ l -> le x y \/ le y x;
  lo_trans : forall x y z, x ∈ l -> y ∈ l -> z ∈ l -> le x y -> le y z -> le x z
}.

(** Between an element and its parent, below [n] and for parents from [s] on. *)
Definition ordered_from (s n : nat) (l : list A) : Prop :=
  forall j x y, (0 < j < n)%nat -> (s <= parent j)%nat ->
  l !! parent j = Some x -> l !! j = Some y -> le x y.

Definition heap_ordered (l : list A) : Prop := ordered_from 0 (length l) l.

Lemma parent_lt j : (0 < j)%nat -> (parent j < j)%nat.
Proof using. clear less le. intros. unfold parent. pose proof (Nat.div2_decr (j - 1) (j - 1)). lia. Qed.

Lemma parent_children j i : (0 < j)%nat -> parent j = i <-> j = (2 * i + 1)%nat \/ j = (2 * i + 2)%nat.
Proof using. clear less le.
  intros Hj. unfold parent. rewrite Nat.div2_div. pose proof (Nat.div_mod (j - 1) 2).
  pose proof (Nat.mod_upper_bound (j - 1) 2). split; intros; lia.
Qed.

Lemma swap_ok l i j :
  (i < length l)%nat -> (j < length l)%nat ->
  exists l' x y, swap l i j = Ok l' /\ l !! i = Some x /\ l !! j = Some y /\
    l' ≡ₚ l /\ length l' = length l /\
    (forall k, l' !! k = if decide (k = i) then Some y else if decide (k = j) then Some x else l !! k).
Proof using. clear less le.
  intros Hi Hj. destruct (lookup_lt_is_Some_2 l i Hi) as [x Hx], (lookup_lt_is_Some_2 l j Hj) as [y Hy].
  unfold swap. rewrite Hx, Hy. eexists _, x, y. split; [done|]. split_and!; try done.
  - by apply Permutation_insert_swap.
  - by rewrite !length_insert.
  - intros k. rewrite !list_lookup_insert, length_insert. repeat case_decide; naive_solver lia.
Qed.

Lemma le_ok_perm l l' : l' ≡ₚ l -> le_ok l -> le_ok l'.
Proof.
  intros Hp [H1 H2 H3]. split; intros *; rewrite !Hp; eauto.
Qed.

Lemma le_refl l x : le_ok l -> x ∈ l -> le x x.
Proof. intros H Hx. by destruct (lo_total _ H x x Hx Hx). Qed.

Lemma less_at_ok l i j :
  le_ok l -> (i < length l)%nat -> (j < length l)%nat ->
  exists x y b, less_at l i j = Ok b /\ l !! i = Some x /\ l !! j = Some y /\ (if b then ~ le y x else le y x).
Proof.
  intros Hok Hi Hj. destruct (lookup_lt_is_Some_2 l i Hi) as [x Hx], (lookup_lt_is_Some_2 l j Hj) as [y Hy].
  unfold less_at. rewrite Hx, Hy.
  destruct (lo_less _ Hok x y) as (b & Hb & Hbt); [by eapply list_elem_of_lookup_2..|]. by exists x, y, b.
Qed.

(** The smaller child of [i] below [n]. *)
Lemma min_child l i n :
  le_ok l -> (n <= length l)%nat -> (2 * i + 1 < n)%nat ->
  exists j y, (r ← (if (S (2 * i + 1) <? n)%nat then less_at l (S (2 * i + 1)) (2 * i + 1) else Ok false);
     Ok (if (r : bool) then S (2 * i + 1) else (2 * i + 1)%nat)) = Ok j /\
    parent j = i /\ (0 < j < n)%nat /\ l !! j = Some y /\
    forall c z, (0 < c < n)%nat -> parent c = i -> l !! c = Some z -> le y z.
Proof.
  intros Hok Hn Hj. set (j1 := (2 * i + 1)%nat) in *.
  assert (parent j1 = i) as Hp1 by (apply parent_children; lia).
  destruct (lookup_lt_is_Some_2 l j1 ltac:(lia)) as [y1 Hy1].
  assert (y1 ∈ l) as Hin1 by by eapply list_elem_of_lookup_2.
  destruct (Nat.ltb_spec (S j1) n) as [Hlt|Hge].
  - assert (parent (S j1) = i) as Hp2 by (apply parent_children; lia).
    destruct (less_at_ok l (S j1) j1 Hok) as (y2 & y1' & b & -> & Hy2 & Hy1' & Hb); [lia..|]. simplify_eq. rstep.
    assert (y2 ∈ l) as Hin2 by by eapply list_elem_of_lookup_2.
    destruct b.
    + exists (S j1), y2. split_and!; try done; [lia..|]. intros c z Hc Hpc Hz.
      apply parent_children in Hpc; [|lia]. destruct Hpc as [->|Hc2].
      * fold j1 in Hz. simplify_eq. by destruct (lo_total _ Hok y2 y1 Hin2 Hin1).
      * replace c with (S j1) in Hz by lia. simplify_eq. by apply (le_refl l).
    + exists j1, y1. split_and!; try done; [lia..|]. intros c z Hc Hpc Hz.
      apply parent_children in Hpc; [|lia]. destruct Hpc as [->|Hc2].
      * fold j1 in Hz. simplify_eq. by apply (le_refl l).
      * replace c with (S j1) in Hz by lia. by simplify_eq.
  - rstep. exists j1, y1. split_and!; try done; [lia..|]. intros c z Hc Hpc Hz.
    apply parent_children in Hpc; [|lia]. destruct Hpc as [->|Hc2]; [|lia].
    fold j1 in Hz. simplify_eq. by apply (le_refl l).
Qed.

Lemma heap_down_ok s n fuel l i :
  le_ok l -> (n <= length l)%nat -> (n - i < fuel)%nat ->
  (forall j x y, (0 < j < n)%nat -> (s <= parent j)%nat -> parent j <> i ->
    l !! parent j = Some x -> l !! j = Some y -> le x y) ->
  ((0 < i)%nat -> (s <= parent i)%nat -> forall c x y, (0 < c < n)%nat -> parent c = i ->
    l !! parent i = Some x -> l !! c = Some y -> le x y) ->
  exists l', heap_down fuel l i n = Ok l' /\ l' ≡ₚ l /\ ordered_from s n l' /\
    forall k, (n <= k)%nat -> l' !! k = l !! k.
Proof.
  revert l i. induction fuel as [|fuel IH]; intros l i Hok Hn Hf H1 H2; [lia|].
  cbn [heap_down]. destruct (Nat.leb_spec n (2 * i + 1)) as [Hge|Hlt].
  { exists l. split_and!; try done. intros j x y Hj Hs Hx Hy. apply (H1 j); try done.
    intros Hp. apply parent_children in Hp; lia. }
  destruct (min_child l i n Hok Hn Hlt) as (j & y & Hr & Hpj & Hj & Hy & Hmin).
  apply res_bind_Ok in Hr as (r & -> & Hr). 
  assert ((if (r : bool) then S (2 * i + 1) else (2 * i + 1)%nat) = j) as Hr' by (by injection Hr).
  cbn [mbind res_bind]. cbv zeta. rewrite Hr'. clear r Hr Hr'.
  pose proof (parent_lt j ltac:(lia)) as Hij. subst i.
  destruct (less_at_ok l j (parent j) Hok) as (y' & x & b & -> & Hy' & Hx & Hb); [lia..|].
  assert (y' = y) as -> by congruence. rstep.
  destruct b; cbn [negb].
  2: { exists l. split_and!; try done. intros c u v Hc Hs Hu Hv.
       destruct (decide (parent c = parent j)) as [Hp|Hp]; [|by apply (H1 c)].
       rewrite Hp in Hu. assert (u = x) as -> by congruence.
       apply (lo_trans _ Hok x y v); [by eapply list_elem_of_lookup_2..|done|by apply (Hmin c)]. }
  destruct (swap_ok l (parent j) j) as (l1 & x0 & y0 & -> & Hx0 & Hy0 & Hp & Hlen & Hl1); [lia..|].
  assert (x0 = x) as -> by congruence. assert (y0 = y) as -> by congruence. rstep.
  assert (le y x) as Hle.
  { destruct (lo_total _ Hok y x); [by eapply list_elem_of_lookup_2..|done|done]. }
  destruct (IH l1 j) as (l2 & -> & Hp2 & Hord & Hout).
  - by apply (le_ok_perm l).
  - lia.
  - lia.
  - intros c u v Hc Hs Hne. rewrite !Hl1. pose proof (parent_lt c ltac:(lia)).
    rewrite (decide_False (P := parent c = j)) by done. intros Hu Hv.
    destruct (decide (c = parent j)) as [->|Hci].
    + rewrite decide_False in Hu by lia. simplify_eq. by apply (H2 ltac:(lia) Hs j u v).
    + destruct (decide (c = j)) as [->|Hcj]; [rewrite decide_True in Hu by done; by simplify_eq|].
      destruct (decide (parent c = parent j)) as [Hpc|Hpc]; simplify_eq.
      * by apply (Hmin c).
      * by apply (H1 c).
  - intros _ Hs c u v Hc Hpc. rewrite !Hl1, decide_True by done. pose proof (parent_lt c ltac:(lia)).
    rewrite !decide_False by lia. intros Hu Hv.
    assert (u = y) as -> by congruence. apply (H1 c); [lia|lia|lia|by rewrite Hpc|done].
  - exists l2. split_and!; [done|by rewrite Hp2|done|]. intros k Hk.
    rewrite Hout, Hl1, !decide_False by lia. done.
Qed.

Lemma heap_up_ok fuel l j :
  le_ok l -> (j < length l)%nat -> (j < fuel)%nat ->
  (forall c x y, (0 < c < length l)%nat -> c <> j ->
    l !! parent c = Some x -> l !! c = Some y -> le x y) ->
  ((0 < j)%nat -> forall c x y, (0 < c < length l)%nat -> parent c = j ->
    l !! parent j = Some x -> l !! c = Some y -> le x y) ->
  exists l', heap_up fuel l j = Ok l' /\ l' ≡ₚ l /\ heap_ordered l'.
Proof.
  revert l j. induction fuel as [|fuel IH]; intros l j Hok Hj Hf H1 H2; [lia|].
  cbn [heap_up]. case_bool_decide as Hroot.
  { exists l. split_and!; try done. intros c x y Hc _. apply (H1 c); [done|].
    intros ->. pose proof (parent_lt j ltac:(lia)). lia. }
  assert (0 < j)%nat as Hpos by (destruct j; [done|lia]). pose proof (parent_lt j Hpos) as Hlt.
  destruct (less_at_ok l j (parent j) Hok) as (y & x & b & -> & Hy & Hx & Hb); [lia..|]. rstep.
  destruct b; cbn [negb].
  2: { exists l. split_and!; try done. intros c u v Hc _ Hu Hv.
       destruct (decide (c = j)) as [->|]; [by simplify_eq|by apply (H1 c)]. }
  destruct (swap_ok l (parent j) j) as (l1 & x0 & y0 & -> & Hx0 & Hy0 & Hp & Hlen & Hl1); [lia..|].
  assert (x0 = x) as -> by congruence. assert (y0 = y) as -> by congruence. rstep.
  assert (y ∈ l /\ x ∈ l) as [Hiny Hinx] by (split; by eapply list_elem_of_lookup_2).
  assert (le y x) as Hle by by destruct (lo_total _ Hok y x).
  destruct (IH l1 (parent j)) as (l2 & -> & Hp2 & Hord).
  - by apply (le_ok_perm l).
  - lia.
  - lia.
  - rewrite Hlen. intros c u v Hc Hne. rewrite !Hl1. rewrite (decide_False (P := c = parent j)) by done.
    intros Hu Hv. destruct (decide (c = j)) as [->|Hcj].
    { rewrite decide_True in Hu by done. by simplify_eq. }
    destruct (decide (parent c = parent j)) as [Hpc|Hpc]; simplify_eq.
    + apply (lo_trans _ Hok u x v); try done; [by eapply list_elem_of_lookup_2|].
      apply (H1 c); try done. by rewrite Hpc.
    + destruct (decide (parent c = j)) as [Hpcj|Hpcj]; simplify_eq; [by apply (H2 Hpos c)|by apply (H1 c)].
  - rewrite Hlen. intros Hpp c u v Hc Hpc. rewrite !Hl1. pose proof (parent_lt (parent j) Hpp).
    rewrite !(decide_False (P := parent (parent j) = _)) by lia.
    pose proof (parent_lt c ltac:(lia)). rewrite (decide_False (P := c = parent j)) by lia. intros Hu Hv.
    assert (le u x) as Hux by (apply (H1 (parent j)); [lia|lia|done|done]).
    destruct (decide (c = j)) as [->|Hcj]; simplify_eq; [done|].
    apply (lo_trans _ Hok u x v); try done; [by eapply list_elem_of_lookup_2..|].
    apply (H1 c); try done. by rewrite Hpc.
  - exists l2. split_and!; [done|by rewrite Hp2|done].
Qed.

(** The root of a heap is a least element. *)
Lemma heap_root l x j y :
  le_ok l -> heap_ordered l -> l !! 0%nat = Some x -> l !! j = Some y -> le x y.
Proof.
  intros Hok Hh Hx. revert y. induction j as [j IH] using lt_wf_ind. intros y Hy.
  destruct (decide (j = 0)%nat) as [->|Hj]; [simplify_eq; by apply (le_refl l); [|by eapply list_elem_of_lookup_2]|].
  pose proof (parent_lt j ltac:(lia)) as Hlt. pose proof (lookup_lt_Some _ _ _ Hy).
  destruct (lookup_lt_is_Some_2 l (parent j)) as [z Hz]; [lia|].
  apply (lo_trans _ Hok x z y); [by eapply list_elem_of_lookup_2..|by apply (IH (parent j))|].
  apply (Hh j); [lia|lia|done|done].
Qed.

Lemma heap_init_loop_ok k l :
  le_ok l -> ordered_from k (length l) l ->
  exists l', heap_init_loop k l = Ok l' /\ l' ≡ₚ l /\ heap_ordered l'.
Proof.
  revert l. induction k as [|k IH]; intros l Hok Hord; cbn [heap_init_loop]; [by exists l|].
  destruct (heap_down_ok k (length l) (S (length l)) l k) as (l1 & -> & Hp & Hord1 & _); [done|lia|lia| | |].
  - intros j x y Hj Hs Hne. apply (Hord j); [done|lia].
  - intros Hk Hs. pose proof (parent_lt k Hk). lia.
  - rstep. destruct (IH l1) as (l2 & -> & Hp2 & Hh2).
    + by apply (le_ok_perm l).
    + by rewrite (Permutation_length Hp).
    + exists l2. split_and!; [done|by rewrite Hp2|done].
Qed.

Lemma heap_Init_ok l :
  le_ok l -> exists l', heap_Init l = Ok l' /\ l' ≡ₚ l /\ heap_ordered l'.
Proof.
  intros Hok. apply heap_init_loop_ok; [done|]. intros j x y Hj Hs. exfalso.
  assert (parent j = parent j) as Hp by done. apply parent_children in Hp; [|lia].
  rewrite Nat.div2_div in Hs. pose proof (Nat.div_mod (length l) 2). pose proof (Nat.mod_upper_bound (length l) 2). lia.
Qed.

Lemma heap_Push_ok x l :
  le_ok (l ++ [x]) -> heap_ordered l ->
  exists l', heap_Push x l = Ok l' /\ l' ≡ₚ x :: l /\ heap_ordered l'.
Proof.
  intros Hok Hh. unfold heap_Push, slice_Push. assert (length (l ++ [x]) = S (length l)) as Hlen by (rewrite length_app; simpl; lia).
  destruct (heap_up_ok (S (length (l ++ [x]))) (l ++ [x]) (length (l ++ [x]) - 1)) as (l' & E & Hp & Hh');
    [done|lia|lia| | |].
  - rewrite Hlen. intros c u v Hc Hne. pose proof (parent_lt c ltac:(lia)).
    rewrite !lookup_app_l by lia. apply (Hh c); lia.
  - rewrite Hlen. intros _ c u v Hc Hpc. pose proof (parent_lt c ltac:(lia)). lia.
  - exists l'. split_and!; [done| |done]. rewrite Hp. symmetry. apply Permutation_cons_append.
Qed.

Lemma heap_Pop_ok l x :
  le_ok l -> heap_ordered l -> l !! 0%nat = Some x ->
  exists l', heap_Pop l = Ok (x, l') /\ l ≡ₚ x :: l' /\ heap_ordered l' /\ Forall (le x) l'.
Proof.
  intros Hok Hh Hx. pose proof (lookup_lt_Some _ _ _ Hx) as Hlen. unfold heap_Pop.
  set (n := (length l - 1)%nat).
  destruct (swap_ok l 0 n) as (l1 & x' & y & -> & Hx' & Hy & Hp & Hl & Hl1); [lia|lia|].
  assert (x' = x) as -> by congruence. rstep.
  destruct (heap_down_ok 0 n (S n) l1 0) as (l2 & -> & Hp2 & Hord & Hout); [by apply (le_ok_perm l)|lia|lia| |lia|].
  { intros j u v Hj _ Hne. rewrite !Hl1. pose proof (parent_lt j ltac:(lia)).
    rewrite !decide_False by lia. apply (Hh j); lia. }
  rstep. exists (take n l2). assert (l2 !! n = Some x) as Hn.
  { rewrite Hout, Hl1 by lia. destruct (decide (n = 0)%nat) as [E|]; [congruence|]. by rewrite decide_True. }
  assert (length l2 = S n) as Hl2 by (rewrite (Permutation_length Hp2); lia).
  assert (slice_Pop l2 = Ok (x, take n l2)) as ->.
  { unfold slice_Pop. rewrite Hl2. replace (S n - 1)%nat with n by lia. by rewrite Hn. }
  assert (l ≡ₚ x :: take n l2) as Hperm.
  { rewrite <- Hp, <- Hp2. rewrite <- (take_drop n l2) at 1. rewrite (drop_S _ _ _ Hn), drop_ge by lia.
    symmetry. apply Permutation_cons_append. }
  split_and!; [done|done| |].
  - intros j u v Hj _. rewrite length_take, Hl2 in Hj. pose proof (parent_lt j ltac:(lia)).
    rewrite !lookup_take_lt by lia. apply (Hord j); lia.
  - apply Forall_forall. intros z Hz. assert (z ∈ l) as Hzl by (rewrite Hperm; by right).
    apply list_elem_of_lookup in Hzl as [j Hj]. by eapply heap_root.
Qed.
End heap.

(** The heap order only looks at the elements of the heap. *)
Lemma heap_ordered_ext {A} (le le' : A -> A -> Prop) l :
  (forall x y, x ∈ l -> y ∈ l -> le x y -> le' x y) -> heap_ordered le l -> heap_ordered le' l.
Proof.
  intros Hle Hh j x y Hj Hs Hx Hy. apply Hle; [by eapply list_elem_of_lookup_2..|]. by eapply Hh.
Qed.
