(* ===== verification/MergeIterator.v ===== *)
(** * engine/merge_iterator.go: merging sorted iterators

    The [Iterator] interface is a class of operations; [IteratorLaws] is what
    an implementation promises its client: an iterator always stands before a
    list of sorted entries, and the operations act on that list.  The memtable
    and table iterators are shown to be instances, and the merge iterator is
    verified against the interface alone.

    Iterators are objects shared between [iters], the heap and [cur]; the
    model keeps them in a store and lets [heapItem] hold a reference. *)

From S2P Require Import Prelude GoStd SkipList Memtable Bloom SSTWriter SSTReader SSTIterator GoHeap.

Class Iterator (It : Type) := {
  SeekToFirst : It -> res It;
  Seek : bytes -> It -> res It;
  Next : It -> res It;
  Valid : It -> bool;
  Key : It -> res bytes;
  Value : It -> res (option bytes);
  IsTombstone : It -> res bool
}.

(** ** The adapters *)

(** [memtableIteratorAdapter]: an iterator and the list it walks. *)
Record MemIter := mkMemIter { mit_sl : SkipList; mit_it : SLIterator }.

Definition memiter_set (a : MemIter) (it : res SLIterator) : res MemIter :=
  it ← it; Ok (mkMemIter (mit_sl a) it).

#[global] Instance MemIter_Iterator : Iterator MemIter := {
  SeekToFirst a := memiter_set a (SLIterator_SeekToFirst (mit_sl a));
  Seek k a := memiter_set a (SLIterator_Seek (mit_sl a) k);
  Next a := memiter_set a (SLIterator_Next (mit_sl a) (mit_it a));
  Valid a := SLIterator_Valid (mit_it a);
  Key a := SLIterator_Key (mit_sl a) (mit_it a);
  Value a := SLIterator_Value (mit_sl a) (mit_it a);
  IsTombstone a := SLIterator_IsTombstone (mit_sl a) (mit_it a)
}.

#[global] Instance SSTIterator_Iterator : Iterator SSTIterator := {
  SeekToFirst := SSTIterator_SeekToFirst;
  Seek := SSTIterator_Seek;
  Next := SSTIterator_Next;
  Valid := SSTIterator_Valid;
  Key it := k ← SSTIterator_Key it; Ok (default [] k);
  Value := SSTIterator_Value;
  IsTombstone := SSTIterator_IsTombstone
}.

(** The dynamic type of an interface value. *)
Inductive AnyIter :=
| memtableIteratorAdapter (a : MemIter)
| sstableIteratorAdapter (a : SSTIterator).

#[global] Instance AnyIter_Iterator : Iterator AnyIter := {
  SeekToFirst i :=
    match i with
    | memtableIteratorAdapter a => a ← SeekToFirst a; Ok (memtableIteratorAdapter a)
    | sstableIteratorAdapter a => a ← SeekToFirst a; Ok (sstableIteratorAdapter a)
    end;
  Seek k i :=
    match i with
    | memtableIteratorAdapter a => a ← Seek k a; Ok (memtableIteratorAdapter a)
    | sstableIteratorAdapter a => a ← Seek k a; Ok (sstableIteratorAdapter a)
    end;
  Next i :=
    match i with
    | memtableIteratorAdapter a => a ← Next a; Ok (memtableIteratorAdapter a)
    | sstableIteratorAdapter a => a ← Next a; Ok (sstableIteratorAdapter a)
    end;
  Valid i := match i with memtableIteratorAdapter a => Valid a | sstableIteratorAdapter a => Valid a end;
  Key i := match i with memtableIteratorAdapter a => Key a | sstableIteratorAdapter a => Key a end;
  Value i := match i with memtableIteratorAdapter a => Value a | sstableIteratorAdapter a => Value a end;
  IsTombstone i :=
    match i with memtableIteratorAdapter a => IsTombstone a | sstableIteratorAdapter a => IsTombstone a end
}.

(** ** The merge iterator *)

Record heapItem := mkItem {
  hi_iter : nat;
  hi_priority : Z
}.

Section merge.
Context {It : Type} `{Iterator It}.

Record MergeIterator := mkMerge {
  mi_store : list It;
  mi_iters : list heapItem;
  mi_h : list heapItem;
  mi_cur : option heapItem
}.

Definition iter_at (store : list It) (item : heapItem) : res It :=
  match store !! hi_iter item with Some it => Ok it | None => Panic end.

Definition item_key (store : list It) (item : heapItem) : res bytes :=
  it ← iter_at store item; Key it.

Definition mergeHeap_Less (store : list It) (a b : heapItem) : res bool :=
  ka ← item_key store a;
  kb ← item_key store b;
  match bcompare ka kb with
  | Lt => Ok true
  | Gt => Ok false
  | Eq => Ok (hi_priority a <? hi_priority b)
  end.

(** [items[i] = heapItem{iter: iters[i], priority: priorities[i]}] from [i] on. *)
Fixpoint new_items (i : nat) (n : nat) (priorities : list Z) : res (list heapItem) :=
  match n with
  | O => Ok []
  | S n =>
      p ← index priorities (Z.of_nat i);
      items ← new_items (S i) n priorities;
      Ok (mkItem i p :: items)
  end.

Definition NewMergeIterator (iters : list It) (priorities : list Z) : res MergeIterator :=
  items ← new_items 0 (length iters) priorities;
  Ok (mkMerge iters items [] None).

Fixpoint valid_items (store : list It) (items : list heapItem) : res (list heapItem) :=
  match items with
  | [] => Ok []
  | item :: items =>
      it ← iter_at store item;
      rest ← valid_items store items;
      Ok (if Valid it then item :: rest else rest)
  end.

Definition buildHeap (m : MergeIterator) : res MergeIterator :=
  h ← valid_items (mi_store m) (mi_iters m);
  h ← heap_Init (mergeHeap_Less (mi_store m)) h;
  Ok (mkMerge (mi_store m) (mi_iters m) h (mi_cur m)).

(** [x.iter.Next(); if x.iter.Valid() { heap.Push(&m.h, x) }] *)
Definition push_next (store : list It) (h : list heapItem) (item : heapItem)
    : res (list It * list heapItem) :=
  it ← iter_at store item;
  it ← Next it;
  let store := <[hi_iter item := it]> store in
  if Valid it then h ← heap_Push (mergeHeap_Less store) item h; Ok (store, h) else Ok (store, h).

(** The loop of [advance] that skips the duplicates of [winKey]. *)
Fixpoint dedup (fuel : nat) (store : list It) (h : list heapItem) (winKey : bytes)
    : res (list It * list heapItem) :=
  match fuel with
  | O => OutOfFuel
  | S fuel =>
      match h with
      | [] => Ok (store, h)
      | top :: _ =>
          k ← item_key store top;
          if beqb k winKey then
            ph ← heap_Pop (mergeHeap_Less store) h;
            sh ← push_next store ph.2 ph.1;
            dedup fuel sh.1 sh.2 winKey
          else Ok (store, h)
      end
  end.

Definition advance (m : MergeIterator) : res MergeIterator :=
  if len (mi_h m) =? 0 then Ok (mkMerge (mi_store m) (mi_iters m) (mi_h m) None) else
  ph ← heap_Pop (mergeHeap_Less (mi_store m)) (mi_h m);
  let '(winner, h) := ph in
  winKey ← item_key (mi_store m) winner;
  sh ← dedup (S (length (mi_h m))) (mi_store m) h winKey;
  Ok (mkMerge sh.1 (mi_iters m) sh.2 (Some winner)).

(** [for _, item := range m.iters { item.iter.op() }] *)
Fixpoint for_items (op : It -> res It) (items : list heapItem) (store : list It) : res (list It) :=
  match items with
  | [] => Ok store
  | item :: items =>
      it ← iter_at store item;
      it ← op it;
      for_items op items (<[hi_iter item := it]> store)
  end.

Definition seek_all (op : It -> res It) (m : MergeIterator) : res MergeIterator :=
  store ← for_items op (mi_iters m) (mi_store m);
  m ← buildHeap (mkMerge store (mi_iters m) (mi_h m) (mi_cur m));
  advance m.

Definition MergeIterator_SeekToFirst : MergeIterator -> res MergeIterator := seek_all SeekToFirst.
Definition MergeIterator_Seek (key : bytes) : MergeIterator -> res MergeIterator := seek_all (Seek key).

Definition MergeIterator_Next (m : MergeIterator) : res MergeIterator :=
  match mi_cur m with
  | None => Ok m
  | Some cur =>
      sh ← push_next (mi_store m) (mi_h m) cur;
      advance (mkMerge sh.1 (mi_iters m) sh.2 (mi_cur m))
  end.

Definition MergeIterator_Valid (m : MergeIterator) : bool := bool_decide (mi_cur m <> None).

Definition mi_current {A} (proj : It -> res A) (zero : A) (m : MergeIterator) : res A :=
  match mi_cur m with
  | None => Ok zero
  | Some cur => it ← iter_at (mi_store m) cur; proj it
  end.
Definition MergeIterator_Key : MergeIterator -> res bytes := mi_current Key [].
Definition MergeIterator_Value : MergeIterator -> res (option bytes) := mi_current Value None.
Definition MergeIterator_IsTombstone : MergeIterator -> res bool := mi_current IsTombstone false.

(** [for mi.Valid() { ...; mi.Next() }] *)
Fixpoint mi_drain (fuel : nat) (m : MergeIterator) : res (list entry) :=
  match fuel with
  | O => OutOfFuel
  | S fuel =>
      if MergeIterator_Valid m then
        k ← MergeIterator_Key m;
        v ← MergeIterator_Value m;
        t ← MergeIterator_IsTombstone m;
        m ← MergeIterator_Next m;
        es ← mi_drain fuel m;
        Ok (mkEntry k v t :: es)
      else Ok []
  end.
End merge.
Arguments MergeIterator It : clear implicits.

(** ** What an iterator promises *)

Class IteratorLaws (It : Type) `{Iterator It} := {
  (** [standing it all rest]: over the entries [all], at the first of [rest]. *)
  standing : It -> list entry -> list entry -> Prop;
  law_sorted : forall it all rest, standing it all rest -> esorted all /\ esorted rest;
  law_first : forall it all rest, standing it all rest ->
    exists it', SeekToFirst it = Ok it' /\ standing it' all all;
  law_seek : forall it all rest k, standing it all rest ->
    exists it', Seek k it = Ok it' /\ standing it' all (filter (fun e => k ≤ₖ e_key e) all);
  law_next : forall it all e rest, standing it all (e :: rest) ->
    exists it', Next it = Ok it' /\ standing it' all rest;
  law_valid : forall it all rest, standing it all rest -> Valid it = negb (bool_decide (rest = []));
  law_key : forall it all e rest, standing it all (e :: rest) -> Key it = Ok (e_key e);
  law_value : forall it all e rest, standing it all (e :: rest) -> Value it = Ok (e_value e);
  law_tombstone : forall it all e rest, standing it all (e :: rest) -> IsTombstone it = Ok (e_tombstone e)
}.

(** ** The adapters keep the promise *)

Definition mem_entry (kv : bytes * option bytes) : entry :=
  mkEntry kv.1 kv.2 (bool_decide (kv.2 = None)).

Lemma esorted_mem l : ksorted l <-> esorted (mem_entry <$> l).
Proof. unfold ksorted, esorted. by rewrite <- list_fmap_compose. Qed.

Lemma esorted_norm es : esorted (norm_entry <$> es) <-> esorted es.
Proof. unfold esorted. by rewrite <- list_fmap_compose. Qed.

Lemma filter_from_key k l :
  ksorted l -> filter (fun e => k ≤ₖ e_key e) (mem_entry <$> l) = mem_entry <$> from_key k l.
Proof.
  intros Hs. destruct (from_key_split k l Hs) as (lo & Hl & Hlo & Hhi). rewrite Hl at 1.
  rewrite fmap_app, filter_app, filter_drop, (filter_keep _ (mem_entry <$> from_key k l)); [done|..].
  - apply Forall_fmap. eapply Forall_impl; [exact Hhi|]. done.
  - apply Forall_fmap. eapply Forall_impl; [exact Hlo|]. simpl. intros e He. by apply blt_not_ble in He.
Qed.

Definition mem_standing (a : MemIter) (all rest : list entry) : Prop :=
  exists l r, sl_repr (mit_sl a) l /\ it_repr (mit_sl a) (mit_it a) r /\
    all = mem_entry <$> l /\ rest = mem_entry <$> r.

Lemma it_repr_sorted sl it r : it_repr sl it r -> ksorted r.
Proof.
  intros (order & d & todo & Hwf & -> & _ & ->).
  assert (sl_repr sl (entries_of (sl_nodes sl) (d ++ todo))) as Hr by by eexists.
  apply sl_repr_sorted in Hr. rewrite entries_of_app in Hr. by apply ksorted_app in Hr as (_ & Hr & _).
Qed.

#[global] Program Instance MemIter_laws : IteratorLaws MemIter := {| standing := mem_standing |}.
Next Obligation.
  intros a all rest (l & r & Hl & Hr & -> & ->). split; apply esorted_mem.
  - by eapply sl_repr_sorted.
  - by eapply it_repr_sorted.
Qed.
Next Obligation.
  intros [sl it] all rest (l & r & Hl & _ & -> & _). simpl in *.
  destruct (SLIterator_SeekToFirst_spec sl l Hl) as (it' & -> & Hit'). eexists. split; [done|]. by exists l, l.
Qed.
Next Obligation.
  intros [sl it] all rest k (l & r & Hl & _ & -> & _). simpl in *.
  destruct (SLIterator_Seek_spec sl l k Hl) as (it' & -> & Hit'). eexists. split; [done|].
  exists l, (from_key k l). split_and!; try done. apply filter_from_key. by eapply sl_repr_sorted.
Qed.
Next Obligation.
  intros [sl it] all e rest (l & [|kv r] & Hl & Hr & -> & Heq); simplify_eq/=.
  destruct (SLIterator_Next_spec sl it _ Hr) as (it' & -> & Hit'). eexists. split; [done|]. by exists l, r.
Qed.
Next Obligation.
  intros [sl it] all rest (l & r & _ & Hr & _ & ->). simpl in *.
  destruct (SLIterator_read_spec _ _ _ Hr) as (-> & _). by destruct r.
Qed.
Next Obligation.
  intros [sl it] all e rest (l & [|kv r] & _ & Hr & _ & Heq); simplify_eq/=.
  by destruct (SLIterator_read_spec _ _ _ Hr) as (_ & -> & _).
Qed.
Next Obligation.
  intros [sl it] all e rest (l & [|kv r] & _ & Hr & _ & Heq); simplify_eq/=.
  by destruct (SLIterator_read_spec _ _ _ Hr) as (_ & _ & -> & _).
Qed.
Next Obligation.
  intros [sl it] all e rest (l & [|kv r] & _ & Hr & _ & Heq); simplify_eq/=.
  by destruct (SLIterator_read_spec _ _ _ Hr) as (_ & _ & _ & ->).
Qed.

Definition sst_standing (it : SSTIterator) (all rest : list entry) : Prop :=
  exists bs, reader_repr (it_reader it) bs /\ esorted (concat bs) /\
    sit_repr (it_reader it) bs it rest /\ all = norm_entry <$> concat bs.

Lemma sit_repr_reader r bs it rest : sit_repr r bs it rest -> it_reader it = r.
Proof. by destruct 1. Qed.

Lemma sst_standing_intro r bs it rest :
  reader_repr r bs -> esorted (concat bs) -> sit_repr r bs it rest ->
  sst_standing it (norm_entry <$> concat bs) rest.
Proof. intros Hr Hs Hit. exists bs. by rewrite (sit_repr_reader _ _ _ _ Hit). Qed.

#[global] Program Instance SSTIterator_laws : IteratorLaws SSTIterator := {| standing := sst_standing |}.
Next Obligation.
  intros it all rest (bs & _ & Hs & Hit & ->). rewrite esorted_norm. split; [done|].
  destruct Hit as [|pre d e cur post _ _ Heq]; [constructor|]. rewrite esorted_norm.
  rewrite Heq, concat_app in Hs. simpl in Hs. rewrite <- app_assoc in Hs.
  apply esorted_app in Hs as (_ & (_ & Hs & _)%esorted_app & _). done.
Qed.
Next Obligation.
  intros it all rest (bs & Hr & Hs & _ & ->).
  destruct (SeekToFirst_repr _ bs Hr it) as (it' & ? & ?); [done|]. exists it'.
  split; [done|]. by eapply sst_standing_intro.
Qed.
Next Obligation.
  intros it all rest k (bs & Hr & Hs & _ & ->).
  destruct (Seek_repr _ bs Hr it k) as (it' & lo & hi & Hit & Hcc & Hlo & Hhi & Hrep); [done..|]. exists it'.
  split; [done|]. assert (filter (fun e => k ≤ₖ e_key e) (norm_entry <$> concat bs) = norm_entry <$> hi) as ->.
  { rewrite Hcc, fmap_app, filter_app, filter_drop, (filter_keep _ (norm_entry <$> hi)); [done|..];
      apply Forall_fmap; [done|]. eapply Forall_impl; [exact Hlo|]. simpl. intros e He. by apply blt_not_ble in He. }
  by eapply sst_standing_intro.
Qed.
Next Obligation.
  intros it all e rest (bs & Hr & Hs & Hit & ->).
  destruct (Next_repr _ bs Hr it e rest Hit) as (it' & ? & ?). exists it'.
  split; [done|]. by eapply sst_standing_intro.
Qed.
Next Obligation. intros it all rest (bs & Hr & Hs & Hit & ->). by eapply valid_repr. Qed.
Next Obligation.
  intros it all e rest (bs & Hr & Hs & Hit & ->). simpl. unfold SSTIterator_Key.
  by rewrite (current_repr _ bs _ _ it e rest Hit).
Qed.
Next Obligation. intros it all e rest (bs & Hr & Hs & Hit & ->). by apply (current_repr (it_reader it) bs e_value _ it e rest). Qed.
Next Obligation. intros it all e rest (bs & Hr & Hs & Hit & ->). by apply (current_repr (it_reader it) bs e_tombstone _ it e rest). Qed.

Definition any_standing (i : AnyIter) : list entry -> list entry -> Prop :=
  match i with
  | memtableIteratorAdapter a => standing a
  | sstableIteratorAdapter a => standing a
  end.

#[global] Program Instance AnyIter_laws : IteratorLaws AnyIter := {| standing := any_standing |}.
Next Obligation. intros [a|a] all rest; apply law_sorted. Qed.
Next Obligation.
  intros [a|a] all rest Ha; destruct (law_first _ _ _ Ha) as (a' & E & Ha'); simpl in *; rewrite E; eauto.
Qed.
Next Obligation.
  intros [a|a] all rest k Ha; destruct (law_seek _ _ _ k Ha) as (a' & E & Ha'); simpl in *; rewrite E; eauto.
Qed.
Next Obligation.
  intros [a|a] all e rest Ha; destruct (law_next _ _ _ _ Ha) as (a' & E & Ha'); simpl in *; rewrite E; eauto.
Qed.
Next Obligation. intros [a|a] all rest Ha; by apply (law_valid _ _ _ Ha). Qed.
Next Obligation. intros [a|a] all e rest Ha; by apply (law_key _ _ _ _ Ha). Qed.
Next Obligation. intros [a|a] all e rest Ha; by apply (law_value _ _ _ _ Ha). Qed.
Next Obligation. intros [a|a] all e rest Ha; by apply (law_tombstone _ _ _ _ Ha). Qed.

(** ** The heap of live iterators *)

Section merging.
Context {It : Type} `{IteratorLaws It}.

Definition remaining (it : It) (rest : list entry) : Prop := exists all, standing it all rest.

(** [R] lists the remaining entries of each iterator of the store. *)
Definition hkey (R : list (list entry)) (a : heapItem) : bytes :=
  match R !! hi_iter a with Some (e :: _) => e_key e | _ => [] end.

Definition item_le (R : list (list entry)) (a b : heapItem) : Prop :=
  hkey R a <ₖ hkey R b \/ (hkey R a = hkey R b /\ hi_priority a <= hi_priority b).

Definition live (R : list (list entry)) (a : heapItem) : Prop := exists e r, R !! hi_iter a = Some (e :: r).

Record hinv (store : list It) (R : list (list entry)) (h : list heapItem) : Prop := {
  hv_rem : Forall2 remaining store R;
  hv_live : forall a, a ∈ h -> live R a;
  hv_nodup : NoDup (hi_iter <$> h);
  hv_heap : heap_ordered (item_le R) h
}.

Lemma iter_at_rem store R a l :
  Forall2 remaining store R -> R !! hi_iter a = Some l ->
  exists it, iter_at store a = Ok it /\ store !! hi_iter a = Some it /\ remaining it l.
Proof.
  intros HR Hl. destruct (Forall2_lookup_r _ _ _ _ _ HR Hl) as (it & Hit & Hrem).
  exists it. unfold iter_at. by rewrite Hit.
Qed.

Lemma item_key_live store R a :
  Forall2 remaining store R -> live R a -> item_key store a = Ok (hkey R a).
Proof.
  intros HR (e & r & Ha). destruct (iter_at_rem _ _ _ _ HR Ha) as (it & E & _ & all & Hs).
  unfold item_key, hkey. rewrite E, Ha. rstep. by eapply law_key.
Qed.

Lemma item_le_ok store R l :
  Forall2 remaining store R -> (forall a, a ∈ l -> live R a) -> le_ok (mergeHeap_Less store) (item_le R) l.
Proof.
  intros HR Hl. split.
  - intros x y Hx Hy. unfold mergeHeap_Less.
    rewrite (item_key_live _ _ _ HR (Hl _ Hx)), (item_key_live _ _ _ HR (Hl _ Hy)). rstep.
    unfold item_le. destruct (bcompare (hkey R x) (hkey R y)) eqn:E; (eexists; split; [done|]).
    + apply bcompare_eq in E. rewrite E. destruct (Z.ltb_spec (hi_priority x) (hi_priority y)).
      * intros [Hlt|[_ ?]]; [by apply blt_irrefl in Hlt|lia].
      * right. split; [done|lia].
    + fold (blt (hkey R x) (hkey R y)) in E. intros [Hlt|[Heq _]]; [korder|]. rewrite Heq in E. korder.
    + left. unfold blt. by rewrite bcompare_antisym, E.
  - intros x y _ _. unfold item_le.
    destruct (blt_trichotomy (hkey R x) (hkey R y)) as [|[Heq|]]; auto.
    destruct (Z.le_ge_cases (hi_priority x) (hi_priority y)); auto.
  - unfold item_le. intros x y z _ _ _ [Hxy|[Hxy Hp]] [Hyz|[Hyz Hq]].
    + left. by eapply blt_trans.
    + left. by rewrite <- Hyz.
    + left. by rewrite Hxy.
    + right. split; [congruence|lia].
Qed.

(** A change of one iterator outside the heap. *)
Lemma hinv_update store R h i it l :
  hinv store R h -> i ∉ hi_iter <$> h -> remaining it l ->
  hinv (<[i := it]> store) (<[i := l]> R) h.
Proof.
  intros [H1 H2 H3 H4] Hi Hit.
  assert (forall a, a ∈ h -> (<[i := l]> R) !! hi_iter a = R !! hi_iter a) as Hsame.
  { intros a Ha. apply list_lookup_insert_ne. intros ->. apply Hi, list_elem_of_fmap. eauto. }
  split; try done.
  - by apply Forall2_insert.
  - intros a Ha. unfold live. rewrite Hsame by done. by apply H2.
  - eapply heap_ordered_ext; [|exact H4]. intros x y Hx Hy. unfold item_le, hkey. by rewrite !Hsame.
Qed.

Lemma hinv_pop store R h :
  hinv store R h -> h <> [] ->
  exists w h', heap_Pop (mergeHeap_Less store) h = Ok (w, h') /\ head h = Some w /\ h ≡ₚ w :: h' /\
    hinv store R h' /\ Forall (item_le R w) h'.
Proof.
  intros [H1 H2 H3 H4] Hne. destruct h as [|w t] eqn:Eh; [done|]. rewrite <- Eh in *.
  destruct (heap_Pop_ok (mergeHeap_Less store) (item_le R) h w) as (h' & E & Hp & Hh & Hf).
  - by apply item_le_ok.
  - done.
  - by rewrite Eh.
  - exists w, h'. split_and!; try done; [by rewrite Eh|]. split; try done.
    + intros a Ha. apply H2. rewrite Hp. by right.
    + rewrite Hp in H3. by apply NoDup_cons in H3 as [_ H3].
Qed.

(** Advancing an iterator that is not in the heap and putting it back. *)
Lemma push_next_ok store R h a e r :
  hinv store R h -> hi_iter a ∉ hi_iter <$> h -> R !! hi_iter a = Some (e :: r) ->
  exists store' h', push_next store h a = Ok (store', h') /\
    hinv store' (<[hi_iter a := r]> R) h' /\ h' ≡ₚ (if bool_decide (r = []) then h else a :: h).
Proof.
  intros Hv Ha HR. unfold push_next.
  destruct (iter_at_rem _ _ _ _ (hv_rem _ _ _ Hv) HR) as (it & -> & Hst & all & Hs). rstep.
  destruct (law_next _ _ _ _ Hs) as (it' & -> & Hs'). rstep.
  rewrite (law_valid _ _ _ Hs'). pose proof (hinv_update _ _ _ _ it' r Hv Ha ltac:(by eexists)) as Hv'.
  case_bool_decide as Hr; cbn [negb]; [by eexists _, _|].
  assert (live (<[hi_iter a := r]> R) a) as Hl.
  { destruct r as [|e' r']; [done|]. exists e', r'. apply list_lookup_insert_eq. by eapply lookup_lt_Some. }
  destruct (heap_Push_ok (mergeHeap_Less (<[hi_iter a := it']> store)) (item_le (<[hi_iter a := r]> R)) a h)
    as (h' & E & Hp & Hh).
  - apply item_le_ok; [apply (hv_rem _ _ _ Hv')|].
    intros b [Hb| ->%list_elem_of_singleton]%elem_of_app; [by apply (hv_live _ _ _ Hv')|done].
  - apply (hv_heap _ _ _ Hv').
  - rewrite E. rstep. eexists _, h'. split_and!; try done. split; try done.
    + apply (hv_rem _ _ _ Hv').
    + intros b. rewrite Hp. intros [->|Hb]%elem_of_cons; [done|by apply (hv_live _ _ _ Hv')].
    + rewrite Hp. constructor; [done|apply (hv_nodup _ _ _ Hv')].
Qed.

(** ** Skipping duplicates *)

Definition drop_key (k : bytes) (l : list entry) : list entry :=
  match l with
  | e :: r => if beqb (e_key e) k then r else l
  | [] => []
  end.

Lemma drop_key_above k l : Forall (fun e => k <ₖ e_key e) l -> drop_key k l = l.
Proof using.
  destruct 1 as [|e l He Hl]; simpl; [done|]. by rewrite (proj2 (beqb_false _ _) (not_eq_sym (blt_ne _ _ He))).
Qed.

Lemma esorted_cons e l : esorted (e :: l) <-> Forall (fun e' => e_key e <ₖ e_key e') l /\ esorted l.
Proof using.
  unfold esorted. rewrite fmap_cons. split.
  - intros [Hs Hf]%StronglySorted_inv. split; [|done]. exact (proj1 (Forall_fmap e_key (blt (e_key e)) l) Hf).
  - intros [Hf Hs]. constructor; [done|]. exact (proj2 (Forall_fmap e_key (blt (e_key e)) l) Hf).
Qed.

Lemma drop_key_sorted k l : esorted l -> esorted (drop_key k l).
Proof using. destruct l as [|e l]; simpl; [done|]. intros Hs. case_match; [|done]. by apply esorted_cons in Hs as [_ Hs]. Qed.

(** What [dedup] leaves: every iterator of the heap is past [k]. *)
Record deduped (k : bytes) (R R' : list (list entry)) (h h' : list heapItem) : Prop := {
  dd_rem : forall j, R' !! j = if decide (j ∈ hi_iter <$> h) then drop_key k <$> R !! j else R !! j;
  dd_above : forall a, a ∈ h' -> a ∈ h /\ k <ₖ hkey R' a;
  dd_kept : forall a, a ∈ h -> live R' a -> a ∈ h'
}.

Lemma deduped_done k store R h :
  hinv store R h -> (forall a, a ∈ h -> k <ₖ hkey R a) -> deduped k R R h h.
Proof.
  intros Hv Hk. split; [|auto|auto]. intros j. case_decide as Hj; [|done].
  apply list_elem_of_fmap in Hj as (a & -> & Ha). destruct (hv_live _ _ _ Hv a Ha) as (e & r & HR).
  specialize (Hk a Ha). unfold hkey in Hk. rewrite HR in *. simpl.
  by rewrite (proj2 (beqb_false _ _) (not_eq_sym (blt_ne _ _ Hk))).
Qed.

(** One round: the popped duplicate [d] is advanced and put back. *)
Lemma deduped_step k R R' h h0 h1 h' d e r :
  Forall esorted R -> NoDup (hi_iter <$> h) -> h ≡ₚ d :: h0 -> R !! hi_iter d = Some (e :: r) -> e_key e = k ->
  h1 ≡ₚ (if bool_decide (r = []) then h0 else d :: h0) ->
  deduped k (<[hi_iter d := r]> R) R' h1 h' -> deduped k R R' h h'.
Proof.
  intros Hs Hnd Hp HR <- Hh1 [D1 D2 D3].
  assert (Forall (fun e' => e_key e <ₖ e_key e') r) as Hr.
  { rewrite Forall_forall in Hs. apply (esorted_cons e r), Hs. by eapply list_elem_of_lookup_2. }
  assert (hi_iter d ∉ hi_iter <$> h0) as Hd.
  { rewrite Hp in Hnd. by apply NoDup_cons in Hnd as [? _]. }
  assert (forall a, a ∈ h1 -> a ∈ h) as Hsub.
  { intros a. rewrite Hh1, Hp. case_bool_decide; [by right|done]. }
  assert (R' !! hi_iter d = Some r) as HRd.
  { rewrite D1, list_lookup_insert_eq by (by eapply lookup_lt_Some). case_decide; [|done].
    simpl. by rewrite drop_key_above. }
  split.
  - intros j. destruct (decide (j = hi_iter d)) as [->|Hj].
    + rewrite HRd, HR, decide_True; [simpl; by rewrite beqb_refl|]. rewrite Hp. left.
    + rewrite D1, list_lookup_insert_ne by done.
      assert (j ∈ hi_iter <$> h1 <-> j ∈ hi_iter <$> h) as Hiff.
      { rewrite Hh1, Hp. case_bool_decide; simpl; [|done]. rewrite elem_of_cons. naive_solver. }
      repeat case_decide; naive_solver.
  - intros a Ha. destruct (D2 a Ha). auto.
  - intros a Ha Hl. apply D3; [|done]. rewrite Hh1. rewrite Hp in Ha.
    apply elem_of_cons in Ha as [->|Ha]; [|case_bool_decide; [done|by right]].
    destruct Hl as (e' & r' & HR'). rewrite HRd in HR'. simplify_eq. left.
Qed.

Lemma dedup_ok fuel store R h k :
  hinv store R h -> Forall esorted R -> (forall a, a ∈ h -> k ≤ₖ hkey R a) ->
  (length (filter (fun a => hkey R a = k) h) < fuel)%nat ->
  exists store' h' R', dedup fuel store h k = Ok (store', h') /\ hinv store' R' h' /\ deduped k R R' h h'.
Proof.
  revert store R h. induction fuel as [|fuel IH]; intros store R h Hv Hs Hk Hf; [lia|].
  cbn [dedup]. destruct h as [|top t] eqn:Eh.
  { exists store, [], R. split_and!; try done. eapply deduped_done; [done|]. intros a Ha. by apply elem_of_nil in Ha. }
  rewrite <- Eh in *. assert (top ∈ h) as Htop by (rewrite Eh; left).
  rewrite (item_key_live _ _ _ (hv_rem _ _ _ Hv)) by (by apply (hv_live _ _ _ Hv)). rstep.
  destruct (hinv_pop _ _ _ Hv ltac:(by rewrite Eh)) as (d & h0 & Hpop & Hd & Hp & Hv0 & Hle).
  rewrite Eh in Hd. injection Hd as ->. keq (hkey R d) k.
  - rewrite Hpop. rstep. cbn [fst snd]. destruct (hv_live _ _ _ Hv d Htop) as (e & r & HR).
    assert (hkey R d = e_key e) as Hke by (unfold hkey; by rewrite HR).
    assert (hi_iter d ∉ hi_iter <$> h0) as Hd0.
    { pose proof (hv_nodup _ _ _ Hv) as Hnd. rewrite Hp in Hnd. by apply NoDup_cons in Hnd as [? _]. }
    destruct (push_next_ok _ _ _ _ _ _ Hv0 Hd0 HR) as (store1 & h1 & -> & Hv1 & Hp1). rstep. cbn [fst snd].
    assert (Forall (fun e' => e_key e <ₖ e_key e') r /\ esorted r) as [Hr Hrs].
    { rewrite Forall_forall in Hs. apply (esorted_cons e r), Hs. by eapply list_elem_of_lookup_2. }
    assert (forall a, a ∈ h0 -> hkey (<[hi_iter d := r]> R) a = hkey R a) as Hsame.
    { intros a Ha. unfold hkey. rewrite list_lookup_insert_ne; [done|].
      intros Heq. apply Hd0. rewrite Heq. apply list_elem_of_fmap. eauto. }
    assert (r <> [] -> hkey R d <ₖ hkey (<[hi_iter d := r]> R) d) as Hnew.
    { intros Hne. unfold hkey at 2. rewrite list_lookup_insert_eq by (by eapply lookup_lt_Some).
      destruct Hr as [|e' r' He' _]; [done|]. by rewrite Hke. }
    destruct (IH store1 (<[hi_iter d := r]> R) h1) as (store' & h' & R' & -> & Hv' & Hdd).
    + done.
    + apply Forall_insert; done.
    + intros a. rewrite Hp1. case_bool_decide as Hrn; [|intros [->|Ha]%elem_of_cons].
      * intros Ha. rewrite Hsame by done. apply Hk. rewrite Hp. by right.
      * by apply blt_ble, Hnew.
      * rewrite Hsame by done. apply Hk. rewrite Hp. by right.
    + rewrite Hp, filter_cons_True in Hf by done. simpl in Hf.
      assert (length (filter (fun a => hkey (<[hi_iter d := r]> R) a = hkey R d) h1) =
              length (filter (fun a => hkey R a = hkey R d) h0)) as ->; [|lia].
      rewrite Hp1. case_bool_decide as Hrn.
      * f_equal. apply filter_ext_in. intros a Ha. by rewrite Hsame.
      * rewrite filter_cons_False by (intros Heq; specialize (Hnew Hrn); rewrite Heq in Hnew; korder).
        f_equal. apply filter_ext_in. intros a Ha. by rewrite Hsame.
    + exists store', h', R'. split_and!; try done.
      eapply deduped_step; try done. apply (hv_nodup _ _ _ Hv).
  - exists store, h, R. split_and!; try done. eapply deduped_done; [done|]. intros a. rewrite Hp.
    assert (k <ₖ hkey R d) as Hkd.
    { specialize (Hk d Htop). apply ble_eq_lt in Hk as [->|]; done. }
    intros [->|Ha]%elem_of_cons; [done|]. rewrite Forall_forall in Hle.
    destruct (Hle a Ha) as [Hlt|[<- _]]; [by eapply blt_trans|done].
Qed.

(** ** One winner after the other *)

Definition item_of (P : list Z) (a : heapItem) : Prop := P !! hi_iter a = Some (hi_priority a).

(** [e] is a least entry of all iterators, and of those holding its key the
    one of [w] has the lowest priority number. *)
Record wins (P : list Z) (R : list (list entry)) (w : heapItem) (e : entry) (r : list entry) : Prop := {
  wi_head : R !! hi_iter w = Some (e :: r);
  wi_prio : item_of P w;
  wi_min : forall j l e', R !! j = Some l -> e' ∈ l -> e_key e ≤ₖ e_key e';
  wi_first : forall j l e' p, R !! j = Some l -> e' ∈ l -> e_key e' = e_key e -> P !! j = Some p -> hi_priority w <= p
}.

(** Before [advance]: every iterator with entries left is in the heap. *)
Record pre_ok (P : list Z) (m : MergeIterator It) (R : list (list entry)) : Prop := {
  pr_heap : hinv (mi_store m) R (mi_h m);
  pr_sorted : Forall esorted R;
  pr_items : forall a, a ∈ mi_h m -> item_of P a;
  pr_cover : forall j e r, R !! j = Some (e :: r) -> j ∈ hi_iter <$> mi_h m
}.

(** Between calls: [cur] stands at the head of [R], all others are past it. *)
Inductive cur_ok (P : list Z) (m : MergeIterator It) (R : list (list entry)) : Prop :=
| cur_none : mi_cur m = None -> (forall j l, R !! j = Some l -> l = []) -> cur_ok P m R
| cur_some w e r R' :
    mi_cur m = Some w -> wins P R w e r -> hinv (mi_store m) R' (mi_h m) -> Forall esorted R ->
    hi_iter w ∉ hi_iter <$> mi_h m -> R' !! hi_iter w = Some (e :: r) ->
    (forall j, j <> hi_iter w -> R' !! j = drop_key (e_key e) <$> R !! j) ->
    (forall a, a ∈ mi_h m -> item_of P a) ->
    (forall j e' r', j <> hi_iter w -> R' !! j = Some (e' :: r') -> j ∈ hi_iter <$> mi_h m) ->
    cur_ok P m R.

Lemma sorted_head_min R j e r e' :
  Forall esorted R -> R !! j = Some (e :: r) -> e' ∈ e :: r -> e_key e ≤ₖ e_key e'.
Proof using.
  intros Hs HR [->|He']%elem_of_cons; [apply ble_refl|]. rewrite Forall_forall in Hs.
  assert (esorted (e :: r)) as [Hf _]%esorted_cons by (apply Hs; by eapply list_elem_of_lookup_2).
  rewrite Forall_forall in Hf. by apply blt_ble, Hf.
Qed.

(** The root of the heap wins. *)
Lemma pop_wins P m R w h' e r :
  pre_ok P m R -> mi_h m ≡ₚ w :: h' -> Forall (item_le R w) h' -> R !! hi_iter w = Some (e :: r) ->
  wins P R w e r.
Proof.
  intros [P1 P2 P3 P4] Hp Hle HR. rewrite Forall_forall in Hle.
  assert (hkey R w = e_key e) as Hkw by (unfold hkey; by rewrite HR).
  assert (forall j e0 r0, R !! j = Some (e0 :: r0) -> exists a, hi_iter a = j /\ item_of P a /\ hkey R a = e_key e0 /\ (a = w \/ item_le R w a)) as Hitem.
  { intros j e0 r0 Hj. pose proof (P4 _ _ _ Hj) as (a & -> & Ha)%list_elem_of_fmap. exists a.
    split_and!; [done|by apply P3|unfold hkey; by rewrite Hj|].
    rewrite Hp in Ha. apply elem_of_cons in Ha as [->|Ha]; auto. }
  assert (forall j l e', R !! j = Some l -> e' ∈ l ->
    exists a e0, hi_iter a = j /\ item_of P a /\ hkey R a = e_key e0 /\ e_key e0 ≤ₖ e_key e' /\ (a = w \/ item_le R w a)) as Hany.
  { intros j l e' Hj He'. destruct l as [|e0 r0]; [by apply elem_of_nil in He'|].
    destruct (Hitem _ _ _ Hj) as (a & Ha & Hpa & Hka & Hw). exists a, e0. split_and!; try done.
    by eapply sorted_head_min. }
  split; [done|apply P3; rewrite Hp; left|..].
  - intros j l e' Hj He'. destruct (Hany _ _ _ Hj He') as (a & e0 & _ & _ & Hka & Hle0 & [->|Hw]).
    + by rewrite <- Hkw, Hka.
    + rewrite <- Hkw. destruct Hw as [Hlt|[-> _]]; rewrite Hka in *; [|done].
      by apply blt_ble, (blt_le_trans _ (e_key e0)).
  - intros j l e' p Hj He' Hk HP.
    destruct (Hany _ _ _ Hj He') as (a & e0 & <- & Hpa & Hka & Hle0 & [->|[Hlt|[Heq Hpr]]]).
    + unfold item_of in Hpa. rewrite HP in Hpa. injection Hpa. lia.
    + exfalso. rewrite Hkw, Hka in Hlt. rewrite Hk in Hle0. korder.
    + unfold item_of in Hpa. rewrite HP in Hpa. injection Hpa. lia.
Qed.

Lemma advance_ok P m R :
  pre_ok P m R -> exists m', advance m = Ok m' /\ cur_ok P m' R.
Proof.
  intros Hpre. pose proof Hpre as [P1 P2 P3 P4]. unfold advance.
  destruct (Z.eqb_spec (len (mi_h m)) 0) as [Hz|Hz].
  { apply len_0_nil in Hz. eexists. split; [done|]. apply cur_none; [done|].
    intros j [|e r] Hj; [done|]. apply P4 in Hj. rewrite Hz in Hj. by apply elem_of_nil in Hj. }
  destruct (hinv_pop _ _ _ P1) as (w & h' & -> & Hd & Hp & Hv' & Hle); [by intros Hn; rewrite Hn in Hz|]. rstep.
  assert (w ∈ mi_h m) as Hw by (rewrite Hp; left).
  destruct (hv_live _ _ _ P1 w Hw) as (e & r & HR).
  rewrite (item_key_live _ _ _ (hv_rem _ _ _ P1)) by (by eexists _, _). rstep.
  assert (hkey R w = e_key e) as Hkw by (unfold hkey; by rewrite HR). rewrite Hkw.
  pose proof (pop_wins _ _ _ _ _ _ _ Hpre Hp Hle HR) as Hwins.
  assert (hi_iter w ∉ hi_iter <$> h') as Hnw.
  { pose proof (hv_nodup _ _ _ P1) as Hnd. rewrite Hp in Hnd. by apply NoDup_cons in Hnd as [? _]. }
  destruct (dedup_ok (S (length (mi_h m))) (mi_store m) R h' (e_key e)) as (st & h2 & R' & -> & Hv2 & [D1 D2 D3]).
  - done.
  - done.
  - intros a Ha. destruct (hv_live _ _ _ Hv' a Ha) as (e' & r' & Ha'). unfold hkey. rewrite Ha'.
    eapply (wi_min _ _ _ _ _ Hwins); [done|left].
  - rewrite Hp. simpl. pose proof (length_filter (fun a => hkey R a = e_key e) h'). lia.
  - rstep. eexists. split; [done|].
    assert (forall a, a ∈ h2 -> a ∈ mi_h m) as Hsub by (intros a Ha; rewrite Hp; right; by apply D2).
    assert (hi_iter w ∉ hi_iter <$> h2) as Hnw2.
    { intros (a & Heq & Ha)%list_elem_of_fmap. apply Hnw. rewrite Heq. apply list_elem_of_fmap.
      exists a. split; [done|by apply D2]. }
    eapply cur_some; simpl; try done.
    + by rewrite D1, decide_False.
    + intros j Hj. rewrite D1. case_decide as Hjh; [done|].
      destruct (R !! j) as [[|e' r']|] eqn:Ej; [done| |done]. exfalso.
      apply P4 in Ej. rewrite Hp in Ej. apply elem_of_cons in Ej as [|]; done.
    + intros a Ha. by apply P3, Hsub.
    + intros j e' r' Hj HR'. pose proof HR' as HR0. rewrite D1 in HR0.
      assert (j ∈ hi_iter <$> h') as (a & -> & Ha)%list_elem_of_fmap.
      { case_decide as Hjh; [done|]. apply P4 in HR0. rewrite Hp in HR0. by apply elem_of_cons in HR0 as [|]. }
      apply list_elem_of_fmap. exists a. split; [done|]. apply D3; [done|]. by eexists _, _.
Qed.

Lemma MergeIterator_Next_ok P m R w e r :
  cur_ok P m R -> mi_cur m = Some w -> wins P R w e r ->
  exists m', MergeIterator_Next m = Ok m' /\ cur_ok P m' (drop_key (e_key e) <$> R).
Proof.
  intros Hc Hw Hwins. destruct Hc as [Hn _|w' e' r' R' Hcur Hwins' Hv Hs Hnw HRw HR' Hit Hcov]; [congruence|].
  rewrite Hw in Hcur. injection Hcur as <-.
  pose proof (wi_head _ _ _ _ _ Hwins) as H1. pose proof (wi_head _ _ _ _ _ Hwins') as H2.
  rewrite H1 in H2. injection H2 as <- <-. unfold MergeIterator_Next. rewrite Hw.
  destruct (push_next_ok _ _ _ _ _ _ Hv Hnw HRw) as (st & h' & -> & Hv' & Hp). rstep. cbn [fst snd].
  assert (<[hi_iter w := r]> R' = drop_key (e_key e) <$> R) as Heq.
  { apply list_eq. intros j. rewrite list_lookup_fmap. destruct (decide (j = hi_iter w)) as [->|Hj].
    - rewrite list_lookup_insert_eq by (by eapply lookup_lt_Some). rewrite H1. simpl. by rewrite beqb_refl.
    - rewrite list_lookup_insert_ne by done. by apply HR'. }
  rewrite Heq in Hv'. apply advance_ok. split; simpl; try done.
  - apply Forall_fmap. eapply Forall_impl; [exact Hs|]. intros l. apply drop_key_sorted.
  - intros a. rewrite Hp. case_bool_decide; [apply Hit|].
    intros [->|Ha]%elem_of_cons; [apply (wi_prio _ _ _ _ _ Hwins)|by apply Hit].
  - intros j e0 r0. rewrite <- Heq, Hp. intros Hj. destruct (decide (j = hi_iter w)) as [->|Hne].
    + rewrite list_lookup_insert_eq in Hj by (by eapply lookup_lt_Some). injection Hj as ->.
      rewrite bool_decide_false by done. left.
    + rewrite list_lookup_insert_ne in Hj by done. pose proof (Hcov j e0 r0 Hne Hj).
      case_bool_decide; [done|by right].
Qed.

(** The entries a sequence of winners produces. *)
Inductive merged (P : list Z) : list (list entry) -> list entry -> Prop :=
| merged_nil R : (forall j l, R !! j = Some l -> l = []) -> merged P R []
| merged_cons R w e r out :
    wins P R w e r -> Forall esorted R -> merged P (drop_key (e_key e) <$> R) out -> merged P R (e :: out).

Fixpoint total (R : list (list entry)) : nat :=
  match R with
  | [] => 0
  | l :: R => length l + total R
  end.

Lemma length_drop_key k l : (length (drop_key k l) <= length l)%nat.
Proof using. destruct l; simpl; [lia|]. case_match; simpl; lia. Qed.

Lemma total_drop_le k R : (total (drop_key k <$> R) <= total R)%nat.
Proof using.
  induction R as [|l R IH]; [done|]. rewrite fmap_cons. cbn [total]. pose proof (length_drop_key k l). lia.
Qed.

Lemma total_drop R i e r : R !! i = Some (e :: r) -> (total (drop_key (e_key e) <$> R) < total R)%nat.
Proof using.
  revert i. induction R as [|l R IH]; intros [|i] HR; simplify_eq/=.
  - rewrite beqb_refl. pose proof (total_drop_le (e_key e) R). simpl. lia.
  - specialize (IH _ HR). pose proof (length_drop_key (e_key e) l). unfold drop_key in *. lia.
Qed.

Lemma mi_current_ok {A} (proj : It -> res A) (f : entry -> A) zero P m R w e r :
  (forall it all e rest, standing it all (e :: rest) -> proj it = Ok (f e)) ->
  cur_ok P m R -> mi_cur m = Some w -> wins P R w e r -> mi_current proj zero m = Ok (f e).
Proof.
  intros Hproj [Hn _|w' e' r' R' Hcur Hwins' Hv Hs Hnw HRw HR' Hit Hcov] Hw Hwins; [congruence|].
  rewrite Hw in Hcur. injection Hcur as <-.
  pose proof (wi_head _ _ _ _ _ Hwins) as H1. pose proof (wi_head _ _ _ _ _ Hwins') as H2.
  rewrite H1 in H2. injection H2 as <- <-. unfold mi_current. rewrite Hw.
  destruct (iter_at_rem _ _ _ _ (hv_rem _ _ _ Hv) HRw) as (it & -> & _ & all & Hst). rstep. by eapply Hproj.
Qed.

Lemma mi_drain_ok fuel P m R :
  cur_ok P m R -> (total R < fuel)%nat -> exists out, mi_drain fuel m = Ok out /\ merged P R out.
Proof.
  revert m R. induction fuel as [|fuel IH]; intros m R Hc Hf; [lia|]. cbn [mi_drain].
  unfold MergeIterator_Valid. pose proof Hc as Hc'.
  destruct Hc' as [-> Hn|w e r R' Hw Hwins Hv Hs _ _ _ _ _].
  { exists []. split; [done|]. by constructor. }
  rewrite Hw, bool_decide_true by done.
  unfold MergeIterator_Key, MergeIterator_Value, MergeIterator_IsTombstone.
  rewrite (mi_current_ok Key e_key [] P m R w e r law_key) by done. rstep.
  rewrite (mi_current_ok Value e_value None P m R w e r law_value) by done. rstep.
  rewrite (mi_current_ok IsTombstone e_tombstone false P m R w e r law_tombstone) by done. rstep.
  destruct (MergeIterator_Next_ok P m R w e r Hc Hw Hwins) as (m' & -> & Hc'). rstep.
  destruct (IH m' _ Hc') as (out & -> & Hm).
  { pose proof (total_drop _ _ _ _ (wi_head _ _ _ _ _ Hwins)). lia. }
  rstep. exists (e :: out). split; [by destruct e|]. by econstructor.
Qed.

(** ** What merging means *)

(** [out] is sorted, holds the keys of all sources, and for each key the entry
    of a source such that no source of lower priority number has the key. *)
Record merges (P : list Z) (R : list (list entry)) (out : list entry) : Prop := {
  mg_sorted : esorted out;
  mg_sound : forall e, e ∈ out -> exists j l p, R !! j = Some l /\ P !! j = Some p /\ e ∈ l /\
    forall j' l' p', R !! j' = Some l' -> P !! j' = Some p' -> p' < p -> e_key e ∉ e_key <$> l';
  mg_complete : forall j l e, R !! j = Some l -> e ∈ l -> e_key e ∈ e_key <$> out
}.

Lemma drop_key_elem k l e : esorted l -> (forall e', e' ∈ l -> k ≤ₖ e_key e') ->
  e ∈ drop_key k l <-> e ∈ l /\ e_key e <> k.
Proof using.
  intros Hs Hmin. destruct l as [|e0 r]; simpl; [split; [by intros ?%elem_of_nil|by intros [?%elem_of_nil _]]|].
  apply esorted_cons in Hs as [Hf Hs]. rewrite Forall_forall in Hf. rewrite elem_of_cons. keq (e_key e0) k.
  - split; [intros He; split; [by right|]; intros Heq; specialize (Hf e He); rewrite Heq in Hf; korder|].
    intros [[->|He] Hne]; done.
  - rewrite elem_of_cons. split; [|tauto]. intros [->|He]; split; auto. intros Heq.
    specialize (Hf e He). specialize (Hmin e0 ltac:(left)). rewrite Heq in Hf. korder.
Qed.

Lemma merged_merges P R out : merged P R out -> Forall esorted R -> merges P R out.
Proof using.
  induction 1 as [R Hn|R w e r out Hw Hs Hm IH]; intros Hs'.
  - split; [constructor|by intros e ?%elem_of_nil|]. intros j l e Hj He. rewrite (Hn j l Hj) in He. by apply elem_of_nil in He.
  - assert (Forall esorted (drop_key (e_key e) <$> R)) as Hds.
    { apply Forall_fmap. eapply Forall_impl; [exact Hs|]. intros l. apply drop_key_sorted. }
    destruct (IH Hds) as [M1 M2 M3].
    assert (forall j l e', R !! j = Some l -> e' ∈ drop_key (e_key e) l <-> e' ∈ l /\ e_key e' <> e_key e) as Hd.
    { intros j l e' Hj. apply drop_key_elem; [rewrite Forall_forall in Hs; apply Hs; by eapply list_elem_of_lookup_2|].
      intros e1. by apply (wi_min _ _ _ _ _ Hw j). }
    split.
    + apply esorted_cons. split; [|done]. apply Forall_forall. intros e' He'.
      destruct (M2 e' He') as (j & l & p & Hj & _ & Hin & _). rewrite list_lookup_fmap in Hj.
      apply fmap_Some in Hj as (l0 & Hl0 & ->). apply (Hd _ _ _ Hl0) in Hin as [Hin Hne].
      pose proof (wi_min _ _ _ _ _ Hw _ _ _ Hl0 Hin) as [Heq|]%ble_eq_lt; [congruence|done].
    + intros e' [->|He']%elem_of_cons.
      * exists (hi_iter w), (e :: r), (hi_priority w). split_and!; [apply (wi_head _ _ _ _ _ Hw)|apply (wi_prio _ _ _ _ _ Hw)|left|].
        intros j' l' p' Hj' HP' Hlt (e1 & Heq & He1)%list_elem_of_fmap.
        pose proof (wi_first _ _ _ _ _ Hw j' l' e1 p' Hj' He1 (eq_sym Heq) HP'). lia.
      * destruct (M2 e' He') as (j & l & p & Hj & HP & Hin & Hlow). rewrite list_lookup_fmap in Hj.
        apply fmap_Some in Hj as (l0 & Hl0 & ->). apply (Hd _ _ _ Hl0) in Hin as [Hin Hne].
        exists j, l0, p. split_and!; try done. intros j' l' p' Hj' HP' Hlt (e1 & Heq & He1)%list_elem_of_fmap.
        apply (Hlow j' (drop_key (e_key e) l') p'); [by rewrite list_lookup_fmap, Hj'|done|done|].
        apply list_elem_of_fmap. exists e1. split; [done|]. apply (Hd _ _ _ Hj'). split; [done|congruence].
    + intros j l e' Hj He'. destruct (decide (e_key e' = e_key e)) as [->|Hne]; [left|right].
      apply (M3 j (drop_key (e_key e) l)); [by rewrite list_lookup_fmap, Hj|]. by apply (Hd _ _ _ Hj).
Qed.

(** ** Positioning *)

Fixpoint mk_items (i : nat) (ps : list Z) : list heapItem :=
  match ps with
  | [] => []
  | p :: ps => mkItem i p :: mk_items (S i) ps
  end.

Lemma new_items_ok pre ps : new_items (length pre) (length ps) (pre ++ ps) = Ok (mk_items (length pre) ps).
Proof using.
  revert pre. induction ps as [|p ps IH]; intros pre; [done|]. cbn [new_items length].
  erewrite index_ok by (by apply list_lookup_middle). rstep.
  specialize (IH (pre ++ [p])). rewrite <- app_assoc, length_app in IH. simpl in IH.
  rewrite Nat.add_1_r in IH. by rewrite IH.
Qed.

Lemma mk_items_elem i ps a : a ∈ mk_items i ps <-> (i <= hi_iter a)%nat /\ ps !! (hi_iter a - i)%nat = Some (hi_priority a).
Proof using.
  revert i. induction ps as [|p ps IH]; intros i; simpl.
  - split; [by intros ?%elem_of_nil|by intros [_ ?]].
  - rewrite elem_of_cons, IH. split.
    + intros [->|[Hle Ha]]; simpl; [by rewrite Nat.sub_diag|]. split; [lia|].
      by replace (hi_iter a - i)%nat with (S (hi_iter a - S i)) by lia.
    + intros [Hle Ha]. destruct (decide (hi_iter a = i)) as [Heq|Hne].
      * rewrite Heq, Nat.sub_diag in Ha. left. destruct a; simplify_eq/=. done.
      * right. split; [lia|]. by replace (hi_iter a - i)%nat with (S (hi_iter a - S i)) in Ha by lia.
Qed.

Lemma mk_items_nodup i ps : NoDup (hi_iter <$> mk_items i ps).
Proof using.
  revert i. induction ps as [|p ps IH]; intros i; simpl; constructor; [|apply IH].
  intros (a & Heq & [Hle _]%mk_items_elem)%list_elem_of_fmap. lia.
Qed.

(** Running an operation on every iterator, once each. *)
Lemma for_items_ok (op : It -> res It) (Q Q' : It -> list entry -> Prop) ps pre store alls :
  (forall it all, Q it all -> exists it', op it = Ok it' /\ Q' it' all) ->
  Forall2 Q store alls -> length store = length ps ->
  exists store', for_items op (mk_items (length pre) ps) (pre ++ store) = Ok (pre ++ store') /\
    Forall2 Q' store' alls.
Proof using.
  intros Hop HF. revert ps pre. induction HF as [|it all store alls Hit HF IH]; intros [|p ps] pre Hl; simplify_eq/=.
  { by exists []. }
  unfold iter_at. simpl. rewrite list_lookup_middle by done. rstep.
  destruct (Hop it all Hit) as (it' & -> & Hit'). rstep.
  rewrite insert_app_r_alt, Nat.sub_diag by lia. simpl.
  destruct (IH ps (pre ++ [it'])) as (store' & E & HF'); [done|].
  rewrite length_app, <- !app_assoc in E. simpl in E. rewrite Nat.add_1_r in E.
  exists (it' :: store'). split; [done|]. by constructor.
Qed.

Lemma valid_items_ok store R items :
  Forall2 remaining store R -> (forall a, a ∈ items -> (hi_iter a < length R)%nat) ->
  exists h, valid_items store items = Ok h /\ h `sublist_of` items /\ (forall a, a ∈ h <-> a ∈ items /\ live R a).
Proof.
  intros HF. induction items as [|a items IH]; intros Hin; simpl.
  - exists []. split_and!; try done. intros a. split; [by intros ?%elem_of_nil|by intros [?%elem_of_nil _]].
  - destruct (lookup_lt_is_Some_2 R (hi_iter a)) as [l Hl]; [apply Hin; left|].
    destruct (iter_at_rem _ _ _ _ HF Hl) as (it & -> & _ & all & Hst). rstep.
    destruct IH as (h & -> & Hsub & Hh); [intros; apply Hin; by right|]. rstep.
    rewrite (law_valid _ _ _ Hst). case_bool_decide as Hnil; simpl.
    + exists h. split_and!; [done|by constructor|]. intros b. rewrite elem_of_cons, Hh. split; [tauto|].
      intros [[->|?] Hlive]; [|done]. destruct Hlive as (e & r & He). congruence.
    + exists (a :: h). split_and!; [done|by constructor|]. intros b. rewrite !elem_of_cons, Hh.
      split; [intros [->|]; [|tauto]|tauto]. split; [by left|]. destruct l as [|e r]; [done|]. by exists e, r.
Qed.

Lemma seek_all_ok (op : It -> res It) (g : list entry -> list entry) iters P alls :
  (forall it all rest, standing it all rest -> exists it', op it = Ok it' /\ standing it' all (g all)) ->
  Forall2 (fun it all => exists rest, standing it all rest) iters alls -> length P = length iters ->
  exists m m', NewMergeIterator iters P = Ok m /\ seek_all op m = Ok m' /\ cur_ok P m' (g <$> alls) /\
    Forall esorted (g <$> alls).
Proof.
  intros Hop HF Hl. unfold NewMergeIterator. rewrite <- Hl.
  pose proof (new_items_ok [] P) as Hni. simpl in Hni. rewrite Hni. rstep. exists (mkMerge iters (mk_items 0 P) [] None).
  unfold seek_all. cbn [mi_store mi_iters mi_h mi_cur].
  destruct (for_items_ok op (fun it all => exists rest, standing it all rest) (fun it all => standing it all (g all)) P [] iters alls)
    as (store & E & HF'); [naive_solver|done|done|]. cbn [length app] in E.
  assert (Forall2 remaining store (g <$> alls)) as HR.
  { apply Forall2_fmap_r. eapply Forall2_impl; [exact HF'|]. intros it all Hs. by exists all. }
  assert (Forall esorted (g <$> alls)) as Hsort.
  { apply Forall_fmap. clear -HF'. induction HF' as [|it all store alls Hs HF IH]; constructor; [|done].
    by apply law_sorted in Hs as [_ Hs]. }
  assert (length store = length (g <$> alls)) as Hls by by eapply Forall2_length.
  assert (length P = length (g <$> alls)) as HlP.
  { rewrite length_fmap, Hl. by eapply Forall2_length. }
  destruct (valid_items_ok store (g <$> alls) (mk_items 0 P) HR) as (h & Eh & Hsub & Hh).
  { intros a [_ Ha]%mk_items_elem. rewrite <- HlP. rewrite Nat.sub_0_r in Ha. by eapply lookup_lt_Some. }
  destruct (heap_Init_ok (mergeHeap_Less store) (item_le (g <$> alls)) h) as (h' & Ei & Hp & Hord).
  { apply item_le_ok; [done|]. intros a Ha. by apply Hh. }
  destruct (advance_ok P (mkMerge store (mk_items 0 P) h' None) (g <$> alls)) as (m' & Ea & Hc).
  - split; simpl; try done.
    + split; try done.
      * intros a. rewrite Hp. intros Ha. by apply Hh.
      * rewrite Hp. eapply sublist_NoDup; [|by apply fmap_sublist]. apply mk_items_nodup.
    + intros a. rewrite Hp. intros [[_ Ha]%mk_items_elem _]%Hh. by rewrite Nat.sub_0_r in Ha.
    + intros j e r Hj. destruct (lookup_lt_is_Some_2 P j) as [p Hpj]; [rewrite HlP; by eapply lookup_lt_Some|].
      apply list_elem_of_fmap. exists (mkItem j p). split; [done|]. rewrite Hp. apply Hh. split.
      * apply mk_items_elem. simpl. rewrite Nat.sub_0_r. split; [lia|done].
      * by exists e, r.
  - exists m'. split; [done|]. split; [|done]. rewrite E. rstep. unfold buildHeap. cbn [mi_store mi_iters mi_h mi_cur].
    rewrite Eh. rstep. rewrite Ei. rstep. done.
Qed.
End merging.

(** ** Properties *)

(** C24.  Merging.  Over any iterators that keep the interface's promise,
    with one priority each, [SeekToFirst] (or [Seek key]) followed by reading
    to the end terminates within one call of [Next] per source entry, does not
    panic, and produces each key of the sources (from [key] on) exactly once,
    in order, with the entry of a source such that no source of a lower
    priority number holds the key. *)
Theorem merge_iterator_correct :
  forall (It : Type) (I : Iterator It) (L : IteratorLaws It) (iters : list It) (priorities : list Z)
    (alls : list (list entry)) (key : bytes),
  Forall2 (fun it all => exists rest, standing it all rest) iters alls ->
  length priorities = length iters ->
  let from := filter (fun e => key ≤ₖ e_key e) <$> alls in
  exists m m1 m2 out1 out2,
    NewMergeIterator iters priorities = Ok m /\
    MergeIterator_SeekToFirst m = Ok m1 /\ mi_drain (S (total alls)) m1 = Ok out1 /\ merges priorities alls out1 /\
    MergeIterator_Seek key m = Ok m2 /\ mi_drain (S (total from)) m2 = Ok out2 /\ merges priorities from out2.
Proof.
  intros It I L iters P alls key HF Hl from.
  destruct (seek_all_ok SeekToFirst id iters P alls law_first HF Hl) as (m & m1 & Em & E1 & Hc1 & Hs1).
  destruct (seek_all_ok (Seek key) _ iters P alls (fun it all rest => law_seek it all rest key) HF Hl)
    as (m' & m2 & Em' & E2 & Hc2 & Hs2).
  rewrite Em in Em'. injection Em' as <-. rewrite list_fmap_id in Hc1, Hs1.
  destruct (mi_drain_ok (S (total alls)) P m1 alls Hc1) as (out1 & Ed1 & Hm1); [lia|].
  destruct (mi_drain_ok (S (total from)) P m2 from Hc2) as (out2 & Ed2 & Hm2); [lia|].
  exists m, m1, m2, out1, out2. split_and!; try done; by apply merged_merges.
Qed.

Lemma mem_standing_new sl l : sl_repr sl l -> mem_standing (mkMemIter sl (SkipList_NewIterator sl)) (mem_entry <$> l) [].
Proof.
  intros Hl. exists l, []. split_and!; try done. destruct Hl as (order & Hwf & _).
  exists order, order, []. rewrite app_nil_r. done.
Qed.

Lemma merge_iterator_correct_witness :
  exists sl1 sl2,
    SkipList_Put [] [x61] (Some [x31]) NewSkipList = Ok sl1 /\
    SkipList_Put [] [x61] None NewSkipList = Ok sl2 /\
    let iters := [mkMemIter sl1 None; mkMemIter sl2 None] in
    let alls := [[mkEntry [x61] (Some [x31]) false]; [mkEntry [x61] None true]] in
    exists m m1 m2 out1 out2,
      NewMergeIterator iters [0; 1] = Ok m /\
      MergeIterator_SeekToFirst m = Ok m1 /\ mi_drain 3 m1 = Ok out1 /\ merges [0; 1] alls out1 /\
      MergeIterator_Seek [x62] m = Ok m2 /\ mi_drain 1 m2 = Ok out2 /\ merges [0; 1] [[]; []] out2.
Proof.
  destruct (SkipList_Put_spec NewSkipList [] [] [x61] (Some [x31]) NewSkipList_repr) as (sl1 & E1 & H1).
  destruct (SkipList_Put_spec NewSkipList [] [] [x61] None NewSkipList_repr) as (sl2 & E2 & H2).
  exists sl1, sl2. split; [exact E1|]. split; [exact E2|]. intros iters alls.
  apply (merge_iterator_correct MemIter MemIter_Iterator MemIter_laws iters [0; 1] alls [x62]).
  - constructor; [exists []; exact (mem_standing_new _ _ H1)|].
    constructor; [exists []; exact (mem_standing_new _ _ H2)|constructor].
  - reflexivity.
Defined.
