(* ===== verification/Manifest.v ===== *)
(** * engine/manifest.go: the manifest

    An append-only file of add and remove records and the levels it describes.
    The theorems show that reopening rebuilds exactly the levels in memory,
    and that one [AddFile] or [RemoveFile] on a failing device, cut by a power
    failure at any byte, is recovered as if it had run entirely or not at all.

    Operations run under the manifest's mutex.  A closed manifest holds no
    file. *)

From S2P Require Import Prelude GoStd.

Definition recordAddFile : byte := x01.
Definition recordRemoveFile : byte := x02.

Record FileMetadata := mkMeta {
  FileNum : Z;
  Level : Z;
  Size : Z;
  MinKey : bytes;
  MaxKey : bytes
}.

Record Manifest := mkManifest {
  mf_file : option File;
  mf_levels : list (list FileMetadata)
}.

Record manifestRecord := mkMRecord {
  mr_typ : byte;
  mr_meta : FileMetadata
}.

(** ** Records *)

Definition encodeManifestRecordPayload (typ : byte) (meta : FileMetadata) : bytes :=
  [typ] ++ putLE 8 (FileNum meta) ++ putLE 4 (u32 (Level meta)) ++ putLE 8 (u64 (Size meta)) ++
  putLE 4 (len (MinKey meta)) ++ MinKey meta ++ putLE 4 (len (MaxKey meta)) ++ MaxKey meta.

(** A record from the unread part [s] of the file, and what is left of it. *)
Definition readRecord (s : bytes) : res (manifestRecord * bytes) :=
  '(typBuf, s) ← ReadFull 1 s;
  typ ← index typBuf 0;
  '(fixed, s) ← ReadFull 20 s;
  fn ← slice fixed 0 8;
  lv ← slice fixed 8 12;
  sz ← slice fixed 12 20;
  '(mkLenBuf, s) ← ReadFull 4 s;
  '(minKey, s) ← ReadSome (getLE mkLenBuf) s;
  '(mxLenBuf, s) ← ReadFull 4 s;
  '(maxKey, s) ← ReadSome (getLE mxLenBuf) s;
  '(crcBuf, s) ← ReadFull 4 s;
  let meta := mkMeta (getLE fn) (getLE lv) (i64 (getLE sz)) minKey maxKey in
  let data := encodeManifestRecordPayload typ meta in
  if negb (ChecksumIEEE data =? getLE crcBuf) then Err (Errorf "manifest: CRC mismatch") else
  Ok (mkMRecord typ meta, s).

(** Removes the first file with the number. *)
Fixpoint remove_file (fileNum : Z) (files : list FileMetadata) : list FileMetadata :=
  match files with
  | [] => []
  | f :: files => if FileNum f =? fileNum then files else f :: remove_file fileNum files
  end.

(** [m.levels[level] = f(m.levels[level])] when the level exists. *)
Definition on_level (level : Z) (f : list FileMetadata -> list FileMetadata)
    (levels : list (list FileMetadata)) : list (list FileMetadata) :=
  if (level <? 0) || (len levels <=? level) then levels else alter f (Z.to_nat level) levels.

Definition applyRecord (rec : manifestRecord) (levels : list (list FileMetadata)) : list (list FileMetadata) :=
  let meta := mr_meta rec in
  on_level (Level meta) (fun files =>
    if bool_decide (mr_typ rec = recordAddFile) then files ++ [meta]
    else if bool_decide (mr_typ rec = recordRemoveFile) then remove_file (FileNum meta) files
    else files) levels.

(** The loop of [replay]: any error ends it. *)
Fixpoint manifest_replay (fuel : nat) (s : bytes) (levels : list (list FileMetadata))
    : res (list (list FileMetadata)) :=
  match fuel with
  | O => OutOfFuel
  | S fuel =>
      match readRecord s with
      | Ok (rec, s) => manifest_replay fuel s (applyRecord rec levels)
      | Err _ => Ok levels
      | Panic => Panic
      | OutOfFuel => OutOfFuel
      end
  end.

(** [OpenManifest] on the bytes of the MANIFEST file; [plan] is the fault plan
    of the opened file, an error of [os.MkdirAll] or [os.OpenFile] otherwise. *)
Definition OpenManifest (opened : res (list fault)) (old : File) (maxLevels : nat) : res Manifest :=
  plan ← opened;
  levels ← manifest_replay (S (length (contents old))) (contents old) (replicate maxLevels []);
  Ok (mkManifest (Some (mkFile (contents old) (synced old) plan false)) levels).

(** ** Operations *)

Definition mf_on_file {A} (m : M File A) : M Manifest A := fun st =>
  match mf_file st with
  | None => (Err ErrIO, st)
  | Some f => let '(r, f) := m f in (r, mkManifest (Some f) (mf_levels st))
  end.

Definition writeRecord (typ : byte) (meta : FileMetadata) : M Manifest unit :=
  let payload := encodeManifestRecordPayload typ meta in
  let crc := ChecksumIEEE payload in
  wrap "manifest: write" (mf_on_file (File_Write payload));;
  wrap "manifest: write crc" (mf_on_file (File_Write (putLE 4 crc)));;
  wrap "manifest: sync" (mf_on_file File_Sync).

Definition set_levels (f : list (list FileMetadata) -> list (list FileMetadata)) : M Manifest unit := fun st =>
  (Ok tt, mkManifest (mf_file st) (f (mf_levels st))).

Definition Manifest_AddFile (meta : FileMetadata) : M Manifest unit :=
  writeRecord recordAddFile meta;;
  set_levels (on_level (Level meta) (fun files => files ++ [meta])).

Definition Manifest_RemoveFile (fileNum level : Z) : M Manifest unit :=
  let meta := mkMeta fileNum level 0 [] [] in
  writeRecord recordRemoveFile meta;;
  set_levels (on_level level (remove_file fileNum)).

Definition Manifest_GetLevel (level : Z) (m : Manifest) : list FileMetadata :=
  if (level <? 0) || (len (mf_levels m) <=? level) then [] else default [] (mf_levels m !! Z.to_nat level).

Definition Manifest_GetAllLevels (m : Manifest) : list (list FileMetadata) := mf_levels m.

Definition Manifest_Close : M Manifest unit := fun st =>
  match mf_file st with
  | None => (Ok tt, st)
  | Some f => let '(r, f) := File_Close f in (r, mkManifest None (mf_levels st))
  end.

(** ** The abstract manifest *)

Inductive mfop :=
| MAdd (meta : FileMetadata)
| MRemove (fileNum level : Z).

Definition mfop_run (o : mfop) : M Manifest unit :=
  match o with
  | MAdd meta => Manifest_AddFile meta
  | MRemove n level => Manifest_RemoveFile n level
  end.

Definition mfop_record (o : mfop) : manifestRecord :=
  match o with
  | MAdd meta => mkMRecord recordAddFile meta
  | MRemove n level => mkMRecord recordRemoveFile (mkMeta n level 0 [] [])
  end.

(** The fields fit their encoded widths. *)
Definition meta_fits (meta : FileMetadata) : Prop :=
  0 <= FileNum meta < 2 ^ 64 /\ 0 <= Level meta < 2 ^ 32 /\ - 2 ^ 63 <= Size meta < 2 ^ 63 /\
  len (MinKey meta) < 2 ^ 32 /\ len (MaxKey meta) < 2 ^ 32.

Definition encodeManifestRecord (rec : manifestRecord) : bytes :=
  encodeManifestRecordPayload (mr_typ rec) (mr_meta rec) ++
  putLE 4 (ChecksumIEEE (encodeManifestRecordPayload (mr_typ rec) (mr_meta rec))).
Definition encode_records (recs : list manifestRecord) : bytes := concat (encodeManifestRecord <$> recs).
Definition apply_all (recs : list manifestRecord) (levels : list (list FileMetadata)) :=
  fold_left (fun lv rec => applyRecord rec lv) recs levels.

(** ** Reading records back *)

Lemma ReadFull_app3 n a b c s : n = len (a ++ b ++ c) -> ReadFull n (a ++ b ++ c ++ s) = Ok (a ++ b ++ c, s).
Proof. intros Hn. rewrite (app_assoc b), (app_assoc a). by apply ReadFull_app'. Qed.

Lemma readRecord_encode rec s :
  meta_fits (mr_meta rec) -> readRecord (encodeManifestRecord rec ++ s) = Ok (rec, s).
Proof.
  destruct rec as [typ [fn lv sz mink maxk]]. intros (Hfn & Hlv & Hsz & Hmin & Hmax). simpl in *.
  pose proof (len_nonneg mink). pose proof (len_nonneg maxk).
  unfold readRecord, encodeManifestRecord. cbn [mr_typ mr_meta].
  remember (encodeManifestRecordPayload typ (mkMeta fn lv sz mink maxk)) as payload eqn:Ep.
  pose proof (ChecksumIEEE_bound payload) as Hcrc. remember (ChecksumIEEE payload) as crc eqn:Ecrc.
  rewrite (u32_small lv) by lia. rewrite <- !app_assoc.
  erewrite (res_bind_run (ReadFull 1 _)) by (by apply (ReadFull_app' 1 [typ])). cbv beta iota. change (index [typ] 0) with (Ok typ). rstep.
  erewrite (res_bind_run (ReadFull 20 _)) by (apply ReadFull_app3; len_lia). cbv beta iota.
  slice_bind. slice_bind. slice_bind.
  rewrite (ReadFull_app' 4 (putLE 4 (len mink))) by len_lia. rstep.
  rewrite (getLE_putLE32 (len mink)) by lia. rewrite ReadSome_app. rstep.
  rewrite (ReadFull_app' 4 (putLE 4 (len maxk))) by len_lia. rstep.
  rewrite (getLE_putLE32 (len maxk)) by lia. rewrite ReadSome_app. rstep.
  rewrite (ReadFull_app' 4 (putLE 4 crc)) by len_lia. rstep.
  rewrite !getLE_putLE32 by lia.
  rewrite !getLE_putLE64 by (try lia; apply Z.mod_pos_bound; lia). rewrite i64_u64 by lia.
  rewrite <- Ep, <- Ecrc, Z.eqb_refl. done.
Qed.

Lemma readRecord_mono s rec r q : readRecord s = Ok (rec, r) -> readRecord (s ++ q) = Ok (rec, r ++ q).
Proof.
  unfold readRecord. intros H. do 11 mono_step q H. case_match; [done|]. by simplify_eq.
Qed.

(** [readRecord] returns a record or an error on any bytes. *)
Lemma readRecord_total s : (exists rec r, readRecord s = Ok (rec, r)) \/ exists e, readRecord s = Err e.
Proof.
  unfold readRecord.
  destruct (ReadFull_cases 1 s) as [(a1 & s1 & -> & H1)|(e & ->)]; [lia|rstep|eauto].
  destruct a1 as [|typ a1]; [done|]. change (index (typ :: a1) 0) with (Ok typ). rstep.
  destruct (ReadFull_cases 20 s1) as [(a2 & s2 & -> & H2)|(e & ->)]; [lia|rstep|eauto].
  destruct (slice_total a2 0 8) as [fn ->]; [lia|lia|]. rstep.
  destruct (slice_total a2 8 12) as [lv ->]; [lia|lia|]. rstep.
  destruct (slice_total a2 12 20) as [sz ->]; [lia|lia|]. rstep.
  destruct (ReadFull_cases 4 s2) as [(a3 & s3 & -> & H3)|(e & ->)]; [lia|rstep|eauto].
  destruct (ReadSome_cases (getLE a3) s3) as [(a4 & s4 & ->)|(e & ->)]; [rstep|eauto].
  destruct (ReadFull_cases 4 s4) as [(a5 & s5 & -> & H5)|(e & ->)]; [lia|rstep|eauto].
  destruct (ReadSome_cases (getLE a5) s5) as [(a6 & s6 & ->)|(e & ->)]; [rstep|eauto].
  destruct (ReadFull_cases 4 s6) as [(a7 & s7 & -> & H7)|(e & ->)]; [lia|rstep|eauto].
  destruct (negb _); eauto.
Qed.

(** A proper prefix of a record is not a record. *)
Lemma readRecord_torn rec q rest :
  meta_fits (mr_meta rec) -> encodeManifestRecord rec = q ++ rest -> rest <> [] -> exists e, readRecord q = Err e.
Proof.
  intros Hfit Heq Hrest. destruct (readRecord_total q) as [(rec' & r & E)|]; [|done].
  apply (readRecord_mono _ _ _ rest) in E. rewrite <- Heq in E.
  pose proof (readRecord_encode rec [] Hfit) as E'. rewrite app_nil_r, E in E'.
  injection E' as _ [_ Hn]%app_nil. done.
Qed.

Lemma encode_records_cons rec recs : encode_records (rec :: recs) = encodeManifestRecord rec ++ encode_records recs.
Proof. done. Qed.

Lemma encode_records_app recs recs' : encode_records (recs ++ recs') = encode_records recs ++ encode_records recs'.
Proof. unfold encode_records. by rewrite fmap_app, concat_app. Qed.

Lemma encode_records_one rec : encode_records [rec] = encodeManifestRecord rec.
Proof. unfold encode_records. cbn [fmap list_fmap concat]. apply app_nil_r. Qed.

Lemma length_encode_records recs : (length recs <= length (encode_records recs))%nat.
Proof.
  induction recs as [|rec recs IH]; [done|]. rewrite encode_records_cons, length_app, length_cons.
  assert (1 <= length (encodeManifestRecord rec))%nat
    by (unfold encodeManifestRecord, encodeManifestRecordPayload; simpl; lia). lia.
Qed.

(** Replay of intact records and a torn or empty tail. *)
Lemma manifest_replay_all recs q fuel levels :
  Forall (fun rec => meta_fits (mr_meta rec)) recs -> (exists e, readRecord q = Err e) -> (length recs < fuel)%nat ->
  manifest_replay fuel (encode_records recs ++ q) levels = Ok (apply_all recs levels).
Proof.
  intros Hfit [e Hq]. revert fuel levels. induction Hfit as [|rec recs Hr Hfit IH]; intros [|fuel] levels Hf; simpl in Hf; try lia.
  - cbn [manifest_replay]. change (encode_records [] ++ q) with q. by rewrite Hq.
  - cbn [manifest_replay]. rewrite encode_records_cons, <- app_assoc, readRecord_encode by done. apply IH. lia.
Qed.

(** ** Invariant and properties *)

(** The file holds the records [recs], all durable, and the levels are theirs. *)
Record mf_repr (maxLevels : nat) (m : Manifest) (f : File) (recs : list manifestRecord) : Prop := {
  mp_file : mf_file m = Some f;
  mp_contents : contents f = encode_records recs;
  mp_synced : synced f = length (contents f);
  mp_levels : mf_levels m = apply_all recs (replicate maxLevels []);
  mp_fits : Forall (fun rec => meta_fits (mr_meta rec)) recs
}.

Lemma apply_all_snoc recs rec levels : apply_all (recs ++ [rec]) levels = applyRecord rec (apply_all recs levels).
Proof. unfold apply_all. by rewrite fold_left_app. Qed.

(** What the operations write and how they change the levels. *)
Lemma mfop_run_unfold o m :
  mfop_run o m =
  (writeRecord (mr_typ (mfop_record o)) (mr_meta (mfop_record o));; set_levels (applyRecord (mfop_record o))) m.
Proof. by destruct o. Qed.

(** The disk after [writeRecord], on every exit. *)
Lemma writeRecord_disk typ meta m f recs n maxLevels r m' :
  mf_repr maxLevels m f recs -> writeRecord typ meta m = (r, m') ->
  exists f' q, mf_file m' = Some f' /\ mf_levels m' = mf_levels m /\
    contents (crash n f') = encode_records recs ++ q /\ q `prefix_of` encodeManifestRecord (mkMRecord typ meta) /\
    (r = Ok tt -> q = encodeManifestRecord (mkMRecord typ meta) /\
       contents f' = encode_records recs ++ q /\ synced f' = length (contents f')).
Proof.
  intros [M1 M2 M3 M4 M5]. unfold writeRecord, wrap, mf_on_file, mbind, M_bind. rewrite M1.
  unfold encodeManifestRecord. cbn [mr_typ mr_meta]. generalize (encodeManifestRecordPayload typ meta). intros payload.
  generalize (putLE 4 (ChecksumIEEE payload)). intros crc.
  assert (forall f1 q0, contents f1 = encode_records recs ++ q0 -> (length (contents f) <= synced f1)%nat ->
    q0 `prefix_of` payload ++ crc -> exists q, contents (crash n f1) = encode_records recs ++ q /\ q `prefix_of` payload ++ crc) as Hcrash.
  { intros f1 q0 Hc Hs Hq. simpl. rewrite Hc, take_app_ge by (rewrite <- M2; lia). eexists. split; [done|].
    etrans; [|exact Hq]. by apply prefix_take. }
  destruct (File_Write payload f) as [r1 f1] eqn:E1.
  pose proof (File_Write_prefix _ _ _ _ E1) as (q1 & Hq1 & Hc1 & Hs1). rewrite M2 in Hc1.
  assert (length (contents f) <= synced f1)%nat as Hle1 by (rewrite Hs1, M3; lia).
  destruct r1 as [n1|e1| |]; simpl; try (intros ?; simplify_eq/=;
    destruct (Hcrash f1 q1 Hc1 Hle1) as (q & ? & ?); [by apply prefix_app_r|by eexists f1, q]).
  apply File_Write_Ok in E1 as (_ & Hc1' & _). rewrite M2 in Hc1'.
  destruct (File_Write crc f1) as [r2 f2] eqn:E2.
  pose proof (File_Write_prefix _ _ _ _ E2) as (q2 & Hq2 & Hc2 & Hs2). rewrite Hc1', <- app_assoc in Hc2.
  assert (length (contents f) <= synced f2)%nat as Hle2 by (rewrite Hs2; lia).
  destruct r2 as [n2|e2| |]; simpl; try (intros ?; simplify_eq/=;
    destruct (Hcrash f2 (payload ++ q2) Hc2 Hle2) as (q & ? & ?); [by apply prefix_app|by eexists f2, q]).
  apply File_Write_Ok in E2 as (_ & Hc2' & _). rewrite Hc1', <- app_assoc in Hc2'.
  destruct (File_Sync f2) as [r3 f3] eqn:E3. pose proof (File_Sync_any _ _ _ E3) as [Hc3 Hs3]. rewrite Hc2' in Hc3, Hs3.
  assert (length (contents f) <= synced f3)%nat as Hle3.
  { destruct Hs3 as [-> | ->]; [lia|]. rewrite M2, length_app. lia. }
  destruct r3 as [u|e3| |]; simpl; try (intros ?; simplify_eq/=;
    destruct (Hcrash f3 (payload ++ crc) Hc3 Hle3) as (q & ? & ?); [done|by eexists f3, q]).
  intros ?; simplify_eq/=. apply File_Sync_Ok in E3 as (_ & Hsy & _). rewrite Hc2' in Hsy.
  exists f3, (payload ++ crc). split_and!; try done; rewrite ?Hsy, ?Hc3; [|done].
  rewrite take_ge; [done|lia].
Qed.

Lemma OpenManifest_replay recs q f plan maxLevels :
  Forall (fun rec => meta_fits (mr_meta rec)) recs -> contents f = encode_records recs ++ q ->
  (exists e, readRecord q = Err e) ->
  OpenManifest (Ok plan) f maxLevels =
  Ok (mkManifest (Some (mkFile (contents f) (synced f) plan false)) (apply_all recs (replicate maxLevels []))).
Proof.
  intros Hfit Hc Hq. unfold OpenManifest. rstep. rewrite Hc, manifest_replay_all; [done|done|done|].
  pose proof (length_encode_records recs). rewrite length_app. lia.
Qed.

Lemma readRecord_nil : exists e, readRecord [] = Err e.
Proof. eexists. reflexivity. Qed.

Lemma OpenManifest_prefix recs rec q f plan maxLevels :
  Forall (fun rec => meta_fits (mr_meta rec)) recs -> meta_fits (mr_meta rec) ->
  contents f = encode_records recs ++ q -> q `prefix_of` encodeManifestRecord rec ->
  exists m, OpenManifest (Ok plan) f maxLevels = Ok m /\
    let before := apply_all recs (replicate maxLevels []) in
    (q <> encodeManifestRecord rec /\ mf_levels m = before) \/
    (q = encodeManifestRecord rec /\ mf_levels m = applyRecord rec before).
Proof.
  intros Hfit Hr Hc [rest Hrest]. destruct (decide (rest = [])) as [->|Hne].
  - rewrite app_nil_r in Hrest. rewrite (OpenManifest_replay (recs ++ [rec]) []); [|by apply Forall_app_2; [|constructor]| |exact readRecord_nil].
    + eexists. split; [done|]. right. split; [done|]. apply apply_all_snoc.
    + by rewrite app_nil_r, encode_records_app, encode_records_one, Hc, Hrest.
  - rewrite (OpenManifest_replay recs q); [|done|done|by eapply readRecord_torn]. eexists. split; [done|]. left.
    split; [|done]. intros ->. apply Hne. apply (app_inv_head (encodeManifestRecord rec)). by rewrite app_nil_r, <- Hrest.
Qed.

(** C29.  Crash atomicity of the manifest.  From a manifest whose file holds
    the records [recs], run one [AddFile] or [RemoveFile] on a device that may
    fail at any call, then lose power at any byte not yet synced: reopening
    succeeds and yields the levels from before or from after the operation;
    after a successful return it yields the levels the operation left in
    memory. *)
Theorem manifest_crash_atomic :
  forall (maxLevels : nat) (m m' : Manifest) (f : File) (recs : list manifestRecord) (o : mfop)
    (r : res unit) (n : nat) (plan : list fault),
  mf_repr maxLevels m f recs -> meta_fits (mr_meta (mfop_record o)) -> mfop_run o m = (r, m') ->
  exists f' m2, mf_file m' = Some f' /\ OpenManifest (Ok plan) (crash n f') maxLevels = Ok m2 /\
    (mf_levels m2 = mf_levels m \/ mf_levels m2 = applyRecord (mfop_record o) (mf_levels m)) /\
    (r = Ok tt -> mf_levels m2 = mf_levels m').
Proof.
  intros maxLevels m m' f recs o r n plan Hm Hfit Hrun. rewrite mfop_run_unfold in Hrun.
  unfold mbind, M_bind, set_levels in Hrun. destruct (writeRecord _ _ m) as [r1 m1] eqn:Ew.
  destruct (writeRecord_disk _ _ _ _ _ n _ _ _ Hm Ew) as (f' & q & Hf' & Hl & Hc & Hq & Hok).
  pose proof Hm as [M1 M2 M3 M4 M5]. replace (mkMRecord _ _) with (mfop_record o) in * by (by destruct (mfop_record o)).
  destruct (OpenManifest_prefix recs (mfop_record o) q (crash n f') plan maxLevels M5 Hfit Hc Hq) as (m2 & Eo & Hm2).
  exists f', m2. assert (mf_file m' = Some f') as -> by (destruct r1; injection Hrun as <- <-; done).
  rewrite M4. split_and!; [done|done|by destruct Hm2 as [[_ ?]|[_ ?]]; auto|].
  intros ->. destruct r1 as [[]| | |]; simplify_eq/=. destruct (Hok eq_refl) as (-> & _ & _).
  rewrite Hl, M4. by destruct Hm2 as [[? _]|[_ ?]].
Qed.

Lemma mf_repr_empty maxLevels plan :
  mf_repr maxLevels (mkManifest (Some (mkFile [] 0 plan false)) (replicate maxLevels [])) (mkFile [] 0 plan false) [].
Proof. by split. Qed.

(** [AddFile] on an empty manifest whose device fails at the second call, where
    it writes two bytes, and then loses all but one of them; and on one that
    works. *)
Lemma manifest_crash_atomic_witness :
  let meta := mkMeta 7 0 100 [x61] [x7a] in
  let m plan := mkManifest (Some (mkFile [] 0 plan false)) [[]; []] in
  let run plan := Manifest_AddFile meta (m plan) in
  ((run [None; Some 2%nat]).1 <> Ok tt /\
   exists f' m2, mf_file (run [None; Some 2%nat]).2 = Some f' /\ OpenManifest (Ok []) (crash 1 f') 2 = Ok m2 /\
     (mf_levels m2 = [[]; []] \/ mf_levels m2 = [[meta]; []])) /\
  ((run []).1 = Ok tt /\
   exists f' m2, mf_file (run []).2 = Some f' /\ OpenManifest (Ok []) (crash 0 f') 2 = Ok m2 /\ mf_levels m2 = [[meta]; []]).
Proof.
  intros meta m run.
  assert (meta_fits (mr_meta (mfop_record (MAdd meta)))) as Hfit by (repeat split; vm_compute; congruence).
  split; (split; [by vm_compute|]).
  - destruct (manifest_crash_atomic 2 _ _ _ [] (MAdd meta) _ 1 [] (mf_repr_empty 2 [None; Some 2%nat]) Hfit (surjective_pairing _))
      as (f' & m2 & Hf & H & H' & _). exists f', m2. split; [exact Hf|]. split; [exact H|exact H'].
  - destruct (manifest_crash_atomic 2 _ _ _ [] (MAdd meta) _ 0 [] (mf_repr_empty 2 []) Hfit (surjective_pairing _))
      as (f' & m2 & Hf & H & _ & H'). exists f', m2. split; [exact Hf|]. split; [exact H|]. rewrite H' by (by vm_compute). by vm_compute.
Defined.

(** ** Sequences of operations *)

Fixpoint mfops_run (os : list mfop) : M Manifest unit :=
  match os with
  | [] => mret tt
  | o :: os => mfop_run o;; mfops_run os
  end.

Lemma writeRecord_healthy typ meta m f :
  mf_file m = Some f -> healthy f ->
  exists f', writeRecord typ meta m = (Ok tt, mkManifest (Some f') (mf_levels m)) /\ healthy f'.
Proof.
  intros Hm Hf. unfold writeRecord, wrap, mf_on_file, mbind, M_bind. rewrite Hm.
  rewrite File_Write_healthy by done. cbn [mf_file mf_levels]. cbv beta iota.
  rewrite File_Write_healthy by done. cbn [mf_file mf_levels]. cbv beta iota.
  rewrite File_Sync_healthy by done. eauto using healthy_grow.
Qed.

Lemma mfop_run_ok maxLevels o m f recs :
  mf_repr maxLevels m f recs -> healthy f -> meta_fits (mr_meta (mfop_record o)) ->
  exists m' f', mfop_run o m = (Ok tt, m') /\ mf_repr maxLevels m' f' (recs ++ [mfop_record o]) /\ healthy f'.
Proof.
  intros Hm Hh Hfit. pose proof Hm as [M1 M2 M3 M4 M5]. rewrite mfop_run_unfold.
  destruct (writeRecord_healthy (mr_typ (mfop_record o)) (mr_meta (mfop_record o)) m f M1 Hh) as (f' & Ew & Hh').
  destruct (writeRecord_disk _ _ _ _ _ 0 _ _ _ Hm Ew) as (f1 & q & Hf1 & _ & _ & _ & Hok). injection Hf1 as <-.
  destruct (Hok eq_refl) as (-> & Hc & Hs). rewrite (M_bind_run _ _ _ _ _ Ew).
  eexists _, f'. split; [done|]. split; [|done]. split; simpl; try done.
  - rewrite Hc, encode_records_app, encode_records_one. by destruct (mfop_record o).
  - by rewrite apply_all_snoc, M4.
  - apply Forall_app_2; [done|]. by constructor.
Qed.

Lemma mfops_run_ok maxLevels os m f recs :
  mf_repr maxLevels m f recs -> healthy f -> Forall (fun o => meta_fits (mr_meta (mfop_record o))) os ->
  exists m' f', mfops_run os m = (Ok tt, m') /\ mf_repr maxLevels m' f' (recs ++ (mfop_record <$> os)).
Proof.
  intros Hm Hh Hos. revert m f recs Hm Hh. induction Hos as [|o os Ho Hos IH]; intros m f recs Hm Hh.
  - exists m, f. by rewrite app_nil_r.
  - cbn [mfops_run]. destruct (mfop_run_ok _ o _ _ _ Hm Hh Ho) as (m1 & f1 & E & Hm1 & Hh1).
    rewrite (M_bind_run _ _ _ _ _ E). destruct (IH _ _ _ Hm1 Hh1) as (m2 & f2 & E2 & Hm2).
    exists m2, f2. split; [done|]. by rewrite <- app_assoc in Hm2.
Qed.

(** The manifest on disk is the manifest in memory.  On a device without
    faults, any sequence of [AddFile] and [RemoveFile] on a fresh manifest
    succeeds, its levels are those of the records in order, and reopening the
    file after a power failure rebuilds the same levels. *)
Theorem manifest_reopen :
  forall (maxLevels : nat) (os : list mfop) (n : nat),
  Forall (fun o => meta_fits (mr_meta (mfop_record o))) os ->
  exists m m' f' m2, OpenManifest (Ok []) (mkFile [] 0 [] false) maxLevels = Ok m /\
    mfops_run os m = (Ok tt, m') /\ mf_file m' = Some f' /\
    mf_levels m' = apply_all (mfop_record <$> os) (replicate maxLevels []) /\
    OpenManifest (Ok []) (crash n f') maxLevels = Ok m2 /\
    Manifest_GetAllLevels m2 = Manifest_GetAllLevels m'.
Proof.
  intros maxLevels os n Hos. eexists.
  destruct (mfops_run_ok maxLevels os _ _ [] (mf_repr_empty maxLevels [])) as (m' & f' & E & [M1 M2 M3 M4 M5]); [done|done|].
  exists m', f'. eexists. split_and!; [reflexivity|done|done|done| |].
  - apply (OpenManifest_replay (mfop_record <$> os) []); [done| |exact readRecord_nil].
    simpl. rewrite M3, take_ge, app_nil_r by lia. done.
  - unfold Manifest_GetAllLevels. by rewrite M4.
Qed.

