(* ===== verification/Protocol.v ===== *)
(** * server/protocol.go: the wire protocol

    Frames written through a [bufio.Writer] and read back from the stream of
    bytes sent, and the payload codecs.  Lengths read from a payload are Go
    [uint32]s and sums of them wrap ([u32]) exactly where the code adds
    [uint32]s, so a decoder can pass its length check and then panic on the
    slice: [protocol_decode_panics] says for which payloads. *)

From S2P Require Import Prelude GoStd.

Definition CmdPut : byte := x01.
Definition CmdGet : byte := x02.
Definition CmdDelete : byte := x03.
Definition CmdBatchPut : byte := x04.
Definition CmdGetRange : byte := x05.

Definition StatusOK : byte := x00.
Definition StatusNotFound : byte := x01.
Definition StatusError : byte := x02.

(** ** Frames *)

Definition read_frame (too_short : error) (s : bytes) : res (byte * bytes * bytes) :=
  '(lenBuf, s) ← ReadFull 4 s;
  let length := getLE lenBuf in
  if length <? 1 then Err too_short else
  '(frame, s) ← ReadFull length s;
  cmd ← index frame 0;
  payload ← slice frame 1 (len frame);
  Ok (cmd, payload, s).

(** The frame at the head of the stream, and the rest of the stream. *)
Definition ReadFrame : bytes -> res (byte * bytes * bytes) :=
  read_frame (Errorf "protocol: frame too short").
Definition ReadResponse : bytes -> res (byte * bytes * bytes) :=
  read_frame (Errorf "protocol: response frame too short").

Definition write_frame (tag : byte) (payload : bytes) : M Bufio unit :=
  bufio_Write (putLE 4 (u32 (1 + len payload)));;
  bufio_WriteByte tag;;
  (if 0 <? len payload then bufio_Write payload;; mret tt else mret tt);;
  bufio_Flush.

Definition WriteResponse (status : byte) (payload : bytes) : M Bufio unit := write_frame status payload.
Definition WriteRequest (cmd : byte) (payload : bytes) : M Bufio unit := write_frame cmd payload.

(** ** Payloads *)

Definition EncodePut (key value : bytes) : bytes :=
  putLE 4 (u32 (len key)) ++ key ++ putLE 4 (u32 (len value)) ++ value.

Definition DecodePut (payload : bytes) : res (bytes * bytes) :=
  if len payload <? 4 then Err (Errorf "protocol: put payload too short") else
  keyLen ← uint_at payload 0 4;
  if len payload <? u32 (u32 (4 + keyLen) + 4) then Err (Errorf "protocol: put payload too short for key") else
  key ← slice payload 4 (u32 (4 + keyLen));
  valLen ← uint_at payload (u32 (4 + keyLen)) (u32 (8 + keyLen));
  if len payload <? u32 (u32 (8 + keyLen) + valLen) then Err (Errorf "protocol: put payload too short for value") else
  value ← slice payload (u32 (8 + keyLen)) (u32 (u32 (8 + keyLen) + valLen));
  Ok (key, value).

Definition EncodeKey (key : bytes) : bytes := putLE 4 (u32 (len key)) ++ key.

Definition DecodeKey (payload : bytes) : res bytes :=
  if len payload <? 4 then Err (Errorf "protocol: key payload too short") else
  keyLen ← uint_at payload 0 4;
  if len payload <? u32 (4 + keyLen) then Err (Errorf "protocol: key payload too short for key data") else
  slice payload 4 (u32 (4 + keyLen)).

(** One pair of a batch, from [values[i]]; a missing value is out of range. *)
Fixpoint encode_pairs (keys values : list bytes) : res bytes :=
  match keys, values with
  | [], _ => Ok []
  | _ :: _, [] => Panic
  | k :: keys, v :: values =>
      rest ← encode_pairs keys values;
      Ok (putLE 4 (u32 (len k)) ++ k ++ putLE 4 (u32 (len v)) ++ v ++ rest)
  end.

Definition EncodeBatchPut (keys values : list bytes) : res bytes :=
  pairs ← encode_pairs keys values;
  Ok (putLE 4 (u32 (len keys)) ++ pairs).

(** The loop of [DecodeBatchPut] for the remaining [n] pairs; offsets are
    [int]s. *)
Fixpoint decode_pairs (n : nat) (off : Z) (payload : bytes) : res (list bytes * list bytes) :=
  match n with
  | O => Ok ([], [])
  | S n =>
      if len payload <? off + 4 then Err (Errorf "protocol: batch payload truncated at key len") else
      keyLen ← uint_at payload off (off + 4);
      let off := off + 4 in
      if len payload <? off + keyLen then Err (Errorf "protocol: batch payload truncated at key") else
      key ← slice payload off (off + keyLen);
      let off := off + keyLen in
      if len payload <? off + 4 then Err (Errorf "protocol: batch payload truncated at val len") else
      valLen ← uint_at payload off (off + 4);
      let off := off + 4 in
      if len payload <? off + valLen then Err (Errorf "protocol: batch payload truncated at val") else
      value ← slice payload off (off + valLen);
      '(keys, values) ← decode_pairs n (off + valLen) payload;
      Ok (key :: keys, value :: values)
  end.

(** The capacity the code asks for, of as many slices as the count says, is not
    part of the result: memory is not modelled. *)
Definition DecodeBatchPut (payload : bytes) : res (list bytes * list bytes) :=
  if len payload <? 4 then Err (Errorf "protocol: batch payload too short") else
  count ← uint_at payload 0 4;
  decode_pairs (Z.to_nat count) 4 payload.

Definition EncodeRange (startKey endKey : bytes) : bytes :=
  putLE 4 (u32 (len startKey)) ++ startKey ++ putLE 4 (u32 (len endKey)) ++ endKey.

Definition DecodeRange (payload : bytes) : res (bytes * bytes) :=
  if len payload <? 4 then Err (Errorf "protocol: range payload too short") else
  startLen ← uint_at payload 0 4;
  if len payload <? u32 (u32 (4 + startLen) + 4) then Err (Errorf "protocol: range payload too short for start key") else
  startKey ← slice payload 4 (u32 (4 + startLen));
  let off := u32 (4 + startLen) in
  endLen ← uint_at payload off (u32 (off + 4));
  if len payload <? u32 (u32 (off + 4) + endLen) then Err (Errorf "protocol: range payload too short for end key") else
  endKey ← slice payload (u32 (off + 4)) (u32 (u32 (off + 4) + endLen));
  Ok (startKey, endKey).

Definition EncodeValue (value : bytes) : bytes := putLE 4 (u32 (len value)) ++ value.

Definition DecodeValue (payload : bytes) : res bytes :=
  if len payload <? 4 then Err (Errorf "protocol: value payload too short") else
  valLen ← uint_at payload 0 4;
  if len payload <? u32 (4 + valLen) then Err (Errorf "protocol: value payload too short for data") else
  slice payload 4 (u32 (4 + valLen)).

Definition EncodeKVPairs : list bytes -> list bytes -> res bytes := EncodeBatchPut.
Definition DecodeKVPairs : bytes -> res (list bytes * list bytes) := DecodeBatchPut.

(** ** Codec round trips *)

Lemma DecodePut_Encode key value :
  8 + len key + len value < 2 ^ 32 -> DecodePut (EncodePut key value) = Ok (key, value).
Proof.
  intros Hl. pose proof (len_nonneg key). pose proof (len_nonneg value).
  unfold DecodePut, EncodePut. rewrite (u32_small (len key)), (u32_small (len value)) by lia.
  rewrite (proj2 (Z.ltb_ge _ 4)) by len_lia. uint_bind. rewrite getLE_putLE32 by lia.
  rewrite (u32_small (4 + len key)) by lia. rewrite (u32_small (4 + len key + 4)), (u32_small (8 + len key)) by lia.
  rewrite (proj2 (Z.ltb_ge _ _)) by len_lia. slice_bind. uint_bind. rewrite getLE_putLE32 by lia.
  rewrite u32_small by lia. rewrite (proj2 (Z.ltb_ge _ _)) by len_lia. slice_bind. done.
Qed.

Lemma DecodeRange_Encode a b : 8 + len a + len b < 2 ^ 32 -> DecodeRange (EncodeRange a b) = Ok (a, b).
Proof.
  intros Hl. pose proof (len_nonneg a). pose proof (len_nonneg b).
  unfold DecodeRange, EncodeRange. rewrite (u32_small (len a)), (u32_small (len b)) by lia.
  rewrite (proj2 (Z.ltb_ge _ 4)) by len_lia. uint_bind. rewrite getLE_putLE32 by lia.
  rewrite (u32_small (4 + len a)) by lia. rewrite (u32_small (4 + len a + 4)) by lia.
  rewrite (proj2 (Z.ltb_ge _ _)) by len_lia. slice_bind. cbv zeta. uint_bind. rewrite getLE_putLE32 by lia.
  rewrite u32_small by lia. rewrite (proj2 (Z.ltb_ge _ _)) by len_lia. slice_bind. done.
Qed.

Lemma DecodeKey_Encode key : 4 + len key < 2 ^ 32 -> DecodeKey (EncodeKey key) = Ok key.
Proof.
  intros Hl. pose proof (len_nonneg key). unfold DecodeKey, EncodeKey. rewrite (u32_small (len key)) by lia.
  rewrite (proj2 (Z.ltb_ge _ 4)) by len_lia. uint_bind. rewrite getLE_putLE32 by lia.
  rewrite u32_small by lia. rewrite (proj2 (Z.ltb_ge _ _)) by len_lia. slice_solve.
Qed.

Lemma DecodeValue_Encode value : 4 + len value < 2 ^ 32 -> DecodeValue (EncodeValue value) = Ok value.
Proof.
  intros Hl. pose proof (len_nonneg value). unfold DecodeValue, EncodeValue. rewrite (u32_small (len value)) by lia.
  rewrite (proj2 (Z.ltb_ge _ 4)) by len_lia. uint_bind. rewrite getLE_putLE32 by lia.
  rewrite u32_small by lia. rewrite (proj2 (Z.ltb_ge _ _)) by len_lia. slice_solve.
Qed.

(** Every length of a batch fits its 32-bit field. *)
Definition batch_fits (keys values : list bytes) : Prop :=
  len keys < 2 ^ 32 /\ Forall (fun b => len b < 2 ^ 32) keys /\ Forall (fun b => len b < 2 ^ 32) values.

Lemma pairs_roundtrip keys values pre :
  length keys = length values -> Forall (fun b => len b < 2 ^ 32) keys -> Forall (fun b => len b < 2 ^ 32) values ->
  exists p, encode_pairs keys values = Ok p /\
    decode_pairs (length keys) (len pre) (pre ++ p) = Ok (keys, values).
Proof.
  revert values pre. induction keys as [|k keys IH]; intros [|v values] pre Hl Hk Hv; simplify_eq/=.
  { by exists []. }
  apply Forall_cons in Hk as [Hk Hks], Hv as [Hv Hvs]. pose proof (len_nonneg k). pose proof (len_nonneg v).
  destruct (IH values (pre ++ putLE 4 (len k) ++ k ++ putLE 4 (len v) ++ v) Hl Hks Hvs) as (p & -> & IHp).
  rstep. eexists. split; [done|]. rewrite !u32_small by lia. rewrite <- !app_assoc in IHp.
  pose proof (len_nonneg pre). pose proof (len_nonneg p).
  rewrite (proj2 (Z.ltb_ge _ _)) by len_lia. uint_bind. rewrite getLE_putLE32 by lia.
  rewrite (proj2 (Z.ltb_ge _ _)) by len_lia. slice_bind.
  rewrite (proj2 (Z.ltb_ge _ _)) by len_lia. uint_bind. rewrite getLE_putLE32 by lia.
  rewrite (proj2 (Z.ltb_ge _ _)) by len_lia. slice_bind.
  autorewrite with kvlen in IHp.
  replace (len pre + 4 + len k + 4 + len v) with (len pre + (Z.of_nat 4 + (len k + (Z.of_nat 4 + len v)))) by lia.
  by rewrite IHp.
Qed.

Lemma DecodeBatchPut_Encode keys values :
  length keys = length values -> batch_fits keys values ->
  exists p, EncodeBatchPut keys values = Ok p /\ DecodeBatchPut p = Ok (keys, values).
Proof.
  intros Hl (Hn & Hk & Hv). unfold EncodeBatchPut, DecodeBatchPut. pose proof (len_nonneg keys).
  rewrite u32_small by lia.
  destruct (pairs_roundtrip keys values (putLE 4 (len keys)) Hl Hk Hv) as (p & -> & Hp). rstep.
  eexists. split; [done|]. pose proof (len_nonneg p).
  rewrite (proj2 (Z.ltb_ge _ 4)) by len_lia. uint_bind. rewrite getLE_putLE32 by lia.
  replace (Z.to_nat (len keys)) with (length keys) by (unfold len; lia). by rewrite len_putLE in Hp.
Qed.

(** ** The batch decoder does not panic *)

Definition returns {A} (r : res A) : Prop := (exists a, r = Ok a) \/ exists e, r = Err e.

Lemma decode_pairs_returns n off payload : 0 <= off -> returns (decode_pairs n off payload).
Proof.
  revert off. induction n as [|n IH]; intros off Hoff; cbn [decode_pairs]; [left; eauto|].
  destruct (Z.ltb_spec (len payload) (off + 4)); [right; eauto|].
  destruct (uint_at_total payload off (off + 4)) as (kl & -> & Hkl); [lia|lia|]. rstep. cbv zeta.
  destruct (Z.ltb_spec (len payload) (off + 4 + kl)); [right; eauto|]. rewrite slice_ok by lia. rstep.
  destruct (Z.ltb_spec (len payload) (off + 4 + kl + 4)); [right; eauto|].
  destruct (uint_at_total payload (off + 4 + kl) (off + 4 + kl + 4)) as (vl & -> & Hvl); [lia|lia|]. rstep.
  destruct (Z.ltb_spec (len payload) (off + 4 + kl + 4 + vl)); [right; eauto|]. rewrite slice_ok by lia. rstep.
  destruct (IH (off + 4 + kl + 4 + vl)) as [([ks vs] & ->)|(e & ->)]; [lia|left|right]; eauto.
Qed.

Lemma DecodeBatchPut_returns payload : returns (DecodeBatchPut payload).
Proof.
  unfold DecodeBatchPut. destruct (Z.ltb_spec (len payload) 4); [right; eauto|].
  destruct (uint_at_total payload 0 4) as (c & -> & _); [lia|lia|]. rstep. by apply decode_pairs_returns.
Qed.

(** ** Frames *)

Definition frame_bytes (tag : byte) (payload : bytes) : bytes := putLE 4 (1 + len payload) ++ [tag] ++ payload.

Lemma write_frame_healthy tag payload b :
  berr b = None -> healthy (bfile b) -> bbuf b = [] -> 1 + len payload < 2 ^ 32 ->
  exists b', write_frame tag payload b = (Ok tt, b') /\ berr b' = None /\ healthy (bfile b') /\ bbuf b' = [] /\
    contents (bfile b') = contents (bfile b) ++ frame_bytes tag payload.
Proof.
  intros He Hh Hb Hl. pose proof (len_nonneg payload). unfold write_frame, frame_bytes. rewrite u32_small by lia.
  destruct (bufio_Write_nofault (putLE 4 (1 + len payload)) b He Hh) as (b1 & E1 & Hh1).
  rewrite (M_bind_run _ _ _ _ _ E1). apply bufio_Write_Ok in E1 as (_ & He1 & _ & Hs1).
  destruct (bufio_WriteByte_nofault tag b1 He1 Hh1) as (b2 & E2 & He2 & Hh2).
  rewrite (M_bind_run _ _ _ _ _ E2). apply bufio_WriteByte_Ok in E2 as (_ & Hs2).
  assert (exists b3, (if 0 <? len payload then bufio_Write payload;; mret tt else mret tt) b2 = (Ok tt, b3) /\
    berr b3 = None /\ healthy (bfile b3) /\ bstream b3 = bstream b2 ++ payload) as (b3 & E3 & He3 & Hh3 & Hs3).
  { destruct (Z.ltb_spec 0 (len payload)).
    - destruct (bufio_Write_nofault payload b2 He2 Hh2) as (b3 & E3 & Hh3). exists b3.
      rewrite (M_bind_run _ _ _ _ _ E3). apply bufio_Write_Ok in E3 as (_ & He3 & _ & Hs3). done.
    - exists b2. rewrite (len_0_nil payload) by lia. by rewrite app_nil_r. }
  rewrite (M_bind_run _ _ _ _ _ E3). destruct (bufio_Flush_nofault b3 He3 Hh3) as (b4 & E4 & Hh4).
  exists b4. pose proof E4 as E4'. apply bufio_Flush_Ok in E4' as (_ & He4 & Hb4 & Hc4).
  split_and!; try done. rewrite Hc4, Hs3, Hs2, Hs1. unfold bstream. rewrite Hb, app_nil_r. by rewrite <- !app_assoc.
Qed.

Lemma read_frame_bytes err tag payload s :
  1 + len payload < 2 ^ 32 -> read_frame err (frame_bytes tag payload ++ s) = Ok (tag, payload, s).
Proof.
  intros Hl. pose proof (len_nonneg payload). unfold read_frame, frame_bytes. rewrite <- app_assoc.
  rewrite (ReadFull_app' 4 (putLE 4 (1 + len payload))) by len_lia. rstep. rewrite getLE_putLE32 by lia.
  rewrite (proj2 (Z.ltb_ge _ 1)) by lia. rewrite ReadFull_app' by len_lia. rstep.
  change (index ([tag] ++ payload) 0) with (Ok tag). rstep. slice_bind. done.
Qed.

(** ** Properties *)

(** C31.  The wire protocol round trip.  A request or response written to a
    working connection is read back by the peer with its tag and payload, the
    stream positioned after it; and each payload codec decodes what its
    encoder made, when the payload fits the 32-bit frame length. *)
Theorem protocol_roundtrip :
  forall (tag : byte) (payload s : bytes) (b : Bufio) (key value : bytes) (keys values : list bytes),
  berr b = None -> healthy (bfile b) -> bbuf b = [] -> 1 + len payload < 2 ^ 32 ->
  8 + len key + len value < 2 ^ 32 -> length keys = length values -> batch_fits keys values ->
  (exists b', WriteRequest tag payload b = (Ok tt, b') /\ WriteResponse tag payload b = (Ok tt, b') /\ bbuf b' = [] /\
    contents (bfile b') = contents (bfile b) ++ frame_bytes tag payload /\
    ReadFrame (frame_bytes tag payload ++ s) = Ok (tag, payload, s) /\
    ReadResponse (frame_bytes tag payload ++ s) = Ok (tag, payload, s)) /\
  DecodePut (EncodePut key value) = Ok (key, value) /\
  DecodeRange (EncodeRange key value) = Ok (key, value) /\
  DecodeKey (EncodeKey key) = Ok key /\
  DecodeValue (EncodeValue value) = Ok value /\
  exists p, EncodeBatchPut keys values = Ok p /\ DecodeBatchPut p = Ok (keys, values).
Proof.
  intros tag payload s b key value keys values He Hh Hb Hl Hkv Hn Hfit.
  pose proof (len_nonneg key). pose proof (len_nonneg value). split.
  - destruct (write_frame_healthy tag payload b He Hh Hb Hl) as (b' & E & _ & _ & Hb' & Hc).
    exists b'. split_and!; try done; by apply read_frame_bytes.
  - split_and!; [by apply DecodePut_Encode|by apply DecodeRange_Encode|apply DecodeKey_Encode; lia
      |apply DecodeValue_Encode; lia|by apply DecodeBatchPut_Encode].
Qed.

Lemma protocol_roundtrip_witness :
  let b := bufio_NewWriter (mkFile [] 0 [] false) in
  (exists b', WriteRequest CmdPut [x61; x62] b = (Ok tt, b') /\ WriteResponse CmdPut [x61; x62] b = (Ok tt, b') /\ bbuf b' = [] /\
    contents (bfile b') = frame_bytes CmdPut [x61; x62] /\
    ReadFrame (frame_bytes CmdPut [x61; x62] ++ [x00]) = Ok (CmdPut, [x61; x62], [x00]) /\
    ReadResponse (frame_bytes CmdPut [x61; x62] ++ [x00]) = Ok (CmdPut, [x61; x62], [x00])) /\
  DecodePut (EncodePut [x61] [x62]) = Ok ([x61], [x62]) /\
  DecodeRange (EncodeRange [x61] [x62]) = Ok ([x61], [x62]) /\
  DecodeKey (EncodeKey [x61]) = Ok [x61] /\ DecodeValue (EncodeValue [x62]) = Ok [x62] /\
  exists p, EncodeBatchPut [[x61]] [[x62]] = Ok p /\ DecodeBatchPut p = Ok ([[x61]], [[x62]]).
Proof.
  intros b. apply (protocol_roundtrip CmdPut [x61; x62] [x00] b [x61] [x62] [[x61]] [[x62]]);
    try reflexivity; repeat constructor.
Defined.

(** C33.  A decoder panics on a length near 2^32.  The length checks add in
    32 bits and wrap, so on every payload of at least 8 bytes whose key length
    field is 2^32 - 8 or more [DecodePut] and [DecodeRange] panic, and so do
    [DecodeKey] and [DecodeValue] from 2^32 - 4 on; the batch decoder, which
    adds in [int], never panics. *)
Theorem protocol_decode_panics :
  forall (payload : bytes) (keyLen : Z),
  8 <= len payload < 2 ^ 31 -> uint_at payload 0 4 = Ok keyLen ->
  (2 ^ 32 - 8 <= keyLen < 2 ^ 32 -> DecodePut payload = Panic /\ DecodeRange payload = Panic) /\
  (2 ^ 32 - 4 <= keyLen < 2 ^ 32 -> DecodeKey payload = Panic /\ DecodeValue payload = Panic) /\
  DecodeBatchPut payload <> Panic.
Proof.
  intros payload keyLen Hl Hk. unfold DecodePut, DecodeRange, DecodeKey, DecodeValue.
  rewrite Hk, (proj2 (Z.ltb_ge _ 4)) by lia. rstep.
  assert (forall z, 2 ^ 32 <= z < 2 ^ 33 -> u32 z = z - 2 ^ 32) as Hwrap.
  { intros z Hz. unfold u32. symmetry. apply (Z.mod_unique _ _ 1); lia. }
  split_and!.
  - intros Hbig. assert (u32 (u32 (4 + keyLen) + 4) = keyLen + 8 - 2 ^ 32) as ->.
    { unfold u32 at 1 2. rewrite Zplus_mod_idemp_l. fold (u32 (4 + keyLen + 4)). rewrite Hwrap; lia. }
    rewrite (proj2 (Z.ltb_ge _ _)) by lia.
    assert (slice payload 4 (u32 (4 + keyLen)) = Panic) as ->; [|done].
    destruct (Z.lt_ge_cases (4 + keyLen) (2 ^ 32)).
    + rewrite u32_small by lia. unfold slice. rewrite (proj2 (Z.leb_gt (4 + keyLen) _)) by lia.
      by rewrite andb_false_r.
    + rewrite Hwrap by lia. apply slice_panic. lia.
  - intros Hbig. rewrite Hwrap by lia. rewrite (proj2 (Z.ltb_ge _ _)) by lia. rewrite slice_panic by lia. done.
  - destruct (DecodeBatchPut_returns payload) as [(? & ->)|(? & ->)]; done.
Qed.

Lemma protocol_decode_panics_witness :
  let payload := [xff; xff; xff; xff; x00; x00; x00; x00] in
  DecodePut payload = Panic /\ DecodeKey payload = Panic /\ DecodeBatchPut payload <> Panic.
Proof.
  intros payload. destruct (protocol_decode_panics payload (2 ^ 32 - 1)) as (H1 & H2 & H3).
  - vm_compute. split; congruence.
  - vm_compute. reflexivity.
  - destruct H1 as [H1 _]; [lia|]. destruct H2 as [H2 _]; [lia|]. auto.
Defined.
