(* ===== verification/RaftLog.v ===== *)
(** * raft/log.go: commands and the persistent Raft log

    The command codecs, and the log: the entries in memory and the file they
    are written to.  Operations run under the log's mutex.  The file is not
    opened for appending, but its position is its end whenever it is written.

    The theorems cover the codecs, recovery of appended entries after any
    device fault and power failure, and the index arithmetic of the lookups
    and of truncation on a log with consecutive indices. *)

From S2P Require Import Prelude GoStd Protocol.

Definition CmdRaftPut : byte := x01.
Definition CmdRaftDelete : byte := x02.
Definition CmdRaftBatchPut : byte := x03.

Record LogEntry := mkLogEntry {
  Term : Z;
  Index : Z;
  CmdType : byte;
  Data : bytes
}.

(** ** Commands *)

Definition EncodePutCommand (key value : bytes) : bytes :=
  putLE 4 (u32 (len key)) ++ key ++ putLE 4 (u32 (len value)) ++ value.

(** Offsets are [uint32]s and wrap; nothing is checked before slicing. *)
Definition DecodePutCommand (data : bytes) : res (bytes * bytes) :=
  keyLen ← uint_at data 0 4;
  key ← slice data 4 (u32 (4 + keyLen));
  valLen ← uint_at data (u32 (4 + keyLen)) (u32 (8 + keyLen));
  value ← slice data (u32 (8 + keyLen)) (u32 (u32 (8 + keyLen) + valLen));
  Ok (key, value).

Definition EncodeDeleteCommand (key : bytes) : bytes := putLE 4 (u32 (len key)) ++ key.

Definition DecodeDeleteCommand (data : bytes) : res bytes :=
  keyLen ← uint_at data 0 4;
  slice data 4 (u32 (4 + keyLen)).

(** The loop over the pairs is the one of [EncodeBatchPut]. *)
Definition EncodeBatchPutCommand (keys values : list bytes) : res bytes :=
  pairs ← encode_pairs keys values;
  Ok (putLE 4 (u32 (len keys)) ++ pairs).

Fixpoint decode_command_pairs (n : nat) (off : Z) (data : bytes) : res (list bytes * list bytes) :=
  match n with
  | O => Ok ([], [])
  | S n =>
      keyLen ← uint_at data off (off + 4);
      let off := off + 4 in
      key ← slice data off (off + keyLen);
      let off := off + keyLen in
      valLen ← uint_at data off (off + 4);
      let off := off + 4 in
      value ← slice data off (off + valLen);
      '(keys, values) ← decode_command_pairs n (off + valLen) data;
      Ok (key :: keys, value :: values)
  end.

Definition DecodeBatchPutCommand (data : bytes) : res (list bytes * list bytes) :=
  count ← uint_at data 0 4;
  decode_command_pairs (Z.to_nat count) 4 data.

(** ** The log *)

Record Log := mkLog {
  rl_entries : list LogEntry;
  rl_file : File
}.

Definition readEntry (s : bytes) : res (LogEntry * bytes) :=
  '(header, s) ← ReadFull 21 s;
  term ← uint_at header 0 8;
  index ← uint_at header 8 16;
  cmdType ← Prelude.index header 16;
  dataLen ← uint_at header 17 21;
  '(data, s) ← ReadSome dataLen s;
  Ok (mkLogEntry term index cmdType data, s).

(** The loop of [replay]; any error ends it. *)
Fixpoint log_replay (fuel : nat) (s : bytes) : res (list LogEntry) :=
  match fuel with
  | O => OutOfFuel
  | S fuel =>
      match readEntry s with
      | Ok (e, s) => es ← log_replay fuel s; Ok (e :: es)
      | Err _ => Ok []
      | Panic => Panic
      | OutOfFuel => OutOfFuel
      end
  end.

(** [opened]: the fault plan of the file, or the error of [os.MkdirAll] or
    [os.OpenFile]. *)
Definition OpenLog (opened : res (list fault)) (old : File) : res Log :=
  plan ← opened;
  es ← log_replay (S (length (contents old))) (contents old);
  Ok (mkLog es (mkFile (contents old) (synced old) plan false)).

Definition entry_header (e : LogEntry) : bytes :=
  putLE 8 (Term e) ++ putLE 8 (Index e) ++ [CmdType e] ++ putLE 4 (u32 (len (Data e))).

Definition writeEntry (e : LogEntry) : M File unit :=
  File_Write (entry_header e);;
  if 0 <? len (Data e) then File_Write (Data e);; mret tt else mret tt.

Definition rl_on_file {A} (m : M File A) : M Log A := fun l =>
  let '(r, f) := m (rl_file l) in (r, mkLog (rl_entries l) f).

Definition push_entry (e : LogEntry) : M Log unit := fun l =>
  (Ok tt, mkLog (rl_entries l ++ [e]) (rl_file l)).

(** The loop of [Append]. *)
Fixpoint append_entries (entries : list LogEntry) : M Log unit :=
  match entries with
  | [] => mret tt
  | e :: entries =>
      wrap "raft log: write entry" (rl_on_file (writeEntry e));;
      push_entry e;;
      append_entries entries
  end.

Definition Log_Append (entries : list LogEntry) : M Log unit :=
  append_entries entries;; rl_on_file File_Sync.

(** [l.entries[len(l.entries)-1]] of a non-empty log. *)
Definition last_entry (l : Log) : res LogEntry := index (rl_entries l) (len (rl_entries l) - 1).

Definition Log_GetEntry (idx : Z) (l : Log) : res (option LogEntry) :=
  if (idx =? 0) || (len (rl_entries l) =? 0) then Ok None else
  first ← index (rl_entries l) 0;
  last ← last_entry l;
  if (idx <? Index first) || (Index last <? idx) then Ok None else
  e ← index (rl_entries l) (u64 (idx - Index first));
  Ok (Some e).

Definition Log_LastIndex (l : Log) : res Z :=
  if len (rl_entries l) =? 0 then Ok 0 else e ← last_entry l; Ok (Index e).

Definition Log_LastTerm (l : Log) : res Z :=
  if len (rl_entries l) =? 0 then Ok 0 else e ← last_entry l; Ok (Term e).

(** [entries[pos:]] and [entries[:pos]] for a position within the slice;
    one beyond its length is taken as a panic. *)
Definition entries_from (pos : Z) (es : list LogEntry) : res (list LogEntry) :=
  if (0 <=? pos) && (pos <=? len es) then Ok (drop (Z.to_nat pos) es) else Panic.
Definition entries_upto (pos : Z) (es : list LogEntry) : res (list LogEntry) :=
  if (0 <=? pos) && (pos <=? len es) then Ok (take (Z.to_nat pos) es) else Panic.

Definition Log_GetEntriesFrom (idx : Z) (l : Log) : res (list LogEntry) :=
  if (len (rl_entries l) =? 0) || (idx =? 0) then Ok [] else
  first ← index (rl_entries l) 0;
  last ← last_entry l;
  let idx := if idx <? Index first then Index first else idx in
  if Index last <? idx then Ok [] else
  entries_from (u64 (idx - Index first)) (rl_entries l).

Fixpoint write_entries (entries : list LogEntry) : M File unit :=
  match entries with
  | [] => mret tt
  | e :: entries => writeEntry e;; write_entries entries
  end.

(** [created]: the fault plan of the truncated file, or the error of
    [os.Create].  The old file is closed first. *)
Definition rewriteFile (created : res (list fault)) : M Log unit := fun l =>
  let '(_, old) := File_Close (rl_file l) in
  match created with
  | Ok plan =>
      rl_on_file (write_entries (rl_entries l);; File_Sync) (mkLog (rl_entries l) (mkFile [] 0 plan false))
  | Err e => (Err e, mkLog (rl_entries l) old)
  | Panic => (Panic, mkLog (rl_entries l) old)
  | OutOfFuel => (OutOfFuel, mkLog (rl_entries l) old)
  end.

Definition set_entries (es : list LogEntry) : M Log unit := fun l => (Ok tt, mkLog es (rl_file l)).

Definition Log_TruncateFrom (created : res (list fault)) (idx : Z) : M Log unit :=
  l ← get_st;
  if (len (rl_entries l) =? 0) || (idx =? 0) then mret tt else
  first ← lift (index (rl_entries l) 0);
  last ← lift (last_entry l);
  if idx <? Index first then
    set_entries [];; rewriteFile created
  else if idx <=? Index last then
    es ← lift (entries_upto (u64 (idx - Index first)) (rl_entries l));
    set_entries es;; rewriteFile created
  else mret tt.

Definition Log_Close : M Log unit := rl_on_file File_Close.

(** ** What a log holds *)

Definition encodeLogEntry (e : LogEntry) : bytes := entry_header e ++ Data e.
Definition encode_log (es : list LogEntry) : bytes := concat (encodeLogEntry <$> es).

Definition logentry_fits (e : LogEntry) : Prop :=
  0 <= Term e < 2 ^ 64 /\ 0 <= Index e < 2 ^ 64 /\ len (Data e) < 2 ^ 32.

(** Consecutive indices from a positive base. *)
Definition consecutive (es : list LogEntry) : Prop :=
  exists base, 1 <= base /\ base + len es < 2 ^ 64 /\
    forall i e, es !! i = Some e -> Index e = base + Z.of_nat i.

(** ** Command codecs *)

Lemma DecodePutCommand_Encode key value :
  8 + len key + len value < 2 ^ 32 -> DecodePutCommand (EncodePutCommand key value) = Ok (key, value).
Proof.
  intros Hl. pose proof (len_nonneg key). pose proof (len_nonneg value).
  unfold DecodePutCommand, EncodePutCommand. rewrite (u32_small (len key)), (u32_small (len value)) by lia.
  uint_bind. rewrite getLE_putLE32 by lia. rewrite (u32_small (4 + len key)), (u32_small (8 + len key)) by lia.
  slice_bind. uint_bind. rewrite getLE_putLE32 by lia. rewrite u32_small by lia. slice_bind. done.
Qed.

Lemma DecodeDeleteCommand_Encode key :
  4 + len key < 2 ^ 32 -> DecodeDeleteCommand (EncodeDeleteCommand key) = Ok key.
Proof.
  intros Hl. pose proof (len_nonneg key). unfold DecodeDeleteCommand, EncodeDeleteCommand.
  rewrite (u32_small (len key)) by lia. uint_bind. rewrite getLE_putLE32 by lia. rewrite u32_small by lia. slice_solve.
Qed.

(** Where the checked decoder of the wire protocol succeeds, this one does
    the same without the checks. *)
Lemma decode_command_pairs_checked n off data kvs :
  decode_pairs n off data = Ok kvs -> decode_command_pairs n off data = Ok kvs.
Proof.
  revert off kvs. induction n as [|n IH]; intros off kvs; cbn [decode_pairs decode_command_pairs]; [done|].
  case_match; [done|]. intros (kl & E & Hd)%res_bind_Ok. rewrite E. rstep. cbv zeta in *.
  case_match; [done|]. apply res_bind_Ok in Hd as (k & Ek & Hd). rewrite Ek. rstep.
  case_match; [done|]. apply res_bind_Ok in Hd as (vl & Ev & Hd). rewrite Ev. rstep.
  case_match; [done|]. apply res_bind_Ok in Hd as (v & Ew & Hd). rewrite Ew. rstep.
  apply res_bind_Ok in Hd as ([ks vs] & Er & Hd). by rewrite (IH _ _ Er).
Qed.

Lemma DecodeBatchPutCommand_Encode keys values :
  length keys = length values -> batch_fits keys values ->
  exists p, EncodeBatchPutCommand keys values = Ok p /\ DecodeBatchPutCommand p = Ok (keys, values).
Proof.
  intros Hl Hfit. destruct (DecodeBatchPut_Encode keys values Hl Hfit) as (p & E & Hd). exists p.
  split; [done|]. unfold DecodeBatchPut in Hd. case_match; [done|].
  apply res_bind_Ok in Hd as (c & Ec & Hd). unfold DecodeBatchPutCommand. rewrite Ec. rstep.
  by apply decode_command_pairs_checked.
Qed.

(** ** Reading entries back *)

Lemma len_entry_header e : len (entry_header e) = 21.
Proof. unfold entry_header. len_lia. Qed.

Lemma readEntry_encode e s :
  logentry_fits e -> readEntry (encodeLogEntry e ++ s) = Ok (e, s).
Proof.
  destruct e as [t i c d]. intros (Ht & Hi & Hd). simpl in *. pose proof (len_nonneg d).
  unfold readEntry, encodeLogEntry. rewrite <- app_assoc.
  rewrite (ReadFull_app' 21 (entry_header (mkLogEntry t i c d))) by (by rewrite len_entry_header). rstep.
  unfold entry_header. cbn [Term Index CmdType Data]. rewrite u32_small by lia.
  uint_bind. uint_bind.
  rewrite (res_bind_run (index _ 16) _ c).
  2: { rewrite app_assoc. unfold index. simpl. by rewrite lookup_app_r by (rewrite length_app, !length_putLE; lia). }
  uint_bind. rewrite !getLE_putLE64, getLE_putLE32 by lia. rewrite ReadSome_app. done.
Qed.

Lemma readEntry_mono s e r q : readEntry s = Ok (e, r) -> readEntry (s ++ q) = Ok (e, r ++ q).
Proof. unfold readEntry. intros H. do 6 mono_step q H. by simplify_eq. Qed.

Lemma readEntry_total s : (exists e r, readEntry s = Ok (e, r)) \/ exists err, readEntry s = Err err.
Proof.
  unfold readEntry. destruct (ReadFull_cases 21 s) as [(h & s1 & -> & Hh)|(e & ->)]; [lia|rstep|eauto].
  destruct (uint_at_total h 0 8) as (t & -> & _); [lia|lia|]. rstep.
  destruct (uint_at_total h 8 16) as (i & -> & _); [lia|lia|]. rstep.
  destruct (lookup_lt_is_Some_2 h 16) as [c Hc]; [unfold len in *; lia|].
  rewrite (index_ok h 16 c Hc : index h 16 = Ok c). rstep.
  destruct (uint_at_total h 17 21) as (n & -> & _); [lia|lia|]. rstep.
  destruct (ReadSome_cases n s1) as [(d & s2 & ->)|(e & ->)]; [rstep|]; eauto.
Qed.

Lemma readEntry_torn e q rest :
  logentry_fits e -> encodeLogEntry e = q ++ rest -> rest <> [] -> exists err, readEntry q = Err err.
Proof.
  intros Hfit Heq Hrest. destruct (readEntry_total q) as [(e' & r & E)|]; [|done].
  apply (readEntry_mono _ _ _ rest) in E. rewrite <- Heq in E.
  pose proof (readEntry_encode e [] Hfit) as E'. rewrite app_nil_r, E in E'.
  injection E' as _ [_ Hn]%app_nil. done.
Qed.

Lemma encode_log_cons e es : encode_log (e :: es) = encodeLogEntry e ++ encode_log es.
Proof. done. Qed.

Lemma encode_log_app es es' : encode_log (es ++ es') = encode_log es ++ encode_log es'.
Proof. unfold encode_log. by rewrite fmap_app, concat_app. Qed.

Lemma length_encode_log es : (length es <= length (encode_log es))%nat.
Proof.
  induction es as [|e es IH]; [done|]. rewrite encode_log_cons, length_app, length_cons.
  pose proof (len_entry_header e) as Hh. unfold encodeLogEntry, len in *. rewrite length_app. lia.
Qed.

(** Replaying the encoding of [es] followed by a prefix of that of [new]
    yields [es] and the entries of [new] the prefix holds entirely. *)
Lemma log_replay_prefix es new q fuel :
  Forall logentry_fits es -> Forall logentry_fits new -> q `prefix_of` encode_log new ->
  (length (encode_log es ++ q) < fuel)%nat ->
  exists k, log_replay fuel (encode_log es ++ q) = Ok (es ++ take k new) /\
    (q = encode_log new -> take k new = new).
Proof.
  intros Hes. revert new q fuel. induction Hes as [|e es He Hes IH]; intros new q fuel Hnew Hq Hf.
  - change (encode_log [] ++ q) with q in *. revert q fuel Hq Hf.
    induction Hnew as [|e new He Hnew IHn]; intros q [|fuel] [rest Hrest] Hf; try lia; cbn [log_replay].
    + symmetry in Hrest. apply app_nil in Hrest as [-> _]. exists 0%nat. by split.
    + rewrite encode_log_cons in Hrest.
      destruct (decide (length (encodeLogEntry e) <= length q)%nat) as [Hle|Hgt].
      * assert (exists q', q = encodeLogEntry e ++ q' /\ q' `prefix_of` encode_log new) as (q' & -> & Hq').
        { exists (drop (length (encodeLogEntry e)) q).
          assert (take (length (encodeLogEntry e)) q = encodeLogEntry e) as Ht.
          { rewrite <- (take_app_le q rest) by done. rewrite <- Hrest. apply take_app_length. }
          split; [by rewrite <- Ht at 1; rewrite take_drop|]. exists rest.
          rewrite <- drop_app_le by done. by rewrite <- Hrest, drop_app_length. }
        rewrite readEntry_encode by done.
        destruct (IHn q' fuel Hq') as (k & Ek & Hk).
        { rewrite length_app in Hf. unfold encodeLogEntry in Hf. rewrite length_app in Hf.
          pose proof (len_entry_header e) as Hh. unfold len in Hh. lia. }
        rewrite Ek. rstep. exists (S k). split; [done|]. simpl. intros Heq. f_equal. apply Hk.
        rewrite encode_log_cons in Heq. by apply app_inv_head in Heq.
      * destruct (readEntry_torn e q (drop (length q) (encodeLogEntry e)) He) as (err & ->).
        { rewrite <- (take_drop (length q) (encodeLogEntry e)) at 1. f_equal.
          rewrite <- (take_app_le (encodeLogEntry e) (encode_log new)) by lia. rewrite Hrest. apply take_app_length. }
        { intros Hn. apply (f_equal length) in Hn. rewrite length_drop in Hn. simpl in Hn. lia. }
        exists 0%nat. split; [done|]. intros ->. rewrite encode_log_cons, length_app in Hgt. lia.
  - destruct fuel as [|fuel]; [lia|]. cbn [log_replay].
    rewrite encode_log_cons, <- app_assoc, readEntry_encode by done.
    destruct (IH new q fuel Hnew Hq) as (k & -> & Hk).
    { rewrite encode_log_cons, <- app_assoc, length_app in Hf.
      pose proof (len_entry_header e) as Hh. unfold encodeLogEntry, len in *. rewrite (length_app (entry_header e)) in Hf. lia. }
    exists k. by split.
Qed.

(** ** Appending *)

(** The file holds exactly the entries, all durable. *)
Record log_clean (l : Log) : Prop := {
  lc_contents : contents (rl_file l) = encode_log (rl_entries l);
  lc_synced : synced (rl_file l) = length (contents (rl_file l));
  lc_fits : Forall logentry_fits (rl_entries l)
}.

Lemma writeEntry_disk e f r f' :
  logentry_fits e -> writeEntry e f = (r, f') ->
  exists q, contents f' = contents f ++ q /\ q `prefix_of` encodeLogEntry e /\ synced f' = synced f /\
    (r = Ok tt -> q = encodeLogEntry e).
Proof.
  intros _. unfold writeEntry, encodeLogEntry, mbind, M_bind, mret, M_ret.
  destruct (File_Write (entry_header e) f) as [r1 f1] eqn:E1.
  pose proof (File_Write_prefix _ _ _ _ E1) as (q1 & Hq1 & Hc1 & Hs1).
  destruct r1; try (intros ?; simplify_eq; exists q1; split_and!; try done; by apply prefix_app_r).
  apply File_Write_Ok in E1 as (_ & Hc1' & _).
  destruct (Z.ltb_spec 0 (len (Data e))) as [Hd|Hd].
  - destruct (File_Write (Data e) f1) as [r2 f2] eqn:E2.
    pose proof (File_Write_prefix _ _ _ _ E2) as (q2 & Hq2 & Hc2 & Hs2).
    destruct r2; intros ?; simplify_eq/=.
    { apply File_Write_Ok in E2 as (_ & Hc2' & _). exists (entry_header e ++ Data e).
      rewrite Hc2', Hc1', <- app_assoc. split_and!; try done. congruence. }
    all: exists (entry_header e ++ q2); rewrite Hc2, Hc1', <- app_assoc;
      split_and!; try done; [by apply prefix_app|congruence].
  - intros ?; simplify_eq/=. pose proof (len_nonneg (Data e)). rewrite (len_0_nil (Data e)), app_nil_r by lia.
    by exists (entry_header e).
Qed.

(** On every exit of the loop the file holds a prefix of the new entries. *)
Lemma append_entries_disk new l r l' :
  Forall logentry_fits new -> append_entries new l = (r, l') ->
  exists q, contents (rl_file l') = contents (rl_file l) ++ q /\ q `prefix_of` encode_log new /\
    synced (rl_file l') = synced (rl_file l) /\
    (r = Ok tt -> q = encode_log new /\ rl_entries l' = rl_entries l ++ new).
Proof.
  intros Hnew. revert l. induction Hnew as [|e new He Hnew IH]; intros l; cbn [append_entries].
  { intros [= <- <-]. exists []. rewrite !app_nil_r. by split_and!. }
  unfold mbind, M_bind, wrap, rl_on_file, push_entry.
  destruct (writeEntry e (rl_file l)) as [r1 f1] eqn:E1.
  destruct (writeEntry_disk _ _ _ _ He E1) as (q1 & Hc1 & Hq1 & Hs1 & Hok1).
  rewrite encode_log_cons.
  destruct r1 as [[]| | |]; simpl; try (intros ?; simplify_eq/=; exists q1; split_and!; try done; by apply prefix_app_r).
  rewrite (Hok1 eq_refl) in Hc1. intros Happ. destruct (IH _ Happ) as (q & Hc & Hq & Hs & Hok). simpl in *.
  exists (encodeLogEntry e ++ q). rewrite Hc, Hc1, <- app_assoc. split_and!; [done|by apply prefix_app|congruence|].
  intros Hr. destruct (Hok Hr) as [-> ->]. by rewrite <- app_assoc.
Qed.

Lemma Log_Append_disk new l r l' :
  log_clean l -> Forall logentry_fits new -> Log_Append new l = (r, l') ->
  exists q, contents (rl_file l') = encode_log (rl_entries l) ++ q /\ q `prefix_of` encode_log new /\
    (length (encode_log (rl_entries l)) <= synced (rl_file l'))%nat /\
    (r = Ok tt -> q = encode_log new /\ rl_entries l' = rl_entries l ++ new /\
       synced (rl_file l') = length (contents (rl_file l'))).
Proof.
  intros [L1 L2 L3] Hnew. unfold Log_Append, mbind, M_bind.
  destruct (append_entries new l) as [r1 l1] eqn:E1.
  destruct (append_entries_disk _ _ _ _ Hnew E1) as (q & Hc & Hq & Hs & Hok). rewrite L1 in Hc.
  assert (length (encode_log (rl_entries l)) <= synced (rl_file l1))%nat as Hle by (rewrite Hs, L2, L1; lia).
  destruct r1 as [[]| | |]; try (intros ?; simplify_eq; exists q; by split_and!).
  unfold rl_on_file. destruct (File_Sync (rl_file l1)) as [r2 f2] eqn:E2. intros ?; simplify_eq/=.
  pose proof (File_Sync_any _ _ _ E2) as [Hc2 Hs2]. exists q. rewrite Hc2, Hc.
  destruct (Hok eq_refl) as [-> He]. split_and!; try done.
  - destruct Hs2 as [-> | ->]; [done|]. rewrite Hc, length_app. lia.
  - intros ->. apply File_Sync_Ok in E2 as (_ & Hsy & _). by rewrite Hsy, Hc.
Qed.

(** C30.  Durability of the Raft log.  From a log whose file holds its
    entries, [Append new] runs on a device that may fail at any call and power
    is lost at any unsynced byte: reopening yields the old entries followed by
    a prefix of the new ones, never a damaged entry; after a successful
    [Append] it yields exactly the entries in memory, and the log can be
    appended to again. *)
Theorem raft_log_append_durable :
  forall (l l' : Log) (new : list LogEntry) (r : res unit) (n : nat) (plan : list fault),
  log_clean l -> Forall logentry_fits new -> Log_Append new l = (r, l') ->
  exists l2 k, OpenLog (Ok plan) (crash n (rl_file l')) = Ok l2 /\
    rl_entries l2 = rl_entries l ++ take k new /\
    (r = Ok tt -> rl_entries l2 = rl_entries l' /\ rl_entries l' = rl_entries l ++ new /\ log_clean l').
Proof.
  intros l l' new r n plan Hl Hnew Happ. pose proof Hl as [L1 L2 L3].
  destruct (Log_Append_disk _ _ _ _ Hl Hnew Happ) as (q & Hc & Hq & Hs & Hok).
  set (q' := take (synced (rl_file l') + n - length (encode_log (rl_entries l))) q).
  assert (contents (crash n (rl_file l')) = encode_log (rl_entries l) ++ q') as Hcr.
  { simpl. by rewrite Hc, take_app_ge by lia. }
  assert (q' `prefix_of` encode_log new) as Hq' by (etrans; [by apply prefix_take|done]).
  destruct (log_replay_prefix (rl_entries l) new q' (S (length (encode_log (rl_entries l) ++ q')))) as (k & Ek & Hk); [done..|lia|].
  eexists _, k. unfold OpenLog. rstep. rewrite Hcr, Ek. rstep. split_and!; [done..|].
  intros Hr. destruct (Hok Hr) as (-> & He & Hsy). simpl.
  assert (q' = encode_log new) as Hfull.
  { unfold q'. apply take_ge. rewrite Hsy, Hc, length_app. lia. }
  rewrite (Hk Hfull). split_and!; [done|done|]. split; rewrite ?He, ?encode_log_app; [done|done|by apply Forall_app_2].
Qed.

Lemma log_clean_empty plan : log_clean (mkLog [] (mkFile [] 0 plan false)).
Proof. split; done. Qed.

Lemma raft_log_append_durable_witness :
  let e1 := mkLogEntry 1 1 CmdRaftPut [x61] in
  let e2 := mkLogEntry 1 2 CmdRaftDelete [] in
  let l := mkLog [] (mkFile [] 0 [None; None; Some 7%nat] false) in
  exists l' l2 k, Log_Append [e1; e2] l = (Err (Wrap "raft log: write entry" ErrIO), l') /\
    OpenLog (Ok []) (crash 25 (rl_file l')) = Ok l2 /\ rl_entries l2 = take k [e1; e2].
Proof.
  intros e1 e2 l.
  destruct (raft_log_append_durable l (snd (Log_Append [e1; e2] l)) [e1; e2] (fst (Log_Append [e1; e2] l)) 25 []
    (log_clean_empty _)) as (l2 & k & H1 & H2 & _).
  - repeat constructor; vm_compute; congruence.
  - apply surjective_pairing.
  - exists (snd (Log_Append [e1; e2] l)), l2, k. split; [reflexivity|]. split; [exact H1|exact H2].
Defined.

(** ** Index arithmetic *)

Definition from_index (base : Z) (es : list LogEntry) : Prop :=
  forall i e, es !! i = Some e -> Index e = base + Z.of_nat i.

Lemma filter_from base es idx :
  from_index base es -> base <= idx ->
  filter (fun e => idx <= Index e) es = drop (Z.to_nat (idx - base)) es /\
  filter (fun e => Index e < idx) es = take (Z.to_nat (idx - base)) es.
Proof.
  intros Hes Hi. set (p := Z.to_nat (idx - base)).
  assert (Forall (fun e => Index e < idx) (take p es)) as Hlo.
  { apply Forall_forall. intros e [i Hlk]%list_elem_of_lookup. pose proof (lookup_lt_Some _ _ _ Hlk) as Hlt.
    rewrite length_take in Hlt. rewrite lookup_take_lt in Hlk by lia. rewrite (Hes _ _ Hlk). lia. }
  assert (Forall (fun e => idx <= Index e) (drop p es)) as Hhi.
  { apply Forall_forall. intros e [i Hlk]%list_elem_of_lookup. rewrite lookup_drop in Hlk. rewrite (Hes _ _ Hlk). lia. }
  split; rewrite <- (take_drop p es) at 1; rewrite filter_app.
  - rewrite filter_drop, (filter_keep _ (drop p es)); [done..|]. eapply Forall_impl; [exact Hlo|]. simpl. lia.
  - rewrite filter_keep, (filter_drop _ (drop p es)); [by rewrite app_nil_r|..|done].
    eapply Forall_impl; [exact Hhi|]. simpl. lia.
Qed.

(** All entries lie from [base] on, so nothing is below it. *)
Lemma filter_below base es idx :
  from_index base es -> idx <= base ->
  filter (fun e => idx <= Index e) es = es /\ filter (fun e => Index e < idx) es = [].
Proof.
  intros Hes Hi. assert (Forall (fun e => idx <= Index e) es) as Hall.
  { apply Forall_forall. intros e [i Hlk]%list_elem_of_lookup. rewrite (Hes _ _ Hlk). lia. }
  split; [by apply filter_keep|]. apply filter_drop. eapply Forall_impl; [exact Hall|]. simpl. lia.
Qed.

Lemma filter_index base es idx :
  from_index base es -> base <= idx ->
  head (filter (fun e => Index e = idx) es) = es !! Z.to_nat (idx - base).
Proof.
  intros Hes Hi. set (p := Z.to_nat (idx - base)).
  assert (forall i e, es !! i = Some e -> Index e = idx -> i = p) as Huniq.
  { intros i e Hlk Heq. rewrite (Hes _ _ Hlk) in Heq. lia. }
  assert (filter (fun e => Index e = idx) (take p es) = []) as Hlo.
  { apply filter_drop, Forall_forall. intros e [i Hlk]%list_elem_of_lookup Heq.
    pose proof (lookup_lt_Some _ _ _ Hlk) as Hlt. rewrite length_take in Hlt.
    rewrite lookup_take_lt in Hlk by lia. specialize (Huniq _ _ Hlk Heq). lia. }
  destruct (es !! p) as [e|] eqn:Ep.
  - rewrite <- (take_drop p es), filter_app, Hlo, (drop_S _ _ _ Ep). rewrite filter_cons_True; [done|].
    rewrite (Hes _ _ Ep). lia.
  - apply lookup_ge_None in Ep. rewrite take_ge in Hlo by done. by rewrite Hlo.
Qed.

Lemma last_entry_ok base l :
  from_index base (rl_entries l) -> rl_entries l <> [] ->
  exists e, last_entry l = Ok e /\ Index e = base + len (rl_entries l) - 1.
Proof.
  intros Hes Hne. destruct (rl_entries l) as [|e es _] eqn:El using rev_ind; [done|].
  unfold last_entry. rewrite El, len_app, len_cons, len_nil.
  replace (len es + (1 + 0) - 1) with (Z.of_nat (length es)) by (unfold len; lia).
  assert ((es ++ [e]) !! length es = Some e) as Hlk by (by rewrite lookup_app_r, Nat.sub_diag by lia).
  rewrite (index_ok _ _ _ Hlk). exists e. split; [done|]. rewrite (Hes _ _ Hlk). unfold len. lia.
Qed.

Lemma first_entry_ok base l :
  from_index base (rl_entries l) -> rl_entries l <> [] ->
  exists e, index (rl_entries l) 0 = Ok e /\ Index e = base.
Proof.
  intros Hes Hne. destruct (rl_entries l) as [|e es]; [done|]. exists e. split; [done|].
  rewrite (Hes 0%nat e eq_refl). lia.
Qed.

Section lookups.
Context (l : Log) (base : Z).
Hypothesis Hbase : 1 <= base.
Hypothesis Hend : base + len (rl_entries l) < 2 ^ 64.
Hypothesis Hes : from_index base (rl_entries l).

Lemma GetEntry_ok idx :
  0 <= idx -> Log_GetEntry idx l = Ok (head (filter (fun e => Index e = idx) (rl_entries l))).
Proof.
  intros Hi. unfold Log_GetEntry. destruct (Z.eqb_spec (len (rl_entries l)) 0) as [Hz|Hz].
  { apply len_0_nil in Hz. by rewrite Hz, orb_true_r. }
  assert (rl_entries l <> []) as Hne by (intros Hn; by rewrite Hn in Hz). pose proof (len_nonneg (rl_entries l)).
  destruct (first_entry_ok base l Hes Hne) as (f & -> & Hf). destruct (last_entry_ok base l Hes Hne) as (e & -> & He).
  rewrite orb_false_r. rstep. rewrite Hf, He.
  destruct (Z.lt_ge_cases idx base) as [Hlt|Hge].
  { rewrite (proj2 (Z.ltb_lt idx base)) by done.
    rewrite filter_drop; [by destruct (idx =? 0)|]. apply Forall_forall. intros x [i Hlk]%list_elem_of_lookup.
    rewrite (Hes _ _ Hlk). lia. }
  rewrite (proj2 (Z.eqb_neq idx 0)), (proj2 (Z.ltb_ge idx base)) by lia. rewrite (filter_index base) by done. simpl.
  destruct (Z.ltb_spec (base + len (rl_entries l) - 1) idx) as [Hout|Hin].
  - rewrite (proj2 (lookup_ge_None _ _)) by (unfold len in *; lia). done.
  - unfold u64. rewrite Z.mod_small by lia.
    destruct (lookup_lt_is_Some_2 (rl_entries l) (Z.to_nat (idx - base))) as [x Hx]; [unfold len in *; lia|].
    rewrite <- (Z2Nat.id (idx - base)) at 1 by lia. by rewrite (index_ok _ _ _ Hx), Hx.
Qed.

Lemma GetEntriesFrom_ok idx :
  0 < idx -> Log_GetEntriesFrom idx l = Ok (filter (fun e => idx <= Index e) (rl_entries l)).
Proof.
  intros Hi. unfold Log_GetEntriesFrom. rewrite (proj2 (Z.eqb_neq idx 0)) by lia. rewrite orb_false_r.
  destruct (Z.eqb_spec (len (rl_entries l)) 0) as [Hz|Hz].
  { apply len_0_nil in Hz. by rewrite Hz. }
  assert (rl_entries l <> []) as Hne by (intros Hn; by rewrite Hn in Hz). pose proof (len_nonneg (rl_entries l)).
  destruct (first_entry_ok base l Hes Hne) as (f & -> & Hf). destruct (last_entry_ok base l Hes Hne) as (e & -> & He).
  rstep. rewrite Hf, He. unfold entries_from.
  destruct (Z.ltb_spec idx base) as [Hlt|Hge].
  - rewrite (proj2 (Z.ltb_ge _ _)) by lia. rewrite Z.sub_diag.
    destruct (filter_below base (rl_entries l) idx) as [-> _]; [done|lia|].
    change (u64 0) with 0. by rewrite (proj2 (Z.leb_le 0 (len (rl_entries l)))) by lia.
  - destruct (filter_from base (rl_entries l) idx) as [-> _]; [done|lia|].
    destruct (Z.ltb_spec (base + len (rl_entries l) - 1) idx) as [Hout|Hin].
    + by rewrite drop_ge by (unfold len in *; lia).
    + unfold u64. rewrite Z.mod_small by lia.
      by rewrite (proj2 (Z.leb_le 0 _)), (proj2 (Z.leb_le (idx - base) _)) by lia.
Qed.
End lookups.

(** A field of the last entry, zero for an empty log. *)
Lemma last_field (f : LogEntry -> Z) l :
  (if len (rl_entries l) =? 0 then Ok 0 else e ← last_entry l; Ok (f e)) =
  Ok (match last (rl_entries l) with None => 0 | Some e => f e end).
Proof.
  unfold last_entry. destruct (rl_entries l) as [|e es _] using rev_ind; [done|].
  rewrite len_app, len_cons, len_nil, last_snoc. rewrite (proj2 (Z.eqb_neq _ _)) by (pose proof (len_nonneg es); lia).
  replace (len es + (1 + 0) - 1) with (Z.of_nat (length es)) by (unfold len; lia).
  erewrite index_ok by (by rewrite lookup_app_r, Nat.sub_diag by lia). done.
Qed.

Lemma LastIndex_ok l : Log_LastIndex l = Ok (match last (rl_entries l) with None => 0 | Some e => Index e end).
Proof. apply last_field. Qed.

Lemma LastTerm_ok l : Log_LastTerm l = Ok (match last (rl_entries l) with None => 0 | Some e => Term e end).
Proof. apply last_field. Qed.

(** ** Truncation *)

Lemma writeEntry_healthy e f :
  healthy f -> exists f', writeEntry e f = (Ok tt, f') /\ healthy f' /\ contents f' = contents f ++ encodeLogEntry e.
Proof.
  intros Hf. unfold writeEntry, encodeLogEntry, mbind, M_bind, mret, M_ret. rewrite File_Write_healthy by done.
  cbv beta iota. pose proof (len_nonneg (Data e)). destruct (Z.ltb_spec 0 (len (Data e))).
  - rewrite File_Write_healthy by done. eexists. split; [done|]. simpl. by rewrite <- app_assoc.
  - eexists. split; [done|]. simpl. by rewrite (len_0_nil (Data e)), app_nil_r by lia.
Qed.

Lemma Log_Append_healthy new l :
  log_clean l -> healthy (rl_file l) -> Forall logentry_fits new ->
  exists l', Log_Append new l = (Ok tt, l') /\ rl_entries l' = rl_entries l ++ new /\ log_clean l' /\ healthy (rl_file l').
Proof.
  intros [L1 _ L3] Hf Hnew. unfold Log_Append.
  assert (exists l1, append_entries new l = (Ok tt, l1) /\ rl_entries l1 = rl_entries l ++ new /\ healthy (rl_file l1) /\
    contents (rl_file l1) = contents (rl_file l) ++ encode_log new) as (l1 & E & He & Hf1 & Hc).
  { clear L1 L3. revert l Hf. induction Hnew as [|e new Hfit Hnew IH]; intros l Hf; cbn [append_entries].
    - exists l. by rewrite !app_nil_r.
    - destruct (writeEntry_healthy e (rl_file l) Hf) as (f1 & E & Hf1 & Hc1).
      rewrite (M_bind_run _ _ _ tt (mkLog (rl_entries l) f1)) by (unfold wrap, rl_on_file; by rewrite E).
      destruct (IH (mkLog (rl_entries l ++ [e]) f1) Hf1) as (l1 & E1 & He & Hf2 & Hc). exists l1.
      rewrite (M_bind_run _ _ _ tt (mkLog (rl_entries l ++ [e]) f1)) by done. simpl in *.
      rewrite He, Hc, Hc1, encode_log_cons, <- !app_assoc. done. }
  rewrite (M_bind_run _ _ _ _ _ E). unfold rl_on_file. rewrite File_Sync_healthy by done. eexists.
  split_and!; [done|done| |done]. split; simpl; rewrite ?Hc, ?He, ?L1, ?encode_log_app; [done|done|by apply Forall_app_2].
Qed.

Lemma write_entries_healthy es f :
  healthy f -> exists f', write_entries es f = (Ok tt, f') /\ healthy f' /\ contents f' = contents f ++ encode_log es.
Proof.
  revert f. induction es as [|e es IH]; intros f Hf; cbn [write_entries].
  - exists f. by rewrite app_nil_r.
  - destruct (writeEntry_healthy e f Hf) as (f1 & E & Hf1 & Hc1). rewrite (M_bind_run _ _ _ _ _ E).
    destruct (IH f1 Hf1) as (f2 & E2 & Hf2 & Hc2). exists f2.
    by rewrite Hc2, Hc1, encode_log_cons, <- app_assoc.
Qed.

Lemma rewriteFile_healthy l :
  Forall logentry_fits (rl_entries l) ->
  exists l', rewriteFile (Ok []) l = (Ok tt, l') /\ rl_entries l' = rl_entries l /\ log_clean l' /\ healthy (rl_file l').
Proof.
  intros Hfit. unfold rewriteFile. destruct (File_Close (rl_file l)) as [_ old]. unfold rl_on_file. cbn [rl_file rl_entries].
  destruct (write_entries_healthy (rl_entries l) (mkFile [] 0 [] false)) as (f & E & Hf & Hc); [done|].
  rewrite (M_bind_run _ _ _ _ _ E), File_Sync_healthy by done. eexists. split_and!; [done|done|by split|done].
Qed.

Lemma TruncateFrom_ok l base idx :
  1 <= base -> base + len (rl_entries l) < 2 ^ 64 -> from_index base (rl_entries l) -> log_clean l -> 0 < idx ->
  exists l', Log_TruncateFrom (Ok []) idx l = (Ok tt, l') /\
    rl_entries l' = filter (fun e => Index e < idx) (rl_entries l) /\ log_clean l' /\ (l' = l \/ healthy (rl_file l')).
Proof.
  assert (forall l0 es, Forall logentry_fits (rl_entries l0) -> rl_entries l0 = es ->
    exists l', rewriteFile (Ok []) l0 = (Ok tt, l') /\ rl_entries l' = es /\ log_clean l' /\ (l' = l \/ healthy (rl_file l'))) as Hrw.
  { intros l0 es Hfit <-. destruct (rewriteFile_healthy l0 Hfit) as (l' & ? & ? & ? & ?). exists l'. auto. }
  intros Hbase Hend Hes Hl Hi. unfold Log_TruncateFrom. rewrite (M_bind_run _ _ _ l l) by done.
  rewrite (proj2 (Z.eqb_neq idx 0)) by lia. rewrite orb_false_r.
  destruct (Z.eqb_spec (len (rl_entries l)) 0) as [Hz|Hz].
  { apply len_0_nil in Hz. exists l. rewrite Hz. auto. }
  assert (rl_entries l <> []) as Hne by (intros Hn; by rewrite Hn in Hz). pose proof (len_nonneg (rl_entries l)).
  destruct (first_entry_ok base l Hes Hne) as (f & Ef & Hf). destruct (last_entry_ok base l Hes Hne) as (e & Ee & He).
  unfold lift. rewrite (M_bind_run _ _ _ f l) by (by rewrite Ef). rewrite (M_bind_run _ _ _ e l) by (by rewrite Ee).
  rewrite Hf, He. destruct (Z.ltb_spec idx base) as [Hlt|Hge].
  - destruct (filter_below base (rl_entries l) idx) as [_ ->]; [done|lia|].
    rewrite (M_bind_run _ _ _ tt (mkLog [] (rl_file l))) by done. by apply Hrw.
  - destruct (filter_from base (rl_entries l) idx) as [_ ->]; [done|lia|].
    destruct (Z.leb_spec idx (base + len (rl_entries l) - 1)) as [Hin|Hout].
    + unfold entries_upto, u64. rewrite (Z.mod_small (idx - base)) by lia.
      rewrite (proj2 (Z.leb_le 0 _)), (proj2 (Z.leb_le (idx - base) _)) by lia. simpl.
      set (es := take (Z.to_nat (idx - base)) (rl_entries l)).
      rewrite (M_bind_run _ _ _ es l) by done. rewrite (M_bind_run _ _ _ tt (mkLog es (rl_file l))) by done.
      apply Hrw; [|done]. simpl. apply Forall_take, (lc_fits _ Hl).
    + exists l. split_and!; [done| |done|by left]. by rewrite take_ge by (unfold len in *; lia).
Qed.

(** Index arithmetic of the log.  On a log with consecutive indices
    [GetEntry], [GetEntriesFrom], [LastIndex] and [TruncateFrom] select by the
    entries' own indices: the entry with that index if there is one, those not
    below it, the last one's, those below it; no lookup panics; and truncation
    leaves a log with consecutive indices whose file holds its entries. *)
Theorem raft_log_index_ops :
  forall (l : Log) (idx : Z),
  consecutive (rl_entries l) -> log_clean l -> 0 < idx ->
  Log_GetEntry idx l = Ok (head (filter (fun e => Index e = idx) (rl_entries l))) /\
  Log_GetEntriesFrom idx l = Ok (filter (fun e => idx <= Index e) (rl_entries l)) /\
  Log_LastIndex l = Ok (match last (rl_entries l) with None => 0 | Some e => Index e end) /\
  exists l', Log_TruncateFrom (Ok []) idx l = (Ok tt, l') /\
    rl_entries l' = filter (fun e => Index e < idx) (rl_entries l) /\
    consecutive (rl_entries l') /\ log_clean l'.
Proof.
  intros l idx (base & Hb & He & Hes) Hl Hi. split_and!.
  - apply (GetEntry_ok l base); [done..|lia].
  - by apply (GetEntriesFrom_ok l base).
  - apply LastIndex_ok.
  - destruct (TruncateFrom_ok l base idx Hb He Hes Hl Hi) as (l' & E & He' & Hl' & _). exists l'.
    split_and!; try done. rewrite He'. exists base.
    assert (exists p, filter (fun e => Index e < idx) (rl_entries l) = take p (rl_entries l)) as [p ->].
    { destruct (Z.le_ge_cases base idx).
      - eexists. by apply (filter_from base).
      - exists 0%nat. rewrite take_0. by apply (filter_below base). }
    split_and!; [done| |].
    + unfold len in *. rewrite length_take. lia.
    + intros i e Hlk. pose proof (lookup_lt_Some _ _ _ Hlk) as Hlt. rewrite length_take in Hlt.
      rewrite lookup_take_lt in Hlk by lia. by apply Hes.
Qed.


(** Truncation is not crash safe.  [TruncateFrom] rewrites the file in
    place, so there are logs on which cutting off the last entry, interrupted
    by a failed sync and a power failure, loses the durable entries before it
    as well: reopening yields an empty log. *)
Theorem raft_log_truncate_loses_prefix :
  exists (l l' l2 : Log) (r : res unit) (e1 e2 : LogEntry),
    rl_entries l = [e1; e2] /\ log_clean l /\ consecutive (rl_entries l) /\
    Log_TruncateFrom (Ok [None; Some 0%nat]) 2 l = (r, l') /\ rl_entries l' = [e1] /\ r <> Ok tt /\
    OpenLog (Ok []) (crash 0 (rl_file l')) = Ok l2 /\ rl_entries l2 = [].
Proof.
  set (e1 := mkLogEntry 1 1 CmdRaftPut []). set (e2 := mkLogEntry 1 2 CmdRaftPut []).
  exists (mkLog [e1; e2] (mkFile (encode_log [e1; e2]) 42 [] false)). do 3 eexists. exists e1, e2.
  split_and!; [done| | |reflexivity|reflexivity|done|reflexivity|reflexivity].
  - split; [done|done|]. repeat constructor; vm_compute; congruence.
  - exists 1. split_and!; [done|done|]. intros [|[|i]] e He; simplify_eq/=; done.
Qed.

(** The command codecs invert each other on commands that fit their
    32-bit lengths. *)
Theorem raft_command_roundtrip :
  forall (key value : bytes) (keys values : list bytes),
  8 + len key + len value < 2 ^ 32 -> length keys = length values -> batch_fits keys values ->
  DecodePutCommand (EncodePutCommand key value) = Ok (key, value) /\
  DecodeDeleteCommand (EncodeDeleteCommand key) = Ok key /\
  exists p, EncodeBatchPutCommand keys values = Ok p /\ DecodeBatchPutCommand p = Ok (keys, values).
Proof.
  intros key value keys values Hl Hn Hfit. pose proof (len_nonneg value).
  split_and!; [by apply DecodePutCommand_Encode|apply DecodeDeleteCommand_Encode; lia|by apply DecodeBatchPutCommand_Encode].
Qed.

