(* ===== verification/Engine.v ===== *)
(** * engine/engine.go: the storage engine

    The engine's state with its memtables and table readers as objects
    (references into stores, since the code compares pointers), the flush
    channel as a queue, and the directory of table files.  Every method that
    holds [e.mu] throughout is one transition; [flushMemtable], which runs in a
    background goroutine, is split at the points where it takes and releases
    locks ([flush_write], [flush_publish], [removeImmutable], [flush_finish]),
    so that other operations may run in between.

    What the operating system and the random generator answer during a call is
    the [IO] record passed to it. *)

From S2P Require Import Prelude GoStd SkipList Memtable Bloom Wal SSTWriter SSTReader SSTIterator GoHeap MergeIterator Manifest.

Record Options := mkOptions {
  MemtableSize : Z;
  L0CompactTrigger : Z;
  MaxLevels : Z;
  BlockSize : Z
}.

Definition applyDefaults (o : Options) : Options :=
  mkOptions
    (if MemtableSize o <=? 0 then 4 * 1024 * 1024 else MemtableSize o)
    (if L0CompactTrigger o <=? 0 then 4 else L0CompactTrigger o)
    (if MaxLevels o <=? 0 then 7 else MaxLevels o)
    (if BlockSize o <=? 0 then 4096 else BlockSize o).

Record KVPair := mkKV { kv_Key : bytes; kv_Value : bytes }.

Record flushTask := mkTask { ft_mem : nat; ft_walID : Z }.

Record Engine := mkEngine {
  e_opts : Options;
  e_wal : WAL;
  e_mems : list Memtable;
  e_memtable : nat;
  e_immutableMems : list nat;
  e_rdrs : list Reader;
  e_levels : list (list nat);
  e_manifest : Manifest;
  e_flushCh : list flushTask;
  e_compactCh : bool;
  e_nextFileNum : Z;
  e_closed : bool;
  e_files : gmap Z File
}.

(** The outcomes of the calls a method makes: creating, opening and measuring a
    table file, removing it ([os.Remove]), rotating and purging the log, and the
    coin flips of the [i]-th skip-list insertion. *)
Record IO := mkIO {
  io_create : option (list fault);
  io_open : bool;
  io_stat : bool;
  io_remove : bool;
  io_rotate : open_outcome;
  io_purge : Z -> bool;
  io_coins : nat -> list bool
}.

(** A call in which nothing fails. *)
Definition io_ok (coins : nat -> list bool) : IO := mkIO (Some []) true true true (Opened []) (fun _ => true) coins.

Definition flushCh_cap : nat := 16.

(** ** Parts of the state *)

Definition set_wal (w : WAL) (e : Engine) : Engine :=
  mkEngine (e_opts e) w (e_mems e) (e_memtable e) (e_immutableMems e) (e_rdrs e) (e_levels e) (e_manifest e)
    (e_flushCh e) (e_compactCh e) (e_nextFileNum e) (e_closed e) (e_files e).
Definition set_mems (ms : list Memtable) (e : Engine) : Engine :=
  mkEngine (e_opts e) (e_wal e) ms (e_memtable e) (e_immutableMems e) (e_rdrs e) (e_levels e) (e_manifest e)
    (e_flushCh e) (e_compactCh e) (e_nextFileNum e) (e_closed e) (e_files e).
Definition set_active (p : nat) (imms : list nat) (e : Engine) : Engine :=
  mkEngine (e_opts e) (e_wal e) (e_mems e) p imms (e_rdrs e) (e_levels e) (e_manifest e)
    (e_flushCh e) (e_compactCh e) (e_nextFileNum e) (e_closed e) (e_files e).
Definition set_readers (rs : list Reader) (levels : list (list nat)) (e : Engine) : Engine :=
  mkEngine (e_opts e) (e_wal e) (e_mems e) (e_memtable e) (e_immutableMems e) rs levels (e_manifest e)
    (e_flushCh e) (e_compactCh e) (e_nextFileNum e) (e_closed e) (e_files e).
Definition set_manifest (m : Manifest) (e : Engine) : Engine :=
  mkEngine (e_opts e) (e_wal e) (e_mems e) (e_memtable e) (e_immutableMems e) (e_rdrs e) (e_levels e) m
    (e_flushCh e) (e_compactCh e) (e_nextFileNum e) (e_closed e) (e_files e).
Definition set_flushCh (q : list flushTask) (e : Engine) : Engine :=
  mkEngine (e_opts e) (e_wal e) (e_mems e) (e_memtable e) (e_immutableMems e) (e_rdrs e) (e_levels e) (e_manifest e)
    q (e_compactCh e) (e_nextFileNum e) (e_closed e) (e_files e).
Definition set_compactCh (b : bool) (e : Engine) : Engine :=
  mkEngine (e_opts e) (e_wal e) (e_mems e) (e_memtable e) (e_immutableMems e) (e_rdrs e) (e_levels e) (e_manifest e)
    (e_flushCh e) b (e_nextFileNum e) (e_closed e) (e_files e).
Definition set_tables (n : Z) (fs : gmap Z File) (e : Engine) : Engine :=
  mkEngine (e_opts e) (e_wal e) (e_mems e) (e_memtable e) (e_immutableMems e) (e_rdrs e) (e_levels e) (e_manifest e)
    (e_flushCh e) (e_compactCh e) n (e_closed e) fs.
Definition set_closed (e : Engine) : Engine :=
  mkEngine (e_opts e) (e_wal e) (e_mems e) (e_memtable e) (e_immutableMems e) (e_rdrs e) (e_levels e) (e_manifest e)
    (e_flushCh e) (e_compactCh e) (e_nextFileNum e) true (e_files e).

Definition mem_at (p : nat) (e : Engine) : res Memtable :=
  match e_mems e !! p with Some m => Ok m | None => Panic end.
Definition reader_at (p : nat) (e : Engine) : res Reader :=
  match e_rdrs e !! p with Some r => Ok r | None => Panic end.

Definition on_wal {A} (m : M WAL A) : M Engine A := fun e =>
  let '(r, w) := m (e_wal e) in (r, set_wal w e).
Definition on_manifest {A} (m : M Manifest A) : M Engine A := fun e =>
  let '(r, mf) := m (e_manifest e) in (r, set_manifest mf e).
Definition on_memtable {A} (m : M Memtable A) : M Engine A := fun e =>
  match e_mems e !! e_memtable e with
  | None => (Panic, e)
  | Some mt => let '(r, mt) := m mt in (r, set_mems (<[e_memtable e := mt]> (e_mems e)) e)
  end.

(** ** Writing *)

(** [oldWALID, err := e.wal.Rotate(); if err != nil { oldWALID = 0 }] *)
Definition rotate_wal (o : open_outcome) : M Engine Z := fun e =>
  let '(r, w) := WAL_Rotate o (e_wal e) in
  (Ok (match r with Ok id => id | _ => 0 end), set_wal w e).

(** The send of a flush task: dropped when the channel is full. *)
Definition send_task (task : flushTask) (e : Engine) : Engine :=
  if (length (e_flushCh e) <? flushCh_cap)%nat then set_flushCh (e_flushCh e ++ [task]) e else e.

Definition new_memtable (frozen : nat) (e : Engine) : Engine :=
  set_active (length (e_mems e)) (frozen :: e_immutableMems e)
    (set_mems (e_mems e ++ [NewMemtable (MemtableSize (e_opts e))]) e).

Definition maybeScheduleFlush (io : IO) : M Engine unit :=
  e ← get_st;
  mt ← lift (mem_at (e_memtable e) e);
  if negb (Memtable_ShouldFlush mt) then mret tt else
  on_memtable (fun m => (Ok tt, Memtable_Freeze m));;
  let frozen := e_memtable e in
  oldWALID ← rotate_wal (io_rotate io);
  e ← get_st;
  put_st (send_task (mkTask frozen oldWALID) (new_memtable frozen e)).

Definition Engine_Put (io : IO) (key : bytes) (value : option bytes) : M Engine unit :=
  wrap "engine: wal append" (on_wal (WAL_Append (mkRecord RecordPut key value)));;
  wrap "engine: memtable put" (on_memtable (Memtable_Put (io_coins io 0) key value));;
  maybeScheduleFlush io.

Definition Engine_Delete (io : IO) (key : bytes) : M Engine unit :=
  wrap "engine: wal append" (on_wal (WAL_Append (mkRecord RecordDelete key None)));;
  wrap "engine: memtable delete" (on_memtable (Memtable_Delete (io_coins io 0) key));;
  maybeScheduleFlush io.

Definition batch_record (key : bytes) (value : option bytes) : WRecord :=
  match value with
  | None => mkRecord RecordDelete key None
  | Some v => mkRecord RecordPut key (Some v)
  end.

Fixpoint batch_memtable (io : IO) (i : nat) (kvs : list (bytes * option bytes)) : M Engine unit :=
  match kvs with
  | [] => mret tt
  | (k, v) :: kvs =>
      match v with
      | None => wrap "engine: memtable delete" (on_memtable (Memtable_Delete (io_coins io i) k))
      | Some v => wrap "engine: memtable put" (on_memtable (Memtable_Put (io_coins io i) k (Some v)))
      end;;
      batch_memtable io (S i) kvs
  end.

Definition Engine_BatchPut (io : IO) (keys : list bytes) (values : list (option bytes)) : M Engine unit :=
  if negb (len keys =? len values) then throw (Errorf "engine: keys and values length mismatch") else
  wrap "engine: wal batch" (on_wal (WAL_AppendBatch (zip_with batch_record keys values)));;
  batch_memtable io 0 (zip keys values);;
  maybeScheduleFlush io.

(** ** Reading *)

(** [sort.Search(n, f)] *)
Fixpoint sort_Search (fuel : nat) (f : Z -> res bool) (i j : Z) : res Z :=
  match fuel with
  | O => OutOfFuel
  | S fuel =>
      if i <? j then
        let h := (i + j) / 2 in
        b ← f h;
        if negb b then sort_Search fuel f (h + 1) j else sort_Search fuel f i h
      else Ok i
  end.

Definition meta_le (a b : FileMetadata) : Prop := Manifest.MinKey a ≤ₖ Manifest.MinKey b.
#[global] Instance meta_le_dec : RelDecision meta_le.
Proof. intros a b. unfold meta_le. apply _. Defined.

(** The first reader for which [f] holds; [f] may panic. *)
Fixpoint find_reader (f : Reader -> bool) (ps : list nat) (e : Engine) : res (option nat) :=
  match ps with
  | [] => Ok None
  | p :: ps => r ← reader_at p e; if f r then Ok (Some p) else find_reader f ps e
  end.

(** [r.MinKey() != nil && r.MaxKey() != nil] and a test of the two keys. *)
Definition with_range (f : bytes -> bytes -> bool) (r : Reader) : bool :=
  match Reader_MinKey r, Reader_MaxKey r with
  | Some lo, Some hi => f lo hi
  | _, _ => false
  end.

(** [sort.Slice] by [MinKey] (the order of equal keys does not matter, L1+
    files have distinct ones), binary search, then the reader with the range
    of the metadata found, else any reader whose range holds the key. *)
Definition findSSTableForKey (level : Z) (key : bytes) (e : Engine) : res (option nat) :=
  readers ← index (e_levels e) level;
  if len readers =? 0 then Ok None else
  let metas := Manifest_GetLevel level (e_manifest e) in
  if len metas =? 0 then Ok None else
  let metas := merge_sort meta_le metas in
  idx ← sort_Search (S (length metas))
    (fun i => m ← index metas i; Ok (bltb key (Manifest.MinKey m))) 0 (len metas);
  let idx := idx - 1 in
  if idx <? 0 then Ok None else
  rMeta ← index metas idx;
  if bltb (Manifest.MaxKey rMeta) key then Ok None else
  p ← find_reader (with_range (fun lo hi =>
        beqb lo (Manifest.MinKey rMeta) && beqb hi (Manifest.MaxKey rMeta))) readers e;
  match p with
  | Some p => Ok (Some p)
  | None => find_reader (with_range (fun lo hi => bleb lo key && bleb key hi)) readers e
  end.

(** What a layer answers: [None] to go on with the next layer. *)
Definition mem_answer (key : bytes) (mt : Memtable) : res (option (res (option bytes))) :=
  g ← Memtable_Get key mt;
  let '(val, found, tomb) := g in
  Ok (if found : bool then Some (if tomb : bool then Err ErrNotFound else Ok val) else None).

Definition table_answer (key : bytes) (r : Reader) : res (option (res (option bytes))) :=
  may ← Reader_MayContain r key;
  if negb may then Ok None else
  match Reader_Get r key with
  | Ok (val, found) =>
      Ok (if found : bool then Some (match val with None => Err ErrNotFound | Some _ => Ok val end) else None)
  | Err e => Ok (Some (Err (Wrap "engine: sstable get" e)))
  | Panic => Panic
  | OutOfFuel => OutOfFuel
  end.

Fixpoint first_answer {A} (f : A -> res (option (res (option bytes)))) (l : list A)
    (k : res (option bytes)) : res (option bytes) :=
  match l with
  | [] => k
  | x :: l => a ← f x; match a with Some r => r | None => first_answer f l k end
  end.

Definition Engine_Get (key : bytes) (e : Engine) : res (option bytes) :=
  l0 ← index (e_levels e) 0;
  first_answer (fun p => mt ← mem_at p e; mem_answer key mt) (e_memtable e :: e_immutableMems e)
    (first_answer (fun p => r ← reader_at p e; table_answer key r) (reverse l0)
      (first_answer (fun level =>
           p ← findSSTableForKey level key e;
           match p with
           | None => Ok None
           | Some p => r ← reader_at p e; table_answer key r
           end) (seqZ 1 (len (e_levels e) - 1)) (Err ErrNotFound))).

(** The iterators [ReadRange] merges, in order of priority. *)
Fixpoint mem_iters (ps : list nat) (e : Engine) : res (list AnyIter) :=
  match ps with
  | [] => Ok []
  | p :: ps =>
      mt ← mem_at p e;
      rest ← mem_iters ps e;
      Ok (memtableIteratorAdapter (mkMemIter (m_sl mt) (Memtable_NewIterator mt)) :: rest)
  end.
Fixpoint table_iters (ps : list nat) (e : Engine) : res (list AnyIter) :=
  match ps with
  | [] => Ok []
  | p :: ps =>
      r ← reader_at p e;
      rest ← table_iters ps e;
      Ok (sstableIteratorAdapter (Reader_NewIterator r) :: rest)
  end.

(** The loop of [ReadRange], at most [fuel] entries. *)
Fixpoint range_loop (fuel : nat) (endKey : bytes) (mi : MergeIterator AnyIter) : res (list KVPair) :=
  match fuel with
  | O => OutOfFuel
  | S fuel =>
      if MergeIterator_Valid mi then
        k ← MergeIterator_Key mi;
        if bltb endKey k then Ok [] else
        t ← MergeIterator_IsTombstone mi;
        v ← MergeIterator_Value mi;
        mi ← MergeIterator_Next mi;
        rest ← range_loop fuel endKey mi;
        Ok (if t : bool then rest else mkKV k (val_bytes v) :: rest)
      else Ok []
  end.

Definition Engine_ReadRange (fuel : nat) (startKey endKey : bytes) (e : Engine) : res (list KVPair) :=
  l0 ← index (e_levels e) 0;
  its1 ← mem_iters (e_memtable e :: e_immutableMems e) e;
  its2 ← table_iters (reverse l0) e;
  its3 ← table_iters (concat (drop 1 (e_levels e))) e;
  let iters := its1 ++ its2 ++ its3 in
  mi ← NewMergeIterator iters (seqZ 0 (len iters));
  mi ← MergeIterator_Seek startKey mi;
  range_loop fuel endKey mi.

Record EngineStats := mkStats {
  st_MemtableSize : Z;
  st_ImmutableCount : Z;
  st_LevelFileCounts : list Z;
  st_TotalSSTables : Z;
  st_MemoryBytes : Z
}.

Fixpoint sum_sizes (ps : list nat) (e : Engine) : res Z :=
  match ps with
  | [] => Ok 0
  | p :: ps => mt ← mem_at p e; n ← sum_sizes ps e; Ok (Memtable_ApproximateSize mt + n)
  end.

Definition Engine_Stats (e : Engine) : res EngineStats :=
  mt ← mem_at (e_memtable e) e;
  imm ← sum_sizes (e_immutableMems e) e;
  let counts := len <$> e_levels e in
  Ok (mkStats (Memtable_ApproximateSize mt) (len (e_immutableMems e)) counts (foldr Z.add 0 counts)
        (Memtable_ApproximateSize mt + imm)).

(** ** Flushing *)

Definition allocFileNum : M Engine Z := fun e =>
  (Ok (e_nextFileNum e), set_tables (u64 (e_nextFileNum e + 1)) (e_files e) e).

(** A table file under its number, and [os.Remove] of one. *)
Definition put_table (n : Z) (f : File) : M Engine unit := fun e =>
  (Ok tt, set_tables (e_nextFileNum e) (<[n := f]> (e_files e)) e).
Definition remove_table (io : IO) (n : Z) : M Engine unit := fun e =>
  (Ok tt, if io_remove io then set_tables (e_nextFileNum e) (delete n (e_files e)) e else e).

Definition new_reader (r : Reader) : M Engine nat := fun e =>
  (Ok (length (e_rdrs e)), set_readers (e_rdrs e ++ [r]) (e_levels e) e).

(** How writing the table of a memtable ends: an early [return], an empty
    memtable, or a reader of the new table. *)
Inductive flushed :=
| FlushFailed
| FlushEmpty
| FlushTable (p : nat).

(** What an error does in [flushMemtable]: clean up and return. *)
Definition or_fail {St A B} (m : M St A) (cleanup : M St B) (k : A -> M St flushed) : M St flushed := fun s =>
  match m s with
  | (Ok a, s) => k a s
  | (Err _, s) => (cleanup;; mret FlushFailed) s
  | (Panic, s) => (Panic, s)
  | (OutOfFuel, s) => (OutOfFuel, s)
  end.

(** A writer operation, its file being table [n] of the directory. *)
Definition on_writer (n : Z) (w : Writer) (m : M Writer unit) : M Engine Writer := fun e =>
  match m w with
  | (Ok _, w) => (put_table n (bfile (sw_buf w));; mret w) e
  | (Err err, w) => (put_table n (bfile (sw_buf w));; throw err) e
  | (Panic, _) => (Panic, e)
  | (OutOfFuel, _) => (OutOfFuel, e)
  end.

(** The mapping of table [n] that [OpenReader] reads. *)
Definition map_table (opens : bool) (n : Z) (e : Engine) : res bytes :=
  if opens then match e_files e !! n with Some f => Ok (contents f) | None => Err ErrIO end else Err ErrIO.

Definition stat_size (io : IO) (n : Z) (e : Engine) : Z :=
  if io_stat io then match e_files e !! n with Some f => len (contents f) | None => 0 end else 0.

(** [flushMemtable] up to and including [manifest.AddFile], none of which
    holds [e.mu].  The memtable is frozen, so its iterator reads it as one
    list. *)
Definition flush_write (io : IO) (mem : nat) : M Engine flushed :=
  fileNum ← allocFileNum;
  e ← get_st;
  or_fail (lift (NewWriter (io_create io) (BlockSize (e_opts e)))) (mret tt) (fun w =>
  mt ← lift (mem_at mem e);
  kvs ← lift (Memtable_scan mt);
  or_fail (on_writer fileNum w (add_entries (mem_entry <$> kvs))) (mret tt) (fun w =>
  if Writer_EntryCount w =? 0 then remove_table io fileNum;; mret FlushEmpty else
  or_fail (on_writer fileNum w Writer_Finish) (remove_table io fileNum) (fun _ =>
  e ← get_st;
  or_fail (lift (OpenReader (map_table (io_open io) fileNum e))) (remove_table io fileNum) (fun reader =>
  let meta := mkMeta fileNum 0 (stat_size io fileNum e)
    (val_bytes (Reader_MinKey reader)) (val_bytes (Reader_MaxKey reader)) in
  or_fail (on_manifest (Manifest_AddFile meta)) (remove_table io fileNum) (fun _ =>
  p ← new_reader reader;
  mret (FlushTable p)))))).

(** [e.levels[0] = append(e.levels[0], reader)] *)
Definition flush_publish (p : nat) : M Engine unit := fun e =>
  match e_levels e with
  | [] => (Panic, e)
  | l0 :: levels => (Ok tt, set_readers (e_rdrs e) ((l0 ++ [p]) :: levels) e)
  end.

Fixpoint remove_ptr (p : nat) (ps : list nat) : list nat :=
  match ps with
  | [] => []
  | q :: ps => if (q =? p)%nat then ps else q :: remove_ptr p ps
  end.

Definition removeImmutable (mem : nat) : M Engine unit := fun e =>
  (Ok tt, set_active (e_memtable e) (remove_ptr mem (e_immutableMems e)) e).

(** [if task.walID > 0 { e.wal.PurgeOlderThan(task.walID) }] and the signal to
    the compaction goroutine. *)
Definition flush_finish (io : IO) (walID : Z) : M Engine unit := fun e =>
  let e := if 0 <? walID then set_wal (snd (WAL_PurgeOlderThan (io_purge io) walID (e_wal e))) e else e in
  (Ok tt, set_compactCh true e).

Definition flushMemtable (io : IO) (task : flushTask) : M Engine unit :=
  r ← flush_write io (ft_mem task);
  match r with
  | FlushFailed => mret tt
  | FlushEmpty => removeImmutable (ft_mem task)
  | FlushTable p =>
      flush_publish p;;
      removeImmutable (ft_mem task);;
      flush_finish io (ft_walID task)
  end.

(** One receive of [flushLoop]: the next task of the channel. *)
Definition flush_receive : M Engine (option flushTask) := fun e =>
  match e_flushCh e with
  | [] => (Ok None, e)
  | task :: q => (Ok (Some task), set_flushCh q e)
  end.

(** [flushLoop] after [closeCh] was closed; flush [i] meets [io i]. *)
Fixpoint flush_drain (fuel : nat) (io : nat -> IO) (i : nat) : M Engine nat :=
  match fuel with
  | O => lift OutOfFuel
  | S fuel =>
      task ← flush_receive;
      match task with
      | None => mret i
      | Some task => flushMemtable (io i) task;; flush_drain fuel io (S i)
      end
  end.

(** ** Closing *)

(** [for len(e.immutableMems) > 0 { ... }] in [Close]. *)
Fixpoint close_flush (fuel : nat) (io : nat -> IO) (i : nat) : M Engine unit :=
  match fuel with
  | O => lift OutOfFuel
  | S fuel =>
      e ← get_st;
      match last (e_immutableMems e) with
      | None => mret tt
      | Some imm => flushMemtable (io i) (mkTask imm 0);; close_flush fuel io (S i)
      end
  end.

(** [err := m(); if err != nil && firstErr == nil { firstErr = err }] *)
Definition first_error (m : M Engine unit) (firstErr : option error) : M Engine (option error) := fun e =>
  match m e with
  | (Ok _, e) => (Ok firstErr, e)
  | (Err err, e) => (Ok (match firstErr with None => Some err | Some _ => firstErr end), e)
  | (Panic, e) => (Panic, e)
  | (OutOfFuel, e) => (OutOfFuel, e)
  end.

(** [r.Close()], whose error is dropped. *)
Definition close_reader (p : nat) (e : Engine) : Engine :=
  set_readers (alter (fun r => (Reader_Close None None r).2) p (e_rdrs e)) (e_levels e) e.

Definition close_readers (ps : list nat) : M Engine unit := fun e => (Ok tt, foldl (fun e p => close_reader p e) e ps).

Definition closeReaders : M Engine unit := e ← get_st; close_readers (concat (e_levels e)).

(** [Close] up to [e.wal.Close()]. *)
Definition close_engine (fuel : nat) (io : nat -> IO) : M Engine (option error) :=
  e ← get_st;
  put_st (set_closed e);;
  i ← flush_drain (S (length (e_flushCh e))) io 0;
  e ← get_st;
  mt ← lift (mem_at (e_memtable e) e);
  i ← (if 0 <? Memtable_ApproximateSize mt then
         on_memtable (fun m => (Ok tt, Memtable_Freeze m));;
         flushMemtable (io i) (mkTask (e_memtable e) 0);; mret (S i)
       else mret i);
  close_flush fuel io i;;
  first_error (on_wal WAL_Close) None.

Definition Engine_Close (fuel : nat) (io : nat -> IO) : M Engine unit :=
  e ← get_st;
  if e_closed e then mret tt else
  firstErr ← close_engine fuel io;
  closeReaders;;
  firstErr ← first_error (on_manifest Manifest_Close) firstErr;
  match firstErr with
  | None => mret tt
  | Some err => throw err
  end.

(** ** Opening *)

(** What the engine leaves on disk. *)
Record Disk := mkDisk {
  d_manifest : File;
  d_tables : gmap Z File;
  d_wal : gmap bytes File
}.

(** The outcomes of the calls [Open] makes. *)
Record OpenIO := mkOpenIO {
  oio_mkdir : bool;
  oio_manifest : res (list fault);
  oio_table : Z -> bool;
  oio_wal_mkdir : bool;
  oio_wal_readdir : bool;
  oio_wal : open_outcome;
  oio_coins : nat -> list bool
}.

Definition open_ok (coins : nat -> list bool) : OpenIO :=
  mkOpenIO true (Ok []) (fun _ => true) true true (Opened []) coins.

Definition max_file_num (levels : list (list FileMetadata)) : Z :=
  foldl (fun acc meta => if acc <? FileNum meta then FileNum meta else acc) 0 (concat levels).

(** [context] prefixed to an error. *)
Definition wrap_res {A} (ctx : string) (r : res A) : res A :=
  match r with Err e => Err (Wrap ctx e) | r => r end.

(** The readers of one level, appended to the store of readers. *)
Fixpoint open_level (opens : Z -> bool) (tables : gmap Z File) (metas : list FileMetadata) (rdrs : list Reader)
    : res (list Reader * list nat) :=
  match metas with
  | [] => Ok (rdrs, [])
  | meta :: metas =>
      r ← wrap_res "engine: open sstable" (OpenReader (
            if opens (FileNum meta) then
              match tables !! FileNum meta with Some f => Ok (contents f) | None => Err ErrIO end
            else Err ErrIO));
      '(rdrs', ps) ← open_level opens tables metas (rdrs ++ [r]);
      Ok (rdrs', length rdrs :: ps)
  end.

Fixpoint open_levels (opens : Z -> bool) (tables : gmap Z File) (levels : list (list FileMetadata))
    (rdrs : list Reader) : res (list Reader * list (list nat)) :=
  match levels with
  | [] => Ok (rdrs, [])
  | metas :: levels =>
      '(rdrs, ps) ← open_level opens tables metas rdrs;
      '(rdrs, rest) ← open_levels opens tables levels rdrs;
      Ok (rdrs, ps :: rest)
  end.

(** The callback of [Replay]; the state counts the insertions made. *)
Definition replay_record (coins : nat -> list bool) (rec : WRecord) : M (Memtable * nat) unit := fun '(m, i) =>
  if bool_decide (r_type rec = RecordPut) then
    let '(r, m) := Memtable_Put (coins i) (r_key rec) (r_value rec) m in (r, (m, S i))
  else if bool_decide (r_type rec = RecordDelete) then
    let '(r, m) := Memtable_Delete (coins i) (r_key rec) m in (r, (m, S i))
  else (Ok tt, (m, i)).

Definition Engine_Open (oio : OpenIO) (d : Disk) (opts : Options) : res Engine :=
  let opts := applyDefaults opts in
  if negb (oio_mkdir oio) then Err (Wrap "engine: mkdir" ErrIO) else
  manifest ← wrap_res "engine: open manifest" (OpenManifest (oio_manifest oio) (d_manifest d) (Z.to_nat (MaxLevels opts)));
  let allLevels := Manifest_GetAllLevels manifest in
  '(rdrs, levels) ← open_levels (oio_table oio) (d_tables d) allLevels [];
  w ← wrap_res "engine: open wal" (WAL_Open (oio_wal_mkdir oio) (oio_wal_readdir oio) (oio_wal oio) (d_wal d) 0);
  match WAL_Replay (replay_record (oio_coins oio)) w (NewMemtable (MemtableSize opts), 0%nat) with
  | (Ok _, (mt, _)) =>
      Ok (mkEngine opts w [mt] 0 [] rdrs levels manifest [] false (u64 (max_file_num allLevels + 1)) false (d_tables d))
  | (Err e, _) => Err (Wrap "engine: replay wal" e)
  | (Panic, _) => Panic
  | (OutOfFuel, _) => OutOfFuel
  end.

(** The disk of a running engine, and after a power failure, which keeps of every
    file its synced bytes and any number of the others.  The code never syncs a
    directory; that files stay created and removed is an assumption on the file
    system. *)
Definition Engine_disk (e : Engine) : Disk :=
  mkDisk (default (mkFile [] 0 [] true) (mf_file (e_manifest e))) (e_files e) (dirview (e_wal e)).
Definition disk_crash (nm : nat) (nt : Z -> nat) (nw : bytes -> nat) (d : Disk) : Disk :=
  mkDisk (crash nm (d_manifest d)) (map_imap (fun k f => Some (crash (nt k) f)) (d_tables d))
    (map_imap (fun k f => Some (crash (nw k) f)) (d_wal d)).

(** ** Layers

    A memtable or a table stands for a sorted list of keys with values or
    tombstones; the state of the engine is a stack of such layers, and a key
    has the first entry found from the top. *)

Abbreviation layer := (list (bytes * option bytes)).

Fixpoint view (k : bytes) (ls : list layer) : option (option bytes) :=
  match ls with
  | [] => None
  | l :: ls => match assoc k l with Some v => Some v | None => view k ls end
  end.

(** What a client is told about an entry. *)
Definition answer (v : option (option bytes)) : res (option bytes) :=
  match v with Some (Some v) => Ok (Some v) | _ => Err ErrNotFound end.

Definition mem_is (e : Engine) (p : nat) (l : layer) : Prop :=
  exists mt, e_mems e !! p = Some mt /\ mt_repr mt l.

(** A reader of a table without empty values: [decodeBlock] reads an empty value
    back as nil ([norm_entry]), like a deletion's but without its flag, which no
    entry of a layer stands for. *)
Definition table_repr (r : Reader) (l : layer) : Prop :=
  exists bs, reader_repr r bs /\ ksorted l /\ norm_entry <$> concat bs = mem_entry <$> l.

Definition table_is (e : Engine) (p : nat) (l : layer) : Prop :=
  exists r, e_rdrs e !! p = Some r /\ table_repr r l.

Definition range_of (l : layer) : bytes * bytes := (default [] (head l.*1), default [] (last l.*1)).
Definition meta_range (m : FileMetadata) : bytes * bytes := (Manifest.MinKey m, Manifest.MaxKey m).

Lemma close_readers_run ps e :
  exists rs, close_readers ps e = (Ok tt, set_readers rs (e_levels e) e) /\ forall p, p ∉ ps -> rs !! p = e_rdrs e !! p.
Proof.
  unfold close_readers. revert e. induction ps as [|q ps IH]; intros e; cbn [foldl].
  - exists (e_rdrs e). split; [by destruct e|done].
  - destruct (IH (close_reader q e)) as (rs & [= ->] & Hrs). exists rs. split; [done|]. intros p [Hq Hp]%not_elem_of_cons.
    rewrite Hrs by done. simpl. by apply list_lookup_alter_ne.
Qed.

(** A level below L0: its tables, in key order, do not overlap, and the
    readers and the manifest hold them in some order. *)
Record level_repr (e : Engine) (level : Z) (ps : list nat) (ts : list layer) : Prop := {
  lr_sorted : ksorted (concat ts);
  lr_nonempty : Forall (fun t => t <> []) ts;
  lr_readers : exists ts', ts' ≡ₚ ts /\ Forall2 (table_is e) ps ts';
  lr_metas : meta_range <$> Manifest_GetLevel level (e_manifest e) ≡ₚ range_of <$> ts
}.

(** The engine represents the memtables [ms] (active first), the L0 tables
    [l0] (oldest first) and the deeper levels [deep]. *)
Record engine_repr (e : Engine) (ms : list layer) (l0 : list layer) (deep : list (list layer)) : Prop := {
  er_mems : Forall2 (mem_is e) (e_memtable e :: e_immutableMems e) ms;
  er_levels : exists ps rest, e_levels e = ps :: rest /\ Forall2 (table_is e) ps l0 /\
    length rest = length deep /\
    (forall i ps ts, rest !! i = Some ps -> deep !! i = Some ts -> level_repr e (Z.of_nat (S i)) ps ts)
}.

Definition layers (ms l0 : list layer) (deep : list (list layer)) : list layer :=
  ms ++ reverse l0 ++ (@concat _ <$> deep).

Lemma view_app k ls ls' : view k (ls ++ ls') = match view k ls with Some v => Some v | None => view k ls' end.
Proof. induction ls as [|l ls IH]; simpl; [done|]. by destruct (assoc k l). Qed.

(** *** One layer *)

Lemma mem_answer_spec key mt l :
  mt_repr mt l -> mem_answer key mt = Ok (match assoc key l with Some v => Some (answer (Some v)) | None => None end).
Proof.
  intros Hr. unfold mem_answer. rewrite (Memtable_Get_spec _ _ key Hr). rstep.
  destruct (assoc key l) as [[v|]|]; done.
Qed.

Lemma scan_entries_assoc l key :
  scan_entries (mem_entry <$> l) key = match assoc key l with Some v => (v, true) | None => (None, false) end.
Proof.
  induction l as [|[k v] l IH]; simpl; [done|]. destruct (beqb k key); [|done]. by destruct v.
Qed.

Lemma keys_norm_mem es l : norm_entry <$> es = mem_entry <$> l -> e_key <$> es = l.*1.
Proof.
  intros H. apply (f_equal (fmap e_key)) in H. rewrite <- !list_fmap_compose in H. exact H.
Qed.

Lemma table_esorted es l : norm_entry <$> es = mem_entry <$> l -> ksorted l -> esorted es.
Proof. intros H%keys_norm_mem Hs. unfold esorted. by rewrite H. Qed.

Lemma table_answer_spec key r l :
  table_repr r l -> table_answer key r = Ok (match assoc key l with Some v => Some (answer (Some v)) | None => None end).
Proof.
  intros (bs & Hr & Hs & Heq). unfold table_answer, Reader_MayContain.
  destruct (bloom_may_total _ key (rr_bloom_total _ _ Hr)) as [may Hmay]. rewrite Hmay. rstep.
  destruct may; simpl.
  - rewrite (Reader_Get_repr r bs key Hr) by (by eapply table_esorted). rewrite Heq, scan_entries_assoc.
    by destruct (assoc key l) as [[v|]|].
  - destruct (assoc key l) as [v|] eqn:E; [|done]. exfalso.
    assert (key ∈ e_key <$> concat bs) as Hin.
    { rewrite (keys_norm_mem _ _ Heq). apply list_elem_of_fmap. exists (key, v). split; [done|by apply assoc_Some]. }
    rewrite (rr_bloom _ _ Hr key Hin) in Hmay. done.
Qed.

Lemma table_range r l : table_repr r l -> l <> [] ->
  Reader_MinKey r = Some (range_of l).1 /\ Reader_MaxKey r = Some (range_of l).2.
Proof.
  intros (bs & Hr & Hs & Heq) Hne. unfold Reader_MinKey, Reader_MaxKey.
  rewrite (rr_min _ _ Hr), (rr_max _ _ Hr). apply keys_norm_mem in Heq.
  assert (e_key <$> head (concat bs) = head (l.*1)) as ->. { rewrite <- Heq. by destruct (concat bs). }
  assert (e_key <$> last (concat bs) = last (l.*1)) as ->. { by rewrite <- Heq, fmap_last. }
  destruct l as [|x l _] using rev_ind; [done|]. unfold range_of. rewrite fmap_app.
  change ([x].*1) with [x.1]. rewrite last_snoc. split; [|done]. by destruct l.
Qed.

(** *** A stack of layers *)

Lemma first_answer_spec {A} (f : A -> res (option (res (option bytes)))) xs ls key k :
  Forall2 (fun x l => f x = Ok (match assoc key l with Some v => Some (answer (Some v)) | None => None end)) xs ls ->
  first_answer f xs k = match view key ls with Some v => answer (Some v) | None => k end.
Proof.
  induction 1 as [|x l xs ls Hx HF IH]; simpl; [done|]. rewrite Hx. rstep. by destruct (assoc key l).
Qed.

(** *** Searching a level *)

Lemma sort_Search_spec (P : Z -> bool) (f : Z -> res bool) n fuel i j :
  0 <= i <= j -> j <= n -> j - i < Z.of_nat fuel ->
  (forall h, 0 <= h < n -> f h = Ok (P h)) ->
  (forall h h', 0 <= h <= h' -> h' < n -> P h = true -> P h' = true) ->
  (forall h, 0 <= h < i -> P h = false) -> (forall h, j <= h < n -> P h = true) ->
  exists r, sort_Search fuel f i j = Ok r /\ 0 <= r <= n /\
    (forall h, 0 <= h < r -> P h = false) /\ (forall h, r <= h < n -> P h = true).
Proof.
  intros Hij Hn Hfuel Hf Hmono. revert i j Hij Hn Hfuel.
  induction fuel as [|fuel IH]; intros i j Hij Hn Hfuel Hlo Hhi; [lia|]. cbn [sort_Search].
  destruct (Z.ltb_spec i j) as [Hlt|Hge]; [|exists i; assert (i = j) as -> by lia; eauto with lia].
  assert (i <= (i + j) / 2 < j) as Hmid by (split; [apply Z.div_le_lower_bound|apply Z.div_lt_upper_bound]; lia).
  set (h := (i + j) / 2) in *. cbv zeta. rewrite Hf by lia. rstep. destruct (P h) eqn:EP; simpl.
  - apply IH; try done; try lia. intros h' Hh'. destruct (decide (j <= h')); [apply Hhi; lia|].
    apply (Hmono h); [lia|lia|done].
  - apply IH; try done; try lia. intros h' Hh'. destruct (P h') eqn:E; [|done].
    rewrite <- EP. symmetry. apply (Hmono h'); [lia|lia|done].
Qed.

Lemma range_first_mem t : t <> [] -> (range_of t).1 ∈ t.*1.
Proof. intros Hne. destruct t as [|[k v] t]; [done|]. left. Qed.

Lemma range_last_mem t : t <> [] -> (range_of t).2 ∈ t.*1.
Proof.
  intros Hne. destruct t as [|x t _] using rev_ind; [done|]. unfold range_of. rewrite fmap_app.
  change ([x].*1) with [x.1]. rewrite last_snoc. set_solver.
Qed.

Lemma range_bounds t k : ksorted t -> k ∈ t.*1 -> (range_of t).1 ≤ₖ k /\ k ≤ₖ (range_of t).2.
Proof.
  unfold ksorted. intros Hs Hk. split.
  - destruct t as [|[k0 v0] t]; [by apply elem_of_nil in Hk|]. simpl in *.
    apply StronglySorted_inv in Hs as [_ Hf]. rewrite Forall_forall in Hf.
    apply elem_of_cons in Hk as [->|Hk]; auto with kv.
  - destruct t as [|x t _] using rev_ind; [by apply elem_of_nil in Hk|]. unfold range_of.
    rewrite fmap_app in *. change ([x].*1) with [x.1] in *. rewrite last_snoc. simpl.
    apply StronglySorted_app in Hs as (H & _). apply elem_of_app in Hk as [Hk|Hk%list_elem_of_singleton]; [|subst; auto with kv].
    apply blt_ble, H; [done|left].
Qed.

Lemma sorted_permutation_eq (rs rt : list (bytes * bytes)) :
  StronglySorted (fun a b => a.1 ≤ₖ b.1) rs -> StronglySorted (fun a b => a.1 <ₖ b.1) rt -> rs ≡ₚ rt -> rs = rt.
Proof.
  intros Hrs Hrt. revert rs Hrs. induction Hrt as [|x rt Hrt IH Hx]; intros rs Hrs Hp.
  { by apply Permutation_nil_r in Hp. }
  destruct rs as [|y rs]; [by apply Permutation_nil_l in Hp|].
  apply StronglySorted_inv in Hrs as [Hrs Hy]. rewrite Forall_forall in Hx, Hy.
  assert (y = x) as ->.
  { assert (x ∈ y :: rs) as Hxin by (rewrite Hp; left). assert (y ∈ x :: rt) as Hyin by (rewrite <- Hp; left).
    apply elem_of_cons in Hxin as [->|Hxin]; [done|]. apply elem_of_cons in Hyin as [->|Hyin]; [done|].
    apply Hx in Hyin. apply Hy in Hxin. by apply blt_not_ble in Hyin. }
  f_equal. apply IH; [done|]. by eapply Permutation_cons_inv.
Qed.

(** Sorted, disjoint and nonempty tables: all keys of one are below all of a later one. *)
Lemma concat_split {A} (pre : list (list (bytes * A))) t post :
  ksorted (concat (pre ++ t :: post)) ->
  ksorted t /\ (forall a b, a ∈ (concat pre).*1 -> b ∈ t.*1 -> a <ₖ b) /\
  (forall a b, a ∈ t.*1 -> b ∈ (concat post).*1 -> a <ₖ b).
Proof.
  rewrite concat_app. simpl. intros (_ & (Ht & _ & H2)%ksorted_app & H1)%ksorted_app. split_and!; [done|..].
  - intros a b (x & -> & Hx)%list_elem_of_fmap (y & -> & Hy)%list_elem_of_fmap. apply H1; [done|]. set_solver.
  - intros a b (x & -> & Hx)%list_elem_of_fmap (y & -> & Hy)%list_elem_of_fmap. by apply H2.
Qed.

Lemma ranges_sorted ts :
  ksorted (concat ts) -> Forall (fun t : layer => t <> []) ts ->
  StronglySorted (fun a b => a.1 <ₖ b.1) (range_of <$> ts).
Proof.
  intros Hs Hne. induction Hne as [|t ts Ht Hne IH]; [constructor|]. simpl in Hs. cbn [fmap list_fmap].
  pose proof (concat_split [] t ts Hs) as (_ & _ & Hlt).
  apply ksorted_app in Hs as (_ & Hs & _). constructor; [auto|].
  apply Forall_fmap, Forall_forall. intros t' Hin. apply Hlt; [by apply range_first_mem|].
  rewrite Forall_forall in Hne. pose proof (range_first_mem t' (Hne _ Hin)) as Hm.
  apply list_elem_of_fmap in Hm as (x & -> & Hx). apply list_elem_of_fmap. exists x. split; [done|].
  apply list_elem_of_In, in_concat. exists t'. by rewrite <- !list_elem_of_In.
Qed.

#[global] Instance meta_le_total : Total meta_le.
Proof. intros a b. unfold meta_le. destruct (ble_total (Manifest.MinKey a) (Manifest.MinKey b)); auto with kv. Qed.
#[global] Instance meta_le_trans : Transitive meta_le.
Proof. intros a b c. unfold meta_le. apply ble_trans. Qed.

Lemma sorted_metas ms ts :
  meta_range <$> ms ≡ₚ range_of <$> ts -> ksorted (concat ts) -> Forall (fun t : layer => t <> []) ts ->
  meta_range <$> merge_sort meta_le ms = range_of <$> ts.
Proof.
  intros Hp Hs Hne. apply sorted_permutation_eq; [|by apply ranges_sorted|by rewrite merge_sort_Permutation].
  pose proof (StronglySorted_merge_sort meta_le ms) as H. induction H as [|m l Hl IH Hm]; [constructor|].
  cbn [fmap list_fmap]. constructor; [done|]. apply Forall_fmap. eapply Forall_impl; [exact Hm|]. done.
Qed.

Lemma find_reader_spec (g : bytes -> bytes -> bool) ps ts e :
  Forall2 (table_is e) ps ts -> Forall (fun t => t <> []) ts ->
  let hit t := g (range_of t).1 (range_of t).2 in
  (find_reader (with_range g) ps e = Ok None /\ Forall (fun t => hit t = false) ts) \/
  (exists p t, find_reader (with_range g) ps e = Ok (Some p) /\ t ∈ ts /\ table_is e p t /\ hit t = true).
Proof.
  intros HF Hne hit. induction HF as [|p t ps ts Hp HF IH]; [by left|]. cbn [find_reader].
  apply Forall_cons in Hne as [Ht Hne]. destruct Hp as (r & Er & Hr). unfold reader_at. rewrite Er. rstep.
  destruct (table_range r t Hr Ht) as [Hmin Hmax]. unfold with_range at 1 3. rewrite Hmin, Hmax. fold (hit t).
  destruct (hit t) eqn:Eh.
  - right. exists p, t. split_and!; try done; [left|]. by exists r.
  - destruct (IH Hne) as [[-> Hf]|(p' & t' & -> & Hin & Ht' & Hh)]; [left; auto|right].
    exists p', t'. split_and!; try done. by right.
Qed.

Lemma assoc_absent {A} k (l : list (bytes * A)) : (forall a, a ∈ l.*1 -> a <> k) -> assoc k l = None.
Proof. intros H. apply assoc_None. intros Hk. by apply (H k). Qed.

Lemma concat_keys (ts : list layer) k : k ∈ (concat ts).*1 -> exists pre t post, ts = pre ++ t :: post /\ k ∈ t.*1.
Proof.
  intros (x & -> & Hx)%list_elem_of_fmap. apply list_elem_of_In, in_concat in Hx as (t & Ht & Hx).
  apply list_elem_of_In in Ht, Hx. apply list_elem_of_split in Ht as (l1 & l2 & ->).
  exists l1, t, l2. split; [done|]. apply list_elem_of_fmap. eauto.
Qed.

Lemma assoc_concat_before key (ts : list layer) :
  ksorted (concat ts) -> Forall (fun t' => key <ₖ (range_of t').1) ts -> assoc key (concat ts) = None.
Proof.
  intros Hs Hts. apply assoc_absent. intros a (pre & t & post & -> & Ha)%concat_keys ->.
  apply concat_split in Hs as (Ht & _). destruct (range_bounds t key Ht Ha) as [Hb _].
  apply Forall_app in Hts as [_ [Hk _]%Forall_cons]. by apply blt_not_ble in Hk.
Qed.

(** Only the last table that starts at or before the key can hold it. *)
Lemma assoc_concat_at key (pre : list layer) t post :
  ksorted (concat (pre ++ t :: post)) -> t <> [] ->
  (range_of t).1 ≤ₖ key -> Forall (fun t' => key <ₖ (range_of t').1) post ->
  assoc key (concat (pre ++ t :: post)) = assoc key t.
Proof.
  intros Hs Ht Hle Hpost. pose proof (concat_split _ _ _ Hs) as (_ & H1 & _). rewrite concat_app in Hs |- *.
  cbn [concat] in *. apply ksorted_app in Hs as (_ & (_ & Hs & _)%ksorted_app & _).
  rewrite !assoc_app, (assoc_absent key (concat pre)), (assoc_concat_before key post); [by destruct (assoc key t)|done|done|].
  intros a Ha ->. specialize (H1 _ _ Ha (range_first_mem t Ht)). by apply blt_not_ble in H1.
Qed.

(** The tables of a level have different ranges. *)
Lemma range_inj ts t t' :
  ksorted (concat ts) -> Forall (fun t : layer => t <> []) ts -> t ∈ ts -> t' ∈ ts ->
  (range_of t).1 = (range_of t').1 -> t = t'.
Proof.
  intros Hs Hne. induction Hne as [|t0 ts Ht0 Hne IH]; [by intros ?%elem_of_nil|].
  pose proof (ranges_sorted (t0 :: ts) Hs ltac:(by constructor)) as Hr. cbn [fmap list_fmap] in Hr.
  apply StronglySorted_inv in Hr as [_ Hr]. rewrite Forall_fmap, Forall_forall in Hr. simpl in Hs.
  apply ksorted_app in Hs as (_ & Hs & _). specialize (IH Hs).
  intros [->|Hin]%elem_of_cons [->|Hin']%elem_of_cons Heq; try done; [..|by apply IH].
  - pose proof (Hr _ Hin' : (range_of t0).1 <ₖ (range_of t').1) as H. rewrite Heq in H. by apply blt_irrefl in H.
  - pose proof (Hr _ Hin : (range_of t0).1 <ₖ (range_of t).1) as H. rewrite Heq in H. by apply blt_irrefl in H.
Qed.

Lemma StronglySorted_at {A} (R : relation A) l i j x y :
  StronglySorted R l -> (i < j)%nat -> l !! i = Some x -> l !! j = Some y -> R x y.
Proof.
  intros Hs. revert i j. induction Hs as [|z l Hs IH Hf]; intros i j Hij Hi Hj; [done|].
  destruct i as [|i], j as [|j]; simplify_eq/=; try lia.
  - rewrite Forall_forall in Hf. apply Hf. by eapply list_elem_of_lookup_2.
  - apply (IH i j); [lia|done|done].
Qed.

(** The search separates the tables that start at or before the key. *)
Lemma search_metas ms ts key :
  meta_range <$> ms = range_of <$> ts -> ksorted (concat ts) -> Forall (fun t : layer => t <> []) ts ->
  exists pre post, ts = pre ++ post /\
    sort_Search (S (length ms)) (fun i => m ← index ms i; Ok (bltb key (Manifest.MinKey m))) 0 (len ms) = Ok (len pre) /\
    Forall (fun t => (range_of t).1 ≤ₖ key) pre /\ Forall (fun t => key <ₖ (range_of t).1) post.
Proof.
  intros Hsm Hs Hne. assert (length ms = length ts) as Hl.
  { apply (f_equal length) in Hsm. by rewrite !length_fmap in Hsm. }
  set (P := fun h => match ms !! Z.to_nat h with Some m => bltb key (Manifest.MinKey m) | None => true end).
  assert (StronglySorted (fun a b => a.1 <ₖ b.1) (meta_range <$> ms)) as Hsort.
  { rewrite Hsm. by apply ranges_sorted. }
  destruct (sort_Search_spec P (fun i => m ← index ms i; Ok (bltb key (Manifest.MinKey m))) (len ms)
    (S (length ms)) 0 (len ms)) as (r & -> & Hr & Hlo & Hhi).
  - split; [lia|apply len_nonneg].
  - lia.
  - unfold len. lia.
  - intros h Hh. unfold index, P. rewrite (proj2 (Z.leb_le 0 h)) by lia.
    destruct (lookup_lt_is_Some_2 ms (Z.to_nat h)) as [m ->]; [unfold len in Hh; lia|done].
  - intros h h' Hh Hh'. unfold P.
    destruct (ms !! Z.to_nat h') as [m'|] eqn:E'; [|done].
    destruct (ms !! Z.to_nat h) as [m|] eqn:E; [|apply lookup_ge_None in E; apply lookup_lt_Some in E'; lia].
    rewrite !bltb_spec. intros Hk. destruct (decide (h = h')) as [->|Hne']; [congruence|].
    eapply blt_trans; [exact Hk|].
    apply (StronglySorted_at _ _ (Z.to_nat h) (Z.to_nat h') (meta_range m) (meta_range m') Hsort);
      [lia|by rewrite list_lookup_fmap, E|by rewrite list_lookup_fmap, E'].
  - lia.
  - lia.
  - exists (take (Z.to_nat r) ts), (drop (Z.to_nat r) ts).
    assert (forall i t, ts !! i = Some t -> P (Z.of_nat i) = bltb key (range_of t).1) as HP.
    { intros i t Hi. unfold P. rewrite Nat2Z.id. apply (f_equal (.!! i)) in Hsm.
      rewrite !list_lookup_fmap, Hi in Hsm. destruct (ms !! i) as [m|]; [|done].
      apply (f_equal (from_option fst [])) in Hsm. simpl in Hsm. by rewrite Hsm. }
    split_and!; [by rewrite take_drop|unfold len in *; rewrite length_take; f_equal; lia|..];
      apply Forall_lookup; intros i t Hi.
    + apply lookup_take_Some in Hi as [Hi Hlt]. apply bltb_false. rewrite <- (HP _ _ Hi). apply Hlo. lia.
    + rewrite lookup_drop in Hi. apply bltb_spec. rewrite <- (HP _ _ Hi). apply Hhi.
      apply lookup_lt_Some in Hi. unfold len. lia.
Qed.

(** What binary search and the match of ranges find in a level. *)
Lemma findSSTableForKey_spec e level ps ts key :
  level_repr e level ps ts -> index (e_levels e) level = Ok ps ->
  (findSSTableForKey level key e = Ok None /\ assoc key (concat ts) = None) \/
  (exists p t, findSSTableForKey level key e = Ok (Some p) /\ table_is e p t /\
    assoc key t = assoc key (concat ts)).
Proof.
  intros [Hs Hne (ts' & Hp & HF) Hm] Hps. unfold findSSTableForKey. rewrite Hps. rstep.
  destruct (Z.eqb_spec (len ps) 0) as [Hz|Hz].
  { left. split; [done|]. apply len_0_nil in Hz as ->. apply Forall2_nil_inv_l in HF as ->.
    by apply Permutation_nil_l in Hp as <-. }
  destruct (Z.eqb_spec (len (Manifest_GetLevel level (e_manifest e))) 0) as [Hz'|_].
  { apply len_0_nil in Hz'. rewrite Hz' in Hm. apply Permutation_nil_l, eq_sym, fmap_nil_inv in Hm as ->. by left. }
  pose proof (sorted_metas _ _ Hm Hs Hne) as Hsm. cbv zeta. set (ms := merge_sort meta_le _) in *.
  destruct (search_metas ms ts key Hsm Hs Hne) as (pre & post & Hts & -> & Hpre & Hpost). rstep.
  destruct pre as [|t pre _] using rev_ind.
  { left. split; [done|]. simpl in Hts. subst post. by apply assoc_concat_before. }
  rewrite <- app_assoc in Hts. cbn [app] in Hts. apply Forall_app in Hpre as [_ [Hle _]%Forall_cons].
  assert (t <> []) as Ht. { rewrite Hts in Hne. by apply Forall_app in Hne as [_ [? _]%Forall_cons]. }
  assert (assoc key (concat ts) = assoc key t) as Has by (rewrite Hts in *; by apply assoc_concat_at).
  replace (len (pre ++ [t]) - 1) with (Z.of_nat (length pre)) by (unfold len; rewrite length_app; simpl; lia).
  rewrite (proj2 (Z.ltb_ge _ 0)) by lia.
  assert (exists m, ms !! length pre = Some m /\ meta_range m = range_of t) as (m & Em & Hrange).
  { apply (f_equal (.!! length pre)) in Hsm. rewrite !list_lookup_fmap, Hts, list_lookup_middle in Hsm by done.
    destruct (ms !! length pre) as [m|]; [|done]. exists m. split; [done|]. by apply (inj Some). }
  rewrite (index_ok _ _ _ Em). rstep. injection Hrange as Hmin Hmax. change (Manifest.MinKey m = (range_of t).1) in Hmin.
  change (Manifest.MaxKey m = (range_of t).2) in Hmax. rewrite Hmin, Hmax. destruct (bltb (range_of t).2 key) eqn:Eb.
  { left. split; [done|]. rewrite Has. apply assoc_absent. intros a Ha ->. apply bltb_spec in Eb.
    rewrite Hts in Hs. apply concat_split in Hs as (Hs & _). destruct (range_bounds t key Hs Ha) as [_ Hb].
    by apply blt_not_ble in Eb. }
  right. assert (Forall (fun t => t <> []) ts') as Hne' by (by rewrite Hp).
  assert (t ∈ ts) as Hin by (rewrite Hts; set_solver).
  destruct (find_reader_spec (fun lo hi => beqb lo (range_of t).1 && beqb hi (range_of t).2) ps ts' e HF Hne')
    as [[_ Hf]|(p & t' & -> & Hin' & Hp' & Hh)].
  { rewrite Hp, Forall_forall in Hf. specialize (Hf t Hin). simpl in Hf. by rewrite !beqb_refl in Hf. }
  exists p, t'. rstep. split_and!; try done. apply andb_true_iff in Hh as [Hh%beqb_spec _].
  rewrite Hp in Hin'. by rewrite (range_inj ts t' t Hs Hne Hin' Hin Hh).
Qed.

(** ** Reading the layers *)

Section reading.
Context (e : Engine) (ms l0 : list layer) (deep : list (list layer)) (Hrep : engine_repr e ms l0 deep).

(** One level below L0 answers like its tables put together. *)
Lemma deep_answer key i ps ts :
  e_levels e !! S i = Some ps -> level_repr e (Z.of_nat (S i)) ps ts ->
  (p ← findSSTableForKey (Z.of_nat (S i)) key e;
   match p with None => Ok None | Some p => r ← reader_at p e; table_answer key r end) =
  Ok (match assoc key (concat ts) with Some v => Some (answer (Some v)) | None => None end).
Proof using.
  intros Hps Hl. destruct (findSSTableForKey_spec e _ ps ts key Hl) as [[-> ->]|(p & t & -> & (r & Er & Hr) & <-)];
    [by apply index_ok|done|]. rstep. unfold reader_at. rewrite Er. rstep. by apply table_answer_spec.
Qed.

Lemma Engine_Get_repr key : Engine_Get key e = answer (view key (layers ms l0 deep)).
Proof.
  destruct Hrep as [Hm (ps & rest & Hlev & H0 & Hlen & Hdeep)]. unfold Engine_Get, layers.
  rewrite Hlev. change (index (ps :: rest) 0) with (Ok ps). rstep. rewrite !view_app.
  rewrite (first_answer_spec _ _ ms key).
  2:{ eapply Forall2_impl; [exact Hm|]. intros p l (mt & Ep & Hp). unfold mem_at. rewrite Ep. rstep. by apply mem_answer_spec. }
  destruct (view key ms); [done|]. rewrite (first_answer_spec _ _ (reverse l0) key).
  2:{ apply Forall2_reverse. eapply Forall2_impl; [exact H0|]. intros p l (r & Ep & Hp). unfold reader_at. rewrite Ep. rstep.
      by apply table_answer_spec. }
  destruct (view key (reverse l0)); [done|]. rewrite (first_answer_spec _ _ (@concat _ <$> deep) key);
    [by destruct (view key _)|].
  assert (len (ps :: rest) - 1 = len deep) as -> by (rewrite len_cons; unfold len; lia).
  apply Forall2_same_length_lookup_2; [by rewrite length_fmap, length_seqZ; unfold len; lia|].
  intros i lv l Hi Hl. apply lookup_seqZ in Hi as [-> Hi]. rewrite list_lookup_fmap in Hl.
  destruct (deep !! i) as [ts|] eqn:Ets; simplify_eq/=.
  destruct (lookup_lt_is_Some_2 rest i) as [ps' Eps]; [rewrite Hlen; by eapply lookup_lt_Some|].
  replace (1 + Z.of_nat i) with (Z.of_nat (S i)) by lia.
  apply (deep_answer key i ps' ts); [by rewrite Hlev|by apply (Hdeep i)].
Qed.
End reading.

(** ** Range reads *)

(** The loop of [ReadRange] is a traversal cut at the end key. *)
Fixpoint cut_range (endKey : bytes) (out : list entry) : list KVPair :=
  match out with
  | [] => []
  | x :: out =>
      if bltb endKey (e_key x) then []
      else if e_tombstone x then cut_range endKey out
      else mkKV (e_key x) (val_bytes (e_value x)) :: cut_range endKey out
  end.

Lemma range_loop_drain fuel endKey mi out :
  mi_drain fuel mi = Ok out -> range_loop fuel endKey mi = Ok (cut_range endKey out).
Proof.
  revert mi out. induction fuel as [|fuel IH]; intros mi out H; [done|]. cbn [mi_drain range_loop] in *.
  destruct (MergeIterator_Valid mi); [|by simplify_eq].
  apply res_bind_Ok in H as (k & -> & H). apply res_bind_Ok in H as (v & Ev & H).
  apply res_bind_Ok in H as (t & Et & H). apply res_bind_Ok in H as (mi' & Em & H).
  apply res_bind_Ok in H as (es & Ees & H). simplify_eq/=. destruct (bltb endKey k); [done|].
  rewrite Et. rstep. rewrite Ev. rstep. rewrite Em. rstep. rewrite (IH _ _ Ees). rstep. by destruct t.
Qed.

Lemma cut_range_elem endKey out k v :
  esorted out -> Forall (fun x => e_tombstone x = bool_decide (e_value x = None)) out ->
  mkKV k v ∈ cut_range endKey out <-> mkEntry k (Some v) false ∈ out /\ k ≤ₖ endKey.
Proof.
  intros Hs Ht. induction Ht as [|x out Hx Ht IH]; simpl.
  { split; [by intros ?%elem_of_nil|by intros [?%elem_of_nil _]]. }
  apply esorted_cons in Hs as [Hf Hs]. specialize (IH Hs). destruct (bltb endKey (e_key x)) eqn:E.
  - split; [by intros ?%elem_of_nil|]. intros [Hin Hk]. exfalso. apply bltb_spec in E.
    apply elem_of_cons in Hin as [<-|Hin]; [by apply blt_not_ble in E|]. rewrite Forall_forall in Hf.
    apply Hf in Hin. simpl in Hin. apply blt_not_ble in E. apply E. by eapply ble_trans; [apply blt_ble|].
  - apply bltb_false in E. destruct x as [xk [xv|] xt]; simpl in *; rewrite Hx; simpl.
    + rewrite !elem_of_cons, IH. naive_solver.
    + rewrite elem_of_cons, IH. naive_solver.
Qed.

Lemma cut_range_keys endKey out x : x ∈ kv_Key <$> cut_range endKey out -> x ∈ e_key <$> out.
Proof.
  induction out as [|y out IH]; simpl; [done|]. destruct (bltb endKey (e_key y)); [by intros ?%elem_of_nil|].
  destruct (e_tombstone y); simpl; rewrite ?elem_of_cons; naive_solver.
Qed.

Lemma cut_range_sorted endKey out : esorted out -> StronglySorted blt (kv_Key <$> cut_range endKey out).
Proof.
  induction out as [|x out IH]; simpl; [constructor|]. intros [Hf Hs]%esorted_cons.
  destruct (bltb endKey (e_key x)); [constructor|]. destruct (e_tombstone x); [auto|]. simpl.
  constructor; [auto|]. apply Forall_forall. intros y (z & -> & Hz)%cut_range_keys%list_elem_of_fmap.
  rewrite Forall_forall in Hf. by apply Hf.
Qed.

Lemma view_at k ls j l v :
  ls !! j = Some l -> assoc k l = Some v -> (forall j' l', (j' < j)%nat -> ls !! j' = Some l' -> assoc k l' = None) ->
  view k ls = Some v.
Proof.
  revert j. induction ls as [|l0 ls IH]; intros [|j] Hj Hv Hlt; simplify_eq/=; [by rewrite Hv|].
  rewrite (Hlt 0%nat l0) by (done || lia). apply (IH j); try done. intros j' l' Hj' Hl'. apply (Hlt (S j') l'); [lia|done].
Qed.

Lemma view_Some k ls v : view k ls = Some v -> exists j l, ls !! j = Some l /\ assoc k l = Some v.
Proof.
  induction ls as [|l ls IH]; simpl; [done|]. destruct (assoc k l) eqn:E; intros H.
  - exists 0%nat, l. by simplify_eq.
  - destruct (IH H) as (j & l' & Hj & Hl'). by exists (S j), l'.
Qed.

Definition mem_entries (l : layer) : list entry := mem_entry <$> l.

(** A merge by position yields, per key, the first entry from the top. *)
Lemma merges_view s ls out :
  Forall (fun l : layer => ksorted l) ls ->
  merges (seqZ 0 (len ls)) (filter (fun x => s ≤ₖ e_key x) <$> (mem_entries <$> ls)) out ->
  Forall (fun x => e_tombstone x = bool_decide (e_value x = None)) out /\
  (forall k v, mem_entry (k, v) ∈ out <-> s ≤ₖ k /\ view k ls = Some v).
Proof.
  unfold mem_entries. intros Hs [M1 M2 M3].
  assert (forall x, x ∈ out -> exists k v, x = mem_entry (k, v) /\ s ≤ₖ k /\ view k ls = Some v) as Hout.
  { intros x Hx. destruct (M2 x Hx) as (j & l & p & Hj & Hp & Hin & Hmin).
    rewrite !list_lookup_fmap in Hj. destruct (ls !! j) as [lj|] eqn:Ej; simplify_eq/=.
    apply list_elem_of_filter in Hin as [Hsk ([k v] & -> & Hin)%list_elem_of_fmap].
    exists k, v. split_and!; [done|done|]. apply lookup_seqZ in Hp as [-> Hp]. apply (view_at k ls j lj).
    - done.
    - apply assoc_elem; [|done]. rewrite Forall_forall in Hs. apply Hs. by eapply list_elem_of_lookup_2.
    - intros j' l' Hj' Hl'. apply assoc_None. intros ([k' v'] & -> & Hin')%list_elem_of_fmap.
      apply (Hmin j' (filter (fun x => s ≤ₖ e_key x) (mem_entry <$> l')) (0 + Z.of_nat j')).
      + by rewrite !list_lookup_fmap, Hl'.
      + apply lookup_seqZ. lia.
      + lia.
      + apply list_elem_of_fmap. exists (mem_entry (k', v')). split; [done|].
        apply list_elem_of_filter. split; [done|]. apply list_elem_of_fmap. eauto. }
  split; [apply Forall_forall; intros x Hx; by destruct (Hout x Hx) as (k & v & -> & _)|].
  intros k v. split.
  - intros Hin. destruct (Hout _ Hin) as (k' & v' & [= -> -> _] & Hsk & Hv). done.
  - intros [Hsk Hv]. destruct (view_Some _ _ _ Hv) as (j & l & Hj & Hl).
    assert (k ∈ e_key <$> out) as (x & -> & Hx)%list_elem_of_fmap.
    { apply (M3 j (filter (fun x => s ≤ₖ e_key x) (mem_entry <$> l)) (mem_entry (k, v))).
      - by rewrite !list_lookup_fmap, Hj.
      - apply list_elem_of_filter. split; [done|]. apply list_elem_of_fmap. exists (k, v). split; [done|by apply assoc_Some]. }
    destruct (Hout x Hx) as (k' & v' & -> & _ & Hv'). simpl in *. rewrite Hv in Hv'. by injection Hv' as ->.
Qed.

Lemma view_concat k (ts : list layer) : view k ts = assoc k (concat ts).
Proof. induction ts as [|t ts IH]; simpl; [done|]. rewrite assoc_app, IH. done. Qed.

Lemma assoc_permutation k (l l' : layer) : ksorted l -> l' ≡ₚ l -> assoc k l' = assoc k l.
Proof.
  intros Hs Hp. destruct (assoc k l') as [v|] eqn:E.
  - apply assoc_Some in E. rewrite Hp in E. symmetry. by apply assoc_elem.
  - symmetry. apply assoc_None. rewrite <- Hp. by apply assoc_None.
Qed.

Lemma view_level e level ps ts :
  level_repr e level ps ts ->
  exists ts', Forall2 (table_is e) ps ts' /\ length (concat ts') = length (concat ts) /\
    forall k, view k ts' = assoc k (concat ts).
Proof.
  intros [Hs Hne (ts' & Hp & HF) Hm]. exists ts'. split_and!; [done|by rewrite Hp|]. intros k. rewrite view_concat.
  apply assoc_permutation; [done|]. by rewrite Hp.
Qed.

Lemma view_deep e (rest : list (list nat)) (deep : list (list layer)) n :
  length rest = length deep ->
  (forall i ps ts, rest !! i = Some ps -> deep !! i = Some ts -> level_repr e (Z.of_nat (n + i)) ps ts) ->
  exists dts, Forall2 (table_is e) (concat rest) dts /\
    length (concat dts) = length (concat (@concat _ <$> deep)) /\ forall k, view k dts = view k (@concat _ <$> deep).
Proof.
  revert deep n. induction rest as [|ps rest IH]; intros [|ts deep] n Hl H; simplify_eq/=; [by exists []|].
  destruct (IH deep (S n) Hl) as (dts & HF & Hld & Hv).
  { intros i ps' ts' Hi Hi'. replace (S n + i)%nat with (n + S i)%nat by lia. by apply (H (S i)). }
  destruct (view_level e _ ps ts (H 0%nat ps ts eq_refl eq_refl)) as (ts' & HF' & Hl' & Hv').
  exists (ts' ++ dts). split_and!; [by apply Forall2_app|by rewrite concat_app, !length_app, Hl', Hld|]. intros k. by rewrite view_app, Hv', Hv.
Qed.

Definition stands (it : AnyIter) (all : list entry) : Prop := exists rest, standing it all rest.

Lemma mem_iters_ok e ps ms :
  Forall2 (mem_is e) ps ms -> exists its, mem_iters ps e = Ok its /\ Forall2 stands its (mem_entries <$> ms).
Proof.
  induction 1 as [|p l ps ms (mt & Ep & Hp) HF (its & IH & Hits)]; simpl; [by exists []|].
  unfold mem_at. rewrite Ep. rstep. rewrite IH. rstep. eexists. split; [done|]. constructor; [|done].
  exists []. by apply mem_standing_new.
Qed.

Lemma table_iters_ok e ps ts :
  Forall2 (table_is e) ps ts -> exists its, table_iters ps e = Ok its /\ Forall2 stands its (mem_entries <$> ts).
Proof.
  induction 1 as [|p l ps ts (r & Ep & bs & Hr & Hs & Heq) HF (its & IH & Hits)]; simpl; [by exists []|].
  unfold reader_at. rewrite Ep. rstep. rewrite IH. rstep. eexists. split; [done|]. constructor; [|done].
  exists []. unfold mem_entries. rewrite <- Heq. apply (sst_standing_intro r bs); [done|by eapply table_esorted|].
  by constructor.
Qed.

Lemma mem_is_sorted e ps ms : Forall2 (mem_is e) ps ms -> Forall (fun l : layer => ksorted l) ms.
Proof. induction 1 as [|p l ps ms (mt & _ & Hp) HF IH]; constructor; [by eapply sl_repr_sorted|done]. Qed.
Lemma table_is_sorted e ps ts : Forall2 (table_is e) ps ts -> Forall (fun l : layer => ksorted l) ts.
Proof. induction 1 as [|p l ps ts (r & _ & bs & _ & Hs & _) HF IH]; by constructor. Qed.

Lemma total_filter s (ls : list layer) :
  (total (filter (fun x => s ≤ₖ e_key x) <$> (mem_entries <$> ls)) <= length (concat ls))%nat.
Proof.
  induction ls as [|l ls IH]; [simpl; lia|]. cbn [fmap list_fmap total concat]. rewrite length_app.
  pose proof (length_filter (fun x => s ≤ₖ e_key x) (mem_entries l)) as H.
  assert (length (mem_entries l) = length l) by apply length_fmap. lia.
Qed.

Section ranges.
Context (e : Engine) (ms l0 : list layer) (deep : list (list layer)) (Hrep : engine_repr e ms l0 deep).

(** The iterators of [ReadRange] and the stack of layers they walk. *)
Lemma range_iters :
  exists l0ps its1 its2 its3 ls,
    index (e_levels e) 0 = Ok l0ps /\ mem_iters (e_memtable e :: e_immutableMems e) e = Ok its1 /\
    table_iters (reverse l0ps) e = Ok its2 /\ table_iters (concat (drop 1 (e_levels e))) e = Ok its3 /\
    Forall2 stands (its1 ++ its2 ++ its3) (mem_entries <$> ls) /\ Forall (fun l : layer => ksorted l) ls /\
    length (concat ls) = length (concat (layers ms l0 deep)) /\
    forall k, view k ls = view k (layers ms l0 deep).
Proof.
  destruct Hrep as [Hm (ps & rest & Hlev & H0 & Hlen & Hdeep)]. rewrite Hlev. cbn [drop].
  destruct (view_deep e rest deep 1 Hlen Hdeep) as (dts & HF & Hld & Hv).
  destruct (mem_iters_ok e _ ms Hm) as (its1 & E1 & S1).
  pose proof (Forall2_reverse _ _ _ H0) as H0'.
  destruct (table_iters_ok e _ _ H0') as (its2 & E2 & S2). destruct (table_iters_ok e _ dts HF) as (its3 & E3 & S3).
  exists ps, its1, its2, its3, (ms ++ reverse l0 ++ dts). split_and!; try done.
  - rewrite !fmap_app. by repeat apply Forall2_app.
  - rewrite !Forall_app. split_and!; [by eapply mem_is_sorted|by eapply table_is_sorted..].
  - unfold layers. by rewrite !concat_app, !length_app, Hld.
  - intros k. unfold layers. by rewrite !view_app, Hv.
Qed.

Lemma Engine_ReadRange_repr fuel s t :
  (length (concat (layers ms l0 deep)) < fuel)%nat ->
  exists kvs, Engine_ReadRange fuel s t e = Ok kvs /\ StronglySorted blt (kv_Key <$> kvs) /\
    forall k v, mkKV k v ∈ kvs <-> (s ≤ₖ k /\ k ≤ₖ t) /\ view k (layers ms l0 deep) = Some (Some v).
Proof.
  intros Hfuel. destruct range_iters as (l0ps & its1 & its2 & its3 & ls & E0 & E1 & E2 & E3 & HF & Hs & Hl & Hv).
  unfold Engine_ReadRange. rewrite E0. rstep. rewrite E1. rstep. rewrite E2. rstep. rewrite E3. rstep.
  set (its := its1 ++ its2 ++ its3) in *. cbv zeta.
  assert (len its = len ls) as Hlen. { apply Forall2_length in HF. rewrite length_fmap in HF. unfold len. lia. }
  rewrite Hlen. destruct (seek_all_ok (Seek s) (filter (fun x => s ≤ₖ e_key x)) its (seqZ 0 (len ls)) (mem_entries <$> ls))
    as (mi & mi' & Em & Es & Hc & Hsort).
  { intros it all rest. apply law_seek. }
  { done. }
  { rewrite length_seqZ. unfold len in *. lia. }
  rewrite Em. rstep. unfold MergeIterator_Seek. rewrite Es. rstep.
  destruct (mi_drain_ok fuel _ _ _ Hc) as (out & Ed & Hm).
  { pose proof (total_filter s ls). lia. }
  apply merged_merges in Hm; [|done]. destruct (merges_view s ls out Hs Hm) as [Ht Hout].
  exists (cut_range t out). split_and!.
  - by apply range_loop_drain.
  - apply cut_range_sorted, (mg_sorted _ _ _ Hm).
  - intros k v. rewrite cut_range_elem by (done || apply (mg_sorted _ _ _ Hm)).
    rewrite (Hout k (Some v)), Hv. tauto.
Qed.
End ranges.

(** ** Properties of the read path *)

(** C12.  Reading.  In every state whose memtables, L0 tables and disjoint
    sorted deeper levels represent the layers [ms], [l0] and [deep], which no
    table with an empty value does ([table_repr]; for such an entry [Get] reports
    that the key does not exist and [ReadRange] returns it with an empty value),
    [Get] answers with the newest entry of the key: memtables first, then L0 from
    the newest table to the oldest, then each deeper level through the binary
    search of the manifest.  [ReadRange] terminates within one step per stored
    entry and returns, in ascending key order and once each, exactly the pairs
    of the range that [Get] would return. *)
Theorem engine_reads_layers :
  forall (e : Engine) (ms l0 : list layer) (deep : list (list layer)),
  engine_repr e ms l0 deep ->
  (forall key, Engine_Get key e = answer (view key (layers ms l0 deep))) /\
  (forall fuel s t, (length (concat (layers ms l0 deep)) < fuel)%nat ->
     exists kvs, Engine_ReadRange fuel s t e = Ok kvs /\ StronglySorted blt (kv_Key <$> kvs) /\
       forall k v, mkKV k v ∈ kvs <-> (s ≤ₖ k /\ k ≤ₖ t) /\ Engine_Get k e = Ok (Some v)).
Proof.
  intros e ms l0 deep Hrep. split; [by apply Engine_Get_repr|]. intros fuel s t Hfuel.
  destruct (Engine_ReadRange_repr e ms l0 deep Hrep fuel s t Hfuel) as (kvs & E & Hs & Hin).
  exists kvs. split_and!; [done|done|]. intros k v. rewrite Hin, (Engine_Get_repr e ms l0 deep Hrep).
  destruct (view k (layers ms l0 deep)) as [[w|]|]; simpl; naive_solver.
Qed.
