(* ===== verification/EngineRun.v ===== *)
(** * engine/engine.go: writes and flushes as a step relation

    Client operations interleave with the four stages of the flush goroutine.
    The abstract engine is one finite map; the theorems show that every
    interleaving in which flushes succeed keeps [Get] and [ReadRange] equal to
    it. *)

From S2P Require Import Prelude GoStd SkipList Memtable Bloom Wal SSTWriter SSTReader SSTIterator GoHeap MergeIterator Manifest Engine.

(** ** Client operations *)

Inductive eop :=
| EPut (io : IO) (key : bytes) (value : option bytes)
| EDelete (io : IO) (key : bytes)
| EBatchPut (io : IO) (keys : list bytes) (values : list (option bytes)).

Definition eop_run (o : eop) : M Engine unit :=
  match o with
  | EPut io k v => Engine_Put io k v
  | EDelete io k => Engine_Delete io k
  | EBatchPut io ks vs => Engine_BatchPut io ks vs
  end.

(** The writes of an operation, in order. *)
Definition eop_writes (o : eop) : list (bytes * option bytes) :=
  match o with
  | EPut _ k v => [(k, v)]
  | EDelete _ k => [(k, None)]
  | EBatchPut _ ks vs => zip ks vs
  end.

Definition write1 (m : gmap bytes (option bytes)) (kv : bytes * option bytes) : gmap bytes (option bytes) :=
  <[kv.1 := kv.2]> m.
Definition write_all (ws : list (bytes * option bytes)) (m : gmap bytes (option bytes)) : gmap bytes (option bytes) :=
  fold_left write1 ws m.

(** No empty value: tables and the log do not tell it from a deletion. *)
Definition clean (l : layer) : Prop := Forall (fun kv => kv.2 <> Some []) l.

Lemma ains_clean k v l : v <> Some [] -> clean l -> clean (ains k v l).
Proof.
  intros Hv H. induction H as [|[k' v'] l Hv' H IH]; simpl; [by repeat constructor|].
  destruct (bcompare k k'); repeat constructor; done.
Qed.

(** ** The flush goroutine *)

Inductive fpc :=
| FIdle
| FWritten (task : flushTask) (p : nat)
| FEmptied (task : flushTask)
| FPublished (task : flushTask)
| FRemoved (task : flushTask).

(** What a step does: a client operation or a stage of the flush goroutine. *)
Inductive label :=
| LOp (o : eop)
| LWrite (io : IO)
| LPublish
| LRemove
| LFinish (io : IO).

(** A step of the system and of the abstract map.  An operation that returns
    an error has no effect.  An operation is taken when the flush channel has
    room for one more task, and a flush step only when it succeeds. *)
Inductive estep : label -> Engine * fpc -> gmap bytes (option bytes) -> Engine * fpc -> gmap bytes (option bytes) -> Prop :=
| step_op e pc m o r e' :
    clean (eop_writes o) -> (length (e_flushCh e) < flushCh_cap)%nat -> eop_run o e = (r, e') ->
    estep (LOp o) (e, pc) m (e', pc) (match r with Ok _ => write_all (eop_writes o) m | _ => m end)
| step_write e m io task q mt l p e' :
    e_flushCh e = task :: q -> e_mems e !! ft_mem task = Some mt -> Memtable_scan mt = Ok l ->
    table_fits (mem_entries l) ->
    flush_write io (ft_mem task) (set_flushCh q e) = (Ok (FlushTable p), e') ->
    estep (LWrite io) (e, FIdle) m (e', FWritten task p) m
| step_empty e m io task q e' :
    e_flushCh e = task :: q -> flush_write io (ft_mem task) (set_flushCh q e) = (Ok FlushEmpty, e') ->
    estep (LWrite io) (e, FIdle) m (e', FEmptied task) m
| step_publish e m task p r e' :
    flush_publish p e = (r, e') -> estep LPublish (e, FWritten task p) m (e', FPublished task) m
| step_remove e m task r e' :
    removeImmutable (ft_mem task) e = (r, e') -> estep LRemove (e, FPublished task) m (e', FRemoved task) m
| step_remove_empty e m task r e' :
    removeImmutable (ft_mem task) e = (r, e') -> estep LRemove (e, FEmptied task) m (e', FIdle) m
| step_finish e m io task r e' :
    flush_finish io (ft_walID task) e = (r, e') -> estep (LFinish io) (e, FRemoved task) m (e', FIdle) m.

Inductive esteps (st : Engine * fpc) (m : gmap bytes (option bytes)) : Engine * fpc -> gmap bytes (option bytes) -> Prop :=
| esteps_refl : esteps st m st m
| esteps_step lab st1 m1 st2 m2 : esteps st m st1 m1 -> estep lab st1 m1 st2 m2 -> esteps st m st2 m2.

(** ** What a successful flush wrote *)

Lemma or_fail_table {St A B} (m : M St A) (c : M St B) k s p s' :
  or_fail m c k s = (Ok (FlushTable p), s') -> exists a s1, m s = (Ok a, s1) /\ k a s1 = (Ok (FlushTable p), s').
Proof.
  unfold or_fail. destruct (m s) as [[a| | |] s1]; intros H; try done; [by eauto|].
  minv H. done.
Qed.

Lemma on_writer_Ok n w m e w' e' :
  on_writer n w m e = (Ok w', e') ->
  exists u, m w = (Ok u, w') /\ e' = set_tables (e_nextFileNum e) (<[n := bfile (sw_buf w')]> (e_files e)) e.
Proof.
  unfold on_writer, put_table, throw, mbind, M_bind. destruct (m w) as [[u| | |] w1]; intros H; injection H as H1 H2; try done. subst. eauto.
Qed.

Lemma norm_clean l : clean l -> norm_entry <$> mem_entries l = mem_entry <$> l.
Proof.
  intros H. unfold mem_entries. induction H as [|[k v] l Hv H IH]; [done|]. cbn [fmap list_fmap] in *. rewrite IH.
  f_equal. unfold norm_entry, mem_entry. simpl in *. destruct v as [[|b v]|]; done.
Qed.

Lemma reader_range r bs l : reader_repr r bs -> concat bs = mem_entries l ->
  val_bytes (Reader_MinKey r) = (range_of l).1 /\ val_bytes (Reader_MaxKey r) = (range_of l).2.
Proof.
  intros Hr Hc. unfold Reader_MinKey, Reader_MaxKey. rewrite (rr_min _ _ Hr), (rr_max _ _ Hr), Hc.
  unfold mem_entries, range_of, val_bytes. simpl. rewrite !fmap_last. split; [by destruct l|].
  by destruct (last l).
Qed.

(** The state after [flush_write] published a table in the manifest. *)
Definition flushed_state (e : Engine) (r : Reader) (mf : Manifest) (f : File) : Engine :=
  mkEngine (e_opts e) (e_wal e) (e_mems e) (e_memtable e) (e_immutableMems e) (e_rdrs e ++ [r]) (e_levels e) mf
    (e_flushCh e) (e_compactCh e) (u64 (e_nextFileNum e + 1)) (e_closed e) (<[e_nextFileNum e := f]> (e_files e)).

(** The file holds a complete durable table of the layer. *)
Definition table_file (f : File) (l : layer) : Prop :=
  synced f = length (contents f) /\ exists r, OpenReader (Ok (contents f)) = Ok r /\ table_repr r l.

Lemma map_table_opened b n f files e r r' :
  e_files e = <[n := f]> files -> OpenReader (Ok (contents f)) = Ok r' -> OpenReader (map_table b n e) = Ok r -> r' = r.
Proof.
  intros Hf Hr'. unfold map_table. rewrite Hf, lookup_insert_eq. destruct b; [|done]. rewrite Hr'. by intros [= ->].
Qed.

(** A writer that added entries and finished left a table of them. *)
Lemma written_reader w0 w1 w2 es u1 u2 :
  sw_inv w0 [] [] -> table_fits es -> add_entries es w0 = (Ok u1, w1) -> Writer_Finish w1 = (Ok u2, w2) ->
  let f := bfile (sw_buf w2) in
  exists r bs, OpenReader (Ok (contents f)) = Ok r /\ reader_repr r bs /\ concat bs = es /\
    synced f = length (contents f) /\ len (contents f) < 2 ^ 40 /\ Writer_EntryCount w1 = len es.
Proof.
  intros Hw0 Hfit E1 E2 f. destruct (add_entries_Ok _ _ _ _ _ _ Hw0 E1) as (bs1 & cur1 & Hw1 & Hc1).
  destruct (Writer_Finish_Ok _ _ _ _ _ Hw1 E2) as (bs & bf & Hc & Hne & Hbf & Hcont & Hsync & _).
  pose proof (si_count _ _ _ Hw1) as Hcount. rewrite Hc1 in Hc, Hcount. simpl in Hc, Hcount. subst es.
  destruct (OpenReader_table bs bf Hfit Hne Hbf) as (r & Er & Hrepr). rewrite <- Hcont in Er.
  exists r, bs. split_and!; try done. unfold f. rewrite Hcont.
  apply len_table_bytes; [by apply table_bounds_fits|by apply (table_bloom_spec _ _ Hfit Hbf)].
Qed.

Lemma flush_write_table io mem e p e' mt l :
  e_mems e !! mem = Some mt -> mt_repr mt l -> clean l -> table_fits (mem_entries l) ->
  flush_write io mem e = (Ok (FlushTable p), e') ->
  exists r f size mf, e' = flushed_state e r mf f /\ p = length (e_rdrs e) /\ l <> [] /\ 0 <= size < 2 ^ 40 /\
    Manifest_AddFile (mkMeta (e_nextFileNum e) 0 size (range_of l).1 (range_of l).2) (e_manifest e) = (Ok tt, mf) /\
    table_repr r l /\ table_file f l.
Proof.
  intros Hmt Hl Hclean Hfit H. unfold flush_write in H. minv H. injection E as <- <-.
  minv H. injection E as <- <-. apply or_fail_table in H as (w0 & s & E0 & H). injection E0 as E0 <-.
  destruct (io_create io) as [plan|]; [|done]. pose proof (NewWriter_inv _ _ _ E0) as Hw0.
  minv H. unfold lift, mem_at in E. cbn [set_tables e_mems] in E. rewrite Hmt in E. injection E as <- <-.
  minv H. unfold lift in E. rewrite (Memtable_scan_spec _ _ Hl) in E. injection E as <- <-.
  apply or_fail_table in H as (w1 & s1 & E1 & H). apply on_writer_Ok in E1 as (u1 & E1 & ->).
  destruct (Writer_EntryCount w1 =? 0) eqn:Ecount; [minv H; done|].
  apply or_fail_table in H as (w2 & s2 & E2 & H). apply on_writer_Ok in E2 as (u2 & E2 & ->).
  destruct (written_reader _ _ _ _ _ _ Hw0 Hfit E1 E2) as (r' & bs & Er' & Hrepr & Hc & Hsync & Hlen & Hcount).
  minv H. injection E as <- <-. apply or_fail_table in H as (r & s3 & E3 & H). injection E3 as E3 <-.
  assert (r' = r) as -> by (refine (map_table_opened _ _ _ _ _ _ _ _ Er' E3); done).
  destruct (reader_range r bs l Hrepr Hc) as [Hmin Hmax]. rewrite Hmin, Hmax in H.
  apply or_fail_table in H as ([] & s4 & E4 & H). unfold on_manifest in E4. cbn [set_tables e_manifest] in E4.
  destruct (Manifest_AddFile _ _) as [r4 mf] eqn:Eadd. injection E4 as -> <-.
  unfold new_reader, mbind, M_bind in H. simpl in H. injection H as <- <-. rewrite insert_insert_eq.
  assert (table_repr r l) as Htr.
  { exists bs. split_and!; [done|by eapply sl_repr_sorted|]. rewrite Hc. by apply norm_clean. }
  eexists r, (bfile (sw_buf w2)), _, mf. split_and!; [done|done|..|exact Eadd|done|by split; [|eauto]].
  - intros ->. rewrite Hcount in Ecount. done.
  - unfold stat_size. simpl. rewrite lookup_insert_eq. pose proof (len_nonneg (contents (bfile (sw_buf w2)))). destruct (io_stat io); lia.
  - unfold stat_size. simpl. rewrite lookup_insert_eq. destruct (io_stat io); lia.
Qed.

(** An empty memtable has no table. *)
Lemma flush_write_empty io mem e e' mt l :
  e_mems e !! mem = Some mt -> mt_repr mt l -> flush_write io mem e = (Ok FlushEmpty, e') ->
  l = [] /\ exists files, e' = set_tables (u64 (e_nextFileNum e + 1)) files e /\
    forall n, n <> e_nextFileNum e -> files !! n = e_files e !! n.
Proof.
  intros Hmt Hl H. unfold flush_write in H. minv H. injection E as <- <-. minv H. injection E as <- <-.
  unfold or_fail at 1 in H. destruct (lift _ _) as [[w0| | |] s] eqn:E0; try done.
  injection E0 as E0 <-. destruct (io_create io) as [plan|]; [|done]. pose proof (NewWriter_inv _ _ _ E0) as Hw0.
  minv H. unfold lift, mem_at in E. cbn [set_tables e_mems] in E. rewrite Hmt in E. injection E as <- <-.
  minv H. unfold lift in E. rewrite (Memtable_scan_spec _ _ Hl) in E. injection E as <- <-.
  unfold or_fail at 1 in H. destruct (on_writer _ _ _ _) as [[w1| | |] s] eqn:E1; try done.
  apply on_writer_Ok in E1 as (u1 & E1 & ->). destruct (add_entries_Ok _ _ _ _ _ _ Hw0 E1) as (bs & cur & Hw1 & Hc).
  destruct (Z.eqb_spec (Writer_EntryCount w1) 0) as [Hz|Hz].
  - unfold Writer_EntryCount in Hz. rewrite (si_count _ _ _ Hw1), Hc in Hz. simpl in Hz. apply len_0_nil, fmap_nil_inv in Hz.
    split; [done|]. unfold remove_table, mbind, M_bind in H. destruct (io_remove io); injection H as <-; (eexists; split; [done|]; intros n Hn; simpl;
      by rewrite ?lookup_delete_ne, ?lookup_insert_ne).
  - exfalso. unfold or_fail at 1 in H. destruct (on_writer _ _ _ _) as [[w2| | |] s] eqn:E2; try done.
    minv H. injection E as <- <-. unfold or_fail at 1 in H. destruct (lift _ _) as [[r| | |] s1] eqn:E3; try done.
    unfold or_fail in H. destruct (on_manifest _ _) as [[u| | |] s2]; try done; minv H; done.
Qed.

(** ** The invariant *)

Definition pc_mems (pc : fpc) : list nat :=
  match pc with
  | FWritten task _ | FEmptied task | FPublished task => [ft_mem task]
  | FIdle | FRemoved _ => []
  end.

(** The oldest immutable memtable against the table being published. *)
Definition pc_ok (deep : list (list layer)) (e : Engine) (pc : fpc) (imms l0 : list layer) : Prop :=
  match pc with
  | FIdle | FRemoved _ => True
  | FWritten _ p => exists l, last imms = Some l /\ table_is e p l
  | FEmptied _ => last imms = Some []
  | FPublished _ => exists l, last imms = Some l /\ forall k v, assoc k l = Some v -> view k (layers [] l0 deep) = Some v
  end.

Definition tables_repr (e : Engine) (l0 : list layer) (deep : list (list layer)) : Prop :=
  exists ps rest, e_levels e = ps :: rest /\ Forall2 (table_is e) ps l0 /\ length rest = length deep /\
    (forall i ps ts, rest !! i = Some ps -> deep !! i = Some ts -> level_repr e (Z.of_nat (S i)) ps ts).

Record mems_repr (e : Engine) (act : layer) (imms : list layer) : Prop := {
  mm_repr : Forall2 (mem_is e) (e_memtable e :: e_immutableMems e) (act :: imms);
  mm_active : exists mt, e_mems e !! e_memtable e = Some mt /\ m_frozen mt = false;
  mm_nodup : NoDup (e_memtable e :: e_immutableMems e);
  mm_clean : Forall clean (act :: imms)
}.

Record run_inv (deep : list (list layer)) (e : Engine) (pc : fpc) (act : layer) (imms l0 : list layer) : Prop := {
  ri_mems : mems_repr e act imms;
  ri_tables : tables_repr e l0 deep;
  ri_queue : e_immutableMems e = reverse (pc_mems pc ++ (ft_mem <$> e_flushCh e));
  ri_pc : pc_ok deep e pc imms l0
}.

Lemma run_engine_repr deep e pc act imms l0 : run_inv deep e pc act imms l0 -> engine_repr e (act :: imms) l0 deep.
Proof. intros [[H _ _ _] H' _ _]. by split. Qed.

(** Tables stay what they are while readers are added and L0 grows. *)
Lemma table_is_mono e e' p l :
  (forall p r, e_rdrs e !! p = Some r -> e_rdrs e' !! p = Some r) -> table_is e p l -> table_is e' p l.
Proof. intros H (r & Hr & Ht). exists r. auto. Qed.

Lemma tables_repr_mono e e' l0 deep ps rest ps' l0' :
  e_levels e = ps :: rest -> e_levels e' = ps' :: rest ->
  (forall p r, e_rdrs e !! p = Some r -> e_rdrs e' !! p = Some r) ->
  (forall level, level <> 0 -> Manifest_GetLevel level (e_manifest e') = Manifest_GetLevel level (e_manifest e)) ->
  tables_repr e l0 deep -> Forall2 (table_is e') ps' l0' -> tables_repr e' l0' deep.
Proof.
  intros Hl Hl' Hr Hm (ps1 & rest1 & Heq & _ & Hlen & Hd) HF. rewrite Hl in Heq. injection Heq as <- <-.
  exists ps', rest. split_and!; try done. intros i qs ts Hi Hts. destruct (Hd i qs ts Hi Hts) as [D1 D2 (ts' & Hp & D3) D4].
  split; [done|done|..].
  - exists ts'. split; [done|]. eapply Forall2_impl; [exact D3|]. intros p l. by apply table_is_mono.
  - by rewrite Hm by lia.
Qed.

(** An engine with the same levels, readers and manifest. *)
Lemma tables_repr_same e e' l0 deep :
  e_levels e' = e_levels e -> e_rdrs e' = e_rdrs e -> e_manifest e' = e_manifest e ->
  tables_repr e l0 deep -> tables_repr e' l0 deep.
Proof.
  intros Hl Hr Hm Ht. pose proof Ht as (ps & rest & Heq & HF & _).
  apply (tables_repr_mono e e' l0 deep ps rest ps l0); try done; [by rewrite Hl|by rewrite Hr|by rewrite Hm|].
  eapply Forall2_impl; [exact HF|]. intros p l. apply table_is_mono. by rewrite Hr.
Qed.

(** *** Writing to the active memtable *)

Lemma mems_repr_put e act imms coins k v :
  mems_repr e act imms -> v <> Some [] ->
  exists mt', on_memtable (Memtable_Put coins k v) e = (Ok tt, set_mems (<[e_memtable e := mt']> (e_mems e)) e) /\
    mems_repr (set_mems (<[e_memtable e := mt']> (e_mems e)) e) (ains k v act) imms.
Proof.
  intros [Hm (mt & Emt & Hfr) Hnd Hcl] Hv. inversion Hm as [|? ? ? ? (mt0 & E0 & Hr) HF]; subst.
  rewrite Emt in E0. injection E0 as <-.
  destruct (Memtable_Put_spec mt act coins k v Hr Hfr) as (mt' & E & Hr' & Hfr' & _).
  assert (e_memtable e < length (e_mems e))%nat as Hlt by (by eapply lookup_lt_Some).
  exists mt'. unfold on_memtable. rewrite Emt, E. split; [done|]. split; cbn [set_mems e_memtable e_immutableMems e_mems].
  - constructor.
    + exists mt'. split; [by apply list_lookup_insert_eq|done].
    + apply Forall2_same_length_lookup_2; [by eapply Forall2_length|]. intros i p l Hi Hl.
      destruct (Forall2_lookup_lr _ _ _ _ _ _ HF Hi Hl) as (mt1 & E1 & Hr1). exists mt1. split; [|done].
      cbn [set_mems e_mems]. rewrite list_lookup_insert_ne; [done|]. intros Heq.
      apply NoDup_cons in Hnd as [Hni _]. apply Hni. rewrite Heq. by eapply list_elem_of_lookup_2.
  - exists mt'. split; [by apply list_lookup_insert_eq|done].
  - done.
  - apply Forall_cons in Hcl as [Ha Hc]. constructor; [|done]. by apply ains_clean.
Qed.

Lemma mem_is_act e act imms : mems_repr e act imms -> ksorted act.
Proof. intros [H _ _ _]. apply mem_is_sorted in H. by apply Forall_cons in H as [? _]. Qed.

(** *** Scheduling a flush *)

(** The state after the active memtable [mt] was frozen and queued. *)
Definition scheduled (io : IO) (mt : Memtable) (e : Engine) : Engine :=
  let '(r, w) := WAL_Rotate (io_rotate io) (e_wal e) in
  let walID := match r with Ok id => id | _ => 0 end in
  send_task (mkTask (e_memtable e) walID)
    (new_memtable (e_memtable e) (set_wal w (set_mems (<[e_memtable e := Memtable_Freeze mt]> (e_mems e)) e))).

Lemma maybeScheduleFlush_run io e act imms :
  mems_repr e act imms ->
  exists mt, e_mems e !! e_memtable e = Some mt /\ mt_repr mt act /\
    maybeScheduleFlush io e = (Ok tt, if Memtable_ShouldFlush mt then scheduled io mt e else e).
Proof.
  intros [Hm (mt & Emt & Hfr) Hnd Hcl]. inversion Hm as [|? ? ? ? (mt0 & E0 & Hr) HF]; subst.
  rewrite Emt in E0. injection E0 as <-. exists mt. split_and!; [done|done|].
  unfold maybeScheduleFlush, mbind, M_bind, get_st, lift, mem_at. rewrite Emt.
  destruct (Memtable_ShouldFlush mt); simpl; [|done]. unfold on_memtable. rewrite Emt.
  unfold rotate_wal, scheduled, put_st. cbn [set_mems e_wal]. by destruct (WAL_Rotate _ _) as [r w].
Qed.

Lemma mems_repr_scheduled io mt e act imms :
  mems_repr e act imms -> e_mems e !! e_memtable e = Some mt -> mt_repr mt act ->
  mems_repr (scheduled io mt e) [] (act :: imms).
Proof.
  intros [Hm _ Hnd Hcl] Emt Hr. inversion Hm as [|? ? ? ? _ HF]; subst. unfold scheduled.
  destruct (WAL_Rotate _ _) as [r w]. unfold send_task. set (e1 := new_memtable _ _).
  assert (mems_repr e1 [] (act :: imms)) as H1; [|destruct (_ <? _)%nat; [by destruct H1; split|done]].
  assert (e_memtable e < length (e_mems e))%nat as Hlt by (by eapply lookup_lt_Some).
  assert (forall p l, mem_is e p l -> (p < length (e_mems e))%nat) as Hbound.
  { intros p l (mt1 & E1 & _). by eapply lookup_lt_Some. }
  assert (forall p l, p <> e_memtable e -> mem_is e p l -> mem_is e1 p l) as Hkeep.
  { intros p l Hne Hp. pose proof (Hbound p l Hp). destruct Hp as (mt1 & E1 & Hr1). exists mt1. split; [|done].
    unfold e1. simpl. rewrite lookup_app_l by (rewrite length_insert; lia). by rewrite list_lookup_insert_ne. }
  apply NoDup_cons in Hnd as [Hni Hnd]. split; simpl.
  - constructor; [|constructor].
    + exists (NewMemtable (MemtableSize (e_opts e))). split; [|apply NewMemtable_repr].
      simpl. by rewrite lookup_app_r, Nat.sub_diag.
    + exists (Memtable_Freeze mt). split; [|done]. simpl.
      rewrite lookup_app_l by (rewrite length_insert; lia). by apply list_lookup_insert_eq.
    + apply Forall2_same_length_lookup_2; [by eapply Forall2_length|]. intros i p l Hi Hl.
      apply Hkeep; [intros ->; apply Hni; by eapply list_elem_of_lookup_2|].
      by apply (Forall2_lookup_lr _ _ _ _ _ _ HF Hi Hl).
  - eexists. split; [by rewrite lookup_app_r, Nat.sub_diag|done].
  - constructor; [|by constructor]. rewrite length_insert. intros [Heq|Hin]%elem_of_cons; [lia|].
    apply list_elem_of_lookup in Hin as [i Hi].
    destruct (lookup_lt_is_Some_2 imms i) as [l Hl]; [apply Forall2_length in HF; rewrite <- HF; by eapply lookup_lt_Some|].
    pose proof (Hbound _ _ (Forall2_lookup_lr _ _ _ _ _ _ HF Hi Hl)). lia.
  - constructor; [constructor|done].
Qed.

Lemma pc_ok_push deep e pc act imms l0 : pc_ok deep e pc imms l0 -> pc_ok deep e pc (act :: imms) l0.
Proof.
  assert (forall l : layer, last imms = Some l -> last (act :: imms) = Some l) as H.
  { intros l Hl. rewrite last_cons, Hl. done. }
  destruct pc; simpl; naive_solver.
Qed.

Lemma run_inv_scheduled deep io mt e pc act imms l0 :
  run_inv deep e pc act imms l0 -> e_mems e !! e_memtable e = Some mt -> mt_repr mt act ->
  (length (e_flushCh e) < flushCh_cap)%nat -> run_inv deep (scheduled io mt e) pc [] (act :: imms) l0.
Proof.
  intros [Hm Ht Hq Hpc] Emt Hr Hcap. pose proof (mems_repr_scheduled io mt e act imms Hm Emt Hr) as Hm'.
  unfold scheduled in *. destruct (WAL_Rotate _ _) as [r w]. unfold send_task in *. simpl in *.
  apply Nat.ltb_lt in Hcap. rewrite Hcap in *. split; [exact Hm'|by apply (tables_repr_same e)|..].
  - simpl. rewrite fmap_app, app_assoc, reverse_app, <- Hq. done.
  - apply pc_ok_push. exact Hpc.
Qed.

Lemma run_inv_schedule deep io e pc act imms l0 :
  run_inv deep e pc act imms l0 -> (length (e_flushCh e) < flushCh_cap)%nat ->
  exists e' act' imms', maybeScheduleFlush io e = (Ok tt, e') /\ run_inv deep e' pc act' imms' l0 /\
    forall k, view k (act' :: imms') = view k (act :: imms).
Proof.
  intros Hinv Hcap. destruct (maybeScheduleFlush_run io e act imms (ri_mems _ _ _ _ _ _ Hinv)) as (mt & Emt & Hr & ->).
  destruct (Memtable_ShouldFlush mt); [|by exists e, act, imms].
  exists (scheduled io mt e), [], (act :: imms). split_and!; [done|by apply run_inv_scheduled|done].
Qed.

(** Memory updates leave the tables alone. *)
Lemma run_inv_put deep e pc act imms l0 coins k v :
  run_inv deep e pc act imms l0 -> v <> Some [] ->
  exists e', on_memtable (Memtable_Put coins k v) e = (Ok tt, e') /\ run_inv deep e' pc (ains k v act) imms l0 /\
    e_flushCh e' = e_flushCh e.
Proof.
  intros [Hm Ht Hq Hpc] Hv. destruct (mems_repr_put e act imms coins k v Hm Hv) as (mt' & -> & Hm').
  eexists. split; [done|]. split; [|done]. split; [done|by apply (tables_repr_same e)|done|done].
Qed.

Lemma run_inv_wal deep e pc act imms l0 w : run_inv deep e pc act imms l0 -> run_inv deep (set_wal w e) pc act imms l0.
Proof.
  intros [[Hm Ha Hn Hc] Ht Hq Hpc]. split; [by split|by apply (tables_repr_same e)|done|done].
Qed.

Definition ains_all (ws : list (bytes * option bytes)) (act : layer) : layer :=
  fold_left (fun l kv => ains kv.1 kv.2 l) ws act.

Lemma batch_memtable_run deep io kvs : forall i e pc act imms l0,
  run_inv deep e pc act imms l0 -> clean kvs ->
  exists e', batch_memtable io i kvs e = (Ok tt, e') /\ run_inv deep e' pc (ains_all kvs act) imms l0 /\
    e_flushCh e' = e_flushCh e.
Proof.
  induction kvs as [|[k v] kvs IH]; intros i e pc act imms l0 Hinv Hcl; simpl; [by exists e|].
  apply Forall_cons in Hcl as [Hv Hcl].
  destruct (run_inv_put deep e pc act imms l0 (io_coins io i) k v Hinv Hv) as (e1 & E1 & Hinv1 & Hq1).
  destruct (IH (S i) e1 pc _ imms l0 Hinv1 Hcl) as (e2 & E2 & Hinv2 & Hq2).
  exists e2. rewrite Hq2, Hq1. split_and!; [|done|done]. unfold mbind, M_bind.
  destruct v as [v|]; unfold wrap; [rewrite E1; exact E2|].
  change (Memtable_Delete (io_coins io i) k) with (Memtable_Put (io_coins io i) k None). rewrite E1. exact E2.
Qed.

(** *** The log returns a value or an error *)

Definition returns {St A} (m : M St A) : Prop := forall s, (exists a, (m s).1 = Ok a) \/ (exists err, (m s).1 = Err err).

Lemma returns_bind {St A B} (m : M St A) (k : A -> M St B) : returns m -> (forall a, returns (k a)) -> returns (x ← m; k x).
Proof.
  intros Hm Hk s. unfold mbind, M_bind. specialize (Hm s). destruct (m s) as [[a|err| |] s']; simpl in *; [apply Hk|eauto|naive_solver..].
Qed.
Lemma returns_wrap {St A} ctx (m : M St A) : returns m -> returns (wrap ctx m).
Proof. intros Hm s. specialize (Hm s). unfold wrap. destruct (m s) as [[a|err| |] s']; simpl in *; eauto. Qed.
Lemma returns_on_buf {A} (m : M Bufio A) : returns m -> returns (on_buf m).
Proof. intros Hm w. unfold on_buf. specialize (Hm (w_buf w)). by destruct (m (w_buf w)). Qed.
Lemma returns_on_file {A} (m : M File A) : returns m -> returns (on_file m).
Proof. intros Hm w. unfold on_file. specialize (Hm (bfile (w_buf w))). by destruct (m _). Qed.
Lemma returns_Write p : returns (bufio_Write p).
Proof.
  intros b. unfold bufio_Write. destruct (bufio_spills_total p b) as [[b' p'] ->]. destruct (berr b'); simpl; eauto.
Qed.
Lemma returns_Flush : returns bufio_Flush.
Proof.
  intros b. unfold bufio_Flush. destruct (berr b); simpl; [eauto|]. destruct (bool_decide _); simpl; [eauto|].
  destruct (File_Write _ _) as [[] ]; simpl; eauto.
Qed.
Lemma returns_Sync : returns File_Sync.
Proof. intros f. unfold File_Sync. destruct (next_fault f); simpl; eauto. Qed.

Create HintDb returns.
#[local] Hint Resolve returns_bind returns_wrap returns_on_buf returns_on_file returns_Write returns_Flush returns_Sync : returns.

Lemma returns_AppendBatch recs : returns (WAL_AppendBatch recs).
Proof.
  apply returns_bind; [|intros _; unfold flush_and_sync; auto with returns].
  induction recs as [|rec recs IH]; [intros w; simpl; eauto|]. apply returns_bind; [|done].
  apply returns_bind; [auto with returns|]. intros n w. simpl. eauto.
Qed.

Lemma returns_Append rec : returns (WAL_Append rec).
Proof. intros w. rewrite WAL_Append_batch. apply returns_AppendBatch. Qed.

(** Log first, then the memtable: when the log fails nothing else changes. *)
Lemma log_then_memtable deep ctx (W : M WAL unit) (B : M Engine unit) io ws e pc act imms l0 r e' :
  returns W -> run_inv deep e pc act imms l0 -> (length (e_flushCh e) < flushCh_cap)%nat ->
  (forall e1, run_inv deep e1 pc act imms l0 -> exists e2, B e1 = (Ok tt, e2) /\
     run_inv deep e2 pc (ains_all ws act) imms l0 /\ e_flushCh e2 = e_flushCh e1) ->
  (wrap ctx (on_wal W);; B;; maybeScheduleFlush io) e = (r, e') ->
  (exists err w, r = Err err /\ e' = set_wal w e) \/
  (r = Ok tt /\ exists act' imms', run_inv deep e' pc act' imms' l0 /\
    forall k, view k (act' :: imms') = view k (ains_all ws act :: imms)).
Proof.
  intros HW Hinv Hcap HB. unfold wrap, on_wal, mbind, M_bind. specialize (HW (e_wal e)). destruct (W (e_wal e)) as [r1 w].
  pose proof (run_inv_wal deep e pc act imms l0 w Hinv) as Hinv1.
  destruct r1 as [[]|err| |]; simpl in *; [|intros [= <- <-]; left; by eauto|naive_solver..].
  destruct (HB _ Hinv1) as (e2 & -> & Hinv2 & Hq2).
  destruct (run_inv_schedule deep io e2 pc _ imms l0 Hinv2) as (e3 & act' & imms' & -> & Hinv3 & Hv); [by rewrite Hq2|].
  intros [= <- <-]. right. split; [done|]. by exists act', imms'.
Qed.

Lemma eop_run_inv deep o e pc act imms l0 r e' :
  run_inv deep e pc act imms l0 -> clean (eop_writes o) -> (length (e_flushCh e) < flushCh_cap)%nat ->
  eop_run o e = (r, e') ->
  (exists err w, r = Err err /\ e' = set_wal w e) \/
  (r = Ok tt /\ exists act' imms', run_inv deep e' pc act' imms' l0 /\
    forall k, view k (act' :: imms') = view k (ains_all (eop_writes o) act :: imms)).
Proof.
  intros Hinv Hcl Hcap.
  assert (forall ctx coins k v, v <> Some [] -> forall e1, run_inv deep e1 pc act imms l0 ->
    exists e2, wrap ctx (on_memtable (Memtable_Put coins k v)) e1 = (Ok tt, e2) /\
      run_inv deep e2 pc (ains_all [(k, v)] act) imms l0 /\ e_flushCh e2 = e_flushCh e1) as Hput.
  { intros ctx coins k v Hv e1 Hinv1. destruct (run_inv_put deep e1 pc act imms l0 coins k v Hinv1 Hv) as (e2 & E2 & ?).
    exists e2. unfold wrap. by rewrite E2. }
  destruct o as [io k v|io k|io ks vs]; cbn [eop_run eop_writes] in *.
  - apply log_then_memtable; [apply returns_Append|done|done|]. apply Hput. by apply Forall_cons in Hcl as [? _].
  - apply log_then_memtable; [apply returns_Append|done|done|]. apply (Hput _ _ k None). done.
  - unfold Engine_BatchPut. destruct (negb _); [intros [= <- <-]; left; eexists _, (e_wal e); split; [done|by destruct e]|].
    apply log_then_memtable; [apply returns_AppendBatch|done|done|]. intros e1 Hinv1. by apply batch_memtable_run.
Qed.

(** ** The view along a run *)

Definition views (ls : list layer) (m : gmap bytes (option bytes)) : Prop := forall k, view k ls = m !! k.

Lemma views_put act rest m k v : ksorted act -> views (act :: rest) m -> views (ains k v act :: rest) (<[k := v]> m).
Proof.
  intros Hs Hv k'. specialize (Hv k'). simpl in *. rewrite assoc_ains by done. rewrite lookup_insert.
  keq k k'; [by rewrite decide_True|]. by rewrite decide_False.
Qed.

Lemma views_write ws act rest m : ksorted act -> views (act :: rest) m -> views (ains_all ws act :: rest) (write_all ws m).
Proof.
  revert act m. induction ws as [|[k v] ws IH]; intros act m Hs Hv; [done|]. cbn [ains_all write_all fold_left].
  apply IH; [by apply ains_sorted|]. by apply views_put.
Qed.

Lemma views_ext ls ls' m : (forall k, view k ls' = view k ls) -> views ls m -> views ls' m.
Proof. intros H Hv k. by rewrite H. Qed.

Lemma layers_top ms ms' l0 deep :
  (forall k, view k ms' = view k ms) -> forall k, view k (layers ms' l0 deep) = view k (layers ms l0 deep).
Proof. intros H k. unfold layers. by rewrite !view_app, H. Qed.

Lemma view_snoc k ms l : view k (ms ++ [l]) = match view k ms with Some v => Some v | None => assoc k l end.
Proof. rewrite view_app. destruct (view k ms); [done|]. simpl. by destruct (assoc k l). Qed.

(** Publishing a copy of the oldest memtable below it changes no answer. *)
Lemma layers_publish ms l0 deep l k :
  last ms = Some l -> view k (layers ms (l0 ++ [l]) deep) = view k (layers ms l0 deep).
Proof.
  intros Hl. destruct ms as [|l' ms _] using rev_ind; [done|]. rewrite last_snoc in Hl. injection Hl as ->.
  unfold layers. rewrite reverse_app, !(view_app k _ (_ ++ _)), view_snoc. destruct (view k ms); [done|]. simpl.
  by destruct (assoc k l).
Qed.

(** Dropping a memtable whose entries the tables answer. *)
Lemma layers_remove ms l0 deep l k :
  (forall v, assoc k l = Some v -> view k (layers [] l0 deep) = Some v) ->
  view k (layers (ms ++ [l]) l0 deep) = view k (layers ms l0 deep).
Proof.
  intros Hl. unfold layers in *. rewrite !(view_app k _ (_ ++ _)), view_snoc. destruct (view k ms); [done|].
  destruct (assoc k l) as [v|] eqn:E; [|done]. symmetry. by apply Hl.
Qed.

Lemma remove_ptr_last p ps : NoDup (ps ++ [p]) -> remove_ptr p (ps ++ [p]) = ps.
Proof.
  induction ps as [|q ps IH]; simpl; [by rewrite Nat.eqb_refl|]. intros [Hq Hn]%NoDup_cons.
  destruct (Nat.eqb_spec q p) as [->|]; [set_solver|]. by rewrite IH.
Qed.

Lemma AddFile_levels meta m u m' :
  Manifest_AddFile meta m = (Ok u, m') ->
  mf_levels m' = on_level (Level meta) (fun files => files ++ [meta]) (mf_levels m).
Proof.
  unfold Manifest_AddFile, writeRecord, wrap, mf_on_file, mbind, M_bind.
  destruct (mf_file m) as [f|] eqn:Ef; [|done]. destruct (File_Write _ f) as [[n1| | |] f1]; try done. simpl.
  destruct (File_Write _ f1) as [[n2| | |] f2]; try done. simpl. destruct (File_Sync f2) as [[u3| | |] f3]; try done.
  unfold set_levels. simpl. intros H. by simplify_eq/=.
Qed.

Lemma GetLevel_AddFile meta m u m' level :
  Manifest_AddFile meta m = (Ok u, m') -> level <> Level meta ->
  Manifest_GetLevel level m' = Manifest_GetLevel level m.
Proof.
  intros H%AddFile_levels Hne. unfold Manifest_GetLevel. rewrite H. unfold on_level.
  destruct ((Level meta <? 0) || (len (mf_levels m) <=? Level meta)) eqn:E; [done|].
  apply orb_false_iff in E as [E1 E2]. apply Z.ltb_ge in E1.
  assert (len (alter (fun files => files ++ [meta]) (Z.to_nat (Level meta)) (mf_levels m)) = len (mf_levels m)) as ->.
  { unfold len. by rewrite length_alter. }
  destruct ((level <? 0) || _) eqn:E'; [done|]. apply orb_false_iff in E' as [E1' _]. apply Z.ltb_ge in E1'.
  rewrite list_lookup_alter_ne; [done|]. lia.
Qed.

(** ** Each flush step keeps the invariant *)

(** The oldest immutable memtable is the one the goroutine works on. *)
Lemma oldest_memtable e act imms ps p :
  mems_repr e act imms -> e_immutableMems e = ps ++ [p] ->
  exists imms' l mt, imms = imms' ++ [l] /\ e_mems e !! p = Some mt /\ mt_repr mt l /\ clean l /\
    Forall2 (mem_is e) (e_memtable e :: ps) (act :: imms').
Proof.
  intros [Hm _ _ Hc] Hps. inversion Hm as [|? ? ? ? Ha HF]; subst. rewrite Hps in HF.
  apply Forall2_app_inv_l in HF as (imms' & l' & HF & Hl & ->).
  apply Forall2_cons_inv_l in Hl as (l & l'' & (mt & Emt & Hr) & ->%Forall2_nil_inv_l & ->).
  exists imms', l, mt. split_and!; try done; [|by constructor].
  apply Forall_cons in Hc as [_ Hc]. by apply Forall_app in Hc as [_ [? _]%Forall_cons].
Qed.

Lemma mems_repr_same e e' act imms :
  e_mems e' = e_mems e -> e_memtable e' = e_memtable e -> e_immutableMems e' = e_immutableMems e ->
  mems_repr e act imms -> mems_repr e' act imms.
Proof.
  intros H1 H2 H3 [Hm Ha Hn Hc]. split; rewrite ?H1, ?H2, ?H3; try done.
  eapply Forall2_impl; [exact Hm|]. intros p l. unfold mem_is. by rewrite H1.
Qed.

Lemma lookup_app_Some {A} (l k : list A) i x : l !! i = Some x -> (l ++ k) !! i = Some x.
Proof. intros H. by apply lookup_app_l_Some. Qed.

Lemma queue_head e pc act imms l0 deep task q :
  run_inv deep e pc act imms l0 -> pc_mems pc = [] -> e_flushCh e = task :: q ->
  e_immutableMems e = reverse (ft_mem <$> q) ++ [ft_mem task].
Proof. intros [_ _ Hq _] Hpc Hch. rewrite Hq, Hpc, Hch. simpl. by rewrite reverse_cons. Qed.

Lemma run_inv_write deep e act imms l0 io task q mt l p e' :
  run_inv deep e FIdle act imms l0 -> e_flushCh e = task :: q -> e_mems e !! ft_mem task = Some mt ->
  Memtable_scan mt = Ok l -> table_fits (mem_entries l) ->
  flush_write io (ft_mem task) (set_flushCh q e) = (Ok (FlushTable p), e') ->
  run_inv deep e' (FWritten task p) act imms l0.
Proof.
  intros Hinv Hch Emt Hscan Hfit H. pose proof (queue_head _ _ _ _ _ _ _ _ Hinv eq_refl Hch) as Hq.
  pose proof Hinv as [Hm Ht _ _].
  destruct (oldest_memtable _ _ _ _ _ Hm Hq) as (imms' & l1 & mt1 & -> & Emt1 & Hr & Hcl & _).
  rewrite Emt in Emt1. injection Emt1 as <-. rewrite (Memtable_scan_spec _ _ Hr) in Hscan. injection Hscan as ->.
  apply (flush_write_table _ _ _ _ _ mt l) in H as (r & f & size & mf & -> & -> & Hne & _ & Hadd & Htr & Hf); try done.
  pose proof Ht as (ps & rest & Hlev & HF & _). split.
  - by apply (mems_repr_same e).
  - apply (tables_repr_mono e _ l0 deep ps rest ps l0); try done.
    + intros i r' Hi. by apply lookup_app_Some.
    + intros level Hlevel. by apply (GetLevel_AddFile _ _ _ _ _ Hadd).
    + eapply Forall2_impl; [exact HF|]. intros i l'. apply table_is_mono. intros j r' Hj. by apply lookup_app_Some.
  - simpl. rewrite Hq, reverse_cons. done.
  - exists l. rewrite last_snoc. split; [done|]. exists r. split; [|done]. simpl. by rewrite lookup_app_r, Nat.sub_diag.
Qed.

Lemma run_inv_write_empty deep e act imms l0 io task q e' :
  run_inv deep e FIdle act imms l0 -> e_flushCh e = task :: q ->
  flush_write io (ft_mem task) (set_flushCh q e) = (Ok FlushEmpty, e') ->
  run_inv deep e' (FEmptied task) act imms l0.
Proof.
  intros Hinv Hch H. pose proof (queue_head _ _ _ _ _ _ _ _ Hinv eq_refl Hch) as Hq. pose proof Hinv as [Hm Ht _ _].
  destruct (oldest_memtable _ _ _ _ _ Hm Hq) as (imms' & l & mt & -> & Emt & Hr & _ & _).
  apply (flush_write_empty _ _ _ _ mt l) in H as (-> & files & -> & _); [|done|done]. split.
  - by apply (mems_repr_same e).
  - by apply (tables_repr_same e).
  - simpl. rewrite Hq, reverse_cons. done.
  - simpl. by rewrite last_snoc.
Qed.

Lemma run_inv_publish deep e act imms l0 task p r e' :
  run_inv deep e (FWritten task p) act imms l0 -> flush_publish p e = (r, e') ->
  exists l, last imms = Some l /\ run_inv deep e' (FPublished task) act imms (l0 ++ [l]).
Proof.
  intros [Hm Ht Hq (l & Hl & Hp)] H. pose proof Ht as (ps & rest & Hlev & HF & _).
  unfold flush_publish in H. rewrite Hlev in H. injection H as <- <-. exists l. split; [done|]. split.
  - by apply (mems_repr_same e).
  - apply (tables_repr_mono e _ l0 deep ps rest (ps ++ [p]) (l0 ++ [l])); try done.
    apply Forall2_app; [exact HF|]. by constructor.
  - done.
  - exists l. split; [done|]. intros k v Hk. unfold layers. rewrite reverse_app. simpl. by rewrite Hk.
Qed.

Lemma run_inv_remove deep e pc pc' act imms l0 task r e' :
  run_inv deep e pc act imms l0 -> pc_mems pc = [ft_mem task] -> pc_mems pc' = [] -> (forall e imms l0, pc_ok deep e pc' imms l0) ->
  removeImmutable (ft_mem task) e = (r, e') ->
  exists imms' l, imms = imms' ++ [l] /\ run_inv deep e' pc' act imms' l0.
Proof.
  intros [Hm Ht Hq Hpc] Hpm Hpm' Hok H. rewrite Hpm in Hq. simpl in Hq. rewrite reverse_cons in Hq.
  destruct (oldest_memtable _ _ _ _ _ Hm Hq) as (imms' & l & mt & -> & _ & _ & _ & HF).
  exists imms', l. split; [done|]. unfold removeImmutable in H. injection H as _ <-.
  destruct Hm as [_ Ha Hn Hc]. rewrite Hq in *. apply NoDup_cons in Hn as [Hni Hn]. rewrite remove_ptr_last by done. split.
  - split; simpl; try done.
    + constructor; [set_solver|]. by apply NoDup_app in Hn as (Hn & _ & _).
    + rewrite app_comm_cons in Hc. by apply Forall_app in Hc as [? _].
  - by apply (tables_repr_same e).
  - simpl. by rewrite Hpm'.
  - apply Hok.
Qed.

Lemma run_inv_finish deep e act imms l0 io task r e' :
  run_inv deep e (FRemoved task) act imms l0 -> flush_finish io (ft_walID task) e = (r, e') ->
  run_inv deep e' FIdle act imms l0.
Proof.
  intros [Hm Ht Hq Hpc]. unfold flush_finish. intros [= _ <-].
  destruct (0 <? ft_walID task); (split; [by apply (mems_repr_same e)|by apply (tables_repr_same e)|done|done]).
Qed.

(** L0 after a flush stage: the table of the oldest memtable is added. *)
Definition published (lab : label) (imms l0 : list layer) : list layer :=
  match lab with LPublish => l0 ++ option_list (last imms) | _ => l0 end.

(** The flush stages change neither the map nor the active memtable. *)
Lemma flush_step_inv deep lab e pc m e' pc' m' act imms l0 :
  run_inv deep e pc act imms l0 -> views (layers (act :: imms) l0 deep) m -> estep lab (e, pc) m (e', pc') m' ->
  (forall o, lab <> LOp o) ->
  m' = m /\ exists imms', run_inv deep e' pc' act imms' (published lab imms l0) /\ views (layers (act :: imms') (published lab imms l0) deep) m /\
    match lab with LWrite _ => imms' = imms | _ => True end.
Proof.
  intros Hinv Hv H Hlab. inversion H; subst; clear H; [by edestruct Hlab|..]; (split; [done|]); cbn [published].
  - exists imms. split; [by eapply run_inv_write|done].
  - exists imms. split; [by eapply run_inv_write_empty|done].
  - edestruct run_inv_publish as (l & Hl & Hinv'); [exact Hinv|eassumption|]. exists imms. rewrite Hl. split; [done|]. split; [|done].
    eapply views_ext; [|exact Hv]. intros k. apply layers_publish. by rewrite last_cons, Hl.
  - pose proof (ri_pc _ _ _ _ _ _ Hinv) as (l' & Hl' & Hl0).
    edestruct (run_inv_remove deep e (FPublished task) (FRemoved task) act imms l0 task) as (imms' & l & -> & Hinv');
      [exact Hinv|done|done|done|eassumption|].
    exists imms'. split; [done|]. split; [|done]. rewrite last_snoc in Hl'. injection Hl' as ->.
    eapply views_ext; [|exact Hv]. intros k. symmetry. rewrite app_comm_cons. apply layers_remove. by apply Hl0.
  - pose proof (ri_pc _ _ _ _ _ _ Hinv) as Hl'.
    edestruct (run_inv_remove deep e (FEmptied task) FIdle act imms l0 task) as (imms' & l & -> & Hinv');
      [exact Hinv|done|done|done|eassumption|].
    exists imms'. split; [done|]. split; [|done]. simpl in Hl'. rewrite last_snoc in Hl'. injection Hl' as ->.
    eapply views_ext; [|exact Hv]. intros k. symmetry. rewrite app_comm_cons. by apply layers_remove.
  - exists imms. split; [by eapply run_inv_finish|done].
Qed.

Lemma estep_inv deep lab e pc m e' pc' m' act imms l0 :
  run_inv deep e pc act imms l0 -> views (layers (act :: imms) l0 deep) m -> estep lab (e, pc) m (e', pc') m' ->
  exists act' imms' l0', run_inv deep e' pc' act' imms' l0' /\ views (layers (act' :: imms') l0' deep) m'.
Proof.
  intros Hinv Hv H. destruct lab as [o| | | |];
    [|destruct (flush_step_inv _ _ _ _ _ _ _ _ _ _ _ Hinv Hv H) as (-> & imms' & Hinv' & Hv' & _); [done|exact (ex_intro _ act (ex_intro _ imms' (ex_intro _ _ (conj Hinv' Hv'))))]..].
  inversion H as [? ? ? ? r ? Hcl Hcap Hrun| | | | | |]; subst; clear H.
  destruct (eop_run_inv deep o e pc' act imms l0 r e') as [(err & w & -> & ->)|(-> & act' & imms' & Hinv' & Hv')]; try done.
  - exists act, imms, l0. split; [by apply run_inv_wal|done].
  - exists act', imms', l0. split; [done|]. eapply views_ext; [by apply layers_top, Hv'|].
    apply (views_write _ act _ m); [by apply (mem_is_act e act imms), (ri_mems _ _ _ _ _ _ Hinv)|done].
Qed.

Lemma esteps_inv deep e pc m e' pc' m' act imms l0 :
  run_inv deep e pc act imms l0 -> views (layers (act :: imms) l0 deep) m -> esteps (e, pc) m (e', pc') m' ->
  exists act' imms' l0', run_inv deep e' pc' act' imms' l0' /\ views (layers (act' :: imms') l0' deep) m'.
Proof.
  intros Hinv Hv H. remember (e', pc') as st eqn:Est. revert e' pc' Est.
  induction H as [|lab [e1 pc1] m1 st m2 H IH Hstep]; intros e' pc' Est; simplify_eq.
  - by exists act, imms, l0.
  - destruct (IH _ _ eq_refl) as (act1 & imms1 & l01 & Hinv1 & Hv1). by eapply estep_inv.
Qed.

(** ** A new database *)

Definition empty_disk : Disk := mkDisk (mkFile [] 0 [] true) ∅ ∅.

Lemma open_levels_empty opens tables n rdrs :
  open_levels opens tables (replicate n []) rdrs = Ok (rdrs, replicate n []).
Proof. induction n as [|n IH]; simpl; [done|]. rewrite IH. done. Qed.

(** The levels below L0 of a database that was never compacted. *)
Lemma level_repr_empty e metas n i :
  mf_levels (e_manifest e) = metas :: replicate n [] -> (i < n)%nat -> level_repr e (Z.of_nat (S i)) [] [].
Proof.
  intros Hl Hi. split; [constructor|constructor|by exists []|]. unfold Manifest_GetLevel. rewrite Hl.
  destruct (_ || _); [done|]. rewrite Nat2Z.id. simpl. by rewrite (lookup_replicate_2 _ _ _ Hi).
Qed.

Definition new_engine (opts : Options) (n : nat) (w : WAL) : Engine :=
  mkEngine opts w [NewMemtable (MemtableSize opts)] 0 [] [] (replicate (S n) [])
    (mkManifest (Some (mkFile [] 0 [] false)) (replicate (S n) [])) [] false 1 false ∅.

Lemma Engine_Open_new coins opts :
  exists n w, Engine_Open (open_ok coins) empty_disk opts = Ok (new_engine (applyDefaults opts) n w) /\
    wal_repr w (ws_open []) /\ MaxLevels (applyDefaults opts) = Z.of_nat (S n).
Proof.
  set (n := Z.to_nat (MaxLevels (applyDefaults opts))).
  assert (exists n', n = S n' /\ MaxLevels (applyDefaults opts) = Z.of_nat n) as (n' & Hn & Hmax).
  { exists (pred n). unfold n, applyDefaults. cbn [MaxLevels]. destruct (Z.leb_spec (MaxLevels opts) 0); lia. }
  unfold Engine_Open. cbn [open_ok oio_mkdir oio_manifest oio_table oio_wal_mkdir oio_wal_readdir oio_wal oio_coins negb].
  fold n. change (OpenManifest (Ok []) (d_manifest empty_disk) n) with (Ok (mkManifest (Some (mkFile [] 0 [] false)) (replicate n []))).
  cbn [wrap_res]. rstep. cbn [Manifest_GetAllLevels mf_levels]. rewrite open_levels_empty. rstep.
  destruct (WAL_Open_empty 0) as (w & Ew & Hw). cbn [d_wal empty_disk]. rewrite Ew. cbn [wrap_res]. rstep.
  rewrite (WAL_Replay_repr _ w (ws_open []) _ Hw). cbn [ws_open ws_records deliver fmap list_fmap].
  exists n', w. rewrite Hmax. split_and!; [|done|by rewrite Hn]. unfold new_engine. rewrite Hn. cbn -[applyDefaults replicate u64].
  do 2 f_equal. unfold max_file_num. assert (concat (replicate (S n') (@nil FileMetadata)) = []) as ->; [|done].
  clear. induction (S n'); done.
Qed.

Lemma new_engine_inv opts n w : run_inv (replicate n []) (new_engine opts n w) FIdle [] [] [].
Proof.
  split; [split|..]; simpl; try done.
  - repeat constructor. eexists. split; [done|apply NewMemtable_repr].
  - by eexists.
  - repeat constructor. set_solver.
  - repeat constructor.
  - exists [], (replicate n []). split_and!; [done|constructor|by rewrite !length_replicate|].
    intros i ps ts Hps [-> _]%lookup_replicate. apply lookup_replicate in Hps as [-> Hi].
    by apply (level_repr_empty (new_engine opts n w) [] n i).
Qed.

Lemma views_new n : views (layers [[]] [] (replicate n [])) ∅.
Proof. intros k. rewrite lookup_empty. unfold layers. simpl. induction n as [|n IH]; [done|exact IH]. Qed.

(** C2.  The engine is a map.  Take a new database and interleave client
    operations (whatever faults the log's device has) with the stages of flushes
    in any way, provided no value written is empty, every operation starts with
    room in the flush channel and every flush succeeds (an empty value is read
    back as a deletion once its table is opened or its record replayed,
    [sstable_empty_value_reads_as_tombstone]; a flush that is dropped or fails
    makes [Get] return old values, [engine_dropped_flush_stale_read] and
    [engine_failed_flush_loses_data]).  Then every operation returns or reports
    an error, [Get] answers with the last acknowledged write of the key, and
    [ReadRange] returns in key order exactly the live pairs of the range;
    operations that returned an error had no effect.  Compactions and power
    failures are in [engine_survives_crashes]. *)
Theorem engine_refines_map :
  forall (coins : nat -> list bool) (opts : Options),
  exists e0, Engine_Open (open_ok coins) empty_disk opts = Ok e0 /\
  forall (e : Engine) (pc : fpc) (m : gmap bytes (option bytes)),
  esteps (e0, FIdle) ∅ (e, pc) m ->
  (forall k, Engine_Get k e = answer (m !! k)) /\
  (exists n, forall fuel s t, (n < fuel)%nat ->
     exists kvs, Engine_ReadRange fuel s t e = Ok kvs /\ StronglySorted blt (kv_Key <$> kvs) /\
       forall k v, mkKV k v ∈ kvs <-> (s ≤ₖ k /\ k ≤ₖ t) /\ m !! k = Some (Some v)) /\
  (forall o, clean (eop_writes o) -> (length (e_flushCh e) < flushCh_cap)%nat ->
     (eop_run o e).1 = Ok tt \/ exists err, (eop_run o e).1 = Err err).
Proof.
  intros coins opts. destruct (Engine_Open_new coins opts) as (n & w & E0 & _). eexists. split; [exact E0|].
  intros e pc m Hrun. set (deep := replicate n ([] : list layer)).
  destruct (esteps_inv deep _ FIdle ∅ e pc m [] [] [] (new_engine_inv _ n w) (views_new n) Hrun) as (act & imms & l0 & Hinv & Hv).
  pose proof (run_engine_repr _ _ _ _ _ _ Hinv) as Hrep. split_and!.
  - intros k. by rewrite (Engine_Get_repr e _ _ _ Hrep), Hv.
  - exists (length (concat (layers (act :: imms) l0 deep))). intros fuel s t Hf.
    destruct (Engine_ReadRange_repr e _ _ _ Hrep fuel s t Hf) as (kvs & E & Hs & Hin). exists kvs. split_and!; try done.
    intros k v. by rewrite Hin, Hv.
  - intros o Hc Hcap. destruct (eop_run o e) as [r e'] eqn:E.
    destruct (eop_run_inv deep o e pc act imms l0 r e' Hinv Hc Hcap E) as [(err & w' & -> & _)|(-> & _)]; eauto.
Qed.

(** *** A run *)

Definition demo_io : IO := io_ok (fun _ => []).
Definition demo_opts : Options := mkOptions 1 0 2 0.
Definition run1 {A} (m : M Engine A) (e : Engine) : Engine := (m e).2.
Definition demo_open : Engine :=
  match Engine_Open (open_ok (fun _ => [])) empty_disk demo_opts with
  | Ok e => e
  | _ => mkEngine demo_opts (wal_unopened ∅ 0 0) [] 0 [] [] [] (mkManifest None []) [] false 0 true ∅
  end.

Lemma run1_eq {A} (m : M Engine A) e r : (m e).1 = r -> m e = (r, run1 m e).
Proof. intros <-. unfold run1. by destruct (m e). Qed.

Definition demo_put (v : byte) : eop := EPut demo_io [x61] (Some [v]).
Definition demo_task : flushTask := mkTask 0 1.
Definition demo1 : Engine := run1 (eop_run (demo_put x31)) demo_open.
Definition demo2 : Engine := run1 (flush_write demo_io 0) (set_flushCh [] demo1).
Definition demo3 : Engine := run1 (eop_run (demo_put x32)) demo2.
Definition demo4 : Engine := run1 (flush_publish 0) demo3.
Definition demo_mem : Memtable := default (NewMemtable 0) (e_mems demo1 !! 0%nat).

(** A write, its flush up to the manifest, a second write, the publication. *)
Lemma demo_run :
  esteps (demo_open, FIdle) ∅ (demo4, FPublished demo_task)
    (write_all (eop_writes (demo_put x32)) (write_all (eop_writes (demo_put x31)) ∅)).
Proof.
  refine (esteps_step _ _ _ _ _ _ _ _ (step_publish demo3 _ demo_task 0 (Ok tt) demo4 (run1_eq (flush_publish 0) demo3 (Ok tt) _)));
    [|vm_compute; reflexivity].
  refine (esteps_step _ _ _ _ _ _ _ _ (step_op demo2 (FWritten demo_task 0) _ (demo_put x32) (Ok tt) demo3 _ _
    (run1_eq (eop_run (demo_put x32)) demo2 (Ok tt) _))); [|by repeat constructor|vm_compute; lia|vm_compute; reflexivity].
  refine (esteps_step _ _ _ _ _ _ _ _ (step_write demo1 _ demo_io demo_task [] demo_mem [([x61], Some [x31])] 0 demo2 _ _ _ _
    (run1_eq (flush_write demo_io 0) (set_flushCh [] demo1) (Ok (FlushTable 0)) _))); [|vm_compute; reflexivity..].
  refine (esteps_step _ _ _ _ _ _ _ (esteps_refl _ _) (step_op demo_open FIdle ∅ (demo_put x31) (Ok tt) demo1 _ _
    (run1_eq (eop_run (demo_put x31)) demo_open (Ok tt) _))); [by repeat constructor|vm_compute; lia|vm_compute; reflexivity].
Qed.

Lemma engine_refines_map_witness :
  exists m, esteps (demo_open, FIdle) ∅ (demo4, FPublished demo_task) m /\ Engine_Get [x61] demo4 = Ok (Some [x32]).
Proof.
  eexists. split; [exact demo_run|].
  destruct (engine_refines_map (fun _ => []) demo_opts) as (e0 & E0 & H).
  assert (demo_open = e0) as Heq by (unfold demo_open; by rewrite E0).
  pose proof demo_run as Hrun. rewrite Heq in Hrun. destruct (H _ _ _ Hrun) as (Hget & _).
  rewrite (Hget [x61]). vm_compute. reflexivity.
Defined.

Lemma engine_reads_layers_witness :
  exists ms l0 deep fuel kvs, engine_repr demo4 ms l0 deep /\ Engine_Get [x61] demo4 = answer (view [x61] (layers ms l0 deep)) /\
    Engine_ReadRange fuel [x61] [x62] demo4 = Ok kvs /\ mkKV [x61] [x32] ∈ kvs.
Proof.
  destruct (Engine_Open_new (fun _ => []) demo_opts) as (n & w & E0 & _). set (deep := replicate n ([] : list layer)).
  assert (demo_open = new_engine (applyDefaults demo_opts) n w) as Heq by (unfold demo_open; by rewrite E0).
  pose proof demo_run as Hrun. rewrite Heq in Hrun.
  destruct (esteps_inv deep _ _ _ _ _ _ [] [] [] (new_engine_inv _ n w) (views_new n) Hrun) as (act & imms & l0 & Hinv & Hv).
  pose proof (run_engine_repr _ _ _ _ _ _ Hinv) as Hrep.
  destruct (engine_reads_layers demo4 (act :: imms) l0 deep Hrep) as [Hget Hrange].
  destruct (Hrange (S (length (concat (layers (act :: imms) l0 deep)))) [x61] [x62] ltac:(lia)) as (kvs & E & _ & Hin).
  eexists _, _, _, _, kvs. split; [exact Hrep|]. split; [apply Hget|]. split; [exact E|].
  apply Hin. split; [split; vm_compute; congruence|]. vm_compute. reflexivity.
Defined.
