(* ===== verification/EngineFaults.v ===== *)
(** * engine/engine.go: when a flush fails

    [flushMemtable] returns silently on every error, and [maybeScheduleFlush]
    drops the task when the channel is full.  The memtable then stays in
    [immutableMems] with no task, in front of the tables of younger memtables,
    and its log file is purged with the next one.  These theorems show what
    clients see. *)

From S2P Require Import Prelude GoStd SkipList Memtable Bloom Wal SSTWriter SSTReader SSTIterator GoHeap MergeIterator Manifest Engine EngineRun.

(** The disk is full when a table is created. *)
Definition io_full : IO := mkIO None true true true (Opened []) (fun _ => true) (fun _ => []).

Definition put1 (k v : byte) : M Engine unit := Engine_Put demo_io [k] (Some [v]).

(** One receive of the flush goroutine and its flush. *)
Definition flush_one (io : IO) : M Engine unit :=
  task ← flush_receive;
  match task with
  | None => mret tt
  | Some task => flushMemtable io task
  end.

Fixpoint repeat_M {St} (n : nat) (m : nat -> M St unit) : M St unit :=
  match n with
  | O => mret tt
  | S n => repeat_M n m;; m n
  end.

(** C35.  A failed flush loses data and resurrects old values.  Two keys are
    written, each write filling a memtable; the flush of the first memtable
    fails once, and a later write of the first key is flushed successfully.
    Every operation reports success, [Get] first answers with the new value
    and then, after the successful flush, with the old one; and after a power
    failure the key that was only in the first memtable is gone. *)
Theorem engine_failed_flush_loses_data :
  exists e1 e2 e,
    (Engine_BatchPut demo_io [[x61]; [x62]] [Some [x31]; Some [x37]];; flush_one io_full) demo_open = (Ok tt, e1) /\
    put1 x61 x32 e1 = (Ok tt, e2) /\ flush_one demo_io e2 = (Ok tt, e) /\
    Engine_Get [x61] e2 = Ok (Some [x32]) /\ Engine_Get [x61] e = Ok (Some [x31]) /\
    exists e', Engine_Open (open_ok (fun _ => [])) (disk_crash 0 (fun _ => 0%nat) (fun _ => 0%nat) (Engine_disk e)) demo_opts = Ok e' /\
      Engine_Get [x62] e2 = Ok (Some [x37]) /\ Engine_Get [x62] e' = Err ErrNotFound.
Proof.
  set (m1 := (Engine_BatchPut demo_io [[x61]; [x62]] [Some [x31]; Some [x37]];; flush_one io_full)).
  exists (run1 m1 demo_open), (run1 (put1 x61 x32) (run1 m1 demo_open)),
    (run1 (flush_one demo_io) (run1 (put1 x61 x32) (run1 m1 demo_open))).
  split; [apply run1_eq; vm_compute; reflexivity|]. split; [apply run1_eq; vm_compute; reflexivity|].
  split; [apply run1_eq; vm_compute; reflexivity|]. split; [vm_compute; reflexivity|]. split; [vm_compute; reflexivity|].
  destruct (Engine_Open (open_ok (fun _ => [])) (disk_crash 0 (fun _ => 0%nat) (fun _ => 0%nat)
    (Engine_disk (run1 (flush_one demo_io) (run1 (put1 x61 x32) (run1 m1 demo_open))))) demo_opts) as [e'| | |] eqn:E;
    try (vm_compute in E; discriminate).
  exists e'. split; [reflexivity|]. split; [vm_compute; reflexivity|].
  vm_compute in E. injection E as <-. vm_compute. reflexivity.
Qed.

(** The same with a full channel and no failure at all.  Eighteen writes
    of one key, each filling a memtable, while the flush goroutine handles the
    first sixteen and the last: the seventeenth task is dropped, so after the
    last flush [Get] answers with the seventeenth value instead of the
    eighteenth. *)
Theorem engine_dropped_flush_stale_read :
  exists e1 e2 e,
    (repeat_M 17 (fun i => put1 x61 (Zbyte (Z.of_nat i)));; repeat_M 16 (fun _ => flush_one demo_io)) demo_open = (Ok tt, e1) /\
    put1 x61 x31 e1 = (Ok tt, e2) /\ flush_one demo_io e2 = (Ok tt, e) /\
    Engine_Get [x61] e2 = Ok (Some [x31]) /\ Engine_Get [x61] e = Ok (Some [x10]).
Proof.
  set (m1 := (repeat_M 17 (fun i => put1 x61 (Zbyte (Z.of_nat i)));; repeat_M 16 (fun _ => flush_one demo_io))).
  exists (run1 m1 demo_open), (run1 (put1 x61 x31) (run1 m1 demo_open)),
    (run1 (flush_one demo_io) (run1 (put1 x61 x31) (run1 m1 demo_open))).
  split; [apply run1_eq; vm_compute; reflexivity|]. split; [apply run1_eq; vm_compute; reflexivity|].
  split; [apply run1_eq; vm_compute; reflexivity|]. split; vm_compute; reflexivity.
Qed.

(** ** Closing while flushes fail *)

(** A flush whose table cannot be created only uses up a file number. *)
Lemma flushMemtable_full io task e :
  io_create io = None -> exists n, flushMemtable io task e = (Ok tt, set_tables n (e_files e) e).
Proof.
  intros H. unfold flushMemtable, flush_write, mbind, M_bind, allocFileNum, get_st. rewrite H.
  unfold or_fail, lift. simpl. eauto.
Qed.

Lemma flush_drain_full io q : (forall i, io_create (io i) = None) -> forall e i, e_flushCh e = q ->
  exists n i', flush_drain (S (length q)) io i e = (Ok i', set_flushCh [] (set_tables n (e_files e) e)).
Proof.
  intros Hio. induction q as [|task q IH]; intros e i Hq; cbn [flush_drain length].
  - exists (e_nextFileNum e), i. rewrite (M_bind_run _ _ e None e) by (unfold flush_receive; by rewrite Hq).
    destruct e. simpl in *. by subst.
  - rewrite (M_bind_run _ _ e (Some task) (set_flushCh q e)) by (unfold flush_receive; by rewrite Hq).
    destruct (flushMemtable_full (io i) task (set_flushCh q e) (Hio i)) as (n & E). rewrite (M_bind_run _ _ _ _ _ E).
    destruct (IH (set_tables n (e_files (set_flushCh q e)) (set_flushCh q e)) (S i) eq_refl) as (n' & i' & E').
    cbn [flush_drain] in E'. rewrite E'. by exists n', i'.
Qed.

Lemma close_flush_full io fuel : (forall i, io_create (io i) = None) -> forall e i, e_immutableMems e <> [] ->
  (close_flush fuel io i e).1 = OutOfFuel.
Proof.
  intros Hio. induction fuel as [|fuel IH]; intros e i Hne; [done|]. cbn [close_flush]. unfold mbind, M_bind, get_st.
  destruct (last (e_immutableMems e)) as [imm|] eqn:E; [|by apply last_None in E].
  destruct (flushMemtable_full (io i) (mkTask imm 0) e (Hio i)) as (n & ->). by apply IH.
Qed.

(** C36.  [Close] does not return while an immutable memtable cannot be
    flushed: with memtables pending and no table creatable (a full disk),
    every number of iterations of its loop is exceeded, holding up the caller
    and leaving the log unclosed. *)
Theorem engine_close_never_returns :
  forall (fuel : nat) (io : nat -> IO) (e : Engine) (mt : Memtable),
  (forall i, io_create (io i) = None) -> e_closed e = false -> e_immutableMems e <> [] ->
  e_mems e !! e_memtable e = Some mt ->
  (Engine_Close fuel io e).1 = OutOfFuel.
Proof.
  intros fuel io e mt Hio Hcl Hne Hmt. unfold Engine_Close. rewrite (M_bind_run _ _ e e e), Hcl by done.
  assert ((close_engine fuel io e).1 = OutOfFuel) as H.
  2: { unfold mbind at 1, M_bind at 1. destruct (close_engine fuel io e) as [r s]. simpl in H. by rewrite H. }
  unfold close_engine. rewrite (M_bind_run _ _ e e e) by done. rewrite (M_bind_run _ _ e tt (set_closed e)) by done.
  destruct (flush_drain_full io (e_flushCh e) Hio (set_closed e) 0 eq_refl) as (n & i & E).
  rewrite (M_bind_run _ _ _ _ _ E). set (e1 := set_flushCh _ _). rewrite (M_bind_run _ _ e1 e1 e1) by done.
  rewrite (M_bind_run _ _ e1 mt e1) by (unfold lift, mem_at; simpl; by rewrite Hmt).
  assert (exists i' e2, (if 0 <? Memtable_ApproximateSize mt then
      on_memtable (fun m => (Ok tt, Memtable_Freeze m));; flushMemtable (io i) (mkTask (e_memtable e1) 0);; mret (S i)
    else mret i) e1 = (Ok i', e2) /\ e_immutableMems e2 <> []) as (i' & e2 & E2 & Hne2).
  { destruct (0 <? Memtable_ApproximateSize mt); [|by exists i, e1].
    erewrite M_bind_run by (unfold on_memtable; simpl; rewrite Hmt; reflexivity).
    edestruct (fun e => flushMemtable_full (io i) (mkTask (e_memtable e1) 0) e (Hio i)) as (n' & E').
    rewrite (M_bind_run _ _ _ _ _ E'). eexists _, _. by split. }
  rewrite (M_bind_run _ _ _ _ _ E2). pose proof (close_flush_full io fuel Hio e2 i' Hne2) as Hc.
  unfold mbind at 1, M_bind at 1. destruct (close_flush fuel io i' e2) as [r s]. simpl in Hc. by rewrite Hc.
Qed.

Lemma engine_close_never_returns_witness :
  let e := run1 (put1 x61 x31) demo_open in
  e_immutableMems e <> [] /\ (Engine_Close 1000 (fun _ => io_full) e).1 = OutOfFuel.
Proof.
  intros e. assert (e_immutableMems e <> []) as Hne by (vm_compute; discriminate). split; [exact Hne|].
  apply (engine_close_never_returns 1000 (fun _ => io_full) e (NewMemtable 1)).
  - intros i. reflexivity.
  - vm_compute. reflexivity.
  - exact Hne.
  - vm_compute. reflexivity.
Defined.
