(* ===== verification/Compaction.v ===== *)
(** * engine/compaction.go: merging tables into deeper levels

    [compactL0] and [compactLevel] read under the lock, write the merged
    tables without it, and install them under the lock; the two halves are
    separate operations here, so that flushes and writes can run in between. *)

From S2P Require Import Prelude GoStd SkipList Memtable Bloom Wal SSTWriter SSTReader SSTIterator GoHeap MergeIterator Manifest Engine EngineRun.

Definition l1TargetSize : Z := 10 * 1024 * 1024.
Definition targetFileSize : Z := 2 * 1024 * 1024.

(** ** When to compact *)

Definition levelTargetSize (level : Z) : Z :=
  Nat.iter (Z.to_nat (level - 1)) (fun size => i64 (size * 10)) l1TargetSize.

Definition needsCompaction (level : Z) (e : Engine) : res bool :=
  if level =? 0 then l0 ← index (e_levels e) 0; Ok (L0CompactTrigger (e_opts e) <=? len l0) else
  let totalSize := foldl (fun acc m => i64 (acc + Size m)) 0 (Manifest_GetLevel level (e_manifest e)) in
  Ok (levelTargetSize level <? totalSize).

(** ** Choosing tables *)

(** [bytes.Equal] of a reader's keys, nil or not, with those of a file. *)
Definition same_range (r : Reader) (meta : FileMetadata) : bool :=
  beqb (val_bytes (Reader_MinKey r)) (Manifest.MinKey meta) && beqb (val_bytes (Reader_MaxKey r)) (Manifest.MaxKey meta).

Fixpoint overlapping (metas : list FileMetadata) (readers : list nat) (minKey maxKey : bytes) (e : Engine)
    : res (list nat * list FileMetadata) :=
  match metas with
  | [] => Ok ([], [])
  | meta :: metas =>
      if bltb maxKey (Manifest.MinKey meta) || bltb (Manifest.MaxKey meta) minKey then
        overlapping metas readers minKey maxKey e
      else
        p ← find_reader (fun r => same_range r meta) readers e;
        '(ps, ms) ← overlapping metas readers minKey maxKey e;
        Ok (match p with Some p => (p :: ps, meta :: ms) | None => (ps, ms) end)
  end.

Definition findOverlapping (level : Z) (minKey maxKey : bytes) (e : Engine) : res (list nat * list FileMetadata) :=
  readers ← index (e_levels e) level;
  overlapping (Manifest_GetLevel level (e_manifest e)) readers minKey maxKey e.

Definition findMetaForReader (level : Z) (reader : Reader) (e : Engine) : option FileMetadata :=
  List.find (same_range reader) (Manifest_GetLevel level (e_manifest e)).

Definition removeReaders (src toRemove : list nat) : list nat := filter (fun p => p ∉ toRemove) src.

(** The key range of the L0 readers: nil keys are skipped. *)
Fixpoint key_range (ps : list nat) (e : Engine) (acc : option bytes * option bytes) : res (option bytes * option bytes) :=
  match ps with
  | [] => Ok acc
  | p :: ps =>
      r ← reader_at p e;
      match Reader_MinKey r with
      | None => key_range ps e acc
      | Some lo =>
          let hi := val_bytes (Reader_MaxKey r) in
          key_range ps e
            (match acc.1 with None => Some lo | Some m => if bltb lo m then Some lo else Some m end,
             match acc.2 with None => Reader_MaxKey r | Some m => if bltb m hi then Some hi else Some m end)
      end
  end.

(** ** Writing the merged tables *)

(** The variables of [writeCompactionOutput]; [os_files] counts the files
    begun. *)
Record output := mkOutput {
  os_writer : option Writer;
  os_num : Z;
  os_size : Z;
  os_metas : list FileMetadata;
  os_readers : list nat;
  os_files : nat
}.

Definition new_output : output := mkOutput None 0 0 [] [] 0.

Definition set_writer (w : option Writer) (size : Z) (o : output) : output :=
  mkOutput w (os_num o) size (os_metas o) (os_readers o) (os_files o).

(** [if err != nil { os.Remove(currentPath); return err }] *)
Definition or_remove {A} (io : IO) (n : Z) (m : M Engine A) : M Engine A := fun e =>
  match m e with
  | (Err err, e) => (remove_table io n;; throw err) e
  | r => r
  end.

Definition finishCurrent (ios : nat -> IO) (level : Z) (o : output) : M Engine output :=
  match os_writer o with
  | None => mret o
  | Some w =>
      let io := ios (os_files o) in
      if Writer_EntryCount w =? 0 then remove_table io (os_num o);; mret (set_writer None (os_size o) o) else
      or_remove io (os_num o) (on_writer (os_num o) w Writer_Finish);;
      e ← get_st;
      reader ← or_remove io (os_num o) (lift (OpenReader (map_table (io_open io) (os_num o) e)));
      let meta := mkMeta (os_num o) level (stat_size io (os_num o) e)
        (val_bytes (Reader_MinKey reader)) (val_bytes (Reader_MaxKey reader)) in
      p ← new_reader reader;
      mret (mkOutput None (os_num o) (os_size o) (os_metas o ++ [meta]) (os_readers o ++ [p]) (os_files o))
  end.

(** [if writer == nil { ... }]: a new file. *)
Definition ensure_writer (ios : nat -> IO) (o : output) : M Engine output :=
  match os_writer o with
  | Some _ => mret o
  | None =>
      n ← allocFileNum;
      e ← get_st;
      w ← wrap "engine: new sstable writer" (lift (NewWriter (io_create (ios (S (os_files o)))) (BlockSize (e_opts e))));
      mret (mkOutput (Some w) n 0 (os_metas o) (os_readers o) (S (os_files o)))
  end.

(** [err := writer.Add(...)]; the size counts the bytes added. *)
Definition output_add (key : bytes) (val : option bytes) (tomb : bool) (o : output) : M Engine output :=
  match os_writer o with
  | None => lift Panic
  | Some w =>
      w ← wrap "engine: sstable add" (on_writer (os_num o) w (Writer_Add key val tomb));
      mret (set_writer (Some w) (os_size o + (len key + len (val_bytes val) + 9)) o)
  end.

Fixpoint output_loop (fuel : nat) (ios : nat -> IO) (level : Z) (mi : MergeIterator AnyIter) (o : output) : M Engine output :=
  match fuel with
  | O => lift OutOfFuel
  | S fuel =>
      if MergeIterator_Valid mi then
        o ← ensure_writer ios o;
        key ← lift (MergeIterator_Key mi);
        val ← lift (MergeIterator_Value mi);
        tomb ← lift (MergeIterator_IsTombstone mi);
        o ← output_add key val tomb o;
        mi ← lift (MergeIterator_Next mi);
        o ← (if targetFileSize <=? os_size o then finishCurrent ios level o else mret o);
        output_loop fuel ios level mi o
      else mret o
  end.

Definition writeCompactionOutput (fuel : nat) (ios : nat -> IO) (mi : MergeIterator AnyIter) (level : Z)
    : M Engine (list FileMetadata * list nat) :=
  o ← output_loop fuel ios level mi new_output;
  o ← finishCurrent ios level o;
  mret (os_metas o, os_readers o).

(** ** Installing the result *)

(** What a compaction replaces: readers and files of two levels, and the new
    tables of the lower one. *)
Record compaction := mkCompaction {
  c_level : Z;
  c_srcReaders : list nat;
  c_srcMetas : list FileMetadata;
  c_dstReaders : list nat;
  c_dstMetas : list FileMetadata;
  c_newMetas : list FileMetadata;
  c_newReaders : list nat
}.

Fixpoint remove_files (metas : list FileMetadata) (level : Z) : M Engine unit :=
  match metas with
  | [] => mret tt
  | meta :: metas => on_manifest (Manifest_RemoveFile (FileNum meta) level);; remove_files metas level
  end.

Fixpoint add_files (metas : list FileMetadata) : M Engine unit :=
  match metas with
  | [] => mret tt
  | meta :: metas => on_manifest (Manifest_AddFile meta);; add_files metas
  end.

(** [e.levels[level] = f(e.levels[level])] *)
Definition update_level (level : Z) (f : list nat -> list nat) : M Engine unit := fun e =>
  match index (e_levels e) level with
  | Ok ps => (Ok tt, set_readers (e_rdrs e) (<[Z.to_nat level := f ps]> (e_levels e)) e)
  | _ => (Panic, e)
  end.

Fixpoint remove_tables (io : IO) (metas : list FileMetadata) : M Engine unit :=
  match metas with
  | [] => mret tt
  | meta :: metas => remove_table io (FileNum meta);; remove_tables io metas
  end.

(** The part under the write lock, the same in both compactions. *)
Definition install (io : IO) (c : compaction) : M Engine unit :=
  remove_files (c_srcMetas c) (c_level c);;
  remove_files (c_dstMetas c) (c_level c + 1);;
  add_files (c_newMetas c);;
  update_level (c_level c) (fun ps => removeReaders ps (c_srcReaders c));;
  update_level (c_level c + 1) (fun ps => removeReaders ps (c_dstReaders c));;
  update_level (c_level c + 1) (fun ps => ps ++ c_newReaders c);;
  close_readers (c_srcReaders c);;
  close_readers (c_dstReaders c);;
  remove_tables io (c_srcMetas c);;
  remove_tables io (c_dstMetas c).

(** ** Compacting *)

(** [compactL0] up to the write lock.  The priority of an L0 reader is its
    index in the slice. *)
Definition compactL0_write (fuel : nat) (ios : nat -> IO) : M Engine (option compaction) :=
  e ← get_st;
  l0Readers ← lift (index (e_levels e) 0);
  let l0Metas := Manifest_GetLevel 0 (e_manifest e) in
  if len l0Readers =? 0 then mret None else
  '(minKey, maxKey) ← lift (key_range l0Readers e (None, None));
  '(l1Readers, l1Metas) ← lift (findOverlapping 1 (val_bytes minKey) (val_bytes maxKey) e);
  its0 ← lift (table_iters (reverse l0Readers) e);
  its1 ← lift (table_iters l1Readers e);
  let priorities := reverse (seqZ 0 (len l0Readers)) ++ seqZ (len l0Readers) (len l1Readers) in
  mi ← lift (NewMergeIterator (its0 ++ its1) priorities);
  mi ← lift (MergeIterator_SeekToFirst mi);
  '(newMetas, newReaders) ← writeCompactionOutput fuel ios mi 1;
  mret (Some (mkCompaction 0 l0Readers l0Metas l1Readers l1Metas newMetas newReaders)).

Definition install_opt (io : IO) (c : option compaction) : M Engine unit :=
  match c with None => mret tt | Some c => install io c end.

Definition compactL0 (fuel : nat) (ios : nat -> IO) : M Engine unit :=
  c ← compactL0_write fuel ios;
  install_opt (ios 0%nat) c.

(** [compactLevel] up to the write lock. *)
Definition compactLevel_write (fuel : nat) (ios : nat -> IO) (level : Z) : M Engine (option compaction) :=
  e ← get_st;
  readers ← lift (index (e_levels e) level);
  match readers with
  | [] => mret None
  | src :: _ =>
      srcReader ← lift (reader_at src e);
      '(dstReaders, dstMetas) ← lift (findOverlapping (level + 1) (val_bytes (Reader_MinKey srcReader))
        (val_bytes (Reader_MaxKey srcReader)) e);
      match findMetaForReader level srcReader e with
      | None => mret None
      | Some srcMeta =>
          its ← lift (table_iters (src :: dstReaders) e);
          mi ← lift (NewMergeIterator its (seqZ 0 (1 + len dstReaders)));
          mi ← lift (MergeIterator_SeekToFirst mi);
          '(newMetas, newReaders) ← writeCompactionOutput fuel ios mi (level + 1);
          mret (Some (mkCompaction level [src] [srcMeta] dstReaders dstMetas newMetas newReaders))
      end
  end.

Definition compactLevel (fuel : nat) (ios : nat -> IO) (level : Z) : M Engine unit :=
  c ← compactLevel_write fuel ios level;
  install_opt (ios 0%nat) c.

(** An error of a compaction is dropped. *)
Definition ignore_err (m : M Engine unit) : M Engine unit := fun e =>
  match m e with
  | (Err _, e) => (Ok tt, e)
  | r => r
  end.

Fixpoint compact_levels (fuel : nat) (ios : Z -> nat -> IO) (levels : list Z) : M Engine unit :=
  match levels with
  | [] => mret tt
  | level :: levels =>
      e ← get_st;
      b ← lift (needsCompaction level e);
      (if b : bool then ignore_err (compactLevel fuel (ios level) level) else mret tt);;
      compact_levels fuel ios levels
  end.

Definition runCompaction (fuel : nat) (ios : Z -> nat -> IO) : M Engine unit :=
  e ← get_st;
  b ← lift (needsCompaction 0 e);
  (if b : bool then ignore_err (compactL0 fuel (ios 0)) else mret tt);;
  compact_levels fuel ios (seqZ 1 (MaxLevels (e_opts e) - 2)).

(** One turn of [compactionLoop]: [closing] tells which of the two cases
    [select] took, [false] that a signal of a flush was received.  The result
    is whether the loop goes on. *)
Definition compaction_turn (closing : bool) (fuel : nat) (ios : Z -> nat -> IO) : M Engine bool :=
  if closing then mret false else
  e ← get_st;
  put_st (set_compactCh false e);;
  runCompaction fuel ios;;
  mret true.
