(* ===== verification/CompactionFaults.v ===== *)
(** * engine/compaction.go: what L0 compaction gets wrong

    Runs without any device fault in which [compactL0] loses the newest value
    of a key: by the order of its merge, in a race with a flush, and when power
    fails while its output is installed. *)

From S2P Require Import Prelude GoStd SkipList Memtable Bloom Wal SSTWriter SSTReader SSTIterator GoHeap MergeIterator Manifest Engine EngineRun EngineFaults Compaction.

(** C34.  L0 compaction keeps the oldest value.  The priority of an L0 table in
    the merge is its index in the slice, so the oldest table wins.  After two
    writes of one key, each flushed to its own table, [Get] answers with the
    second value before and with the first value after the compaction. *)
Theorem compact_l0_resurrects_old_value :
  exists e1 e2,
    (put1 x61 x31;; flush_one demo_io;; put1 x61 x32;; flush_one demo_io) demo_open = (Ok tt, e1) /\
    compactL0 10 (fun _ => demo_io) e1 = (Ok tt, e2) /\
    Engine_Get [x61] e1 = Ok (Some [x32]) /\ Engine_Get [x61] e2 = Ok (Some [x31]).
Proof.
  set (m := (put1 x61 x31;; flush_one demo_io;; put1 x61 x32;; flush_one demo_io)).
  exists (run1 m demo_open), (run1 (compactL0 10 (fun _ => demo_io)) (run1 m demo_open)).
  split; [apply run1_eq; vm_compute; reflexivity|]. split; [apply run1_eq; vm_compute; reflexivity|].
  split; vm_compute; reflexivity.
Qed.

(** L0 compaction races with a flush.  The flush records its table in the
    manifest before it appends the reader to L0.  A compaction that runs in
    between removes the new file from the manifest and from disk without
    having merged it.  When the flush then finishes it purges the log, and
    after a power failure the acknowledged key is gone. *)
Theorem compact_l0_races_with_flush :
  exists e1 e2 e3 e4,
    (put1 x62 x37;; flush_one demo_io;; put1 x61 x31) demo_open = (Ok tt, e1) /\ e_flushCh e1 = [mkTask 1 2] /\
    flush_write demo_io 1 (set_flushCh [] e1) = (Ok (FlushTable 1), e2) /\
    compactL0 10 (fun _ => demo_io) e2 = (Ok tt, e3) /\
    (flush_publish 1;; removeImmutable 1;; flush_finish demo_io 2) e3 = (Ok tt, e4) /\
    Engine_Get [x61] e4 = Ok (Some [x31]) /\
    (e ← Engine_Open (open_ok (fun _ => [])) (disk_crash 0 (fun _ => 0%nat) (fun _ => 0%nat) (Engine_disk e4)) demo_opts;
     Engine_Get [x61] e) = Err ErrNotFound.
Proof.
  set (m1 := (put1 x62 x37;; flush_one demo_io;; put1 x61 x31)).
  set (m4 := (flush_publish 1;; removeImmutable 1;; flush_finish demo_io 2)).
  set (e1 := run1 m1 demo_open). set (e2 := run1 (flush_write demo_io 1) (set_flushCh [] e1)).
  set (e3 := run1 (compactL0 10 (fun _ => demo_io)) e2). exists e1, e2, e3, (run1 m4 e3).
  split; [apply (run1_eq m1); vm_compute; reflexivity|]. split; [vm_compute; reflexivity|].
  split; [apply (run1_eq (flush_write demo_io 1)); vm_compute; reflexivity|].
  split; [apply (run1_eq (compactL0 10 (fun _ => demo_io))); vm_compute; reflexivity|].
  split; [apply (run1_eq m4); vm_compute; reflexivity|]. split; vm_compute; reflexivity.
Qed.

(** Installing a compaction is not atomic.  The manifest first drops the merged
    files, one synced record each, and only then gains the new ones.  A power
    failure in between, or an error of the first [AddFile], leaves a manifest
    with neither: the running engine still answers, but the log of the data
    was purged long ago, and after [Open] the acknowledged key is gone. *)
Theorem compaction_install_not_atomic :
  exists e1 c e2 e3,
    (put1 x61 x31;; flush_one demo_io) demo_open = (Ok tt, e1) /\
    compactL0_write 10 (fun _ => demo_io) e1 = (Ok (Some c), e2) /\
    (remove_files (c_srcMetas c) (c_level c);; remove_files (c_dstMetas c) (c_level c + 1)) e2 = (Ok tt, e3) /\
    Engine_Get [x61] e3 = Ok (Some [x31]) /\
    (e ← Engine_Open (open_ok (fun _ => [])) (disk_crash 0 (fun _ => 0%nat) (fun _ => 0%nat) (Engine_disk e3)) demo_opts;
     Engine_Get [x61] e) = Err ErrNotFound.
Proof.
  set (m1 := (put1 x61 x31;; flush_one demo_io)). set (e1 := run1 m1 demo_open).
  set (c := match (compactL0_write 10 (fun _ => demo_io) e1).1 with Ok (Some c) => c | _ => mkCompaction 0 [] [] [] [] [] [] end).
  set (e2 := run1 (compactL0_write 10 (fun _ => demo_io)) e1).
  set (m3 := (remove_files (c_srcMetas c) (c_level c);; remove_files (c_dstMetas c) (c_level c + 1))).
  exists e1, c, e2, (run1 m3 e2). split; [apply (run1_eq m1); vm_compute; reflexivity|].
  split; [apply (run1_eq (compactL0_write 10 (fun _ => demo_io))); vm_compute; reflexivity|].
  split; [apply (run1_eq m3); vm_compute; reflexivity|]. split; vm_compute; reflexivity.
Qed.

(** With a single level there is none to compact into: [MaxLevels = 1] is
    accepted, and the first compaction of L0 panics on [e.levels[1]]. *)
Definition one_level : Options := mkOptions 1 1 1 0.

Theorem compact_one_level_panics :
  exists e0 e1, Engine_Open (open_ok (fun _ => [])) empty_disk one_level = Ok e0 /\
    (put1 x61 x31;; flush_one demo_io) e0 = (Ok tt, e1) /\ (runCompaction 10 (fun _ _ => demo_io) e1).1 = Panic.
Proof.
  set (e0 := match Engine_Open (open_ok (fun _ => [])) empty_disk one_level with Ok e => e | _ => demo_open end).
  set (m1 := (put1 x61 x31;; flush_one demo_io)). exists e0, (run1 m1 e0).
  split; [vm_compute; reflexivity|]. split; [apply (run1_eq m1); vm_compute; reflexivity|]. vm_compute. reflexivity.
Qed.
