(* ===== verification/CompactOutput.v ===== *)
(** * engine/compaction.go: the output of a compaction

    On a device without faults [writeCompactionOutput] cuts the entries of a
    merge into nonempty tables that together hold exactly those entries, in
    order, and changes nothing else of the engine. *)

From S2P Require Import Prelude GoStd SkipList Memtable Bloom Wal SSTWriter SSTReader SSTIterator GoHeap MergeIterator Manifest Engine EngineRun Compaction.

(** ** The loop over a list *)

Fixpoint output_list (ios : nat -> IO) (level : Z) (out : list entry) (o : output) : M Engine output :=
  match out with
  | [] => mret o
  | x :: out =>
      o ← ensure_writer ios o;
      o ← output_add (e_key x) (e_value x) (e_tombstone x) o;
      o ← (if targetFileSize <=? os_size o then finishCurrent ios level o else mret o);
      output_list ios level out o
  end.

Lemma output_loop_drain ios level fuel : forall mi out o e,
  mi_drain fuel mi = Ok out -> output_loop fuel ios level mi o e = output_list ios level out o e.
Proof.
  induction fuel as [|fuel IH]; intros mi out o e H; [done|]. cbn [mi_drain output_loop] in *.
  destruct (MergeIterator_Valid mi); [|by simplify_eq].
  apply res_bind_Ok in H as (k & Ek & H). apply res_bind_Ok in H as (v & Ev & H).
  apply res_bind_Ok in H as (t & Et & H). apply res_bind_Ok in H as (mi' & Em & H).
  apply res_bind_Ok in H as (es & Ees & H). injection H as <-. cbn [output_list e_key e_value e_tombstone].
  unfold mbind, M_bind, lift. destruct (ensure_writer ios o e) as [[o1| | |] e1]; try done.
  rewrite Ek, Ev, Et. destruct (output_add k v t o1 e1) as [[o2| | |] e2]; try done. rewrite Em.
  destruct ((if targetFileSize <=? os_size o2 then finishCurrent ios level o2 else mret o2) e2) as [[o3| | |] e3]; try done.
  by apply IH.
Qed.

(** ** The state while tables are written *)

(** Readers, files and numbers are added; nothing else changes. *)
Definition grow (e : Engine) (rs : list Reader) (files : gmap Z File) (num : Z) : Engine :=
  mkEngine (e_opts e) (e_wal e) (e_mems e) (e_memtable e) (e_immutableMems e) (e_rdrs e ++ rs) (e_levels e) (e_manifest e)
    (e_flushCh e) (e_compactCh e) num (e_closed e) files.

Definition grown (e0 e : Engine) : Prop :=
  exists rs files num, e = grow e0 rs files num /\ e_nextFileNum e0 <= num /\
    forall n, n < e_nextFileNum e0 -> files !! n = e_files e0 !! n.

(** A finished output table. *)
Definition meta_is (e0 e : Engine) (level : Z) (meta : FileMetadata) (t : layer) : Prop :=
  meta_range meta = range_of t /\ Level meta = level /\ 0 <= Size meta < 2 ^ 40 /\
  e_nextFileNum e0 <= FileNum meta < e_nextFileNum e /\
  exists f, e_files e !! FileNum meta = Some f /\ table_file f t.

Definition writer_is (w : Writer) (cur : layer) : Prop :=
  sw_healthy w /\ exists bs c, sw_inv w bs c /\ concat bs ++ c = mem_entries cur.

Record out_inv (e0 : Engine) (level : Z) (e : Engine) (o : output) (chunks : list layer) (cur : layer) : Prop := {
  oi_grown : grown e0 e;
  oi_next : 0 <= e_nextFileNum e;
  oi_readers : Forall2 (table_is e) (os_readers o) chunks;
  oi_metas : Forall2 (meta_is e0 e level) (os_metas o) chunks;
  oi_nums : NoDup (FileNum <$> os_metas o);
  oi_nonempty : Forall (fun t => t <> []) chunks;
  oi_writer : match os_writer o with
    | None => cur = []
    | Some w => writer_is w cur /\ os_size o = len (entries_bytes (mem_entries cur)) /\
        e_nextFileNum e0 <= os_num o < e_nextFileNum e /\ os_num o ∉ FileNum <$> os_metas o
    end;
  oi_fresh : os_readers o = seq (length (e_rdrs e0)) (length (os_readers o)) /\
    length (e_rdrs e) = (length (e_rdrs e0) + length (os_readers o))%nat
}.

Lemma grown_refl e : grown e e.
Proof. exists [], (e_files e), (e_nextFileNum e). split_and!; [unfold grow; rewrite app_nil_r; by destruct e|lia|done]. Qed.

Lemma meta_is_mono e0 e e' level meta t :
  e_nextFileNum e <= e_nextFileNum e' -> e_files e' !! FileNum meta = e_files e !! FileNum meta ->
  meta_is e0 e level meta t -> meta_is e0 e' level meta t.
Proof.
  intros Hn Hf (H1 & H2 & H3 & H4 & f & Ef & Ht). unfold meta_is. split_and!; try done; try lia. exists f. by rewrite Hf.
Qed.

Lemma metas_mono e0 e e' level metas ts :
  e_nextFileNum e <= e_nextFileNum e' -> (forall meta, meta ∈ metas -> e_files e' !! FileNum meta = e_files e !! FileNum meta) ->
  Forall2 (meta_is e0 e level) metas ts -> Forall2 (meta_is e0 e' level) metas ts.
Proof.
  intros Hn Hf HF. induction HF as [|meta t metas ts Hm HF IH]; constructor.
  - apply (meta_is_mono e0 e); [done| |done]. apply Hf. left.
  - apply IH. intros meta' Hin. apply Hf. by right.
Qed.

Section writing.
Context (ios : nat -> IO) (e0 : Engine) (level : Z).
Hypothesis Hios : forall i, io_create (ios i) = Some [] /\ io_open (ios i) = true.

(** Opening a file, if there is none. *)
Lemma ensure_writer_inv e o chunks cur :
  out_inv e0 level e o chunks cur -> e_nextFileNum e + 1 < 2 ^ 64 ->
  exists e' o' w, ensure_writer ios o e = (Ok o', e') /\ os_writer o' = Some w /\ out_inv e0 level e' o' chunks cur /\
    e_nextFileNum e' <= e_nextFileNum e + 1.
Proof.
  intros [O1 O2 O3 O4 O5 O6 O7 O8] Hnum. unfold ensure_writer. destruct (os_writer o) as [w|] eqn:Ew.
  { exists e, o, w. split_and!; try done; [|lia]. split; try done. by rewrite Ew. }
  subst cur. unfold allocFileNum, get_st, wrap, lift, mbind, M_bind. destruct (Hios (S (os_files o))) as [-> _]. simpl.
  eexists _, _, _. split_and!; [done|done| |simpl; unfold u64; rewrite Z.mod_small by lia; lia].
  assert (u64 (e_nextFileNum e + 1) = e_nextFileNum e + 1) as Hu by (unfold u64; rewrite Z.mod_small by lia; done).
  destruct O1 as (rs & files & num & -> & Hle & Hfiles). simpl in *. split; simpl; rewrite ?Hu; try done; try lia.
  - exists rs, files, (num + 1). split_and!; [by unfold set_tables, grow|lia|done].
  - eapply metas_mono; [..|exact O4]; simpl; [lia|done].
  - split_and!; try lia; try done.
    + split; [done|]. exists [], []. split; [by apply (NewWriter_inv [] (BlockSize (e_opts e0)))|done].
    + intros (meta & Heq & Hin)%list_elem_of_fmap. apply list_elem_of_lookup in Hin as [i Hi].
      destruct (Forall2_lookup_l _ _ _ _ _ O4 Hi) as (t & _ & _ & _ & _ & Hn & _). simpl in Hn. lia.
Qed.

Lemma writer_is_add w cur k v :
  writer_is w cur -> exists w', Writer_Add k v (bool_decide (v = None)) w = (Ok tt, w') /\ writer_is w' (cur ++ [(k, v)]).
Proof.
  intros (Hh & bs & c & Hw & Hc). destruct (Writer_Add_healthy w bs c (mem_entry (k, v)) Hw Hh) as (w' & E & Hh').
  destruct (Writer_Add_Ok _ _ _ _ _ _ Hw E) as (bs' & c' & Hw' & Hc').
  exists w'. split; [exact E|]. split; [done|]. exists bs', c'. split; [done|].
  rewrite Hc', app_assoc, Hc. unfold mem_entries. by rewrite fmap_app.
Qed.

Lemma put_table_inv e o chunks cur w n f :
  out_inv e0 level e o chunks cur -> os_writer o = Some w -> os_num o = n ->
  grown e0 (set_tables (e_nextFileNum e) (<[n := f]> (e_files e)) e) /\
  Forall2 (meta_is e0 (set_tables (e_nextFileNum e) (<[n := f]> (e_files e)) e) level) (os_metas o) chunks.
Proof.
  intros [O1 O2 O3 O4 O5 O6 O7 O8] Ew <-. rewrite Ew in O7. destruct O7 as (_ & _ & Hn & Hni). split.
  - destruct O1 as (rs & files & num & -> & Hle & Hfiles). exists rs, (<[os_num o := f]> files), num.
    split_and!; [done|done|]. intros n Hlt. rewrite lookup_insert_ne by lia. by apply Hfiles.
  - eapply metas_mono; [..|exact O4]; simpl; [lia|]. intros meta Hin. rewrite lookup_insert_ne; [done|].
    intros Heq. apply Hni. apply list_elem_of_fmap. eauto.
Qed.

Lemma output_add_inv e o chunks cur w k v :
  out_inv e0 level e o chunks cur -> os_writer o = Some w ->
  exists e' o', output_add k v (bool_decide (v = None)) o e = (Ok o', e') /\ os_writer o' <> None /\
    out_inv e0 level e' o' chunks (cur ++ [(k, v)]) /\ e_nextFileNum e' = e_nextFileNum e.
Proof.
  intros Hout Ew. pose proof Hout as [O1 O2 O3 O4 O5 O6 O7 O8]. rewrite Ew in O7. destruct O7 as (Hw & Hs & Hn & Hni).
  destruct (writer_is_add w cur k v Hw) as (w' & Ea & Hw'). unfold output_add. rewrite Ew.
  unfold wrap, on_writer, mbind, M_bind. rewrite Ea. simpl.
  destruct (put_table_inv e o chunks cur w (os_num o) (bfile (sw_buf w')) Hout Ew eq_refl) as [Hg Hm].
  eexists _, _. split_and!; [done|done| |done]. split; simpl; try done. split_and!; try done; try lia.
  rewrite Hs. unfold mem_entries. rewrite fmap_app, entries_bytes_app, len_app. f_equal.
  cbn [fmap list_fmap]. rewrite entries_bytes_cons, app_nil_r, len_entry_bytes. simpl. destruct v; simpl; unfold len; simpl; lia.
Qed.

Lemma grown_reader e r : grown e0 e -> grown e0 (set_readers (e_rdrs e ++ [r]) (e_levels e) e).
Proof.
  intros (rs & files & num & -> & Hle & Hf). exists (rs ++ [r]), files, num.
  split_and!; [|done|done]. unfold set_readers, grow. simpl. by rewrite app_assoc.
Qed.

(** Finishing a file: its entries become a table of the output. *)
Lemma finishCurrent_inv e o chunks cur w :
  out_inv e0 level e o chunks cur -> os_writer o = Some w -> cur <> [] -> clean cur -> ksorted cur ->
  table_fits (mem_entries cur) ->
  exists e' o', finishCurrent ios level o e = (Ok o', e') /\ os_writer o' = None /\
    out_inv e0 level e' o' (chunks ++ [cur]) [] /\ e_nextFileNum e' = e_nextFileNum e.
Proof.
  intros Hout Ew Hne Hcl Hs Hfit. pose proof Hout as [O1 O2 O3 O4 O5 O6 O7 O8]. rewrite Ew in O7.
  destruct O7 as ((Hh & bs & c & Hw & Hc) & Hsize & Hn & Hni). unfold finishCurrent. rewrite Ew.
  assert (len cur <> 0) as Hlen by (intros Hz; by apply len_0_nil in Hz).
  assert (Writer_EntryCount w = len cur) as Hcount.
  { unfold Writer_EntryCount. rewrite (si_count _ _ _ Hw), Hc. unfold len, mem_entries. by rewrite length_fmap. }
  rewrite Hcount, (proj2 (Z.eqb_neq _ _) Hlen).
  destruct (Writer_Finish_healthy _ _ _ Hw Hh) as (w2 & E2); [by rewrite Hc|].
  destruct (Writer_Finish_Ok _ _ _ _ _ Hw E2) as (bs' & bf & Hc' & Hne' & Hbf & Hcont & Hsync & _).
  rewrite Hc in Hc'. rewrite <- Hc' in Hfit.
  destruct (OpenReader_table bs' bf Hfit Hne' Hbf) as (r & Er & Hr). rewrite <- Hcont in Er.
  assert (len (contents (bfile (sw_buf w2))) < 2 ^ 40) as Hl40.
  { rewrite Hcont. apply len_table_bytes; [by apply table_bounds_fits|by apply (table_bloom_spec _ _ Hfit Hbf)]. }
  set (f := bfile (sw_buf w2)) in *. destruct (put_table_inv e o chunks cur w (os_num o) f Hout Ew eq_refl) as [Hg Hm].
  set (e1 := set_tables (e_nextFileNum e) (<[os_num o := f]> (e_files e)) e) in *.
  assert (on_writer (os_num o) w Writer_Finish e = (Ok w2, e1)) as E1 by (unfold on_writer; by rewrite E2).
  assert (e_files e1 !! os_num o = Some f) as Hf by apply lookup_insert_eq.
  assert (OpenReader (map_table (io_open (ios (os_files o))) (os_num o) e1) = Ok r) as E3.
  { unfold map_table. by rewrite (proj2 (Hios _)), Hf. }
  assert (0 <= stat_size (ios (os_files o)) (os_num o) e1 < 2 ^ 40) as Hst.
  { unfold stat_size. rewrite Hf. pose proof (len_nonneg (contents f)). destruct (io_stat _); lia. }
  destruct (reader_range r bs' cur Hr Hc') as [Hmin Hmax].
  assert (table_repr r cur) as Htr by (exists bs'; split_and!; [done|done|rewrite Hc'; by apply norm_clean]).
  eexists (set_readers (e_rdrs e1 ++ [r]) (e_levels e1) e1), _. split_and!.
  { unfold or_remove, new_reader, get_st, lift, mbind, M_bind. rewrite E1, E3. rewrite Hmin, Hmax. reflexivity. }
  { done. } 2:{ done. }
  split; simpl.
  - exact (grown_reader e1 r Hg).
  - done.
  - apply Forall2_app; [|constructor; [|constructor]].
    + eapply Forall2_impl; [exact O3|]. intros p l. apply table_is_mono. intros p' r'. simpl. apply lookup_app_Some.
    + exists r. split; [|done]. simpl. by rewrite lookup_app_r, Nat.sub_diag by done.
  - apply Forall2_app; [by eapply (metas_mono _ e1)|constructor; [|constructor]].
    unfold meta_is. simpl. split_and!; try done; try lia. exists f. split; [done|]. split; [done|eauto].
  - rewrite fmap_app. apply NoDup_app. split_and!; [done| |apply NoDup_singleton].
    intros x Hx ->%list_elem_of_singleton. done.
  - by apply Forall_app_2; [|constructor].
  - done.
  - destruct O8 as [H1 H2]. rewrite !length_app, seq_app, <- H1, H2. simpl. split; [done|lia].
Qed.

(** An entry small enough for any table the size limit leaves room for. *)
Definition small (kv : bytes * option bytes) : Prop := len (entry_bytes (mem_entry kv)) < 2 ^ 29.

(** Between two turns of the loop an open table is not empty and below the
    limit, and the finished ones reached it. *)
Definition full (t : layer) : Prop := targetFileSize <= len (entries_bytes (mem_entries t)).
Definition loop_inv (e : Engine) (o : output) (chunks : list layer) (cur : layer) : Prop :=
  out_inv e0 level e o chunks cur /\ (os_writer o <> None -> cur <> []) /\ ~ full cur /\ Forall full chunks.

Lemma finish_if e o chunks cur :
  out_inv e0 level e o chunks cur -> os_writer o <> None -> cur <> [] -> clean cur -> ksorted cur ->
  table_fits (mem_entries cur) -> Forall full chunks ->
  exists e' o' chunks' cur', (if targetFileSize <=? os_size o then finishCurrent ios level o else mret o) e = (Ok o', e') /\
    loop_inv e' o' chunks' cur' /\ e_nextFileNum e' = e_nextFileNum e /\
    (chunks' = chunks ++ [cur] /\ cur' = [] \/ chunks' = chunks /\ cur' = cur).
Proof.
  intros Hout Hsome Hne Hcl Hs Hfit Hfull. pose proof (oi_writer _ _ _ _ _ _ Hout) as Hw.
  destruct (os_writer o) as [w|] eqn:Ew; [|done]. destruct Hw as (_ & Hsz & _). destruct (Z.leb_spec targetFileSize (os_size o)) as [Hle|Hlt].
  - destruct (finishCurrent_inv e o chunks cur w Hout Ew Hne Hcl Hs Hfit) as (e' & o' & E & En & Hout' & Hnum).
    exists e', o', (chunks ++ [cur]), []. split_and!; [done| |done|by left].
    split_and!; [done|by rewrite En|by vm_compute|]. apply Forall_app_2; [done|]. constructor; [|done]. unfold full. lia.
  - exists e, o, chunks, cur. split_and!; try done; [|by right]. split_and!; [done|done|unfold full; lia|done].
Qed.

Lemma output_list_inv l : forall e o chunks cur,
  loop_inv e o chunks cur -> ksorted (cur ++ l) -> clean (cur ++ l) -> Forall small l ->
  e_nextFileNum e + len l < 2 ^ 64 ->
  exists e' o' chunks' cur', output_list ios level (mem_entries l) o e = (Ok o', e') /\ loop_inv e' o' chunks' cur' /\
    concat chunks' ++ cur' = concat chunks ++ cur ++ l /\ ksorted cur' /\ clean cur' /\
    e_nextFileNum e' <= e_nextFileNum e + len l.
Proof.
  induction l as [|[k v] l IH]; intros e o chunks cur (Hout & Hne & Hsz & Hfull) Hs Hcl Hsm Hnum.
  { rewrite app_nil_r in *. exists e, o, chunks, cur. split_and!; try done. unfold len; simpl; lia. }
  rewrite len_cons in *. pose proof (len_nonneg l) as Hl0. apply Forall_cons in Hsm as [Hkv Hsm].
  change (mem_entries ((k, v) :: l)) with (mem_entry (k, v) :: mem_entries l). cbn [output_list].
  destruct (ensure_writer_inv e o chunks cur Hout) as (e1 & o1 & w & E1 & Ew & Hout1 & Hn1); [lia|].
  rewrite (M_bind_run _ _ _ _ _ E1).
  destruct (output_add_inv e1 o1 chunks cur w k v Hout1 Ew) as (e2 & o2 & E2 & Ew2 & Hout2 & Hn2).
  cbn [mem_entry e_key e_value e_tombstone fst snd]. rewrite (M_bind_run _ _ _ _ _ E2).
  rewrite cons_middle, app_assoc in Hs, Hcl. pose proof Hs as (Hs1 & _ & _)%ksorted_app.
  pose proof Hcl as [Hcl1 _]%Forall_app.
  destruct (finish_if e2 o2 chunks (cur ++ [(k, v)]) Hout2 Ew2) as (e3 & o3 & chunks3 & cur3 & E3 & Hl3 & Hn3 & Hc3); [|done|done|..].
  { by destruct cur. }
  { unfold table_fits, full, small, mem_entries in *. rewrite fmap_app, entries_bytes_app, len_app. cbn [fmap list_fmap].
    rewrite entries_bytes_cons, app_nil_r. unfold targetFileSize in Hsz. lia. }
  { done. }
  rewrite (M_bind_run _ _ _ _ _ E3).
  assert (ksorted (cur3 ++ l) /\ clean (cur3 ++ l) /\ concat chunks3 ++ cur3 = concat chunks ++ cur ++ [(k, v)]) as (Hs3 & Hcl3 & Hcat).
  { destruct Hc3 as [[-> ->]|[-> ->]]; [|done]. rewrite concat_app. cbn [concat app]. rewrite !app_nil_r. split_and!.
    - by apply ksorted_app in Hs as (_ & ? & _).
    - by apply Forall_app in Hcl as [_ ?].
    - done. }
  destruct (IH e3 o3 chunks3 cur3 Hl3 Hs3 Hcl3 Hsm) as (e4 & o4 & chunks4 & cur4 & E4 & Hl4 & Hc4 & Hs4 & Hcl4 & Hn4); [lia|].
  exists e4, o4, chunks4, cur4. split_and!; try done; [|lia].
  rewrite Hc4, app_assoc, Hcat, <- !app_assoc. done.
Qed.

(** The whole output: the entries of [l], cut into tables. *)
Lemma finish_last e o chunks cur :
  loop_inv e o chunks cur -> ksorted cur -> clean cur ->
  exists e' o' chunks', finishCurrent ios level o e = (Ok o', e') /\ out_inv e0 level e' o' chunks' [] /\
    concat chunks' = concat chunks ++ cur /\ Forall full (removelast chunks') /\ e_nextFileNum e' = e_nextFileNum e.
Proof.
  intros (Hout & Hne & Hsz & Hfull) Hs Hcl. destruct (os_writer o) as [w|] eqn:Ew.
  - assert (table_fits (mem_entries cur)) as Hfit by (unfold table_fits, full, targetFileSize in *; lia).
    destruct (finishCurrent_inv e o chunks cur w Hout Ew) as (e' & o' & E & _ & Hout' & Hn); [by apply Hne|done..|].
    exists e', o', (chunks ++ [cur]). split_and!; try done; [|by rewrite removelast_last].
    rewrite concat_app. simpl. by rewrite app_nil_r.
  - pose proof (oi_writer _ _ _ _ _ _ Hout) as Hw. rewrite Ew in Hw. subst cur.
    exists e, o, chunks. unfold finishCurrent. rewrite Ew. split_and!; try done; [by rewrite app_nil_r|].
    destruct chunks as [|t ts _] using rev_ind; [done|]. rewrite removelast_last. by apply Forall_app in Hfull as [? _].
Qed.
End writing.

Lemma writeCompactionOutput_inv ios level fuel mi e l :
  (forall i, io_create (ios i) = Some [] /\ io_open (ios i) = true) ->
  mi_drain fuel mi = Ok (mem_entries l) -> ksorted l -> clean l -> Forall small l ->
  0 <= e_nextFileNum e -> e_nextFileNum e + len l < 2 ^ 64 ->
  exists e' o chunks, writeCompactionOutput fuel ios mi level e = (Ok (os_metas o, os_readers o), e') /\
    out_inv e level e' o chunks [] /\ concat chunks = l /\ Forall full (removelast chunks) /\
    e_nextFileNum e' <= e_nextFileNum e + len l.
Proof.
  intros Hios Hd Hs Hcl Hsm Hpos Hnum.
  destruct (output_list_inv ios e level Hios l e new_output [] []) as (e1 & o1 & chunks1 & cur1 & E1 & Hl1 & Hc1 & Hs1 & Hcl1 & Hn1); try done.
  { split_and!; [|done|by vm_compute|done]. split; try done; [apply grown_refl|constructor]. }
  destruct (finish_last ios e level Hios e1 o1 chunks1 cur1 Hl1 Hs1 Hcl1) as (e2 & o2 & chunks2 & E2 & Hout & Hc2 & Hf2 & Hn2).
  exists e2, o2, chunks2. split_and!; [|done| |done|lia].
  - unfold writeCompactionOutput. rewrite (M_bind_run _ _ _ o1 e1) by (by rewrite (output_loop_drain _ _ _ _ _ _ _ Hd)).
    by rewrite (M_bind_run _ _ _ _ _ E2).
  - by rewrite Hc2, Hc1.
Qed.

(** ** Properties *)

(** C14.  The output of a compaction.  When no file operation fails,
    [writeCompactionOutput] returns for any merge whose traversal yields the
    sorted entries [l], none with an empty value: it cuts them, in order, into
    nonempty tables and drops none of them, deletions included and whatever the
    level (README.md and docs/STUDY_GUIDE.md say that the deepest level drops
    deletions; no line of the code does).  Each table but the last holds at least
    [targetFileSize] bytes of entries (those of one entry fit 2^29).  Every table
    has an open reader that answers its entries, a complete and synced file
    under a number not used before, and metadata with its level and key range;
    the rest of the engine is unchanged. *)
Theorem compaction_output_tables :
  forall (ios : nat -> IO) (level : Z) (fuel : nat) (mi : MergeIterator AnyIter) (e : Engine) (l : layer),
  (forall i, io_create (ios i) = Some [] /\ io_open (ios i) = true) ->
  mi_drain fuel mi = Ok (mem_entries l) -> ksorted l -> clean l -> Forall small l ->
  0 <= e_nextFileNum e -> e_nextFileNum e + len l < 2 ^ 64 ->
  exists e' metas readers chunks, writeCompactionOutput fuel ios mi level e = (Ok (metas, readers), e') /\
    concat chunks = l /\ Forall (fun t => t <> []) chunks /\ Forall full (removelast chunks) /\
    Forall2 (table_is e') readers chunks /\ Forall2 (meta_is e e' level) metas chunks /\
    NoDup (FileNum <$> metas) /\ grown e e'.
Proof.
  intros ios level fuel mi e l Hios Hd Hs Hcl Hsm Hpos Hnum.
  destruct (writeCompactionOutput_inv ios level fuel mi e l Hios Hd Hs Hcl Hsm Hpos Hnum) as (e' & o & chunks & E & [] & Hc & Hf & _).
  exists e', (os_metas o), (os_readers o), chunks. by split_and!.
Qed.

(** Two entries of a memtable, one a deletion. *)
Definition demo_mem2 : Memtable :=
  ((Memtable_Put [] [x61] (Some [x31]);; Memtable_Delete [] [x62]) (NewMemtable 0)).2.
Definition demo_merge : MergeIterator AnyIter :=
  match m ← NewMergeIterator [memtableIteratorAdapter (mkMemIter (m_sl demo_mem2) (Memtable_NewIterator demo_mem2))] [0];
        MergeIterator_SeekToFirst m with
  | Ok m => m
  | _ => mkMerge [] [] [] None
  end.

Lemma compaction_output_tables_witness :
  let l : layer := [([x61], Some [x31]); ([x62], None)] in
  exists e' metas readers chunks, writeCompactionOutput 3 (fun _ => demo_io) demo_merge 2 demo_open = (Ok (metas, readers), e') /\
    concat chunks = l /\ Forall (fun t => t <> []) chunks /\ Forall full (removelast chunks) /\
    Forall2 (table_is e') readers chunks /\ Forall2 (meta_is demo_open e' 2) metas chunks /\
    NoDup (FileNum <$> metas) /\ grown demo_open e'.
Proof.
  intros l. apply (compaction_output_tables (fun _ => demo_io) 2 3 demo_merge demo_open l).
  - done.
  - by vm_compute.
  - repeat constructor.
  - repeat constructor; discriminate.
  - repeat constructor; by vm_compute.
  - by vm_compute.
  - by vm_compute.
Defined.
