(* ===== verification/CompactTables.v ===== *)
(** * engine/compaction.go: the tables a compaction reads and writes

    Facts about sorted tables that do not mention the shared state: choosing
    tables by key range, on the side of the readers, of the manifest and of the
    layers alike; merging them; and what happens to the tables of two
    neighbouring levels when some move down. *)

From S2P Require Import Prelude GoStd SkipList Memtable Bloom Wal SSTWriter SSTReader SSTIterator GoHeap MergeIterator Manifest Engine EngineRun Compaction CompactOutput.

(** ** Lists of tables *)

Lemma concat_elem {A} (ts : list (list A)) x : x ∈ concat ts <-> exists t, t ∈ ts /\ x ∈ t.
Proof.
  rewrite list_elem_of_In, in_concat. split; intros (t & H1 & H2); exists t; by rewrite ?list_elem_of_In in *.
Qed.

Lemma ksorted_filter (P : layer -> Prop) `{!forall t, Decision (P t)} (ts : list layer) :
  ksorted (concat ts) -> ksorted (concat (filter P ts)).
Proof.
  induction ts as [|t ts IH]; [done|]. cbn [concat]. intros (Ht & Hs & Hlt)%ksorted_app. rewrite filter_cons.
  case_decide; [|auto]. cbn [concat]. apply ksorted_app. split_and!; [done|auto|]. intros a b Ha (t' & Ht' & Hb)%concat_elem.
  apply Hlt; [done|]. apply concat_elem. exists t'. split; [|done]. by apply list_elem_of_filter in Ht' as [_ ?].
Qed.

Lemma permutation_concat (ts ts' : list layer) : ts ≡ₚ ts' -> concat ts ≡ₚ concat ts'.
Proof. induction 1; simpl; [done|by f_equiv|by rewrite !app_assoc, (Permutation_app_comm x y)|by etrans]. Qed.

Lemma filter_split {A} (P : A -> bool) (l : list A) : l ≡ₚ filter (fun x => P x = true) l ++ filter (fun x => P x = false) l.
Proof.
  induction l as [|x l IH]; [done|]. rewrite !filter_cons. destruct (P x) eqn:E; simpl; [by f_equiv|].
  rewrite <- Permutation_middle. by f_equiv.
Qed.

Lemma Forall2_filter {A B} (R : A -> B -> Prop) (P : A -> Prop) (Q : B -> Prop)
    `{!forall x, Decision (P x)} `{!forall x, Decision (Q x)} l k :
  Forall2 R l k -> (forall i x y, l !! i = Some x -> k !! i = Some y -> P x <-> Q y) -> Forall2 R (filter P l) (filter Q k).
Proof.
  induction 1 as [|x y l k Hxy HF IH]; intros HPQ; [done|]. rewrite !filter_cons.
  pose proof (HPQ 0%nat x y eq_refl eq_refl) as HPQ0. specialize (IH (fun i => HPQ (S i))).
  repeat case_decide; try tauto. by constructor.
Qed.

Lemma filter_fmap {A B} (f : A -> B) (P : B -> Prop) (Q : A -> Prop) `{!forall x, Decision (P x)} `{!forall x, Decision (Q x)} (l : list A) :
  (forall x, Q x <-> P (f x)) -> f <$> filter Q l = filter P (f <$> l).
Proof.
  intros HQ. induction l as [|x l IH]; [done|]. cbn [fmap list_fmap]. rewrite !filter_cons. specialize (HQ x).
  repeat case_decide; try tauto. simpl. by f_equal.
Qed.

Lemma filter_all {A} (P : A -> Prop) `{!forall x, Decision (P x)} (l : list A) : (forall x, x ∈ l -> P x) -> filter P l = l.
Proof.
  induction l as [|x l IH]; intros HP; [done|]. rewrite filter_cons, decide_True by (apply HP; left).
  by rewrite IH by (intros y Hy; apply HP; by right).
Qed.

Lemma forall_filter {A} (P Q : A -> Prop) `{!forall x, Decision (Q x)} (l : list A) : Forall P l -> Forall P (filter Q l).
Proof. rewrite !Forall_forall. intros HP x [_ Hx]%list_elem_of_filter. auto. Qed.

Lemma alter_alter {A} (f g : A -> A) i (l : list A) : alter g i (alter f i l) = alter (fun x => g (f x)) i l.
Proof. revert i. induction l as [|x l IH]; intros [|i]; simpl; try done. f_equal. apply IH. Qed.

(** Two neighbouring elements of a list. *)
Lemma split2 {A} (l : list A) j x y :
  l !! j = Some x -> l !! S j = Some y -> l = take j l ++ x :: y :: drop (S (S j)) l.
Proof.
  revert j. induction l as [|z l IH]; intros [|j] Hx Hy; simplify_eq/=; try done.
  - destruct l; by simplify_eq/=.
  - f_equal. by apply IH.
Qed.

Lemma alter2 {A} (f g : A -> A) (l : list A) j x y :
  l !! j = Some x -> l !! S j = Some y -> alter g (S j) (alter f j l) = take j l ++ f x :: g y :: drop (S (S j)) l.
Proof.
  revert j. induction l as [|z l IH]; intros [|j] Hx Hy; simplify_eq/=; try done.
  - destruct l; by simplify_eq/=.
  - f_equal. by apply IH.
Qed.

Lemma insert2 {A} (a b : A) (l : list A) j x y :
  l !! j = Some x -> l !! S j = Some y -> <[S j := b]> (<[j := a]> l) = take j l ++ a :: b :: drop (S (S j)) l.
Proof.
  revert j. induction l as [|z l IH]; intros [|j] Hx Hy; simplify_eq/=; try done.
  - destruct l; by simplify_eq/=.
  - f_equal. by apply IH.
Qed.

(** Two tables of a level are the same or apart. *)
Definition below (x y : layer) : Prop := forall a b, a ∈ x -> b ∈ y -> a.1 <ₖ b.1.

Lemma tables_apart ts x y : ksorted (concat ts) -> x ∈ ts -> y ∈ ts -> x = y \/ below x y \/ below y x.
Proof.
  induction ts as [|t ts IH]; [by intros _ ?%elem_of_nil|]. cbn [concat]. intros (Ht & Hs & Hlt)%ksorted_app.
  assert (forall z, z ∈ ts -> below t z) as Hb by (intros z Hz a b Ha Hb; apply Hlt; [done|]; apply concat_elem; eauto).
  intros [->|Hx]%elem_of_cons [->|Hy]%elem_of_cons; auto.
Qed.

Section level.
Context (ts : list layer) (Hs : ksorted (concat ts)) (Hne : Forall (fun t : layer => t <> []) ts).

Lemma table_sorted t : t ∈ ts -> ksorted t.
Proof using Hs. intros (pre & post & Heq)%list_elem_of_split. rewrite Heq in Hs. by apply concat_split in Hs as (? & _). Qed.

Lemma tables_nodup : NoDup (range_of <$> ts).
Proof using Hs Hne.
  pose proof (ranges_sorted ts Hs Hne) as H. induction H as [|r l H IH Hf]; constructor; [|done].
  intros Hin. rewrite Forall_forall in Hf. apply Hf in Hin. by apply blt_irrefl in Hin.
Qed.

(** The tables that end below [lo], and those that start above [hi], are
    apart from those in between. *)
Lemma below_between lo x y :
  x ∈ ts -> y ∈ ts -> (range_of x).2 <ₖ lo -> ~ (range_of y).2 <ₖ lo -> below x y.
Proof using Hs Hne.
  intros Hx Hy Hlt Hge. destruct (tables_apart ts x y Hs Hx Hy) as [->|[?|Hb]]; [done|done|]. exfalso.
  rewrite Forall_forall in Hne. pose proof (range_last_mem x (Hne x Hx)) as (a & Ha & Hxa)%list_elem_of_fmap.
  pose proof (range_last_mem y (Hne y Hy)) as (b & Hb' & Hyb)%list_elem_of_fmap.
  specialize (Hb b a Hyb Hxa). apply Hge. rewrite Hb'. eapply blt_trans; [exact Hb|]. by rewrite <- Ha.
Qed.

Lemma above_between hi x y :
  x ∈ ts -> y ∈ ts -> hi <ₖ (range_of x).1 -> ~ hi <ₖ (range_of y).1 -> below y x.
Proof using Hs Hne.
  intros Hx Hy Hlt Hge. destruct (tables_apart ts x y Hs Hx Hy) as [->|[Hb|?]]; [done| |done]. exfalso.
  rewrite Forall_forall in Hne. pose proof (range_first_mem x (Hne x Hx)) as (a & Ha & Hxa)%list_elem_of_fmap.
  pose proof (range_first_mem y (Hne y Hy)) as (b & Hb' & Hyb)%list_elem_of_fmap.
  specialize (Hb a b Hxa Hyb). apply Hge. rewrite Hb'. eapply blt_trans; [|exact Hb]. by rewrite <- Ha.
Qed.
End level.

(** ** Choosing tables by range *)

Definition hits (lo hi : bytes) (r : bytes * bytes) : bool := negb (bltb hi r.1 || bltb r.2 lo).

Lemma same_range_with r t meta :
  table_repr r t -> t <> [] ->
  same_range r meta = with_range (fun lo hi => beqb lo (Manifest.MinKey meta) && beqb hi (Manifest.MaxKey meta)) r.
Proof. intros Hr Hne. destruct (table_range r t Hr Hne) as [H1 H2]. unfold same_range, with_range. by rewrite H1, H2. Qed.

(** ** The merge of the chosen tables *)

Lemma table_clean r l : table_repr r l -> clean l.
Proof.
  intros (bs & _ & _ & Heq). apply Forall_forall. intros [k v] Hin Hv. simpl in Hv. subst v.
  assert (mem_entry (k, Some []) ∈ norm_entry <$> concat bs) as (x & Hx & _)%list_elem_of_fmap.
  { rewrite Heq. apply list_elem_of_fmap. by eexists. }
  injection Hx as _ Hx _. destruct (e_tombstone x); [done|]. by destruct (e_value x) as [[|b v]|].
Qed.

Lemma tables_clean e ps ts : Forall2 (table_is e) ps ts -> clean (concat ts).
Proof.
  induction 1 as [|p t ps ts (r & _ & Hr) HF IH]; [constructor|]. cbn [concat]. apply Forall_app_2; [by eapply table_clean|done].
Qed.

Definition untag (x : entry) : bytes * option bytes := (e_key x, e_value x).

Lemma mem_entries_untag out :
  Forall (fun x => e_tombstone x = bool_decide (e_value x = None)) out -> mem_entries (untag <$> out) = out.
Proof.
  unfold mem_entries. induction 1 as [|[k v t] out Hx _ IH]; [done|]. cbn [fmap list_fmap] in *. rewrite IH.
  f_equal. unfold mem_entry, untag. simpl in *. by rewrite Hx.
Qed.

Lemma ksorted_nodup (l : layer) : ksorted l -> NoDup l.
Proof.
  induction l as [|[k v] l IH]; [constructor|]. intros [Hf Hs]%ksorted_cons. constructor; [|auto].
  intros Hin. rewrite Forall_forall in Hf. apply Hf in Hin. by apply blt_irrefl in Hin.
Qed.

Lemma ble_nil k : [] ≤ₖ k.
Proof. by destruct k. Qed.

(** What a merge yields depends on the priorities only. *)
Lemma zip_elem {A B} (P : list A) (R : list B) p l : (p, l) ∈ zip P R <-> exists j, P !! j = Some p /\ R !! j = Some l.
Proof.
  rewrite list_elem_of_lookup. split; intros (j & H); exists j.
  - apply lookup_zip_with_Some in H as (? & ? & [= -> ->] & ? & ?). done.
  - apply lookup_zip_with_Some. eexists _, _. by split_and!; [|apply H..].
Qed.

Lemma merges_perm P R P' R' out :
  zip P R ≡ₚ zip P' R' -> length P = length R -> length P' = length R' -> merges P R out -> merges P' R' out.
Proof.
  intros Hp Hl Hl' [M1 M2 M3].
  assert (forall p l, (exists j, P !! j = Some p /\ R !! j = Some l) <-> (exists j, P' !! j = Some p /\ R' !! j = Some l)) as Heq.
  { intros p l. by rewrite <- !zip_elem, Hp. }
  split; [done|..].
  - intros x Hx. destruct (M2 x Hx) as (j & l & p & Hj & Hpj & Hin & Hmin). destruct (proj1 (Heq p l)) as (j' & Hp' & Hj'); [eauto|].
    exists j', l, p. split_and!; try done. intros i l' p' Hi Hpi Hlt. destruct (proj2 (Heq p' l')) as (i' & ? & ?); [eauto|]. eauto.
  - intros j l x Hj Hx. destruct (lookup_lt_is_Some_2 P' j) as [p Hpj]; [rewrite Hl'; by eapply lookup_lt_Some|].
    destruct (proj2 (Heq p l)) as (j' & _ & ?); [eauto|]. eauto.
Qed.

Lemma zip_fmap_perm {A B C} (f : B -> C) (P P' : list A) (R R' : list B) : zip P R ≡ₚ zip P' R' -> zip P (f <$> R) ≡ₚ zip P' (f <$> R').
Proof.
  assert (forall (P : list A) R, zip P (f <$> R) = prod_map id f <$> zip P R) as H.
  { intros Q. induction Q as [|q Q IH]; intros [|r T]; [done..|]. cbn [zip_with fmap list_fmap]. by rewrite <- IH. }
  intros Hp. by rewrite !H, Hp.
Qed.

Lemma zip_snd_perm {A B} (P P' : list A) (R R' : list B) :
  zip P R ≡ₚ zip P' R' -> length P = length R -> length P' = length R' -> R ≡ₚ R'.
Proof. intros Hp H1 H2. apply (fmap_Permutation snd) in Hp. by rewrite !snd_zip in Hp by lia. Qed.

(** A merge of tables by priority is one sorted layer with the view of the
    tables in that order. *)
Lemma merge_iters its ts' P ts fuel :
  Forall2 stands its (mem_entries <$> ts') -> Forall (fun l : layer => ksorted l) ts -> length P = length its ->
  zip P ts' ≡ₚ zip (seqZ 0 (len ts)) ts -> (length (concat ts) < fuel)%nat ->
  exists m m' l, NewMergeIterator its P = Ok m /\ MergeIterator_SeekToFirst m = Ok m' /\ mi_drain fuel m' = Ok (mem_entries l) /\ ksorted l /\
    (forall k, assoc k l = view k ts) /\ (forall x, x ∈ l -> x ∈ concat ts) /\ len l <= len (concat ts).
Proof.
  intros Hits Hts HP Hz Hfuel. assert (length P = length ts') as HP' by (apply Forall2_length in Hits; rewrite length_fmap in Hits; lia).
  assert (length (seqZ 0 (len ts)) = length ts) as Hlen by (rewrite length_seqZ; unfold len; lia).
  pose proof (zip_snd_perm _ _ _ _ Hz HP' Hlen) as Hp.
  destruct (seek_all_ok SeekToFirst (fun all => all) its P (mem_entries <$> ts')) as (m & m' & Em & Es & Hc & Hsort); [|done|done|].
  { intros it all rest. apply law_first. }
  assert ((fun all => all) <$> (mem_entries <$> ts') = filter (fun x => [] ≤ₖ e_key x) <$> (mem_entries <$> ts')) as Hid.
  { apply list_fmap_ext. intros i x _. symmetry. apply filter_all. intros y _. apply ble_nil. }
  rewrite Hid in Hc, Hsort.
  destruct (mi_drain_ok fuel _ _ _ Hc) as (out & Ed & Hm).
  { pose proof (total_filter [] ts'). rewrite (Permutation_length (permutation_concat _ _ Hp)) in *. lia. }
  apply merged_merges in Hm; [|done].
  apply (merges_perm _ _ (seqZ 0 (len ts)) (filter (fun x => [] ≤ₖ e_key x) <$> (mem_entries <$> ts))) in Hm;
    [|by do 2 apply zip_fmap_perm|by rewrite !length_fmap..].
  destruct (merges_view [] ts out Hts Hm) as [Ht Hout].
  assert (ksorted (untag <$> out)) as Hs.
  { apply esorted_mem. rewrite <- (mem_entries_untag out Ht) in Hm. exact (mg_sorted _ _ _ Hm). }
  assert (forall k v, (k, v) ∈ untag <$> out <-> view k ts = Some v) as Hin.
  { intros k v. transitivity (mem_entry (k, v) ∈ out); [|rewrite Hout; pose proof (ble_nil k); tauto].
    rewrite <- (mem_entries_untag out Ht) at 2. unfold mem_entries. rewrite list_elem_of_fmap_inj; [done|].
    intros [k1 v1] [k2 v2] [= -> -> _]. done. }
  assert (forall x, x ∈ untag <$> out -> x ∈ concat ts) as Hsub.
  { intros [k v] (j & t & Hj & Hv)%Hin%view_Some. apply concat_elem. exists t. split; [by eapply list_elem_of_lookup_2|by apply assoc_Some]. }
  exists m, m', (untag <$> out). split_and!; [done|done|by rewrite mem_entries_untag|done| |done|].
  - intros k. destruct (view k ts) as [v|] eqn:Ev; [by apply assoc_elem, Hin|].
    apply assoc_None. intros ([k' v] & -> & Hx)%list_elem_of_fmap. apply Hin in Hx. simpl in Ev. congruence.
  - unfold len. apply Nat2Z.inj_le, submseteq_length, NoDup_submseteq; [by apply ksorted_nodup|done].
Qed.

(** ** The layers of two neighbouring levels *)

Lemma between a b c d : a ≤ₖ b -> b <ₖ c -> c ≤ₖ d -> a <ₖ d.
Proof. intros Hab Hbc Hcd. eapply ble_lt_trans; [exact Hab|]. by eapply blt_le_trans. Qed.

Section moving.
Context (ts1 ts2 : list layer) (Hs1 : ksorted (concat ts1)) (Hne1 : Forall (fun t : layer => t <> []) ts1).
Context (Hs2 : ksorted (concat ts2)) (Hne2 : Forall (fun t : layer => t <> []) ts2).
Context (t l : layer) (ov chunks : list layer) (Ht : t ∈ ts1).

Definition same (r : bytes * bytes) : bool := bool_decide (r = range_of t).
Definition over (r : bytes * bytes) : bool := hits (range_of t).1 (range_of t).2 r.

Context (Hov : ov ≡ₚ filter (fun x => over (range_of x) = true) ts2).
Context (Hl : ksorted l) (Hview : forall k, assoc k l = view k (t :: ov)) (Hsub : forall x, x ∈ l -> x ∈ concat (t :: ov)).
Context (Hchunks : concat chunks = l) (Hnec : Forall (fun t : layer => t <> []) chunks).

Definition left_of : list layer := filter (fun x => bltb (range_of x).2 (range_of t).1 = true) ts2.
Definition right_of : list layer := filter (fun x => bltb (range_of t).2 (range_of x).1 = true) ts2.
Definition moved_src : list layer := filter (fun x => same (range_of x) = false) ts1.
Definition moved_dst : list layer := left_of ++ chunks ++ right_of.

Lemma t_range : (range_of t).1 ≤ₖ (range_of t).2.
Proof using Hs1 Hne1 Ht.
  rewrite Forall_forall in Hne1.
  by destruct (range_bounds t _ (table_sorted ts1 Hs1 t Ht) (range_first_mem t (Hne1 t Ht))).
Qed.

Lemma table_bounds_in (ts : list layer) x a : ksorted (concat ts) -> x ∈ ts -> a ∈ x -> (range_of x).1 ≤ₖ a.1 /\ a.1 ≤ₖ (range_of x).2.
Proof using. intros Hs Hx Ha. apply range_bounds; [by apply (table_sorted ts)|]. apply list_elem_of_fmap. eauto. Qed.

(** Where an entry of the merge comes from. *)
Lemma merged_entry a : a ∈ l -> a ∈ t \/ exists x, x ∈ ts2 /\ over (range_of x) = true /\ a ∈ x.
Proof using Hsub Hov.
  intros [Ha|(x & Hx & Ha)%concat_elem]%Hsub%elem_of_app; [by left|right]. exists x. rewrite Hov in Hx.
  apply list_elem_of_filter in Hx as [? ?]. done.
Qed.

Lemma left_below a b : a ∈ concat left_of -> b ∈ l -> a.1 <ₖ b.1.
Proof using Hs1 Hs2 Hne2 Ht Hsub Hov.
  intros (x & [Hlt%bltb_spec Hx]%list_elem_of_filter & Ha)%concat_elem [Hb|(y & Hy & Hover & Hb)]%merged_entry.
  - destruct (table_bounds_in _ x a Hs2 Hx Ha) as [_ Hax], (table_bounds_in _ t b Hs1 Ht Hb) as [Htb _].
    by apply (between _ _ _ _ Hax Hlt Htb).
  - apply (below_between ts2 Hs2 Hne2 (range_of t).1 x y); try done. unfold over, hits in Hover.
    apply negb_true_iff, orb_false_iff in Hover as [_ Hf]. rewrite <- bltb_spec. congruence.
Qed.

Lemma right_above a b : a ∈ l -> b ∈ concat right_of -> a.1 <ₖ b.1.
Proof using Hs1 Hs2 Hne2 Ht Hsub Hov.
  intros [Ha|(y & Hy & Hover & Ha)]%merged_entry (x & [Hlt%bltb_spec Hx]%list_elem_of_filter & Hb)%concat_elem.
  - destruct (table_bounds_in _ x b Hs2 Hx Hb) as [Hxb _], (table_bounds_in _ t a Hs1 Ht Ha) as [_ Hat].
    by apply (between _ _ _ _ Hat Hlt Hxb).
  - apply (above_between ts2 Hs2 Hne2 (range_of t).2 x y); try done. unfold over, hits in Hover.
    apply negb_true_iff, orb_false_iff in Hover as [Hf _]. rewrite <- bltb_spec. congruence.
Qed.

Lemma left_right a b : a ∈ concat left_of -> b ∈ concat right_of -> a.1 <ₖ b.1.
Proof using Hs1 Hne1 Hs2 Ht.
  intros (x & [Hlt%bltb_spec Hx]%list_elem_of_filter & Ha)%concat_elem (y & [Hlt'%bltb_spec Hy]%list_elem_of_filter & Hb)%concat_elem.
  destruct (table_bounds_in _ x a Hs2 Hx Ha) as [_ Hax], (table_bounds_in _ y b Hs2 Hy Hb) as [Hyb _]. 
  eapply between; [exact Hax| |exact Hyb]. eapply blt_trans; [|exact Hlt']. eapply blt_le_trans; [exact Hlt|exact t_range].
Qed.

Lemma moved_dst_sorted : ksorted (concat moved_dst).
Proof using All.
  unfold moved_dst. rewrite !concat_app, Hchunks. rewrite !ksorted_app.
  split_and!; [by apply ksorted_filter|done|by apply ksorted_filter|apply right_above|].
  intros a b Ha [Hb|Hb]%elem_of_app; [by apply left_below|by apply left_right].
Qed.

Lemma moved_dst_perm : moved_dst ≡ₚ filter (fun x => over (range_of x) = false) ts2 ++ chunks.
Proof using Hs1 Hne1 Ht Hs2 Hne2.
  unfold moved_dst. rewrite (Permutation_app_comm chunks), app_assoc. f_equiv. unfold left_of, right_of.
  pose proof t_range as Htr. assert (forall x, x ∈ ts2 -> (range_of x).1 ≤ₖ (range_of x).2) as Hxr.
  { intros x Hx. rewrite Forall_forall in Hne2.
    by destruct (range_bounds x _ (table_sorted ts2 Hs2 x Hx) (range_first_mem x (Hne2 x Hx))). }
  clear Hs2 Hne2 Hov Hview Hsub Hchunks Hl. induction ts2 as [|x ts IH]; [done|]. rewrite !filter_cons.
  specialize (IH (fun y Hy => Hxr y ltac:(by right))). specialize (Hxr x ltac:(left)).
  assert (over (range_of x) = negb (bltb (range_of t).2 (range_of x).1 || bltb (range_of x).2 (range_of t).1)) as Ho by done.
  destruct (over (range_of x));
    destruct (bltb (range_of x).2 (range_of t).1) eqn:E1, (bltb (range_of t).2 (range_of x).1) eqn:E2; simplify_eq/=; [done|..].
  - exfalso. apply bltb_spec in E1, E2. apply (blt_irrefl (range_of x).1).
    eapply between; [exact Hxr|exact E1|]. eapply ble_trans; [exact Htr|by apply blt_ble].
  - by f_equiv.
  - rewrite <- Permutation_middle. by f_equiv.
Qed.

Lemma moved_src_perm : ts1 ≡ₚ t :: moved_src.
Proof using Hs1 Hne1 Ht.
  assert (filter (fun x => same (range_of x) = true) ts1 ≡ₚ [t]) as H.
  { apply NoDup_Permutation; [|apply NoDup_singleton|].
    - apply NoDup_filter. eapply NoDup_fmap_1. by apply tables_nodup.
    - intros x. rewrite list_elem_of_filter, list_elem_of_singleton. unfold same. rewrite bool_decide_eq_true. split.
      + intros [Heq Hx]. apply (range_inj ts1); try done. by rewrite Heq.
      + by intros ->. }
  rewrite (filter_split (fun x => same (range_of x)) ts1) at 1. by rewrite H.
Qed.

Lemma assoc_src k :
  assoc k (concat ts1) = match assoc k (concat moved_src) with Some v => Some v | None => assoc k t end.
Proof using Hs1 Hne1 Ht.
  rewrite <- assoc_app. symmetry. apply assoc_permutation; [done|]. rewrite (permutation_concat _ _ moved_src_perm).
  simpl. apply Permutation_app_comm.
Qed.

Lemma assoc_dst k :
  assoc k (concat ts2) = match assoc k (concat ov) with
    | Some v => Some v
    | None => assoc k (concat (filter (fun x => over (range_of x) = false) ts2))
    end.
Proof using Hs2 Hov.
  rewrite <- assoc_app, <- concat_app. symmetry. apply assoc_permutation; [done|]. apply permutation_concat.
  rewrite Hov. symmetry. apply (filter_split (fun x => over (range_of x))).
Qed.

(** The two levels answer as before. *)
Lemma moved_view k : view k [concat moved_src; concat moved_dst] = view k [concat ts1; concat ts2].
Proof using All.
  assert (assoc k (concat moved_dst) = match assoc k l with
    | Some v => Some v
    | None => assoc k (concat (filter (fun x => over (range_of x) = false) ts2))
    end) as Hd.
  { rewrite <- assoc_app. symmetry. apply assoc_permutation; [exact moved_dst_sorted|].
    rewrite (permutation_concat _ _ moved_dst_perm), concat_app, Hchunks. apply Permutation_app_comm. }
  simpl. rewrite Hd, Hview, assoc_src, assoc_dst. simpl. rewrite view_concat.
  by destruct (assoc k (concat moved_src)), (assoc k t).
Qed.

Lemma moved_length : len l <= len (concat (t :: ov)) ->
  len (concat moved_src) + len (concat moved_dst) <= len (concat ts1) + len (concat ts2).
Proof using Hs1 Hne1 Hs2 Hne2 Ht Hov Hchunks.
  pose proof (Permutation_length (permutation_concat _ _ moved_src_perm)) as L1.
  pose proof (Permutation_length (permutation_concat _ _ moved_dst_perm)) as L2.
  pose proof (Permutation_length (permutation_concat _ _ (filter_split (fun x => over (range_of x)) ts2))) as L3.
  pose proof (Permutation_length (permutation_concat _ _ Hov)) as L4.
  rewrite concat_app, length_app in L2, L3. cbn [concat] in L1. rewrite length_app in L1. rewrite Hchunks in L2.
  unfold len. cbn [concat]. rewrite length_app. lia.
Qed.

Lemma moved_dst_nonempty : Forall (fun t : layer => t <> []) moved_dst.
Proof using Hne2 Hnec. unfold moved_dst. rewrite !Forall_app. split_and!; [by apply forall_filter|done|by apply forall_filter]. Qed.

Lemma moved_elem x : x ∈ concat moved_src \/ x ∈ concat moved_dst -> x ∈ concat ts1 \/ x ∈ concat ts2.
Proof using Hs1 Hne1 Hs2 Hne2 Ht Hov Hsub Hchunks.
  rewrite (permutation_concat _ _ moved_src_perm), (permutation_concat _ _ moved_dst_perm), concat_app, Hchunks. cbn [concat].
  rewrite !elem_of_app. intros [Hx|[Hx|[Hx|(y & Hy & _ & Hx)]%merged_entry]]; [by left; right| |by left; left|right].
  - right. apply concat_elem in Hx as (y & [_ Hy]%list_elem_of_filter & Hx). apply concat_elem. eauto.
  - apply concat_elem. eauto.
Qed.
End moving.
