(* ===== verification/Shelf.v ===== *)
(** * engine/engine.go: readers, manifest entries and files of the tables

    A table of the engine has a reader in [levels], an entry in the manifest
    and a file on disk.  Three goroutines change them: a flush adds to L0, first
    to the manifest and then to [levels], and a compaction replaces tables of
    two neighbouring levels.  [stored] says what the manifest and the files
    hold, [shelf] what the readers are, [job_ok] what a compaction that has
    written its output is going to install. *)

From S2P Require Import Prelude GoStd SkipList Memtable Bloom Wal SSTWriter SSTReader SSTIterator GoHeap MergeIterator Manifest Engine EngineRun Compaction CompactOutput CompactTables.

(** ** Tables in their places *)

(** A table [sl_tab], its reader and its manifest entry. *)
Record slot := mkSlot {
  sl_ptr : nat;
  sl_meta : FileMetadata;
  sl_tab : layer
}.

Definition sl_num (s : slot) : Z := FileNum (sl_meta s).

Definition held (e : Engine) (s : slot) : Prop := table_is e (sl_ptr s) (sl_tab s).

(** The entry describes the table and numbers its complete durable file. *)
Definition filed (e : Engine) (s : slot) : Prop :=
  meta_range (sl_meta s) = range_of (sl_tab s) /\ 0 <= sl_num s < e_nextFileNum e /\
  exists f, e_files e !! sl_num s = Some f /\ table_file f (sl_tab s).

(** The tables of a level below L0, in key order. *)
Definition ordered (tabs ts : list layer) : Prop :=
  ts ≡ₚ tabs /\ ksorted (concat ts) /\ Forall (fun t => t <> []) ts.

(** The manifest file is intact and can be written. *)
Definition sound (n : nat) (m : Manifest) : Prop := exists f recs, mf_repr n m f recs /\ healthy f.

(** ** The disk *)

(** The manifest and the table files hold [S0] in L0 and [D] in the levels
    below, whose tables are [deep] in key order. *)
Record stored (n : nat) (e : Engine) (S0 : list slot) (D : list (list slot)) (deep : list (list layer)) : Prop := {
  sd_sound : sound (S n) (e_manifest e);
  sd_levels : mf_levels (e_manifest e) = fmap (M:=list) sl_meta <$> (S0 :: D);
  sd_files : Forall (filed e) (S0 ++ concat D);
  sd_nums : NoDup (sl_num <$> S0 ++ concat D);
  sd_l0 : Forall (fun s => sl_tab s <> []) S0;
  sd_order : Forall2 (fun l ts => ordered (sl_tab <$> l) ts) D deep;
  sd_next : 0 <= e_nextFileNum e < 2 ^ 64;
  sd_opts : MaxLevels (e_opts e) = Z.of_nat (S n)
}.

(** ** The readers *)

(** [xs] is the table a flush has recorded and not yet published, [ys] are the
    tables a compaction has written and not yet installed. *)
Record shelf (e : Engine) (S0 : list slot) (D : list (list slot)) (xs ys : list slot) : Prop := {
  sh_levels : e_levels e = fmap (M:=list) sl_ptr <$> (S0 :: D);
  sh_held : Forall (held e) ((S0 ++ xs) ++ concat D ++ ys);
  sh_new : Forall (filed e) ys;
  sh_ptrs : NoDup (sl_ptr <$> (S0 ++ xs) ++ concat D ++ ys);
  sh_nums : NoDup (sl_num <$> (S0 ++ xs) ++ concat D ++ ys)
}.

(** ** A compaction under way *)

Inductive cpc :=
| CIdle
| CWritten (c : compaction).

(** The compaction [c] of level [j] replaces the tables [src] of that level and
    those of the next that overlap them by [ys].  [vt] is what the source
    tables hold together. *)
Record job (c : compaction) (S0 : list slot) (D : list (list slot)) (ys : list slot)
    (j : nat) (src rest dst : list slot) (vt : layer) : Prop := {
  jb_level : c_level c = Z.of_nat j;
  jb_width : Z.of_nat (S j) < 2 ^ 32;
  jb_src : (S0 :: D) !! j = Some (src ++ rest);
  jb_dst : D !! j = Some dst;
  jb_srcReaders : c_srcReaders c = sl_ptr <$> src;
  jb_srcMetas : c_srcMetas c = sl_meta <$> src;
  jb_dstReaders : c_dstReaders c = sl_ptr <$> filter (fun s => over vt (range_of (sl_tab s)) = true) dst;
  jb_dstMetas : c_dstMetas c = sl_meta <$> filter (fun s => over vt (range_of (sl_tab s)) = true) dst;
  jb_newReaders : c_newReaders c = sl_ptr <$> ys;
  jb_newMetas : c_newMetas c = sl_meta <$> ys;
  jb_fits : Forall (fun s => meta_fits (sl_meta s) /\ Level (sl_meta s) = Z.of_nat (S j)) ys;
  jb_nonempty : Forall (fun s => sl_tab s <> []) ys;
  jb_vt : ksorted vt /\ vt <> [] /\ match j with O => True | S _ => exists s, src = [s] /\ vt = sl_tab s end;
  jb_sorted : ksorted (concat (sl_tab <$> ys));
  jb_view : forall k, assoc k (concat (sl_tab <$> ys)) =
    view k (vt :: (sl_tab <$> filter (fun s => over vt (range_of (sl_tab s)) = true) dst));
  jb_elem : forall x, x ∈ concat (sl_tab <$> ys) ->
    x ∈ concat (vt :: (sl_tab <$> filter (fun s => over vt (range_of (sl_tab s)) = true) dst));
  jb_less : len (concat (sl_tab <$> ys)) <= len (concat (sl_tab <$> src ++ filter (fun s => over vt (range_of (sl_tab s)) = true) dst)) /\
    forall x, x ∈ concat (sl_tab <$> ys) -> x ∈ concat (sl_tab <$> src ++ filter (fun s => over vt (range_of (sl_tab s)) = true) dst)
}.

(** Its sources are searched from the newest to the oldest. *)
Definition job_ok (cp : cpc) (S0 : list slot) (D : list (list slot)) (ys : list slot) : Prop :=
  match cp with
  | CIdle => ys = []
  | CWritten c => exists j src rest dst vt, job c S0 D ys j src rest dst vt /\
      forall k, assoc k vt = view k (reverse (sl_tab <$> src))
  end.

(** The table of a flush that is recorded but not published. *)
Definition pc_slots (pc : fpc) (imms : list layer) (xs : list slot) : Prop :=
  match pc with
  | FWritten _ p => exists meta l, xs = [mkSlot p meta l] /\ last imms = Some l
  | _ => xs = []
  end.

(** ** What keeps them *)

Lemma held_mono e e' l : (forall p r, e_rdrs e !! p = Some r -> e_rdrs e' !! p = Some r) -> Forall (held e) l -> Forall (held e') l.
Proof. intros H HF. eapply Forall_impl; [exact HF|]. intros s. by apply table_is_mono. Qed.

Lemma filed_mono e e' l :
  e_nextFileNum e <= e_nextFileNum e' -> (forall k, k < e_nextFileNum e -> e_files e' !! k = e_files e !! k) ->
  Forall (filed e) l -> Forall (filed e') l.
Proof.
  intros Hn Hf HF. eapply Forall_impl; [exact HF|]. intros s (Hr & Hb & f & Ef & Ht). split_and!; try done; try lia.
  exists f. by rewrite Hf by lia.
Qed.

Lemma stored_mono n e e' S0 D deep :
  e_manifest e' = e_manifest e -> e_opts e' = e_opts e -> e_nextFileNum e <= e_nextFileNum e' < 2 ^ 64 ->
  (forall k, k < e_nextFileNum e -> e_files e' !! k = e_files e !! k) -> stored n e S0 D deep -> stored n e' S0 D deep.
Proof.
  intros Hm Ho Hn Hf [D1 D2 D3 D4 D5 D6 D7 D8]. split; rewrite ?Hm, ?Ho; try done; [|lia]. by apply (filed_mono e); [lia|..].
Qed.

Lemma stored_same n e e' S0 D deep :
  e_manifest e' = e_manifest e -> e_files e' = e_files e -> e_nextFileNum e' = e_nextFileNum e -> e_opts e' = e_opts e ->
  stored n e S0 D deep -> stored n e' S0 D deep.
Proof. intros Hm Hf Hn Ho Hs. pose proof (sd_next _ _ _ _ _ Hs). apply (stored_mono n e); rewrite ?Hn, ?Hf; try done. lia. Qed.

Lemma shelf_mono e e' S0 D xs ys :
  e_levels e' = e_levels e -> (forall p r, e_rdrs e !! p = Some r -> e_rdrs e' !! p = Some r) ->
  e_nextFileNum e <= e_nextFileNum e' -> (forall k, k < e_nextFileNum e -> e_files e' !! k = e_files e !! k) ->
  shelf e S0 D xs ys -> shelf e' S0 D xs ys.
Proof.
  intros Hl Hr Hn Hf [H1 H2 H3 H4 H5]. split; try done; [by rewrite Hl|by apply (held_mono e)|by apply (filed_mono e)].
Qed.

Lemma shelf_same e e' S0 D xs ys :
  e_levels e' = e_levels e -> e_rdrs e' = e_rdrs e -> e_nextFileNum e' = e_nextFileNum e -> e_files e' = e_files e ->
  shelf e S0 D xs ys -> shelf e' S0 D xs ys.
Proof. intros Hl Hr Hn Hf. apply shelf_mono; rewrite ?Hl, ?Hr, ?Hn, ?Hf; done || lia. Qed.

(** L0 grows behind what a compaction has read. *)
Lemma job_ok_publish cp S0 D ys x : job_ok cp S0 D ys -> job_ok cp (S0 ++ [x]) D ys.
Proof.
  destruct cp as [|c]; [done|]. intros (j & src & rest & dst & vt & [J1 J0 J2 J3 J4 J5 J6 J7 J8 J9 J10 J11 J12 J13 J14 J15 J16] & Hv).
  destruct j as [|j].
  - exists 0%nat, src, (rest ++ [x]), dst, vt. split; [|done]. split; try done. injection J2 as ->. simpl. by rewrite app_assoc.
  - by exists (S j), src, rest, dst, vt.
Qed.

(** The pointers of a shelf are those of open readers. *)
Lemma shelf_allocated e S0 D xs ys s : shelf e S0 D xs ys -> s ∈ (S0 ++ xs) ++ concat D ++ ys -> (sl_ptr s < length (e_rdrs e))%nat.
Proof.
  intros Hs Hin. pose proof (sh_held _ _ _ _ _ Hs) as HF. rewrite Forall_forall in HF. destruct (HF s Hin) as (r & Hr & _).
  by eapply lookup_lt_Some.
Qed.

Lemma stored_bound n e S0 D deep s : stored n e S0 D deep -> s ∈ S0 ++ concat D -> 0 <= sl_num s < e_nextFileNum e.
Proof. intros Hs Hin. pose proof (sd_files _ _ _ _ _ Hs) as HF. rewrite Forall_forall in HF. by destruct (HF s Hin) as (_ & ? & _). Qed.

(** ** What the engine reads *)

Lemma GetLevel_lookup m j : Manifest_GetLevel (Z.of_nat j) m = default [] (mf_levels m !! j).
Proof.
  unfold Manifest_GetLevel. rewrite (proj2 (Z.ltb_ge _ 0)) by lia. simpl. destruct (Z.leb_spec (len (mf_levels m)) (Z.of_nat j)) as [H|H].
  - unfold len in H. by rewrite lookup_ge_None_2 by lia.
  - by rewrite Nat2Z.id.
Qed.

Lemma held_Forall2 e l : Forall (held e) l -> Forall2 (table_is e) (sl_ptr <$> l) (sl_tab <$> l).
Proof. induction 1 as [|s l Hs HF IH]; constructor; done. Qed.

Lemma filed_ranges e l : Forall (filed e) l -> meta_range <$> (sl_meta <$> l) = range_of <$> (sl_tab <$> l).
Proof. induction 1 as [|s l (Hr & _) HF IH]; [done|]. cbn [fmap list_fmap]. by rewrite IH, Hr. Qed.

Lemma forall_level {A} (P : A -> Prop) (D : list (list A)) i l : Forall P (concat D) -> D !! i = Some l -> Forall P l.
Proof. intros HF Hi. rewrite Forall_concat in HF. by apply (Forall_lookup_1 _ _ _ _ HF Hi). Qed.

(** Readers and manifest that agree represent the tables. *)
Lemma shelf_tables n e S0 D xs ys deep :
  stored n e (S0 ++ xs) D deep -> shelf e S0 D xs ys -> tables_repr e (sl_tab <$> S0) deep.
Proof.
  intros [D1 D2 D3 D4 D5 D6 D7 D8] [H1 H2 H3 H4 H5]. apply Forall_app in H2 as [[H20 _]%Forall_app [H2 _]%Forall_app].
  apply Forall_app in D3 as [_ D3].
  exists (sl_ptr <$> S0), (fmap (M:=list) sl_ptr <$> D). split_and!; [done|by apply held_Forall2|by rewrite length_fmap, (Forall2_length _ _ _ D6)|].
  intros i ps ts Hi Hts. rewrite list_lookup_fmap in Hi. apply fmap_Some in Hi as (l & Hl & ->).
  destruct (Forall2_lookup_lr _ _ _ _ _ _ D6 Hl Hts) as (O1 & O2 & O3). split; [done|done|..].
  - exists (sl_tab <$> l). split; [done|]. apply held_Forall2. by eapply forall_level.
  - rewrite GetLevel_lookup, D2. change ((fmap (M:=list) sl_meta <$> (S0 ++ xs) :: D) !! S i) with ((fmap (M:=list) sl_meta <$> D) !! i).
    rewrite list_lookup_fmap, Hl. change (default [] (fmap (M:=list) sl_meta <$> Some l)) with (sl_meta <$> l).
    rewrite (filed_ranges e l) by (by eapply forall_level). by rewrite O1.
Qed.

(** ** The entries of the tables *)

(** The entries of all blocks of a table, and those of the tables in [levels]. *)
Definition reader_entries (r : Reader) : list entry :=
  concat ((fun ie => match decodeBlock (sr_data r) (ie_offset ie) (ie_blockSize ie) with Ok es => es | _ => [] end) <$> sr_index r).

Definition tables_entries (e : Engine) (ps : list nat) : list entry :=
  concat ((fun p => match e_rdrs e !! p with Some r => reader_entries r | None => [] end) <$> ps).

Definition shelf_entries (e : Engine) : list entry := tables_entries e (concat (e_levels e)).

Lemma reader_entries_repr r l : table_repr r l -> reader_entries r = mem_entries l.
Proof.
  intros (bs & Hr & _ & Heq). unfold mem_entries. rewrite <- Heq. unfold reader_entries. rewrite (rr_index _ _ Hr).
  assert (forall post pre, bs = pre ++ post -> concat ((fun ie => match decodeBlock (sr_data r) (ie_offset ie) (ie_blockSize ie) with Ok es => es | _ => [] end)
    <$> index_of (len (blocks_bytes pre)) post) = norm_entry <$> concat post) as H; [|by apply (H bs [])].
  induction post as [|b post IH]; intros pre Hbs; [done|]. cbn [index_of fmap list_fmap concat ie_offset ie_blockSize].
  rewrite (rr_blocks _ _ Hr pre b post Hbs), fmap_app. f_equal.
  specialize (IH (pre ++ [b])). rewrite blocks_bytes_snoc, len_app in IH. apply IH. by rewrite <- app_assoc.
Qed.

Lemma tables_entries_held e l : Forall (held e) l -> tables_entries e (sl_ptr <$> l) = mem_entries (concat (sl_tab <$> l)).
Proof.
  induction 1 as [|s l (r & Hr & Ht) HF IH]; [done|]. unfold tables_entries, mem_entries in *. cbn [fmap list_fmap concat].
  rewrite Hr, (reader_entries_repr _ _ Ht), fmap_app. f_equal. exact IH.
Qed.

Lemma concat_fmap {A B} (f : A -> B) (D : list (list A)) : concat (fmap (M:=list) f <$> D) = f <$> concat D.
Proof. induction D as [|l D IH]; [done|]. cbn [fmap list_fmap concat]. rewrite fmap_app. by f_equal. Qed.

Lemma shelf_entries_repr e S0 D xs ys : shelf e S0 D xs ys -> shelf_entries e = mem_entries (concat (sl_tab <$> S0 ++ concat D)).
Proof.
  intros [H1 H2 _ _ _]. unfold shelf_entries. rewrite H1, concat_fmap. apply tables_entries_held.
  apply Forall_app in H2 as [[? _]%Forall_app [? _]%Forall_app]. by apply Forall_app_2.
Qed.

Lemma shelf_entries_same e e' : e_levels e' = e_levels e -> e_rdrs e' = e_rdrs e -> shelf_entries e' = shelf_entries e.
Proof. unfold shelf_entries, tables_entries. by intros -> ->. Qed.

(** No entry is added. *)
Definition lighter (e e' : Engine) : Prop :=
  len (shelf_entries e') <= len (shelf_entries e) /\ forall x, x ∈ shelf_entries e' -> x ∈ shelf_entries e.

Lemma lighter_refl e : lighter e e.
Proof. done. Qed.

Lemma lighter_trans e1 e2 e3 : lighter e1 e2 -> lighter e2 e3 -> lighter e1 e3.
Proof. intros [L1 H1] [L2 H2]. split; [lia|auto]. Qed.
