(* ===== verification/Recovery.v ===== *)
(** * engine/engine.go: recovery after a power failure

    The log, the manifest and the table files of a running engine, tied to
    the abstract map: the tables hold a prefix of the history, the log the
    rest and at most a part of that prefix again.  Power failures become steps
    of the system, and [Open] on what they leave yields an engine with the
    same map. *)

From S2P Require Import Prelude GoStd SkipList Memtable Bloom Wal TornLog SSTWriter SSTReader SSTIterator GoHeap MergeIterator Manifest Engine EngineRun Compaction CompactOutput CompactTables Shelf.

(** ** Writes as log records *)

Definition eop_records (o : eop) : list WRecord :=
  match o with
  | EPut _ k v => [mkRecord RecordPut k v]
  | EDelete _ k => [mkRecord RecordDelete k None]
  | EBatchPut _ ks vs => zip_with batch_record ks vs
  end.

Definition eop_io (o : eop) : IO :=
  match o with EPut io _ _ | EDelete io _ | EBatchPut io _ _ => io end.

Definition rec_write (r : WRecord) : bytes * option bytes :=
  (r_key r, if bool_decide (r_type r = RecordDelete) then None else r_value r).

Abbreviation seg := (Z * list WRecord)%type.
Definition seg_writes (segs : list seg) : list (bytes * option bytes) := rec_write <$> concat segs.*2.

(** Records the engine writes for values that are not empty. *)
Definition rec_ok (r : WRecord) : Prop :=
  (r_type r = RecordPut /\ r_value r <> Some []) \/ (r_type r = RecordDelete /\ r_value r = None).

Lemma seg_writes_app a b : seg_writes (a ++ b) = seg_writes a ++ seg_writes b.
Proof. unfold seg_writes. by rewrite fmap_app, concat_app, fmap_app. Qed.

Lemma eop_records_writes o : rec_write <$> eop_records o = eop_writes o.
Proof.
  destruct o as [io k v|io k|io ks vs]; [done|done|]. simpl. revert vs.
  induction ks as [|k ks IH]; intros [|v vs]; [done..|]. cbn [zip_with fmap list_fmap]. f_equal; [by destruct v|apply IH].
Qed.

Lemma eop_records_ok o : clean (eop_writes o) -> Forall rec_ok (eop_records o).
Proof.
  destruct o as [io k v|io k|io ks vs]; simpl.
  - intros [Hv _]%Forall_cons. constructor; [by left|done].
  - intros _. constructor; [by right|done].
  - revert vs. induction ks as [|k ks IH]; intros [|v vs] H; simpl in *; try done.
    apply Forall_cons in H as [Hv H]. constructor; [|by apply IH]. destruct v; [by left|by right].
Qed.

Lemma rec_ok_norm r : rec_ok r -> norm_record r = r.
Proof. destruct r as [t k [[|b v]|]]; unfold rec_ok, norm_record; simpl; naive_solver. Qed.

(** ** Absorbed writes

    The writes [ws] were already applied to [m]. *)

Definition absorbed (ws : list (bytes * option bytes)) (m : gmap bytes (option bytes)) : Prop :=
  forall k v, write_all ws ∅ !! k = Some v -> m !! k = Some v.

(** [write_all] over any map: the last write of the key, or the map. *)
Lemma write_all_lookup ws m k :
  write_all ws m !! k = match write_all ws ∅ !! k with Some v => Some v | None => m !! k end.
Proof.
  revert m. induction ws as [|[k' v'] ws IH] using rev_ind; intros m; [done|].
  unfold write_all in *. rewrite !fold_left_app. cbn [fold_left]. unfold write1. simpl. rewrite !lookup_insert.
  case_decide; [done|]. apply IH.
Qed.

Lemma write_all_app ws ws' m : write_all (ws ++ ws') m = write_all ws' (write_all ws m).
Proof. apply fold_left_app. Qed.

Lemma absorbed_id ws m : absorbed ws m -> write_all ws m = m.
Proof.
  intros H. apply map_eq. intros k. rewrite write_all_lookup. destruct (write_all ws ∅ !! k) eqn:E; [|done].
  symmetry. by apply H.
Qed.

Lemma absorbed_extend dn ws m : absorbed dn m -> absorbed (dn ++ ws) (write_all ws m).
Proof.
  intros H k v. rewrite write_all_app, (write_all_lookup ws (write_all dn ∅)), (write_all_lookup ws m).
  destruct (write_all ws ∅ !! k); [done|]. apply H.
Qed.

Lemma absorbed_nil m : absorbed [] m.
Proof. intros k v. change (write_all [] ∅) with (∅ : gmap bytes (option bytes)). by rewrite lookup_empty. Qed.

(** A layer over tables. *)
Lemma views_over l ls ws m : views [l] (write_all ws ∅) -> views ls m -> views (l :: ls) (write_all ws m).
Proof.
  intros Hl Hm k. specialize (Hl k). simpl in *. rewrite write_all_lookup, <- Hl, <- (Hm k). by destruct (assoc k l).
Qed.

(** ** Replaying into a memtable *)

Lemma replay_writes coins recs : Forall rec_ok recs -> forall mt i l,
  mt_repr mt l -> m_frozen mt = false ->
  exists mt' i', deliver (replay_record coins) recs (mt, i) = (Ok tt, (mt', i')) /\
    mt_repr mt' (ains_all (rec_write <$> recs) l) /\ m_frozen mt' = false.
Proof.
  induction 1 as [|r recs Hr Hrs IH]; intros mt i l Hl Hf; [by eexists mt, i|]. cbn [deliver].
  assert (exists mt1, replay_record coins r (mt, i) = (Ok tt, (mt1, S i)) /\
    mt_repr mt1 (ains (rec_write r).1 (rec_write r).2 l) /\ m_frozen mt1 = false) as (mt1 & E1 & Hl1 & Hf1).
  { destruct r as [t k v]. unfold replay_record, rec_write, rec_ok in *. cbn [r_type r_key r_value fst snd] in *.
    destruct Hr as [[-> _]|[-> ->]].
    - destruct (Memtable_Put_spec mt l (coins i) k v Hl Hf) as (mt1 & -> & Hl1 & Hf1 & _). by eexists.
    - destruct (Memtable_Delete_spec mt l (coins i) k Hl Hf) as (mt1 & -> & Hl1 & Hf1 & _). by eexists. }
  rewrite (M_bind_run _ _ _ _ _ E1). by apply IH.
Qed.

Lemma ains_all_views ws l m : ksorted l -> views [l] m -> views [ains_all ws l] (write_all ws m).
Proof. apply views_write. Qed.

Lemma views_nil : views [[]] ∅.
Proof. intros k. by rewrite lookup_empty. Qed.

(** ** The invariant of the disk *)

(** A queued memtable holds the writes of a run of log files, the last of
    which is the one its task purges. *)
Definition group_ok (e : Engine) (g : list seg) (task : flushTask) : Prop :=
  fst <$> last g = Some (ft_walID task) /\
  exists l, mem_is e (ft_mem task) l /\ views [l] (write_all (seg_writes g) ∅).

(** The table being published was the last one the log could drop. *)
Definition pc_dur (pc : fpc) (dn : list seg) : Prop :=
  match pc with
  | FWritten task _ | FPublished task | FRemoved task => fst <$> last dn = Some (ft_walID task)
  | FIdle | FEmptied _ => True
  end.

(** The log [s]: files [dn] already in tables, one group of files per queued
    memtable, and the files [pre] and the active one for the active memtable.
    [mt] is the map of the tables on disk. *)
Record log_inv (e : Engine) (pc : fpc) (act : layer) (m mt : gmap bytes (option bytes)) (s : wspec)
    (dn : list seg) (grps : list (list seg)) (pre : list seg) : Prop := {
  li_wal : wal_repr (e_wal e) s;
  li_closed : ws_closed s = dn ++ concat grps ++ pre;
  li_records : Forall rec_ok (ws_records s);
  li_groups : Forall2 (group_ok e) grps (e_flushCh e);
  li_act : views [act] (write_all (seg_writes pre ++ (rec_write <$> ws_active s)) ∅);
  li_absorbed : absorbed (seg_writes dn) mt;
  li_map : m = write_all (seg_writes (concat grps ++ pre) ++ (rec_write <$> ws_active s)) mt;
  li_pc : pc_dur pc dn
}.

(** The tables on disk, whose map is [mt]. *)
Definition disk_inv (n : nat) (e : Engine) (mt : gmap bytes (option bytes)) (S0 : list slot) (D : list (list slot))
    (deep : list (list layer)) : Prop :=
  stored n e S0 D deep /\ views (layers [] (sl_tab <$> S0) deep) mt.

Definition dur_inv (n : nat) (e : Engine) (pc : fpc) (act : layer) (m : gmap bytes (option bytes)) (S0 : list slot)
    (D : list (list slot)) (deep : list (list layer)) : Prop :=
  exists mt s dn grps pre, log_inv e pc act m mt s dn grps pre /\ disk_inv n e mt S0 D deep.

(** ** Client operations *)

Lemma batch_memtable_state io kvs : forall i e act imms,
  mems_repr e act imms -> clean kvs ->
  exists ms, batch_memtable io i kvs e = (Ok tt, set_mems ms e) /\ mems_repr (set_mems ms e) (ains_all kvs act) imms /\
    forall p, p <> e_memtable e -> ms !! p = e_mems e !! p.
Proof.
  induction kvs as [|[k v] kvs IH]; intros i e act imms Hm Hc.
  { exists (e_mems e). assert (set_mems (e_mems e) e = e) as -> by by destruct e. done. }
  apply Forall_cons in Hc as [Hv Hc].
  destruct (mems_repr_put e act imms (io_coins io i) k v Hm Hv) as (mt' & E & Hm').
  destruct (IH (S i) _ _ _ Hm' Hc) as (ms & E' & Hm2 & Hms). exists ms. split_and!; [|done|].
  - cbn [batch_memtable]. unfold mbind, M_bind, wrap. destruct v as [v|]; [rewrite E; exact E'|].
    change (Memtable_Delete (io_coins io i) k) with (Memtable_Put (io_coins io i) k None). rewrite E. exact E'.
  - intros p Hp. rewrite Hms by done. simpl. by apply list_lookup_insert_ne.
Qed.

(** The state after a logged write reached the memtable. *)
Definition written_state (o : eop) (act : layer) (imms : list layer) (e e1 : Engine) (w : WAL) : Prop :=
  exists ms, e1 = set_mems ms (set_wal w e) /\ mems_repr e1 (ains_all (eop_writes o) act) imms /\
    forall p, p <> e_memtable e -> ms !! p = e_mems e !! p.

Lemma log_memtable_state o ctx W B e act imms w :
  mems_repr e act imms -> W (e_wal e) = (Ok tt, w) ->
  (forall e0, mems_repr e0 act imms -> exists ms, B e0 = (Ok tt, set_mems ms e0) /\
     mems_repr (set_mems ms e0) (ains_all (eop_writes o) act) imms /\ forall p, p <> e_memtable e0 -> ms !! p = e_mems e0 !! p) ->
  exists e1 mt, written_state o act imms e e1 w /\
    e_mems e1 !! e_memtable e1 = Some mt /\ mt_repr mt (ains_all (eop_writes o) act) /\
    (wrap ctx (on_wal W);; B;; maybeScheduleFlush (eop_io o)) e =
      (Ok tt, if Memtable_ShouldFlush mt then scheduled (eop_io o) mt e1 else e1).
Proof.
  intros Hm HW HB. assert (mems_repr (set_wal w e) act imms) as Hm' by by apply (mems_repr_same e).
  destruct (HB _ Hm') as (ms & EB & Hm1 & Hms).
  destruct (maybeScheduleFlush_run (eop_io o) _ _ _ Hm1) as (mt & Emt & Hr & Es).
  exists (set_mems ms (set_wal w e)), mt. split_and!; [by exists ms|done|done|].
  unfold wrap, on_wal, mbind, M_bind. rewrite HW. simpl. rewrite EB. exact Es.
Qed.

(** [BatchPut] refuses lists of different lengths. *)
Definition paired (o : eop) : Prop :=
  match o with EBatchPut _ ks vs => length ks = length vs | _ => True end.

Lemma put_memtable_state ctx coins k v act imms e :
  v <> Some [] -> mems_repr e act imms ->
  exists ms, wrap ctx (on_memtable (Memtable_Put coins k v)) e = (Ok tt, set_mems ms e) /\
    mems_repr (set_mems ms e) (ains_all [(k, v)] act) imms /\ forall p, p <> e_memtable e -> ms !! p = e_mems e !! p.
Proof.
  intros Hv Hm. destruct (mems_repr_put e act imms coins k v Hm Hv) as (mt & E & Hm1).
  eexists. unfold wrap. rewrite E. split_and!; [done|done|]. intros p Hp. by apply list_lookup_insert_ne.
Qed.

(** An operation whose records the log accepted. *)
Lemma eop_logged o e act imms w :
  mems_repr e act imms -> clean (eop_writes o) -> paired o -> WAL_AppendBatch (eop_records o) (e_wal e) = (Ok tt, w) ->
  exists e1 mt, written_state o act imms e e1 w /\ e_mems e1 !! e_memtable e1 = Some mt /\ mt_repr mt (ains_all (eop_writes o) act) /\
    eop_run o e = (Ok tt, if Memtable_ShouldFlush mt then scheduled (eop_io o) mt e1 else e1).
Proof.
  intros Hm Hc Hp EW. destruct o as [io k v|io k|io ks vs]; cbn [eop_run eop_writes eop_records] in *.
  - rewrite <- WAL_Append_batch in EW.
    apply (log_memtable_state (EPut io k v) "engine: wal append" _
      (wrap "engine: memtable put" (on_memtable (Memtable_Put (io_coins io 0) k v))) e act imms w Hm EW).
    intros e0. apply put_memtable_state. by apply Forall_cons in Hc as [? _].
  - rewrite <- WAL_Append_batch in EW.
    apply (log_memtable_state (EDelete io k) "engine: wal append" _
      (wrap "engine: memtable delete" (on_memtable (Memtable_Put (io_coins io 0) k None))) e act imms w Hm EW).
    intros e0. by apply put_memtable_state.
  - unfold Engine_BatchPut. cbn in Hp. assert (negb (len ks =? len vs) = false) as -> by (unfold len; by rewrite Hp, Z.eqb_refl).
    apply (log_memtable_state (EBatchPut io ks vs) "engine: wal batch" _ (batch_memtable io 0 (zip ks vs)) e act imms w Hm EW).
    intros e0 Hm0. by apply batch_memtable_state.
Qed.

Lemma eop_state o e act imms s :
  mems_repr e act imms -> wal_repr (e_wal e) s -> clean (eop_writes o) -> Forall record_fits (eop_records o) ->
  (~ paired o /\ exists err, eop_run o e = (Err err, e)) \/
  (exists w e1 mt, wal_repr w (wop_spec s (WBatch (eop_records o))) /\ written_state o act imms e e1 w /\
    e_mems e1 !! e_memtable e1 = Some mt /\ mt_repr mt (ains_all (eop_writes o) act) /\
    eop_run o e = (Ok tt, if Memtable_ShouldFlush mt then scheduled (eop_io o) mt e1 else e1)).
Proof.
  intros Hm Hw Hc Hfit. destruct (WAL_AppendBatch_repr _ _ _ Hw Hfit) as (w & EW & Hw').
  assert (paired o \/ ~ paired o) as [Hp|Hp].
  { destruct o as [| |io ks vs]; [by left..|]. cbn. destruct (decide (length ks = length vs)); [by left|by right]. }
  - right. destruct (eop_logged o e act imms w Hm Hc Hp EW) as (e1 & mt & H). by exists w, e1, mt.
  - left. split; [done|]. destruct o as [| |io ks vs]; [by destruct Hp..|]. cbn [eop_run]. unfold Engine_BatchPut.
    assert (negb (len ks =? len vs) = true) as ->; [|by eexists]. cbn in Hp. unfold len. destruct (Z.eqb_spec (Z.of_nat (length ks)) (Z.of_nat (length vs))); [lia|reflexivity].
Qed.

(** An operation that returned an error stopped in the log. *)
Lemma eop_refused o e act imms err e1 :
  mems_repr e act imms -> clean (eop_writes o) -> paired o -> eop_run o e = (Err err, e1) ->
  exists r w, WAL_AppendBatch (eop_records o) (e_wal e) = (r, w) /\ e1 = set_wal w e.
Proof.
  intros Hm Hc Hp E. destruct (WAL_AppendBatch (eop_records o) (e_wal e)) as [r w] eqn:EW. exists r, w. split; [done|].
  assert (r = Ok tt \/ r <> Ok tt) as [-> |Hr] by (destruct r as [[]| | |]; [by left|by right..]).
  { destruct (eop_logged o e act imms w Hm Hc Hp EW) as (e2 & mt & _ & _ & _ & E2). by rewrite E in E2. }
  assert (forall ctx (W : M WAL unit) (B : M Engine unit), W (e_wal e) = (r, w) -> (wrap ctx (on_wal W);; B) e = (Err err, e1) -> e1 = set_wal w e) as Hlog.
  { intros ctx W B HW. unfold wrap, on_wal, mbind, M_bind. rewrite HW. destruct r as [[]|x| |]; try done. by intros [= _ <-]. }
  destruct o as [io k v|io k|io ks vs]; cbn [eop_run eop_records] in *.
  - rewrite <- WAL_Append_batch in EW. exact (Hlog _ _ _ EW E).
  - rewrite <- WAL_Append_batch in EW. exact (Hlog _ _ _ EW E).
  - unfold Engine_BatchPut in E. cbn in Hp. rewrite (proj2 (Z.eqb_eq (len ks) (len vs))) in E by (unfold len; by rewrite Hp).
    exact (Hlog _ _ _ EW E).
Qed.

Lemma disk_inv_same n e e' mt S0 D deep :
  e_manifest e' = e_manifest e -> e_files e' = e_files e -> e_nextFileNum e' = e_nextFileNum e -> e_opts e' = e_opts e ->
  disk_inv n e mt S0 D deep -> disk_inv n e' mt S0 D deep.
Proof. intros H1 H2 H3 H4 [HD Hv]. split; [by apply (stored_same n e)|done]. Qed.

Lemma groups_mono e e' q grps :
  (forall task l, task ∈ q -> mem_is e (ft_mem task) l -> mem_is e' (ft_mem task) l) ->
  Forall2 (group_ok e) grps q -> Forall2 (group_ok e') grps q.
Proof.
  intros H HF. induction HF as [|g task grps q (Hid & l & Hl & Hv) HF IH]; constructor.
  - split; [done|]. exists l. split; [|done]. apply H; [left|done].
  - apply IH. intros task' l' Hin. apply H. by right.
Qed.

(** The queue holds memtables other than the active one. *)
Lemma queue_not_active deep e pc act imms l0 task :
  run_inv deep e pc act imms l0 -> task ∈ e_flushCh e -> ft_mem task <> e_memtable e.
Proof.
  intros [[_ _ Hn _] _ Hq _] Hin Heq. apply NoDup_cons in Hn as [Hni _]. apply Hni. rewrite Hq, elem_of_reverse, elem_of_app.
  right. rewrite <- Heq. apply list_elem_of_fmap. eauto.
Qed.

Lemma log_inv_written deep o e e1 w pc act imms l0 m mt s dn grps pre :
  run_inv deep e pc act imms l0 -> log_inv e pc act m mt s dn grps pre ->
  wal_repr w (wop_spec s (WBatch (eop_records o))) -> written_state o act imms e e1 w -> clean (eop_writes o) ->
  log_inv e1 pc (ains_all (eop_writes o) act) (write_all (eop_writes o) m) mt (wop_spec s (WBatch (eop_records o))) dn grps pre.
Proof.
  intros Hinv [L1 L2 L3 L4 L5 L6 L7 L8] Hw (ms & -> & Hm & Hms) Hc. pose proof (ri_mems _ _ _ _ _ _ Hinv) as Hmr. split; simpl.
  - done.
  - done.
  - unfold ws_records in *. simpl. rewrite app_assoc. apply Forall_app_2; [done|]. by apply eop_records_ok.
  - eapply groups_mono; [|exact L4]. intros task l Hin (mt1 & E1 & Hr1). exists mt1. split; [|done]. simpl.
    rewrite Hms; [done|]. by eapply queue_not_active.
  - rewrite fmap_app, app_assoc, write_all_app, eop_records_writes. apply ains_all_views; [by eapply mem_is_act|done].
  - done.
  - by rewrite L7, fmap_app, eop_records_writes, app_assoc, <- write_all_app.
  - done.
Qed.

Lemma scheduled_mem_is io mtb e p l :
  e_mems e !! e_memtable e = Some mtb -> mem_is e p l -> mem_is (scheduled io mtb e) p l.
Proof.
  intros Ha (mt1 & E1 & Hr1). unfold scheduled. destruct (WAL_Rotate _ _) as [r w]. unfold send_task.
  assert (forall e0, e_mems e0 = <[e_memtable e := Memtable_Freeze mtb]> (e_mems e) ++ [NewMemtable (MemtableSize (e_opts e))] ->
    mem_is e0 p l) as H; [|by destruct (_ <? _)%nat; apply H].
  intros e0 He0. unfold mem_is. rewrite He0. pose proof (lookup_lt_Some _ _ _ E1) as Hlt.
  rewrite lookup_app_l by (by rewrite length_insert). destruct (decide (p = e_memtable e)) as [->|Hne].
  - exists (Memtable_Freeze mtb). rewrite Ha in E1. injection E1 as <-. by rewrite list_lookup_insert_eq.
  - exists mt1. by rewrite list_lookup_insert_ne.
Qed.

Lemma log_inv_scheduled io mtb e pc act imms m mt s dn grps pre :
  log_inv e pc act m mt s dn grps pre -> mems_repr e act imms -> e_mems e !! e_memtable e = Some mtb ->
  io_rotate io = Opened [] -> ws_id s + 1 < 2 ^ 64 -> (length (e_flushCh e) < flushCh_cap)%nat ->
  log_inv (scheduled io mtb e) pc [] m mt (wop_spec s WRotate) dn (grps ++ [pre ++ [(ws_id s, ws_active s)]]) [].
Proof.
  intros [L1 L2 L3 L4 L5 L6 L7 L8] Hm Ha Hio Hid Hcap.
  assert (mem_is (scheduled io mtb e) (e_memtable e) act) as Hact.
  { apply scheduled_mem_is; [done|]. by pose proof (mm_repr _ _ _ Hm) as H; inversion H. }
  assert (Forall2 (group_ok (scheduled io mtb e)) grps (e_flushCh e)) as Hg.
  { eapply groups_mono; [|exact L4]. intros task l _. by apply scheduled_mem_is. }
  destruct (WAL_Rotate_repr _ _ L1 Hid) as (w & Ew & Hw). apply Nat.ltb_lt in Hcap.
  unfold scheduled, send_task in *. rewrite Hio, Ew in *. cbn [new_memtable set_active set_mems set_wal e_flushCh] in *. rewrite Hcap in *.
  assert (seg_writes (pre ++ [(ws_id s, ws_active s)]) = seg_writes pre ++ (rec_write <$> ws_active s)) as Hsw.
  { rewrite seg_writes_app. f_equal. unfold seg_writes. cbn [fmap list_fmap concat snd]. by rewrite app_nil_r. }
  split.
  - exact Hw.
  - cbn [wop_spec ws_closed]. rewrite L2, concat_app. cbn [concat]. by rewrite !app_nil_r, <- !app_assoc.
  - cbn [wop_spec]. unfold ws_records in *. cbn [ws_closed ws_active]. rewrite fmap_app, concat_app.
    cbn [fmap list_fmap concat snd]. by rewrite !app_nil_r.
  - apply Forall2_app; [exact Hg|]. constructor; [|constructor]. split; [by rewrite last_snoc|].
    exists act. split; [exact Hact|]. by rewrite Hsw.
  - exact views_nil.
  - done.
  - cbn [wop_spec ws_active fmap list_fmap]. rewrite concat_app. cbn [concat]. rewrite !app_nil_r, L7. f_equal.
    by rewrite (seg_writes_app _ (pre ++ _)), Hsw, (seg_writes_app _ pre), <- app_assoc.
  - done.
Qed.

(** ** Flush steps *)

(** [AddFile] on a sound manifest extends the records on disk. *)
Lemma AddFile_good n m f recs meta :
  mf_repr n m f recs -> healthy f -> meta_fits meta ->
  exists mf f', Manifest_AddFile meta m = (Ok tt, mf) /\ mf_repr n mf f' (recs ++ [mkMRecord recordAddFile meta]) /\ healthy f'.
Proof. intros Hm Hf Hfit. by apply (mfop_run_ok n (MAdd meta) m f recs). Qed.

Lemma len_key_bytes k l : k ∈ l.*1 -> len k <= len (entries_bytes (mem_entries l)).
Proof.
  induction l as [|[k' v] l IH]; [by intros ?%elem_of_nil|]. cbn [fmap list_fmap fst]. unfold mem_entries in *.
  cbn [fmap list_fmap]. rewrite entries_bytes_cons, len_app, len_entry_bytes.
  pose proof (len_nonneg (entries_bytes (mem_entry <$> l))).
  match goal with |- context [len (if ?b then ?x else ?y)] => pose proof (len_nonneg (if b then x else y)) end.
  pose proof (len_nonneg k'). intros [->|Hin]%elem_of_cons; [simpl in *; lia|]. specialize (IH Hin). simpl in *. lia.
Qed.

Lemma flush_meta_fits num size l :
  0 <= num < 2 ^ 64 -> 0 <= size < 2 ^ 40 -> l <> [] -> table_fits (mem_entries l) ->
  meta_fits (mkMeta num 0 size (range_of l).1 (range_of l).2).
Proof.
  intros Hn Hs Hl Hfit. unfold table_fits in Hfit.
  pose proof (len_key_bytes _ _ (range_first_mem l Hl)). pose proof (len_key_bytes _ _ (range_last_mem l Hl)).
  unfold meta_fits. cbn [FileNum Level Size MinKey MaxKey]. lia.
Qed.

Lemma u64_succ n : 0 <= n -> n + 1 < 2 ^ 64 -> u64 (n + 1) = n + 1.
Proof. intros H1 H2. unfold u64. apply Z.mod_small. lia. Qed.

(** Numbers from [e_nextFileNum] on are free. *)
Lemma stored_fresh n e S0 D deep : stored n e S0 D deep -> e_nextFileNum e ∉ sl_num <$> S0 ++ concat D.
Proof. intros HD (s & Hs & Hin)%list_elem_of_fmap. pose proof (stored_bound _ _ _ _ _ _ HD Hin). lia. Qed.

(** A table recorded in L0. *)
Definition flush_slot (e : Engine) (size : Z) (l : layer) : slot :=
  mkSlot (length (e_rdrs e)) (mkMeta (e_nextFileNum e) 0 size (range_of l).1 (range_of l).2) l.

Lemma stored_add n e r mf f S0 D deep size l :
  stored n e S0 D deep -> e_nextFileNum e + 1 < 2 ^ 64 -> 0 <= size < 2 ^ 40 -> l <> [] ->
  table_fits (mem_entries l) -> table_file f l ->
  Manifest_AddFile (sl_meta (flush_slot e size l)) (e_manifest e) = (Ok tt, mf) ->
  stored n (flushed_state e r mf f) (S0 ++ [flush_slot e size l]) D deep.
Proof.
  intros HD Hnum Hs Hl Hfit Hf Hadd. pose proof HD as [(mff & recs & D1 & Dh) D2 D3 D4 D5 D6 D7 D8].
  pose proof (flush_meta_fits _ _ _ D7 Hs Hl Hfit) as Hmf. pose proof (u64_succ _ (proj1 D7) Hnum) as Hu.
  assert ((S0 ++ [flush_slot e size l]) ++ concat D ≡ₚ flush_slot e size l :: S0 ++ concat D) as Hp.
  { rewrite <- app_assoc. cbn [app]. by rewrite <- Permutation_middle. }
  split; try done.
  - destruct (AddFile_good _ _ _ _ _ D1 Dh Hmf) as (mf' & f' & E & Hmf' & Hf'). cbn [flush_slot sl_meta] in Hadd. rewrite Hadd in E.
    injection E as <-. by exists f', (recs ++ [mkMRecord recordAddFile (sl_meta (flush_slot e size l))]).
  - cbn [flushed_state e_manifest]. rewrite (AddFile_levels _ _ _ _ Hadd), D2. change (Level (sl_meta (flush_slot e size l))) with 0. unfold on_level.
    cbn [fmap list_fmap]. rewrite (proj2 (Z.leb_gt _ 0)) by (rewrite len_cons; match goal with |- context [len ?x] => pose proof (len_nonneg x) end; lia).
    by rewrite fmap_app.
  - rewrite Hp. constructor.
    + split; [done|]. split; [cbn [flushed_state e_nextFileNum]; rewrite Hu; unfold sl_num, flush_slot; simpl; lia|].
      exists f. split; [|done]. unfold sl_num, flush_slot. simpl. apply lookup_insert_eq.
    + apply (filed_mono e); [simpl; rewrite Hu; lia| |done]. intros k Hk. simpl. by rewrite lookup_insert_ne by lia.
  - rewrite Hp. cbn [fmap list_fmap]. constructor; [by apply (stored_fresh n e _ _ deep)|done].
  - apply Forall_app_2; [done|]. by constructor.
  - simpl. rewrite Hu. lia.
Qed.

Lemma disk_inv_add n e r mf f mt S0 D deep size l ws :
  disk_inv n e mt S0 D deep -> e_nextFileNum e + 1 < 2 ^ 64 -> 0 <= size < 2 ^ 40 -> l <> [] ->
  table_fits (mem_entries l) -> table_file f l -> views [l] (write_all ws ∅) ->
  Manifest_AddFile (mkMeta (e_nextFileNum e) 0 size (range_of l).1 (range_of l).2) (e_manifest e) = (Ok tt, mf) ->
  disk_inv n (flushed_state e r mf f) (write_all ws mt) (S0 ++ [flush_slot e size l]) D deep.
Proof.
  intros [HD Hm] Hnum Hs Hl Hfit Hf Hv Hadd. split; [by apply stored_add|].
  unfold layers in *. rewrite fmap_app, reverse_app. by apply views_over.
Qed.

Lemma log_inv_flush e e' pc pc' act m mt s dn g grps pre q :
  log_inv e pc act m mt s dn (g :: grps) pre -> e_wal e' = e_wal e -> e_mems e' = e_mems e -> e_flushCh e' = q ->
  Forall2 (group_ok e) grps q -> pc_dur pc' (dn ++ g) ->
  log_inv e' pc' act m (write_all (seg_writes g) mt) s (dn ++ g) grps pre.
Proof.
  intros [L1 L2 L3 L4 L5 L6 L7 L8] H1 H2 H3 HF Hpc. split; try done.
  - by rewrite H1.
  - rewrite L2. simpl. by rewrite <- !app_assoc.
  - rewrite H3. eapply groups_mono; [|exact HF]. intros task l _. unfold mem_is. by rewrite H2.
  - rewrite seg_writes_app. by apply absorbed_extend.
  - rewrite L7. cbn [concat]. by rewrite <- (app_assoc g), seg_writes_app, <- app_assoc, write_all_app.
Qed.

Lemma write_all_empty ws : write_all ws ∅ = ∅ -> ws = [].
Proof.
  destruct ws as [|[k v] ws _] using rev_ind; [done|]. rewrite write_all_app. intros H.
  apply (f_equal (lookup k)) in H. cbn in H. by rewrite lookup_insert_eq, lookup_empty in H.
Qed.

Lemma last_app_Some {A} (l k : list A) x : last k = Some x -> last (l ++ k) = Some x.
Proof. intros H. by rewrite last_app, H. Qed.

Lemma group_layer e g task mt l :
  group_ok e g task -> e_mems e !! ft_mem task = Some mt -> Memtable_scan mt = Ok l ->
  mt_repr mt l /\ views [l] (write_all (seg_writes g) ∅).
Proof.
  intros (_ & l' & (mt' & E' & Hr) & Hv) Emt Hscan. rewrite Emt in E'. injection E' as <-.
  rewrite (Memtable_scan_spec _ _ Hr) in Hscan. by injection Hscan as <-.
Qed.

Lemma group_head e q task grps :
  Forall2 (group_ok e) grps (task :: q) -> exists g gs, grps = g :: gs /\ group_ok e g task /\ Forall2 (group_ok e) gs q.
Proof. intros H. apply Forall2_cons_inv_r in H as (g & gs & Hg & HF & ->). eauto. Qed.

(** What a flush does to the disk. *)
Lemma dur_write n deep D S0 e act imms l0 m io task q mtb l p e' :
  run_inv deep e FIdle act imms l0 -> dur_inv n e FIdle act m S0 D deep -> e_nextFileNum e + 1 < 2 ^ 64 ->
  e_flushCh e = task :: q -> e_mems e !! ft_mem task = Some mtb -> Memtable_scan mtb = Ok l -> table_fits (mem_entries l) ->
  flush_write io (ft_mem task) (set_flushCh q e) = (Ok (FlushTable p), e') ->
  exists r f size mf, e' = flushed_state (set_flushCh q e) r mf f /\ p = length (e_rdrs e) /\ last imms = Some l /\ table_repr r l /\
    dur_inv n e' (FWritten task p) act m (S0 ++ [flush_slot e size l]) D deep.
Proof.
  intros Hinv (mt & s & dn & grps & pre & HL & HD) Hnum Hch Emt Hscan Hfit H.
  pose proof (li_groups _ _ _ _ _ _ _ _ _ HL) as HF. rewrite Hch in HF. apply group_head in HF as (g & gs & -> & Hg & HF).
  destruct (group_layer _ _ _ _ _ Hg Emt Hscan) as [Hr Hv].
  assert (clean l /\ last imms = Some l) as [Hcl Hlast].
  { destruct (oldest_memtable _ _ _ _ _ (ri_mems _ _ _ _ _ _ Hinv) (queue_head _ _ _ _ _ _ _ _ Hinv eq_refl Hch))
      as (imms' & l' & mt' & -> & E' & Hr' & Hcl & _). rewrite Emt in E'. injection E' as <-.
    rewrite (Memtable_scan_spec _ _ Hr') in Hscan. injection Hscan as <-. by rewrite last_snoc. }
  apply (flush_write_table _ _ _ _ _ mtb l) in H as (r & f & size & mf & -> & -> & Hne & Hsize & Hadd & Htr & Hf); try done.
  exists r, f, size, mf. split_and!; try done.
  exists (write_all (seg_writes g) mt), s, (dn ++ g), gs, pre. split.
  - apply (log_inv_flush e _ FIdle _ _ _ _ _ _ _ _ _ q HL); try done. simpl. destruct Hg as [Hid _].
    destruct (last g) eqn:Eg; [|done]. by rewrite (last_app_Some _ _ _ Eg).
  - apply (disk_inv_add n (set_flushCh q e)); try done. by apply (disk_inv_same n e).
Qed.

(** A number that was drawn but not used. *)
Lemma disk_inv_skip n e files mt S0 D deep :
  disk_inv n e mt S0 D deep -> e_nextFileNum e + 1 < 2 ^ 64 -> (forall k, k <> e_nextFileNum e -> files !! k = e_files e !! k) ->
  disk_inv n (set_tables (u64 (e_nextFileNum e + 1)) files e) mt S0 D deep.
Proof.
  intros [HD Hv] Hnum Hfiles. split; [|done]. pose proof (sd_next _ _ _ _ _ HD) as Hn.
  apply (stored_mono n e); try done; simpl; [rewrite u64_succ; lia|]. intros k Hk. apply Hfiles. lia.
Qed.

Lemma dur_write_empty n S0 D deep e act m io task q e' :
  dur_inv n e FIdle act m S0 D deep -> e_nextFileNum e + 1 < 2 ^ 64 -> e_flushCh e = task :: q ->
  flush_write io (ft_mem task) (set_flushCh q e) = (Ok FlushEmpty, e') ->
  dur_inv n e' (FEmptied task) act m S0 D deep /\
  exists files, e' = set_tables (u64 (e_nextFileNum e + 1)) files (set_flushCh q e) /\ forall k, k <> e_nextFileNum e -> files !! k = e_files e !! k.
Proof.
  intros (mt & s & dn & grps & pre & HL & HD) Hnum Hch H.
  pose proof (li_groups _ _ _ _ _ _ _ _ _ HL) as HF. rewrite Hch in HF. apply group_head in HF as (g & gs & -> & Hg & HF).
  pose proof Hg as (_ & l & (mtb & Emt & Hr) & Hv).
  apply (flush_write_empty _ _ _ _ mtb l) in H as (-> & files & -> & Hfiles); [|done|done]. split; [|by exists files].
  assert (seg_writes g = []) as Hsg.
  { apply write_all_empty, map_eq. intros k. rewrite lookup_empty, <- (Hv k). done. }
  exists mt, s, (dn ++ g), gs, pre. split.
  - pose proof (log_inv_flush e (set_tables (u64 (e_nextFileNum e + 1)) files (set_flushCh q e)) FIdle (FEmptied task) _ _ _ _ _ _ _ _ q HL
      eq_refl eq_refl eq_refl HF I) as HL'. by rewrite Hsg in HL'.
  - by apply disk_inv_skip; [apply (disk_inv_same n e)|..].
Qed.

(** A step that touches neither the log nor the disk. *)
Lemma dur_same n S0 D deep e e' pc pc' act m :
  e_wal e' = e_wal e -> e_mems e' = e_mems e -> e_flushCh e' = e_flushCh e -> e_manifest e' = e_manifest e ->
  e_files e' = e_files e -> e_nextFileNum e' = e_nextFileNum e -> e_opts e' = e_opts e ->
  (forall dn, pc_dur pc dn -> pc_dur pc' dn) -> dur_inv n e pc act m S0 D deep -> dur_inv n e' pc' act m S0 D deep.
Proof.
  intros H1 H2 H3 H4 H5 H6 H7 Hpc (mt & s & dn & grps & pre & HL & HD).
  exists mt, s, dn, grps, pre. split; [|by apply (disk_inv_same n e)].
  destruct HL as [L1 L2 L3 L4 L5 L6 L7 L8]. split; try done; [by rewrite H1| |by apply Hpc].
  rewrite H3. eapply groups_mono; [|exact L4]. intros task l _. unfold mem_is. by rewrite H2.
Qed.

Lemma purge_done walID (dn rest : list seg) id :
  StronglySorted Z.lt ((dn ++ rest).*1 ++ [id]) -> fst <$> last dn = Some walID ->
  filter (fun sg => walID < sg.1) (dn ++ rest) = rest /\ walID < id.
Proof.
  intros Hs Hl. destruct dn as [|sg dn _] using rev_ind; [done|]. rewrite last_snoc in Hl. injection Hl as <-.
  rewrite <- app_assoc in *. simpl in *. rewrite fmap_app in Hs. cbn [fmap list_fmap] in Hs. rewrite <- app_assoc in Hs. simpl in Hs.
  apply StronglySorted_app in Hs as (H1 & _ & H2). apply StronglySorted_inv in H2 as [_ H2].
  rewrite Forall_forall in H2. split; [|apply H2; set_solver].
  rewrite filter_app, filter_drop, filter_cons, decide_False, filter_keep; [done|..].
  - apply Forall_forall. intros x Hx. apply H2. rewrite elem_of_app. left. apply list_elem_of_fmap. eauto.
  - lia.
  - apply Forall_forall. intros x Hx. apply Z.le_ngt, Z.lt_le_incl, H1; [apply list_elem_of_fmap; eauto|left].
Qed.

Lemma dur_finish n S0 D deep e act m io task r e' :
  dur_inv n e (FRemoved task) act m S0 D deep -> io_purge io = (fun _ => true) -> flush_finish io (ft_walID task) e = (r, e') ->
  dur_inv n e' FIdle act m S0 D deep.
Proof.
  intros Hdur Hio H. unfold flush_finish in H. injection H as _ <-. destruct (0 <? ft_walID task); [|by apply (dur_same n S0 D deep e _ (FRemoved task))].
  destruct Hdur as (mt & s & dn & grps & pre & HL & HD). destruct HL as [L1 L2 L3 L4 L5 L6 L7 L8].
  pose proof (wr_ids _ _ L1) as Hids. rewrite L2 in Hids.
  destruct (purge_done (ft_walID task) dn (concat grps ++ pre) (ws_id s) Hids L8) as [Hfil Hlt].
  destruct (WAL_Purge_repr _ _ _ L1 Hlt) as (w & Ew & Hw). rewrite Hio, Ew.
  exists mt, (wop_spec s (WPurge (ft_walID task))), [], grps, pre. split; [|by apply (disk_inv_same n e)].
  split; simpl; try done.
  - by rewrite L2, Hfil.
  - unfold ws_records in *. simpl. rewrite L2, Hfil. rewrite L2, fmap_app, concat_app, <- app_assoc in L3.
    by apply Forall_app in L3 as [_ L3].
Qed.

(** ** The whole system *)

(** What a step needs from the environment: a log device without faults,
    records within their length fields, and numbers that do not overflow. *)
Definition label_ok (e : Engine) (lab : label) : Prop :=
  match lab with
  | LOp o => Forall record_fits (eop_records o) /\ io_rotate (eop_io o) = Opened [] /\ w_fileID (e_wal e) + 1 < 2 ^ 64
  | LWrite io => e_nextFileNum e + 1 < 2 ^ 64
  | LFinish io => io_purge io = (fun _ => true)
  | LPublish | LRemove => True
  end.

(** The tables [S0] of L0 and [D] below it are read and stored, but for the
    one a flush has only recorded and those a compaction has only written. *)
Definition sysc (n : nat) (e : Engine) (pc : fpc) (cp : cpc) (m : gmap bytes (option bytes)) : Prop :=
  exists act imms S0 D deep xs ys, run_inv deep e pc act imms (sl_tab <$> S0) /\
    views (layers (act :: imms) (sl_tab <$> S0) deep) m /\ shelf e S0 D xs ys /\ pc_slots pc imms xs /\ job_ok cp S0 D ys /\
    dur_inv n e pc act m (S0 ++ xs) D deep.

Definition sys_inv (n : nat) (e : Engine) (pc : fpc) (m : gmap bytes (option bytes)) : Prop := exists cp, sysc n e pc cp m.

Lemma sysc_inv n e pc cp m : sysc n e pc cp m -> sys_inv n e pc m.
Proof. by exists cp. Qed.

Lemma pc_slots_cons pc l imms xs : pc_slots pc imms xs -> pc_slots pc (l :: imms) xs.
Proof.
  destruct pc; simpl; try done. intros (meta & l' & -> & Hl). exists meta, l'. split; [done|]. by rewrite last_cons, Hl.
Qed.

Lemma sysc_op n o e pc cp m r e' :
  sysc n e pc cp m -> label_ok e (LOp o) -> clean (eop_writes o) -> (length (e_flushCh e) < flushCh_cap)%nat ->
  eop_run o e = (r, e') -> sysc n e' pc cp (match r with Ok _ => write_all (eop_writes o) m | _ => m end).
Proof.
  intros (act & imms & S0 & D & deep & xs & ys & Hinv & Hv & Hsh & Hxs & Hjob & mt & s & dn & grps & pre & HL & HD) (Hfit & Hrot & Hid) Hcl Hcap Hrun.
  pose proof (ri_mems _ _ _ _ _ _ Hinv) as Hm. pose proof (li_wal _ _ _ _ _ _ _ _ _ HL) as Hw.
  destruct (eop_state o e act imms s Hm Hw Hcl Hfit) as [(_ & err & E)|(w & e1 & mtb & Hw' & Hwr & Emt & Hr & E)];
    rewrite E in Hrun; injection Hrun as <- <-.
  { exists act, imms, S0, D, deep, xs, ys. split_and!; try done. by exists mt, s, dn, grps, pre. }
  pose proof (log_inv_written _ _ _ _ _ _ _ _ _ _ _ _ _ _ _ Hinv HL Hw' Hwr Hcl) as HL1.
  pose proof Hwr as (ms & -> & Hm1 & _). destruct Hinv as [_ Ht Hq Hpc]. set (e1 := set_mems ms (set_wal w e)) in *.
  assert (run_inv deep e1 pc (ains_all (eop_writes o) act) imms (sl_tab <$> S0)) as Hinv1.
  { split; [done|by apply (tables_repr_same e)|done|done]. }
  assert (disk_inv n e1 mt (S0 ++ xs) D deep) as HD1 by by apply (disk_inv_same n e).
  assert (shelf e1 S0 D xs ys) as Hsh1 by by apply (shelf_same e).
  assert (views (layers (ains_all (eop_writes o) act :: imms) (sl_tab <$> S0) deep) (write_all (eop_writes o) m)) as Hv1.
  { apply (views_write _ act _ m); [by eapply mem_is_act|done]. }
  destruct (Memtable_ShouldFlush mtb).
  - exists [], (ains_all (eop_writes o) act :: imms), S0, D, deep, xs, ys. split_and!; [by apply run_inv_scheduled|done|..|done|].
    + eapply shelf_same; [..|exact Hsh1]; unfold scheduled; destruct (WAL_Rotate _ _); unfold send_task; by destruct (_ <? _)%nat.
    + by apply pc_slots_cons.
    + eexists mt, _, dn, _, []. split.
      * apply (log_inv_scheduled _ _ _ _ _ _ _ _ _ _ _ _ HL1 Hm1 Emt Hrot); [|done].
        simpl. rewrite (wr_fileID _ _ Hw) in Hid. done.
      * eapply disk_inv_same; [..|exact HD1]; unfold scheduled; destruct (WAL_Rotate _ _); unfold send_task; by destruct (_ <? _)%nat.
  - exists (ains_all (eop_writes o) act), imms, S0, D, deep, xs, ys. split_and!; try done.
    by exists mt, (wop_spec s (WBatch (eop_records o))), dn, grps, pre.
Qed.

Lemma sys_op n o e pc m r e' :
  sys_inv n e pc m -> label_ok e (LOp o) -> clean (eop_writes o) -> (length (e_flushCh e) < flushCh_cap)%nat ->
  eop_run o e = (r, e') -> sys_inv n e' pc (match r with Ok _ => write_all (eop_writes o) m | _ => m end).
Proof. intros [cp H] ? ? ? ?. exists cp. by eapply sysc_op. Qed.

(** On a sound device such an operation succeeds. *)
Lemma sys_op_ok n o e pc m :
  sys_inv n e pc m -> clean (eop_writes o) -> Forall record_fits (eop_records o) -> paired o -> (eop_run o e).1 = Ok tt.
Proof.
  intros (cp & act & imms & S0 & D & deep & xs & ys & Hinv & _ & _ & _ & _ & mt & s & dn & grps & pre & HL & HD) Hcl Hfit Hp.
  destruct (eop_state o e act imms s (ri_mems _ _ _ _ _ _ Hinv) (li_wal _ _ _ _ _ _ _ _ _ HL) Hcl Hfit)
    as [[Hn _]|(w & e1 & mtb & _ & _ & _ & _ & ->)]; done.
Qed.

(** The readers while a flush runs. *)
Lemma shelf_add n e r mf f S0 D ys deep q size l :
  shelf e S0 D [] ys -> stored n e S0 D deep -> e_nextFileNum e + 1 < 2 ^ 64 -> table_repr r l ->
  shelf (flushed_state (set_flushCh q e) r mf f) S0 D [flush_slot e size l] ys.
Proof.
  intros Hsh HD Hnum Hr. pose proof Hsh as [H1 H2 H3 H4 H5]. pose proof (sd_next _ _ _ _ _ HD) as Hn.
  pose proof (u64_succ _ (proj1 Hn) Hnum) as Hu.
  assert ((S0 ++ [flush_slot e size l]) ++ concat D ++ ys ≡ₚ flush_slot e size l :: (S0 ++ []) ++ concat D ++ ys) as Hp.
  { rewrite app_nil_r, <- app_assoc. cbn [app]. by rewrite <- Permutation_middle. }
  split; rewrite ?Hp; try done.
  - constructor.
    + exists r. split; [|done]. simpl. by rewrite lookup_app_r, Nat.sub_diag.
    + apply (held_mono e); [|done]. intros p r' Hp'. by apply lookup_app_Some.
  - apply (filed_mono e); [simpl; rewrite Hu; lia| |done]. intros k Hk. simpl. by rewrite lookup_insert_ne by lia.
  - cbn [fmap list_fmap]. constructor; [|done]. intros (s & Hs & Hin)%list_elem_of_fmap.
    pose proof (shelf_allocated _ _ _ _ _ _ Hsh Hin). simpl in Hs. lia.
  - cbn [fmap list_fmap]. constructor; [|done]. rewrite app_nil_r, app_assoc, fmap_app, elem_of_app.
    intros [Hin|(s & Hs & Hin)%list_elem_of_fmap]; [by eapply (stored_fresh n e)|].
    rewrite Forall_forall in H3. destruct (H3 s Hin) as (_ & Hb & _). unfold sl_num at 1 in Hs. simpl in Hs. lia.
Qed.

Lemma shelf_publish e e' S0 D x ys r :
  shelf e S0 D [x] ys -> flush_publish (sl_ptr x) e = (r, e') -> shelf e' (S0 ++ [x]) D [] ys.
Proof.
  intros [H1 H2 H3 H4 H5]. unfold flush_publish. rewrite H1. cbn [fmap list_fmap]. intros [= _ <-].
  split; rewrite ?app_nil_r; try done. simpl. by rewrite fmap_app.
Qed.

Lemma sysc_step n lab e pc cp m e' pc' m' :
  sysc n e pc cp m -> label_ok e lab -> estep lab (e, pc) m (e', pc') m' -> sysc n e' pc' cp m'.
Proof.
  intros Hsys Hok H. destruct lab as [o| | | |]; [by inversion H; subst; eapply sysc_op|..];
    destruct Hsys as (act & imms & S0 & D & deep & xs & ys & Hinv & Hv & Hsh & Hxs & Hjob & Hdur);
    (destruct (flush_step_inv _ _ _ _ _ _ _ _ _ _ _ Hinv Hv H) as (-> & imms' & Hinv' & Hv' & Himm); [done|]);
    simpl in Hok; inversion H; subst; clear H; cbn [published] in Hinv', Hv'; simpl in Hxs.
  - subst xs. rewrite app_nil_r in Hdur.
    destruct (dur_write n deep D S0 e act imms (sl_tab <$> S0) m io task q mt l p e') as (r & f & size & mf & -> & -> & Hl & Htr & Hdur'); try done.
    exists act, imms, S0, D, deep, [flush_slot e size l], ys. split_and!; try done; [|by eexists _, l].
    destruct Hdur as (mt' & s & dn & grps & pre & _ & HD & _). by eapply shelf_add.
  - subst xs. destruct (dur_write_empty n (S0 ++ []) D deep e act m io task q e') as (Hdur' & files & -> & Hfiles); try done.
    exists act, imms, S0, D, deep, [], ys. split_and!; try done.
    destruct Hdur as (mt' & s & dn & grps & pre & _ & HD & _). pose proof (sd_next _ _ _ _ _ HD).
    apply (shelf_mono e); simpl; try done; [rewrite u64_succ; lia|]. intros k Hk. apply Hfiles. lia.
  - destruct Hxs as (meta & l & -> & Hl). rewrite Hl in Hinv', Hv'. simpl in Hinv', Hv'.
    exists act, imms', (S0 ++ [mkSlot p meta l]), D, deep, [], ys. rewrite fmap_app, app_nil_r.
    split_and!; try done; [by eapply (shelf_publish e _ _ _ (mkSlot p meta l))|by apply job_ok_publish|].
    unfold flush_publish in *. destruct (e_levels e);
      (match goal with H : (_, _) = (_, _) |- _ => injection H as _ <- end); by apply (dur_same n _ _ _ e _ (FWritten task p)).
  - subst xs. exists act, imms', S0, D, deep, [], ys. unfold removeImmutable in *. simplify_eq.
    split_and!; try done; [by apply (shelf_same e)|by apply (dur_same n _ _ _ e _ (FPublished task))].
  - subst xs. exists act, imms', S0, D, deep, [], ys. unfold removeImmutable in *. simplify_eq.
    split_and!; try done; [by apply (shelf_same e)|by apply (dur_same n _ _ _ e _ (FEmptied task))].
  - subst xs. exists act, imms', S0, D, deep, [], ys. split_and!; try done; [|by eapply dur_finish].
    unfold flush_finish in *. simplify_eq. destruct (0 <? ft_walID task); by apply (shelf_same e).
Qed.

Lemma sys_step n lab e pc m e' pc' m' :
  sys_inv n e pc m -> label_ok e lab -> estep lab (e, pc) m (e', pc') m' -> sys_inv n e' pc' m'.
Proof. intros [cp H] ? ?. exists cp. by eapply sysc_step. Qed.

(** ** Opening after a power failure *)

Lemma crash_synced n f : synced f = length (contents f) -> contents (crash n f) = contents f /\ synced (crash n f) = length (contents f).
Proof. intros H. simpl. by rewrite H, take_ge by lia. Qed.

Lemma table_file_crash n f t : table_file f t -> table_file (crash n f) t.
Proof.
  intros [Hs (r & Hr & Ht)]. destruct (crash_synced n f Hs) as [Hc Hs']. split; [by rewrite Hc|]. exists r. by rewrite Hc.
Qed.

(** The tables of [l] with the readers numbered from [b] on. *)
Fixpoint reopen (b : nat) (l : list slot) : list slot :=
  match l with
  | [] => []
  | s :: l => mkSlot b (sl_meta s) (sl_tab s) :: reopen (S b) l
  end.

Fixpoint reopen_levels (b : nat) (D : list (list slot)) : list (list slot) :=
  match D with
  | [] => []
  | l :: D => reopen b l :: reopen_levels (b + length l) D
  end.

Lemma reopen_map {A} (f : slot -> A) b l :
  (forall p s, f (mkSlot p (sl_meta s) (sl_tab s)) = f s) -> f <$> reopen b l = f <$> l.
Proof. intros Hf. revert b. induction l as [|s l IH]; intros b; [done|]. cbn [reopen fmap list_fmap]. by rewrite IH, Hf. Qed.

Lemma reopen_levels_map {A} (f : slot -> A) b D :
  (forall p s, f (mkSlot p (sl_meta s) (sl_tab s)) = f s) -> fmap (M:=list) f <$> reopen_levels b D = fmap (M:=list) f <$> D.
Proof. intros Hf. revert b. induction D as [|l D IH]; intros b; [done|]. cbn [reopen_levels fmap list_fmap]. by rewrite IH, reopen_map. Qed.

Lemma reopen_ptr b l : sl_ptr <$> reopen b l = seq b (length l).
Proof. revert b. induction l as [|s l IH]; intros b; [done|]. cbn [reopen fmap list_fmap length seq]. by rewrite IH. Qed.

Lemma reopen_app b l k : reopen b (l ++ k) = reopen b l ++ reopen (b + length l) k.
Proof.
  revert b. induction l as [|s l IH]; intros b; simpl; [by rewrite Nat.add_0_r|]. by rewrite IH, Nat.add_succ_r.
Qed.

Lemma reopen_concat b D : concat (reopen_levels b D) = reopen b (concat D).
Proof. revert b. induction D as [|l D IH]; intros b; [done|]. simpl. by rewrite IH, reopen_app. Qed.

Lemma reopen_Forall (P : slot -> Prop) b l :
  (forall p s, P s -> P (mkSlot p (sl_meta s) (sl_tab s))) -> Forall P l -> Forall P (reopen b l).
Proof. intros HP HF. revert b. induction HF; intros b; constructor; auto. Qed.

Lemma reopen_order b D deep :
  Forall2 (fun l ts => ordered (sl_tab <$> l) ts) D deep -> Forall2 (fun l ts => ordered (sl_tab <$> l) ts) (reopen_levels b D) deep.
Proof. intros HF. revert b. induction HF as [|l ts D deep Hl HF IH]; intros b; constructor; [by rewrite reopen_map|apply IH]. Qed.

(** A table whose file is among [tables]. *)
Definition readable (tables : gmap Z File) (s : slot) : Prop := exists f, tables !! sl_num s = Some f /\ table_file f (sl_tab s).

Lemma open_level_ok (tables : gmap Z File) l : Forall (readable tables) l -> forall rdrs,
  exists rs, open_level (fun _ => true) tables (sl_meta <$> l) rdrs = Ok (rdrs ++ rs, sl_ptr <$> reopen (length rdrs) l) /\
    Forall2 (fun r s => table_repr r (sl_tab s)) rs l.
Proof.
  induction 1 as [|s l (f & Ef & _ & r & Er & Ht) HF IH]; intros rdrs; cbn [open_level fmap list_fmap].
  { exists []. by rewrite app_nil_r. }
  unfold sl_num in Ef. rewrite Ef, Er. cbn [wrap_res]. rstep. destruct (IH (rdrs ++ [r])) as (rs & E & HF').
  change (list_fmap slot FileMetadata sl_meta l) with (sl_meta <$> l). rewrite E. rstep.
  exists (r :: rs). rewrite <- app_assoc, length_app. simpl. rewrite Nat.add_1_r. split; [done|]. by constructor.
Qed.

Lemma open_levels_ok (tables : gmap Z File) D : Forall (readable tables) (concat D) -> forall rdrs,
  exists rs, open_levels (fun _ => true) tables (fmap (M:=list) sl_meta <$> D) rdrs =
      Ok (rdrs ++ rs, fmap (M:=list) sl_ptr <$> reopen_levels (length rdrs) D) /\
    Forall2 (fun r s => table_repr r (sl_tab s)) rs (concat D).
Proof.
  induction D as [|l D IH]; intros HF rdrs; cbn [open_levels fmap list_fmap reopen_levels].
  { exists []. by rewrite app_nil_r. }
  cbn [concat] in HF. apply Forall_app in HF as [Hl HF]. destruct (open_level_ok _ _ Hl rdrs) as (r1 & E1 & H1). rewrite E1. rstep.
  destruct (IH HF (rdrs ++ r1)) as (r2 & E2 & H2).
  match goal with |- context [open_levels _ _ ?x _] => change x with (fmap (M:=list) sl_meta <$> D) end. rewrite E2. rstep.
  exists (r1 ++ r2). rewrite <- app_assoc, length_app, (Forall2_length _ _ _ H1). split; [done|]. by apply Forall2_app.
Qed.

Lemma held_reopened e pre rs l :
  e_rdrs e = pre ++ rs -> Forall2 (fun r s => table_repr r (sl_tab s)) rs l -> Forall (held e) (reopen (length pre) l).
Proof.
  intros He HF. revert pre He. induction HF as [|r s rs l Hr HF IH]; intros pre He; cbn [reopen]; constructor.
  - exists r. split; [|done]. rewrite He. simpl. by rewrite lookup_app_r, Nat.sub_diag.
  - replace (S (length pre)) with (length (pre ++ [r])) by (rewrite length_app; simpl; lia). apply IH. by rewrite <- app_assoc.
Qed.

Lemma max_file_num_bounds metas levels bound :
  concat levels = metas -> Forall (fun meta => 0 <= FileNum meta < bound) metas -> 0 < bound ->
  Forall (fun meta => FileNum meta <= max_file_num levels) metas /\ 0 <= max_file_num levels < bound.
Proof.
  intros <- HF Hb. unfold max_file_num.
  set (f := fun acc meta => if acc <? FileNum meta then FileNum meta else acc).
  assert (forall l acc, Forall (fun meta => 0 <= FileNum meta < bound) l -> 0 <= acc < bound ->
    acc <= foldl f acc l /\ 0 <= foldl f acc l < bound /\ Forall (fun meta => FileNum meta <= foldl f acc l) l) as H.
  { induction l as [|x l IH]; intros acc Hl Hacc; simpl; [split_and!; (done || lia)|].
    apply Forall_cons in Hl as [Hx Hl]. assert (acc <= f acc x /\ FileNum x <= f acc x /\ 0 <= f acc x < bound) as (H1 & H2 & H3).
    { unfold f. destruct (Z.ltb_spec acc (FileNum x)); lia. }
    destruct (IH (f acc x) Hl H3) as (H4 & H5 & H6). split_and!; try lia. constructor; [lia|done]. }
  destruct (H (concat levels) 0 HF ltac:(lia)) as (_ & H1 & H2). done.
Qed.

Lemma rec_ok_clean recs : Forall rec_ok recs -> clean (rec_write <$> recs).
Proof.
  intros H. apply Forall_fmap. eapply Forall_impl; [exact H|]. intros [t k v]. unfold rec_ok, rec_write.
  cbn [r_type r_key r_value snd]. intros [[-> Hv]|[-> Hv]]; [done|by subst].
Qed.

Lemma ains_all_clean ws l : clean ws -> clean l -> clean (ains_all ws l).
Proof.
  intros H. revert l. induction H as [|[k v] ws Hv H IH]; intros l Hl; [done|]. simpl. apply IH. by apply ains_clean.
Qed.

Lemma norm_records recs : Forall rec_ok recs -> norm_record <$> recs = recs.
Proof. induction 1 as [|r recs Hr H IH]; [done|]. cbn [fmap list_fmap]. by rewrite IH, rec_ok_norm. Qed.

Lemma ws_records_writes s : rec_write <$> ws_records s = seg_writes (ws_closed s) ++ (rec_write <$> ws_active s).
Proof. unfold ws_records, seg_writes. by rewrite fmap_app. Qed.

(** The disk of the crashed engine, piece by piece. *)
Lemma open_manifest_crashed n e nm :
  sound (S n) (e_manifest e) ->
  exists mf, OpenManifest (Ok []) (crash nm (d_manifest (Engine_disk e))) (S n) = Ok mf /\
    sound (S n) mf /\ mf_levels mf = mf_levels (e_manifest e).
Proof.
  intros (f & recs & [M1 M2 M3 M4 M5] & _). assert (d_manifest (Engine_disk e) = f) as -> by (simpl; by rewrite M1).
  destruct (crash_synced nm f M3) as [Hc Hs]. eexists. split.
  - apply (OpenManifest_replay recs []); [done|by rewrite Hc, app_nil_r|exact readRecord_nil].
  - split; [|by rewrite M4]. eexists _, recs. split; [split; cbn [mf_file mf_levels contents synced]; try done; by rewrite Hc|done].
Qed.

Lemma open_wal_crashed e s nw :
  wal_repr (e_wal e) s ->
  exists w, WAL_Open true true (Opened []) (map_imap (fun k f => Some (crash (nw k) f)) (d_wal (Engine_disk e))) 0 = Ok w /\ wal_repr w s.
Proof.
  intros Hw. destruct (WAL_Open_repr _ (ws_all s) 0 (dir_repr_crash _ _ nw (dir_repr_dirview _ _ Hw))) as (w & E & Hw').
  rewrite ws_open_all in Hw'. eauto.
Qed.

Definition crashed_tables (nt : Z -> nat) (e : Engine) : gmap Z File := map_imap (fun k f => Some (crash (nt k) f)) (e_files e).

Lemma tables_crashed n e S0 D deep nt :
  stored n e S0 D deep -> Forall (readable (crashed_tables nt e)) (concat (S0 :: D)).
Proof.
  intros HD. eapply Forall_impl; [exact (sd_files _ _ _ _ _ HD)|]. intros s (_ & _ & f & Ef & Ht).
  exists (crash (nt (sl_num s)) f). unfold crashed_tables. rewrite map_lookup_imap, Ef.
  split; [done|by apply table_file_crash].
Qed.

(** What [Open] needs of the log: replayed over the tables it gives [m]. *)
Record log_disk (e : Engine) (m mt : gmap bytes (option bytes)) (s : wspec) : Prop := {
  ld_wal : wal_repr (e_wal e) s;
  ld_records : Forall rec_ok (ws_records s);
  ld_map : write_all (rec_write <$> ws_records s) mt = m
}.

Lemma log_inv_disk e pc act m mt s dn grps pre : log_inv e pc act m mt s dn grps pre -> log_disk e m mt s.
Proof.
  intros [L1 L2 L3 _ _ L6 L7 _]. split; [done|done|].
  by rewrite ws_records_writes, L2, seg_writes_app, <- app_assoc, write_all_app, (absorbed_id _ _ L6).
Qed.

(** What else [Open] on the disk of [e] with the log [s] leaves. *)
Record reopened (e : Engine) (s : wspec) (e' : Engine) : Prop := {
  ro_queue : e_flushCh e' = [];
  ro_open : e_closed e' = false;
  ro_next : e_nextFileNum e' <= Z.max 1 (e_nextFileNum e);
  ro_mems : exists mtb, e_mems e' = [mtb] /\ mt_repr mtb (ains_all (rec_write <$> ws_records s) [])
}.

(** The engine [Open] builds from the tables of [e] and from a log that replays
    the records [recs]. *)

Section recovered.
Context (n : nat) (e : Engine) (mt : gmap bytes (option bytes)) (recs : list WRecord) (S0 : list slot) (D : list (list slot))
  (deep : list (list layer)) (Hrecs : Forall rec_ok recs) (HD : disk_inv n e mt S0 D deep).
Context (opts : Options) (w : WAL) (mtb : Memtable) (rs : list Reader) (mf : Manifest) (nt : Z -> nat)
  (Hmf : sound (S n) mf) (Hlev : mf_levels mf = mf_levels (e_manifest e))
  (Hrs : Forall2 (fun r s => table_repr r (sl_tab s)) rs (concat (S0 :: D)))
  (Hopts : MaxLevels opts = Z.of_nat (S n)).

Let writes : list (bytes * option bytes) := rec_write <$> recs.
Hypothesis Hmtb : mt_repr mtb (ains_all writes []).
Hypothesis Hfrozen : m_frozen mtb = false.

Definition recovered : Engine :=
  mkEngine opts w [mtb] 0 [] rs (fmap (M:=list) sl_ptr <$> reopen_levels 0 (S0 :: D)) mf [] false
    (u64 (max_file_num (mf_levels mf) + 1)) false (crashed_tables nt e).

Let S0' : list slot := reopen 0 S0.
Let D' : list (list slot) := reopen_levels (length S0) D.

Lemma recovered_slots : S0' ++ concat D' = reopen 0 (S0 ++ concat D).
Proof using. unfold S0', D'. by rewrite reopen_concat, reopen_app. Qed.

Lemma recovered_tabs : sl_tab <$> S0' = sl_tab <$> S0.
Proof using. by apply reopen_map. Qed.

Lemma recovered_act : views [ains_all writes []] (write_all writes ∅).
Proof using. apply ains_all_views; [constructor|exact views_nil]. Qed.

Lemma recovered_views : views (layers [ains_all writes []] (sl_tab <$> S0') deep) (write_all writes mt).
Proof.
  unfold layers. rewrite recovered_tabs. apply views_over; [exact recovered_act|apply HD].
Qed.

Lemma recovered_max :
  (sl_meta <$> S0 ++ concat D = [] /\ u64 (max_file_num (mf_levels mf) + 1) = 1) \/
  (u64 (max_file_num (mf_levels mf) + 1) = max_file_num (mf_levels mf) + 1 /\
   0 <= max_file_num (mf_levels mf) < e_nextFileNum e /\
   Forall (fun s => sl_num s <= max_file_num (mf_levels mf)) (S0 ++ concat D)).
Proof using HD Hlev.
  clear -HD Hlev. destruct HD as [[_ D2 D3 _ _ _ D7 _] _]. rewrite Hlev, D2.
  assert (concat (fmap (M:=list) sl_meta <$> (S0 :: D)) = sl_meta <$> S0 ++ concat D) as Hcc by (by rewrite concat_fmap).
  assert (Forall (fun meta => 0 <= FileNum meta < e_nextFileNum e) (sl_meta <$> S0 ++ concat D)) as Hn.
  { apply Forall_fmap. eapply Forall_impl; [exact D3|]. intros s0 (_ & Hb & _). exact Hb. }
  destruct (S0 ++ concat D) as [|s0 l] eqn:El; [left|right].
  - split; [done|]. unfold max_file_num. by rewrite Hcc.
  - assert (0 < e_nextFileNum e) as Hpos by (apply Forall_cons in Hn as [Hn _]; lia).
    destruct (max_file_num_bounds _ _ _ Hcc Hn Hpos) as [Hle Hmax]. split_and!; try done; [|lia|lia|].
    + unfold u64. rewrite Z.mod_small; lia.
    + exact (proj1 (Forall_fmap _ _ _) Hle).
Qed.

Lemma recovered_stored : stored n recovered S0' D' deep.
Proof.
  destruct HD as [[D1 D2 D3 D4 D5 D6 D7 D8] _].
  assert (Forall (fun s => 0 <= sl_num s < e_nextFileNum recovered) (S0 ++ concat D) /\ 0 <= e_nextFileNum recovered < 2 ^ 64) as [Hnum Hnext].
  { cbn [recovered e_nextFileNum]. destruct recovered_max as [[Hnil ->]|(-> & Hmax & Hle)].
    - apply fmap_nil_inv in Hnil. rewrite Hnil. done.
    - split; [|lia]. rewrite Forall_forall in Hle, D3 |- *. intros s0 Hin. specialize (Hle _ Hin). destruct (D3 _ Hin) as (_ & Hb & _). lia. }
  split; rewrite ?recovered_slots; try done.
  - cbn [recovered e_manifest]. rewrite Hlev, D2. cbn [fmap list_fmap]. f_equal; symmetry; [by apply reopen_map|by apply (reopen_levels_map sl_meta)].
  - apply reopen_Forall; [done|]. pose proof (tables_crashed n e S0 D deep nt (proj1 HD)) as Hr. cbn [concat] in Hr.
    rewrite Forall_forall in D3, Hnum, Hr |- *. intros s0 Hin. destruct (D3 _ Hin) as (? & _). split_and!; [done|by apply Hnum..|].
    by apply Hr.
  - rewrite reopen_map; done.
  - by apply reopen_Forall.
  - by apply reopen_order.
Qed.

Lemma recovered_shelf : shelf recovered S0' D' [] [].
Proof.
  split; rewrite ?app_nil_r, ?recovered_slots; try done.
  - by apply (held_reopened recovered [] rs).
  - rewrite reopen_ptr. apply NoDup_ListNoDup, seq_NoDup.
  - rewrite reopen_map by done. apply HD.
Qed.

Lemma recovered_run_inv : run_inv deep recovered FIdle (ains_all writes []) [] (sl_tab <$> S0').
Proof.
  split; [split|..]; simpl; try done.
  - repeat constructor. by exists mtb.
  - by exists mtb.
  - repeat constructor. set_solver.
  - repeat constructor. apply ains_all_clean; [|constructor]. by apply rec_ok_clean.
  - apply (shelf_tables n recovered S0' D' [] []); [|exact recovered_shelf]. rewrite app_nil_r. exact recovered_stored.
Qed.

Lemma recovered_dur s :
  wal_repr w s -> ws_records s = recs -> dur_inv n recovered FIdle (ains_all writes []) (write_all writes mt) S0' D' deep.
Proof.
  intros Hw Hs. exists mt, s, [], [], (ws_closed s). split.
  - split; simpl; try done.
    + by rewrite Hs.
    + rewrite <- ws_records_writes, Hs. exact recovered_act.
    + by rewrite <- ws_records_writes, Hs.
  - split; [exact recovered_stored|]. rewrite recovered_tabs. apply HD.
Qed.

Lemma recovered_sys s : wal_repr w s -> ws_records s = recs -> sysc n recovered FIdle CIdle (write_all writes mt).
Proof.
  intros Hw Hs. exists (ains_all writes []), [], S0', D', deep, [], []. rewrite app_nil_r.
  split_and!; [exact recovered_run_inv|exact recovered_views|exact recovered_shelf|done|done|by apply (recovered_dur s)].
Qed.

Lemma recovered_reopened s : ws_records s = recs -> reopened e s recovered.
Proof.
  intros Hs. split; cbn [recovered e_flushCh e_closed e_nextFileNum e_mems]; try done; [|exists mtb; by rewrite Hs].
  destruct recovered_max as [[_ ->]|(-> & Hmax & _)]; lia.
Qed.
End recovered.

(** [Open] on the tables of [e] after a power failure, with a log directory
    [dw] that replays [recs]. *)
Lemma open_recovered n e mt recs S0 D deep opts coins nm nt dw w :
  disk_inv n e mt S0 D deep -> MaxLevels (applyDefaults opts) = Z.of_nat (S n) -> Forall rec_ok recs ->
  WAL_Open true true (Opened []) dw 0 = Ok w -> (forall St (fn : WRecord -> M St unit) st, WAL_Replay fn w st = deliver fn recs st) ->
  exists mtb rs mf, sound (S n) mf /\ mf_levels mf = mf_levels (e_manifest e) /\
    Forall2 (fun r s => table_repr r (sl_tab s)) rs (concat (S0 :: D)) /\ mt_repr mtb (ains_all (rec_write <$> recs) []) /\ m_frozen mtb = false /\
    Engine_Open (open_ok coins) (mkDisk (crash nm (d_manifest (Engine_disk e))) (crashed_tables nt e) dw) opts =
      Ok (recovered e S0 D (applyDefaults opts) w mtb rs mf nt).
Proof.
  intros HD Hopts Hrecs Ew Hrep. pose proof HD as [Hst _].
  destruct (open_manifest_crashed n e nm (sd_sound _ _ _ _ _ Hst)) as (mf & Emf & Hmf & Hlev).
  destruct (open_levels_ok _ _ (tables_crashed _ _ _ _ _ nt Hst) []) as (rs & Ers & Hrs).
  destruct (replay_writes coins recs Hrecs (NewMemtable (MemtableSize (applyDefaults opts))) 0 []
    (NewMemtable_repr _) eq_refl) as (mtb & i & Erep & Hmtb & Hfr).
  exists mtb, rs, mf. split_and!; try done.
  unfold Engine_Open. cbn [open_ok oio_mkdir oio_manifest oio_table oio_wal_mkdir oio_wal_readdir oio_wal oio_coins negb d_manifest d_tables d_wal].
  rewrite Hopts, Nat2Z.id.
  match goal with |- context [OpenManifest _ ?f _] => change f with (crash nm (d_manifest (Engine_disk e))) end. rewrite Emf. cbn [wrap_res]. rstep.
  unfold Manifest_GetAllLevels. rewrite Hlev at 1. rewrite (sd_levels _ _ _ _ _ Hst), Ers. rstep. rewrite Ew. cbn [wrap_res]. rstep.
  rewrite Hrep, Erep. done.
Qed.

Lemma disk_recover n e m mt s S0 D deep opts coins nm nt nw :
  log_disk e m mt s -> disk_inv n e mt S0 D deep -> MaxLevels (applyDefaults opts) = Z.of_nat (S n) ->
  exists e', Engine_Open (open_ok coins) (disk_crash nm nt nw (Engine_disk e)) opts = Ok e' /\ sysc n e' FIdle CIdle m /\ reopened e s e'.
Proof.
  intros [L1 L2 <-] HD Hopts. destruct (open_wal_crashed e s nw L1) as (w & Ew & Hw).
  assert (forall St (fn : WRecord -> M St unit) st, WAL_Replay fn w st = deliver fn (ws_records s) st) as Hrep.
  { intros St fn st. by rewrite (WAL_Replay_repr fn w s st Hw), (norm_records _ L2). }
  destruct (open_recovered n e mt _ S0 D deep opts coins nm nt _ w HD Hopts L2 Ew Hrep) as (mtb & rs & mf & Hmf & Hlev & Hrs & Hmtb & Hfr & E).
  eexists. split; [exact E|]. split; [by eapply recovered_sys|by eapply recovered_reopened].
Qed.

(** An engine that is only known to read correctly. *)
Definition reads (e : Engine) (m : gmap bytes (option bytes)) : Prop :=
  exists deep act imms l0, run_inv deep e FIdle act imms l0 /\ views (layers (act :: imms) l0 deep) m.

(** The same with any log that replays [recs], also a torn one or none. *)
Lemma open_any_log n e mt recs S0 D deep opts coins nm nt dw w :
  disk_inv n e mt S0 D deep -> MaxLevels (applyDefaults opts) = Z.of_nat (S n) -> Forall rec_ok recs ->
  WAL_Open true true (Opened []) dw 0 = Ok w -> (forall St (fn : WRecord -> M St unit) st, WAL_Replay fn w st = deliver fn recs st) ->
  exists e', Engine_Open (open_ok coins) (mkDisk (crash nm (d_manifest (Engine_disk e))) (crashed_tables nt e) dw) opts = Ok e' /\
    reads e' (write_all (rec_write <$> recs) mt).
Proof.
  intros HD Hopts Hrecs Ew Hrep.
  destruct (open_recovered n e mt recs S0 D deep opts coins nm nt dw w HD Hopts Hrecs Ew Hrep) as (mtb & rs & mf & Hmf & Hlev & Hrs & Hmtb & Hfr & E).
  eexists. split; [exact E|]. exists deep, (ains_all (rec_write <$> recs) []), [], (sl_tab <$> reopen 0 S0).
  split; [by eapply recovered_run_inv|by eapply recovered_views].
Qed.

(** ** A power failure inside a flush or a compaction *)

(** Table files a flush or a compaction had begun have numbers not yet in use. *)
Definition unfinished (e : Engine) (extra : gmap Z File) : Prop := forall k f, extra !! k = Some f -> e_nextFileNum e <= k.
Definition with_tables (extra : gmap Z File) (e : Engine) : Engine := set_tables (e_nextFileNum e) (extra ∪ e_files e) e.

Lemma sys_recover_tables n e pc m extra opts coins nm nt nw :
  sys_inv n e pc m -> unfinished e extra -> MaxLevels (applyDefaults opts) = Z.of_nat (S n) ->
  exists e', Engine_Open (open_ok coins) (disk_crash nm nt nw (Engine_disk (with_tables extra e))) opts = Ok e' /\ sysc n e' FIdle CIdle m.
Proof.
  intros (cp & act & imms & S0 & D & deep & xs & ys & _ & _ & _ & _ & _ & mt & s & dn & grps & pre & HL%log_inv_disk & [HD Hv]) Hx Hn.
  assert (disk_inv n (with_tables extra e) mt (S0 ++ xs) D deep) as HD'.
  { split; [|done]. apply (stored_mono n e); try done; [simpl; pose proof (sd_next _ _ _ _ _ HD); lia|].
    intros k Hk. apply lookup_union_r. destruct (extra !! k) eqn:Ek; [|done]. apply Hx in Ek. lia. }
  destruct (disk_recover n (with_tables extra e) m mt s (S0 ++ xs) D deep opts coins nm nt nw) as (e' & E & Hs & _); [by destruct HL|done..|]. eauto.
Qed.

(** ** A power failure inside an operation *)

Definition with_log_faults (plan : list fault) (e : Engine) : Engine := set_wal (log_faults plan (e_wal e)) e.

(** An operation meets a device that fails at any of its calls and power goes:
    [Open] finds everything written before and the first [j] of its writes. *)
Lemma sysc_interrupted n o e pc cp m plan err e1 opts coins nm nt nw :
  sysc n e pc cp m -> MaxLevels (applyDefaults opts) = Z.of_nat (S n) ->
  clean (eop_writes o) -> Forall record_fits (eop_records o) -> paired o ->
  eop_run o (with_log_faults plan e) = (Err err, e1) ->
  exists j e', Engine_Open (open_ok coins) (disk_crash nm nt nw (Engine_disk e1)) opts = Ok e' /\
    reads e' (write_all (take j (eop_writes o)) m).
Proof.
  intros (act & imms & S0 & D & deep & xs & ys & Hinv & _ & _ & _ & _ & mt & s & dn & grps & pre & HL & HD) Hopts Hc Hfit Hp E.
  destruct (eop_refused o (with_log_faults plan e) act imms err e1) as (r & w1 & EW & ->); [|done..|].
  { by apply (mems_repr_same e), (ri_mems _ _ _ _ _ _ Hinv). }
  destruct (log_inv_disk _ _ _ _ _ _ _ _ _ HL) as [L1 L2 L3].
  destruct (batch_interrupted _ _ plan _ r w1 nw L1 Hfit EW) as (j & Hd). exists j.
  destruct (WAL_Open_torn _ _ _ _ 0 Hd) as (w & Ew & Hrep).
  set (recs := concat (ws_closed s).*2 ++ ws_active s ++ take j (eop_records o)) in *.
  assert (recs = ws_records s ++ take j (eop_records o)) as Hrec by (unfold recs, ws_records; by rewrite app_assoc).
  assert (Forall rec_ok recs) as Hok.
  { rewrite Hrec. apply Forall_app_2; [done|]. by apply Forall_take, eop_records_ok. }
  rewrite (norm_records _ Hok) in Hrep.
  destruct (open_any_log n e mt recs (S0 ++ xs) D deep opts coins nm nt _ w HD Hopts Hok Ew Hrep) as (e' & E' & Hr).
  exists e'. split; [exact E'|]. rewrite Hrec, fmap_app, write_all_app, L3, fmap_take, eop_records_writes in Hr. exact Hr.
Qed.

Lemma concat_empty {A} n : concat (replicate n (@nil A)) = [].
Proof. by induction n. Qed.

Lemma sys_new opts n w :
  wal_repr w (ws_open []) -> MaxLevels opts = Z.of_nat (S n) -> sysc n (new_engine opts n w) FIdle CIdle ∅.
Proof.
  intros Hw Hopts. exists [], [], [], (replicate n []), (replicate n []), [], [].
  split_and!; [apply new_engine_inv|apply views_new| |done|done|].
  - split; simpl; rewrite ?concat_empty; try done; try constructor. by rewrite fmap_replicate.
  - exists ∅, (ws_open []), [], [], []. split; [split; simpl; try done; exact views_nil|].
    split; [|apply (views_new n)]. split; simpl; rewrite ?concat_empty; try done; try constructor.
    + eexists _, []. split; [apply mf_repr_empty|done].
    + by rewrite fmap_replicate.
    + clear. induction n as [|n IH]; constructor; [|done]. split_and!; [done|constructor..].
Qed.

Lemma sys_get n e pc m : sys_inv n e pc m -> forall k, Engine_Get k e = answer (m !! k).
Proof.
  intros (cp & act & imms & S0 & D & deep & xs & ys & Hinv & Hv & _) k. by rewrite (Engine_Get_repr _ _ _ _ (run_engine_repr _ _ _ _ _ _ Hinv)), Hv.
Qed.
