(* ===== verification/CompactInstall.v ===== *)
(** * engine/compaction.go: installing the output of a compaction

    The part of [compactL0] and [compactLevel] under the write lock: the
    manifest drops the merged files and gains the new ones, [levels] follows,
    and readers and files that are no longer used are closed and removed.  From
    any state of the system in which a compaction has written its output,
    [install] succeeds and changes neither the map nor what [Open] restores. *)

From S2P Require Import Prelude GoStd SkipList Memtable Bloom Wal SSTWriter SSTReader SSTIterator GoHeap MergeIterator Manifest Engine EngineRun Compaction CompactOutput CompactTables Shelf Recovery.

(** ** The manifest *)

Lemma apply_all_length recs : forall levels, length (apply_all recs levels) = length levels.
Proof.
  induction recs as [|rec recs IH]; intros levels; [done|]. change (apply_all (rec :: recs) levels) with (apply_all recs (applyRecord rec levels)).
  rewrite IH. unfold applyRecord, on_level. destruct (_ || _); [done|]. by rewrite length_alter.
Qed.

Lemma sound_length n m : sound n m -> length (mf_levels m) = n.
Proof. intros (f & recs & [_ _ _ -> _] & _). rewrite apply_all_length. apply length_replicate. Qed.

Lemma mfop_level n m o j g :
  sound n m -> meta_fits (mr_meta (mfop_record o)) -> Level (mr_meta (mfop_record o)) = Z.of_nat j -> (j < n)%nat ->
  (forall levels, applyRecord (mfop_record o) levels = on_level (Z.of_nat j) g levels) ->
  exists m', mfop_run o m = (Ok tt, m') /\ sound n m' /\ mf_levels m' = alter g j (mf_levels m).
Proof.
  intros Hm Hfit Hlv Hj Hg. pose proof (sound_length _ _ Hm) as Hlen. destruct Hm as (f & recs & Hm & Hh).
  destruct (mfop_run_ok n o m f recs Hm Hh Hfit) as (m' & f' & E & Hm' & Hh'). exists m'. split_and!; [done|by eexists _, _|].
  rewrite (mp_levels _ _ _ _ Hm'), apply_all_snoc, <- (mp_levels _ _ _ _ Hm), Hg. unfold on_level.
  rewrite (proj2 (Z.ltb_ge _ 0)), (proj2 (Z.leb_gt _ _)) by (unfold len; lia). simpl. by rewrite Nat2Z.id.
Qed.

Lemma remove_files_run n j metas : (j < n)%nat -> Z.of_nat j < 2 ^ 32 -> Forall (fun m => 0 <= FileNum m < 2 ^ 64) metas -> forall e,
  sound n (e_manifest e) ->
  exists m', remove_files metas (Z.of_nat j) e = (Ok tt, set_manifest m' e) /\ sound n m' /\
    mf_levels m' = alter (fun fs => foldl (fun fs m => remove_file (FileNum m) fs) fs metas) j (mf_levels (e_manifest e)).
Proof.
  intros Hj Hj32. induction 1 as [|meta metas Hmeta Hmetas IH]; intros e Hm.
  { exists (e_manifest e). split_and!; [by destruct e|done|]. symmetry. by apply list_alter_id. }
  cbn [remove_files]. destruct (mfop_level n (e_manifest e) (MRemove (FileNum meta) (Z.of_nat j)) j (remove_file (FileNum meta)))
    as (m1 & E1 & Hm1 & Hl1); try done.
  { unfold meta_fits. simpl. unfold len. simpl. lia. }
  cbn [mfop_run] in E1. destruct (IH (set_manifest m1 e) Hm1) as (m2 & E2 & Hm2 & Hl2). exists m2. split_and!; [|done|].
  - rewrite (M_bind_run _ _ _ tt (set_manifest m1 e)) by (unfold on_manifest; by rewrite E1). exact E2.
  - rewrite Hl2. simpl. by rewrite Hl1, alter_alter.
Qed.

Lemma add_files_run n j metas : (j < n)%nat -> Forall (fun m => meta_fits m /\ Level m = Z.of_nat j) metas -> forall e,
  sound n (e_manifest e) ->
  exists m', add_files metas e = (Ok tt, set_manifest m' e) /\ sound n m' /\
    mf_levels m' = alter (fun fs => fs ++ metas) j (mf_levels (e_manifest e)).
Proof.
  intros Hj. induction 1 as [|meta metas [Hfit Hlv] Hmetas IH]; intros e Hm.
  { exists (e_manifest e). split_and!; [by destruct e|done|]. symmetry. apply list_alter_id. intros; by rewrite app_nil_r. }
  cbn [add_files]. destruct (mfop_level n (e_manifest e) (MAdd meta) j (fun fs => fs ++ [meta])) as (m1 & E1 & Hm1 & Hl1); try done.
  { intros levels. unfold applyRecord. simpl. by rewrite Hlv. }
  cbn [mfop_run] in E1. destruct (IH (set_manifest m1 e) Hm1) as (m2 & E2 & Hm2 & Hl2). exists m2. split_and!; [|done|].
  - rewrite (M_bind_run _ _ _ tt (set_manifest m1 e)) by (unfold on_manifest; by rewrite E1). exact E2.
  - rewrite Hl2. simpl. rewrite Hl1, alter_alter. apply list_alter_ext; [|done].
    intros fs _. by rewrite <- app_assoc.
Qed.

(** With distinct numbers, removing files is filtering. *)
Lemma remove_file_filter num fs :
  NoDup (FileNum <$> fs) -> remove_file num fs = filter (fun m => FileNum m <> num) fs.
Proof.
  induction fs as [|m fs IH]; [done|]. cbn [fmap list_fmap remove_file]. intros [Hni Hnd]%NoDup_cons. rewrite filter_cons.
  destruct (Z.eqb_spec (FileNum m) num) as [Heq|Hneq].
  - rewrite decide_False by tauto. rewrite filter_all; [done|]. intros x Hx Heq'. apply Hni. rewrite Heq, <- Heq'.
    apply list_elem_of_fmap. by exists x.
  - rewrite decide_True by done. by rewrite IH.
Qed.

Lemma remove_all_filter metas : forall fs,
  NoDup (FileNum <$> fs) ->
  foldl (fun fs m => remove_file (FileNum m) fs) fs metas = filter (fun m => FileNum m ∉ FileNum <$> metas) fs.
Proof.
  induction metas as [|m metas IH]; intros fs Hnd; cbn [foldl].
  { symmetry. apply filter_all. intros x _. apply not_elem_of_nil. }
  rewrite remove_file_filter by done. rewrite IH.
  - rewrite list_filter_filter. apply list_filter_iff. intros x. cbn [fmap list_fmap]. rewrite not_elem_of_cons. tauto.
  - eapply sublist_NoDup; [exact Hnd|]. apply fmap_sublist, sublist_filter.
Qed.

(** ** Installing *)

Lemma remove_tables_run io metas : forall e,
  exists files, remove_tables io metas e = (Ok tt, set_tables (e_nextFileNum e) files e) /\
    forall n, n ∉ FileNum <$> metas -> files !! n = e_files e !! n.
Proof.
  induction metas as [|m metas IH]; intros e; [exists (e_files e); split; [by destruct e|done]|].
  cbn [remove_tables]. unfold remove_table, mbind, M_bind. destruct (io_remove io).
  - destruct (IH (set_tables (e_nextFileNum e) (delete (FileNum m) (e_files e)) e)) as (files & E & Hf). exists files.
    split; [exact E|]. intros n. cbn [fmap list_fmap]. rewrite not_elem_of_cons. intros [Hne Hn]. rewrite Hf by done.
    simpl. by rewrite lookup_delete_ne.
  - destruct (IH e) as (files & E & Hf). exists files. split; [exact E|]. intros n. cbn [fmap list_fmap].
    rewrite not_elem_of_cons. intros [_ Hn]. auto.
Qed.

Lemma update_level_run j f ps e :
  e_levels e !! j = Some ps ->
  update_level (Z.of_nat j) f e = (Ok tt, set_readers (e_rdrs e) (<[j := f ps]> (e_levels e)) e).
Proof.
  intros Hj. unfold update_level, index. by rewrite (proj2 (Z.leb_le 0 _)), Nat2Z.id, Hj by lia.
Qed.

(** The engine after the installation of a compaction of level [j]. *)
Definition installed (c : compaction) (j : nat) (ps1 ps2 : list nat) (m : Manifest) (files : gmap Z File) (rs : list Reader) (e : Engine) : Engine :=
  set_tables (e_nextFileNum e) files (set_readers rs
    (<[S j := removeReaders ps2 (c_dstReaders c) ++ c_newReaders c]> (<[j := removeReaders ps1 (c_srcReaders c)]> (e_levels e)))
    (set_manifest m e)).

Lemma install_run io c n j ps1 ps2 e :
  sound n (e_manifest e) -> c_level c = Z.of_nat j -> (S j < n)%nat -> Z.of_nat (S j) < 2 ^ 32 ->
  e_levels e !! j = Some ps1 -> e_levels e !! S j = Some ps2 ->
  Forall (fun m => 0 <= FileNum m < 2 ^ 64) (c_srcMetas c) -> Forall (fun m => 0 <= FileNum m < 2 ^ 64) (c_dstMetas c) ->
  Forall (fun m => meta_fits m /\ Level m = Z.of_nat (S j)) (c_newMetas c) ->
  exists m' files rs, install io c e = (Ok tt, installed c j ps1 ps2 m' files rs e) /\ sound n m' /\
    mf_levels m' = alter (fun fs => foldl (fun fs m => remove_file (FileNum m) fs) fs (c_dstMetas c) ++ c_newMetas c) (S j)
      (alter (fun fs => foldl (fun fs m => remove_file (FileNum m) fs) fs (c_srcMetas c)) j (mf_levels (e_manifest e))) /\
    (forall k, k ∉ FileNum <$> c_srcMetas c -> k ∉ FileNum <$> c_dstMetas c -> files !! k = e_files e !! k) /\
    forall p, p ∉ c_srcReaders c -> p ∉ c_dstReaders c -> rs !! p = e_rdrs e !! p.
Proof.
  intros Hm Hc Hj Hn Hp1 Hp2 Hsrc Hdst Hnew. unfold install. rewrite Hc. replace (Z.of_nat j + 1) with (Z.of_nat (S j)) by lia.
  destruct (remove_files_run n j (c_srcMetas c) ltac:(lia) ltac:(lia) Hsrc e Hm) as (m1 & E1 & Hm1 & Hl1).
  rewrite (M_bind_run _ _ _ _ _ E1).
  destruct (remove_files_run n (S j) (c_dstMetas c) ltac:(lia) ltac:(lia) Hdst (set_manifest m1 e) Hm1) as (m2 & E2 & Hm2 & Hl2).
  rewrite (M_bind_run _ _ _ _ _ E2).
  destruct (add_files_run n (S j) (c_newMetas c) ltac:(lia) Hnew (set_manifest m2 (set_manifest m1 e)) Hm2) as (m3 & E3 & Hm3 & Hl3).
  rewrite (M_bind_run _ _ _ _ _ E3). change (set_manifest m3 (set_manifest m2 (set_manifest m1 e))) with (set_manifest m3 e).
  pose proof (lookup_lt_Some _ _ _ Hp1) as Hlt1. pose proof (lookup_lt_Some _ _ _ Hp2) as Hlt2.
  rewrite (M_bind_run _ _ _ _ _ (update_level_run j _ ps1 (set_manifest m3 e) Hp1)). set (e4 := set_readers _ _ _).
  assert (e_levels e4 !! S j = Some ps2) as Hp4 by (simpl; by rewrite list_lookup_insert_ne by lia).
  rewrite (M_bind_run _ _ _ _ _ (update_level_run (S j) _ ps2 e4 Hp4)). set (e5 := set_readers _ _ _).
  assert (e_levels e5 !! S j = Some (removeReaders ps2 (c_dstReaders c))) as Hp5.
  { simpl. apply list_lookup_insert_eq. by rewrite length_insert. }
  rewrite (M_bind_run _ _ _ _ _ (update_level_run (S j) _ _ e5 Hp5)). set (e6 := set_readers _ _ _).
  destruct (close_readers_run (c_srcReaders c) e6) as (ra & Ea & Hra). rewrite (M_bind_run _ _ _ _ _ Ea). set (ea := set_readers ra _ _).
  destruct (close_readers_run (c_dstReaders c) ea) as (rb & Eb & Hrb). rewrite (M_bind_run _ _ _ _ _ Eb). set (eb := set_readers rb _ _).
  destruct (remove_tables_run io (c_srcMetas c) eb) as (f7 & E7 & Hf7). rewrite (M_bind_run _ _ _ _ _ E7).
  destruct (remove_tables_run io (c_dstMetas c) (set_tables (e_nextFileNum eb) f7 eb)) as (f8 & E8 & Hf8).
  exists m3, f8, rb. split_and!; [|done| | |].
  - rewrite E8. unfold installed, eb, ea, e6, e5, e4. simpl. by rewrite list_insert_insert_eq.
  - rewrite Hl3. simpl. rewrite Hl2. simpl. by rewrite Hl1, alter_alter.
  - intros k Hk1 Hk2. rewrite Hf8 by done. simpl. by rewrite Hf7 by done.
  - intros p Hp Hp'. rewrite Hrb by done. simpl. by rewrite Hra by done.
Qed.

(** ** Tables that leave their level *)

Section leaving.
Context {A : Type} `{!EqDecision A} (f : slot -> A).

Lemma leave_chosen (P : slot -> bool) l :
  NoDup (f <$> l) -> filter (fun s => f s ∉ f <$> filter (fun s => P s = true) l) l = filter (fun s => P s = false) l.
Proof using.
  intros Hnd. apply filter_ext_in. intros s Hs. split.
  - intros Hni. destruct (P s) eqn:E; [|done]. destruct Hni. apply list_elem_of_fmap. exists s. split; [done|]. by apply list_elem_of_filter.
  - intros Hs' (s' & Heq & [HP Hin]%list_elem_of_filter)%list_elem_of_fmap. assert (s = s') as ->; [|congruence].
    apply list_elem_of_lookup in Hs as (i & Hi), Hin as (k & Hk).
    assert (i = k) as ->; [|congruence]. apply (NoDup_lookup _ _ _ (f s) Hnd); rewrite list_lookup_fmap; [by rewrite Hi|by rewrite Hk, Heq].
Qed.

Lemma leave_prefix l k : NoDup (f <$> l ++ k) -> filter (fun s => f s ∉ f <$> l) (l ++ k) = k.
Proof using.
  rewrite fmap_app. intros (_ & Hd & _)%NoDup_app. rewrite filter_app.
  assert (filter (fun s => f s ∉ f <$> l) l = []) as ->.
  { apply filter_drop, Forall_forall. intros s Hs Hni. apply Hni, list_elem_of_fmap. eauto. }
  apply filter_all. intros s Hs Hin. apply (Hd _ Hin), list_elem_of_fmap. eauto.
Qed.
End leaving.

Lemma remove_metas l gone :
  NoDup (sl_num <$> l) ->
  foldl (fun fs m => remove_file (FileNum m) fs) (sl_meta <$> l) (sl_meta <$> gone) =
  sl_meta <$> filter (fun s => sl_num s ∉ sl_num <$> gone) l.
Proof.
  intros Hnd. rewrite remove_all_filter by (by rewrite <- list_fmap_compose). symmetry.
  apply filter_fmap. intros s. by rewrite <- list_fmap_compose.
Qed.

Lemma remove_ptrs l gone :
  removeReaders (sl_ptr <$> l) (sl_ptr <$> gone) = sl_ptr <$> filter (fun s => sl_ptr s ∉ sl_ptr <$> gone) l.
Proof. symmetry. by apply filter_fmap. Qed.

Lemma level_sublist {A} (levels : list (list A)) j l : levels !! j = Some l -> l `sublist_of` concat levels.
Proof.
  revert j. induction levels as [|k levels IH]; intros [|j] H; simplify_eq/=; [by apply sublist_inserts_r|].
  apply sublist_inserts_l. eauto.
Qed.

(** ** The levels of a compaction *)

Section levels.
Context (c : compaction) (S0 : list slot) (D : list (list slot)) (ys : list slot).
Context (j : nat) (src rest dst : list slot) (vt : layer) (HJ : job c S0 D ys j src rest dst vt).

Definition gone : list slot := filter (fun s => over vt (range_of (sl_tab s)) = true) dst.
Definition kept : list slot := filter (fun s => over vt (range_of (sl_tab s)) = false) dst.
Definition new_S0 : list slot := match j with O => rest | S _ => S0 end.
Definition new_D : list (list slot) :=
  match j with O => <[0%nat := kept ++ ys]> D | S i => <[S i := kept ++ ys]> (<[i := rest]> D) end.
Definition beside (zs : list slot) : list slot := match j with O => zs | S _ => [] end.

Lemma old_levels zs : ((S0 ++ zs) :: D) !! j = Some (src ++ rest ++ beside zs) /\ ((S0 ++ zs) :: D) !! S j = Some dst.
Proof using HJ.
  split; [|exact (jb_dst _ _ _ _ _ _ _ _ _ HJ)]. pose proof (jb_src _ _ _ _ _ _ _ _ _ HJ) as Hs. clear HJ. unfold beside.
  destruct j as [|i]; simpl in *; [|by rewrite app_nil_r]. injection Hs as ->. by rewrite app_assoc.
Qed.

Lemma new_levels zs : (new_S0 ++ zs) :: new_D = <[S j := kept ++ ys]> (<[j := rest ++ beside zs]> ((S0 ++ zs) :: D)).
Proof using. clear HJ. unfold new_S0, new_D, beside. destruct j as [|i]; simpl; [done|]. by rewrite app_nil_r. Qed.

Lemma levels_split zs :
  exists others, (S0 ++ zs) ++ concat D ≡ₚ others ++ src ++ gone /\ (new_S0 ++ zs) ++ concat new_D ≡ₚ others ++ ys.
Proof using HJ.
  destruct (old_levels zs) as [H1 H2].
  change ((S0 ++ zs) ++ concat D) with (concat ((S0 ++ zs) :: D)). change ((new_S0 ++ zs) ++ concat new_D) with (concat ((new_S0 ++ zs) :: new_D)).
  rewrite (f_equal (@concat _) (split2 _ _ _ _ H1 H2)).
  rewrite new_levels, (insert2 _ _ _ _ _ _ H1 H2), !concat_app. cbn [concat].
  set (A := concat (take _ _)). set (B := concat (drop _ _)).
  exists (A ++ rest ++ beside zs ++ kept ++ B).
  assert (dst ≡ₚ gone ++ kept) as -> by apply (filter_split (fun s => over vt (range_of (sl_tab s)))).
  split; solve_Permutation.
Qed.

(** ** The layers of a compaction *)

Context (deep : list (list layer)) (Hord : Forall2 (fun l ts => ordered (sl_tab <$> l) ts) D deep).

Definition src_level : list layer := match j with O => [vt] | S i => default [] (deep !! i) end.
Definition dst_level : list layer := default [] (deep !! j).
Definition new_deep : list (list layer) :=
  match j with
  | O => <[0%nat := moved_dst dst_level vt (sl_tab <$> ys)]> deep
  | S i => <[S i := moved_dst dst_level vt (sl_tab <$> ys)]> (<[i := moved_src src_level vt]> deep)
  end.

Lemma dst_ordered : deep !! j = Some dst_level /\ ordered (sl_tab <$> dst) dst_level.
Proof using HJ Hord.
  destruct (Forall2_lookup_l _ _ _ _ _ Hord (jb_dst _ _ _ _ _ _ _ _ _ HJ)) as (ts & Hts & Ho). unfold dst_level. by rewrite Hts.
Qed.

Lemma src_ordered :
  ksorted (concat src_level) /\ Forall (fun t : layer => t <> []) src_level /\ vt ∈ src_level /\
  match j with O => True | S i => deep !! i = Some src_level /\ ordered (sl_tab <$> rest) (moved_src src_level vt) end.
Proof using HJ Hord.
  destruct HJ as [_ _ J2 _ _ _ _ _ _ _ _ _ (V1 & V2 & V3) _ _ _ _]. clear HJ. unfold src_level. destruct j as [|i].
  - simpl. rewrite app_nil_r. split_and!; [done|by constructor|left|done].
  - destruct V3 as (s & -> & ->). simpl in J2. destruct (Forall2_lookup_l _ _ _ _ _ Hord J2) as (ts & Hts & O1 & O2 & O3).
    rewrite Hts. simpl. assert (sl_tab s ∈ ts) as Hin by (rewrite O1; left). split_and!; try done.
    assert (sl_tab <$> rest ≡ₚ moved_src ts (sl_tab s)) as Hp.
    { apply (Permutation_cons_inv (a := sl_tab s)). etrans; [symmetry; exact O1|]. by apply moved_src_perm. }
    split_and!; [by symmetry|by apply ksorted_filter|by apply forall_filter].
Qed.

Lemma gone_over : sl_tab <$> gone ≡ₚ filter (fun x => over vt (range_of x) = true) dst_level.
Proof using HJ Hord.
  destruct dst_ordered as [_ (O1 & _)]. unfold gone.
  rewrite (filter_fmap sl_tab (fun x => over vt (range_of x) = true) (fun s => over vt (range_of (sl_tab s)) = true)) by done. by rewrite O1.
Qed.

Lemma new_dst_ordered : ordered (sl_tab <$> kept ++ ys) (moved_dst dst_level vt (sl_tab <$> ys)).
Proof using HJ Hord.
  destruct dst_ordered as [_ (O1 & O2 & O3)], src_ordered as (S1 & S2 & S3 & _). pose proof gone_over as Hov.
  pose proof HJ as [_ _ _ _ _ _ _ _ _ _ _ J10 _ J12 J13 J14 _].
  assert (Forall (fun t : layer => t <> []) (sl_tab <$> ys)) as Hne by by apply Forall_fmap.
  split_and!.
  - rewrite (moved_dst_perm src_level dst_level S1 S2 O2 O3 vt _ S3), fmap_app. f_equiv. unfold kept.
    rewrite (filter_fmap sl_tab (fun x => over vt (range_of x) = false) (fun s => over vt (range_of (sl_tab s)) = false)) by done. by rewrite O1.
  - by apply (moved_dst_sorted src_level dst_level S1 S2 O2 O3 vt (concat (sl_tab <$> ys)) (sl_tab <$> gone)).
  - by apply moved_dst_nonempty.
Qed.

Lemma new_ordered : Forall2 (fun l ts => ordered (sl_tab <$> l) ts) new_D new_deep.
Proof using HJ Hord.
  pose proof new_dst_ordered as Hd. destruct src_ordered as (_ & _ & _ & Hs). unfold new_D, new_deep.
  clear HJ. destruct j as [|i]; [by apply Forall2_insert|]. apply Forall2_insert; [|done]. apply Forall2_insert; [done|apply Hs].
Qed.

(** Both levels answer as before. *)
Lemma new_view k : view k [concat (moved_src src_level vt); concat (moved_dst dst_level vt (sl_tab <$> ys))] =
  view k [concat src_level; concat dst_level].
Proof using HJ Hord.
  destruct dst_ordered as [_ (O1 & O2 & O3)], src_ordered as (S1 & S2 & S3 & _). pose proof gone_over as Hov.
  pose proof HJ as [_ _ _ _ _ _ _ _ _ _ _ J10 _ J12 J13 J14 _].
  assert (Forall (fun t : layer => t <> []) (sl_tab <$> ys)) as Hne by by apply Forall_fmap.
  by apply (moved_view src_level dst_level S1 S2 O2 O3 vt (concat (sl_tab <$> ys)) (sl_tab <$> gone)).
Qed.

Lemma view_two (ls ls' : list layer) a b a' b' k :
  view k [a; b] = view k [a'; b'] -> view k (ls ++ a :: b :: ls') = view k (ls ++ a' :: b' :: ls').
Proof using.
  intros H. rewrite !view_app. destruct (view k ls); [done|]. simpl in *.
  destruct (assoc k a), (assoc k b), (assoc k a'), (assoc k b'); congruence.
Qed.

Lemma new_layers ms zs k :
  (forall k, assoc k vt = view k (reverse (sl_tab <$> src))) ->
  view k (layers ms (sl_tab <$> new_S0 ++ zs) new_deep) = view k (layers ms (sl_tab <$> S0 ++ zs) deep).
Proof using HJ Hord.
  intros Hvt. pose proof (new_view k) as Hv. destruct dst_ordered as [Hd _], src_ordered as (_ & _ & _ & Hs).
  pose proof (jb_src _ _ _ _ _ _ _ _ _ HJ) as Hj. unfold layers, new_S0, new_deep. unfold src_level in Hv, Hs |- *. clear HJ. destruct j as [|i].
  - injection Hj as ->. destruct deep as [|ts deeper]; [done|]. injection Hd as Hd. rewrite Hd. simpl.
    rewrite <- app_assoc, !fmap_app, !reverse_app, !view_app. destruct (view k ms); [done|].
    destruct (view k (reverse (sl_tab <$> zs))); [done|]. destruct (view k (reverse (sl_tab <$> rest))); [done|].
    unfold moved_src in Hv. rewrite filter_drop in Hv by (constructor; [|done]; unfold same; by rewrite bool_decide_eq_true_2).
    simpl in Hv |- *. rewrite app_nil_r, (Hvt k) in Hv. destruct (view k (reverse (sl_tab <$> src))), (assoc k (concat dst_level)), (assoc k (concat (moved_dst _ _ _))); simplify_eq; done.
  - destruct Hs as [Hi _]. simpl in Hd. rewrite (insert2 _ _ _ _ _ _ Hi Hd), (f_equal (fmap (M:=list) (@concat _)) (split2 _ _ _ _ Hi Hd)).
    rewrite !fmap_app. cbn [fmap list_fmap]. rewrite !(view_app k ms), !(view_app k (reverse _)).
    destruct (view k ms); [done|]. destruct (view k (reverse _)); [done|]. by apply view_two.
Qed.
End levels.

(** ** The installation *)

Lemma alter_fmap_insert {A B} (g : A -> B) (f : B -> B) (l : list A) j x x' :
  l !! j = Some x -> f (g x) = g x' -> alter f j (g <$> l) = g <$> <[j := x']> l.
Proof.
  revert j. induction l as [|y l IH]; intros [|j] Hj Hf; simplify_eq/=; [by rewrite Hf|]. f_equal. by apply IH.
Qed.

(** What [install] leaves alone. *)
Definition apart (e e' : Engine) : Prop :=
  e_wal e' = e_wal e /\ e_mems e' = e_mems e /\ e_memtable e' = e_memtable e /\ e_immutableMems e' = e_immutableMems e /\
  e_flushCh e' = e_flushCh e /\ e_closed e' = e_closed e /\ e_opts e' = e_opts e /\ e_nextFileNum e' = e_nextFileNum e.

Section install.
Context (n : nat) (e : Engine) (c : compaction) (S0 : list slot) (D : list (list slot)) (deep : list (list layer)) (xs ys : list slot).
Context (j : nat) (src rest dst : list slot) (vt : layer).
Context (HJ : job c S0 D ys j src rest dst vt) (Hsh : shelf e S0 D xs ys) (HD : stored n e (S0 ++ xs) D deep).

Let out : list slot := src ++ gone dst vt.
Let S0' : list slot := new_S0 S0 j rest.
Let D' : list (list slot) := new_D D ys j rest dst vt.

(** All tables but those that leave. *)
Lemma shelf_split : exists others,
  (S0 ++ xs) ++ concat D ≡ₚ others ++ out /\ (S0 ++ xs) ++ concat D ++ ys ≡ₚ (others ++ ys) ++ out /\ (S0' ++ xs) ++ concat D' ≡ₚ others ++ ys.
Proof using HJ.
  destruct (levels_split c S0 D ys j src rest dst vt HJ xs) as (others & H1 & H2). exists others. split_and!; [done| |done].
  rewrite app_assoc, H1. unfold out. solve_Permutation.
Qed.

Lemma level_nums l k : ((S0 ++ xs) :: D) !! k = Some l -> NoDup (sl_num <$> l).
Proof using HD.
  intros Hk. eapply sublist_NoDup; [exact (sd_nums _ _ _ _ _ HD)|]. apply fmap_sublist. exact (level_sublist _ _ _ Hk).
Qed.

Lemma level_ptrs l k : (S0 :: D) !! k = Some l -> NoDup (sl_ptr <$> l).
Proof using Hsh.
  intros Hk. eapply sublist_NoDup; [exact (sh_ptrs _ _ _ _ _ Hsh)|]. apply fmap_sublist.
  etrans; [exact (level_sublist _ _ _ Hk)|]. cbn [concat]. rewrite <- app_assoc. apply sublist_app; [done|].
  by apply sublist_inserts_l, sublist_inserts_r.
Qed.

Lemma nums_fit l : (forall s, s ∈ l -> s ∈ (S0 ++ xs) ++ concat D) -> Forall (fun m => 0 <= FileNum m < 2 ^ 64) (sl_meta <$> l).
Proof using HD.
  intros Hl. apply Forall_fmap, Forall_forall. intros s Hs. pose proof (stored_bound _ _ _ _ _ s HD (Hl s Hs)) as Hb.
  pose proof (sd_next _ _ _ _ _ HD). unfold sl_num in Hb. simpl. lia.
Qed.

Lemma out_stored s : s ∈ out -> s ∈ (S0 ++ xs) ++ concat D.
Proof using HJ. destruct shelf_split as (others & -> & _). rewrite elem_of_app. by right. Qed.

Lemma install_slots io :
  exists m' files rs, install io c e = (Ok tt, installed c j (sl_ptr <$> src ++ rest) (sl_ptr <$> dst) m' files rs e) /\ sound (S n) m' /\
    mf_levels m' = fmap (M:=list) sl_meta <$> ((S0' ++ xs) :: D') /\
    (forall k, k ∉ sl_num <$> out -> files !! k = e_files e !! k) /\ forall p, p ∉ sl_ptr <$> out -> rs !! p = e_rdrs e !! p.
Proof using HJ Hsh HD.
  destruct (old_levels c S0 D ys j src rest dst vt HJ xs) as [H1 H2]. pose proof HJ as [J1 J0 J2 J3 J4 J5 J6 J7 J8 J9 J10 _ _ _ _ _ _].
  pose proof (sd_levels _ _ _ _ _ HD) as Hlev. pose proof (sound_length _ _ (sd_sound _ _ _ _ _ HD)) as Hlen.
  rewrite Hlev, length_fmap in Hlen. pose proof (lookup_lt_Some _ _ _ H2) as Hlt. rewrite Hlen in Hlt.
  assert (forall l k, (S0 :: D) !! k = Some l -> e_levels e !! k = Some (sl_ptr <$> l)) as Hptr.
  { intros l k Hk. rewrite (sh_levels _ _ _ _ _ Hsh), list_lookup_fmap, Hk. done. }
  destruct (install_run io c (S n) j (sl_ptr <$> src ++ rest) (sl_ptr <$> dst) e (sd_sound _ _ _ _ _ HD) J1 Hlt J0 (Hptr _ _ J2) (Hptr dst (S j) J3))
    as (m' & files & rs & E & Hs & Hm & Hf & Hr).
  { rewrite J5. apply nums_fit. intros s Hs. apply out_stored. apply elem_of_app. by left. }
  { rewrite J7. apply nums_fit. intros s Hs. apply out_stored. apply elem_of_app. by right. }
  { rewrite J9. by apply Forall_fmap. }
  exists m', files, rs. split_and!; [exact E|exact Hs|..].
  - rewrite Hm, Hlev. unfold S0', D'. rewrite new_levels. rewrite J5, J7, J9.
    assert (<[j := rest ++ beside j xs]> ((S0 ++ xs) :: D) !! S j = Some dst) as H2' by (rewrite list_lookup_insert_ne by lia; done).
    rewrite (alter_fmap_insert _ _ _ _ _ (rest ++ beside j xs) H1).
    + rewrite (alter_fmap_insert _ _ _ _ _ (kept dst vt ++ ys) H2'); [done|].
      rewrite remove_metas by (by apply (level_nums _ (S j))). rewrite leave_chosen by (by apply (level_nums _ (S j))). by rewrite fmap_app.
    + rewrite remove_metas by (by apply (level_nums _ j)). by rewrite leave_prefix by (by apply (level_nums _ j)).
  - intros k Hk. unfold out in Hk. rewrite fmap_app, not_elem_of_app in Hk. rewrite J5, J7, <- !list_fmap_compose in Hf. by apply Hf; apply Hk.
  - intros p Hp. unfold out in Hp. rewrite fmap_app, not_elem_of_app in Hp. rewrite J4, J6 in Hr. by apply Hr; apply Hp.
Qed.

Context (m' : Manifest) (files : gmap Z File) (rs : list Reader) (Hs' : sound (S n) m').
Context (Hml : mf_levels m' = fmap (M:=list) sl_meta <$> ((S0' ++ xs) :: D')).
Context (Hfiles : forall k, k ∉ sl_num <$> out -> files !! k = e_files e !! k) (Hrs : forall p, p ∉ sl_ptr <$> out -> rs !! p = e_rdrs e !! p).

Let e' : Engine := installed c j (sl_ptr <$> src ++ rest) (sl_ptr <$> dst) m' files rs e.

Lemma install_apart : apart e e'.
Proof using. by split_and!. Qed.

Lemma install_filed l : (forall s, s ∈ l -> sl_num s ∉ sl_num <$> out) -> Forall (filed e) l -> Forall (filed e') l.
Proof using Hfiles.
  intros Hl HF. rewrite Forall_forall in HF |- *. intros s Hs. destruct (HF s Hs) as (H1 & H2 & f & Hf & Ht).
  split; [done|]. split; [done|]. exists f. split; [|done]. simpl. rewrite Hfiles; auto.
Qed.

Lemma install_held l : (forall s, s ∈ l -> sl_ptr s ∉ sl_ptr <$> out) -> Forall (held e) l -> Forall (held e') l.
Proof using Hrs.
  intros Hl HF. rewrite Forall_forall in HF |- *. intros s Hs. destruct (HF s Hs) as (r & Hr & Ht).
  exists r. split; [|done]. simpl. rewrite Hrs; auto.
Qed.

Lemma nodup_out {A} (f : slot -> A) l : NoDup (f <$> l ++ out) -> forall s, s ∈ l -> f s ∉ f <$> out.
Proof using. rewrite fmap_app. intros (_ & Hd & _)%NoDup_app s Hs. apply Hd, list_elem_of_fmap. eauto. Qed.

Lemma install_stored : stored n e' (S0' ++ xs) D' (new_deep ys j vt deep).
Proof using HJ Hsh HD Hs' Hml Hfiles.
  pose proof HD as [D1 D2 D3 D4 D5 D6 D7 D8]. pose proof Hsh as [_ _ H3 _ H5].
  destruct shelf_split as (others & P1 & P2 & P3). rewrite P2 in H5. rewrite P1 in D3. apply Forall_app in D3 as [D3 _].
  split; rewrite ?P3; try done.
  - apply install_filed; [by apply nodup_out|]. by apply Forall_app_2.
  - rewrite fmap_app in H5. by apply NoDup_app in H5 as (? & _).
  - apply Forall_app in D5 as [D5 D5']. apply Forall_app_2; [|done]. unfold S0', new_S0.
    pose proof (jb_src _ _ _ _ _ _ _ _ _ HJ) as Hj. clear HJ Hml P1 P2 P3. destruct j; [|done]. injection Hj as ->. by apply Forall_app in D5 as [_ ?].
  - by apply (new_ordered c S0 D ys j src rest dst vt HJ).
Qed.

Lemma install_shelf : shelf e' S0' D' xs [].
Proof using HJ Hsh HD Hrs.
  pose proof Hsh as [H1 H2 _ H4 H5]. destruct shelf_split as (others & P1 & P2 & P3). rewrite P2 in H2, H4, H5.
  apply Forall_app in H2 as [H2 _]. split; rewrite ?app_nil_r, ?P3; try done.
  - destruct (old_levels c S0 D ys j src rest dst vt HJ []) as [L1 L2]. pose proof HJ as [_ _ J2 J3 J4 _ J6 _ J8 _ _ _ _ _ _ _ _].
    pose proof (new_levels S0 D ys j rest dst vt []) as Hn. rewrite !app_nil_r in Hn. unfold S0', D'. rewrite Hn.
    cbn [e' installed e_levels set_tables set_readers set_manifest]. rewrite H1, !list_fmap_insert, J4, J6, J8.
    rewrite !remove_ptrs, leave_prefix by (by apply (level_ptrs _ j)). rewrite leave_chosen by (by apply (level_ptrs _ (S j))).
    rewrite fmap_app. assert (beside j [] = []) as -> by (clear; by destruct j). by rewrite app_nil_r.
  - apply install_held; [by apply nodup_out|done].
  - rewrite fmap_app in H4. by apply NoDup_app in H4 as (? & _).
  - rewrite fmap_app in H5. by apply NoDup_app in H5 as (? & _).
Qed.
End install.

Lemma mem_entries_less (a b : list slot) :
  len (concat (sl_tab <$> a)) <= len (concat (sl_tab <$> b)) -> (forall x, x ∈ concat (sl_tab <$> a) -> x ∈ concat (sl_tab <$> b)) ->
  len (mem_entries (concat (sl_tab <$> a))) <= len (mem_entries (concat (sl_tab <$> b))) /\
  forall x, x ∈ mem_entries (concat (sl_tab <$> a)) -> x ∈ mem_entries (concat (sl_tab <$> b)).
Proof.
  intros Hl Hx. unfold mem_entries, len in *. rewrite !length_fmap. split; [done|].
  intros x (y & -> & Hy)%list_elem_of_fmap. apply list_elem_of_fmap. eauto.
Qed.

Lemma slots_less (l l' others src ys : list slot) :
  l ≡ₚ others ++ src -> l' ≡ₚ others ++ ys -> len (concat (sl_tab <$> ys)) <= len (concat (sl_tab <$> src)) ->
  (forall x, x ∈ concat (sl_tab <$> ys) -> x ∈ concat (sl_tab <$> src)) ->
  len (mem_entries (concat (sl_tab <$> l'))) <= len (mem_entries (concat (sl_tab <$> l))) /\
  forall x, x ∈ mem_entries (concat (sl_tab <$> l')) -> x ∈ mem_entries (concat (sl_tab <$> l)).
Proof.
  intros P P' Hl Hx. pose proof (permutation_concat _ _ (fmap_Permutation sl_tab _ _ P)) as Q.
  pose proof (permutation_concat _ _ (fmap_Permutation sl_tab _ _ P')) as Q'. rewrite fmap_app, concat_app in Q, Q'.
  apply mem_entries_less.
  - unfold len in *. rewrite (Permutation_length Q), (Permutation_length Q'), !length_app. lia.
  - intros x. rewrite Q, Q', !elem_of_app. intros [?|?]; auto.
Qed.

(** An installation that follows a written output. *)
Lemma sysc_install n io c e pc m :
  sysc n e pc (CWritten c) m -> exists e', install io c e = (Ok tt, e') /\ sysc n e' pc CIdle m /\ apart e e' /\ lighter e e'.
Proof.
  intros (act & imms & S0 & D & deep & xs & ys & Hinv & Hv & Hsh & Hxs & (j & src & rest & dst & vt & HJ & Hvt) & mt & s & dn & grps & pre & HL & HD & Hm).
  destruct (install_slots n e c S0 D deep xs ys j src rest dst vt HJ Hsh HD io) as (m' & files & rs & E & Hs' & Hml & Hf & Hr).
  pose proof (install_stored n e c S0 D deep xs ys j src rest dst vt HJ Hsh HD m' files rs Hs' Hml Hf) as HD'.
  pose proof (install_shelf n e c S0 D deep xs ys j src rest dst vt HJ Hsh HD m' files rs Hr) as Hsh'.
  pose proof (new_layers c S0 D ys j src rest dst vt HJ deep (sd_order _ _ _ _ _ HD)) as Hlay.
  set (e' := installed _ _ _ _ _ _ _ _) in *. exists e'. split; [exact E|]. split; [|split; [by apply install_apart|]].
  2: { destruct (levels_split c S0 D ys j src rest dst vt HJ []) as (others & P1 & P2). rewrite !app_nil_r in P1, P2.
    unfold lighter. rewrite (shelf_entries_repr _ _ _ _ _ Hsh), (shelf_entries_repr _ _ _ _ _ Hsh').
    by eapply slots_less; [exact P1|exact P2|apply (jb_less _ _ _ _ _ _ _ _ _ HJ)..]. }
  exists act, imms, (new_S0 S0 j rest), (new_D D ys j rest dst vt), (new_deep ys j vt deep), xs, [].
  pose proof (Hlay (act :: imms) [] ) as Hlay0. rewrite !app_nil_r in Hlay0.
  destruct Hinv as [Hmem Ht Hq Hpc]. split_and!; try done.
  - split; [by apply (mems_repr_same e)|by eapply shelf_tables|done|]. destruct pc as [|task p| |task|]; simpl in Hpc |- *; try done.
    + destruct Hxs as (meta & l & -> & Hl). exists l. split; [done|]. pose proof (sh_held _ _ _ _ _ Hsh') as HF.
      rewrite Forall_forall in HF. apply (HF (mkSlot p meta l)). rewrite !elem_of_app, list_elem_of_singleton. by left; right.
    + destruct Hpc as (l & Hl & Hk). exists l. split; [done|]. intros k v Hkv.
      pose proof (Hlay [] [] k Hvt) as Hlay1. rewrite !app_nil_r in Hlay1. rewrite Hlay1. by apply Hk.
  - eapply views_ext; [|exact Hv]. intros k. by apply Hlay0.
  - exists mt, s, dn, grps, pre. split; [|split; [done|eapply views_ext; [|exact Hm]; intros k; by apply Hlay]].
    destruct HL as [L1 L2 L3 L4 L5 L6 L7 L8]. by split.
Qed.
