(* ===== verification/CompactWrite.v ===== *)
(** * engine/compaction.go: choosing and merging the tables of a compaction

    The part of [compactL0] and [compactLevel] without the lock.  From any
    state of the system in which no compaction is under way, it returns
    without error, and what it wrote is the merge of the tables it chose: the
    first of a level below L0, or all of L0, and those of the next level they
    overlap. *)

From S2P Require Import Prelude GoStd SkipList Memtable Bloom Wal SSTWriter SSTReader SSTIterator GoHeap MergeIterator Manifest Engine EngineRun Compaction CompactOutput CompactTables Shelf Recovery CompactInstall.

(** ** Choosing tables *)

Lemma same_range_table r l meta : table_repr r l -> l <> [] -> same_range r meta = true <-> meta_range meta = range_of l.
Proof.
  intros Hr Hne. destruct (table_range r l Hr Hne) as [H1 H2]. unfold same_range. rewrite H1, H2, andb_true_iff, !beqb_spec.
  unfold meta_range. destruct (range_of l). split; [by intros [<- <-]|by intros [= <- <-]].
Qed.

Section choosing.
Context (e : Engine).

(** The readers of a level are told apart by their ranges. *)
Definition distinct (l : list slot) : Prop :=
  Forall (held e) l /\ Forall (fun s => sl_tab s <> []) l /\ NoDup (range_of <$> (sl_tab <$> l)).

Lemma find_slot l s :
  distinct l -> s ∈ l -> meta_range (sl_meta s) = range_of (sl_tab s) ->
  find_reader (fun r => same_range r (sl_meta s)) (sl_ptr <$> l) e = Ok (Some (sl_ptr s)).
Proof.
  intros (Hh & Hne & Hnd) Hin Hm. induction l as [|s0 l IH]; [by apply elem_of_nil in Hin|].
  apply Forall_cons in Hh as [(r & Er & Hr) Hh], Hne as [Hne0 Hne]. cbn [fmap list_fmap] in *. apply NoDup_cons in Hnd as [Hni Hnd].
  cbn [find_reader]. unfold reader_at. rewrite Er. rstep. pose proof (same_range_table r _ (sl_meta s) Hr Hne0) as Hs.
  apply elem_of_cons in Hin as [->|Hin]; [by rewrite (proj2 Hs Hm)|].
  destruct (same_range r (sl_meta s)); [|by apply IH]. exfalso. apply Hni. rewrite <- (proj1 Hs), Hm by done.
  apply list_elem_of_fmap. exists (sl_tab s). split; [done|]. apply list_elem_of_fmap. eauto.
Qed.

Lemma overlapping_slots l lo hi sub :
  distinct l -> (forall s, s ∈ sub -> s ∈ l) -> Forall (fun s => meta_range (sl_meta s) = range_of (sl_tab s)) sub ->
  overlapping (sl_meta <$> sub) (sl_ptr <$> l) lo hi e =
  Ok (sl_ptr <$> filter (fun s => hits lo hi (range_of (sl_tab s)) = true) sub, sl_meta <$> filter (fun s => hits lo hi (range_of (sl_tab s)) = true) sub).
Proof.
  intros Hl Hsub HF. induction HF as [|s sub Hm HF IH]; [done|]. cbn [fmap list_fmap overlapping].
  change (list_fmap slot FileMetadata sl_meta sub) with (sl_meta <$> sub). rewrite IH by (intros s' Hs'; apply Hsub; by right).
  rewrite (find_slot l s Hl (Hsub s ltac:(left)) Hm), filter_cons. unfold meta_range in Hm.
  assert (hits lo hi (range_of (sl_tab s)) = negb (bltb hi (Manifest.MinKey (sl_meta s)) || bltb (Manifest.MaxKey (sl_meta s)) lo)) as ->.
  { unfold hits. by rewrite <- Hm. }
  by destruct (_ || _).
Qed.

(** The key range of the L0 tables. *)
Lemma key_range_slots l : forall a b, Forall (held e) l -> Forall (fun s => sl_tab s <> []) l ->
  exists a' b', key_range (sl_ptr <$> l) e (Some a, Some b) = Ok (Some a', Some b') /\
    (a' = a \/ exists s, s ∈ l /\ a' = (range_of (sl_tab s)).1) /\ a' ≤ₖ a /\ (forall s, s ∈ l -> a' ≤ₖ (range_of (sl_tab s)).1) /\
    (b' = b \/ exists s, s ∈ l /\ b' = (range_of (sl_tab s)).2) /\ b ≤ₖ b' /\ (forall s, s ∈ l -> (range_of (sl_tab s)).2 ≤ₖ b').
Proof.
  induction l as [|s l IH]; intros a b Hh Hne.
  { exists a, b. split_and!; [done|by left|apply ble_refl|by intros s ?%elem_of_nil|by left|apply ble_refl|by intros s ?%elem_of_nil]. }
  apply Forall_cons in Hh as [(r & Er & Hr) Hh], Hne as [Hne0 Hne]. cbn [fmap list_fmap key_range]. unfold reader_at. rewrite Er. rstep.
  destruct (table_range r _ Hr Hne0) as [-> ->]. cbn [fst snd]. set (lo := (range_of (sl_tab s)).1). set (hi := (range_of (sl_tab s)).2).
  change (val_bytes (Some hi)) with hi.
  destruct (IH (if bltb lo a then lo else a) (if bltb b hi then hi else b) Hh Hne) as (a' & b' & E & A1 & A2 & A3 & B1 & B2 & B3).
  exists a', b'. assert ((if bltb lo a then Some lo else Some a) = Some (if bltb lo a then lo else a)) as -> by by destruct (bltb lo a).
  assert ((if bltb b hi then Some hi else Some b) = Some (if bltb b hi then hi else b)) as -> by by destruct (bltb b hi).
  assert ((if bltb lo a then lo else a) ≤ₖ lo /\ (if bltb lo a then lo else a) ≤ₖ a) as [L1 L2].
  { kcase lo a; split; eauto with kv. }
  assert (hi ≤ₖ (if bltb b hi then hi else b) /\ b ≤ₖ (if bltb b hi then hi else b)) as [L3 L4].
  { kcase b hi; split; eauto with kv. }
  split_and!; [exact E| |by eapply ble_trans| | |by eapply ble_trans|].
  - destruct A1 as [->|(s' & Hs & ->)]; [|right; exists s'; split; [by right|done]]. destruct (bltb lo a); [right; exists s; split; [left|done]|by left].
  - intros s' [->|Hs]%elem_of_cons; [by eapply ble_trans|auto].
  - destruct B1 as [->|(s' & Hs & ->)]; [|right; exists s'; split; [by right|done]]. destruct (bltb b hi); [right; exists s; split; [left|done]|by left].
  - intros s' [->|Hs]%elem_of_cons; [by eapply ble_trans|auto].
Qed.
End choosing.

(** ** The written tables *)

(** Entries small enough for a table, fewer than the fuel, and with file
    numbers left for as many tables. *)
Definition fits (fuel : nat) (e : Engine) : Prop :=
  Forall (fun x => len (entry_bytes x) < 2 ^ 29) (shelf_entries e) /\ (length (shelf_entries e) < fuel)%nat /\
  e_nextFileNum e + len (shelf_entries e) < 2 ^ 64.

Definition sound_files (ios : nat -> IO) : Prop := forall i, io_create (ios i) = Some [] /\ io_open (ios i) = true.

Lemma zip_slots (ps : list nat) (metas : list FileMetadata) (ts : list layer) :
  length ps = length ts -> length metas = length ts -> exists ys, sl_ptr <$> ys = ps /\ sl_meta <$> ys = metas /\ sl_tab <$> ys = ts.
Proof.
  revert metas ts. induction ps as [|p ps IH]; intros [|meta metas] [|t ts] H1 H2; simplify_eq/=; [by exists []|].
  destruct (IH metas ts) as (ys & <- & <- & <-); [done|done|]. by exists (mkSlot p meta t :: ys).
Qed.

Lemma forall2_slots {B C} (R : B -> C -> Prop) (f : slot -> B) (g : slot -> C) ys :
  Forall2 R (f <$> ys) (g <$> ys) -> Forall (fun s => R (f s) (g s)) ys.
Proof.
  intros HF. induction ys as [|s ys IH]; constructor; cbn [fmap list_fmap] in HF; apply Forall2_cons in HF as [? ?]; auto.
Qed.

Lemma grown_run_inv deep e e1 pc act imms l0 : run_inv deep e pc act imms l0 -> grown e e1 -> run_inv deep e1 pc act imms l0.
Proof.
  intros [Hm Ht Hq Hpc] (rs & files & num & -> & _).
  assert (forall p r, e_rdrs e !! p = Some r -> e_rdrs (grow e rs files num) !! p = Some r) as Hr by (intros; by apply lookup_app_Some).
  split; [by apply (mems_repr_same e)| |done|].
  - pose proof Ht as (ps & rest & H1 & H2 & _). apply (tables_repr_mono e _ l0 deep ps rest ps l0); try done.
    eapply Forall2_impl; [exact H2|]. intros p l. by apply table_is_mono.
  - destruct pc; try done. destruct Hpc as (l & Hl & Hp). exists l. split; [done|]. by apply (table_is_mono e).
Qed.

Section written.
Context (n : nat) (e : Engine) (pc : fpc) (m : gmap bytes (option bytes)) (act : layer) (imms : list layer).
Context (S0 : list slot) (D : list (list slot)) (deep : list (list layer)) (xs : list slot).
Context (Hinv : run_inv deep e pc act imms (sl_tab <$> S0)) (Hv : views (layers (act :: imms) (sl_tab <$> S0) deep) m).
Context (Hsh : shelf e S0 D xs []) (Hxs : pc_slots pc imms xs) (Hdur : dur_inv n e pc act m (S0 ++ xs) D deep).

Lemma written_next : 0 <= e_nextFileNum e < 2 ^ 64.
Proof using Hdur. destruct Hdur as (mt & s & dn & grps & pre & _ & HD & _). apply (sd_next _ _ _ _ _ HD). Qed.

Context (level : Z) (e1 : Engine) (o : output) (chunks : list layer) (Hout : out_inv e level e1 o chunks []) (Hnum : e_nextFileNum e1 < 2 ^ 64).

Lemma new_meta_fits meta t : meta_is e e1 level meta t -> Forall small t -> t <> [] -> 0 <= level < 2 ^ 32 -> meta_fits meta /\ Level meta = level.
Proof using Hdur Hnum.
  intros (Hr & Hlv & Hs & Hn & _) Hsm Hne Hlev. pose proof written_next as Hnext. split; [|done].
  assert (forall k, k ∈ t.*1 -> len k < 2 ^ 32) as Hkey.
  { intros key ([k v] & -> & Hin)%list_elem_of_fmap. rewrite Forall_forall in Hsm. specialize (Hsm _ Hin).
    unfold small in Hsm. rewrite len_entry_bytes in Hsm. cbn [mem_entry e_key fst] in Hsm.
    match type of Hsm with context [len (if ?b then ?x else ?y)] => pose proof (len_nonneg (if b then x else y)) end. simpl. lia. }
  pose proof (Hkey _ (range_first_mem t Hne)) as Hmin. pose proof (Hkey _ (range_last_mem t Hne)) as Hmax.
  unfold meta_range in Hr. rewrite <- Hr in Hmin, Hmax. unfold meta_fits. cbn [fst snd] in *. lia.
Qed.

(** The new tables take their place beside the old ones. *)
Lemma written_shelf ys :
  sl_ptr <$> ys = os_readers o -> sl_meta <$> ys = os_metas o -> sl_tab <$> ys = chunks -> shelf e1 S0 D xs ys.
Proof using Hsh Hdur Hout.
  clear Hnum. intros Y1 Y2 Y3. pose proof Hout as [O1 O2 O3 O4 O5 O6 _ [O8 _]]. pose proof written_next as Hnext.
  rewrite <- Y1, <- Y3 in O3. rewrite <- Y2, <- Y3 in O4. rewrite <- Y2 in O5. rewrite <- Y1 in O8.
  apply forall2_slots in O3. apply forall2_slots in O4.
  destruct O1 as (rs & files & num & -> & Hle & Hfiles). pose proof Hsh as [H1 H2 _ H4 H5]. rewrite app_nil_r in H2, H4, H5.
  destruct Hdur as (mt & s & dn & grps & pre & _ & HD & _). split; try done.
  - rewrite app_assoc. apply Forall_app_2; [|exact O3]. apply (held_mono e); [|done]. intros p r Hp. by apply lookup_app_Some.
  - rewrite Forall_forall in O4 |- *. intros y Hy. destruct (O4 y Hy) as (A1 & A2 & A3 & A4 & A5). split; [done|]. split; [unfold sl_num; simpl in *; lia|done].
  - rewrite app_assoc, fmap_app. apply NoDup_app. split_and!; [done| |rewrite O8; apply NoDup_seq].
    intros p (s0 & -> & Hin)%list_elem_of_fmap Hp. rewrite <- (app_nil_r (concat D)) in Hin.
    pose proof (shelf_allocated _ _ _ _ _ _ Hsh Hin). rewrite O8, elem_of_seq in Hp. lia.
  - rewrite app_assoc, fmap_app. apply NoDup_app. split_and!; [done| |by rewrite <- list_fmap_compose in O5].
    intros p (s0 & -> & Hin)%list_elem_of_fmap (y & Heq & Hy)%list_elem_of_fmap.
    rewrite Forall_forall in O4. destruct (O4 y Hy) as (_ & _ & _ & A4 & _). pose proof (stored_bound _ _ _ _ _ _ HD Hin). unfold sl_num in *. lia.
Qed.

Lemma written_dur : dur_inv n e1 pc act m (S0 ++ xs) D deep.
Proof using Hdur Hout Hnum.
  pose proof (oi_grown _ _ _ _ _ _ Hout) as (rs & files & num & -> & Hle & Hfiles).
  destruct Hdur as (mt & s & dn & grps & pre & HL & HD & Hm). exists mt, s, dn, grps, pre. split; [by destruct HL|].
  split; [|done]. by apply (stored_mono n e).
Qed.

Lemma written_sys c ys :
  sl_ptr <$> ys = os_readers o -> sl_meta <$> ys = os_metas o -> sl_tab <$> ys = chunks ->
  job_ok (CWritten c) S0 D ys -> sysc n e1 pc (CWritten c) m.
Proof using All.
  intros Y1 Y2 Y3 HJ. exists act, imms, S0, D, deep, xs, ys.
  split_and!; [|done|by apply written_shelf|done|done|exact written_dur].
  by apply (grown_run_inv deep e); [|apply (oi_grown _ _ _ _ _ _ Hout)].
Qed.
End written.

(** ** The merge of the chosen tables *)

(** The tables that [vt] overlaps. *)
Abbreviation hit_by vt := (fun s => over vt (range_of (sl_tab s)) = true).

(** What the merge of [src] and the tables it overlaps yields. *)
Record merge_of (src dst : list slot) (vt l : layer) : Prop := {
  mo_sorted : ksorted l;
  mo_view : forall k, assoc k l = view k (vt :: (sl_tab <$> filter (hit_by vt) dst));
  mo_elem : forall x, x ∈ l -> x ∈ concat (vt :: (sl_tab <$> filter (hit_by vt) dst));
  mo_len : len l <= len (concat (sl_tab <$> src ++ filter (hit_by vt) dst));
  mo_from : forall x, x ∈ l -> x ∈ concat (sl_tab <$> src ++ filter (hit_by vt) dst)
}.

Lemma less_of_sublist (a b : list slot) : a ⊆+ b -> len (concat (sl_tab <$> a)) <= len (concat (sl_tab <$> b)) /\
  forall x, x ∈ concat (sl_tab <$> a) -> x ∈ concat (sl_tab <$> b).
Proof.
  intros (k & Hp)%submseteq_Permutation. pose proof (permutation_concat _ _ (fmap_Permutation sl_tab _ _ Hp)) as Q.
  rewrite fmap_app, concat_app in Q. split; [unfold len; rewrite (Permutation_length Q), length_app; lia|].
  intros x. rewrite Q, elem_of_app. by left.
Qed.

Section output.
Context (n : nat) (e : Engine) (pc : fpc) (m : gmap bytes (option bytes)) (act : layer) (imms : list layer).
Context (S0 : list slot) (D : list (list slot)) (deep : list (list layer)) (xs : list slot).
Context (Hinv : run_inv deep e pc act imms (sl_tab <$> S0)) (Hv : views (layers (act :: imms) (sl_tab <$> S0) deep) m).
Context (Hsh : shelf e S0 D xs []) (Hxs : pc_slots pc imms xs) (Hdur : dur_inv n e pc act m (S0 ++ xs) D deep).
Context (j : nat) (src rest dst : list slot) (vt l : layer).
Context (Hsrc : (S0 :: D) !! j = Some (src ++ rest)) (Hdst : D !! j = Some dst) (Hwidth : Z.of_nat (S j) < 2 ^ 32).
Context (Hvt : ksorted vt /\ vt <> [] /\ match j with O => True | S _ => exists s, src = [s] /\ vt = sl_tab s end).
Context (Hview : forall k, assoc k vt = view k (reverse (sl_tab <$> src))) (Hl : merge_of src dst vt l).
Context (fuel : nat) (Hfits : fits fuel e).

Lemma chosen_sub : src ++ filter (hit_by vt) dst ⊆+ S0 ++ concat D.
Proof using Hsrc Hdst.
  change (S0 ++ concat D) with (concat (S0 :: D)).
  assert ((S0 :: D) !! S j = Some dst) as Hdst' by done. rewrite (f_equal (@concat _) (split2 _ _ _ _ Hsrc Hdst')), concat_app. cbn [concat].
  apply submseteq_inserts_l. rewrite <- app_assoc. apply submseteq_app; [done|]. apply submseteq_inserts_l, submseteq_inserts_r, sublist_submseteq, sublist_filter.
Qed.

Lemma merged_less : len l <= len (shelf_entries e) /\ forall x, x ∈ l -> mem_entry x ∈ shelf_entries e.
Proof using Hsh Hsrc Hdst Hl.
  clear Hwidth. rewrite (shelf_entries_repr _ _ _ _ _ Hsh). destruct (less_of_sublist _ _ chosen_sub) as [Hle Hin].
  split; [pose proof (mo_len _ _ _ _ Hl); unfold mem_entries, len in *; rewrite length_fmap; lia|].
  intros x Hx. apply list_elem_of_fmap_2, Hin, (mo_from _ _ _ _ Hl), Hx.
Qed.

Lemma merged_small : Forall small l.
Proof using Hsh Hsrc Hdst Hl Hfits.
  destruct Hfits as (Hsm & _), merged_less as [_ Hin]. rewrite Forall_forall in Hsm. apply Forall_forall. intros x Hx. exact (Hsm _ (Hin x Hx)).
Qed.

Lemma merged_clean : clean l.
Proof using Hsh Hsrc Hdst Hl.
  destruct (less_of_sublist _ _ chosen_sub) as [_ Hin]. destruct Hsh as [_ H2 _ _ _]. rewrite app_nil_r in H2.
  apply Forall_app in H2 as [[H20 _]%Forall_app H2]. pose proof (tables_clean _ _ _ (held_Forall2 _ _ (Forall_app_2 _ _ _ H20 H2))) as Hcl.
  unfold clean in *. rewrite Forall_forall in Hcl |- *. intros x Hx. apply Hcl, Hin, (mo_from _ _ _ _ Hl), Hx.
Qed.

Lemma output_sys ios mi :
  sound_files ios -> mi_drain fuel mi = Ok (mem_entries l) ->
  exists e1 metas readers, writeCompactionOutput fuel ios mi (Z.of_nat (S j)) e = (Ok (metas, readers), e1) /\
    sysc n e1 pc (CWritten (mkCompaction (Z.of_nat j) (sl_ptr <$> src) (sl_meta <$> src) (sl_ptr <$> filter (hit_by vt) dst)
      (sl_meta <$> filter (hit_by vt) dst) metas readers)) m /\
    grown e e1 /\ e_nextFileNum e1 <= e_nextFileNum e + len (shelf_entries e).
Proof using All.
  intros Hios Hd. destruct merged_less as [Hle Hin]. pose proof merged_small as Hsm. destruct Hfits as (_ & _ & Hnum).
  pose proof (written_next n e pc m act S0 D deep xs Hdur) as Hnext.
  destruct (writeCompactionOutput_inv ios (Z.of_nat (S j)) fuel mi e l Hios Hd (mo_sorted _ _ _ _ Hl) merged_clean Hsm (proj1 Hnext))
    as (e1 & o & chunks & E & Hout & Hc & _ & Hn); [lia|].
  destruct (zip_slots (os_readers o) (os_metas o) chunks) as (ys & Y1 & Y2 & Y3).
  { apply (Forall2_length _ _ _ (oi_readers _ _ _ _ _ _ Hout)). } { apply (Forall2_length _ _ _ (oi_metas _ _ _ _ _ _ Hout)). }
  exists e1, (os_metas o), (os_readers o). split_and!; [exact E| |apply (oi_grown _ _ _ _ _ _ Hout)|lia].
  eapply (written_sys n e pc m act imms S0 D deep xs Hinv Hv Hsh Hxs Hdur _ e1 o chunks Hout); [lia|exact Y1|exact Y2|exact Y3|].
  exists j, src, rest, dst, vt. split; [|exact Hview]. pose proof (oi_nonempty _ _ _ _ _ _ Hout) as Hne.
  assert (Forall (fun s => sl_tab s <> []) ys) as Hne' by (rewrite <- Y3 in Hne; exact (proj1 (Forall_fmap _ _ _) Hne)).
  destruct Hl as [M1 M2 M3 M4 M5]. split; try done; rewrite ?Y3, ?Hc; try done.
  pose proof (oi_metas _ _ _ _ _ _ Hout) as Hms. rewrite <- Y2, <- Y3 in Hms. apply forall2_slots in Hms.
  rewrite Forall_forall in Hms, Hne' |- *. intros y Hy. eapply new_meta_fits; [exact Hdur|..|by apply Hms| |by apply Hne'|lia]; [lia|].
  rewrite Forall_forall in Hsm |- *. intros x Hx. apply Hsm. rewrite <- Hc, <- Y3. apply concat_elem. exists (sl_tab y). split; [|done].
  apply list_elem_of_fmap. eauto.
Qed.
End output.

(** ** [compactLevel] *)

Lemma lift_ok {St A} (r : res A) a (s : St) : r = Ok a -> lift r s = (Ok a, s).
Proof. by intros ->. Qed.

Lemma level_metas n e S0 D deep i l :
  stored n e S0 D deep -> D !! i = Some l -> Manifest_GetLevel (Z.of_nat (S i)) (e_manifest e) = sl_meta <$> l.
Proof.
  intros HD Hi. rewrite GetLevel_lookup, (sd_levels _ _ _ _ _ HD).
  change ((fmap (M:=list) sl_meta <$> S0 :: D) !! S i) with ((fmap (M:=list) sl_meta <$> D) !! i). by rewrite list_lookup_fmap, Hi.
Qed.

(** A level below L0, as the compaction sees it. *)
Lemma level_slots n e S0 D deep xs ys i l :
  shelf e S0 D xs ys -> stored n e (S0 ++ xs) D deep -> D !! i = Some l ->
  e_levels e !! S i = Some (sl_ptr <$> l) /\ distinct e l /\ Forall (fun s => meta_range (sl_meta s) = range_of (sl_tab s)) l /\
  Forall (fun s => ksorted (sl_tab s)) l.
Proof.
  intros Hsh HD Hi. pose proof Hsh as [H1 H2 _ _ _]. pose proof HD as [_ _ D3 _ _ D6 _ _].
  destruct (Forall2_lookup_l _ _ _ _ _ D6 Hi) as (ts & _ & O1 & O2 & O3).
  apply Forall_app in H2 as [_ [H2 _]%Forall_app]. apply Forall_app in D3 as [_ D3].
  pose proof (forall_level _ _ _ _ D3 Hi) as Hfl. split_and!.
  - rewrite H1, list_lookup_fmap. simpl. by rewrite Hi.
  - split_and!; [by eapply forall_level| |rewrite <- O1; by apply tables_nodup].
    rewrite O1 in O3. exact (proj1 (Forall_fmap _ _ _) O3).
  - eapply Forall_impl; [exact Hfl|]. by intros s (? & _).
  - apply Forall_forall. intros s Hs. apply (table_sorted ts O2). rewrite O1. apply list_elem_of_fmap. eauto.
Qed.

Lemma findOverlapping_slots e i l lo hi :
  e_levels e !! S i = Some (sl_ptr <$> l) -> distinct e l -> Forall (fun s => meta_range (sl_meta s) = range_of (sl_tab s)) l ->
  Manifest_GetLevel (Z.of_nat (S i)) (e_manifest e) = sl_meta <$> l ->
  findOverlapping (Z.of_nat (S i)) lo hi e =
  Ok (sl_ptr <$> filter (fun s => hits lo hi (range_of (sl_tab s)) = true) l, sl_meta <$> filter (fun s => hits lo hi (range_of (sl_tab s)) = true) l).
Proof.
  intros Hp Hd Hm Hg. unfold findOverlapping, index. rewrite (proj2 (Z.leb_le 0 (Z.of_nat (S i)))), Nat2Z.id, Hp, Hg by lia. rstep.
  by apply overlapping_slots.
Qed.

Lemma chosen_held e S0 D xs ys j src rest dst vt :
  shelf e S0 D xs ys -> (S0 :: D) !! j = Some (src ++ rest) -> D !! j = Some dst -> Forall (held e) (src ++ filter (hit_by vt) dst).
Proof.
  intros [_ H2 _ _ _] Hs Hd. apply Forall_app in H2 as [[H20 _]%Forall_app [H2 _]%Forall_app].
  apply Forall_forall. intros s Hin. pose proof (elem_of_submseteq _ _ _ Hin (chosen_sub S0 D j src rest dst vt Hs Hd)) as Hin'.
  clear Hin. revert s Hin'. apply Forall_forall. by apply Forall_app_2.
Qed.

Section compactLevel.
Context (n : nat) (e : Engine) (pc : fpc) (m : gmap bytes (option bytes)) (fuel : nat) (ios : nat -> IO).
Context (Hfits : fits fuel e) (Hios : sound_files ios).

(** The result of the part without the lock. *)
Definition written (r : option compaction) (e1 : Engine) : Prop :=
  grown e e1 /\ e_nextFileNum e1 <= e_nextFileNum e + len (shelf_entries e) /\
  match r with None => e1 = e | Some c => sysc n e1 pc (CWritten c) m end.

Lemma written_none : written None e.
Proof using. split_and!; [apply grown_refl| |done]. pose proof (len_nonneg (shelf_entries e)). lia. Qed.

Lemma compactLevel_write_sys level :
  sysc n e pc CIdle m -> 1 <= level -> level < Z.of_nat n -> level + 1 < 2 ^ 32 ->
  exists r e1, compactLevel_write fuel ios level e = (Ok r, e1) /\ written r e1.
Proof using Hfits Hios.
  intros Hsys Hlo Hhi Hw. destruct (Z_of_nat_complete (level - 1)) as [i Hi]; [lia|]. replace level with (Z.of_nat (S i)) in * by lia. clear level Hi Hlo.
  destruct Hsys as (act & imms & S0 & D & deep & xs & ys & Hinv & Hv & Hsh & Hxs & Hjob & Hdur). simpl in Hjob. subst ys.
  pose proof Hdur as (mt & s & dn & grps & pre & _ & HD & _).
  assert (length D = n) as HlenD.
  { pose proof (sound_length _ _ (sd_sound _ _ _ _ _ HD)) as Hl. rewrite (sd_levels _ _ _ _ _ HD), length_fmap in Hl. by injection Hl. }
  destruct (lookup_lt_is_Some_2 D i) as [l1 H1]; [lia|]. destruct (lookup_lt_is_Some_2 D (S i)) as [dst H2]; [lia|].
  destruct (level_slots _ _ _ _ _ _ _ _ _ Hsh HD H1) as (P1 & (Q1 & Q2 & _) & R1 & T1).
  destruct (level_slots _ _ _ _ _ _ _ _ _ Hsh HD H2) as (P2 & Q3 & R2 & _).
  unfold compactLevel_write. rewrite (M_bind_run _ _ _ e e) by done.
  rewrite (M_bind_run _ _ _ (sl_ptr <$> l1) e) by (unfold lift, index; by rewrite (proj2 (Z.leb_le 0 (Z.of_nat (S i)))), Nat2Z.id, P1 by lia).
  destruct l1 as [|src rest]; [exists None, e; split; [done|exact written_none]|]. cbn [fmap list_fmap].
  apply Forall_cons in Q1 as [(r & Er & Hr) _], Q2 as [Hne _], R1 as [Hm1 _], T1 as [Hs1 _].
  destruct (table_range r _ Hr Hne) as [Hmin Hmax].
  rewrite (M_bind_run _ _ _ r e) by (unfold lift, reader_at; by rewrite Er). rewrite Hmin, Hmax.
  replace (Z.of_nat (S i) + 1) with (Z.of_nat (S (S i))) by lia.
  change (val_bytes (Some ?x)) with x.
  rewrite (M_bind_run _ _ _ _ _ (lift_ok _ _ e (findOverlapping_slots e (S i) dst _ _ P2 Q3 R2 (level_metas _ _ _ _ _ _ _ HD H2)))).
  assert (findMetaForReader (Z.of_nat (S i)) r e = Some (sl_meta src)) as Hmeta.
  { unfold findMetaForReader. rewrite (level_metas _ _ _ _ _ _ _ HD H1). cbn [fmap list_fmap List.find]. by rewrite (proj2 (same_range_table r _ _ Hr Hne) Hm1). }
  cbv beta iota. rewrite Hmeta. set (vt := sl_tab src). set (gone := filter (hit_by vt) dst).
  change (filter (fun s => hits _ _ (range_of (sl_tab s)) = true) dst) with gone.
  pose proof (chosen_held e S0 D xs [] (S i) [src] rest dst vt Hsh H1 H2) as Hheld.
  pose proof (chosen_sub S0 D (S i) [src] rest dst vt H1 H2) as Hsub. fold gone in Hheld, Hsub.
  destruct (table_iters_ok e _ _ (held_Forall2 _ _ Hheld)) as (its & E1 & Hits).
  rewrite (M_bind_run _ _ _ _ _ (lift_ok _ _ e E1)).
  destruct (less_of_sublist _ _ Hsub) as [Hle _].
  destruct (merge_iters its (sl_tab <$> [src] ++ gone) (seqZ 0 (1 + len (sl_ptr <$> gone))) (sl_tab <$> [src] ++ gone) fuel) as (mi & mi' & l & E2 & E3 & E4 & Hl & Hvw & Hel & Hll); [done|..].
  { by eapply table_is_sorted, held_Forall2. }
  { apply Forall2_length in Hits. rewrite !length_fmap in Hits. rewrite length_seqZ, Hits. unfold len. rewrite !length_fmap. simpl. lia. }
  { assert (len (sl_tab <$> [src] ++ gone) = 1 + len (sl_ptr <$> gone)) as ->; [|done]. unfold len. rewrite !length_fmap. simpl. lia. }
  { destruct Hfits as (_ & Hf & _). rewrite (shelf_entries_repr _ _ _ _ _ Hsh) in Hf. unfold mem_entries, len in *. rewrite length_fmap in Hf. lia. }
  rewrite (M_bind_run _ _ _ _ _ (lift_ok _ _ e E2)), (M_bind_run _ _ _ _ _ (lift_ok _ _ e E3)).
  destruct (output_sys n e pc m act imms S0 D deep xs Hinv Hv Hsh Hxs Hdur (S i) [src] rest dst vt l) with (fuel := fuel) (ios := ios) (mi := mi')
    as (e1 & metas & readers & E & Hsys1 & Hg & Hn); try done; [lia|by split_and!; [..|exists src]|intros k; unfold vt; simpl; by destruct (assoc k (sl_tab src))|].
  rewrite (M_bind_run _ _ _ _ _ E). eexists _, e1. by split; [|split_and!].
Qed.
End compactLevel.

(** ** [compactL0] *)

(** No key is in two L0 tables. *)
Definition l0_disjoint (e : Engine) : Prop := NoDup (e_key <$> tables_entries e (default [] (head (e_levels e)))).

(** Then the order of the tables does not matter. *)
Lemma view_reverse k (ts : list layer) : NoDup (concat ts).*1 -> view k (reverse ts) = view k ts.
Proof.
  induction ts as [|t ts IH]; [done|]. cbn [concat]. rewrite fmap_app. intros (_ & Hd & Hnd)%NoDup_app.
  rewrite reverse_cons, view_snoc, (IH Hnd). simpl. destruct (assoc k t) as [v|] eqn:Et; [|by destruct (view k ts)].
  destruct (view k ts) as [w|] eqn:Ew; [|done]. exfalso. rewrite view_concat in Ew. apply assoc_Some in Et, Ew.
  apply (Hd k); apply list_elem_of_fmap; [by exists (k, v)|by exists (k, w)].
Qed.

Lemma zip_reverse {A B} (a : list A) (b : list B) : length a = length b -> zip (reverse a) (reverse b) ≡ₚ zip a b.
Proof.
  revert b. induction a as [|x a IH]; intros [|y b] Hl; simplify_eq/=; [done|].
  rewrite !reverse_cons, zip_with_app by (by rewrite !length_reverse). rewrite IH by done. simpl. by rewrite Permutation_app_comm.
Qed.

(** The priorities of [compactL0] stand for L0 from the oldest table to the
    newest, then the tables of L1. *)
Lemma l0_priorities (ta tb : list layer) :
  zip (reverse (seqZ 0 (len ta)) ++ seqZ (len ta) (len tb)) (reverse ta ++ tb) ≡ₚ zip (seqZ 0 (len (ta ++ tb))) (ta ++ tb).
Proof.
  assert (forall t : list layer, length (seqZ 0 (len t)) = length t) as Hl by (intros t; rewrite length_seqZ; unfold len; lia).
  rewrite len_app, seqZ_app by apply len_nonneg. rewrite !zip_with_app by (by rewrite ?length_reverse, Hl).
  by rewrite zip_reverse.
Qed.

Lemma layer_elem_view (l : layer) (ts : list layer) : ksorted l -> (forall k, assoc k l = view k ts) -> forall x, x ∈ l -> x ∈ concat ts.
Proof.
  intros Hs Hv [k v] Hx. pose proof (assoc_elem k l v Hs Hx) as Ha. rewrite Hv, view_concat in Ha. by apply assoc_Some.
Qed.

Lemma ble_antisym a b : a ≤ₖ b -> b ≤ₖ a -> a = b.
Proof. intros [->|Hlt]%ble_eq_lt Hle; [done|]. by apply blt_not_ble in Hlt. Qed.

(** The key range is that of the tables taken together. *)
Lemma key_range_merged e s l vt :
  Forall (held e) (s :: l) -> Forall (fun s => sl_tab s <> []) (s :: l) -> ksorted vt ->
  (forall k, assoc k vt = view k (sl_tab <$> s :: l)) ->
  vt <> [] /\ key_range (sl_ptr <$> s :: l) e (None, None) = Ok (Some (range_of vt).1, Some (range_of vt).2).
Proof.
  intros Hh Hne Hs Hv. pose proof Hh as [(r & Er & Hr) Hh']%Forall_cons. pose proof Hne as [Hne0 Hne']%Forall_cons.
  assert (forall k, k ∈ vt.*1 <-> exists s', s' ∈ s :: l /\ k ∈ (sl_tab s').*1) as Hkeys.
  { intros k. assert (k ∈ vt.*1 <-> k ∈ (concat (sl_tab <$> s :: l)).*1) as ->.
    { destruct (decide (k ∈ vt.*1)) as [Hk|Hk], (decide (k ∈ (concat (sl_tab <$> s :: l)).*1)) as [Hk'|Hk']; try tauto; exfalso.
      - apply assoc_None in Hk'. rewrite <- view_concat, <- Hv in Hk'. by apply assoc_None in Hk'.
      - apply assoc_None in Hk. rewrite Hv, view_concat in Hk. by apply assoc_None in Hk. }
    rewrite list_elem_of_fmap. split.
    - intros (x & -> & (t & (s' & -> & Hs')%list_elem_of_fmap & Hx)%concat_elem). exists s'. split; [done|]. apply list_elem_of_fmap. eauto.
    - intros (s' & Hs' & (x & -> & Hx)%list_elem_of_fmap). exists x. split; [done|]. apply concat_elem. exists (sl_tab s').
      split; [|done]. apply list_elem_of_fmap. eauto. }
  assert (forall s', s' ∈ s :: l -> ksorted (sl_tab s')) as Hks.
  { intros s' Hs'. rewrite Forall_forall in Hh. destruct (Hh s' Hs') as (r' & _ & bs & _ & ? & _). done. }
  assert (vt <> []) as Hvt.
  { intros ->. destruct (Hkeys (range_of (sl_tab s)).1) as [_ Hk]. apply (elem_of_nil (range_of (sl_tab s)).1), Hk.
    exists s. split; [left|by apply range_first_mem]. }
  split; [done|]. cbn [fmap list_fmap key_range]. unfold reader_at. rewrite Er. rstep. destruct (table_range r _ Hr Hne0) as [-> ->]. cbn [fst snd].
  destruct (key_range_slots e l (range_of (sl_tab s)).1 (range_of (sl_tab s)).2 Hh' Hne') as (a & b & E & A1 & A2 & A3 & B1 & B2 & B3).
  rewrite E. rewrite Forall_forall in Hne. do 3 f_equal.
  - assert (a ∈ vt.*1) as Ha.
    { apply Hkeys. destruct A1 as [->|(s' & Hs' & ->)]; [exists s|exists s']; (split; [set_solver|apply range_first_mem, Hne; set_solver]). }
    destruct (range_bounds vt a Hs Ha) as [Hle _]. destruct (proj1 (Hkeys _) (range_first_mem vt Hvt)) as (s' & Hs' & Hk).
    destruct (range_bounds _ _ (Hks s' Hs') Hk) as [Hge _].
    assert (a ≤ₖ (range_of (sl_tab s')).1) as Hle' by (apply elem_of_cons in Hs' as [->|Hs']; auto).
    apply ble_antisym; [by eapply ble_trans|done].
  - f_equal. assert (b ∈ vt.*1) as Hb.
    { apply Hkeys. destruct B1 as [->|(s' & Hs' & ->)]; [exists s|exists s']; (split; [set_solver|apply range_last_mem, Hne; set_solver]). }
    destruct (range_bounds vt b Hs Hb) as [_ Hle]. destruct (proj1 (Hkeys _) (range_last_mem vt Hvt)) as (s' & Hs' & Hk).
    destruct (range_bounds _ _ (Hks s' Hs') Hk) as [_ Hge].
    assert ((range_of (sl_tab s')).2 ≤ₖ b) as Hle' by (apply elem_of_cons in Hs' as [->|Hs']; auto).
    apply ble_antisym; [done|by eapply ble_trans].
Qed.

(** No flush has recorded a table it has not published. *)
Definition published_all (pc : fpc) : Prop := match pc with FWritten _ _ => False | _ => True end.

Section compactL0.
Context (n : nat) (e : Engine) (pc : fpc) (m : gmap bytes (option bytes)) (fuel : nat) (ios : nat -> IO).
Context (Hfits : fits fuel e) (Hios : sound_files ios).
Context (act : layer) (imms : list layer) (S0 : list slot) (D : list (list slot)) (deep : list (list layer)).
Context (Hinv : run_inv deep e pc act imms (sl_tab <$> S0)) (Hv : views (layers (act :: imms) (sl_tab <$> S0) deep) m).
Context (Hsh : shelf e S0 D [] []) (Hxs : pc_slots pc imms []) (Hdur : dur_inv n e pc act m (S0 ++ []) D deep).
Context (dst : list slot) (Hdst : D !! 0%nat = Some dst) (Hdis : l0_disjoint e).

Lemma l0_held : Forall (held e) S0 /\ Forall (fun s => sl_tab s <> []) S0 /\ Manifest_GetLevel 0 (e_manifest e) = sl_meta <$> S0.
Proof using Hsh Hdur.
  destruct Hdur as (mt & s & dn & grps & pre & _ & [_ D2 _ _ D5 _ _ _] & _), Hsh as [_ H2 _ _ _]. rewrite app_nil_r in *.
  apply Forall_app in H2 as [H2 _]. split_and!; [done|done|]. by rewrite (GetLevel_lookup _ 0), D2.
Qed.

Lemma l0_order k : view k (reverse (sl_tab <$> S0)) = view k (sl_tab <$> S0).
Proof using Hsh Hdur Hdis.
  apply view_reverse. destruct l0_held as (Hh & _). unfold l0_disjoint in Hdis. rewrite (sh_levels _ _ _ _ _ Hsh) in Hdis.
  change (default [] (head (fmap (M:=list) sl_ptr <$> S0 :: D))) with (sl_ptr <$> S0) in Hdis. rewrite tables_entries_held in Hdis by done.
  unfold mem_entries in Hdis. rewrite <- list_fmap_compose in Hdis. exact Hdis.
Qed.

(** The tables of L0 taken together. *)
Lemma l0_merged : exists vt, ksorted vt /\ forall k, assoc k vt = view k (sl_tab <$> S0).
Proof using Hsh Hdur.
  destruct l0_held as (Hh & _). destruct (table_iters_ok e _ _ (held_Forall2 _ _ Hh)) as (its & _ & Hits).
  destruct (merge_iters its (sl_tab <$> S0) (seqZ 0 (len (sl_tab <$> S0))) (sl_tab <$> S0) (S (length (concat (sl_tab <$> S0)))) Hits)
    as (_ & _ & vt & _ & _ & _ & Hs & Hvt & _); [by eapply table_is_sorted, held_Forall2| |done|lia|eauto].
  apply Forall2_length in Hits. rewrite length_fmap in Hits. rewrite length_seqZ, Hits. unfold len. lia.
Qed.

Lemma l0_chosen_merge vt gone its0 its1 :
  ksorted vt -> (forall k, assoc k vt = view k (sl_tab <$> S0)) -> gone = filter (hit_by vt) dst ->
  table_iters (reverse (sl_ptr <$> S0)) e = Ok its0 -> table_iters (sl_ptr <$> gone) e = Ok its1 ->
  exists mi mi' l, NewMergeIterator (its0 ++ its1) (reverse (seqZ 0 (len (sl_ptr <$> S0))) ++ seqZ (len (sl_ptr <$> S0)) (len (sl_ptr <$> gone))) = Ok mi /\
    MergeIterator_SeekToFirst mi = Ok mi' /\ mi_drain fuel mi' = Ok (mem_entries l) /\ merge_of S0 dst vt l.
Proof using Hfits Hsh Hdur Hdst.
  intros Hs Hvt -> E0 E1. set (gone := filter (hit_by vt) dst) in *. assert ((S0 :: D) !! 0%nat = Some (S0 ++ [])) as Hsrc by (by rewrite app_nil_r).
  pose proof (chosen_held e S0 D [] [] 0 S0 [] dst vt Hsh Hsrc Hdst) as Hheld. pose proof (chosen_sub S0 D 0 S0 [] dst vt Hsrc Hdst) as Hsub.
  fold gone in Hheld, Hsub. pose proof Hheld as [Hh Hg]%Forall_app. destruct (less_of_sublist _ _ Hsub) as [Hle _].
  assert (Forall2 (table_is e) (reverse (sl_ptr <$> S0)) (reverse (sl_tab <$> S0))) as Hrev by by apply Forall2_reverse, held_Forall2.
  destruct (table_iters_ok e _ _ Hrev) as (its0' & E0' & Hits0). rewrite E0 in E0'. injection E0' as <-.
  destruct (table_iters_ok e _ _ (held_Forall2 _ _ Hg)) as (its1' & E1' & Hits1). rewrite E1 in E1'. injection E1' as <-.
  assert (forall (f : slot -> nat) l, len (f <$> l) = len (sl_tab <$> l)) as Hlen by (intros; unfold len; by rewrite !length_fmap).
  rewrite !Hlen. pose proof (l0_priorities (sl_tab <$> S0) (sl_tab <$> gone)) as Hz.
  destruct (merge_iters (its0 ++ its1) (reverse (sl_tab <$> S0) ++ (sl_tab <$> gone)) (reverse (seqZ 0 (len (sl_tab <$> S0))) ++ seqZ (len (sl_tab <$> S0)) (len (sl_tab <$> gone)))
    ((sl_tab <$> S0) ++ (sl_tab <$> gone)) fuel) as (mi & mi' & l & E2 & E3 & E4 & Hl & Hvw & Hel & Hll); [| | |exact Hz| |].
  { rewrite fmap_app. by apply Forall2_app. }
  { rewrite <- fmap_app. by eapply table_is_sorted, held_Forall2. }
  { apply Forall2_length in Hits0, Hits1. rewrite length_fmap in Hits0, Hits1. rewrite !length_app, Hits0, Hits1, !length_reverse, !length_seqZ. unfold len. lia. }
  { destruct Hfits as (_ & Hf & _). rewrite (shelf_entries_repr _ _ _ _ _ Hsh) in Hf. rewrite <- fmap_app. unfold mem_entries, len in *. rewrite length_fmap in Hf. lia. }
  exists mi, mi', l. split_and!; try done. assert (forall k, assoc k l = view k (vt :: (sl_tab <$> gone))) as Hvw'.
  { intros k. rewrite Hvw, view_app, <- Hvt. simpl. by destruct (assoc k vt). }
  rewrite <- fmap_app in Hel, Hll. split; try done. by apply layer_elem_view.
Qed.

Lemma compactL0_run : exists r e1, compactL0_write fuel ios e = (Ok r, e1) /\ written n e pc m r e1.
Proof using All.
  destruct l0_held as (Hh & Hne & Hmetas). pose proof Hdur as (mt & sp & dn & grps & pre & _ & HD & _).
  destruct (level_slots _ _ _ _ _ _ _ _ _ Hsh HD Hdst) as (P2 & Q2 & R2 & _).
  unfold compactL0_write. rewrite (M_bind_run _ _ _ e e) by done.
  rewrite (M_bind_run _ _ _ (sl_ptr <$> S0) e) by (unfold lift; by rewrite (sh_levels _ _ _ _ _ Hsh)). rewrite Hmetas.
  destruct (len (sl_ptr <$> S0) =? 0) eqn:E0; [exists None, e; split; [done|apply written_none]|].
  destruct l0_merged as (vt & Hs & Hvt). assert (exists s l0, S0 = s :: l0) as (s & l0 & ES).
  { clear -E0. destruct S0 as [|s l0]; [done|by exists s, l0]. }
  destruct (key_range_merged e s l0 vt) as [Hvne Ek]; rewrite <- ?ES; try done. rewrite <- ES in Ek.
  rewrite (M_bind_run _ _ _ _ _ (lift_ok _ _ e Ek)). cbv beta iota. change (val_bytes (Some ?x)) with x.
  pose proof (findOverlapping_slots e 0 dst (range_of vt).1 (range_of vt).2 P2 Q2 R2 (level_metas _ _ _ _ _ _ _ HD Hdst)) as Eo.
  rewrite (M_bind_run _ _ _ _ _ (lift_ok _ _ e Eo)). cbv beta iota.
  change (filter (fun s => hits _ _ (range_of (sl_tab s)) = true) dst) with (filter (hit_by vt) dst).
  assert (Forall2 (table_is e) (reverse (sl_ptr <$> S0)) (reverse (sl_tab <$> S0))) as Hrev by by apply Forall2_reverse, held_Forall2.
  destruct (table_iters_ok e _ _ Hrev) as (its0 & E1 & _).
  destruct (table_iters_ok e _ _ (held_Forall2 _ _ (forall_filter _ (hit_by vt) _ (proj1 Q2)))) as (its1 & E2 & _).
  rewrite (M_bind_run _ _ _ _ _ (lift_ok _ _ e E1)), (M_bind_run _ _ _ _ _ (lift_ok _ _ e E2)).
  destruct (l0_chosen_merge vt _ its0 its1 Hs Hvt eq_refl E1 E2) as (mi & mi' & l & E3 & E4 & E5 & Hl).
  rewrite (M_bind_run _ _ _ _ _ (lift_ok _ _ e E3)), (M_bind_run _ _ _ _ _ (lift_ok _ _ e E4)).
  destruct (output_sys n e pc m act imms S0 D deep [] Hinv Hv Hsh Hxs Hdur 0 S0 [] dst vt l) with (fuel := fuel) (ios := ios) (mi := mi')
    as (e1 & metas & readers & E & Hsys1 & Hg & Hn); try done; [by rewrite app_nil_r|intros k; by rewrite l0_order|].
  change (Z.of_nat 1) with 1 in E. rewrite (M_bind_run _ _ _ _ _ E). eexists _, e1. by split; [|split_and!].
Qed.
End compactL0.

Lemma compactL0_write_sys n e pc m fuel ios :
  fits fuel e -> sound_files ios -> sysc n e pc CIdle m -> (0 < n)%nat -> published_all pc -> l0_disjoint e ->
  exists r e1, compactL0_write fuel ios e = (Ok r, e1) /\ written n e pc m r e1.
Proof.
  intros Hfits Hios (act & imms & S0 & D & deep & xs & ys & Hinv & Hv & Hsh & Hxs & Hjob & Hdur) Hn Hpc Hdis. simpl in Hjob. subst ys.
  assert (xs = []) as -> by (by destruct pc). pose proof Hdur as (mt & s & dn & grps & pre & _ & HD & _).
  destruct (lookup_lt_is_Some_2 D 0) as [dst Hdst].
  { pose proof (sound_length _ _ (sd_sound _ _ _ _ _ HD)) as Hl. rewrite (sd_levels _ _ _ _ _ HD), length_fmap in Hl. simpl in Hl. lia. }
  by apply (compactL0_run n e pc m fuel ios Hfits Hios act imms S0 D deep Hinv Hv Hsh Hxs Hdur dst).
Qed.
