(* ===== verification/CompactRun.v ===== *)
(** * engine: compactions, flushes, writes and power failures together

    The two halves of a compaction become steps of the system, interleaved
    with those of clients and flushes and with power failures between any two
    of them.  Whole runs of the compaction goroutine are sequences of such
    steps. *)

From S2P Require Import Prelude GoStd SkipList Memtable Bloom Wal SSTWriter SSTReader SSTIterator GoHeap MergeIterator Manifest Engine EngineRun Compaction CompactOutput CompactTables Shelf Recovery CompactInstall CompactWrite.

(** ** Steps of a compaction *)

Abbreviation cstate := (Engine * fpc * cpc)%type.

(** On a sound device, with entries and numbers within bounds.  L0 is
    compacted only when its tables share no key and no flush is between its
    manifest entry and its publication. *)
Inductive cstep : cstate -> cstate -> Prop :=
| cstep_l0 fuel ios e pc c e1 :
    sound_files ios -> fits fuel e -> published_all pc -> l0_disjoint e -> 1 < MaxLevels (e_opts e) ->
    compactL0_write fuel ios e = (Ok (Some c), e1) -> cstep (e, pc, CIdle) (e1, pc, CWritten c)
| cstep_level fuel ios level e pc c e1 :
    sound_files ios -> fits fuel e -> 1 <= level -> level + 1 < MaxLevels (e_opts e) -> level + 1 < 2 ^ 32 ->
    compactLevel_write fuel ios level e = (Ok (Some c), e1) -> cstep (e, pc, CIdle) (e1, pc, CWritten c)
| cstep_install io e pc c r e1 :
    install io c e = (r, e1) -> cstep (e, pc, CWritten c) (e1, pc, CIdle).

Abbreviation sys_of n st m := (sysc n st.1.1 st.1.2 st.2 m).

Lemma sysc_opts n e pc cp m : sysc n e pc cp m -> MaxLevels (e_opts e) = Z.of_nat (S n).
Proof.
  intros (act & imms & S0 & D & deep & xs & ys & _ & _ & _ & _ & _ & mt & s & dn & grps & pre & _ & HD & _). apply (sd_opts _ _ _ _ _ HD).
Qed.

Lemma cstep_sys n st st' m : sys_of n st m -> cstep st st' -> sys_of n st' m.
Proof.
  intros Hsys H. destruct H as [fuel ios e pc c e1 Hios Hf Hpc Hd Hn E|fuel ios level e pc c e1 Hios Hf Hlo Hhi Hw E|io e pc c r e1 E];
    simpl in *; [pose proof (sysc_opts _ _ _ _ _ Hsys) as Ho..|].
  - destruct (compactL0_write_sys n e pc m fuel ios Hf Hios Hsys ltac:(lia) Hpc Hd) as (r & e1' & E' & _ & _ & Hr).
    rewrite E in E'. by injection E' as <- <-.
  - destruct (compactLevel_write_sys n e pc m fuel ios Hf Hios level Hsys Hlo ltac:(lia) Hw) as (r & e1' & E' & _ & _ & Hr).
    rewrite E in E'. by injection E' as <- <-.
  - destruct (sysc_install n io c e pc m Hsys) as (e2 & E' & Hs & _). rewrite E in E'. by injection E' as -> ->.
Qed.

(** A compaction does not close the engine. *)
Lemma cstep_closed n st st' m : sys_of n st m -> cstep st st' -> e_closed st'.1.1 = e_closed st.1.1.
Proof.
  intros Hsys H. destruct H as [fuel ios e pc c e1 Hios Hf Hpc Hd Hn E|fuel ios level e pc c e1 Hios Hf Hlo Hhi Hw E|io e pc c r e1 E];
    simpl in *; [pose proof (sysc_opts _ _ _ _ _ Hsys) as Ho..|].
  - destruct (compactL0_write_sys n e pc m fuel ios Hf Hios Hsys ltac:(lia) Hpc Hd) as (r & e1' & E' & (rs & files & num & Hg & _) & _).
    rewrite E in E'. injection E' as _ <-. by rewrite Hg.
  - destruct (compactLevel_write_sys n e pc m fuel ios Hf Hios level Hsys Hlo ltac:(lia) Hw) as (r & e1' & E' & (rs & files & num & Hg & _) & _).
    rewrite E in E'. injection E' as _ <-. by rewrite Hg.
  - destruct (sysc_install n io c e pc m Hsys) as (e2 & E' & _ & (_ & _ & _ & _ & _ & Hc & _) & _). rewrite E in E'. by injection E' as _ ->.
Qed.

(** ** Whole compactions *)

Lemma shelf_entries_grown n e pc cp m e1 : sysc n e pc cp m -> grown e e1 -> shelf_entries e1 = shelf_entries e.
Proof.
  intros (act & imms & S0 & D & deep & xs & ys & _ & _ & Hsh & _) (rs & files & num & -> & _).
  rewrite (shelf_entries_repr _ _ _ _ _ Hsh). destruct Hsh as [H1 H2 _ _ _]. apply Forall_app in H2 as [[H20 _]%Forall_app [H2 _]%Forall_app].
  unfold shelf_entries. cbn [grow e_levels]. rewrite H1, concat_fmap. apply tables_entries_held.
  apply (held_mono e); [intros p r Hp; by apply lookup_app_Some|]. by apply Forall_app_2.
Qed.

(** What a compaction of one level changes. *)
Record compacted (e e' : Engine) : Prop := {
  cd_lighter : lighter e e';
  cd_next : e_nextFileNum e' <= e_nextFileNum e + len (shelf_entries e);
  cd_opts : e_opts e' = e_opts e;
  cd_closed : e_closed e' = e_closed e
}.

Lemma compacted_refl e : compacted e e.
Proof. split; try done. pose proof (len_nonneg (shelf_entries e)). lia. Qed.

Lemma compact_whole n (write : M Engine (option compaction)) io e pc m r e1 :
  sysc n e pc CIdle m -> write e = (Ok r, e1) -> written n e pc m r e1 ->
  (forall c, r = Some c -> cstep (e, pc, CIdle) (e1, pc, CWritten c)) ->
  exists e', (c ← write; install_opt io c) e = (Ok tt, e') /\ rtc cstep (e, pc, CIdle) (e', pc, CIdle) /\ compacted e e'.
Proof.
  intros Hsys E (Hg & Hn & Hr) Hstep. rewrite (M_bind_run _ _ _ _ _ E). destruct r as [c|].
  - destruct (sysc_install n io c e1 pc m Hr) as (e2 & E2 & Hs2 & (A1 & A2 & A3 & A4 & A5 & A6 & A7 & A8) & Hl).
    exists e2. split; [exact E2|]. split; [eapply rtc_l; [by apply Hstep|]; eapply rtc_l; [by econstructor|done]|].
    pose proof (shelf_entries_grown _ _ _ _ _ _ Hsys Hg) as Heq. destruct Hg as (rs & files & num & -> & Hle & _).
    split; [|rewrite A8; done|by rewrite A7|by rewrite A6]. unfold lighter in *. by rewrite Heq in Hl.
  - subst e1. exists e. split; [done|]. split; [done|apply compacted_refl].
Qed.

Lemma rtc_cstep_sys n st st' m : rtc cstep st st' -> sys_of n st m -> sys_of n st' m.
Proof. induction 1; eauto using cstep_sys. Qed.

Lemma fits_compacted fuel e e' k :
  fits fuel e -> compacted e e' -> 0 <= k -> e_nextFileNum e + (1 + (k + 1)) * len (shelf_entries e) < 2 ^ 64 ->
  fits fuel e' /\ e_nextFileNum e' + (k + 1) * len (shelf_entries e') < 2 ^ 64.
Proof.
  intros (F1 & F2 & F3) [[L1 L2] Hn _ _] Hk Hnum. pose proof (len_nonneg (shelf_entries e')).
  assert (e_nextFileNum e' + (k + 1) * len (shelf_entries e') < 2 ^ 64) by nia. split; [|done]. split_and!.
  - rewrite Forall_forall in F1 |- *. auto.
  - unfold len in L1. lia.
  - nia.
Qed.

Lemma needsCompaction_deep level e : 1 <= level -> exists b, needsCompaction level e = Ok b.
Proof. intros H. unfold needsCompaction. rewrite (proj2 (Z.eqb_neq _ _)) by lia. eauto. Qed.

Lemma compact_levels_run n fuel ios levels pc m : forall e,
  sysc n e pc CIdle m -> (forall level, sound_files (ios level)) -> fits fuel e ->
  Forall (fun level => 1 <= level /\ level < Z.of_nat n /\ level + 1 < 2 ^ 32) levels ->
  e_nextFileNum e + (len levels + 1) * len (shelf_entries e) < 2 ^ 64 ->
  exists e', compact_levels fuel ios levels e = (Ok tt, e') /\ rtc cstep (e, pc, CIdle) (e', pc, CIdle) /\ lighter e e' /\ e_closed e' = e_closed e.
Proof.
  induction levels as [|level levels IH]; intros e Hsys Hios Hf Hlv Hnum; [by exists e|].
  apply Forall_cons in Hlv as [(Hlo & Hhi & Hw) Hlv]. rewrite len_cons in Hnum. pose proof (len_nonneg levels) as Hn0. cbn [compact_levels].
  rewrite (M_bind_run _ _ _ e e) by done. destruct (needsCompaction_deep level e Hlo) as [b Eb].
  rewrite (M_bind_run _ _ _ _ _ (lift_ok _ _ e Eb)).
  assert (exists e1, (if b then ignore_err (compactLevel fuel (ios level) level) else mret tt) e = (Ok tt, e1) /\
    rtc cstep (e, pc, CIdle) (e1, pc, CIdle) /\ compacted e e1) as (e1 & E1 & Hc & Hcd).
  { destruct b; [|exists e; split; [done|split; [done|apply compacted_refl]]].
    destruct (compactLevel_write_sys n e pc m fuel (ios level) Hf (Hios level) level Hsys Hlo Hhi Hw) as (r & e1 & E & Hr).
    destruct (compact_whole n _ (ios level 0%nat) e pc m r e1 Hsys E Hr) as (e2 & E2 & Hc & Hcd).
    { intros c ->. apply (cstep_level fuel (ios level) level); try done. rewrite (sysc_opts _ _ _ _ _ Hsys). lia. }
    exists e2. split; [|done]. unfold ignore_err, compactLevel. by rewrite E2. }
  rewrite (M_bind_run _ _ _ _ _ E1). destruct (fits_compacted fuel e e1 (len levels) Hf Hcd Hn0 ltac:(lia)) as [Hf1 Hnum1].
  destruct (IH e1 (rtc_cstep_sys n _ _ m Hc Hsys) Hios Hf1 Hlv Hnum1) as (e2 & E2 & Hc2 & Hl2 & Hcl2).
  exists e2. split; [exact E2|]. split; [by etrans|]. split; [eapply lighter_trans; [apply Hcd|done]|by rewrite Hcl2, (cd_closed _ _ Hcd)].
Qed.

(** When the L0 tables reached the trigger they are compacted too. *)
Definition l0_safe (pc : fpc) (e : Engine) : Prop :=
  needsCompaction 0 e = Ok true -> 1 < MaxLevels (e_opts e) /\ published_all pc /\ l0_disjoint e.

Lemma runCompaction_run n fuel ios e pc m :
  sysc n e pc CIdle m -> (forall level, sound_files (ios level)) -> fits fuel e -> l0_safe pc e -> MaxLevels (e_opts e) < 2 ^ 32 ->
  e_nextFileNum e + (MaxLevels (e_opts e) + 1) * len (shelf_entries e) < 2 ^ 64 ->
  exists e', runCompaction fuel ios e = (Ok tt, e') /\ rtc cstep (e, pc, CIdle) (e', pc, CIdle) /\ lighter e e' /\ e_closed e' = e_closed e.
Proof.
  intros Hsys Hios Hf Hl0 Hmax Hnum. pose proof (sysc_opts _ _ _ _ _ Hsys) as Ho. unfold runCompaction. rewrite (M_bind_run _ _ _ e e) by done.
  assert (exists b, needsCompaction 0 e = Ok b) as [b Eb].
  { pose proof Hsys as (act & imms & S0 & D & deep & xs & ys & _ & _ & Hsh & _). unfold needsCompaction.
    rewrite (sh_levels _ _ _ _ _ Hsh). change (index (fmap (M:=list) sl_ptr <$> S0 :: D) 0) with (Ok (sl_ptr <$> S0)). rstep. eauto. }
  rewrite (M_bind_run _ _ _ _ _ (lift_ok _ _ e Eb)).
  assert (exists e1, (if b then ignore_err (compactL0 fuel (ios 0)) else mret tt) e = (Ok tt, e1) /\
    rtc cstep (e, pc, CIdle) (e1, pc, CIdle) /\ compacted e e1) as (e1 & E1 & Hc & Hcd).
  { destruct b; [|exists e; split; [done|split; [done|apply compacted_refl]]]. destruct (Hl0 Eb) as (Hm & Hpc & Hd).
    destruct (compactL0_write_sys n e pc m fuel (ios 0) Hf (Hios 0) Hsys ltac:(lia) Hpc Hd) as (r & e1 & E & Hr).
    destruct (compact_whole n _ (ios 0 0%nat) e pc m r e1 Hsys E Hr) as (e2 & E2 & Hc & Hcd).
    { intros c ->. by apply (cstep_l0 fuel (ios 0)). }
    exists e2. split; [|done]. unfold ignore_err, compactL0. by rewrite E2. }
  rewrite (M_bind_run _ _ _ _ _ E1). set (levels := seqZ 1 (MaxLevels (e_opts e) - 2)).
  pose proof (len_nonneg (shelf_entries e)) as Hse. pose proof (len_nonneg levels) as Hn0.
  assert (len levels + 1 <= MaxLevels (e_opts e)) as Hlen by (unfold len, levels; rewrite length_seqZ; lia).
  destruct (fits_compacted fuel e e1 (len levels) Hf Hcd Hn0 ltac:(nia)) as [Hf1 Hnum1].
  destruct (compact_levels_run n fuel ios levels pc m e1 (rtc_cstep_sys n _ _ m Hc Hsys) Hios Hf1) as (e2 & E2 & Hc2 & Hl2 & Hcl2); [|done|].
  { apply Forall_forall. intros level Hl. unfold levels in Hl. apply elem_of_seqZ in Hl. lia. }
  exists e2. split; [exact E2|]. split; [by etrans|]. split; [eapply lighter_trans; [apply Hcd|done]|by rewrite Hcl2, (cd_closed _ _ Hcd)].
Qed.

(** ** Runs *)

(** Databases reached from a new one by steps of clients, flushes and
    compactions on a sound device and by power failures that keep any part of
    what was not synced, each followed by [Open].  Steps of clients write values
    that are not empty while the flush channel has room ([step_op]).  A failure
    comes between two steps or while a step writes its table files ([extra]). *)
Inductive drun (opts : Options) : cstate -> gmap bytes (option bytes) -> Prop :=
| drun_open coins e : Engine_Open (open_ok coins) empty_disk opts = Ok e -> drun opts (e, FIdle, CIdle) ∅
| drun_step lab e pc cp m e' pc' m' :
    drun opts (e, pc, cp) m -> label_ok e lab -> estep lab (e, pc) m (e', pc') m' -> drun opts (e', pc', cp) m'
| drun_compact st st' m : drun opts st m -> cstep st st' -> drun opts st' m
| drun_crash extra coins nm nt nw e pc cp m e' :
    drun opts (e, pc, cp) m -> unfinished e extra ->
    Engine_Open (open_ok coins) (disk_crash nm nt nw (Engine_disk (with_tables extra e))) opts = Ok e' ->
    drun opts (e', FIdle, CIdle) m.

Lemma drun_inv opts n st m : MaxLevels (applyDefaults opts) = Z.of_nat (S n) -> drun opts st m -> sys_of n st m.
Proof.
  intros Hn H. induction H as [coins e E|lab e pc cp m e' pc' m' H IH Hok Hstep|st st' m H IH Hstep|extra coins nm nt nw e pc cp m e' H IH Hx E].
  - destruct (Engine_Open_new coins opts) as (n' & w & E' & Hw & Hn'). rewrite E in E'. injection E' as ->.
    assert (n' = n) as -> by lia. by apply sys_new.
  - by eapply sysc_step.
  - by eapply cstep_sys.
  - destruct (sys_recover_tables n e pc m extra opts coins nm nt nw (ex_intro _ cp IH) Hx Hn) as (e2 & E2 & Hs). rewrite E in E2. by injection E2 as ->.
Qed.

Lemma drun_compacts opts st st' m : rtc cstep st st' -> drun opts st m -> drun opts st' m.
Proof. induction 1; eauto using drun_compact. Qed.

(** The map as clients see it. *)
Definition answers (e : Engine) (m : gmap bytes (option bytes)) : Prop :=
  (forall k, Engine_Get k e = answer (m !! k)) /\
  exists n, forall fuel s t, (n < fuel)%nat ->
    exists kvs, Engine_ReadRange fuel s t e = Ok kvs /\ StronglySorted blt (kv_Key <$> kvs) /\
      forall k v, mkKV k v ∈ kvs <-> (s ≤ₖ k /\ k ≤ₖ t) /\ m !! k = Some (Some v).

Lemma run_answers deep e pc act imms l0 m : run_inv deep e pc act imms l0 -> views (layers (act :: imms) l0 deep) m -> answers e m.
Proof.
  intros Hinv Hv. pose proof (run_engine_repr _ _ _ _ _ _ Hinv) as Hrep. split; [intros k; by rewrite (Engine_Get_repr _ _ _ _ Hrep), Hv|].
  eexists. intros fuel s t Hf. destruct (Engine_ReadRange_repr e _ _ _ Hrep fuel s t Hf) as (kvs & E & Hs & Hin).
  exists kvs. split_and!; try done. intros k v. by rewrite Hin, Hv.
Qed.

Lemma sys_answers n e pc cp m : sysc n e pc cp m -> answers e m.
Proof. intros (act & imms & S0 & D & deep & xs & ys & Hinv & Hv & _). by eapply run_answers. Qed.

Lemma reads_answers e m : reads e m -> answers e m.
Proof. intros (deep & act & imms & l0 & Hinv & Hv). by eapply run_answers. Qed.


(** C13.  A run of the compaction goroutine.  In any state the system reaches (as
    in C1: values that are not empty, a flush channel with room), with no failing
    file operation, entries of less than 2^29 bytes, and file numbers and levels
    within their widths; and, in case L0 has enough tables to be
    compacted, with more than one level ([MaxLevels] is 2 or more), no flush
    between its manifest entry and its publication, and no key in two of the L0
    tables ([l0_safe]; the theorems of CompactionFaults show what happens
    otherwise): [runCompaction] terminates without error whatever levels it finds
    too large, and is a sequence of the steps above: every level stays sorted,
    disjoint and described by the manifest on disk, every manifest entry keeps
    a complete synced table file and every table a reader of its own (else
    later reads, or [Open] after a failure, would go wrong); no entry is added
    and [Get] and [ReadRange] answer as before.  Fuel above the number of
    entries is enough. *)
Theorem run_compaction_keeps_answers :
  forall (opts : Options) (e : Engine) (pc : fpc) (m : gmap bytes (option bytes)) (fuel : nat) (ios : Z -> nat -> IO),
  drun opts (e, pc, CIdle) m -> (forall level, sound_files (ios level)) -> fits fuel e -> l0_safe pc e ->
  MaxLevels (e_opts e) < 2 ^ 32 -> e_nextFileNum e + (MaxLevels (e_opts e) + 1) * len (shelf_entries e) < 2 ^ 64 ->
  exists e', runCompaction fuel ios e = (Ok tt, e') /\ drun opts (e', pc, CIdle) m /\ lighter e e' /\ answers e' m.
Proof.
  intros opts e pc m fuel ios H Hios Hf Hl0 Hmax Hnum. destruct (Engine_Open_new (fun _ => []) opts) as (n & _ & _ & _ & Hn).
  pose proof (drun_inv opts n _ _ Hn H) as Hsys. simpl in Hsys.
  destruct (runCompaction_run n fuel ios e pc m Hsys Hios Hf Hl0 Hmax Hnum) as (e' & E & Hc & Hl & _).
  exists e'. split_and!; [exact E|by eapply drun_compacts|done|]. eapply (sys_answers n e' pc CIdle), (rtc_cstep_sys n _ _ m Hc Hsys).
Qed.

(** *** A run with a compaction *)

Lemma demo_label_ok e v : w_fileID (e_wal e) + 1 < 2 ^ 64 -> label_ok e (LOp (demo_put v)).
Proof. intros H. split; [|by split]. constructor; [vm_compute; reflexivity|constructor]. Qed.

Lemma demo1_drun : drun demo_opts (demo1, FIdle, CIdle) (write_all (eop_writes (demo_put x31)) ∅).
Proof.
  eapply (drun_step _ (LOp (demo_put x31)) demo_open FIdle).
  3: refine (step_op demo_open FIdle ∅ (demo_put x31) (Ok tt) demo1 _ _
       (run1_eq (eop_run (demo_put x31)) demo_open (Ok tt) _)); [by repeat constructor|vm_compute; lia|vm_compute; reflexivity].
  2: apply demo_label_ok; vm_compute; reflexivity.
  apply (drun_open _ (fun _ => [])). vm_compute. reflexivity.
Qed.

(** One table is enough to start a compaction of L0; there are three levels. *)
Definition demo_copts : Options := mkOptions 1 1 3 0.
Definition demo_c0 : Engine :=
  match Engine_Open (open_ok (fun _ => [])) empty_disk demo_copts with Ok e => e | _ => demo_open end.
Definition demo_c1 : Engine := run1 (eop_run (demo_put x31)) demo_c0.
Definition demo_c2 : Engine := run1 (flush_write demo_io 0) (set_flushCh [] demo_c1).
Definition demo_c3 : Engine := run1 (flush_publish 0) demo_c2.
Definition demo_c4 : Engine := run1 (removeImmutable 0) demo_c3.
Definition demo_c5 : Engine := run1 (flush_finish demo_io 1) demo_c4.
Definition demo_cmap : gmap bytes (option bytes) := write_all (eop_writes (demo_put x31)) ∅.

Lemma demo_flushed_drun : drun demo_copts (demo_c5, FIdle, CIdle) demo_cmap.
Proof.
  eapply (drun_step _ (LFinish demo_io) demo_c4 (FRemoved demo_task)).
  3: exact (step_finish demo_c4 _ demo_io demo_task _ _ (run1_eq (flush_finish demo_io 1) demo_c4 _ eq_refl)).
  2: reflexivity.
  eapply (drun_step _ LRemove demo_c3 (FPublished demo_task)); [|done|exact (step_remove demo_c3 _ demo_task _ _ (run1_eq (removeImmutable 0) demo_c3 _ eq_refl))].
  eapply (drun_step _ LPublish demo_c2 (FWritten demo_task 0)); [|done|exact (step_publish demo_c2 _ demo_task 0 _ _ (run1_eq (flush_publish 0) demo_c2 _ eq_refl))].
  eapply (drun_step _ (LWrite demo_io) demo_c1 FIdle).
  3: refine (step_write demo_c1 _ demo_io demo_task [] (default (NewMemtable 0) (e_mems demo_c1 !! 0%nat)) [([x61], Some [x31])] 0 demo_c2 _ _ _ _
       (run1_eq (flush_write demo_io 0) (set_flushCh [] demo_c1) (Ok (FlushTable 0)) _)); vm_compute; reflexivity.
  2: vm_compute; reflexivity.
  eapply (drun_step _ (LOp (demo_put x31)) demo_c0 FIdle).
  3: refine (step_op demo_c0 FIdle ∅ (demo_put x31) (Ok tt) demo_c1 _ _
       (run1_eq (eop_run (demo_put x31)) demo_c0 (Ok tt) _)); [by repeat constructor|vm_compute; lia|vm_compute; reflexivity].
  2: apply demo_label_ok; vm_compute; reflexivity.
  apply (drun_open _ (fun _ => [])). vm_compute. reflexivity.
Qed.

Lemma demo_c5_entries : shelf_entries demo_c5 = [mkEntry [x61] (Some [x31]) false] /\ l0_disjoint demo_c5 /\ fits 5 demo_c5.
Proof.
  assert (shelf_entries demo_c5 = [mkEntry [x61] (Some [x31]) false]) as E by (vm_compute; reflexivity). split; [exact E|]. split.
  - unfold l0_disjoint. assert (tables_entries demo_c5 (default [] (head (e_levels demo_c5))) = [mkEntry [x61] (Some [x31]) false]) as ->
      by (vm_compute; reflexivity). apply NoDup_singleton.
  - unfold fits. rewrite E. split_and!; [by repeat constructor|simpl; lia|vm_compute; reflexivity].
Qed.

(** The output of the compaction and its installation, with a power failure in
    between or after. *)
Definition demo_cc : compaction :=
  match compactL0_write 5 (fun _ => demo_io) demo_c5 with (Ok (Some c), _) => c | _ => mkCompaction 0 [] [] [] [] [] [] end.
Definition demo_c6 : Engine := run1 (compactL0_write 5 (fun _ => demo_io)) demo_c5.
Definition demo_c7 : Engine := run1 (install demo_io demo_cc) demo_c6.

Lemma demo_written_step : cstep (demo_c5, FIdle, CIdle) (demo_c6, FIdle, CWritten demo_cc).
Proof.
  destruct demo_c5_entries as (_ & Hd & Hf).
  refine (cstep_l0 5 (fun _ => demo_io) _ FIdle _ _ _ Hf I Hd _ (run1_eq (compactL0_write 5 (fun _ => demo_io)) _ _ _));
    [intros i; split; reflexivity|vm_compute; reflexivity..].
Qed.

(** A put over a log device that stores five bytes and then fails. *)
Definition demo_torn : res unit * Engine := eop_run (demo_put x32) (with_log_faults [Some 5%nat] demo_c6).
Definition half_table (e : Engine) : gmap Z File := {[ e_nextFileNum e := mkFile [x00; x01] 1 [] false ]}.

Lemma half_unfinished e : unfinished e (half_table e).
Proof. unfold half_table. intros k f Hk. apply lookup_singleton_Some in Hk as [<- _]. lia. Qed.


Lemma run_compaction_keeps_answers_witness :
  needsCompaction 0 demo_c5 = Ok true /\
  exists e', runCompaction 5 (fun _ _ => demo_io) demo_c5 = (Ok tt, e') /\ drun demo_copts (e', FIdle, CIdle) demo_cmap /\
    lighter demo_c5 e' /\ answers e' demo_cmap.
Proof.
  split; [vm_compute; reflexivity|]. destruct demo_c5_entries as (E & Hd & Hf).
  apply (run_compaction_keeps_answers demo_copts demo_c5 FIdle demo_cmap 5 (fun _ _ => demo_io)).
  - exact demo_flushed_drun.
  - intros level i. split; reflexivity.
  - exact Hf.
  - intros _. split_and!; [vm_compute; reflexivity|done|exact Hd].
  - vm_compute. reflexivity.
  - rewrite E. vm_compute. reflexivity.
Defined.
