(* ===== verification/EngineClose.v ===== *)
(** * engine/engine.go: a graceful shutdown

    [Close] on a sound device flushes what is queued and the active memtable,
    returns nil, and leaves a disk from which [Open] restores every
    acknowledged write, also if the power fails right after it. *)

From S2P Require Import Prelude GoStd SkipList Memtable Bloom Wal SSTWriter SSTReader SSTIterator GoHeap MergeIterator Manifest Engine EngineRun Compaction CompactOutput CompactTables Shelf Recovery CompactInstall CompactWrite CompactRun.

(** ** Flushes that succeed *)

(** The calls of a flush in which nothing fails; [os.Stat] and [os.Remove] may. *)
Definition io_good (io : IO) : Prop := io_create io = Some [] /\ io_open io = true /\ io_purge io = (fun _ => true).

(** The manifest's file works. *)
Definition mf_good (n : nat) (e : Engine) : Prop :=
  exists f recs, mf_repr (S n) (e_manifest e) f recs /\ healthy f.

Lemma or_fail_run {St A B} (m : M St A) (c : M St B) k s a s1 : m s = (Ok a, s1) -> or_fail m c k s = k a s1.
Proof. unfold or_fail. by intros ->. Qed.

Lemma on_writer_run n w m e w' :
  m w = (Ok tt, w') -> on_writer n w m e = (Ok w', set_tables (e_nextFileNum e) (<[n := bfile (sw_buf w')]> (e_files e)) e).
Proof. unfold on_writer. by intros ->. Qed.

Lemma mf_good_same n e e' : e_manifest e' = e_manifest e -> mf_good n e -> mf_good n e'.
Proof. unfold mf_good. by intros ->. Qed.

Lemma flush_write_good n io mem e mt l :
  io_good io -> mf_good n e -> e_mems e !! mem = Some mt -> mt_repr mt l -> clean l -> table_fits (mem_entries l) ->
  0 <= e_nextFileNum e < 2 ^ 64 ->
  exists r e', flush_write io mem e = (Ok r, e') /\ mf_good n e' /\ (r = FlushEmpty \/ exists p, r = FlushTable p).
Proof.
  intros (Hcr & Hop & _) (f & recs & Hmf & Hf) Hmt Hl Hclean Hfit Hnum. unfold flush_write.
  set (e1 := set_tables (u64 (e_nextFileNum e + 1)) (e_files e) e).
  rewrite (M_bind_run _ _ _ (e_nextFileNum e) e1) by done. rewrite (M_bind_run _ _ _ e1 e1) by done. rewrite Hcr.
  destruct (NewWriter (Some []) (BlockSize (e_opts e1))) as [w| | |] eqn:Ew; try done.
  rewrite (or_fail_run _ _ _ _ w e1) by done. pose proof (NewWriter_inv _ _ _ Ew) as Hw.
  assert (sw_healthy w) as Hh by (by injection Ew as <-).
  rewrite (M_bind_run _ _ _ mt e1) by (unfold lift, mem_at; cbn; by rewrite Hmt).
  rewrite (M_bind_run _ _ _ l e1) by (unfold lift; by rewrite (Memtable_scan_spec _ _ Hl)).
  destruct (add_entries_healthy (mem_entries l) w [] [] Hw Hh) as (w1 & E1 & Hh1).
  rewrite (or_fail_run _ _ _ _ _ _ (on_writer_run _ _ _ _ _ E1)).
  destruct (add_entries_Ok _ _ _ _ _ _ Hw E1) as (bs1 & cur1 & Hw1 & Hc1).
  destruct (Writer_EntryCount w1 =? 0) eqn:Ecount.
  { unfold remove_table, mbind, M_bind. destruct (io_remove io);
      (eexists _, _; split; [done|]; split; [|by left]; by exists f, recs). }
  destruct (Writer_Finish_healthy _ _ _ Hw1 Hh1) as (w2 & E2); [by rewrite Hc1|].
  rewrite (or_fail_run _ _ _ _ _ _ (on_writer_run _ _ _ _ _ E2)).
  destruct (written_reader _ _ _ _ _ _ Hw Hfit E1 E2) as (r & bs & Er & Hrepr & Hc & _ & Hlen & Hcount).
  match goal with |- context [(_ ≫= _) ?s] => set (e2 := s) end. rewrite (M_bind_run _ _ _ e2 e2) by done.
  assert (OpenReader (map_table (io_open io) (e_nextFileNum e) e2) = Ok r) as Eo.
  { unfold map_table. rewrite Hop. cbn [e2 e_files set_tables]. by rewrite lookup_insert_eq. }
  rewrite (or_fail_run _ _ _ _ r e2) by (by rewrite Eo). destruct (reader_range r bs l Hrepr Hc) as [-> ->].
  assert (0 <= stat_size io (e_nextFileNum e) e2 < 2 ^ 40) as Hs.
  { unfold stat_size. cbn [e2 e_files set_tables]. rewrite lookup_insert_eq. pose proof (len_nonneg (contents (bfile (sw_buf w2)))).
    destruct (io_stat io); lia. }
  assert (l <> []) as Hne by (intros ->; by rewrite Hcount in Ecount).
  destruct (AddFile_good (S n) (e_manifest e) f recs _ Hmf Hf (flush_meta_fits _ _ l Hnum Hs Hne Hfit)) as (mf & f' & Ea & Hmf' & Hf').
  rewrite (or_fail_run _ _ _ _ tt (set_manifest mf e2)) by (unfold on_manifest; change (e_manifest e2) with (e_manifest e); by rewrite Ea).
  eexists _, _. split; [done|]. split; [by exists f', (recs ++ [mkMRecord recordAddFile (mkMeta (e_nextFileNum e) 0 (stat_size io (e_nextFileNum e) e2) (range_of l).1 (range_of l).2)])|eauto].
Qed.

(** ** Draining the queue *)

(** Every memtable's entries fit a table's length fields. *)
Definition mems_fit (e : Engine) : Prop :=
  forall p mt l, e_mems e !! p = Some mt -> Memtable_scan mt = Ok l -> table_fits (mem_entries l).

(** What a flush leaves alone. *)
Definition kept (e e' : Engine) : Prop :=
  e_mems e' = e_mems e /\ e_memtable e' = e_memtable e /\ e_closed e' = e_closed e.

Lemma kept_trans e1 e2 e3 : kept e1 e2 -> kept e2 e3 -> kept e1 e3.
Proof. unfold kept. naive_solver congruence. Qed.

Lemma kept_fit e e' : kept e e' -> mems_fit e -> mems_fit e'.
Proof. unfold mems_fit. by intros (-> & _). Qed.

Lemma sys_stored n e pc m : sys_inv n e pc m -> exists S0 D deep, stored n e S0 D deep.
Proof.
  intros (cp & act & imms & S0 & D & deep & xs & ys & _ & _ & _ & _ & _ & mt & s & dn & grps & pre & _ & HD & _). eauto.
Qed.

Lemma sys_mf_good n e pc m : sys_inv n e pc m -> mf_good n e.
Proof. intros (S0 & D & deep & HD)%sys_stored. apply (sd_sound _ _ _ _ _ HD). Qed.

Lemma sys_next n e pc m : sys_inv n e pc m -> 0 <= e_nextFileNum e < 2 ^ 64.
Proof. intros (S0 & D & deep & HD)%sys_stored. apply (sd_next _ _ _ _ _ HD). Qed.

(** The stages after the table was written. *)
Lemma flush_stages_good n io task p e m :
  io_good io -> sys_inv n e (FWritten task p) m ->
  exists e', (flush_publish p;; removeImmutable (ft_mem task);; flush_finish io (ft_walID task)) e = (Ok tt, e') /\
    sys_inv n e' FIdle m /\ e_flushCh e' = e_flushCh e /\ e_nextFileNum e' = e_nextFileNum e /\ kept e e'.
Proof.
  intros (_ & _ & Hpurge) Hsys. pose proof Hsys as (cp & act & imms & S0 & D & deep & xs & ys & Hinv & _).
  destruct (ri_tables _ _ _ _ _ _ Hinv) as (ps & rest & Hlev & _).
  destruct (flush_publish p e) as [r1 e1] eqn:E1.
  pose proof (sys_step n LPublish _ _ _ _ _ _ Hsys I (step_publish e m task p r1 e1 E1)) as Hs1.
  destruct (removeImmutable (ft_mem task) e1) as [r2 e2] eqn:E2.
  pose proof (sys_step n LRemove _ _ _ _ _ _ Hs1 I (step_remove e1 m task r2 e2 E2)) as Hs2.
  destruct (flush_finish io (ft_walID task) e2) as [r3 e3] eqn:E3.
  pose proof (sys_step n (LFinish io) _ _ _ _ _ _ Hs2 Hpurge (step_finish e2 m io task r3 e3 E3)) as Hs3.
  exists e3. pose proof E1 as Hpub. unfold flush_publish in E1. rewrite Hlev in E1.
  assert (r1 = Ok tt /\ r2 = Ok tt /\ r3 = Ok tt) as (-> & -> & ->).
  { split_and!; [by injection E1|by injection E2|by injection E3]. }
  unfold mbind, M_bind. rewrite Hpub, E2. split; [exact E3|]. split; [done|].
  injection E1 as <-. injection E2 as <-. injection E3 as <-. by destruct (0 <? ft_walID task).
Qed.

(** The oldest queued memtable. *)
Lemma queued_layer n e m task q :
  sys_inv n e FIdle m -> e_flushCh e = task :: q ->
  exists mt l, e_mems e !! ft_mem task = Some mt /\ mt_repr mt l /\ clean l.
Proof.
  intros (cp & act & imms & S0 & D & deep & xs & ys & Hinv & _) Hch.
  destruct (oldest_memtable _ _ _ _ _ (ri_mems _ _ _ _ _ _ Hinv) (queue_head _ _ _ _ _ _ _ _ Hinv eq_refl Hch))
    as (imms' & l & mt & _ & Emt & Hr & Hcl & _). eauto.
Qed.

Lemma flush_task_good n io task q e m :
  io_good io -> sys_inv n e FIdle m -> e_flushCh e = task :: q -> e_nextFileNum e + 1 < 2 ^ 64 -> mems_fit e ->
  exists e', flushMemtable io task (set_flushCh q e) = (Ok tt, e') /\ sys_inv n e' FIdle m /\ e_flushCh e' = q /\
    e_nextFileNum e' = e_nextFileNum e + 1 /\ kept e e'.
Proof.
  intros Hio Hsys Hch Hnum Hfit. destruct (queued_layer _ _ _ _ _ Hsys Hch) as (mt & l & Emt & Hr & Hcl).
  pose proof (Memtable_scan_spec _ _ Hr) as Hscan. pose proof (Hfit _ _ _ Emt Hscan) as Hfl. pose proof (sys_next _ _ _ _ Hsys) as Hn.
  destruct (flush_write_good n io (ft_mem task) (set_flushCh q e) mt l Hio (mf_good_same _ e _ eq_refl (sys_mf_good _ _ _ _ Hsys)) Emt Hr Hcl Hfl Hn)
    as (r & e1 & E1 & _ & Hcase).
  unfold flushMemtable. rewrite (M_bind_run _ _ _ _ _ E1). destruct Hcase as [->|[p ->]].
  - pose proof (sys_step n (LWrite io) _ _ _ _ _ _ Hsys Hnum (step_empty e m io task q e1 Hch E1)) as Hs1.
    destruct (removeImmutable (ft_mem task) e1) as [r2 e2] eqn:E2.
    pose proof (sys_step n LRemove _ _ _ _ _ _ Hs1 I (step_remove_empty e1 m task r2 e2 E2)) as Hs2.
    exists e2. destruct (flush_write_empty _ _ _ _ _ _ (Emt : e_mems (set_flushCh q e) !! _ = _) Hr E1) as (_ & files & -> & _).
    injection E2 as <- <-. split_and!; try done. simpl. unfold u64. by rewrite Z.mod_small by lia.
  - pose proof (sys_step n (LWrite io) _ _ _ _ _ _ Hsys Hnum (step_write e m io task q mt l p e1 Hch Emt Hscan Hfl E1)) as Hs1.
    destruct (flush_stages_good n io task p e1 m Hio Hs1) as (e2 & E2 & Hs2 & Hq & Hx & Hk).
    exists e2. destruct (flush_write_table _ _ _ _ _ _ _ (Emt : e_mems (set_flushCh q e) !! _ = _) Hr Hcl Hfl E1)
      as (r & f & size & mf & -> & _). rewrite E2. split_and!; try done.
    rewrite Hx. simpl. unfold u64. by rewrite Z.mod_small by lia.
Qed.

Lemma flush_drain_good n io m : (forall i, io_good (io i)) -> forall q e i,
  sys_inv n e FIdle m -> e_flushCh e = q -> e_nextFileNum e + len q < 2 ^ 64 -> mems_fit e ->
  exists e' i', flush_drain (S (length q)) io i e = (Ok i', e') /\ sys_inv n e' FIdle m /\ e_flushCh e' = [] /\
    e_nextFileNum e' = e_nextFileNum e + len q /\ kept e e'.
Proof.
  intros Hio. induction q as [|task q IH]; intros e i Hsys Hch Hnum Hfit.
  - exists e, i. cbn [flush_drain length]. unfold mbind, M_bind, flush_receive. rewrite Hch. split_and!; try done. unfold len; simpl; lia.
  - rewrite len_cons in Hnum. pose proof (len_nonneg q).
    destruct (flush_task_good n (io i) task q e m (Hio i) Hsys Hch ltac:(lia) Hfit) as (e1 & E1 & Hs1 & Hq1 & Hn1 & Hk1).
    destruct (IH e1 (S i) Hs1 Hq1 ltac:(lia) (kept_fit _ _ Hk1 Hfit)) as (e2 & i2 & E2 & Hs2 & Hq2 & Hn2 & Hk2).
    exists e2, i2. split_and!; try done; [|rewrite Hn2, Hn1, len_cons; lia|by eapply kept_trans].
    change (flush_drain (S (length (task :: q))) io i e) with
      ((t ← flush_receive; match t with None => mret i | Some task => flushMemtable (io i) task;; flush_drain (S (length q)) io (S i) end) e).
    rewrite (M_bind_run _ _ _ (Some task) (set_flushCh q e)) by (unfold flush_receive; by rewrite Hch).
    by rewrite (M_bind_run _ _ _ _ _ E1).
Qed.

(** ** The active memtable *)

(** [Open] would restore [m]. *)
Definition restorable (n : nat) (e : Engine) (m : gmap bytes (option bytes)) : Prop :=
  exists mt s S0 D deep, log_disk e m mt s /\ disk_inv n e mt S0 D deep.

Lemma restorable_same n e e' m :
  e_wal e' = e_wal e -> e_manifest e' = e_manifest e -> e_files e' = e_files e -> e_nextFileNum e' = e_nextFileNum e ->
  e_opts e' = e_opts e -> restorable n e m -> restorable n e' m.
Proof.
  intros Hw Hm Hf Hn Ho (mt & s & S0 & D & deep & [L1 L2 L3] & HD). exists mt, s, S0, D, deep.
  split; [|by apply (disk_inv_same n e)]. split; [by rewrite Hw|done|done].
Qed.

(** The tables alone hold [m]. *)
Definition tables_hold (n : nat) (e : Engine) (m : gmap bytes (option bytes)) : Prop :=
  exists S0 D deep, disk_inv n e m S0 D deep.

Lemma tables_hold_same n e e' m :
  e_manifest e' = e_manifest e -> e_files e' = e_files e -> e_nextFileNum e' = e_nextFileNum e -> e_opts e' = e_opts e ->
  tables_hold n e m -> tables_hold n e' m.
Proof. intros Hm Hf Hn Ho (S0 & D & deep & HD). exists S0, D, deep. by apply (disk_inv_same n e). Qed.

(** An empty memtable adds nothing to the tables. *)
Lemma views_nothing ws m : views [[]] (write_all ws ∅) -> write_all ws m = m.
Proof.
  intros Hv. rewrite (write_all_empty ws); [done|]. apply map_eq. intros k. by rewrite lookup_empty, <- (Hv k).
Qed.

(** A memtable of size zero is empty. *)
Lemma sizeless_empty mtb l : mt_repr mtb l -> (0 <? Memtable_ApproximateSize mtb) = false -> l = [].
Proof.
  intros Hr%sl_repr_size Hs. apply Z.ltb_ge in Hs. unfold Memtable_ApproximateSize in Hs. destruct l as [|[k v] l]; [done|].
  assert (forall l, 0 <= weight 72 l) as Hw.
  { clear. induction l as [|[k v] l IH]; [done|]. rewrite weight_cons. pose proof (len_nonneg k). pose proof (vlen_nonneg v). cbn. lia. }
  rewrite weight_cons in Hr. specialize (Hw l). pose proof (len_nonneg k). pose proof (vlen_nonneg v). cbn in Hr. lia.
Qed.

Lemma sys_restorable n e pc m : sys_inv n e pc m -> restorable n e m.
Proof.
  intros (cp & act & imms & S0 & D & deep & xs & ys & _ & _ & _ & _ & _ & mt & s & dn & grps & pre & HL%log_inv_disk & HD).
  by exists mt, s, (S0 ++ xs), D, deep.
Qed.

(** Replaying writes over tables that hold them changes nothing. *)
Lemma replay_over_tables dn ws m : absorbed dn m -> write_all (dn ++ ws) (write_all ws m) = write_all ws m.
Proof.
  intros H. apply map_eq. intros k. rewrite write_all_app, (write_all_lookup ws (write_all dn _)), (write_all_lookup dn).
  rewrite (write_all_lookup ws m). destruct (write_all ws ∅ !! k); [done|].
  destruct (write_all dn ∅ !! k) eqn:E; [|done]. symmetry. by apply H.
Qed.

(** With an empty queue the active memtable holds all the log has and the
    tables do not. *)
Lemma idle_active n e m :
  sys_inv n e FIdle m -> e_flushCh e = [] ->
  exists act mtb mt s S0 D deep dn ws, e_immutableMems e = [] /\ e_levels e <> [] /\
    e_mems e !! e_memtable e = Some mtb /\ mt_repr mtb act /\ clean act /\
    log_disk e m mt s /\ disk_inv n e mt S0 D deep /\ views [act] (write_all ws ∅) /\
    rec_write <$> ws_records s = dn ++ ws /\ absorbed dn mt /\ m = write_all ws mt.
Proof.
  intros (cp & act & imms & S0 & D & deep & xs & ys & Hinv & Hv & _ & _ & _ & mt & s & dn & grps & pre & HL & HD) Hch.
  pose proof (ri_mems _ _ _ _ _ _ Hinv) as [Hm _ _ Hc]. pose proof (ri_queue _ _ _ _ _ _ Hinv) as Hq. rewrite Hch in Hq.
  apply Forall2_cons_inv_l in Hm as (? & ? & (mtb & Emt & Hr) & _ & [= <- <-]). apply Forall_cons in Hc as [Hc _].
  destruct (ri_tables _ _ _ _ _ _ Hinv) as (ps & rest & Hlev & _).
  pose proof (li_groups _ _ _ _ _ _ _ _ _ HL) as Hg. rewrite Hch in Hg. apply Forall2_nil_inv_r in Hg as ->.
  exists act, mtb, mt, s, (S0 ++ xs), D, deep, (seg_writes dn), (seg_writes pre ++ (rec_write <$> ws_active s)).
  split_and!; try done; [by rewrite Hlev|by eapply log_inv_disk|by apply (li_act _ _ _ _ _ _ _ _ _ HL)|..|
    by apply (li_absorbed _ _ _ _ _ _ _ _ _ HL)|by apply (li_map _ _ _ _ _ _ _ _ _ HL)].
  rewrite ws_records_writes, (li_closed _ _ _ _ _ _ _ _ _ HL). simpl. by rewrite seg_writes_app, app_assoc.
Qed.

Lemma close_active_good n io e m :
  io_good io -> sys_inv n e FIdle m -> e_flushCh e = [] -> e_nextFileNum e + 1 < 2 ^ 64 -> mems_fit e ->
  exists e', (on_memtable (fun mt => (Ok tt, Memtable_Freeze mt));; flushMemtable io (mkTask (e_memtable e) 0)) e = (Ok tt, e') /\
    restorable n e' m /\ tables_hold n e' m /\ e_immutableMems e' = [] /\ e_wal e' = e_wal e /\ e_nextFileNum e' = e_nextFileNum e + 1.
Proof.
  intros Hio Hsys Hch Hnum Hfit.
  destruct (idle_active n e m Hsys Hch) as (act & mtb & mt & s & S0 & D & deep & dn & ws & Himm & Hlev & Emt & Hr & Hcl & HL & HD & Hv & Hrec & Habs & Hm).
  set (ef := set_mems (<[e_memtable e := Memtable_Freeze mtb]> (e_mems e)) e).
  rewrite (M_bind_run _ _ _ tt ef) by (unfold on_memtable; by rewrite Emt).
  assert (e_mems ef !! e_memtable e = Some (Memtable_Freeze mtb)) as Ef.
  { simpl. rewrite list_lookup_insert_eq; [done|]. by eapply lookup_lt_Some. }
  assert (mt_repr (Memtable_Freeze mtb) act) as Hrf by done.
  pose proof (Hfit _ _ _ Emt (Memtable_scan_spec _ _ Hr)) as Hfl.
  assert (disk_inv n ef mt S0 D deep) as HDf by by apply (disk_inv_same n e).
  assert (u64 (e_nextFileNum e + 1) = e_nextFileNum e + 1) as Hu.
  { unfold u64. apply Z.mod_small. pose proof (sys_next _ _ _ _ Hsys). lia. }
  destruct (flush_write_good n io (e_memtable e) ef _ act Hio (mf_good_same _ e _ eq_refl (sys_mf_good _ _ _ _ Hsys)) Ef Hrf Hcl Hfl (sys_next _ _ _ _ Hsys))
    as (r & e1 & E1 & _ & Hcase).
  unfold flushMemtable. cbn [ft_mem ft_walID]. rewrite (M_bind_run _ _ _ _ _ E1). destruct Hcase as [->|[p ->]].
  - destruct (flush_write_empty _ _ _ _ _ _ Ef Hrf E1) as (-> & files & -> & Hfiles).
    eexists. split; [done|]. rewrite (views_nothing ws mt Hv) in Hm. subst mt. split; [|split; [|by simpl; rewrite Himm, Hu]].
    + apply (restorable_same _ (set_tables (u64 (e_nextFileNum ef + 1)) files ef)); try done.
      exists m, s, S0, D, deep. split; [by destruct HL|by apply disk_inv_skip].
    + apply (tables_hold_same _ (set_tables (u64 (e_nextFileNum ef + 1)) files ef)); try done.
      exists S0, D, deep. by apply disk_inv_skip.
  - destruct (flush_write_table _ _ _ _ _ _ _ Ef Hrf Hcl Hfl E1) as (rd & f & size & mf & -> & -> & Hne & Hsize & Hadd & _ & Hf).
    pose proof (disk_inv_add n ef rd mf f mt S0 D deep size act ws HDf Hnum Hsize Hne Hfl Hf Hv Hadd) as HD'.
    destruct (e_levels e) as [|l0 levels] eqn:El; [done|].
    eexists. split; [unfold flush_publish, mbind, M_bind; simpl; by rewrite El|]. split; [|split; [|by simpl; rewrite Himm, Hu]].
    + apply (restorable_same _ (flushed_state ef rd mf f)); try done.
      eexists (write_all ws mt), s, _, D, deep. split; [|exact HD']. destruct HL as [L1 L2 _]. split; [done|done|].
      by rewrite Hrec, Hm, replay_over_tables.
    + apply (tables_hold_same _ (flushed_state ef rd mf f)); try done. rewrite Hm. eexists _, D, deep. exact HD'.
Qed.

(** ** Closing the files *)

(** Closing the log changes nothing a power failure could. *)
Lemma WAL_Close_repr w s :
  wal_repr w s -> exists w', WAL_Close w = (Ok tt, w') /\ forall nw,
    map_imap (fun k f => Some (crash (nw k) f)) (dirview w') = map_imap (fun k f => Some (crash (nw k) f)) (dirview w).
Proof.
  intros Hw. pose proof (wr_active _ _ Hw) as [Hb He Hc Hs _]. destruct (wr_healthy _ _ Hw) as [Hf Hcl].
  unfold WAL_Close, wrap, on_buf, on_file, bufio_Flush, mbind, M_bind. rewrite He, Hb. simpl.
  rewrite File_Sync_healthy by done. simpl. eexists. split; [done|]. intros nw.
  unfold dirview. simpl. rewrite (wr_linked _ _ Hw). apply map_eq. intros k. rewrite !map_lookup_imap, !lookup_insert.
  case_decide; [|done]. simpl. unfold crash. simpl. by rewrite Hs, <- Hc.
Qed.

Lemma Manifest_Close_good n e : mf_good n e -> exists e', on_manifest Manifest_Close e = (Ok tt, e').
Proof.
  intros (f & recs & Hm & H1 & H2). unfold on_manifest, Manifest_Close. rewrite (mp_file _ _ _ _ Hm).
  unfold File_Close, next_fault. rewrite H1, H2. simpl. eauto.
Qed.

Lemma restorable_mf_good n e m : restorable n e m -> mf_good n e.
Proof.
  intros (mt & s & S0 & D & deep & _ & HD & _). apply (sd_sound _ _ _ _ _ HD).
Qed.

(** The end of [close_engine] on a state with nothing left to flush. *)
Lemma close_files_good n fuel io i e m :
  restorable n e m -> e_immutableMems e = [] ->
  exists e', (close_flush (S fuel) io i;; first_error (on_wal WAL_Close) None) e = (Ok None, e') /\ mf_good n e' /\ e_immutableMems e' = [] /\
    forall nm nt nw, disk_crash nm nt nw (Engine_disk e') = disk_crash nm nt nw (Engine_disk e).
Proof.
  intros Hres Himm. pose proof (restorable_mf_good _ _ _ Hres) as Hmf. destruct Hres as (mt & s & S0 & D & deep & [Hw _ _] & _).
  destruct (WAL_Close_repr _ _ Hw) as (w' & Ew & Hdir).
  exists (set_wal w' e). rewrite (M_bind_run _ _ _ tt e).
  2: { cbn [close_flush]. rewrite (M_bind_run _ _ _ e e) by done. by rewrite Himm. }
  unfold first_error, on_wal. rewrite Ew. split; [done|]. split; [by apply (mf_good_same _ e)|]. split; [done|].
  intros nm nt nw. unfold disk_crash, Engine_disk. simpl. by rewrite Hdir.
Qed.

Lemma sys_inv_closed n e pc m : sys_inv n e pc m -> sys_inv n (set_closed e) pc m.
Proof.
  intros (cp & act & imms & S0 & D & deep & xs & ys & [Hm Ht Hq Hpc] & Hv & Hsh & Hxs & Hjob & HD).
  exists cp, act, imms, S0, D, deep, xs, ys. split_and!; try done; [|by apply (shelf_same e)|by apply (dur_same n _ _ _ e _ pc)].
  split; [by apply (mems_repr_same e)|by apply (tables_repr_same e)|done|done].
Qed.

Lemma close_engine_good n fuel io e m :
  (forall i, io_good (io i)) -> sys_inv n e FIdle m -> e_nextFileNum e + len (e_flushCh e) + 1 < 2 ^ 64 -> mems_fit e ->
  exists ed e1, restorable n ed m /\ tables_hold n ed m /\ e_immutableMems e1 = [] /\ close_engine (S fuel) io e = (Ok None, e1) /\ mf_good n e1 /\
    (forall nm nt nw, disk_crash nm nt nw (Engine_disk e1) = disk_crash nm nt nw (Engine_disk ed)) /\
    (e_flushCh e = [] -> e_wal ed = e_wal e /\ e_nextFileNum ed <= e_nextFileNum e + 1).
Proof.
  intros Hio Hsys%sys_inv_closed Hnum Hfit. unfold close_engine.
  rewrite (M_bind_run _ _ _ e e) by done. rewrite (M_bind_run _ _ _ tt (set_closed e)) by done.
  destruct (flush_drain_good n io m Hio (e_flushCh e) (set_closed e) 0 Hsys eq_refl ltac:(simpl; lia) Hfit)
    as (e2 & i & E2 & Hs2 & Hq2 & Hn2 & Hk2).
  rewrite (M_bind_run _ _ _ _ _ E2). rewrite (M_bind_run _ _ _ e2 e2) by done.
  pose proof (kept_fit _ _ Hk2 Hfit) as Hfit2. simpl in Hn2.
  assert (e_flushCh e = [] -> e2 = set_closed e) as He2.
  { intros Hch. rewrite Hch in E2. cbn [flush_drain length] in E2. unfold mbind, M_bind, flush_receive in E2. simpl in E2.
    rewrite Hch in E2. by injection E2 as _ <-. }
  destruct (idle_active n e2 m Hs2 Hq2) as (act & mtb & mt & s & S0 & D & deep & dn & ws & Himm & _ & Emt & Hmr & _ & _ & HD & Hv & _ & _ & Hm).
  rewrite (M_bind_run _ _ _ mtb e2) by (unfold lift, mem_at; by rewrite Emt).
  destruct (0 <? Memtable_ApproximateSize mtb) eqn:Esz.
  - destruct (close_active_good n (io i) e2 m (Hio i) Hs2 Hq2 ltac:(lia) Hfit2) as (e3 & E3 & Hres & Hth & Himm3 & Hw3 & Hn3).
    destruct (close_files_good n fuel io (S i) e3 m Hres Himm3) as (e4 & E4 & Hmf & Himm4 & Hd).
    exists e3, e4. split_and!; [done|done|done| |done|exact Hd|intros Hch; rewrite Hw3, Hn3, (He2 Hch); split; [done|simpl; lia]].
    rewrite (M_bind_run _ _ _ (S i) e3); [exact E4|].
    unfold mbind, M_bind in E3 |- *. destruct (on_memtable _ e2) as [[[]| | |] e0]; try done.
    destruct (flushMemtable _ _ e0) as [[[]| | |] e0']; try done. by injection E3 as ->.
  - destruct (close_files_good n fuel io i e2 m (sys_restorable _ _ _ _ Hs2) Himm) as (e4 & E4 & Hmf & Himm4 & Hd).
    rewrite (sizeless_empty _ _ Hmr Esz) in Hv. rewrite (views_nothing ws mt Hv) in Hm. subst mt.
    exists e2, e4. split_and!; [by eapply sys_restorable|by exists S0, D, deep|done| |done|exact Hd|intros Hch; rewrite (He2 Hch); split; [done|simpl; lia]]. rewrite (M_bind_run _ _ _ i e2) by done. exact E4.
Qed.

Lemma Engine_Close_good n fuel io e e1 :
  e_closed e = false -> close_engine fuel io e = (Ok None, e1) -> mf_good n e1 ->
  exists e2, Engine_Close fuel io e = (Ok tt, e2).
Proof.
  intros Hopen E1 Hmf. destruct (close_readers_run (concat (e_levels e1)) e1) as (rs & Er & _).
  destruct (Manifest_Close_good n (set_readers rs (e_levels e1) e1) (mf_good_same _ e1 _ eq_refl Hmf)) as (e2 & E2). exists e2.
  unfold Engine_Close. rewrite (M_bind_run _ _ _ e e), Hopen by done. rewrite (M_bind_run _ _ _ _ _ E1).
  rewrite (M_bind_run _ _ _ _ _ (Er : closeReaders e1 = _)).
  unfold mbind, M_bind, first_error. by rewrite E2.
Qed.

(** A write that fills the memtable. *)
Lemma demo1_fit : mems_fit demo1.
Proof.
  assert (exists mts, e_mems demo1 = mts /\ Forall (fun mt => forall l, Memtable_scan mt = Ok l -> table_fits (mem_entries l)) mts) as (mts & <- & H).
  { eexists. split; [vm_compute; reflexivity|]. repeat constructor; intros l Hl; vm_compute in Hl; injection Hl as <-; vm_compute; reflexivity. }
  intros p mt l Hp. rewrite Forall_forall in H. apply H. by eapply list_elem_of_lookup_2.
Qed.

(** The disk with the log's directory emptied. *)
Definition without_log (d : Disk) : Disk := mkDisk (d_manifest d) (d_tables d) ∅.

(** C11.  A graceful shutdown loses nothing and hangs nowhere.  From any state
    the database reaches as in C1 (values that are not empty, a flush channel
    with room, L0 compacted only while its tables share no key), with both
    goroutines between two tasks, tables and file numbers within their widths
    and no failing call in the remaining flushes: [Close] returns nil; no
    memtable is left to be flushed; and the tables alone hold everything, so
    that from the files it leaves, whatever a power failure does to them, [Open]
    restores a database whose [Get] answers with the last acknowledged write of
    every key and whose [ReadRange] returns the live pairs, with the log and
    also without it.  ([close_engine] is [Close] up to the unmapping of the tables
    and the manifest's [Close].) *)
Theorem engine_close_keeps_data :
  forall (opts : Options) (fuel : nat) (io : nat -> IO) (e : Engine) (m : gmap bytes (option bytes)),
  drun opts (e, FIdle, CIdle) m -> e_closed e = false -> (forall i, io_good (io i)) -> mems_fit e ->
  e_nextFileNum e + len (e_flushCh e) + 1 < 2 ^ 64 ->
  exists e1 e2, close_engine (S fuel) io e = (Ok None, e1) /\ Engine_Close (S fuel) io e = (Ok tt, e2) /\ e_immutableMems e1 = [] /\
    forall coins nm nt nw, let d := disk_crash nm nt nw (Engine_disk e1) in
      (exists e', Engine_Open (open_ok coins) d opts = Ok e' /\ answers e' m) /\
      (exists e', Engine_Open (open_ok coins) (without_log d) opts = Ok e' /\ answers e' m).
Proof.
  intros opts fuel io e m H Hopen Hio Hfit Hnum. destruct (Engine_Open_new (fun _ => []) opts) as (n & _ & _ & _ & Hn).
  pose proof (ex_intro _ CIdle (drun_inv opts n _ _ Hn H) : sys_inv n e FIdle m) as Hsys.
  destruct (close_engine_good n fuel io e m Hio Hsys Hnum Hfit)
    as (ed & e1 & (mt & s & S0 & D & deep & HL & HD) & (S0' & D' & deep' & HD') & Himm & E1 & Hmf & Hd & _).
  destruct (Engine_Close_good n (S fuel) io e e1 Hopen E1 Hmf) as (e2 & E2). exists e1, e2. split; [exact E1|]. split; [exact E2|].
  split; [exact Himm|]. intros coins nm nt nw. cbv zeta. rewrite Hd. split.
  - destruct (disk_recover n ed m mt s S0 D deep opts coins nm nt nw HL HD Hn) as (e' & E & Hs' & _).
    exists e'. split; [exact E|]. by eapply sys_answers.
  - destruct (WAL_Open_empty 0) as (w & Ew & Hw).
    destruct (open_any_log n ed m [] S0' D' deep' opts coins nm nt ∅ w HD' Hn ltac:(constructor) Ew) as (e' & E & Hr).
    { intros St fn st. exact (WAL_Replay_repr fn w _ st Hw). }
    exists e'. split; [exact E|]. by apply reads_answers.
Qed.

Lemma engine_close_keeps_data_witness :
  exists e1 e2, close_engine 1 (fun _ => demo_io) demo1 = (Ok None, e1) /\ Engine_Close 1 (fun _ => demo_io) demo1 = (Ok tt, e2) /\
    exists e', Engine_Open (open_ok (fun _ => [])) (without_log (disk_crash 2 (fun _ => 1%nat) (fun _ => 0%nat) (Engine_disk e1))) demo_opts = Ok e' /\
      Engine_Get [x61] e' = Ok (Some [x31]).
Proof.
  destruct (engine_close_keeps_data demo_opts 0 (fun _ => demo_io) demo1 (write_all (eop_writes (demo_put x31)) ∅))
    as (e1 & e2 & E1 & E2 & _ & H).
  - exact demo1_drun.
  - vm_compute. reflexivity.
  - intros i. by split_and!.
  - exact demo1_fit.
  - vm_compute. reflexivity.
  - exists e1, e2. split; [exact E1|]. split; [exact E2|].
    destruct (H (fun _ => []) 2%nat (fun _ => 1%nat) (fun _ => 0%nat)) as [_ (e' & E & Hget & _)].
    exists e'. split; [exact E|]. rewrite (Hget [x61]). vm_compute. reflexivity.
Defined.

(** Reads of a closed engine.  [Close] unmaps the tables and nothing tests
    [closed]: afterwards [Get] of a stored key fails with the reader's error,
    but [ReadRange] succeeds without the key, since the iterators take a block
    they cannot read for the end of the table. *)
Theorem range_after_close_misses :
  exists e2, Engine_Close 1 (fun _ => demo_io) demo1 = (Ok tt, e2) /\
    Engine_ReadRange 3 [x61] [x62] demo1 = Ok [mkKV [x61] [x31]] /\ Engine_ReadRange 3 [x61] [x62] e2 = Ok [] /\
    Engine_Get [x61] e2 = Err (Wrap "engine: sstable get" (Errorf "sstable: data block out of range")).
Proof.
  exists (run1 (Engine_Close 1 (fun _ => demo_io)) demo1).
  split; [apply (run1_eq (Engine_Close 1 (fun _ => demo_io))); vm_compute; reflexivity|].
  split; [vm_compute; reflexivity|]. split; vm_compute; reflexivity.
Qed.
