(* ===== verification/Raft.v ===== *)
(** * raft/raft.go: one Raft node

    The state of a node and every transition it makes under [r.mu]: elections,
    replication, commitment, application, the two RPC handlers and the
    persisted term and vote.  [startElection] and [replicateTo] release the
    lock around a remote call, so each is two transitions: what is sent, and
    what the reply does.  Timers may fire at any time and are not modelled
    beyond that; strings are byte lists.

    RPC argument and reply types are those of raft/transport.go. *)

From S2P Require Import Prelude GoStd Protocol RaftLog.

Inductive State :=
| Follower
| Candidate
| Leader.

#[global] Instance State_eq_dec : EqDecision State.
Proof. solve_decision. Defined.

Definition State_String (s : State) : string :=
  match s with
  | Follower => "Follower"
  | Candidate => "Candidate"
  | Leader => "Leader"
  end.

Definition ErrNotLeader : error := Errorf "raft: not the leader".
Definition ErrProposalTimeout : error := Errorf "raft: proposal timeout".
Definition ErrStopped : error := Errorf "raft: node stopped".

(** Durations are nanoseconds. *)
Record Config := mkConfig {
  ElectionTimeoutMin : Z;
  ElectionTimeoutMax : Z;
  HeartbeatInterval : Z;
  ProposalTimeout : Z
}.

Definition DefaultConfig : Config := mkConfig 300000000 500000000 100000000 5000000000.

(** [rnd n]: the number [rand.Int63n n] draws; it panics unless [n] is
    positive. *)
Definition randomElectionTimeout (rnd : Z -> Z) (c : Config) : res Z :=
  let delta := i64 (ElectionTimeoutMax c - ElectionTimeoutMin c) in
  if 0 <? delta then Ok (i64 (ElectionTimeoutMin c + rnd delta)) else Panic.

(** A pending proposal; [p_done] names its channel. *)
Record proposal := mkProposal {
  p_index : Z;
  p_done : nat
}.

(** [r_done]: the content of every proposal's channel, which has room for one
    value ([Some None] is a nil error).  [r_commitCh] has room for one signal.
    [r_applying]: where the loop of [applyCommitted] stands, its next index and
    the commit index it read; [None] when it waits for a signal.
    [r_closed]: whether [closeCh] is closed.  [r_stateFile] is the content of
    raft-state.bin. *)
Record Raft := mkRaft {
  r_currentTerm : Z;
  r_votedFor : bytes;
  r_log : Log;
  r_state : State;
  r_commitIndex : Z;
  r_lastApplied : Z;
  r_leaderID : bytes;
  r_nextIndex : gmap bytes Z;
  r_matchIndex : gmap bytes Z;
  r_nodeID : bytes;
  r_peers : list bytes;
  r_addr : bytes;
  r_applyCh : list LogEntry;
  r_commitCh : bool;
  r_proposals : list proposal;
  r_done : list (option (option error));
  r_applying : option (Z * Z);
  r_closed : bool;
  r_stateFile : option bytes
}.

Record RequestVoteArgs := mkVoteArgs {
  va_Term : Z;
  va_CandidateID : bytes;
  va_LastLogIndex : Z;
  va_LastLogTerm : Z
}.

Record RequestVoteReply := mkVoteReply {
  vr_Term : Z;
  vr_VoteGranted : bool
}.

Record AppendEntriesArgs := mkAppendArgs {
  aa_Term : Z;
  aa_LeaderID : bytes;
  aa_PrevLogIndex : Z;
  aa_PrevLogTerm : Z;
  aa_Entries : list LogEntry;
  aa_LeaderCommit : Z
}.

Record AppendEntriesReply := mkAppendReply {
  ar_Term : Z;
  ar_Success : bool
}.

(** How an [os.WriteFile] ends: complete, failing to open the file, or failing
    after [n] bytes of the truncated file. *)
Inductive write_outcome :=
| Written
| WriteNoOpen
| WriteShort (n : nat).

(** What the file system answers during a transition: its [i]-th
    [os.WriteFile], the [os.Create] of [TruncateFrom], the opening of the log
    file. *)
Record RIO := mkRIO {
  rio_write : nat -> write_outcome;
  rio_create : res (list fault);
  rio_open : res (list fault)
}.

Definition rio_ok : RIO := mkRIO (fun _ => Written) (Ok []) (Ok []).

(** ** Parts of the state *)

Definition set_role (st : State) (term : Z) (vote : bytes) (r : Raft) : Raft :=
  mkRaft term vote (r_log r) st (r_commitIndex r) (r_lastApplied r)
    (r_leaderID r) (r_nextIndex r) (r_matchIndex r) (r_nodeID r) (r_peers r) (r_addr r)
    (r_applyCh r) (r_commitCh r) (r_proposals r) (r_done r) (r_applying r) (r_closed r) (r_stateFile r).
Definition set_leader (id : bytes) (r : Raft) : Raft :=
  mkRaft (r_currentTerm r) (r_votedFor r) (r_log r) (r_state r) (r_commitIndex r) (r_lastApplied r)
    id (r_nextIndex r) (r_matchIndex r) (r_nodeID r) (r_peers r) (r_addr r)
    (r_applyCh r) (r_commitCh r) (r_proposals r) (r_done r) (r_applying r) (r_closed r) (r_stateFile r).
Definition set_log (l : Log) (r : Raft) : Raft :=
  mkRaft (r_currentTerm r) (r_votedFor r) l (r_state r) (r_commitIndex r) (r_lastApplied r)
    (r_leaderID r) (r_nextIndex r) (r_matchIndex r) (r_nodeID r) (r_peers r) (r_addr r)
    (r_applyCh r) (r_commitCh r) (r_proposals r) (r_done r) (r_applying r) (r_closed r) (r_stateFile r).
Definition set_commit (ci : Z) (ch : bool) (r : Raft) : Raft :=
  mkRaft (r_currentTerm r) (r_votedFor r) (r_log r) (r_state r) ci (r_lastApplied r)
    (r_leaderID r) (r_nextIndex r) (r_matchIndex r) (r_nodeID r) (r_peers r) (r_addr r)
    (r_applyCh r) ch (r_proposals r) (r_done r) (r_applying r) (r_closed r) (r_stateFile r).
Definition set_applied (la : Z) (ch : list LogEntry) (r : Raft) : Raft :=
  mkRaft (r_currentTerm r) (r_votedFor r) (r_log r) (r_state r) (r_commitIndex r) la
    (r_leaderID r) (r_nextIndex r) (r_matchIndex r) (r_nodeID r) (r_peers r) (r_addr r)
    ch (r_commitCh r) (r_proposals r) (r_done r) (r_applying r) (r_closed r) (r_stateFile r).
Definition set_applying (loop : option (Z * Z)) (r : Raft) : Raft :=
  mkRaft (r_currentTerm r) (r_votedFor r) (r_log r) (r_state r) (r_commitIndex r) (r_lastApplied r)
    (r_leaderID r) (r_nextIndex r) (r_matchIndex r) (r_nodeID r) (r_peers r) (r_addr r)
    (r_applyCh r) (r_commitCh r) (r_proposals r) (r_done r) loop (r_closed r) (r_stateFile r).
Definition set_indexes (next mtch : gmap bytes Z) (r : Raft) : Raft :=
  mkRaft (r_currentTerm r) (r_votedFor r) (r_log r) (r_state r) (r_commitIndex r) (r_lastApplied r)
    (r_leaderID r) next mtch (r_nodeID r) (r_peers r) (r_addr r)
    (r_applyCh r) (r_commitCh r) (r_proposals r) (r_done r) (r_applying r) (r_closed r) (r_stateFile r).
Definition set_proposals (ps : list proposal) (done : list (option (option error))) (r : Raft) : Raft :=
  mkRaft (r_currentTerm r) (r_votedFor r) (r_log r) (r_state r) (r_commitIndex r) (r_lastApplied r)
    (r_leaderID r) (r_nextIndex r) (r_matchIndex r) (r_nodeID r) (r_peers r) (r_addr r)
    (r_applyCh r) (r_commitCh r) ps done (r_applying r) (r_closed r) (r_stateFile r).
Definition set_closed (c : bool) (r : Raft) : Raft :=
  mkRaft (r_currentTerm r) (r_votedFor r) (r_log r) (r_state r) (r_commitIndex r) (r_lastApplied r)
    (r_leaderID r) (r_nextIndex r) (r_matchIndex r) (r_nodeID r) (r_peers r) (r_addr r)
    (r_applyCh r) (r_commitCh r) (r_proposals r) (r_done r) (r_applying r) c (r_stateFile r).
Definition set_stateFile (f : option bytes) (r : Raft) : Raft :=
  mkRaft (r_currentTerm r) (r_votedFor r) (r_log r) (r_state r) (r_commitIndex r) (r_lastApplied r)
    (r_leaderID r) (r_nextIndex r) (r_matchIndex r) (r_nodeID r) (r_peers r) (r_addr r)
    (r_applyCh r) (r_commitCh r) (r_proposals r) (r_done r) (r_applying r) (r_closed r) f.

(** [modify f]: an assignment to fields. *)
Definition modify {St} (f : St -> St) : M St unit := fun s => (Ok tt, f s).

Definition on_log {A} (m : M Log A) : M Raft A := fun r =>
  let '(x, l) := m (r_log r) in (x, set_log l r).

(** A call whose error the code does not look at. *)
Definition ignore {St A} (m : M St A) : M St unit := fun s =>
  match m s with
  | (Ok _, s) | (Err _, s) => (Ok tt, s)
  | (Panic, s) => (Panic, s)
  | (OutOfFuel, s) => (OutOfFuel, s)
  end.

(** A read of a map: zero for a missing key. *)
Definition map_get (m : gmap bytes Z) (k : bytes) : Z := default 0 (m !! k).

(** ** Persistence *)

Definition encode_state (term : Z) (vote : bytes) : bytes :=
  putLE 8 term ++ putLE 4 (u32 (len vote)) ++ vote.

(** The error of [os.WriteFile] is dropped. *)
Definition persistState (w : write_outcome) : M Raft unit := modify (fun r =>
  let buf := encode_state (r_currentTerm r) (r_votedFor r) in
  match w with
  | Written => set_stateFile (Some buf) r
  | WriteNoOpen => r
  | WriteShort n => set_stateFile (Some (take n buf)) r
  end).

(** [failed]: an error of [os.ReadFile] other than a missing file. *)
Definition loadState (failed : option error) : M Raft unit :=
  r ← get_st;
  match failed, r_stateFile r with
  | Some e, _ => throw e
  | None, None => mret tt
  | None, Some data =>
      if len data <? 12 then mret tt else
      term ← lift (uint_at data 0 8);
      modify (set_role (r_state r) term (r_votedFor r));;
      vfLen ← lift (uint_at data 8 12);
      if 12 + vfLen <=? len data then
        vf ← lift (slice data 12 (u32 (12 + vfLen)));
        modify (set_role (r_state r) term vf)
      else mret tt
  end.

Definition ctx {A} (c : string) (r : res A) : res A :=
  match r with Err e => Err (Wrap c e) | _ => r end.

(** The answers of the system calls are arguments: [os.MkdirAll], the opening
    of the log file, the listener's address, [os.ReadFile]. *)
Definition NewRaft (mkdir : res unit) (opened : res (list fault)) (listen : res bytes) (failed : option error)
    (nodeID : bytes) (peers : list bytes) (logFile : File) (stateFile : option bytes) : res Raft :=
  mkdir ≫= fun _ =>
  log ← ctx "raft: open log" (OpenLog opened logFile);
  addr ← ctx "raft: create transport" listen;
  let r := mkRaft 0 [] log Follower 0 0 [] ∅ ∅ nodeID peers addr [] false [] [] None false stateFile in
  match loadState failed r with
  | (Ok _, r) => Ok r
  | (x, _) => ctx "raft: load state" (x ≫= fun _ => Ok r)
  end.

(** ** Roles *)

Definition becomeFollowerLocked (w : write_outcome) (term : Z) (leaderID : bytes) : M Raft unit :=
  modify (set_role Follower term []);;
  modify (if bool_decide (leaderID = []) then fun r => r else set_leader leaderID);;
  persistState w.

Definition set_all (keys : list bytes) (v : Z) (m : gmap bytes Z) : gmap bytes Z :=
  fold_left (fun m k => <[k:=v]> m) keys m.

(** The heartbeats it spawns are a later transition. *)
Definition becomeLeaderLocked : M Raft unit :=
  modify (fun r => set_leader (r_addr r) (set_role Leader (r_currentTerm r) (r_votedFor r) r));;
  r ← get_st;
  lastIdx ← lift (Log_LastIndex (r_log r));
  modify (set_indexes (set_all (r_peers r) (u64 (lastIdx + 1)) ∅)
                      (<[r_addr r:=lastIdx]> (set_all (r_peers r) 0 ∅))).

(** ** Elections *)

(** The vote goroutine of a peer: waiting for its answer, granted the vote but
    not yet counted, counted as the one that wins.  Finished ones are
    removed. *)
Inductive vote_phase :=
| Asked
| Granted
| Won.

(** The variables of [startElection] its goroutines share. *)
Record Election := mkElection {
  el_args : RequestVoteArgs;
  el_votes : Z;
  el_majority : Z;
  el_phase : gmap bytes vote_phase
}.

Definition startElection (w : write_outcome) : M Raft Election :=
  modify (fun r => set_leader [] (set_role Candidate (u64 (r_currentTerm r + 1)) (r_nodeID r) r));;
  r ← get_st;
  lastLogIndex ← lift (Log_LastIndex (r_log r));
  lastLogTerm ← lift (Log_LastTerm (r_log r));
  persistState w;;
  let total := len (r_peers r) + 1 in
  mret (mkElection (mkVoteArgs (r_currentTerm r) (r_nodeID r) lastLogIndex lastLogTerm)
          1 (total / 2 + 1) (list_to_map ((fun p => (p, Asked)) <$> r_peers r))).

(** A goroutine's sections.  The first, under [r.mu], says whether to go on. *)
Definition vote_reply (w : write_outcome) (reply : RequestVoteReply) : M Raft bool :=
  r ← get_st;
  if r_currentTerm r <? vr_Term reply
  then becomeFollowerLocked w (vr_Term reply) [];; mret false
  else mret (vr_VoteGranted reply).

(** The second, under [voteMu]. *)
Definition count_vote (e : Election) : Election * bool :=
  let votes := el_votes e + 1 in
  (mkElection (el_args e) votes (el_majority e) (el_phase e), el_majority e <=? votes).

(** The third, of a goroutine that saw a majority. *)
Definition vote_won (args : RequestVoteArgs) : M Raft unit :=
  r ← get_st;
  if bool_decide (r_state r = Candidate) && (r_currentTerm r =? va_Term args)
  then becomeLeaderLocked
  else mret tt.

Definition set_phase (p : bytes) (ph : option vote_phase) (e : Election) : Election :=
  mkElection (el_args e) (el_votes e) (el_majority e) (partial_alter (fun _ => ph) p (el_phase e)).

(** ** Commitment *)

(** [select { case ch <- v: default: }] on a channel with room for one. *)
Definition offer (ch : nat) (v : option error) (done : list (option (option error))) : list (option (option error)) :=
  match done !! ch with Some None => <[ch:=Some v]> done | _ => done end.

Fixpoint resolve (commitIndex : Z) (ps : list proposal) (done : list (option (option error)))
    : list proposal * list (option (option error)) :=
  match ps with
  | [] => ([], done)
  | p :: ps =>
      if p_index p <=? commitIndex then resolve commitIndex ps (offer (p_done p) None done)
      else let '(remaining, done) := resolve commitIndex ps done in (p :: remaining, done)
  end.

Definition resolveProposalsLocked : M Raft unit := modify (fun r =>
  let '(ps, done) := resolve (r_commitIndex r) (r_proposals r) (r_done r) in set_proposals ps done r).

Definition replicas (n : Z) (r : Raft) : Z :=
  fold_left (fun count peer => if n <=? map_get (r_matchIndex r) peer then count + 1 else count) (r_peers r) 1.

(** The loop of [advanceCommitIndexLocked] from [n] down. *)
Fixpoint advance_from (fuel : nat) (n : Z) : M Raft unit :=
  r ← get_st;
  if n <=? r_commitIndex r then mret tt else
  match fuel with
  | O => lift OutOfFuel
  | S fuel =>
      entry ← lift (Log_GetEntry n (r_log r));
      match entry with
      | Some e =>
          if negb (Term e =? r_currentTerm r) then advance_from fuel (n - 1)
          else if (len (r_peers r) + 1) / 2 <? replicas n r then
            modify (set_commit n true);; resolveProposalsLocked
          else advance_from fuel (n - 1)
      | None => advance_from fuel (n - 1)
      end
  end.

Definition advanceCommitIndexLocked : M Raft unit :=
  r ← get_st;
  lastIdx ← lift (Log_LastIndex (r_log r));
  advance_from (Z.to_nat (lastIdx - r_commitIndex r)) lastIdx.

(** ** Replication *)

(** The peers [replicateTo] is started for. *)
Definition sendHeartbeats : M Raft (list bytes) :=
  r ← get_st; mret (if bool_decide (r_state r = Leader) then r_peers r else []).

(** [replicateTo] up to the remote call. *)
Definition replicateTo (peer : bytes) : M Raft (option AppendEntriesArgs) :=
  r ← get_st;
  if negb (bool_decide (r_state r = Leader)) then mret None else
  let nextIdx := map_get (r_nextIndex r) peer in
  '(prevLogIndex, prevLogTerm) ←
    (if 1 <? nextIdx then
       entry ← lift (Log_GetEntry (nextIdx - 1) (r_log r));
       mret (nextIdx - 1, match entry with Some e => Term e | None => 0 end)
     else mret (0, 0));
  entries ← lift (Log_GetEntriesFrom nextIdx (r_log r));
  mret (Some (mkAppendArgs (r_currentTerm r) (r_addr r) prevLogIndex prevLogTerm entries (r_commitIndex r))).

(** [replicateTo] from the reply to the request [args] on. *)
Definition append_reply (w : write_outcome) (peer : bytes) (args : AppendEntriesArgs) (reply : AppendEntriesReply) : M Raft unit :=
  r ← get_st;
  if r_currentTerm r <? ar_Term reply then becomeFollowerLocked w (ar_Term reply) [] else
  if negb (bool_decide (r_state r = Leader)) || negb (r_currentTerm r =? aa_Term args) then mret tt else
  if ar_Success reply then
    (if 0 <? len (aa_Entries args) then
       e ← lift (index (aa_Entries args) (len (aa_Entries args) - 1));
       modify (set_indexes (<[peer:=u64 (Index e + 1)]> (r_nextIndex r)) (<[peer:=Index e]> (r_matchIndex r)))
     else mret tt);;
    advanceCommitIndexLocked
  else if 1 <? map_get (r_nextIndex r) peer then
    modify (set_indexes (<[peer:=map_get (r_nextIndex r) peer - 1]> (r_nextIndex r)) (r_matchIndex r))
  else mret tt.

(** ** Proposals *)

(** [Propose] up to the wait; the result is the new proposal. *)
Definition Propose (cmdType : byte) (data : bytes) : M Raft proposal :=
  r ← get_st;
  if negb (bool_decide (r_state r = Leader)) then throw ErrNotLeader else
  lastIdx ← lift (Log_LastIndex (r_log r));
  let entry := mkLogEntry (r_currentTerm r) (u64 (lastIdx + 1)) cmdType data in
  on_log (Log_Append [entry]);;
  modify (fun r =>
    let p := mkProposal (Index entry) (length (r_done r)) in
    set_indexes (r_nextIndex r) (<[r_addr r:=Index entry]> (r_matchIndex r))
      (set_proposals (r_proposals r ++ [p]) (r_done r ++ [None]) r));;
  mret (mkProposal (Index entry) (length (r_done r))).

(** The three ways the final [select] of [Propose] can go. *)
Inductive wake := WakeDone | WakeTimeout | WakeClosed.

(** The outer [None]: that case is not ready. *)
Definition Propose_wait (by_ : wake) (p : proposal) (r : Raft) : option (option error) :=
  match by_ with
  | WakeDone => mjoin (r_done r !! p_done p)
  | WakeTimeout => Some (Some ErrProposalTimeout)
  | WakeClosed => if r_closed r then Some (Some ErrStopped) else None
  end.

(** ** Application *)

(** [applyCommitted] reads the two indices. *)
Definition apply_begin : M Raft unit := modify (fun r =>
  set_applying (Some (u64 (r_lastApplied r + 1), r_commitIndex r)) (set_commit (r_commitIndex r) false r)).

Definition applyRoom : Z := 256.

(** One round of its loop; [false] when the send would block. *)
Definition apply_one : M Raft bool :=
  r ← get_st;
  match r_applying r with
  | None => mret false
  | Some (idx, commitIndex) =>
      if commitIndex <? idx then modify (set_applying None);; mret true else
      entry ← lift (Log_GetEntry idx (r_log r));
      match entry with
      | None => modify (set_applying None);; mret true
      | Some e =>
          if len (r_applyCh r) <? applyRoom then
            modify (set_applied idx (r_applyCh r ++ [e]));;
            modify (set_applying (Some (u64 (idx + 1), commitIndex)));; mret true
          else if r_closed r then modify (set_applying None);; mret true
          else mret false
      end
  end.

(** ** RPC handlers *)

Definition handleRequestVote (io : RIO) (args : RequestVoteArgs) : M Raft RequestVoteReply :=
  r ← get_st;
  let reply := mkVoteReply (r_currentTerm r) false in
  if va_Term args <? r_currentTerm r then mret reply else
  (if r_currentTerm r <? va_Term args then becomeFollowerLocked (rio_write io 0) (va_Term args) [] else mret tt);;
  r ← get_st;
  let reply := mkVoteReply (r_currentTerm r) false in
  if negb (bool_decide (r_votedFor r = [])) && negb (bool_decide (r_votedFor r = va_CandidateID args)) then mret reply else
  lastTerm ← lift (Log_LastTerm (r_log r));
  lastIndex ← lift (Log_LastIndex (r_log r));
  if va_LastLogTerm args <? lastTerm then mret reply else
  if (va_LastLogTerm args =? lastTerm) && (va_LastLogIndex args <? lastIndex) then mret reply else
  modify (set_role (r_state r) (r_currentTerm r) (va_CandidateID args));;
  persistState (rio_write io 1);;
  mret (mkVoteReply (r_currentTerm r) true).

(** The loop over the new entries, on what is left of them; the errors of
    [TruncateFrom] and [Append] are dropped. *)
Fixpoint append_new (created : res (list fault)) (entries : list LogEntry) : M Raft unit :=
  match entries with
  | [] => mret tt
  | newEntry :: rest =>
      r ← get_st;
      existing ← lift (Log_GetEntry (Index newEntry) (r_log r));
      match existing with
      | Some e =>
          if negb (Term e =? Term newEntry) then
            ignore (on_log (Log_TruncateFrom created (Index newEntry)));;
            ignore (on_log (Log_Append entries))
          else append_new created rest
      | None => ignore (on_log (Log_Append entries))
      end
  end.

(** The check of the previous entry: [false] when the request is refused. *)
Definition check_prev (created : res (list fault)) (args : AppendEntriesArgs) : M Raft bool :=
  if 0 <? aa_PrevLogIndex args then
    r ← get_st;
    entry ← lift (Log_GetEntry (aa_PrevLogIndex args) (r_log r));
    match entry with
    | None => mret false
    | Some e =>
        if negb (Term e =? aa_PrevLogTerm args) then
          ignore (on_log (Log_TruncateFrom created (aa_PrevLogIndex args)));; mret false
        else mret true
    end
  else mret true.

Definition follow_commit (leaderCommit : Z) : M Raft unit :=
  r ← get_st;
  if r_commitIndex r <? leaderCommit then
    lastIdx ← lift (Log_LastIndex (r_log r));
    modify (set_commit (if leaderCommit <? lastIdx then leaderCommit else lastIdx) true)
  else mret tt.

Definition handleAppendEntries (io : RIO) (args : AppendEntriesArgs) : M Raft AppendEntriesReply :=
  r ← get_st;
  if aa_Term args <? r_currentTerm r then mret (mkAppendReply (r_currentTerm r) false) else
  (if (r_currentTerm r <? aa_Term args) || negb (bool_decide (r_state r = Follower))
   then becomeFollowerLocked (rio_write io 0) (aa_Term args) (aa_LeaderID args)
   else modify (set_leader (aa_LeaderID args)));;
  r ← get_st;
  prev ← check_prev (rio_create io) args;
  if negb prev then mret (mkAppendReply (r_currentTerm r) false) else
  append_new (rio_create io) (aa_Entries args);;
  follow_commit (aa_LeaderCommit args);;
  mret (mkAppendReply (r_currentTerm r) true).

(** ** Inspection and shutdown *)

Record RaftStatus := mkRaftStatus {
  rs_NodeID : bytes;
  rs_State : string;
  rs_Term : Z;
  rs_CommitIndex : Z;
  rs_LastApplied : Z;
  rs_LogLength : Z;
  rs_LeaderID : bytes;
  rs_Peers : list bytes
}.

Definition Raft_IsLeader (r : Raft) : bool := bool_decide (r_state r = Leader).
Definition Raft_LeaderAddr (r : Raft) : bytes := r_leaderID r.

Definition Raft_Status (r : Raft) : res RaftStatus :=
  lastIdx ← Log_LastIndex (r_log r);
  Ok (mkRaftStatus (r_nodeID r) (State_String (r_state r)) (r_currentTerm r) (r_commitIndex r) (r_lastApplied r)
        lastIdx (r_leaderID r) (r_peers r)).

(** Closing [closeCh] a second time panics.  The loops and the transport end;
    the error of the log's [Close] is dropped. *)
Definition Raft_Stop : M Raft unit :=
  r ← get_st;
  if r_closed r then lift Panic else
  modify (fun r => set_closed true
    (set_proposals [] (fold_left (fun done p => offer (p_done p) (Some ErrStopped) done) (r_proposals r) (r_done r)) r));;
  ignore (on_log Log_Close).

(** ** Running the monad *)

Lemma M_get_bind {St A} (k : St -> M St A) s : (x ← get_st; k x) s = k s s.
Proof. done. Qed.

Lemma M_modify_bind {St A} (f : St -> St) (k : unit -> M St A) s : (x ← modify f; k x) s = k tt (f s).
Proof. done. Qed.

Lemma M_lift_bind {St A B} (a : A) (k : A -> M St B) s : (x ← lift (Ok a); k x) s = k a s.
Proof. done. Qed.

Lemma M_ret_bind {St A B} (a : A) (k : A -> M St B) s : (x ← mret a; k x) s = k a s.
Proof. done. Qed.

Ltac mrun := repeat first
  [rewrite M_get_bind | rewrite M_modify_bind | rewrite M_lift_bind | rewrite M_ret_bind]; cbv beta.
