(* ===== verification/RaftSystem.v ===== *)
(** * A cluster of Raft nodes

    The nodes of raft/raft.go under arbitrary interleaving: every transition
    of a node, the goroutines of its elections, requests and replies that are
    delayed, reordered, repeated or lost, and process restarts.  A handler that
    panics leaves the state it reached and no reply; its node may be restarted.
    A restart keeps any part of the unsynced bytes of the log file, and the file
    of the term and the vote as it was last written: [persistState] never syncs
    it, so this is an assumption (a process that dies while the machine stays up,
    or a file system that writes it out in time), and RaftFaults shows that Raft's
    guarantees need it.  [Stop] is not a transition here: a stopped
    node takes no further step until it is restarted (one that still serves
    connections it had accepted does so with a closed log, like a node whose disk
    fails).

    What each transition does to the part of the state that decides elections
    (term, vote, role and their file) is summarised in the [_role] lemmas. *)

From S2P Require Import Prelude GoStd Protocol RaftLog Raft.

(** Requests from [src] to [dst], and replies from [src] to [dst] that carry
    the request they answer. *)
Inductive msg :=
| VoteReq (src dst : bytes) (args : RequestVoteArgs)
| VoteRep (src dst : bytes) (args : RequestVoteArgs) (reply : RequestVoteReply)
| AppReq (src dst : bytes) (args : AppendEntriesArgs)
| AppRep (src dst : bytes) (args : AppendEntriesArgs) (reply : AppendEntriesReply).

(** [c_elections]: the running elections by node and term; [c_msgs]: every
    message sent so far. *)
Record Cluster := mkCluster {
  c_nodes : gmap bytes Raft;
  c_elections : gmap (bytes * Z) Election;
  c_msgs : list msg
}.

(** What is sent when a transition ends with [x]. *)
Definition sent {A} (x : res A) (f : A -> list msg) : list msg :=
  match x with Ok a => f a | _ => [] end.

(** The goroutine of peer [p] goes on to phase [ph], or ends. *)
Definition next_phase (a : bytes) (T : Z) (p : bytes) (ph : option vote_phase) (els : gmap (bytes * Z) Election)
    : gmap (bytes * Z) Election :=
  alter (set_phase p ph) (a, T) els.

(** [allowed] bounds what the file systems answer. *)
Inductive step (allowed : RIO -> Prop) (c : Cluster) : Cluster -> Prop :=
| step_timeout a n io x n' :
    c_nodes c !! a = Some n -> allowed io -> r_currentTerm n + 1 < 2 ^ 64 ->
    startElection (rio_write io 0) n = (x, n') ->
    step allowed c (mkCluster (<[a:=n']> (c_nodes c))
      (match x with Ok e => <[(a, va_Term (el_args e)):=e]> (c_elections c) | _ => c_elections c end)
      (sent x (fun e => (fun p => VoteReq a p (el_args e)) <$> r_peers n) ++ c_msgs c))
| step_vote_request src a args n io x n' :
    VoteReq src a args ∈ c_msgs c -> c_nodes c !! a = Some n -> allowed io ->
    handleRequestVote io args n = (x, n') ->
    step allowed c (mkCluster (<[a:=n']> (c_nodes c)) (c_elections c)
      (sent x (fun reply => [VoteRep a src args reply]) ++ c_msgs c))
| step_vote_reply p a args reply e n io x n' :
    VoteRep p a args reply ∈ c_msgs c -> c_elections c !! (a, va_Term args) = Some e -> el_phase e !! p = Some Asked ->
    c_nodes c !! a = Some n -> allowed io -> vote_reply (rio_write io 0) reply n = (x, n') ->
    step allowed c (mkCluster (<[a:=n']> (c_nodes c))
      (next_phase a (va_Term args) p (match x with Ok true => Some Granted | _ => None end) (c_elections c)) (c_msgs c))
| step_vote_count a T p e :
    c_elections c !! (a, T) = Some e -> el_phase e !! p = Some Granted ->
    step allowed c (mkCluster (c_nodes c)
      (let '(e', won) := count_vote e in
       <[(a, T):=set_phase p (if won then Some Won else None) e']> (c_elections c)) (c_msgs c))
| step_vote_won a T p e n x n' :
    c_elections c !! (a, T) = Some e -> el_phase e !! p = Some Won -> c_nodes c !! a = Some n ->
    vote_won (el_args e) n = (x, n') ->
    step allowed c (mkCluster (<[a:=n']> (c_nodes c)) (next_phase a T p None (c_elections c)) (c_msgs c))
| step_replicate a p n x n' :
    c_nodes c !! a = Some n -> p ∈ r_peers n -> replicateTo p n = (x, n') ->
    step allowed c (mkCluster (<[a:=n']> (c_nodes c)) (c_elections c)
      (sent x (fun o => match o with Some args => [AppReq a p args] | None => [] end) ++ c_msgs c))
| step_append_request src a args n io x n' :
    AppReq src a args ∈ c_msgs c -> c_nodes c !! a = Some n -> allowed io ->
    handleAppendEntries io args n = (x, n') ->
    step allowed c (mkCluster (<[a:=n']> (c_nodes c)) (c_elections c)
      (sent x (fun reply => [AppRep a src args reply]) ++ c_msgs c))
| step_append_reply p a args reply n io x n' :
    AppRep p a args reply ∈ c_msgs c -> c_nodes c !! a = Some n -> allowed io ->
    append_reply (rio_write io 0) p args reply n = (x, n') ->
    step allowed c (mkCluster (<[a:=n']> (c_nodes c)) (c_elections c) (c_msgs c))
| step_propose a cmd data n x n' :
    c_nodes c !! a = Some n -> len (rl_entries (r_log n)) + 2 < 2 ^ 64 -> len data < 2 ^ 32 ->
    Propose cmd data n = (x, n') ->
    step allowed c (mkCluster (<[a:=n']> (c_nodes c)) (c_elections c) (c_msgs c))
| step_apply_begin a n x n' :
    c_nodes c !! a = Some n -> r_applying n = None -> r_commitCh n = true -> apply_begin n = (x, n') ->
    step allowed c (mkCluster (<[a:=n']> (c_nodes c)) (c_elections c) (c_msgs c))
| step_apply_one a n x n' :
    c_nodes c !! a = Some n -> apply_one n = (x, n') ->
    step allowed c (mkCluster (<[a:=n']> (c_nodes c)) (c_elections c) (c_msgs c))
| step_consume a n e ch :
    c_nodes c !! a = Some n -> r_applyCh n = e :: ch ->
    step allowed c (mkCluster (<[a:=set_applied (r_lastApplied n) ch n]> (c_nodes c)) (c_elections c) (c_msgs c))
| step_restart a n io k n' :
    c_nodes c !! a = Some n -> allowed io ->
    NewRaft (Ok tt) (rio_open io) (Ok (r_addr n)) None (r_nodeID n) (r_peers n) (crash k (rl_file (r_log n))) (r_stateFile n) = Ok n' ->
    step allowed c (mkCluster (<[a:=n']> (c_nodes c)) (filter (fun kv => kv.1.1 <> a) (c_elections c)) (c_msgs c)).

(** ** Start *)

(** Node [a] of a cluster of the addresses [addrs] with an empty directory, as
    [StartWithNodes] configures it: its peers are the other addresses. *)
Definition fresh_node (addrs : list bytes) (id : bytes -> bytes) (a : bytes) : Raft :=
  mkRaft 0 [] (mkLog [] (mkFile [] 0 [] false)) Follower 0 0 [] ∅ ∅ (id a) (filter (fun p => p <> a) addrs) a
    [] false [] [] None false None.

Definition boot (addrs : list bytes) (id : bytes -> bytes) : Cluster :=
  mkCluster (list_to_map ((fun a => (a, fresh_node addrs id a)) <$> addrs)) ∅ [].

(** The states a cluster passed through, the latest first. *)
Inductive trace (allowed : RIO -> Prop) (c0 : Cluster) : list Cluster -> Prop :=
| trace_start : trace allowed c0 [c0]
| trace_step c c' tr : trace allowed c0 (c :: tr) -> step allowed c c' -> trace allowed c0 (c' :: c :: tr).

(** Every [os.WriteFile] succeeds. *)
Definition writes_ok (io : RIO) : Prop := forall i, rio_write io i = Written.

(** Case analysis on the test a run starts with. *)
Tactic Notation "head_if" "as" ident(H) :=
  match goal with |- (if ?b then _ else _) _ = _ -> _ => destruct b eqn:H end.
Tactic Notation "head_if" := let H := fresh "Hif" in head_if as H.

(** ** What transitions do to roles *)

Definition same_ids (n n' : Raft) : Prop :=
  r_nodeID n' = r_nodeID n /\ r_peers n' = r_peers n /\ r_addr n' = r_addr n.

Definition same_role (n n' : Raft) : Prop :=
  same_ids n n' /\ r_currentTerm n' = r_currentTerm n /\ r_votedFor n' = r_votedFor n /\ r_state n' = r_state n /\
  r_stateFile n' = r_stateFile n.

(** [n'] has this role, and it is in the state file. *)
Definition role_is (st : State) (term : Z) (vote : bytes) (n n' : Raft) : Prop :=
  same_ids n n' /\ r_currentTerm n' = term /\ r_votedFor n' = vote /\ r_state n' = st /\
  r_stateFile n' = Some (encode_state term vote).

#[global] Instance same_role_refl : Reflexive same_role.
Proof. by intros n. Qed.

#[global] Instance same_role_trans : Transitive same_role.
Proof. intros n1 n2 n3 ((?&?&?)&?&?&?&?) ((?&?&?)&?&?&?&?). repeat split; congruence. Qed.

(** A transition after which [R] holds, however it ends. *)
Definition keeps (R : Raft -> Raft -> Prop) {A} (m : M Raft A) : Prop := forall n x n', m n = (x, n') -> R n n'.

Section keeps.
Context (R : Raft -> Raft -> Prop) `{!Reflexive R, !Transitive R}.

Lemma keeps_lift {A} (r : res A) : keeps R (lift r).
Proof using All. by intros n x n' [= _ <-]. Qed.

Lemma keeps_ret {A} (a : A) : keeps R (mret a).
Proof using All. by intros n x n' [= _ <-]. Qed.

Lemma keeps_get : keeps R get_st.
Proof using All. by intros n x n' [= _ <-]. Qed.

Lemma keeps_throw {A} e : keeps R (throw e : M Raft A).
Proof using All. by intros n x n' [= _ <-]. Qed.

Lemma keeps_bind {A B} (m : M Raft A) (k : A -> M Raft B) : keeps R m -> (forall a, keeps R (k a)) -> keeps R (m ≫= k).
Proof using All.
  intros Hm Hk n x n'. unfold mbind, M_bind. destruct (m n) as [r n1] eqn:E. apply Hm in E.
  destruct r as [a|e| |]; try (intros [= _ <-]; done). intros H%Hk. by etrans.
Qed.

Lemma keeps_modify f : (forall n, R n (f n)) -> keeps R (modify f).
Proof using All. intros Hf n x n' [= _ <-]. apply Hf. Qed.

Lemma keeps_ignore {A} (m : M Raft A) : keeps R m -> keeps R (ignore m).
Proof using All.
  intros Hm n x n'. unfold ignore. destruct (m n) as [r n1] eqn:E. apply Hm in E. destruct r; by intros [= _ <-].
Qed.
End keeps.

Create HintDb quiet discriminated.
#[export] Hint Resolve keeps_ret keeps_lift keeps_get keeps_throw keeps_ignore : quiet.
#[export] Hint Extern 1 (keeps _ (_ ≫= _)) => (apply (keeps_bind _); [|intros ?]) : quiet.
#[export] Hint Extern 2 (keeps _ (modify _)) => (apply (keeps_modify _); intros ?; repeat case_match; by repeat split) : quiet.
#[export] Hint Extern 3 (keeps _ (match ?x with _ => _ end)) => destruct x : quiet.
#[export] Hint Extern 5 (Reflexive _) => apply _ : quiet.
#[export] Hint Extern 5 (Transitive _) => apply _ : quiet.

Ltac quiet := eauto 30 with quiet nocore.

(** A transition that does not touch the role. *)
Abbreviation quiet m := (keeps same_role m).

Lemma quiet_on_log {A} (m : M Log A) : quiet (on_log m).
Proof. intros n x n'. unfold on_log. destruct (m (r_log n)) as [r l]. by intros [= _ <-]. Qed.
#[export] Hint Resolve quiet_on_log : quiet.

Lemma quiet_resolve : quiet resolveProposalsLocked.
Proof. apply (keeps_modify _). intros n. destruct (resolve _ _ _). by repeat split. Qed.
#[export] Hint Resolve quiet_resolve : quiet.

Lemma quiet_advance_from fuel n : quiet (advance_from fuel n).
Proof. revert n. induction fuel as [|fuel IH]; intros n; cbn [advance_from]; quiet. Qed.
#[export] Hint Resolve quiet_advance_from : quiet.

Lemma quiet_advance : quiet advanceCommitIndexLocked.
Proof. unfold advanceCommitIndexLocked. quiet. Qed.
#[export] Hint Resolve quiet_advance : quiet.

Lemma quiet_replicateTo p : quiet (replicateTo p).
Proof. unfold replicateTo. quiet. Qed.

Lemma quiet_Propose cmd data : quiet (Propose cmd data).
Proof. unfold Propose. quiet. Qed.

Lemma quiet_apply_begin : quiet apply_begin.
Proof. unfold apply_begin. quiet. Qed.

Lemma quiet_apply_one : quiet apply_one.
Proof. unfold apply_one. quiet. Qed.

Lemma quiet_append_new created es : quiet (append_new created es).
Proof. induction es as [|e es IH]; cbn [append_new]; quiet. Qed.

Lemma quiet_check_prev created args : quiet (check_prev created args).
Proof. unfold check_prev. quiet. Qed.

Lemma quiet_follow_commit ci : quiet (follow_commit ci).
Proof. unfold follow_commit. quiet. Qed.
#[export] Hint Resolve quiet_append_new quiet_check_prev quiet_follow_commit : quiet.

(** ** Transitions that change roles *)

Lemma role_is_quiet st term vote n n1 n2 : role_is st term vote n n1 -> same_role n1 n2 -> role_is st term vote n n2.
Proof. intros ((?&?&?)&?&?&?&?) ((?&?&?)&?&?&?&?). repeat split; congruence. Qed.

Lemma becomeFollower_role term id n :
  exists n', becomeFollowerLocked Written term id n = (Ok tt, n') /\ role_is Follower term [] n n'.
Proof. eexists. split; [done|]. destruct (bool_decide (id = [])); by repeat split. Qed.

Lemma becomeLeader_role n :
  exists n', becomeLeaderLocked n = (Ok tt, n') /\ same_ids n n' /\ r_currentTerm n' = r_currentTerm n /\
    r_votedFor n' = r_votedFor n /\ r_state n' = Leader /\ r_stateFile n' = r_stateFile n.
Proof.
  unfold becomeLeaderLocked. mrun. rewrite LastIndex_ok. mrun. eexists. split; [done|]. by repeat split.
Qed.

Lemma startElection_role n :
  exists e n', startElection Written n = (Ok e, n') /\
    role_is Candidate (u64 (r_currentTerm n + 1)) (r_nodeID n) n n' /\
    va_Term (el_args e) = u64 (r_currentTerm n + 1) /\ va_CandidateID (el_args e) = r_nodeID n /\
    el_votes e = 1 /\ el_majority e = (len (r_peers n) + 1) / 2 + 1 /\
    el_phase e = list_to_map ((fun p => (p, Asked)) <$> r_peers n).
Proof.
  unfold startElection. mrun. rewrite LastIndex_ok, LastTerm_ok. mrun. do 2 eexists. by repeat split.
Qed.

Lemma vote_reply_role reply n x n' :
  vote_reply Written reply n = (x, n') ->
  (same_role n n' /\ x = Ok (vr_VoteGranted reply)) \/
  (role_is Follower (vr_Term reply) [] n n' /\ r_currentTerm n < vr_Term reply /\ x = Ok false).
Proof.
  unfold vote_reply. mrun. destruct (Z.ltb_spec (r_currentTerm n) (vr_Term reply)) as [Hlt|Hge].
  - destruct (becomeFollower_role (vr_Term reply) [] n) as (n1 & E & Hr).
    rewrite (M_bind_run _ _ _ _ _ E). intros [= <- <-]. by right.
  - intros [= <- <-]. by left.
Qed.

Lemma vote_won_role args n x n' :
  vote_won args n = (x, n') ->
  same_role n n' \/
  (same_ids n n' /\ r_currentTerm n = va_Term args /\ r_state n = Candidate /\ r_state n' = Leader /\
   r_currentTerm n' = r_currentTerm n /\ r_votedFor n' = r_votedFor n /\ r_stateFile n' = r_stateFile n).
Proof.
  unfold vote_won. mrun. case_bool_decide as Hs; [|intros [= _ <-]; by left].
  destruct (Z.eqb_spec (r_currentTerm n) (va_Term args)) as [Ht|]; [|intros [= _ <-]; by left].
  destruct (becomeLeader_role n) as (n1 & E & Hid & Ht' & Hv & Hl & Hf). simpl. rewrite E. intros [= _ <-]. right. done.
Qed.

Lemma append_reply_role p args reply n x n' :
  append_reply Written p args reply n = (x, n') ->
  same_role n n' \/ (role_is Follower (ar_Term reply) [] n n' /\ r_currentTerm n < ar_Term reply).
Proof.
  unfold append_reply. mrun. destruct (Z.ltb_spec (r_currentTerm n) (ar_Term reply)) as [Hlt|Hge].
  - destruct (becomeFollower_role (ar_Term reply) [] n) as (n1 & -> & Hr). intros [= _ <-]. by right.
  - intros E. left. match type of E with ?m n = _ => assert (quiet m) as Hq by quiet end. by apply Hq in E.
Qed.

Lemma handleAppendEntries_role io args n x n' :
  writes_ok io -> handleAppendEntries io args n = (x, n') ->
  same_role n n' \/
  (role_is Follower (aa_Term args) [] n n' /\
   (r_currentTerm n < aa_Term args \/ r_currentTerm n = aa_Term args /\ r_state n <> Follower)).
Proof.
  intros Hio. unfold handleAppendEntries. mrun. rewrite Hio.
  destruct (Z.ltb_spec (aa_Term args) (r_currentTerm n)) as [|Hge]; [intros [= _ <-]; by left|].
  match goal with |- ((if ?b then _ else _) ≫= ?k) n = _ -> _ =>
    assert (forall a, quiet (k a)) as Hk by quiet; generalize dependent k end.
  intros k Hk E.
  destruct (Z.ltb_spec (r_currentTerm n) (aa_Term args)) as [Hlt|Hle]; [|case_bool_decide as Hs]; cbn [orb negb] in E.
  2: { left. assert (quiet (modify (set_leader (aa_LeaderID args)) ≫= k)) as Hq by quiet. by apply Hq in E. }
  all: destruct (becomeFollower_role (aa_Term args) (aa_LeaderID args) n) as (n1 & E1 & Hr); rewrite (M_bind_run _ _ _ _ _ E1) in E; apply Hk in E; right;
    split; [by eapply role_is_quiet| ]; first [by left|right; split; [lia|done]].
Qed.

Definition ungranted (x : res RequestVoteReply) : Prop :=
  forall reply, x = Ok reply -> vr_VoteGranted reply = false.

Lemma handleRequestVote_role io args n x n' :
  writes_ok io -> handleRequestVote io args n = (x, n') ->
  (ungranted x /\ (same_role n n' \/ role_is Follower (va_Term args) [] n n' /\ r_currentTerm n < va_Term args)) \/
  (x = Ok (mkVoteReply (va_Term args) true) /\ exists st, role_is st (va_Term args) (va_CandidateID args) n n' /\
     (r_currentTerm n < va_Term args /\ st = Follower \/
      r_currentTerm n = va_Term args /\ st = r_state n /\ (r_votedFor n = [] \/ r_votedFor n = va_CandidateID args))).
Proof.
  intros Hio. unfold handleRequestVote. mrun. rewrite !Hio.
  destruct (Z.ltb_spec (va_Term args) (r_currentTerm n)) as [|Hge].
  { intros [= <- <-]. left. split; [by intros ? [= <-]|by left]. }
  assert (exists n1, (if r_currentTerm n <? va_Term args then becomeFollowerLocked Written (va_Term args) [] else mret tt) n = (Ok tt, n1) /\
    (r_currentTerm n < va_Term args /\ role_is Follower (va_Term args) [] n n1 \/ r_currentTerm n = va_Term args /\ n1 = n)) as (n1 & E1 & H1).
  { destruct (Z.ltb_spec (r_currentTerm n) (va_Term args)).
    - destruct (becomeFollower_role (va_Term args) [] n) as (n1 & E1 & Hr). eauto.
    - exists n. split; [done|]. right. split; [lia|done]. }
  rewrite (M_bind_run _ _ _ _ _ E1). mrun.
  assert (forall r, vr_VoteGranted r = false -> (mret r : M Raft _) n1 = (x, n') ->
    ungranted x /\ (same_role n n' \/ role_is Follower (va_Term args) [] n n' /\ r_currentTerm n < va_Term args)) as Hno.
  { intros r Hr [= <- <-]. split; [by intros ? [= <-]|]. destruct H1 as [[]|[_ ->]]; [by right|by left]. }
  assert (r_currentTerm n1 = va_Term args) as Ht by (destruct H1 as [(_ & _ & H & _)|[H ->]]; done).
  clear E1. head_if as Ev; [intros E; left; exact (Hno (mkVoteReply (r_currentTerm n1) false) eq_refl E)|].
  rewrite LastTerm_ok, LastIndex_ok. mrun.
  head_if; [intros E; left; exact (Hno (mkVoteReply (r_currentTerm n1) false) eq_refl E)|].
  head_if; [intros E; left; exact (Hno (mkVoteReply (r_currentTerm n1) false) eq_refl E)|].
  mrun. intros [= <- <-]. right. rewrite Ht. split; [done|].
  destruct H1 as [[Hlt Hr]|[Heq ->]].
  - exists Follower. destruct Hr as ((?&?&?)&?&?&?&?). split; [repeat split; simpl; congruence|by left].
  - exists (r_state n). split; [by repeat split; simpl; rewrite ?Ht|]. right. split_and!; [done..|].
    apply andb_false_iff in Ev as [Ev|Ev]; apply negb_false_iff, bool_decide_eq_true in Ev; auto.
Qed.

(** ** What replies and requests say *)

Lemma handleRequestVote_term io args n reply n' :
  handleRequestVote io args n = (Ok reply, n') -> vr_Term reply = r_currentTerm n'.
Proof.
  unfold handleRequestVote. mrun. head_if; [by intros [= <- <-]|]. intros E. minv E. revert E. mrun.
  head_if; [by intros [= <- <-]|]. rewrite LastTerm_ok, LastIndex_ok. mrun.
  head_if; [by intros [= <- <-]|]. head_if; [by intros [= <- <-]|].
  mrun. unfold persistState. mrun. intros [= <- <-]. by destruct (rio_write io 1).
Qed.

Lemma handleAppendEntries_term io args n reply n' :
  handleAppendEntries io args n = (Ok reply, n') -> ar_Term reply = r_currentTerm n'.
Proof.
  unfold handleAppendEntries. mrun. head_if; [by intros [= <- <-]|]. intros E. minv E. revert E. mrun.
  intros E. minv E. apply quiet_check_prev in E1 as (_ & Ht1 & _).
  destruct a0; [|by injection E as <- <-]. cbn [negb] in E.
  minv E. apply quiet_append_new in E1 as (_ & Ht2 & _). minv E. apply quiet_follow_commit in E1 as (_ & Ht3 & _).
  injection E as <- <-. cbn. congruence.
Qed.

Lemma handleAppendEntries_follows io args n x n' :
  writes_ok io -> r_currentTerm n <= aa_Term args -> handleAppendEntries io args n = (x, n') ->
  r_state n' = Follower /\ r_currentTerm n' = aa_Term args.
Proof.
  intros Hio Hle. unfold handleAppendEntries. mrun. rewrite Hio, (proj2 (Z.ltb_ge _ _)) by done.
  match goal with |- ((if ?b then _ else _) ≫= ?k) n = _ -> _ =>
    assert (forall a, quiet (k a)) as Hk by quiet; generalize dependent k end.
  intros k Hk. unfold mbind, M_bind.
  destruct (Z.ltb_spec (r_currentTerm n) (aa_Term args)); [|case_bool_decide as Hs]; cbn [orb negb].
  2: { intros (_ & Ht & _ & Hst & _)%Hk. cbn in Ht, Hst. split; [congruence|lia]. }
  all: destruct (becomeFollower_role (aa_Term args) (aa_LeaderID args) n) as (n1 & -> & Hr);
    intros (_ & Ht & _ & Hst & _)%Hk; destruct Hr as (_ & ? & _ & ? & _); split; congruence.
Qed.

Lemma replicateTo_leader p n args n' :
  replicateTo p n = (Ok (Some args), n') -> r_state n = Leader /\ r_currentTerm n = aa_Term args.
Proof.
  unfold replicateTo. mrun. case_bool_decide; [|done]. cbn [negb]. intros E. minv E. destruct a as [prev pt]. minv E.
  by injection E as <- _.
Qed.

(** ** Restarts *)

(** The file holds the term and the vote; no file is the initial state. *)
Definition persisted (n : Raft) : Prop :=
  r_stateFile n = Some (encode_state (r_currentTerm n) (r_votedFor n)) \/
  r_stateFile n = None /\ r_currentTerm n = 0 /\ r_votedFor n = [].

Definition role_fits (n : Raft) : Prop := 0 <= r_currentTerm n < 2 ^ 64 /\ len (r_votedFor n) + 12 < 2 ^ 32.

(** The file holds the term, the length of a vote and [q], some bytes of it. *)
Lemma loadState_bytes n term vote q :
  r_stateFile n = Some (putLE 8 term ++ putLE 4 (u32 (len vote)) ++ q) -> q `prefix_of` vote ->
  0 <= term < 2 ^ 64 -> len vote + 12 < 2 ^ 32 ->
  loadState None n = (Ok tt, set_role (r_state n) term (if len vote <=? len q then vote else r_votedFor n) n).
Proof.
  intros Hf Hq Ht Hv. pose proof (len_nonneg vote). pose proof (len_nonneg q). unfold loadState. mrun. rewrite Hf.
  rewrite (u32_small (len vote)) by lia. rewrite (proj2 (Z.ltb_ge _ _)) by len_lia.
  rewrite (M_bind_run (lift _) _ n term n). 2: { unfold lift. f_equal. unfold uint_at. slice_bind. by rewrite getLE_putLE64. }
  mrun. set (n1 := set_role (r_state n) term (r_votedFor n) n).
  rewrite (M_bind_run (lift _) _ n1 (len vote) n1).
  2: { unfold lift. f_equal. unfold uint_at. slice_bind. rewrite getLE_putLE32 by lia. done. }
  destruct (Z.leb_spec (len vote) (len q)).
  - assert (q = vote) as ->.
    { destruct Hq as [k Hk]. rewrite Hk, len_app in *. pose proof (len_nonneg k). rewrite (len_0_nil k) by lia. by rewrite app_nil_r. }
    rewrite (proj2 (Z.leb_le _ _)) by len_lia.
    rewrite (M_bind_run (lift _) _ n1 vote n1); [done|]. unfold lift. f_equal. rewrite u32_small by lia. slice_solve.
  - by rewrite (proj2 (Z.leb_gt _ _)) by len_lia.
Qed.

Lemma loadState_encoded n term vote :
  r_stateFile n = Some (encode_state term vote) -> 0 <= term < 2 ^ 64 -> len vote + 12 < 2 ^ 32 ->
  loadState None n = (Ok tt, set_role (r_state n) term vote n).
Proof. intros Hf Ht Hv. rewrite (loadState_bytes _ _ _ _ Hf) by done. by rewrite Z.leb_refl. Qed.

Lemma NewRaft_role opened n file n' :
  persisted n -> role_fits n ->
  NewRaft (Ok tt) opened (Ok (r_addr n)) None (r_nodeID n) (r_peers n) file (r_stateFile n) = Ok n' ->
  same_ids n n' /\ r_currentTerm n' = r_currentTerm n /\ r_votedFor n' = r_votedFor n /\ r_state n' = Follower /\
  r_stateFile n' = r_stateFile n /\ OpenLog opened file = Ok (r_log n').
Proof.
  intros Hp [Ht Hv]. unfold NewRaft. rstep. destruct (OpenLog opened file) as [l| | |]; try done. cbn [ctx]. rstep.
  destruct Hp as [Hp|(Hp & Ht0 & Hv0)].
  - erewrite loadState_encoded; [|by cbn; rewrite Hp|done|done]. intros [= <-]. by repeat split.
  - rewrite Hp. cbn. intros [= <-]. cbn. by repeat split; rewrite ?Ht0, ?Hv0, ?Hp.
Qed.

(** ** Scheduled runs *)

(** A scheduler's choices; messages are named by their position in [c_msgs]. *)
Inductive event :=
| EvTimeout (a : bytes) (io : RIO)
| EvDeliver (i : nat) (io : RIO)
| EvCount (a : bytes) (T : Z) (p : bytes)
| EvWon (a : bytes) (T : Z) (p : bytes)
| EvReplicate (a p : bytes)
| EvPropose (a : bytes) (cmd : byte) (data : bytes)
| EvApplyBegin (a : bytes)
| EvApplyOne (a : bytes)
| EvConsume (a : bytes)
| EvRestart (a : bytes) (io : RIO) (k : nat).

Definition event_io (ev : event) : RIO :=
  match ev with EvTimeout _ io | EvDeliver _ io | EvRestart _ io _ => io | _ => rio_ok end.

Definition deliver (m : msg) (io : RIO) (c : Cluster) : option Cluster :=
  match m with
  | VoteReq src a args =>
      n ← c_nodes c !! a;
      let '(x, n') := handleRequestVote io args n in
      Some (mkCluster (<[a:=n']> (c_nodes c)) (c_elections c) (sent x (fun reply => [VoteRep a src args reply]) ++ c_msgs c))
  | VoteRep p a args reply =>
      e ← c_elections c !! (a, va_Term args);
      ph ← el_phase e !! p;
      n ← c_nodes c !! a;
      match ph with
      | Asked =>
          let '(x, n') := vote_reply (rio_write io 0) reply n in
          Some (mkCluster (<[a:=n']> (c_nodes c))
            (next_phase a (va_Term args) p (match x with Ok true => Some Granted | _ => None end) (c_elections c)) (c_msgs c))
      | _ => None
      end
  | AppReq src a args =>
      n ← c_nodes c !! a;
      let '(x, n') := handleAppendEntries io args n in
      Some (mkCluster (<[a:=n']> (c_nodes c)) (c_elections c) (sent x (fun reply => [AppRep a src args reply]) ++ c_msgs c))
  | AppRep p a args reply =>
      n ← c_nodes c !! a;
      let '(x, n') := append_reply (rio_write io 0) p args reply n in
      Some (mkCluster (<[a:=n']> (c_nodes c)) (c_elections c) (c_msgs c))
  end.

(** A transition of node [a] alone. *)
Definition local {A} (a : bytes) (m : M Raft A) (c : Cluster) : option Cluster :=
  n ← c_nodes c !! a; Some (mkCluster (<[a:=snd (m n)]> (c_nodes c)) (c_elections c) (c_msgs c)).

Definition exec (ev : event) (c : Cluster) : option Cluster :=
  match ev with
  | EvTimeout a io =>
      n ← c_nodes c !! a;
      if r_currentTerm n + 1 <? 2 ^ 64 then
        let '(x, n') := startElection (rio_write io 0) n in
        Some (mkCluster (<[a:=n']> (c_nodes c))
          (match x with Ok e => <[(a, va_Term (el_args e)):=e]> (c_elections c) | _ => c_elections c end)
          (sent x (fun e => (fun p => VoteReq a p (el_args e)) <$> r_peers n) ++ c_msgs c))
      else None
  | EvDeliver i io => m ← c_msgs c !! i; deliver m io c
  | EvCount a T p =>
      e ← c_elections c !! (a, T);
      ph ← el_phase e !! p;
      match ph with
      | Granted =>
          Some (mkCluster (c_nodes c)
            (let '(e', won) := count_vote e in
             <[(a, T):=set_phase p (if won then Some Won else None) e']> (c_elections c)) (c_msgs c))
      | _ => None
      end
  | EvWon a T p =>
      e ← c_elections c !! (a, T);
      ph ← el_phase e !! p;
      n ← c_nodes c !! a;
      match ph with
      | Won => Some (mkCluster (<[a:=snd (vote_won (el_args e) n)]> (c_nodes c)) (next_phase a T p None (c_elections c)) (c_msgs c))
      | _ => None
      end
  | EvReplicate a p =>
      n ← c_nodes c !! a;
      if bool_decide (p ∈ r_peers n) then
        let '(x, n') := replicateTo p n in
        Some (mkCluster (<[a:=n']> (c_nodes c)) (c_elections c)
          (sent x (fun o => match o with Some args => [AppReq a p args] | None => [] end) ++ c_msgs c))
      else None
  | EvPropose a cmd data =>
      n ← c_nodes c !! a;
      if (len (rl_entries (r_log n)) + 2 <? 2 ^ 64) && (len data <? 2 ^ 32) then local a (Propose cmd data) c else None
  | EvApplyBegin a =>
      n ← c_nodes c !! a;
      match r_applying n, r_commitCh n with None, true => local a apply_begin c | _, _ => None end
  | EvApplyOne a => local a apply_one c
  | EvConsume a =>
      n ← c_nodes c !! a;
      match r_applyCh n with
      | [] => None
      | _ :: ch => Some (mkCluster (<[a:=set_applied (r_lastApplied n) ch n]> (c_nodes c)) (c_elections c) (c_msgs c))
      end
  | EvRestart a io k =>
      n ← c_nodes c !! a;
      match NewRaft (Ok tt) (rio_open io) (Ok (r_addr n)) None (r_nodeID n) (r_peers n) (crash k (rl_file (r_log n))) (r_stateFile n) with
      | Ok n' => Some (mkCluster (<[a:=n']> (c_nodes c)) (filter (fun kv => kv.1.1 <> a) (c_elections c)) (c_msgs c))
      | _ => None
      end
  end.

Lemma deliver_step allowed m io c c' :
  allowed io -> m ∈ c_msgs c -> deliver m io c = Some c' -> step allowed c c'.
Proof.
  intros Hio Hm. destruct m as [src a args|p a args reply|src a args|p a args reply]; cbn [deliver].
  - intros (n & Hn & H)%bind_Some. destruct (handleRequestVote io args n) as [x n'] eqn:E. injection H as <-.
    by eapply step_vote_request.
  - intros (e & He & (ph & Hph & (n & Hn & H)%bind_Some)%bind_Some)%bind_Some. destruct ph; try done.
    destruct (vote_reply _ reply n) as [x n'] eqn:E. injection H as <-. by eapply step_vote_reply.
  - intros (n & Hn & H)%bind_Some. destruct (handleAppendEntries io args n) as [x n'] eqn:E. injection H as <-.
    by eapply step_append_request.
  - intros (n & Hn & H)%bind_Some. destruct (append_reply _ p args reply n) as [x n'] eqn:E. injection H as <-.
    by eapply step_append_reply.
Qed.

Lemma exec_step allowed ev c c' : allowed (event_io ev) -> exec ev c = Some c' -> step allowed c c'.
Proof.
  intros Hio. destruct ev as [a io|i io|a T p|a T p|a p|a cmd data|a|a|a|a io k]; cbn [exec event_io] in *; unfold local.
  - intros (n & Hn & H)%bind_Some. destruct (Z.ltb_spec (r_currentTerm n + 1) (2 ^ 64)); [|done].
    destruct (startElection _ n) as [x n'] eqn:E. injection H as <-. by eapply step_timeout.
  - intros (m & Hm%list_elem_of_lookup_2 & H)%bind_Some. by eapply deliver_step.
  - intros (e & He & (ph & Hph & H)%bind_Some)%bind_Some. destruct ph; try done. injection H as <-. by eapply step_vote_count.
  - intros (e & He & (ph & Hph & (n & Hn & H)%bind_Some)%bind_Some)%bind_Some. destruct ph; try done. injection H as <-.
    eapply step_vote_won; [done..|]. apply surjective_pairing.
  - intros (n & Hn & H)%bind_Some. case_bool_decide; [|done]. destruct (replicateTo p n) as [x n'] eqn:E. injection H as <-.
    by eapply step_replicate.
  - intros (n & Hn & H)%bind_Some. destruct (Z.ltb_spec (len (rl_entries (r_log n)) + 2) (2 ^ 64)); [|done].
    destruct (Z.ltb_spec (len data) (2 ^ 32)); [|done]. cbn in H. rewrite Hn in H. injection H as <-.
    eapply step_propose; [done..|]. apply surjective_pairing.
  - intros (n & Hn & H)%bind_Some. destruct (r_applying n) eqn:Ea; [done|]. destruct (r_commitCh n) eqn:Ec; [|done].
    rewrite Hn in H. injection H as <-. eapply step_apply_begin; [done..|]. apply surjective_pairing.
  - intros (n & Hn & H)%bind_Some. injection H as <-. eapply step_apply_one; [done|]. apply surjective_pairing.
  - intros (n & Hn & H)%bind_Some. destruct (r_applyCh n) eqn:Ea; [done|]. injection H as <-. by eapply step_consume.
  - intros (n & Hn & H)%bind_Some. destruct (NewRaft _ _ _ _ _ _ _ _) eqn:E; try done. injection H as <-. by eapply step_restart.
Qed.

(** The states of a scheduled run, the latest first. *)
Fixpoint run (evs : list event) (tr : list Cluster) : option (list Cluster) :=
  match evs, tr with
  | [], _ => Some tr
  | ev :: evs, c :: _ => c' ← exec ev c; run evs (c' :: tr)
  | _, [] => None
  end.

Lemma run_trace allowed c0 evs tr tr' :
  Forall (fun ev => allowed (event_io ev)) evs -> trace allowed c0 tr -> run evs tr = Some tr' -> trace allowed c0 tr'.
Proof.
  intros Hio. revert tr. induction Hio as [|ev evs Hev Hevs IH]; intros tr Htr; [by intros [= <-]|].
  destruct Htr as [|c c' tr Htr Hst]; cbn [run]; intros (c1 & Hex & Hrun)%bind_Some.
  - eapply IH; [|done]. eapply trace_step; [constructor|by eapply exec_step].
  - eapply IH; [|done]. eapply trace_step; [by eapply trace_step|by eapply exec_step].
Qed.

(** The state a scheduled run ends in, and a node of it. *)
Definition last_state (c0 : Cluster) (evs : list event) : Cluster :=
  match run evs [c0] with Some (c :: _) => c | _ => mkCluster ∅ ∅ [] end.
Definition node_of (a : bytes) (c : Cluster) : Raft := default (fresh_node [] (fun a => a) []) (c_nodes c !! a).
Definition runs (c0 : Cluster) (evs : list event) : bool :=
  match run evs [c0] with Some (_ :: _) => true | _ => false end.

Lemma run_ends allowed c0 evs :
  Forall (fun ev => allowed (event_io ev)) evs -> runs c0 evs = true ->
  exists tr, trace allowed c0 (last_state c0 evs :: tr).
Proof.
  intros Hio. unfold last_state, runs. destruct (run evs _) as [[|c tr]|] eqn:E; try done. intros _. exists tr.
  eapply run_trace; [done|apply trace_start|done].
Qed.

Lemma run_app evs1 evs2 tr : run (evs1 ++ evs2) tr = run evs1 tr ≫= run evs2.
Proof.
  revert tr. induction evs1 as [|ev evs1 IH]; intros tr; [done|]. destruct tr as [|c tr]; [done|].
  cbn. destruct (exec ev c); cbn; [apply IH|done].
Qed.

Lemma run_keeps evs tr tr' c : c ∈ tr -> run evs tr = Some tr' -> c ∈ tr'.
Proof.
  revert tr. induction evs as [|ev evs IH]; intros tr Hc; [by intros [= <-]|]. destruct tr as [|c1 tr]; [done|].
  cbn. intros (c2 & _ & H)%bind_Some. eapply IH; [by right|done].
Qed.

(** A run and a state it passes through. *)
Lemma run_passes allowed c0 evs1 evs2 :
  Forall (fun ev => allowed (event_io ev)) (evs1 ++ evs2) -> runs c0 (evs1 ++ evs2) = true ->
  exists tr, trace allowed c0 (last_state c0 (evs1 ++ evs2) :: tr) /\
    last_state c0 evs1 ∈ last_state c0 (evs1 ++ evs2) :: tr.
Proof.
  intros Hio. unfold last_state, runs. rewrite run_app. destruct (run evs1 _) as [tr1|] eqn:E1; [|done]. cbn.
  destruct (run evs2 tr1) as [[|c tr]|] eqn:E; try done. intros _. exists tr. split.
  - eapply run_trace; [done|apply trace_start|]. by rewrite run_app, E1.
  - destruct tr1 as [|c1 tr1]; [destruct evs2; done|]. eapply run_keeps; [|done]. by left.
Qed.
