(* ===== verification/RaftLoops.v ===== *)
(** * raft/raft.go: the goroutines of a node

    [mainLoop] and [applyLoop] choose between the channels that are ready; each
    turn is one transition of Raft.v.  [main_turn_runs] and [apply_turn_runs]
    tie the loops to the scheduled system of RaftSystem.v: what a turn does to a
    cluster is what an event does, so that its runs are the runs of the
    goroutines.  The election timer is a deadline that every reset moves into
    the window of the configuration. *)

From S2P Require Import Prelude GoStd RaftLog Raft RaftSystem.

(** ** Timers *)

(** The timer is nil before [Start]; a reset makes it fire after the new
    timeout. *)
Definition resetElectionTimerLocked (rnd : Z -> Z) (c : Config) (electionTimer : option Z) : res (option Z) :=
  match electionTimer with
  | Some _ => t ← randomElectionTimeout rnd c; Ok (Some t)
  | None => Ok None
  end.

(** A leader's timer is set ten times as far ahead ([becomeLeaderLocked]). *)
Definition leaderTimeout (rnd : Z -> Z) (c : Config) : res Z := t ← randomElectionTimeout rnd c; Ok (i64 (t * 10)).

Section window.
Context (rnd : Z -> Z) (c : Config).
Hypothesis Hrnd : forall n, 0 < n -> 0 <= rnd n < n.
Hypothesis Hmin : 0 <= ElectionTimeoutMin c < ElectionTimeoutMax c.
Hypothesis Hmax : ElectionTimeoutMax c * 10 < 2 ^ 63.

Lemma timeout_in_window : exists t, randomElectionTimeout rnd c = Ok t /\ ElectionTimeoutMin c <= t < ElectionTimeoutMax c.
Proof using All.
  unfold randomElectionTimeout.
  assert (i64 (ElectionTimeoutMax c - ElectionTimeoutMin c) = ElectionTimeoutMax c - ElectionTimeoutMin c) as -> by (apply i64_small; lia).
  rewrite (proj2 (Z.ltb_lt _ _)) by lia. pose proof (Hrnd (ElectionTimeoutMax c - ElectionTimeoutMin c) ltac:(lia)).
  rewrite i64_small by lia. eexists. split; [reflexivity|]. lia.
Qed.

(** A reset of a running timer puts it into the window, and a new leader's
    timer beyond every follower's when the window is less than ten times its
    start. *)
Lemma reset_in_window t :
  exists t', resetElectionTimerLocked rnd c (Some t) = Ok (Some t') /\ ElectionTimeoutMin c <= t' < ElectionTimeoutMax c.
Proof using All. destruct timeout_in_window as (t' & E & H). exists t'. cbn. by rewrite E. Qed.

Lemma leader_waits_longer :
  ElectionTimeoutMax c <= ElectionTimeoutMin c * 10 -> exists t', leaderTimeout rnd c = Ok t' /\ ElectionTimeoutMax c <= t'.
Proof using All.
  intros H. destruct timeout_in_window as (t' & E & Ht). unfold leaderTimeout. rewrite E. cbn. eexists. split; [reflexivity|].
  rewrite i64_small; lia.
Qed.
End window.

(** ** The loops *)

(** The cases of the [select] of [mainLoop]; timers may fire at any time. *)
Inductive main_case := CaseClose | CaseElection | CaseHeartbeat.

Definition main_ready (cs : main_case) (r : Raft) : bool :=
  match cs with CaseClose => r_closed r | _ => true end.

(** What a turn leaves running: nothing, as the loop returns; the goroutines of
    an election; those of [replicateTo] for some peers. *)
Inductive main_out := MainReturn | MainElection (e : Election) | MainReplicate (peers : list bytes).

Definition mainLoop_turn (w : write_outcome) (cs : main_case) : M Raft main_out :=
  match cs with
  | CaseClose => mret MainReturn
  | CaseElection => e ← startElection w; mret (MainElection e)
  | CaseHeartbeat =>
      r ← get_st;
      if bool_decide (r_state r = Leader) then ps ← sendHeartbeats; mret (MainReplicate ps) else mret (MainReplicate [])
  end.

(** [applyLoop]: [true] to go on.  While [applyCommitted] runs, the loop does
    not select. *)
Inductive apply_case := CaseStop | CaseCommit.

Definition apply_ready (cs : apply_case) (r : Raft) : bool :=
  match r_applying r, cs with
  | None, CaseStop => r_closed r
  | None, CaseCommit => r_commitCh r
  | Some _, _ => false
  end.

Definition applyLoop_turn (cs : apply_case) : M Raft bool :=
  match cs with
  | CaseStop => mret false
  | CaseCommit => apply_begin;; mret true
  end.

(** ** Loops and events *)

Section turns.
Context (a : bytes) (c : Cluster) (n : Raft).
Hypothesis Hn : c_nodes c !! a = Some n.

(** An election turn is a timeout of the node, whose requests go to all peers;
    a heartbeat turn changes nothing, and each exchange it starts is a
    replication the system can make; the closing case ends the loop. *)
Lemma main_turn_runs io cs x n' :
  main_ready cs n = true -> r_currentTerm n + 1 < 2 ^ 64 -> mainLoop_turn (rio_write io 0) cs n = (x, n') ->
  match cs with
  | CaseClose => x = Ok MainReturn /\ n' = n /\ r_closed n = true
  | CaseElection => exists c', exec (EvTimeout a io) c = Some c' /\ c_nodes c' !! a = Some n' /\
      forall e, x = Ok (MainElection e) -> c_elections c' !! (a, va_Term (el_args e)) = Some e /\
        forall p, p ∈ r_peers n -> VoteReq a p (el_args e) ∈ c_msgs c'
  | CaseHeartbeat => n' = n /\ exists ps, x = Ok (MainReplicate ps) /\ (r_state n = Leader -> ps = r_peers n) /\
      (r_state n <> Leader -> ps = []) /\ forall p, p ∈ ps -> is_Some (exec (EvReplicate a p) c)
  end.
Proof using Hn.
  intros Hr Ht E. destruct cs; cbn [mainLoop_turn main_ready] in *.
  - by injection E as <- <-.
  - cbn [exec]. rewrite Hn. cbn. rewrite (proj2 (Z.ltb_lt _ _) Ht). unfold mbind, M_bind in E.
    destruct (startElection (rio_write io 0) n) as [r n1]. eexists. split; [reflexivity|]. cbn [c_nodes c_elections c_msgs].
    assert (n1 = n') as -> by (destruct r; by injection E as _ ?). split; [apply lookup_insert_eq|].
    intros e ->. destruct r as [e'| | |]; try done. injection E as ->. split; [apply lookup_insert_eq|].
    intros p Hp. apply elem_of_app. left. cbn [sent]. apply list_elem_of_fmap. by exists p.
  - unfold sendHeartbeats, get_st, mbind, M_bind in E. case_bool_decide as Hs; injection E as <- <-; (split; [done|]).
    + exists (r_peers n). rewrite bool_decide_true by done. split_and!; try done. intros p Hp. cbn [exec]. rewrite Hn. cbn.
      rewrite bool_decide_true by done. destruct (replicateTo p n). eauto.
    + exists []. split_and!; try done. by intros p ?%not_elem_of_nil.
Qed.

(** A turn of [applyLoop] starts to apply what is committed, or ends it. *)
Lemma apply_turn_runs cs x n' :
  apply_ready cs n = true -> applyLoop_turn cs n = (x, n') ->
  match cs with
  | CaseStop => x = Ok false /\ n' = n /\ r_closed n = true
  | CaseCommit => x = Ok true /\ exec (EvApplyBegin a) c = Some (mkCluster (<[a:=n']> (c_nodes c)) (c_elections c) (c_msgs c))
  end.
Proof using Hn.
  unfold apply_ready. intros Hr. destruct (r_applying n) as [?|] eqn:Ha; [done|]. destruct cs; cbn [applyLoop_turn].
  - by intros [= <- <-].
  - intros E. cbn [exec]. unfold local. rewrite Hn. cbn. rewrite Ha, Hr. cbn. injection E as <- <-. done.
Qed.
End turns.
