(* ===== verification/RaftElection.v ===== *)
(** * Election safety

    In every run of a cluster whose term files are written, at most one node
    leads a given term, at whatever time and however messages are delayed,
    reordered, duplicated or lost and nodes restart.

    A node may vote twice in a term here: a candidate or leader that meets the
    leader of its own term clears its vote.  The argument therefore speaks of
    votes cast at any time in a run, and shows that the votes that elected a
    leader are never taken back. *)

From S2P Require Import Prelude GoStd Protocol RaftLog Raft RaftSystem.

(** In some state of the run, [z] had voted for [v] in term [T]. *)
Definition voted (tr : list Cluster) (z : bytes) (T : Z) (v : bytes) : Prop :=
  v <> [] /\ exists c n, c ∈ tr /\ c_nodes c !! z = Some n /\ r_currentTerm n = T /\ r_votedFor n = v.

(** In some state of the run, [a] led term [T]. *)
Definition led (tr : list Cluster) (T : Z) (a : bytes) : Prop :=
  exists c n, c ∈ tr /\ c_nodes c !! a = Some n /\ r_currentTerm n = T /\ r_state n = Leader.

Definition led_by_any (tr : list Cluster) (T : Z) : Prop :=
  Exists (fun c => Exists (fun kv => r_currentTerm kv.2 = T /\ r_state kv.2 = Leader) (map_to_list (c_nodes c))) tr.

Lemma led_any tr T : led_by_any tr T <-> exists a, led tr T a.
Proof.
  unfold led_by_any. rewrite Exists_exists. split.
  - intros (c & Hc & ([a n] & Ha%elem_of_map_to_list & Ht & Hs)%Exists_exists). exists a, c, n. done.
  - intros (a & c & n & Hc & Ha & Ht & Hs). exists c. split; [done|]. apply Exists_exists. exists (a, n).
    split; [by apply elem_of_map_to_list|done].
Qed.

Lemma led_dec tr T : {exists a, led tr T a} + {forall a, ~ led tr T a}.
Proof.
  destruct (decide (led_by_any tr T)) as [H|H]; [left; by apply led_any|right].
  intros a Ha. apply H, led_any. eauto.
Qed.

Lemma voted_cons tr c z T v : voted tr z T v -> voted (c :: tr) z T v.
Proof. intros (Hv & c0 & n & Hc & H). split; [done|]. exists c0, n. split; [by right|done]. Qed.

Lemma led_cons tr c T a : led tr T a -> led (c :: tr) T a.
Proof. intros (c0 & n & Hc & H). exists c0, n. split; [by right|done]. Qed.

(** ** Quorums *)

Lemma quorums_meet (addrs q1 q2 : list bytes) :
  NoDup q1 -> NoDup q2 -> q1 ⊆ addrs -> q2 ⊆ addrs ->
  len addrs < 2 * len q1 -> len addrs < 2 * len q2 -> exists z, z ∈ q1 /\ z ∈ q2.
Proof.
  intros N1 N2 S1 S2 L1 L2. destruct (decide (Exists (fun z => z ∈ q2) q1)) as [H|H].
  { apply Exists_exists in H as (z & ? & ?). eauto. }
  assert (NoDup (q1 ++ q2)) as N.
  { apply NoDup_app. split_and!; [done| |done]. intros z Hz1 Hz2. apply H, Exists_exists. eauto. }
  assert (length (q1 ++ q2) <= length addrs)%nat as Hle.
  { apply submseteq_length, NoDup_submseteq; [done|]. intros z [Hz|Hz]%elem_of_app; auto. }
  rewrite length_app in Hle. unfold len in *. lia.
Qed.

Section election.
Context (addrs : list bytes) (id : bytes -> bytes).
Hypothesis Haddrs : NoDup addrs.
Hypothesis Hinj : forall a b, a ∈ addrs -> b ∈ addrs -> id a = id b -> a = b.
Hypothesis Hid : forall a, a ∈ addrs -> id a <> [] /\ len (id a) + 12 < 2 ^ 32.

(** ** Nodes and votes *)

Record node_ok (a : bytes) (n : Raft) : Prop := {
  nok_addr : a ∈ addrs;
  nok_ids : r_addr n = a /\ r_nodeID n = id a /\ r_peers n = filter (fun p => p <> a) addrs;
  nok_file : persisted n;
  nok_term : 0 <= r_currentTerm n < 2 ^ 64;
  nok_vote : r_votedFor n = [] \/ exists b, b ∈ addrs /\ r_votedFor n = id b;
  nok_self : r_state n <> Follower -> r_votedFor n = id a
}.

(** A majority voted for [a] in term [T], and nobody of it can be made to vote
    for another node. *)
Definition elected (tr : list Cluster) (nodes : gmap bytes Raft) (T : Z) (a : bytes) : Prop :=
  exists q, NoDup q /\ q ⊆ addrs /\ len addrs < 2 * len q /\
    forall z, z ∈ q -> voted tr z T (id a) /\ (forall v, voted tr z T v -> v = id a) /\
      forall n, nodes !! z = Some n -> r_currentTerm n = T -> r_votedFor n = id a /\ (z = a \/ r_state n = Follower).

Record votes_ok (tr : list Cluster) (nodes : gmap bytes Raft) : Prop := {
  vo_dom : forall a, a ∈ addrs -> is_Some (nodes !! a);
  vo_nodes : forall a n, nodes !! a = Some n -> node_ok a n;
  vo_term : forall z T v, voted tr z T v -> (exists b, b ∈ addrs /\ v = id b) /\
    exists n, nodes !! z = Some n /\ T <= r_currentTerm n;
  vo_current : forall T z v n, (forall a, ~ led tr T a) -> voted tr z T v -> nodes !! z = Some n ->
    r_currentTerm n = T -> r_votedFor n = v;
  vo_once : forall T z v w, (forall a, ~ led tr T a) -> voted tr z T v -> voted tr z T w -> v = w;
  vo_elected : forall T a, led tr T a -> a ∈ addrs /\ elected tr nodes T a
}.

Lemma led_unique tr nodes T a b : votes_ok tr nodes -> led tr T a -> led tr T b -> a = b.
Proof using Hinj.
  intros Hv Ha Hb. destruct (vo_elected _ _ Hv _ _ Ha) as (Ha' & q1 & N1 & S1 & L1 & H1).
  destruct (vo_elected _ _ Hv _ _ Hb) as (Hb' & q2 & N2 & S2 & L2 & H2).
  destruct (quorums_meet addrs q1 q2) as (z & Hz1 & Hz2); try done.
  destruct (H1 z Hz1) as (Hv1 & _). destruct (H2 z Hz2) as (_ & Hv2 & _).
  apply Hinj; auto.
Qed.

(** What a transition of node [a] may do to its role. *)
Record move (tr : list Cluster) (a : bytes) (n n' : Raft) : Prop := {
  mv_ids : same_ids n n';
  mv_file : persisted n';
  mv_term : r_currentTerm n <= r_currentTerm n' < 2 ^ 64;
  mv_vote : r_currentTerm n' = r_currentTerm n ->
    r_votedFor n' = r_votedFor n \/ r_votedFor n = [] \/
    (r_state n <> Follower /\ exists b, b <> a /\ led tr (r_currentTerm n) b);
  mv_known : r_votedFor n' = [] \/ exists b, b ∈ addrs /\ r_votedFor n' = id b;
  mv_self : r_state n' <> Follower -> r_votedFor n' = id a;
  mv_stays : r_currentTerm n' = r_currentTerm n -> r_state n' <> Follower -> r_state n <> Follower;
  mv_leads : r_state n' = Leader -> led tr (r_currentTerm n') a \/
    exists q, NoDup q /\ q ⊆ addrs /\ len addrs < 2 * len q /\ forall z, z ∈ q -> voted tr z (r_currentTerm n') (id a)
}.

Section moving.
Context (tr : list Cluster) (c c' : Cluster) (a : bytes) (n n' : Raft).
Hypothesis Hc : c ∈ tr.
Hypothesis Hn : c_nodes c !! a = Some n.
Hypothesis Hc' : c_nodes c' = <[a:=n']> (c_nodes c).
Hypothesis Hok : votes_ok tr (c_nodes c).
Hypothesis Hmv : move tr a n n'.

Lemma voted_after z T v :
  voted (c' :: tr) z T v -> voted tr z T v \/ z = a /\ T = r_currentTerm n' /\ v = r_votedFor n'.
Proof using Hc Hc'.
  intros (Hv & c0 & n0 & Hc0 & Hz & Ht & Hvote). apply elem_of_cons in Hc0 as [-> | Hc0].
  - rewrite Hc' in Hz. destruct (decide (z = a)) as [-> | Hne].
    + rewrite lookup_insert_eq in Hz. injection Hz as <-. right. split_and!; symmetry; assumption || reflexivity.
    + rewrite lookup_insert_ne in Hz by congruence. left. split; [exact Hv|]. exists c, n0. split_and!; assumption.
  - left. split; [exact Hv|]. exists c0, n0. split_and!; assumption.
Qed.

Lemma led_after T b : led (c' :: tr) T b -> led tr T b \/ b = a /\ T = r_currentTerm n' /\ r_state n' = Leader.
Proof using Hc Hc'.
  intros (c0 & n0 & Hc0 & Hz & Ht & Hs). apply elem_of_cons in Hc0 as [-> | Hc0]; [|left; exists c0, n0; split_and!; assumption].
  rewrite Hc' in Hz. destruct (decide (b = a)) as [-> | Hne].
  - rewrite lookup_insert_eq in Hz. injection Hz as <-. right. split_and!; [reflexivity|symmetry; assumption|assumption].
  - rewrite lookup_insert_ne in Hz by congruence. left. exists c, n0. split_and!; assumption.
Qed.

(** A vote of [a] in its new term was cast before only if it did not move. *)
Lemma voted_stays v : voted tr a (r_currentTerm n') v -> r_currentTerm n' = r_currentTerm n.
Proof using Hn Hok Hmv.
  intros Hv. destruct (vo_term _ _ Hok _ _ _ Hv) as (_ & n0 & Hn0 & Hle). rewrite Hn in Hn0. injection Hn0 as <-.
  pose proof (mv_term _ _ _ _ Hmv). lia.
Qed.

Lemma moved_node : node_ok a n'.
Proof using Hn Hok Hmv.
  pose proof (vo_nodes _ _ Hok _ _ Hn) as [H1 (H2 & H3 & H4) H5 H6 H7 H8].
  destruct Hmv as [(I1 & I2 & I3) M2 M3 M4 M5 M6 _ _].
  split; [done|split_and!; congruence|done|lia|done|done].
Qed.

Lemma moved_current T z v m :
  (forall b, ~ led tr T b) -> voted (c' :: tr) z T v -> c_nodes c' !! z = Some m -> r_currentTerm m = T -> r_votedFor m = v.
Proof using Hc Hn Hc' Hok Hmv.
  intros Hnl Hv Hm Ht. rewrite Hc' in Hm. apply voted_after in Hv as Hv'.
  destruct (decide (z = a)) as [-> | Hne].
  - rewrite lookup_insert_eq in Hm. injection Hm as <-. subst T. destruct Hv' as [Hold|(_ & _ & ->)]; [|done].
    pose proof (voted_stays _ Hold) as Hst. rewrite Hst in Hold, Hnl.
    pose proof (vo_current _ _ Hok _ _ _ _ Hnl Hold Hn eq_refl) as Hcur.
    destruct (mv_vote _ _ _ _ Hmv Hst) as [-> |[He|(_ & b & _ & Hb)]]; [done| |by apply Hnl in Hb].
    destruct Hold as [Hne _]. congruence.
  - rewrite lookup_insert_ne in Hm by done. destruct Hv' as [Hold|(-> & _)]; [|done].
    by eapply (vo_current _ _ Hok).
Qed.

Lemma moved_once T z v w :
  (forall b, ~ led tr T b) -> voted (c' :: tr) z T v -> voted (c' :: tr) z T w -> v = w.
Proof using Hc Hn Hc' Hok Hmv.
  intros Hnl Hv Hw.
  assert (forall u, voted (c' :: tr) z T u -> z = a -> T = r_currentTerm n' -> u = r_votedFor n') as Hnew.
  { intros u Hu -> ->. symmetry. eapply moved_current; [done|done| |done]. rewrite Hc'. by rewrite lookup_insert_eq. }
  apply voted_after in Hv as [Hv|(-> & -> & ->)]; [|symmetry; auto].
  apply voted_after in Hw as Hw'. destruct Hw' as [Hw'|(-> & -> & ->)]; [by eapply (vo_once _ _ Hok)|].
  apply Hnew; [by apply voted_cons|done|done].
Qed.

Lemma moved_elected_old T b : led tr T b -> elected (c' :: tr) (c_nodes c') T b.
Proof using Hc Hn Hc' Hok Hmv Hinj Hid.
  intros Hb. destruct (vo_elected _ _ Hok _ _ Hb) as (Hbin & q & N & S & L & Hq).
  exists q. split_and!; [done..|]. intros z Hz. destruct (Hq z Hz) as (Hv & Hall & Hnow).
  assert (z = a -> T = r_currentTerm n' -> r_votedFor n' = id b /\ (a = b \/ r_state n' = Follower)) as Hnew.
  { intros -> ->. pose proof (voted_stays _ Hv) as Hst. destruct (Hnow _ Hn) as [Hvn Hfol]; [done|].
    destruct (mv_vote _ _ _ _ Hmv Hst) as [-> |[He|(Hnf & b' & Hb' & Hlb)]].
    - split; [done|]. destruct Hfol as [?|Hfol]; [by left|right].
      destruct (decide (r_state n' = Follower)); [done|]. by destruct (mv_stays _ _ _ _ Hmv Hst n0).
    - destruct (Hid b Hbin). congruence.
    - rewrite <- Hst in Hlb. pose proof (led_unique _ _ _ _ _ Hok Hb Hlb). destruct Hfol; congruence. }
  split_and!; [by apply voted_cons| |].
  - intros v [Hold|(Hza & HT & ->)]%voted_after; [auto|by apply Hnew].
  - intros m Hm Ht. rewrite Hc' in Hm. destruct (decide (z = a)) as [-> | Hne].
    + rewrite lookup_insert_eq in Hm. injection Hm as <-. apply Hnew; [reflexivity|congruence].
    + rewrite lookup_insert_ne in Hm by done. by apply Hnow.
Qed.

Lemma moved_elected_new :
  r_state n' = Leader -> elected (c' :: tr) (c_nodes c') (r_currentTerm n') a.
Proof using Hc Hn Hc' Hok Hmv Hinj Hid.
  intros Hl. destruct (mv_leads _ _ _ _ Hmv Hl) as [Hled|(q & N & S & L & Hq)]; [by apply moved_elected_old|].
  destruct (led_dec tr (r_currentTerm n')) as [[b Hb]|Hnl].
  - destruct (vo_elected _ _ Hok _ _ Hb) as (Hbin & q' & N' & S' & L' & Hq').
    destruct (quorums_meet addrs q q') as (z & Hz & Hz'); try done.
    destruct (Hq' z Hz') as (_ & Hall & _). assert (a = b) as Hab by (apply Hinj; [apply (vo_nodes _ _ Hok _ _ Hn)|done|auto]).
    apply moved_elected_old. by rewrite Hab.
  - exists q. split_and!; [done..|]. intros z Hz. specialize (Hq z Hz). split_and!; [by apply voted_cons| |].
    + intros v Hv. eapply moved_once; [done|done|by apply voted_cons].
    + intros m Hm Ht. assert (r_votedFor m = id a) as Hvm by (eapply moved_current; [done|by apply voted_cons|done|done]).
      split; [done|]. destruct (decide (r_state m = Follower)) as [|Hnf]; [by right|left].
      rewrite Hc' in Hm. destruct (decide (z = a)) as [|Hne]; [done|]. rewrite lookup_insert_ne in Hm by done.
      pose proof (vo_nodes _ _ Hok _ _ Hm) as Hmz. apply Hinj; [apply Hmz|apply (vo_nodes _ _ Hok _ _ Hn)|].
      rewrite <- Hvm. symmetry. by apply Hmz.
Qed.

Lemma votes_ok_move : votes_ok (c' :: tr) (c_nodes c').
Proof using Hc Hn Hc' Hok Hmv Hinj Hid.
  split.
  - intros b Hb. rewrite Hc'. rewrite lookup_insert_is_Some'. right. by apply (vo_dom _ _ Hok).
  - intros b m Hm. rewrite Hc' in Hm. destruct (decide (b = a)) as [-> | Hne].
    + rewrite lookup_insert_eq in Hm. injection Hm as <-. apply moved_node.
    + rewrite lookup_insert_ne in Hm by done. by apply (vo_nodes _ _ Hok).
  - intros z T v Hv. apply voted_after in Hv as Hv'. rewrite Hc'. destruct Hv' as [Hold|(-> & -> & ->)].
    + destruct (vo_term _ _ Hok _ _ _ Hold) as (Hb & m & Hm & Hle). split; [done|].
      destruct (decide (z = a)) as [-> | Hne].
      * exists n'. rewrite lookup_insert_eq. split; [done|]. rewrite Hn in Hm. injection Hm as <-. pose proof (mv_term _ _ _ _ Hmv). lia.
      * exists m. by rewrite lookup_insert_ne.
    + split; [|exists n'; by rewrite lookup_insert_eq].
      destruct (mv_known _ _ _ _ Hmv) as [He|?]; [|done]. by destruct Hv as [Hne _].
  - intros T z v m Hnl. apply moved_current. intros b Hb. by apply (Hnl b), led_cons.
  - intros T z v w Hnl. apply moved_once. intros b Hb. by apply (Hnl b), led_cons.
  - intros T b [Hb|(-> & -> & Hl)]%led_after.
    + split; [by apply (vo_elected _ _ Hok) in Hb as [? _]|by apply moved_elected_old].
    + split; [apply (vo_nodes _ _ Hok _ _ Hn)|by apply moved_elected_new].
Qed.
End moving.

(** ** Messages and running elections *)

Definition u64_fits (z : Z) : Prop := 0 <= z < 2 ^ 64.

Definition msg_ok (tr : list Cluster) (m : msg) : Prop :=
  match m with
  | VoteReq src _ args => u64_fits (va_Term args) /\ src ∈ addrs /\ va_CandidateID args = id src
  | VoteRep p a args reply => u64_fits (vr_Term reply) /\
      (vr_VoteGranted reply = true -> p ∈ addrs /\ voted tr p (va_Term args) (id a))
  | AppReq src dst args => u64_fits (aa_Term args) /\ led tr (aa_Term args) src /\ dst <> src
  | AppRep _ _ _ reply => u64_fits (ar_Term reply)
  end.

(** The votes an election counted were cast for it, each by another node. *)
Definition el_ok (tr : list Cluster) (a : bytes) (T : Z) (e : Election) : Prop :=
  va_Term (el_args e) = T /\ el_majority e = len addrs / 2 + 1 /\
  exists counted, NoDup (a :: counted) /\ (a :: counted) ⊆ addrs /\ el_votes e = len (a :: counted) /\
    (forall z, z ∈ (a :: counted) -> voted tr z T (id a)) /\
    forall p ph, el_phase e !! p = Some ph ->
      match ph with
      | Asked => ~ (p ∈ a :: counted)
      | Granted => ~ (p ∈ a :: counted) /\ p ∈ addrs /\ voted tr p T (id a)
      | Won => el_majority e <= el_votes e
      end.

Record inv (tr : list Cluster) (c : Cluster) : Prop := {
  inv_votes : votes_ok tr (c_nodes c);
  inv_msgs : forall m, m ∈ c_msgs c -> msg_ok tr m;
  inv_els : forall a T e, c_elections c !! (a, T) = Some e -> el_ok tr a T e
}.

Lemma msg_ok_cons tr c m : msg_ok tr m -> msg_ok (c :: tr) m.
Proof.
  destruct m; simpl; [done| | |done].
  - intros (? & H). split; [done|]. intros Hg. destruct (H Hg). split; [done|by apply voted_cons].
  - intros (? & ? & ?). split_and!; [done|by apply led_cons|done].
Qed.

Lemma el_ok_cons tr c a T e : el_ok tr a T e -> el_ok (c :: tr) a T e.
Proof.
  intros (? & ? & q & ? & ? & ? & Hv & Hp). split_and!; [done..|]. exists q. split_and!; [done..| |].
  - intros z Hz. by apply voted_cons, Hv.
  - intros p ph Hph. specialize (Hp p ph Hph). destruct ph; [done| |done].
    destruct Hp as (? & ? & ?). split_and!; [done..|by apply voted_cons].
Qed.

Lemma inv_step_node tr c a n n' els new :
  c ∈ tr -> inv tr c -> c_nodes c !! a = Some n -> move tr a n n' ->
  let c' := mkCluster (<[a:=n']> (c_nodes c)) els (new ++ c_msgs c) in
  (forall m, m ∈ new -> msg_ok (c' :: tr) m) ->
  (forall b T e, els !! (b, T) = Some e -> c_elections c !! (b, T) = Some e \/ el_ok (c' :: tr) b T e) ->
  inv (c' :: tr) c'.
Proof using Hinj Hid.
  intros Hc [I1 I2 I3] Hn Hmv c' Hnew Hels. split.
  - by eapply votes_ok_move.
  - intros m [Hm|Hm]%elem_of_app; [auto|by apply msg_ok_cons, I2].
  - intros b T e He. destruct (Hels b T e He) as [Hold|]; [by apply el_ok_cons, I3|done].
Qed.

(** ** The moves *)

Lemma move_quiet tr c a n n' :
  c ∈ tr -> c_nodes c !! a = Some n -> node_ok a n -> same_role n n' -> move tr a n n'.
Proof.
  intros Hc Hn [N1 N2 N3 N4 N5 N6] (Hids & Ht & Hv & Hs & Hf). split; rewrite ?Ht, ?Hv, ?Hs; try done.
  - unfold persisted. by rewrite Hf, Ht, Hv.
  - lia.
  - auto.
  - intros Hl. left. exists c, n. done.
Qed.

Lemma move_follower tr a n n' T :
  role_is Follower T [] n n' -> u64_fits T ->
  (r_currentTerm n < T \/ r_currentTerm n = T /\ r_state n <> Follower /\ exists b, b <> a /\ led tr T b) ->
  move tr a n n'.
Proof.
  intros (Hids & Ht & Hv & Hs & Hf) HT Hcase. unfold u64_fits in HT. split; rewrite ?Ht, ?Hv, ?Hs; try done.
  - left. congruence.
  - destruct Hcase as [|[]]; lia.
  - intros HTn. destruct Hcase as [|(_ & Hnf & Hb)]; [lia|]. rewrite <- HTn. auto.
  - by left.
Qed.

Lemma move_vote tr c a n n' st T b :
  c ∈ tr -> c_nodes c !! a = Some n -> node_ok a n ->
  role_is st T (id b) n n' -> u64_fits T -> b ∈ addrs ->
  (r_currentTerm n < T /\ st = Follower \/
   r_currentTerm n = T /\ st = r_state n /\ (r_votedFor n = [] \/ r_votedFor n = id b)) ->
  move tr a n n'.
Proof using Hid.
  intros Hc Hn [N1 N2 N3 N4 N5 N6] (Hids & Ht & Hv & Hs & Hf) HT Hb Hcase. unfold u64_fits in HT.
  assert (st <> Follower -> r_currentTerm n = T /\ st = r_state n /\ id b = id a) as Hst.
  { intros Hnf. destruct Hcase as [[]|(? & -> & Hvn)]; [done|]. specialize (N6 Hnf).
    destruct (Hid a N1). destruct Hvn; split_and!; congruence. }
  split; rewrite ?Ht, ?Hv, ?Hs; try done.
  - left. congruence.
  - destruct Hcase as [[]|[]]; lia.
  - intros HTn. destruct Hcase as [[]|(_ & _ & [Hvn|Hvn])]; [lia|auto|rewrite Hvn; auto].
  - right. by exists b.
  - intros Hnf. by apply Hst.
  - intros _ Hnf. by destruct (Hst Hnf) as (_ & <- & _).
  - intros Hl. left. destruct Hst as (Htn & Hsn & _); [by rewrite Hl|]. exists c, n. split_and!; congruence.
Qed.

Lemma move_candidate tr a n n' :
  node_ok a n -> role_is Candidate (r_currentTerm n + 1) (id a) n n' -> r_currentTerm n + 1 < 2 ^ 64 -> move tr a n n'.
Proof.
  intros [N1 N2 N3 N4 N5 N6] (Hids & Ht & Hv & Hs & Hf) HT. split; rewrite ?Ht, ?Hv, ?Hs; try done; try lia.
  - left. congruence.
  - right. by exists a.
Qed.

Lemma move_restart tr a n n' :
  node_ok a n -> same_ids n n' -> r_currentTerm n' = r_currentTerm n -> r_votedFor n' = r_votedFor n ->
  r_state n' = Follower -> r_stateFile n' = r_stateFile n -> move tr a n n'.
Proof.
  intros [N1 N2 N3 N4 N5 N6] Hids Ht Hv Hs Hf. split; rewrite ?Ht, ?Hv, ?Hs; try done; try lia.
  - unfold persisted. by rewrite Hf, Ht, Hv.
  - auto.
Qed.

Lemma move_leader tr a n n' q :
  node_ok a n -> same_ids n n' -> r_currentTerm n' = r_currentTerm n -> r_votedFor n' = r_votedFor n ->
  r_state n = Candidate -> r_stateFile n' = r_stateFile n ->
  NoDup q -> q ⊆ addrs -> len addrs < 2 * len q -> (forall z, z ∈ q -> voted tr z (r_currentTerm n) (id a)) ->
  move tr a n n'.
Proof.
  intros [N1 N2 N3 N4 N5 N6] Hids Ht Hv Hs Hf Q1 Q2 Q3 Q4. split; rewrite ?Ht, ?Hv; try done; try lia.
  - unfold persisted. by rewrite Hf, Ht, Hv.
  - auto.
  - intros _. apply N6. by rewrite Hs.
  - intros _ _. by rewrite Hs.
  - intros _. right. by exists q.
Qed.

(** ** Elections *)

Lemma majority_quorum (q : list bytes) : len addrs / 2 + 1 <= len q -> len addrs < 2 * len q.
Proof. intros H. pose proof (Z.mod_pos_bound (len addrs) 2). pose proof (Z.div_mod (len addrs) 2). lia. Qed.

Lemma peers_count a : a ∈ addrs -> len (filter (fun p => p <> a) addrs) + 1 = len addrs.
Proof using Haddrs.
  clear Hinj Hid. induction addrs as [|b l IH]; [by intros ?%not_elem_of_nil|].
  apply NoDup_cons in Haddrs as [Hb Hl]. rewrite filter_cons, len_cons. intros [-> |Ha]%elem_of_cons.
  - destruct (decide (b <> b)); [done|]. rewrite filter_keep; [lia|]. apply Forall_forall. intros x Hx ->. done.
  - destruct (decide (b <> a)) as [|Hn]; [rewrite len_cons; specialize (IH Hl Ha); lia|].
    assert (b = a) by (destruct (decide (b = a)); [done|]; by destruct Hn). by subst.
Qed.

(** An election whose goroutine [p] ended, or was granted the vote. *)
Lemma el_ok_phase tr a T e p ph :
  el_ok tr a T e -> el_phase e !! p = Some Asked \/ ph = None ->
  (ph = None \/ ph = Some Granted /\ p ∈ addrs /\ voted tr p T (id a)) -> el_ok tr a T (set_phase p ph e).
Proof.
  intros (? & ? & q & ? & ? & ? & Hv & Hp) Hask Hph. split_and!; [done..|]. exists q. split_and!; [done..|].
  intros p' ph'. cbn. destruct (decide (p = p')) as [<- |Hne].
  - rewrite lookup_partial_alter_eq. intros ->. destruct Hph as [|([= ->] & ? & ?)]; [done|].
    destruct Hask as [Hask|]; [|done]. split_and!; [by apply Hp in Hask|done..].
  - rewrite lookup_partial_alter_ne by done. apply Hp.
Qed.

Lemma el_ok_count tr a T e p :
  el_ok tr a T e -> el_phase e !! p = Some Granted ->
  let '(e', won) := count_vote e in el_ok tr a T (set_phase p (if won then Some Won else None) e').
Proof.
  intros (? & ? & q & N & S & L & Hv & Hp) Hg. destruct (Hp _ _ Hg) as (Hnew & Hin & Hvp). cbn.
  split_and!; [done..|]. exists (p :: q). cbn [set_phase el_votes el_majority el_phase].
  assert ((a :: p :: q) ≡ₚ p :: a :: q) as Hperm by constructor. split_and!.
  - rewrite Hperm. by apply NoDup_cons.
  - intros z Hz. rewrite Hperm in Hz. apply elem_of_cons in Hz as [-> |]; auto.
  - rewrite L, !len_cons. lia.
  - intros z Hz. rewrite Hperm in Hz. apply elem_of_cons in Hz as [-> |]; auto.
  - intros p' ph'. destruct (decide (p = p')) as [<- |Hne].
    + rewrite lookup_partial_alter_eq. destruct (Z.leb_spec (el_majority e) (el_votes e + 1)); [|done].
      by intros [= <-].
    + rewrite lookup_partial_alter_ne by done. intros Hph. specialize (Hp _ _ Hph).
      assert (p' ∉ (a :: q) -> p' ∉ (a :: p :: q)) as Hni.
      { intros Hni. rewrite Hperm. by intros [-> |]%elem_of_cons. }
      destruct ph'; [auto| |lia]. destruct Hp as (? & ? & ?). auto.
Qed.

Lemma el_ok_new tr a n e :
  node_ok a n -> voted tr a (va_Term (el_args e)) (id a) ->
  el_votes e = 1 -> el_majority e = (len (r_peers n) + 1) / 2 + 1 ->
  el_phase e = list_to_map ((fun p => (p, Asked)) <$> r_peers n) ->
  el_ok tr a (va_Term (el_args e)) e.
Proof using Haddrs.
  intros [N1 (_ & _ & Np) _ _ _ _] Hv Hvotes Hmaj Hph. split_and!; [done|by rewrite Hmaj, Np, peers_count|].
  exists []. split_and!.
  - apply NoDup_singleton.
  - by intros z ->%list_elem_of_singleton.
  - done.
  - by intros z ->%list_elem_of_singleton.
  - intros p ph Hlk. rewrite Hph in Hlk. apply elem_of_list_to_map_2, list_elem_of_fmap in Hlk as (p' & [= <- ->] & Hp').
    rewrite Np, list_elem_of_filter in Hp'. intros ->%list_elem_of_singleton. by destruct Hp'.
Qed.

(** Changing one election by a function that keeps it correct. *)
Lemma els_alter (tr' : list Cluster) (a : bytes) (T : Z) (f : Election -> Election) (els : gmap (bytes * Z) Election) :
  (forall e, els !! (a, T) = Some e -> el_ok tr' a T (f e)) ->
  forall b T' e, alter f (a, T) els !! (b, T') = Some e -> els !! (b, T') = Some e \/ el_ok tr' b T' e.
Proof.
  intros Hf b T' e. destruct (decide ((a, T) = (b, T'))) as [[= <- <-]|Hne].
  - rewrite lookup_alter_eq. intros (e0 & He0 & ->)%fmap_Some. right. auto.
  - rewrite lookup_alter_ne by done. auto.
Qed.

(** ** Steps *)

Lemma inv_quiet tr c a n n' new :
  c ∈ tr -> inv tr c -> c_nodes c !! a = Some n -> same_role n n' ->
  let c' := mkCluster (<[a:=n']> (c_nodes c)) (c_elections c) (new ++ c_msgs c) in
  (forall m, m ∈ new -> msg_ok (c' :: tr) m) -> inv (c' :: tr) c'.
Proof using Hinj Hid.
  intros Hc Hinv Hn Hr c' Hnew. apply (inv_step_node tr c a n n'); try done.
  - eapply move_quiet; [done|done| |done]. by apply (vo_nodes _ _ (inv_votes _ _ Hinv)).
  - auto.
Qed.

Lemma voted_now tr c a n : c ∈ tr -> c_nodes c !! a = Some n -> r_votedFor n <> [] -> voted tr a (r_currentTerm n) (r_votedFor n).
Proof. intros Hc Hn Hv. split; [done|]. by exists c, n. Qed.

Lemma inv_timeout tr c a n x n' :
  c ∈ tr -> inv tr c -> c_nodes c !! a = Some n -> r_currentTerm n + 1 < 2 ^ 64 ->
  startElection Written n = (x, n') ->
  let c' := mkCluster (<[a:=n']> (c_nodes c))
      (match x with Ok e => <[(a, va_Term (el_args e)):=e]> (c_elections c) | _ => c_elections c end)
      (sent x (fun e => (fun p => VoteReq a p (el_args e)) <$> r_peers n) ++ c_msgs c) in
  inv (c' :: tr) c'.
Proof using Haddrs Hinj Hid.
  intros Hc Hinv Hn HT E c'. pose proof (vo_nodes _ _ (inv_votes _ _ Hinv) _ _ Hn) as Hnok.
  pose proof Hnok as [N1 (_ & Nid & _) _ N4 _ _].
  destruct (startElection_role n) as (e & n1 & E' & Hr & Ht & Hcand & Hv & Hmaj & Hph). rewrite E in E'. injection E' as -> ->.
  unfold u64 in *. rewrite Z.mod_small, Nid in Hr by lia. rewrite Z.mod_small in Ht by lia. rewrite Nid in Hcand.
  assert (voted (c' :: tr) a (va_Term (el_args e)) (id a)) as Hvoted.
  { destruct Hr as (_ & Ht' & Hv' & _). rewrite Ht, <- Ht', <- Hv'. eapply voted_now; [by left|apply lookup_insert_eq|].
    rewrite Hv'. by apply Hid. }
  apply (inv_step_node tr c a n n1); try done.
  - by apply move_candidate.
  - intros m (p & -> & _)%list_elem_of_fmap. split_and!; [unfold u64_fits; lia|done|done].
  - intros b T e'. destruct (decide ((a, va_Term (el_args e)) = (b, T))) as [[= <- <-]|Hne].
    + rewrite lookup_insert_eq. intros [= <-]. right. by eapply el_ok_new.
    + rewrite lookup_insert_ne by done. by left.
Qed.

Lemma inv_vote_request tr c src a args n io x n' :
  c ∈ tr -> inv tr c -> VoteReq src a args ∈ c_msgs c -> c_nodes c !! a = Some n -> writes_ok io ->
  handleRequestVote io args n = (x, n') ->
  let c' := mkCluster (<[a:=n']> (c_nodes c)) (c_elections c) (sent x (fun reply => [VoteRep a src args reply]) ++ c_msgs c) in
  inv (c' :: tr) c'.
Proof using Hinj Hid.
  intros Hc Hinv Hm Hn Hio E c'. pose proof (vo_nodes _ _ (inv_votes _ _ Hinv) _ _ Hn) as Hnok.
  destruct (inv_msgs _ _ Hinv _ Hm) as (HT & Hsrc & Hcand).
  assert (move tr a n n') as Hmv.
  { destruct (handleRequestVote_role _ _ _ _ _ Hio E) as [(_ & [Hr|[Hr Hlt]])|(_ & st & Hr & Hcase)].
    - by eapply move_quiet.
    - eapply move_follower; [done|done|by left].
    - rewrite Hcand in Hr, Hcase. by eapply move_vote. }
  apply (inv_step_node tr c a n n'); [done..| |auto].
  intros m. destruct x as [reply| | |]; [|by intros ?%not_elem_of_nil..]. intros ->%list_elem_of_singleton.
  cbn [msg_ok]. rewrite (handleRequestVote_term _ _ _ _ _ E). split.
  - pose proof (mv_term _ _ _ _ Hmv). pose proof (nok_term _ _ Hnok). unfold u64_fits. lia.
  - intros Hg. split; [apply Hnok|].
    destruct (handleRequestVote_role _ _ _ _ _ Hio E) as [(Hun & _)|([= ->] & st & Hr & _)].
    { specialize (Hun _ eq_refl). congruence. }
    destruct Hr as (_ & Ht & Hv & _). rewrite <- Ht, <- Hcand, <- Hv. eapply voted_now; [by left|apply lookup_insert_eq|].
    rewrite Hv, Hcand. by apply Hid.
Qed.

Lemma inv_append_request tr c src a args n io x n' :
  c ∈ tr -> inv tr c -> AppReq src a args ∈ c_msgs c -> c_nodes c !! a = Some n -> writes_ok io ->
  handleAppendEntries io args n = (x, n') ->
  let c' := mkCluster (<[a:=n']> (c_nodes c)) (c_elections c) (sent x (fun reply => [AppRep a src args reply]) ++ c_msgs c) in
  inv (c' :: tr) c'.
Proof using Hinj Hid.
  intros Hc Hinv Hm Hn Hio E c'. pose proof (vo_nodes _ _ (inv_votes _ _ Hinv) _ _ Hn) as Hnok.
  destruct (inv_msgs _ _ Hinv _ Hm) as (HT & Hled & Hne).
  assert (move tr a n n') as Hmv.
  { destruct (handleAppendEntries_role _ _ _ _ _ Hio E) as [Hr|(Hr & Hcase)]; [by eapply move_quiet|].
    eapply move_follower; [done|done|]. destruct Hcase as [|[? ?]]; [by left|right]. split_and!; [done..|]. by exists src. }
  apply (inv_step_node tr c a n n'); [done..| |auto].
  intros m. destruct x as [reply| | |]; [|by intros ?%not_elem_of_nil..]. intros ->%list_elem_of_singleton.
  cbn [msg_ok]. rewrite (handleAppendEntries_term _ _ _ _ _ E).
  pose proof (mv_term _ _ _ _ Hmv). pose proof (nok_term _ _ Hnok). cbn. unfold u64_fits. lia.
Qed.

Lemma inv_vote_reply tr c p a args reply e n x n' :
  c ∈ tr -> inv tr c -> VoteRep p a args reply ∈ c_msgs c -> c_elections c !! (a, va_Term args) = Some e ->
  el_phase e !! p = Some Asked -> c_nodes c !! a = Some n -> vote_reply Written reply n = (x, n') ->
  let c' := mkCluster (<[a:=n']> (c_nodes c))
    (next_phase a (va_Term args) p (match x with Ok true => Some Granted | _ => None end) (c_elections c)) (c_msgs c) in
  inv (c' :: tr) c'.
Proof using Hinj Hid.
  intros Hc Hinv Hm He Hp Hn E c'. pose proof (vo_nodes _ _ (inv_votes _ _ Hinv) _ _ Hn) as Hnok.
  destruct (inv_msgs _ _ Hinv _ Hm) as (HT & Hg).
  apply (inv_step_node tr c a n n' _ []); [done..| |by intros ? ?%not_elem_of_nil|].
  - destruct (vote_reply_role _ _ _ _ E) as [[Hr _]|(Hr & Hlt & _)]; [by eapply move_quiet|].
    eapply move_follower; [done|done|by left].
  - apply els_alter. intros e' He'. rewrite He in He'. injection He' as <-.
    apply el_ok_cons, el_ok_phase; [by apply (inv_els _ _ Hinv)|by left|].
    destruct (vote_reply_role _ _ _ _ E) as [[_ ->]|(_ & _ & ->)]; [|by left].
    destruct (vr_VoteGranted reply); [right|by left]. by destruct Hg.
Qed.

Lemma inv_vote_won tr c a T p e n x n' :
  c ∈ tr -> inv tr c -> c_elections c !! (a, T) = Some e -> el_phase e !! p = Some Won -> c_nodes c !! a = Some n ->
  vote_won (el_args e) n = (x, n') ->
  let c' := mkCluster (<[a:=n']> (c_nodes c)) (next_phase a T p None (c_elections c)) (c_msgs c) in
  inv (c' :: tr) c'.
Proof using Hinj Hid.
  intros Hc Hinv He Hp Hn E c'. pose proof (vo_nodes _ _ (inv_votes _ _ Hinv) _ _ Hn) as Hnok.
  pose proof (inv_els _ _ Hinv _ _ _ He) as Hel.
  apply (inv_step_node tr c a n n' _ []); [done..| |by intros ? ?%not_elem_of_nil|].
  - destruct (vote_won_role _ _ _ _ E) as [Hr|(Hids & Ht & Hs & _ & Ht' & Hv & Hf)]; [by eapply move_quiet|].
    destruct Hel as (HTe & Hmaj & q & N & S & L & Hvq & Hph). apply Hph in Hp. cbn in Hp.
    eapply (move_leader _ _ _ _ (a :: q)); try done.
    + apply majority_quorum. lia.
    + intros z Hz. rewrite Ht, HTe. auto.
  - apply els_alter. intros e' He'. rewrite He in He'. injection He' as <-.
    apply el_ok_cons, el_ok_phase; auto.
Qed.

Lemma inv_vote_count tr c a T p e :
  c ∈ tr -> inv tr c -> c_elections c !! (a, T) = Some e -> el_phase e !! p = Some Granted ->
  let c' := mkCluster (c_nodes c)
      (let '(e', won) := count_vote e in
       <[(a, T):=set_phase p (if won then Some Won else None) e']> (c_elections c)) (c_msgs c) in
  inv (c' :: tr) c'.
Proof using Hinj Hid.
  intros Hc Hinv He Hp c'. pose proof (inv_els _ _ Hinv _ _ _ He) as Hel.
  assert (exists n, c_nodes c !! a = Some n) as [n Hn].
  { destruct Hel as (_ & _ & q & _ & S & _). apply (vo_dom _ _ (inv_votes _ _ Hinv)). apply S. by left. }
  unfold c'. rewrite <- (insert_id (c_nodes c) a n Hn) at 1 2.
  apply (inv_step_node tr c a n n _ []); [done..| |by intros ? ?%not_elem_of_nil|].
  - eapply move_quiet; [done|done|by apply (vo_nodes _ _ (inv_votes _ _ Hinv))|done].
  - intros b T' e'. pose proof (el_ok_count _ _ _ _ _ Hel Hp) as Hcnt. destruct (count_vote e) as [e1 won].
    destruct (decide ((a, T) = (b, T'))) as [[= <- <-]|Hne].
    + rewrite lookup_insert_eq. intros [= <-]. right. by apply el_ok_cons.
    + rewrite lookup_insert_ne by done. by left.
Qed.

Lemma inv_step tr c c' : c ∈ tr -> inv tr c -> step writes_ok c c' -> inv (c' :: tr) c'.
Proof using Haddrs Hinj Hid.
  intros Hc Hinv Hst. assert (forall a n, c_nodes c !! a = Some n -> node_ok a n) as Hnok by apply Hinv.
  destruct Hst as [a n io x n' Hn Hio HT E | src a args n io x n' Hm Hn Hio E | p a args reply e n io x n' Hm He Hp Hn Hio E
    | a T p e He Hp | a T p e n x n' He Hp Hn E | a p n x n' Hn Hp E | src a args n io x n' Hm Hn Hio E
    | p a args reply n io x n' Hm Hn Hio E | a cmd data n x n' Hn _ _ E | a n x n' Hn _ _ E | a n x n' Hn E | a n e ch Hn _
    | a n io k n' Hn Hio E].
  - rewrite Hio in E. by eapply inv_timeout.
  - by eapply inv_vote_request.
  - rewrite Hio in E. by eapply inv_vote_reply.
  - by eapply inv_vote_count.
  - by eapply inv_vote_won.
  - eapply inv_quiet; [done..|by eapply quiet_replicateTo|].
    intros m. destruct x as [[args|]| | |]; [|by intros ?%not_elem_of_nil..]. intros ->%list_elem_of_singleton.
    destruct (replicateTo_leader _ _ _ _ E) as (Hs & Ht). cbn [msg_ok]. rewrite <- Ht. specialize (Hnok _ _ Hn). split_and!.
    + apply Hnok.
    + exists c, n. split_and!; [by right|done..].
    + destruct Hnok as [_ (_ & _ & Hpeers) _ _ _ _]. rewrite Hpeers, list_elem_of_filter in Hp. by destruct Hp.
  - by eapply inv_append_request.
  - rewrite Hio in E. eapply (inv_step_node tr c a n n' _ []); [done..| |by intros ? ?%not_elem_of_nil|auto].
    destruct (append_reply_role _ _ _ _ _ _ E) as [Hr|[Hr Hlt]]; [by eapply move_quiet; auto|].
    eapply move_follower; [done| |by left]. by apply (inv_msgs _ _ Hinv) in Hm.
  - eapply (inv_quiet _ _ _ _ _ []); [done..|by eapply quiet_Propose|by intros ? ?%not_elem_of_nil].
  - eapply (inv_quiet _ _ _ _ _ []); [done..|by eapply quiet_apply_begin|by intros ? ?%not_elem_of_nil].
  - eapply (inv_quiet _ _ _ _ _ []); [done..|by eapply quiet_apply_one|by intros ? ?%not_elem_of_nil].
  - eapply (inv_quiet _ _ _ _ _ []); [done..| |by intros ? ?%not_elem_of_nil]. by repeat split.
  - specialize (Hnok _ _ Hn). apply NewRaft_role in E as (Hids & Ht & Hv & Hs & Hf & _); [|apply Hnok|].
    + eapply (inv_step_node tr c a n n' _ []); [done..|by apply move_restart|by intros ? ?%not_elem_of_nil|].
      intros b T e [He _]%map_lookup_filter_Some. by left.
    + split; [apply Hnok|]. destruct (nok_vote _ _ Hnok) as [-> |(b & Hb & ->)]; [done|by apply Hid].
Qed.

Lemma fresh_node_ok a : a ∈ addrs -> node_ok a (fresh_node addrs id a).
Proof. intros Ha. split; try done; [by right|by left]. Qed.

Lemma boot_nodes a n : c_nodes (boot addrs id) !! a = Some n -> a ∈ addrs /\ n = fresh_node addrs id a.
Proof.
  cbn. intros H%elem_of_list_to_map_2. apply list_elem_of_fmap in H as (b & [= -> ->] & Hb). done.
Qed.

Lemma inv_boot : inv [boot addrs id] (boot addrs id).
Proof.
  assert (forall z T v, ~ voted [boot addrs id] z T v) as Hnv.
  { intros z T v (Hv & c & n & ->%list_elem_of_singleton & [_ ->]%boot_nodes & _ & <-). done. }
  assert (forall T a, ~ led [boot addrs id] T a) as Hnl.
  { intros T a (c & n & ->%list_elem_of_singleton & [_ ->]%boot_nodes & _ & ?). done. }
  split; [split|by intros m ?%not_elem_of_nil|done].
  - intros a Ha. cbn. destruct (list_to_map _ !! a) as [n|] eqn:E; [eauto|]. exfalso.
    apply not_elem_of_list_to_map_2 in E. apply E. rewrite <- list_fmap_compose. apply list_elem_of_fmap. by exists a.
  - intros a n [Ha ->]%boot_nodes. by apply fresh_node_ok.
  - intros z T v Hv. by apply Hnv in Hv.
  - intros T z v n _ Hv. by apply Hnv in Hv.
  - intros T z v w _ Hv. by apply Hnv in Hv.
  - intros T a Hl. by apply Hnl in Hl.
Qed.

Lemma inv_trace c0 tr : c0 = boot addrs id -> trace writes_ok c0 tr -> exists c, head tr = Some c /\ inv tr c.
Proof using Haddrs Hinj Hid.
  intros -> Htr. induction Htr as [|c c' tr Htr (c1 & [= <-] & IH) Hst]; [by eexists; split; [|apply inv_boot]|].
  exists c'. split; [done|]. by apply (inv_step _ c); [left| |].
Qed.
End election.

(** Distinct addresses; distinct, non-empty identifiers that fit the file. *)
Definition config_ok (addrs : list bytes) (id : bytes -> bytes) : Prop :=
  NoDup addrs /\ (forall a b, a ∈ addrs -> b ∈ addrs -> id a = id b -> a = b) /\
  forall a, a ∈ addrs -> id a <> [] /\ len (id a) + 12 < 2 ^ 32.

(** C6.  Election safety.  In every run of a cluster, over any interleaving of
    timeouts, messages that are delayed, repeated, reordered or lost, log-disk
    faults and restarts, as long as the term files are written: nodes that
    lead the same term, at the same or at different times, are one node. *)
Theorem raft_election_safety :
  forall (addrs : list bytes) (id : bytes -> bytes) (tr : list Cluster) (c1 c2 : Cluster) (a b : bytes) (n1 n2 : Raft),
  config_ok addrs id -> trace writes_ok (boot addrs id) tr -> c1 ∈ tr -> c2 ∈ tr ->
  c_nodes c1 !! a = Some n1 -> c_nodes c2 !! b = Some n2 ->
  r_state n1 = Leader -> r_state n2 = Leader -> r_currentTerm n1 = r_currentTerm n2 -> a = b.
Proof.
  intros addrs id tr c1 c2 a b n1 n2 (Haddrs & Hinj & Hid) Htr Hc1 Hc2 Ha Hb Hs1 Hs2 Ht.
  destruct (inv_trace addrs id Haddrs Hinj Hid _ _ eq_refl Htr) as (c & _ & Hinv).
  eapply (led_unique addrs id Hinj); [apply Hinv|exists c1, n1|exists c2, n2]; done.
Qed.

(** A cluster of three nodes whose first node is elected. *)
Definition three : list bytes := [[x61]; [x62]; [x63]].
Definition trio : Cluster := boot three (fun a => a).
Definition elect_a : list event :=
  [EvTimeout [x61] rio_ok; EvDeliver 0 rio_ok; EvDeliver 0 rio_ok; EvCount [x61] 1 [x62]; EvWon [x61] 1 [x62]].

Lemma three_config : config_ok three (fun a => a).
Proof.
  split_and!; [repeat constructor; rewrite ?elem_of_cons, ?elem_of_nil; naive_solver|done|].
  intros a Ha. unfold three in Ha. rewrite !elem_of_cons in Ha. by destruct Ha as [-> |[-> |[-> |?%not_elem_of_nil]]].
Qed.

Lemma raft_election_safety_witness :
  exists tr c n, trace writes_ok trio tr /\ c ∈ tr /\ c_nodes c !! [x61] = Some n /\
    r_state n = Leader /\ r_currentTerm n = 1 /\
    forall c' b n', c' ∈ tr -> c_nodes c' !! b = Some n' -> r_state n' = Leader -> r_currentTerm n' = 1 -> b = [x61].
Proof.
  destruct (run_ends writes_ok trio elect_a) as [tr Htr]; [repeat constructor|vm_compute; reflexivity|].
  set (c := last_state trio elect_a) in *. set (n := node_of [x61] c).
  assert (c_nodes c !! [x61] = Some n) as Hn by (vm_compute; reflexivity).
  assert (r_state n = Leader) as Hs by (vm_compute; reflexivity).
  assert (r_currentTerm n = 1) as Ht by (vm_compute; reflexivity).
  exists (c :: tr), c, n. split; [exact Htr|]. split; [left|]. split; [exact Hn|]. split; [exact Hs|]. split; [exact Ht|].
  intros c' b n' Hc' Hb Hs' Ht'. symmetry.
  apply (raft_election_safety three (fun a => a) (c :: tr) c c' [x61] b n n' three_config Htr); try assumption; [left|congruence].
Defined.
