(* ===== verification/RaftFaults.v ===== *)
(** * Where raft/raft.go falls short of Raft

    Scheduled runs of the cluster model: a vote whose file was not written can
    be cast twice; a pending proposal that was overwritten can be acknowledged;
    a cluster of one node has no leader. *)

From S2P Require Import Prelude GoStd Protocol RaftLog Raft RaftSystem RaftElection.

Definition no_open : RIO := mkRIO (fun _ => WriteNoOpen) (Ok []) (Ok []).

(** Node b votes for a, its file is not written, it restarts and votes for c. *)
Definition two_leaders : list event :=
  [EvTimeout [x61] rio_ok; EvDeliver 0 no_open; EvDeliver 0 rio_ok; EvCount [x61] 1 [x62]; EvWon [x61] 1 [x62];
   EvRestart [x62] rio_ok 0; EvTimeout [x63] rio_ok; EvDeliver 1 rio_ok; EvDeliver 0 rio_ok;
   EvCount [x63] 1 [x62]; EvWon [x63] 1 [x62]].

(** C37.  The hypothesis of election safety is needed: the error of the write
    of the term file is dropped, so a node that could not record its vote
    grants it, forgets it when it restarts, and votes again; two nodes then
    lead term 1 at the same time. *)
Theorem raft_unwritten_vote_two_leaders :
  exists (tr : list Cluster) (c : Cluster) (n1 n2 : Raft),
    trace (fun _ => True) trio (c :: tr) /\
    c_nodes c !! [x61] = Some n1 /\ c_nodes c !! [x63] = Some n2 /\
    r_state n1 = Leader /\ r_state n2 = Leader /\ r_currentTerm n1 = 1 /\ r_currentTerm n2 = 1.
Proof.
  destruct (run_ends (fun _ => True) trio two_leaders) as [tr Htr]; [by repeat constructor|vm_compute; reflexivity|].
  exists tr, (last_state trio two_leaders), (node_of [x61] (last_state trio two_leaders)), (node_of [x63] (last_state trio two_leaders)).
  split; [exact Htr|]. split_and!; vm_compute; reflexivity.
Qed.

(** Node a, cut off, appends a command; c takes over, commits another one at
    that index and overwrites a's; a is elected again and commits the next. *)
Definition takeover : list event :=
  [EvPropose [x61] CmdRaftPut [x78];
   EvTimeout [x63] rio_ok; EvTimeout [x63] rio_ok; EvDeliver 1 rio_ok; EvDeliver 0 rio_ok;
   EvCount [x63] 2 [x62]; EvWon [x63] 2 [x62];
   EvPropose [x63] CmdRaftPut [x79]; EvReplicate [x63] [x62]; EvDeliver 0 rio_ok; EvDeliver 0 rio_ok;
   EvReplicate [x63] [x61]; EvDeliver 0 rio_ok;
   EvTimeout [x61] rio_ok; EvDeliver 0 rio_ok; EvDeliver 0 rio_ok; EvCount [x61] 3 [x62]; EvWon [x61] 3 [x62];
   EvPropose [x61] CmdRaftPut [x7a]; EvReplicate [x61] [x62]; EvDeliver 0 rio_ok; EvDeliver 0 rio_ok].

(** A pending proposal is not failed when its leader steps down, and is
    matched by index alone when the node leads again: in some run, on healthy
    disks, [Propose] accepts a command, another leader overwrites it, and the
    caller is later told it was committed although no node's log holds it. *)
Theorem raft_acks_overwritten_proposal :
  exists (tr : list Cluster) (c0 c : Cluster) (n0 n : Raft) (p : proposal),
    trace writes_ok trio (c :: tr) /\ c0 ∈ c :: tr /\
    c_nodes c0 !! [x61] = Some n0 /\ fst (Propose CmdRaftPut [x78] n0) = Ok p /\
    c_nodes c !! [x61] = Some n /\ Propose_wait WakeDone p n = Some None /\
    forall b m e, c_nodes c !! b = Some m -> e ∈ rl_entries (r_log m) -> Data e <> [x78].
Proof.
  destruct (run_passes writes_ok trio elect_a takeover) as (tr & Htr & Hc0); [by repeat constructor|vm_compute; reflexivity|].
  exists tr, (last_state trio elect_a), (last_state trio (elect_a ++ takeover)), (node_of [x61] (last_state trio elect_a)),
    (node_of [x61] (last_state trio (elect_a ++ takeover))), (mkProposal 1 0).
  split; [exact Htr|]. split; [exact Hc0|].
  split; [vm_compute; reflexivity|]. split; [vm_compute; reflexivity|].
  split; [vm_compute; reflexivity|]. split; [vm_compute; reflexivity|].
  intros b m e Hb He Hd. apply elem_of_map_to_list in Hb.
  assert (Forall (fun kv => Forall (fun e => Data e <> [x78]) (rl_entries (r_log kv.2)))
    (map_to_list (c_nodes (last_state trio (elect_a ++ takeover))))) as Hall.
  { vm_compute. repeat constructor; discriminate. }
  rewrite Forall_forall in Hall. specialize (Hall _ Hb). rewrite Forall_forall in Hall. by apply (Hall e).
Qed.

(** The log file of a restarted node whose next write fails. *)
Definition bad_log : RIO := mkRIO (fun _ => Written) (Ok []) (Ok [Some 0%nat]).

(** Node b cannot write the entry of leader a but reports success; c is
    elected by b and commits another entry at that index. *)
Definition lost_append : list event := [EvRestart [x62] bad_log 0] ++ elect_a ++
  [EvPropose [x61] CmdRaftPut [x78]; EvReplicate [x61] [x62]; EvDeliver 0 rio_ok; EvDeliver 0 rio_ok;
   EvTimeout [x63] rio_ok; EvTimeout [x63] rio_ok; EvDeliver 1 rio_ok; EvDeliver 0 rio_ok; EvCount [x63] 2 [x62]; EvWon [x63] 2 [x62];
   EvPropose [x63] CmdRaftPut [x79]; EvReplicate [x63] [x62]; EvDeliver 0 rio_ok; EvDeliver 0 rio_ok].

(** The healthy logs of state machine safety are needed: the error of
    [Log.Append] is dropped and the request is answered with success, so one
    failed write on a follower lets a leader commit and acknowledge an entry
    that only it stores, and another leader commit a different one at the same
    index. *)
Theorem raft_unwritten_entry_commits :
  exists (tr : list Cluster) (c : Cluster) (n1 n3 : Raft) (e1 e3 : LogEntry),
    trace writes_ok trio (c :: tr) /\
    c_nodes c !! [x61] = Some n1 /\ c_nodes c !! [x63] = Some n3 /\
    r_commitIndex n1 = 1 /\ r_commitIndex n3 = 1 /\ Propose_wait WakeDone (mkProposal 1 0) n1 = Some None /\
    rl_entries (r_log n1) = [e1] /\ rl_entries (r_log n3) = [e3] /\ Data e1 = [x78] /\ Data e3 = [x79].
Proof.
  destruct (run_ends writes_ok trio lost_append) as [tr Htr]; [by repeat constructor|vm_compute; reflexivity|].
  exists tr, (last_state trio lost_append), (node_of [x61] (last_state trio lost_append)), (node_of [x63] (last_state trio lost_append)),
    (mkLogEntry 1 1 CmdRaftPut [x78]), (mkLogEntry 2 1 CmdRaftPut [x79]).
  split; [exact Htr|]. split_and!; vm_compute; reflexivity.
Qed.

(** ** One node *)

(** Nobody leads, and no goroutine waits for a vote. *)
Definition lonely (c : Cluster) : Prop :=
  (forall a n, c_nodes c !! a = Some n -> r_state n <> Leader /\ r_peers n = []) /\
  forall k e, c_elections c !! k = Some e -> el_phase e = ∅.

Lemma lonely_node c a n n' els msgs :
  lonely c -> c_nodes c !! a = Some n -> same_ids n n' -> (r_state n' = Leader -> r_state n = Leader) ->
  (forall k e, els !! k = Some e -> c_elections c !! k = Some e \/ el_phase e = ∅) ->
  lonely (mkCluster (<[a:=n']> (c_nodes c)) els msgs).
Proof.
  intros [H1 H2] Hn (_ & Hp & _) Hs Hels. destruct (H1 _ _ Hn) as [Hl Hpe]. split.
  - intros b m Hm. cbn in Hm. destruct (decide (b = a)) as [-> | Hne].
    + rewrite lookup_insert_eq in Hm. injection Hm as <-. split; [auto|congruence].
    + rewrite lookup_insert_ne in Hm by done. by apply H1 in Hm.
  - intros k e He. cbn in He. destruct (Hels k e He); eauto.
Qed.

Lemma lonely_quiet c a n n' msgs :
  lonely c -> c_nodes c !! a = Some n -> same_role n n' -> lonely (mkCluster (<[a:=n']> (c_nodes c)) (c_elections c) msgs).
Proof. intros Hl Hn (Hids & _ & _ & Hs & _). eapply lonely_node; [done..|by rewrite Hs|auto]. Qed.

Lemma lonely_role c a n n' st T v msgs :
  lonely c -> c_nodes c !! a = Some n -> role_is st T v n n' -> st <> Leader \/ st = r_state n ->
  lonely (mkCluster (<[a:=n']> (c_nodes c)) (c_elections c) msgs).
Proof.
  intros Hl Hn (Hids & _ & _ & Hs & _) Hst. eapply lonely_node; [done..| |auto]. rewrite Hs. by destruct Hst as [|<-].
Qed.

Lemma lonely_step c c' : lonely c -> (forall a n, c_nodes c !! a = Some n -> persisted n /\ role_fits n) ->
  step writes_ok c c' -> lonely c'.
Proof.
  intros Hl Hp Hst. pose proof Hl as [Hno Hel].
  destruct Hst as [a n io x n' Hn Hio HT E | src a args n io x n' Hm Hn Hio E | p a args reply e n io x n' Hm He Hph Hn Hio E
    | a T p e He Hph | a T p e n x n' He Hph Hn E | a p n x n' Hn Hp' E | src a args n io x n' Hm Hn Hio E
    | p a args reply n io x n' Hm Hn Hio E | a cmd data n x n' Hn _ _ E | a n x n' Hn _ _ E | a n x n' Hn E | a n e ch Hn _
    | a n io k n' Hn Hio E].
  - rewrite Hio in E. destruct (startElection_role n) as (e & n1 & E' & Hr & _ & _ & _ & _ & Hphase).
    rewrite E in E'. injection E' as -> ->. destruct Hr as (Hids & _ & _ & Hs & _). eapply lonely_node; [done..|by rewrite Hs|].
    intros k e' He'. destruct (decide ((a, va_Term (el_args e)) = k)) as [<- |Hne].
    + rewrite lookup_insert_eq in He'. injection He' as <-. right. rewrite Hphase. by destruct (Hno _ _ Hn) as [_ ->].
    + rewrite lookup_insert_ne in He' by done. by left.
  - destruct (handleRequestVote_role _ _ _ _ _ Hio E) as [(_ & [Hr|[Hr _]])|(_ & st & Hr & Hcase)].
    + by eapply lonely_quiet.
    + eapply lonely_role; [done..|by left].
    + eapply lonely_role; [done..|]. destruct Hcase as [[_ ->]|(_ & -> & _)]; [by left|by right].
  - apply Hel in He. by rewrite He in Hph.
  - apply Hel in He. by rewrite He in Hph.
  - apply Hel in He. by rewrite He in Hph.
  - eapply lonely_quiet; [done..|by eapply quiet_replicateTo].
  - destruct (handleAppendEntries_role _ _ _ _ _ Hio E) as [Hr|[Hr _]]; [by eapply lonely_quiet|eapply lonely_role; [done..|by left]].
  - rewrite Hio in E.
    destruct (append_reply_role _ _ _ _ _ _ E) as [Hr|[Hr _]]; [by eapply lonely_quiet|eapply lonely_role; [done..|by left]].
  - eapply lonely_quiet; [done..|by eapply quiet_Propose].
  - eapply lonely_quiet; [done..|by eapply quiet_apply_begin].
  - eapply lonely_quiet; [done..|by eapply quiet_apply_one].
  - eapply lonely_quiet; [done..|by repeat split].
  - destruct (Hp _ _ Hn) as [Hpe Hfit]. apply NewRaft_role in E as (Hids & _ & _ & Hs & _); [|done..].
    eapply lonely_node; [done..|by rewrite Hs|]. intros key e [He _]%map_lookup_filter_Some. by left.
Qed.

(** C38.  A cluster of one node never has a leader: the vote for oneself is
    counted only when a peer answers, so whatever the node does it never
    accepts a proposal. *)
Theorem raft_single_node_never_leads :
  forall (a nodeID : bytes) (tr : list Cluster) (c : Cluster) (b : bytes) (n : Raft),
  nodeID <> [] -> len nodeID + 12 < 2 ^ 32 ->
  trace writes_ok (boot [a] (fun _ => nodeID)) tr -> c ∈ tr -> c_nodes c !! b = Some n ->
  r_state n <> Leader /\ forall cmd data, fst (Propose cmd data n) = Err ErrNotLeader.
Proof.
  intros a nodeID tr c b n Hne Hlen Htr Hc Hn.
  assert (config_ok [a] (fun _ => nodeID)) as (Haddrs & Hinj & Hid).
  { split_and!; [apply NoDup_singleton| |done]. by intros x y ->%list_elem_of_singleton ->%list_elem_of_singleton. }
  assert (forall c, c ∈ tr -> lonely c) as Hall.
  { clear c Hc Hn. induction Htr as [|c c' tr Htr IH Hst]; intros c1 Hc1.
    - apply list_elem_of_singleton in Hc1 as ->. split; [|done].
      intros b' n' [Hb ->]%boot_nodes. split; [done|]. apply list_elem_of_singleton in Hb as ->. cbn.
      by rewrite decide_False by (intros H; by apply H).
    - apply elem_of_cons in Hc1 as [-> |Hc1]; [|auto].
      destruct (inv_trace [a] (fun _ => nodeID) Haddrs Hinj Hid _ _ eq_refl Htr) as (c2 & [= <-] & Hinv).
      eapply lonely_step; [apply IH; left| |done]. intros b' n' Hn'.
      destruct (vo_nodes _ _ _ _ (inv_votes _ _ _ _ Hinv) _ _ Hn') as [_ _ H3 H4 H5 _]. split; [done|split; [done|]].
      by destruct H5 as [-> |(d & _ & ->)]. }
  destruct (Hall c Hc) as [Hno _]. destruct (Hno _ _ Hn) as [Hs _]. split; [done|]. intros cmd' data'.
  unfold Propose. rewrite M_get_bind. by rewrite bool_decide_false.
Qed.

Lemma raft_single_node_never_leads_witness :
  exists tr c n, trace writes_ok (boot [[x61]] (fun _ => [x6e])) tr /\ c ∈ tr /\ c_nodes c !! [x61] = Some n /\
    r_state n = Candidate /\ r_state n <> Leader.
Proof.
  destruct (run_ends writes_ok (boot [[x61]] (fun _ => [x6e])) [EvTimeout [x61] rio_ok]) as [tr Htr];
    [repeat constructor|vm_compute; reflexivity|].
  eexists _, _, (node_of [x61] (last_state (boot [[x61]] (fun _ => [x6e])) [EvTimeout [x61] rio_ok])).
  split; [exact Htr|]. split; [left|]. split; [vm_compute; reflexivity|]. split; [vm_compute; reflexivity|].
  refine (proj1 (raft_single_node_never_leads [x61] [x6e] _ _ [x61] _ _ _ Htr _ _));
    [discriminate|vm_compute; reflexivity|left|vm_compute; reflexivity].
Defined.

(** ** The term file *)

(** The term file.  Loading what [persistState] wrote gives the term and
    the vote back; a write cut inside the vote gives the term without a vote,
    one cut before it neither; a write that could not open the file leaves the
    earlier one. *)
Theorem raft_state_file_roundtrip :
  forall (w : write_outcome) (n n' m m' : Raft),
  role_fits n -> persistState w n = (Ok tt, n') ->
  r_stateFile m = r_stateFile n' -> r_currentTerm m = 0 -> r_votedFor m = [] -> loadState None m = (Ok tt, m') ->
  match w with
  | Written => r_currentTerm m' = r_currentTerm n /\ r_votedFor m' = r_votedFor n
  | WriteNoOpen => r_stateFile m = r_stateFile n
  | WriteShort k =>
      if (k <? 12)%nat then r_currentTerm m' = 0 /\ r_votedFor m' = []
      else r_currentTerm m' = r_currentTerm n /\ r_votedFor m' = if 12 + len (r_votedFor n) <=? Z.of_nat k then r_votedFor n else []
  end.
Proof.
  intros w n n' m m' [Ht Hv] Hp Hf H0 H1 Hl. unfold persistState in Hp. injection Hp as <-. destruct w as [| |k].
  - rewrite (loadState_encoded _ _ _ Hf) in Hl by done. by injection Hl as <-.
  - exact Hf.
  - pose proof (len_nonneg (r_votedFor n)). unfold set_stateFile, encode_state in Hf. cbn in Hf.
    destruct (Nat.ltb_spec k 12) as [Hk|Hk].
    + unfold loadState in Hl. rewrite M_get_bind in Hl. rewrite Hf in Hl. rewrite (proj2 (Z.ltb_lt _ _)) in Hl.
      * injection Hl as <-. done.
      * unfold len. rewrite length_take. lia.
    + rewrite app_assoc, take_app_ge, <- app_assoc in Hf by (rewrite length_app, !length_putLE; lia).
      rewrite (loadState_bytes _ _ (r_votedFor n) _ Hf) in Hl; [|apply prefix_take|done|done].
      injection Hl as <-. split; [done|]. cbn [r_votedFor set_role].
      unfold len. rewrite length_take, length_app, !length_putLE.
      destruct (Z.leb_spec (12 + Z.of_nat (length (r_votedFor n))) (Z.of_nat k));
        [rewrite (proj2 (Z.leb_le _ _)) by lia|rewrite (proj2 (Z.leb_gt _ _)) by lia]; done.
Qed.

