(* ===== verification/RaftLogs.v ===== *)
(** * What Raft transitions do to logs, on healthy disks

    On a log numbered from 1 whose file holds its entries, the operations of
    raft/log.go are list operations; every transition of raft/raft.go is then
    described by its effect on the list of entries, the commit index and the
    leader's indices. *)

From S2P Require Import Prelude GoStd Protocol RaftLog Raft RaftSystem.

Abbreviation entries n := (rl_entries (r_log n)).

(** Disks that do not fail. *)
Definition healthy_io (io : RIO) : Prop := writes_ok io /\ rio_create io = Ok [] /\ rio_open io = Ok [].

Record log_ok (l : Log) : Prop := {
  lo_index : from_index 1 (rl_entries l);
  lo_len : len (rl_entries l) + 1 < 2 ^ 64;
  lo_clean : log_clean l;
  lo_file : healthy (rl_file l)
}.

(** The entry with index [idx]. *)
Definition at_index (es : list LogEntry) (idx : Z) : option LogEntry :=
  if 0 <? idx then es !! Z.to_nat (idx - 1) else None.

Definition last_term (es : list LogEntry) : Z := match last es with None => 0 | Some e => Term e end.

Section ops.
Context (l : Log).
Hypothesis Hl : log_ok l.

Lemma LastIndex_len : Log_LastIndex l = Ok (len (rl_entries l)).
Proof using Hl.
  rewrite LastIndex_ok. f_equal. destruct (last (rl_entries l)) as [e|] eqn:E.
  - rewrite last_lookup in E. rewrite (lo_index l Hl _ _ E). apply lookup_lt_Some in E. unfold len. lia.
  - apply last_None in E. by rewrite E.
Qed.

Lemma GetEntry_at idx : 0 <= idx -> Log_GetEntry idx l = Ok (at_index (rl_entries l) idx).
Proof using Hl.
  intros Hi. pose proof (lo_len l Hl). rewrite (GetEntry_ok l 1); [|lia..|apply Hl|done]. f_equal. unfold at_index.
  destruct (Z.ltb_spec 0 idx).
  - rewrite (filter_index 1); [done|apply Hl|lia].
  - rewrite filter_drop; [done|]. apply Forall_forall. intros e [i He]%list_elem_of_lookup. rewrite (lo_index l Hl _ _ He). lia.
Qed.

Lemma GetEntriesFrom_drop idx : 1 <= idx -> Log_GetEntriesFrom idx l = Ok (drop (Z.to_nat (idx - 1)) (rl_entries l)).
Proof using Hl.
  intros Hi. pose proof (lo_len l Hl). rewrite (GetEntriesFrom_ok l 1); [|lia..|apply Hl|lia]. f_equal.
  apply (filter_from 1); [apply Hl|lia].
Qed.

Lemma TruncateFrom_take idx :
  1 <= idx -> exists l', Log_TruncateFrom (Ok []) idx l = (Ok tt, l') /\
    rl_entries l' = take (Z.to_nat (idx - 1)) (rl_entries l) /\ log_ok l'.
Proof using Hl.
  intros Hi. pose proof (lo_len l Hl).
  destruct (TruncateFrom_ok l 1 idx) as (l' & E & He & Hc & Hf); [lia|lia|apply Hl|apply Hl|lia|]. exists l'.
  destruct (filter_from 1 (rl_entries l) idx) as [_ Ht]; [apply Hl|lia|]. rewrite Ht in He. split_and!; [done..|].
  split; [| |done|].
  - intros i e. rewrite He. intros [Hlk _]%lookup_take_Some. by apply (lo_index l Hl).
  - rewrite He. unfold len in *. rewrite length_take. lia.
  - destruct Hf as [-> |]; [apply Hl|done].
Qed.

Lemma Append_app new :
  (forall i e, new !! i = Some e -> Index e = 1 + len (rl_entries l) + Z.of_nat i) ->
  Forall logentry_fits new -> len (rl_entries l) + len new + 1 < 2 ^ 64 ->
  exists l', Log_Append new l = (Ok tt, l') /\ rl_entries l' = rl_entries l ++ new /\ log_ok l'.
Proof using Hl.
  intros Hidx Hfit Hlen. destruct (Log_Append_healthy new l) as (l' & E & He & Hc & Hf); [apply Hl|apply Hl|done|].
  exists l'. split_and!; [done..|]. split; [| |done|done].
  - intros i e. rewrite He. intros [Hlk|[Hge Hlk]]%lookup_app_Some; [by apply (lo_index l Hl)|].
    rewrite (Hidx _ _ Hlk). unfold len. lia.
  - rewrite He, len_app. lia.
Qed.

(** Reopening after a power failure. *)
Lemma OpenLog_same k : exists l', OpenLog (Ok []) (crash k (rl_file l)) = Ok l' /\ rl_entries l' = rl_entries l /\ log_ok l'.
Proof using Hl.
  pose proof Hl as [H1 H2 [C1 C2 C3] H4]. unfold OpenLog. rstep.
  assert (contents (crash k (rl_file l)) = encode_log (rl_entries l)) as Hc.
  { cbn. rewrite take_ge by lia. done. }
  rewrite Hc. destruct (log_replay_prefix (rl_entries l) [] [] (S (length (encode_log (rl_entries l))))) as (i & Ei & _);
    [done|constructor|done|rewrite app_nil_r; lia|].
  rewrite app_nil_r in Ei. rewrite Ei. rstep. eexists. split; [done|]. rewrite take_nil, app_nil_r. split; [done|].
  split; cbn; rewrite ?take_nil, ?app_nil_r; [done|done| |done]. split; cbn; rewrite ?take_nil, ?app_nil_r; [done| |done].
  rewrite take_ge, C1 in * by lia. done.
Qed.
End ops.

(** ** Transitions that leave the logs alone *)

Definition same_logs (n n' : Raft) : Prop :=
  r_log n' = r_log n /\ r_commitIndex n' = r_commitIndex n /\ r_lastApplied n' = r_lastApplied n /\
  r_applyCh n' = r_applyCh n /\ r_applying n' = r_applying n /\
  r_nextIndex n' = r_nextIndex n /\ r_matchIndex n' = r_matchIndex n.

#[global] Instance same_logs_refl : Reflexive same_logs.
Proof. by intros n. Qed.

#[global] Instance same_logs_trans : Transitive same_logs.
Proof. intros n1 n2 n3 (?&?&?&?&?&?&?) (?&?&?&?&?&?&?). repeat split; congruence. Qed.

Abbreviation still m := (keeps same_logs m).

Lemma still_persistState w : still (persistState w).
Proof. apply (keeps_modify _). intros n. by destruct w. Qed.
#[export] Hint Resolve still_persistState : quiet.

Lemma still_becomeFollower w T id : still (becomeFollowerLocked w T id).
Proof. unfold becomeFollowerLocked. quiet. Qed.
#[export] Hint Resolve still_becomeFollower : quiet.

Lemma still_startElection w : still (startElection w).
Proof. unfold startElection. quiet. Qed.

Lemma still_vote_reply w reply : still (vote_reply w reply).
Proof. unfold vote_reply. quiet. Qed.

Lemma still_handleRequestVote io args : still (handleRequestVote io args).
Proof. unfold handleRequestVote. quiet. Qed.

(** ** Votes and logs *)

(** A candidate with log [C] may have the vote of a node with log [L]. *)
Definition uptodate (C L : list LogEntry) : Prop :=
  last_term L < last_term C \/ last_term C = last_term L /\ len L <= len C.

Lemma startElection_args w n e n' :
  log_ok (r_log n) -> startElection w n = (Ok e, n') ->
  va_LastLogIndex (el_args e) = len (entries n) /\ va_LastLogTerm (el_args e) = last_term (entries n).
Proof.
  intros Hl. unfold startElection. mrun. cbn [r_log set_leader set_role]. rewrite LastIndex_len, LastTerm_ok by done. mrun.
  unfold persistState. mrun. by intros [= <- _].
Qed.

Lemma handleRequestVote_uptodate io args n reply n' C :
  log_ok (r_log n) -> handleRequestVote io args n = (Ok reply, n') -> vr_VoteGranted reply = true ->
  va_LastLogIndex args = len C -> va_LastLogTerm args = last_term C -> uptodate C (entries n).
Proof.
  intros Hl E Hg HC1 HC2. revert E. unfold handleRequestVote. mrun. head_if; [by intros [= <- _]|].
  intros E. minv E. assert (r_log s = r_log n) as Hs.
  { revert E0. head_if; [intros H%still_becomeFollower; apply H|by intros [= _ <-]]. }
  revert E. mrun. head_if; [by intros [= <- _]|]. rewrite Hs, LastTerm_ok, LastIndex_len by done. mrun.
  head_if as H1; [by intros [= <- _]|]. head_if as H2; [by intros [= <- _]|]. intros _.
  change (match last (entries n) with None => 0 | Some e => Term e end) with (last_term (entries n)) in *.
  rewrite HC1, HC2 in *. unfold uptodate. destruct (Z.eqb_spec (last_term C) (last_term (entries n))); simpl in H2; lia.
Qed.

(** ** Becoming leader *)

Lemma map_get_eq m k v : map_get (<[k:=v]> m) k = v.
Proof. unfold map_get. by rewrite lookup_insert_eq. Qed.

Lemma map_get_ne m k k' v : k' <> k -> map_get (<[k:=v]> m) k' = map_get m k'.
Proof. intros H. unfold map_get. by rewrite lookup_insert_ne. Qed.

Lemma set_all_get keys v m k : map_get (set_all keys v m) k = if bool_decide (k ∈ keys) then v else map_get m k.
Proof.
  unfold set_all. revert m. induction keys as [|k' keys IH]; intros m; cbn [fold_left]; [by rewrite bool_decide_false by apply not_elem_of_nil|].
  rewrite IH. destruct (decide (k ∈ keys)) as [Hin|Hni].
  - by rewrite !bool_decide_true by (done || by right).
  - rewrite (bool_decide_false (k ∈ keys)) by done. destruct (decide (k = k')) as [-> |Hne].
    + rewrite bool_decide_true by left. apply map_get_eq.
    + rewrite bool_decide_false by (by intros [|]%elem_of_cons). by apply map_get_ne.
Qed.

Lemma vote_won_logs args n x n' :
  log_ok (r_log n) -> vote_won args n = (x, n') ->
  n' = n \/
  same_ids n n' /\ r_currentTerm n = va_Term args /\ r_state n = Candidate /\ r_state n' = Leader /\
  r_currentTerm n' = r_currentTerm n /\ r_votedFor n' = r_votedFor n /\
  r_log n' = r_log n /\ r_commitIndex n' = r_commitIndex n /\ r_lastApplied n' = r_lastApplied n /\
  r_applyCh n' = r_applyCh n /\ r_applying n' = r_applying n /\
  forall p, p ∈ r_peers n -> p <> r_addr n ->
    map_get (r_nextIndex n') p = len (entries n) + 1 /\ map_get (r_matchIndex n') p = 0.
Proof.
  intros Hl. unfold vote_won. mrun. head_if as Hwon; [|intros [= _ <-]; by left].
  apply andb_true_iff in Hwon as [Hs%bool_decide_eq_true Ht%Z.eqb_eq].
  unfold becomeLeaderLocked. mrun. cbn [r_log set_leader set_role]. rewrite LastIndex_len by done. mrun.
  intros [= _ <-]. right. cbn. split; [by repeat split|]. split_and!; [done..|]. intros p Hp Hne. pose proof (lo_len _ Hl). pose proof (len_nonneg (entries n)).
  rewrite set_all_get, bool_decide_true by done. unfold u64. rewrite Z.mod_small by lia. split; [done|].
  by rewrite map_get_ne, set_all_get, bool_decide_true.
Qed.

(** ** Replication *)

Lemma replicateTo_run p n :
  log_ok (r_log n) -> 1 <= map_get (r_nextIndex n) p <= len (entries n) + 1 -> r_state n = Leader ->
  exists pt, replicateTo p n = (Ok (Some (mkAppendArgs (r_currentTerm n) (r_addr n) (map_get (r_nextIndex n) p - 1) pt
      (drop (Z.to_nat (map_get (r_nextIndex n) p - 1)) (entries n)) (r_commitIndex n))), n) /\
    (0 < map_get (r_nextIndex n) p - 1 -> exists e, at_index (entries n) (map_get (r_nextIndex n) p - 1) = Some e /\ Term e = pt).
Proof.
  intros Hl Hn Hs. unfold replicateTo. mrun. rewrite bool_decide_true by done. cbn [negb].
  set (nx := map_get (r_nextIndex n) p) in *. destruct (Z.ltb_spec 1 nx) as [Hlt|Hge].
  - rewrite (M_bind_run _ _ _ (nx - 1, match at_index (entries n) (nx - 1) with Some e => Term e | None => 0 end) n)
      by (rewrite GetEntry_at by (done || lia); done).
    rewrite GetEntriesFrom_drop by (done || lia). mrun. eexists. split; [done|]. intros _.
    unfold at_index. rewrite (proj2 (Z.ltb_lt 0 _)) by lia.
    destruct (lookup_lt_is_Some_2 (entries n) (Z.to_nat (nx - 1 - 1))) as [e He]; [unfold len in *; lia|].
    exists e. by rewrite He.
  - assert (nx = 1) as -> by lia. mrun. rewrite GetEntriesFrom_drop by (done || lia). mrun. exists 0. split; [done|lia].
Qed.

(** The same but for the commit index. *)
Definition same_but_commit (n n' : Raft) : Prop :=
  r_log n' = r_log n /\ r_lastApplied n' = r_lastApplied n /\ r_applyCh n' = r_applyCh n /\ r_applying n' = r_applying n /\
  r_nextIndex n' = r_nextIndex n /\ r_matchIndex n' = r_matchIndex n.

Lemma advance_from_run fuel m n :
  log_ok (r_log n) -> 0 <= r_commitIndex n -> m <= len (entries n) -> (Z.to_nat (m - r_commitIndex n) <= fuel)%nat ->
  exists n', advance_from fuel m n = (Ok tt, n') /\ same_but_commit n n' /\
    (r_commitIndex n' = r_commitIndex n \/
     r_commitIndex n < r_commitIndex n' <= m /\
     (exists e, at_index (entries n) (r_commitIndex n') = Some e /\ Term e = r_currentTerm n) /\
     (len (r_peers n) + 1) / 2 < replicas (r_commitIndex n') n).
Proof.
  intros Hl H0. revert m. induction fuel as [|fuel IH]; intros m Hm Hf; cbn [advance_from]; mrun.
  { rewrite (proj2 (Z.leb_le _ _)) by lia. exists n. split; [done|]. split; [by repeat split|by left]. }
  destruct (Z.leb_spec m (r_commitIndex n)) as [|Hgt].
  { exists n. split; [done|]. split; [by repeat split|by left]. }
  assert (exists n', advance_from fuel (m - 1) n = (Ok tt, n') /\ same_but_commit n n' /\
    (r_commitIndex n' = r_commitIndex n \/
     r_commitIndex n < r_commitIndex n' <= m /\
     (exists e, at_index (entries n) (r_commitIndex n') = Some e /\ Term e = r_currentTerm n) /\
     (len (r_peers n) + 1) / 2 < replicas (r_commitIndex n') n)) as Hrec.
  { destruct (IH (m - 1)) as (n' & E & Hsame & Hc); [lia..|]. exists n'. split_and!; [done..|].
    destruct Hc as [|(? & ? & ?)]; [by left|right]. split_and!; [lia|lia|done..]. }
  rewrite GetEntry_at by (done || lia). mrun.
  destruct (at_index (entries n) m) as [e|] eqn:He; [|done].
  destruct (Z.eqb_spec (Term e) (r_currentTerm n)) as [Ht|]; [|done]. cbn [negb].
  destruct (Z.ltb_spec ((len (r_peers n) + 1) / 2) (replicas m n)) as [Hc|]; [|done]. mrun.
  unfold resolveProposalsLocked, modify. cbn [r_commitIndex set_commit r_proposals r_done].
  destruct (resolve m (r_proposals n) (r_done n)) as [ps d]. eexists. split; [done|]. split; [by repeat split|].
  right. cbn. split_and!; [lia|lia|by exists e|done].
Qed.

(** What the reply to the request [args] changes in a leader. *)
Lemma append_reply_logs p args reply n x n' :
  log_ok (r_log n) -> 0 <= r_commitIndex n -> (forall e, last (aa_Entries args) = Some e -> 0 <= Index e < 2 ^ 64 - 1) ->
  append_reply Written p args reply n = (x, n') ->
  same_logs n n' \/
  same_role n n' /\ r_state n = Leader /\ r_currentTerm n = aa_Term args /\ r_log n' = r_log n /\ r_lastApplied n' = r_lastApplied n /\
  r_applyCh n' = r_applyCh n /\ r_applying n' = r_applying n /\
  ((1 < map_get (r_nextIndex n) p /\ r_commitIndex n' = r_commitIndex n /\ r_matchIndex n' = r_matchIndex n /\
    r_nextIndex n' = <[p:=map_get (r_nextIndex n) p - 1]> (r_nextIndex n)) \/
   (ar_Success reply = true /\
    match last (aa_Entries args) with
    | Some e => r_nextIndex n' = <[p:=Index e + 1]> (r_nextIndex n) /\ r_matchIndex n' = <[p:=Index e]> (r_matchIndex n)
    | None => r_nextIndex n' = r_nextIndex n /\ r_matchIndex n' = r_matchIndex n
    end /\
    (r_commitIndex n' = r_commitIndex n \/
     r_commitIndex n < r_commitIndex n' <= len (entries n) /\
     (exists e, at_index (entries n) (r_commitIndex n') = Some e /\ Term e = r_currentTerm n) /\
     (len (r_peers n) + 1) / 2 < replicas (r_commitIndex n') n'))).
Proof.
  intros Hl H0 Hidx. unfold append_reply. mrun. head_if; [intros E; left; by apply still_becomeFollower in E|].
  intros E. assert (same_role n n') as Hrole.
  { match type of E with ?m n = _ => assert (quiet m) as Hq by quiet end. by apply Hq in E. }
  revert E. head_if as Hlead; [intros [= _ <-]; by left|]. apply orb_false_iff in Hlead as [Hs Ht].
  apply negb_false_iff, bool_decide_eq_true in Hs. apply negb_false_iff, Z.eqb_eq in Ht.
  head_if as Hsuc.
  - set (upd := match last (aa_Entries args) with
      | Some e => set_indexes (<[p:=Index e + 1]> (r_nextIndex n)) (<[p:=Index e]> (r_matchIndex n)) n
      | None => n end).
    rewrite (M_bind_run _ _ _ tt upd).
    2: { unfold upd. destruct (aa_Entries args) as [|e es _] eqn:Ees using rev_ind; [done|].
         rewrite last_snoc in *. specialize (Hidx e eq_refl). pose proof (len_nonneg es).
         rewrite (proj2 (Z.ltb_lt _ _)) by len_lia.
         replace (len (es ++ [e]) - 1) with (Z.of_nat (length es)) by (unfold len; rewrite length_app; simpl; lia).
         erewrite index_ok by (by rewrite lookup_app_r, Nat.sub_diag by lia). mrun. unfold u64. by rewrite Z.mod_small by lia. }
    assert (r_log upd = r_log n /\ r_commitIndex upd = r_commitIndex n /\ r_currentTerm upd = r_currentTerm n /\ r_peers upd = r_peers n /\
      r_lastApplied upd = r_lastApplied n /\ r_applyCh upd = r_applyCh n /\ r_applying upd = r_applying n) as (U1 & U2 & U3 & U4 & U5 & U6 & U7).
    { unfold upd. by destruct (last (aa_Entries args)). }
    unfold advanceCommitIndexLocked. mrun. rewrite U1, LastIndex_len by done. mrun.
    destruct (advance_from_run (Z.to_nat (len (entries n) - r_commitIndex upd)) (len (entries n)) upd) as (n2 & E & (S1 & S2 & S3 & S4 & S5 & S6) & Hc);
      [by rewrite U1|lia|by rewrite U1|lia|].
    rewrite E. intros [= _ <-]. right. split; [done|]. split_and!; try congruence. right. split; [done|]. split.
    + rewrite S5, S6. unfold upd. by destruct (last (aa_Entries args)).
    + rewrite U1, U2, U3, U4 in Hc. destruct Hc as [|(? & ? & Hr)]; [by left|right]. split_and!; [lia|lia|done|].
      assert (replicas (r_commitIndex n2) n2 = replicas (r_commitIndex n2) upd) as ->; [|done].
      unfold replicas. rewrite S6. f_equal.
      pose proof (quiet_advance_from _ _ _ _ _ E) as ((_ & Hp & _) & _). done.
  - head_if as Hnx; [|intros [= _ <-]; by left]. apply Z.ltb_lt in Hnx. intros [= _ <-]. right. split; [done|]. split_and!; try done. by left.
Qed.

(** ** Proposals and application *)

Lemma Propose_logs cmd data n x n' :
  log_ok (r_log n) -> 0 <= r_currentTerm n < 2 ^ 64 -> len (entries n) + 2 < 2 ^ 64 -> len data < 2 ^ 32 ->
  Propose cmd data n = (x, n') ->
  n' = n \/
  r_state n = Leader /\ log_ok (r_log n') /\
  entries n' = entries n ++ [mkLogEntry (r_currentTerm n) (len (entries n) + 1) cmd data] /\
  r_commitIndex n' = r_commitIndex n /\ r_lastApplied n' = r_lastApplied n /\ r_applyCh n' = r_applyCh n /\
  r_applying n' = r_applying n /\ r_nextIndex n' = r_nextIndex n /\
  r_matchIndex n' = <[r_addr n:=len (entries n) + 1]> (r_matchIndex n).
Proof.
  intros Hl Ht Hlen Hd. unfold Propose. mrun. pose proof (len_nonneg (entries n)).
  head_if as Hs; [intros [= _ <-]; by left|]. apply negb_false_iff, bool_decide_eq_true in Hs.
  rewrite LastIndex_len by done. mrun. unfold u64. rewrite Z.mod_small by lia.
  set (e := mkLogEntry (r_currentTerm n) (len (entries n) + 1) cmd data).
  destruct (Append_app (r_log n) Hl [e]) as (l' & E & He & Hl').
  { intros [|i] e'; [intros [= <-]; cbn; lia|done]. }
  { constructor; [|constructor]. repeat split; cbn; lia. }
  { rewrite len_cons, len_nil. lia. }
  rewrite (M_bind_run _ _ _ tt (set_log l' n)) by (unfold on_log; by rewrite E). mrun.
  intros [= _ <-]. right. cbn. by split_and!.
Qed.

Lemma apply_begin_logs n x n' :
  r_lastApplied n + 1 < 2 ^ 64 -> 0 <= r_lastApplied n -> apply_begin n = (x, n') ->
  r_log n' = r_log n /\ r_commitIndex n' = r_commitIndex n /\ r_lastApplied n' = r_lastApplied n /\
  r_applyCh n' = r_applyCh n /\ r_nextIndex n' = r_nextIndex n /\ r_matchIndex n' = r_matchIndex n /\
  r_applying n' = Some (r_lastApplied n + 1, r_commitIndex n).
Proof. intros H1 H2 [= _ <-]. cbn. unfold u64. rewrite Z.mod_small by lia. by split_and!. Qed.

Lemma apply_one_logs n x n' :
  log_ok (r_log n) -> (forall i k, r_applying n = Some (i, k) -> 0 < i) -> apply_one n = (x, n') ->
  r_log n' = r_log n /\ r_commitIndex n' = r_commitIndex n /\ r_nextIndex n' = r_nextIndex n /\ r_matchIndex n' = r_matchIndex n /\
  (r_lastApplied n' = r_lastApplied n /\ r_applyCh n' = r_applyCh n /\ (r_applying n' = r_applying n \/ r_applying n' = None) \/
   exists i k e, r_applying n = Some (i, k) /\ i <= k /\ at_index (entries n) i = Some e /\
     r_lastApplied n' = i /\ r_applyCh n' = r_applyCh n ++ [e] /\ r_applying n' = Some (i + 1, k)).
Proof.
  intros Hl Hpos. unfold apply_one. mrun. destruct (r_applying n) as [[i k]|] eqn:Ea.
  2: { intros [= _ <-]. split_and!; [done..|]. left. rewrite Ea. auto. }
  specialize (Hpos i k eq_refl). head_if as Hik.
  { intros [= _ <-]. cbn. split_and!; [done..|]. left. auto. }
  rewrite GetEntry_at by (done || lia). mrun. destruct (at_index (entries n) i) as [e|] eqn:He.
  2: { intros [= _ <-]. cbn. split_and!; [done..|]. left. auto. }
  head_if.
  - mrun. intros [= _ <-]. cbn. split_and!; [done..|]. right. exists i, k, e.
    assert (i <= len (entries n)) as Hi.
    { unfold at_index in He. rewrite (proj2 (Z.ltb_lt 0 i)) in He by done. apply lookup_lt_Some in He. unfold len. lia. }
    pose proof (lo_len _ Hl). unfold u64. rewrite Z.mod_small by lia. split_and!; [done|lia|done..].
  - head_if; intros [= _ <-]; cbn; (split_and!; [done..|]); left; rewrite ?Ea; auto.
Qed.

(** ** The follower's side *)

(** The loop over new entries, as an operation on lists: [new] starts at
    position [k]. *)
Fixpoint reconcile (k : nat) (es new : list LogEntry) : list LogEntry :=
  match new with
  | [] => es
  | e :: rest =>
      match es !! k with
      | Some x => if Term x =? Term e then reconcile (S k) es rest else take k es ++ new
      | None => es ++ new
      end
  end.

Lemma ignore_run {St A} (m : M St A) s a s' : m s = (Ok a, s') -> ignore m s = (Ok tt, s').
Proof. unfold ignore. by intros ->. Qed.

Lemma on_log_run {A} (m : M Log A) n a l : m (r_log n) = (Ok a, l) -> on_log m n = (Ok a, set_log l n).
Proof. unfold on_log. by intros ->. Qed.

Lemma append_new_run new k n :
  log_ok (r_log n) -> (k <= length (entries n))%nat ->
  (forall i e, new !! i = Some e -> Index e = 1 + Z.of_nat k + Z.of_nat i) ->
  Forall logentry_fits new -> Z.of_nat k + len new + 1 < 2 ^ 64 ->
  exists l', append_new (Ok []) new n = (Ok tt, set_log l' n) /\ log_ok l' /\ rl_entries l' = reconcile k (entries n) new.
Proof.
  intros Hl. revert k. induction new as [|e new IH]; intros k Hk Hidx Hfit Hlen; cbn [append_new reconcile].
  { exists (r_log n). split; [by destruct n|done]. }
  mrun. pose proof (Hidx 0%nat e eq_refl) as He. rewrite len_cons in Hlen. pose proof (len_nonneg new).
  rewrite GetEntry_at by (done || lia). mrun. unfold at_index. rewrite (proj2 (Z.ltb_lt 0 _)) by lia.
  replace (Z.to_nat (Index e - 1)) with k by lia.
  assert (forall i e', (e :: new) !! i = Some e' -> Index e' = 1 + Z.of_nat k + Z.of_nat i) as Hnew by done.
  assert (len (e :: new) = 1 + len new) as Hln by apply len_cons.
  destruct (entries n !! k) as [x|] eqn:Hx.
  - destruct (Z.eqb_spec (Term x) (Term e)) as [|Hne]; cbn [negb].
    + apply lookup_lt_Some in Hx. apply IH; [lia| |by inversion Hfit|lia].
      intros i e' Hi. rewrite (Hidx (S i) e' Hi). lia.
    + destruct (TruncateFrom_take (r_log n) Hl (Index e)) as (l1 & E1 & He1 & Hl1); [lia|].
      replace (Z.to_nat (Index e - 1)) with k in He1 by lia.
      assert (len (rl_entries l1) = Z.of_nat k) as Hk1 by (rewrite He1; unfold len; rewrite length_take; lia).
      rewrite (M_bind_run _ _ _ _ _ (ignore_run _ _ _ _ (on_log_run _ _ _ _ E1))).
      destruct (Append_app l1 Hl1 (e :: new)) as (l2 & E2 & He2 & Hl2); [intros i e' Hi; rewrite (Hnew _ _ Hi); lia|done|lia|].
      rewrite (ignore_run _ _ _ _ (on_log_run _ (set_log l1 n) _ _ E2)). exists l2. by rewrite He2, He1.
  - apply lookup_ge_None in Hx. assert (len (entries n) = Z.of_nat k) as Hk1 by (unfold len; lia).
    destruct (Append_app (r_log n) Hl (e :: new)) as (l2 & E2 & He2 & Hl2); [intros i e' Hi; rewrite (Hnew _ _ Hi); lia|done|lia|].
    rewrite (ignore_run _ _ _ _ (on_log_run _ n _ _ E2)). by exists l2.
Qed.

(** What a follower's log becomes, and whether the request succeeds. *)
Definition follow_log (es : list LogEntry) (args : AppendEntriesArgs) : list LogEntry * bool :=
  if 0 <? aa_PrevLogIndex args then
    match at_index es (aa_PrevLogIndex args) with
    | None => (es, false)
    | Some e =>
        if Term e =? aa_PrevLogTerm args then (reconcile (Z.to_nat (aa_PrevLogIndex args)) es (aa_Entries args), true)
        else (take (Z.to_nat (aa_PrevLogIndex args - 1)) es, false)
    end
  else (reconcile 0 es (aa_Entries args), true).

Record args_ok (args : AppendEntriesArgs) : Prop := {
  ao_prev : 0 <= aa_PrevLogIndex args;
  ao_index : forall i e, aa_Entries args !! i = Some e -> Index e = 1 + aa_PrevLogIndex args + Z.of_nat i;
  ao_fits : Forall logentry_fits (aa_Entries args);
  ao_len : aa_PrevLogIndex args + len (aa_Entries args) + 1 < 2 ^ 64
}.

(** [n'] is [n] with another log and possibly commit index. *)
Definition log_commit (n n' : Raft) : Prop :=
  r_lastApplied n' = r_lastApplied n /\ r_applyCh n' = r_applyCh n /\ r_applying n' = r_applying n /\
  r_nextIndex n' = r_nextIndex n /\ r_matchIndex n' = r_matchIndex n.

Lemma handleAppendEntries_logs io args n x n' :
  healthy_io io -> log_ok (r_log n) -> args_ok args -> handleAppendEntries io args n = (x, n') ->
  (same_logs n n' /\ x = Ok (mkAppendReply (r_currentTerm n) false) /\ aa_Term args < r_currentTerm n) \/
  (r_currentTerm n <= aa_Term args /\ log_commit n n' /\ log_ok (r_log n') /\ entries n' = (follow_log (entries n) args).1 /\
   x = Ok (mkAppendReply (aa_Term args) (follow_log (entries n) args).2) /\
   r_commitIndex n' =
     if (follow_log (entries n) args).2 && (r_commitIndex n <? aa_LeaderCommit args)
     then Z.min (aa_LeaderCommit args) (len (entries n')) else r_commitIndex n).
Proof.
  intros (Hw & Hcr & _) Hl [A1 A2 A3 A4]. unfold handleAppendEntries. mrun.
  destruct (Z.ltb_spec (aa_Term args) (r_currentTerm n)) as [|Hge]; [intros [= <- <-]; by left|].
  assert (exists n1, (if (r_currentTerm n <? aa_Term args) || negb (bool_decide (r_state n = Follower))
    then becomeFollowerLocked (rio_write io 0) (aa_Term args) (aa_LeaderID args)
    else modify (set_leader (aa_LeaderID args))) n = (Ok tt, n1) /\ same_logs n n1 /\ r_currentTerm n1 = aa_Term args) as (n1 & E1 & Hs1 & Ht1).
  { match goal with |- exists _, (if ?b then _ else _) _ = _ /\ _ => destruct b eqn:Eb end.
    - destruct (becomeFollower_role (aa_Term args) (aa_LeaderID args) n) as (n1 & E & _ & Ht & _).
      rewrite Hw. exists n1. split; [done|]. split; [by eapply still_becomeFollower|done].
    - apply orb_false_iff in Eb as [Eb%Z.ltb_ge _]. eexists. split; [done|]. split; [done|]. cbn. lia. }
  rewrite (M_bind_run _ _ _ _ _ E1). mrun. clear E1. rewrite Ht1. destruct Hs1 as (S1 & S2 & S3 & S4 & S5 & S6 & S7).
  assert (forall b k, follow_log (entries n) args = (reconcile k (entries n) (aa_Entries args), b) -> b = true ->
    Z.of_nat k = aa_PrevLogIndex args -> (k <= length (entries n))%nat ->
    (append_new (rio_create io) (aa_Entries args);; follow_commit (aa_LeaderCommit args);; mret (mkAppendReply (aa_Term args) true)) n1 = (x, n') ->
    r_currentTerm n <= aa_Term args /\ log_commit n n' /\ log_ok (r_log n') /\ entries n' = (follow_log (entries n) args).1 /\
    x = Ok (mkAppendReply (aa_Term args) (follow_log (entries n) args).2) /\
    r_commitIndex n' = if (follow_log (entries n) args).2 && (r_commitIndex n <? aa_LeaderCommit args)
      then Z.min (aa_LeaderCommit args) (len (entries n')) else r_commitIndex n) as Hgo.
  { intros b k Hfl -> Hk Hle E. rewrite Hcr in E.
    destruct (append_new_run (aa_Entries args) k n1) as (l' & E2 & Hl' & He'); [by rewrite S1|by rewrite S1| |done|lia|].
    { intros i e Hi. rewrite (A2 _ _ Hi). lia. }
    rewrite (M_bind_run _ _ _ _ _ E2) in E. rewrite S1 in He'.
    set (n2 := set_log l' n1) in *. rewrite Hfl. cbn [fst snd andb].
    unfold follow_commit in E. revert E. unfold mbind at 1, M_bind at 1. mrun.
    replace (r_commitIndex n2) with (r_commitIndex n) by (by rewrite <- S2).
    destruct (Z.ltb_spec (r_commitIndex n) (aa_LeaderCommit args)) as [Hlt|Hnl].
    - cbn [r_log n2 set_log]. rewrite LastIndex_len by done. mrun. intros [= <- <-]. cbn.
      split_and!; [done|by split_and!|done|done|done|].
      destruct (Z.ltb_spec (aa_LeaderCommit args) (len (rl_entries l'))); lia.
    - intros [= <- <-]. cbn. split_and!; [done|by split_and!|done|done|done|done]. }
  unfold check_prev, mbind at 1, M_bind at 1. unfold follow_log in *.
  destruct (Z.ltb_spec 0 (aa_PrevLogIndex args)) as [Hp|Hp].
  2: { intros E. right. eapply (Hgo true 0%nat); [done|done|lia|lia|exact E]. }
  mrun. rewrite S1, GetEntry_at by (done || lia). mrun.
  destruct (at_index (entries n) (aa_PrevLogIndex args)) as [e|] eqn:He.
  - destruct (Z.eqb_spec (Term e) (aa_PrevLogTerm args)) as [|Hne]; cbn [negb].
    + intros E. right. eapply (Hgo true (Z.to_nat (aa_PrevLogIndex args))); [done|done|lia| |exact E].
      unfold at_index in He. rewrite (proj2 (Z.ltb_lt _ _)) in He by done. apply lookup_lt_Some in He. lia.
    + destruct (TruncateFrom_take (r_log n) Hl (aa_PrevLogIndex args)) as (l1 & E2 & He1 & Hl1); [lia|].
      rewrite Hcr. rewrite <- S1 in E2. rewrite (M_bind_run _ _ _ _ _ (ignore_run _ _ _ _ (on_log_run _ _ _ _ E2))).
      intros [= <- <-]. right. cbn. split_and!; [done|by split_and!|done|done|done|done].
  - intros [= <- <-]. right. cbn. rewrite S1. split_and!; [done|by split_and!|done|done|done|done].
Qed.

(** ** Restarts *)

Lemma NewRaft_logs n k n' :
  log_ok (r_log n) -> persisted n -> role_fits n ->
  NewRaft (Ok tt) (Ok []) (Ok (r_addr n)) None (r_nodeID n) (r_peers n) (crash k (rl_file (r_log n))) (r_stateFile n) = Ok n' ->
  log_ok (r_log n') /\ entries n' = entries n /\ r_commitIndex n' = 0 /\ r_lastApplied n' = 0 /\ r_applyCh n' = [] /\ r_applying n' = None.
Proof.
  intros Hl Hp Hfit E. destruct (OpenLog_same _ Hl k) as (l' & El & He & Hl').
  pose proof (NewRaft_role _ _ _ _ Hp Hfit E) as (_ & _ & _ & _ & _ & El'). rewrite El in El'. injection El' as ->.
  split; [done|]. split; [done|]. revert E. unfold NewRaft. rstep. rewrite El. cbn [ctx]. rstep.
  set (r := mkRaft _ _ _ _ _ _ _ _ _ _ _ _ _ _ _ _ _ _ _).
  destruct (loadState None r) as [x n1] eqn:E. assert (same_logs r n1) as Hs.
  { assert (still (loadState None)) as Hst by (unfold loadState; quiet). by apply Hst in E. }
  destruct x; [|done..]. intros [= <-]. destruct Hs as (_ & ? & ? & ? & ? & _). done.
Qed.
