(* ===== verification/RaftSafety.v ===== *)
(** * Logs of a Raft cluster

    The logs a run produces are prefixes of its leaders' logs (log matching),
    and the log of a later leader extends everything a majority held of an
    earlier leader's log (leader completeness).  As for elections the argument
    speaks of whole runs: which logs were held, led and stood with at any
    time. *)

From S2P Require Import Prelude GoStd Protocol RaftLog Raft RaftSystem RaftLogs RaftElection.

(** ** Lists *)

(** No position holds different elements. *)
Definition agree (P L : list LogEntry) : Prop := forall i x y, P !! i = Some x -> L !! i = Some y -> x = y.

Lemma prefix_lookup (P L : list LogEntry) i x : P `prefix_of` L -> P !! i = Some x -> L !! i = Some x.
Proof. intros [k ->] H. by apply lookup_app_l_Some. Qed.

Lemma prefix_agree (P Q L : list LogEntry) : P `prefix_of` L -> Q `prefix_of` L -> agree P Q.
Proof. intros HP HQ i x y Hx Hy. apply (prefix_lookup _ _ _ _ HP) in Hx. apply (prefix_lookup _ _ _ _ HQ) in Hy. congruence. Qed.

Lemma comparable_agree (P L1 L2 : list LogEntry) :
  P `prefix_of` L1 -> L1 `prefix_of` L2 \/ L2 `prefix_of` L1 -> agree P L2.
Proof.
  intros HP [H|H]; [|by eapply prefix_agree]. apply (prefix_agree _ _ L2); [by etrans|done].
Qed.

(** Two prefixes of one list: the shorter is a prefix of the longer. *)
Lemma prefix_shorter (P Q L : list LogEntry) :
  P `prefix_of` L -> Q `prefix_of` L -> (length P <= length Q)%nat -> P `prefix_of` Q.
Proof.
  intros HP HQ Hle. destruct (prefix_weak_total P Q L HP HQ) as [|H]; [done|].
  apply prefix_length_eq in H; [by rewrite H|done].
Qed.

Lemma comparable_shorter (P Q L1 L2 : list LogEntry) :
  P `prefix_of` L1 -> Q `prefix_of` L2 -> L1 `prefix_of` L2 \/ L2 `prefix_of` L1 ->
  (length P <= length Q)%nat -> P `prefix_of` Q.
Proof.
  intros HP HQ [H|H] Hle; [apply (prefix_shorter _ _ L2)|apply (prefix_shorter _ _ L1)]; try done; by etrans.
Qed.

(** Entries of one term at one position come after equal logs. *)
Definition matching (es L : list LogEntry) : Prop :=
  forall i x y, es !! i = Some x -> L !! i = Some y -> Term x = Term y -> take (S i) es = take (S i) L.

Lemma prefix_short_take (P es : list LogEntry) k : P `prefix_of` es -> (length P <= k)%nat -> P `prefix_of` take k es.
Proof. intros [q ->] Hle. rewrite take_app_ge by done. by apply prefix_app_r. Qed.

(** The loop over new entries ends with the old log, if it extends the
    leader's, or with the leader's, losing only what disagrees with that. *)
Lemma reconcile_spec es L k :
  matching es L -> (k <= length es)%nat -> (k <= length L)%nat -> take k es = take k L ->
  (reconcile k es (drop k L) = es /\ L `prefix_of` es) \/
  (reconcile k es (drop k L) = L /\ forall P, P `prefix_of` es -> P `prefix_of` L \/ ~ agree P L).
Proof.
  intros Hm. remember (drop k L) as new eqn:Enew. revert k Enew. induction new as [|e new IH]; intros k Enew Hk HkL Heq; cbn [reconcile].
  { left. split; [done|]. symmetry in Enew. assert (length L <= k)%nat as Hle.
    { apply (f_equal length) in Enew. rewrite length_drop in Enew. simpl in Enew. lia. }
    rewrite (take_ge L k) in Heq by done. rewrite <- Heq. apply prefix_take. }
  assert (L !! k = Some e) as He.
  { rewrite <- (Nat.add_0_r k), <- lookup_drop, <- Enew. done. }
  assert (forall P, P `prefix_of` es -> (length P <= k)%nat -> P `prefix_of` L) as Hshort.
  { intros P HP Hle. etrans; [by apply (prefix_short_take P es k)|]. rewrite Heq. apply prefix_take. }
  destruct (es !! k) as [x|] eqn:Hx.
  - destruct (Z.eqb_spec (Term x) (Term e)) as [Ht|Hne].
    + apply lookup_lt_Some in Hx as Hlt. apply lookup_lt_Some in He as HltL. apply IH; [|lia|lia|by eapply Hm].
      rewrite (drop_S _ _ _ He) in Enew. by injection Enew.
    + right. split; [by rewrite Heq, Enew, take_drop|]. intros P HP.
      destruct (le_lt_dec (length P) k) as [|Hlt]; [left; by apply Hshort|right]. intros Hag.
      destruct (lookup_lt_is_Some_2 P k Hlt) as [z Hz]. pose proof (prefix_lookup _ _ _ _ HP Hz) as Hz'.
      rewrite (Hag _ _ _ Hz He) in Hz'. congruence.
  - apply lookup_ge_None in Hx. right. rewrite (take_ge es k) in Heq by done. split; [by rewrite Enew, Heq, take_drop|].
    intros P HP. left. apply Hshort; [done|]. apply prefix_length in HP. lia.
Qed.

(** ** What a run held *)

Definition held (tr : list Cluster) (T : Z) (z : bytes) (L : list LogEntry) : Prop :=
  exists c n, c ∈ tr /\ c_nodes c !! z = Some n /\ r_currentTerm n = T /\ entries n = L.

Definition held_as (st : State) (tr : list Cluster) (T : Z) (z : bytes) (L : list LogEntry) : Prop :=
  exists c n, c ∈ tr /\ c_nodes c !! z = Some n /\ r_currentTerm n = T /\ entries n = L /\ r_state n = st.

Abbreviation leads := (held_as Leader).
Abbreviation stands := (held_as Candidate).

Lemma held_as_held st tr T z L : held_as st tr T z L -> held tr T z L.
Proof. intros (c & n & ? & ? & ? & ? & ?). by exists c, n. Qed.

Lemma held_as_cons st tr c T z L : held_as st tr T z L -> held_as st (c :: tr) T z L.
Proof. intros (c0 & n & ? & H). exists c0, n. split; [by right|done]. Qed.

Lemma held_cons tr c T z L : held tr T z L -> held (c :: tr) T z L.
Proof. intros (c0 & n & ? & H). exists c0, n. split; [by right|done]. Qed.

Lemma leads_led tr T a L : leads tr T a L -> led tr T a.
Proof. intros (c & n & ? & ? & ? & ? & ?). by exists c, n. Qed.

Lemma led_leads tr T a : led tr T a -> exists L, leads tr T a L.
Proof. intros (c & n & ? & ? & ? & ?). exists (entries n), c, n. done. Qed.

(** Node [z] held [P], which ends with an entry of term [t], during term [t]. *)
Definition acked (tr : list Cluster) (z : bytes) (t : Z) (P : list LogEntry) : Prop :=
  P <> [] /\ last_term P = t /\ exists L, held tr t z L /\ P `prefix_of` L.

(** Every entry was appended by the leader of its term after the same log. *)
Definition rooted (tr : list Cluster) (L : list LogEntry) : Prop :=
  forall i e, L !! i = Some e -> exists a L', leads tr (Term e) a L' /\ take (S i) L `prefix_of` L'.

Definition tsorted (L : list LogEntry) : Prop :=
  forall i j x y, (i <= j)%nat -> L !! i = Some x -> L !! j = Some y -> Term x <= Term y.

Definition below (T : Z) (L : list LogEntry) : Prop := forall i e, L !! i = Some e -> 0 < Term e <= T.

(** The leader of some term in between lacks [P]. *)
Definition overwritten (tr : list Cluster) (P : list LogEntry) (t T : Z) : Prop :=
  exists T' b L', t < T' < T /\ leads tr T' b L' /\ ~ P `prefix_of` L'.

(** The log [z] voted with in term [T] for [a]: not ahead of [a]'s, and with
    all it had acknowledged before that was not overwritten. *)
Definition snap (tr : list Cluster) (T : Z) (z a : bytes) : Prop :=
  exists L C, held tr T z L /\ stands tr T a C /\ uptodate C L /\
    forall t P, acked tr z t P -> t < T -> P `prefix_of` L \/ overwritten tr P t T.

Lemma rooted_cons tr c L : rooted tr L -> rooted (c :: tr) L.
Proof. intros H i e He. destruct (H i e He) as (a & L' & ? & ?). exists a, L'. split; [by apply held_as_cons|done]. Qed.

Lemma overwritten_cons tr c P t T : overwritten tr P t T -> overwritten (c :: tr) P t T.
Proof. intros (T' & b & L' & ? & ? & ?). exists T', b, L'. split; [done|]. split; [by apply held_as_cons|done]. Qed.

Lemma below_mono T T' L : below T L -> T <= T' -> below T' L.
Proof. intros H Hle i e He. specialize (H i e He). lia. Qed.

Lemma last_term_app L e : last_term (L ++ [e]) = Term e.
Proof. unfold last_term. by rewrite last_snoc. Qed.

(** A non-empty list and its last entry. *)
Lemma last_entry_of (P : list LogEntry) : P <> [] -> exists e, P !! pred (length P) = Some e /\ last_term P = Term e.
Proof.
  intros H. unfold last_term. rewrite last_lookup. destruct (lookup_lt_is_Some_2 P (pred (length P))) as [e He].
  - destruct P; [done|simpl; lia].
  - exists e. by rewrite He.
Qed.

(** What a log holds up to an entry is held by the leader of its term. *)
Lemma rooted_last tr L : rooted tr L -> L <> [] -> exists a L', leads tr (last_term L) a L' /\ L `prefix_of` L'.
Proof.
  intros Hr Hne. destruct (last_entry_of L Hne) as (e & He & ->). destruct (Hr _ _ He) as (a & L' & Hl & Hp).
  exists a, L'. split; [done|]. rewrite take_ge in Hp; [done|]. destruct L; [done|simpl; lia].
Qed.

Lemma rooted_prefix tr P L : rooted tr L -> P `prefix_of` L -> rooted tr P.
Proof.
  intros Hr HP i e He. destruct (Hr i e (prefix_lookup _ _ _ _ HP He)) as (a & L' & ? & Hpre). exists a, L'. split; [done|].
  etrans; [|done]. destruct HP as [q ->]. apply lookup_lt_Some in He. by rewrite take_app_le by lia.
Qed.

Section safety.
Context (addrs : list bytes) (id : bytes -> bytes).
Hypothesis Hinj : forall a b, a ∈ addrs -> b ∈ addrs -> id a = id b -> a = b.

Definition majority (q : list bytes) : Prop := NoDup q /\ q ⊆ addrs /\ len addrs < 2 * len q.

Record logs_ok (tr : list Cluster) (nodes : gmap bytes Raft) : Prop := {
  lg_node : forall a n, nodes !! a = Some n -> log_ok (r_log n) /\ (r_state n <> Follower -> 0 < r_currentTerm n);
  lg_held : forall T z L, held tr T z L -> rooted tr L /\ tsorted L /\ below T L;
  lg_now : forall T z L, held tr T z L -> exists n, nodes !! z = Some n /\ T <= r_currentTerm n;
  lg_lead : forall T a b L1 L2, leads tr T a L1 -> leads tr T b L2 -> L1 `prefix_of` L2 \/ L2 `prefix_of` L1;
  lg_leader : forall a n L, nodes !! a = Some n -> r_state n = Leader -> leads tr (r_currentTerm n) a L -> L `prefix_of` entries n;
  lg_past : forall a n L, nodes !! a = Some n -> leads tr (r_currentTerm n) a L -> r_state n <> Candidate;
  lg_cand : forall a n C, nodes !! a = Some n -> r_state n = Candidate -> stands tr (r_currentTerm n) a C -> C = entries n;
  lg_below : forall T a C, stands tr T a C -> below (T - 1) C;
  lg_grow : forall T a C L, stands tr T a C -> leads tr T a L -> C `prefix_of` L;
  lg_ack : forall z n t P, nodes !! z = Some n -> acked tr z t P ->
    P `prefix_of` entries n \/ overwritten tr P t (r_currentTerm n + 1);
  lg_vote : forall T z a, (forall b, ~ led tr T b) -> a ∈ addrs -> voted tr z T (id a) -> snap tr T z a;
  lg_quorum : forall T a, led tr T a -> exists q, majority q /\ forall z, z ∈ q -> snap tr T z a
}.

(** What a transition of node [a] may do to its log. *)
Record lmove (tr tr' : list Cluster) (a : bytes) (n n' : Raft) : Prop := {
  lv_ok : log_ok (r_log n');
  lv_term : r_currentTerm n <= r_currentTerm n';
  lv_pos : r_state n' <> Follower -> 0 < r_currentTerm n';
  lv_log : rooted tr' (entries n') /\ tsorted (entries n') /\ below (r_currentTerm n') (entries n');
  lv_keep : forall P, P `prefix_of` entries n -> P `prefix_of` entries n' \/
    exists b L', leads tr (r_currentTerm n') b L' /\ ~ agree P L';
  lv_lead : r_state n' = Leader -> r_currentTerm n' = r_currentTerm n /\ entries n `prefix_of` entries n' /\
    (r_state n = Leader \/ r_state n = Candidate /\ entries n' = entries n);
  lv_cand : r_state n' = Candidate -> entries n' = entries n /\
    (r_state n = Candidate /\ r_currentTerm n' = r_currentTerm n \/ r_currentTerm n < r_currentTerm n');
  lv_vote : r_votedFor n' <> [] -> r_votedFor n' = r_votedFor n /\ r_currentTerm n' = r_currentTerm n \/
    entries n' = entries n /\ forall b, b ∈ addrs -> r_votedFor n' = id b ->
      exists C, stands tr' (r_currentTerm n') b C /\ uptodate C (entries n');
  lv_elect : r_state n' = Leader -> r_state n <> Leader ->
    exists q, majority q /\ forall z, z ∈ q -> voted tr z (r_currentTerm n') (id a)
}.

Section moving.
Context (tr : list Cluster) (c c' : Cluster) (a : bytes) (n n' : Raft).
Hypothesis Hc : c ∈ tr.
Hypothesis Hn : c_nodes c !! a = Some n.
Hypothesis Hc' : c_nodes c' = <[a:=n']> (c_nodes c).
Hypothesis Hok : logs_ok tr (c_nodes c).
Hypothesis Huniq : forall T b1 b2, led (c' :: tr) T b1 -> led (c' :: tr) T b2 -> b1 = b2.
Hypothesis Ha : a ∈ addrs.
Hypothesis Hmv : lmove tr (c' :: tr) a n n'.

Lemma held_as_after st T z L :
  held_as st (c' :: tr) T z L ->
  held_as st tr T z L \/ z = a /\ T = r_currentTerm n' /\ L = entries n' /\ r_state n' = st.
Proof using Hc Hc'.
  intros (c0 & n0 & Hc0 & Hz & Ht & Hs & Hst). apply elem_of_cons in Hc0 as [-> |Hc0].
  2: { left. exists c0, n0. split_and!; assumption. }
  rewrite Hc' in Hz. destruct (decide (z = a)) as [-> | Hne].
  - rewrite lookup_insert_eq in Hz. injection Hz as <-. right. split_and!; [reflexivity|congruence..].
  - rewrite lookup_insert_ne in Hz by congruence. left. exists c, n0. split_and!; assumption.
Qed.

Lemma held_after T z L : held (c' :: tr) T z L -> held tr T z L \/ z = a /\ T = r_currentTerm n' /\ L = entries n'.
Proof using Hc Hc'.
  intros (c0 & n0 & Hc0 & Hz & Ht & Hs).
  destruct (held_as_after (r_state n0) T z L) as [H|(? & ? & ? & _)]; [exists c0, n0; split_and!; assumption || reflexivity|..].
  - left. by eapply held_as_held.
  - right. split_and!; assumption.
Qed.

Lemma node_after z m : c_nodes c' !! z = Some m -> z = a /\ m = n' \/ z <> a /\ c_nodes c !! z = Some m.
Proof using Hc'.
  rewrite Hc'. destruct (decide (z = a)) as [-> | Hne].
  - rewrite lookup_insert_eq. intros [= <-]. by left.
  - rewrite lookup_insert_ne by congruence. by right.
Qed.

Lemma now_after T z L : held (c' :: tr) T z L -> exists m, c_nodes c' !! z = Some m /\ T <= r_currentTerm m.
Proof using Hc Hn Hc' Hok Hmv.
  intros [H|(-> & -> & _)]%held_after.
  - destruct (lg_now _ _ Hok _ _ _ H) as (m & Hm & Hle). rewrite Hc'. destruct (decide (z = a)) as [-> | Hne].
    + rewrite lookup_insert_eq. exists n'. split; [done|]. rewrite Hn in Hm. injection Hm as <-. pose proof (lv_term _ _ _ _ _ Hmv). lia.
    + exists m. by rewrite lookup_insert_ne.
  - exists n'. by rewrite Hc', lookup_insert_eq.
Qed.

(** An old log of [a] in its new term: the term did not change. *)
Lemma held_stays L : held tr (r_currentTerm n') a L -> r_currentTerm n' = r_currentTerm n.
Proof using Hn Hok Hmv.
  intros H. destruct (lg_now _ _ Hok _ _ _ H) as (m & Hm & Hle). rewrite Hn in Hm. injection Hm as <-.
  pose proof (lv_term _ _ _ _ _ Hmv). lia.
Qed.

Lemma acked_after z t P : acked (c' :: tr) z t P -> acked tr z t P \/ z = a /\ t = r_currentTerm n' /\ P `prefix_of` entries n'.
Proof using Hc Hc'.
  intros (Hne & Ht & L & [HL|(-> & -> & ->)]%held_after & HP); [left|right; done].
  split_and!; [done..|]. by exists L.
Qed.

Lemma snap_after T z b : snap tr T z b -> snap (c' :: tr) T z b.
Proof using Hc Hn Hc' Hok Hmv.
  intros (L & C & HL & HC & Hup & Hack). exists L, C. split_and!; [by apply held_cons|by apply held_as_cons|done|].
  intros t P [Hold|(-> & -> & HP)]%acked_after Hlt.
  - destruct (Hack t P Hold Hlt) as [|]; [by left|right; by apply overwritten_cons].
  - destruct (lg_now _ _ Hok _ _ _ HL) as (m & Hm & Hle). rewrite Hn in Hm. injection Hm as <-.
    pose proof (lv_term _ _ _ _ _ Hmv). lia.
Qed.

Lemma leader_after L : r_state n' = Leader -> leads (c' :: tr) (r_currentTerm n') a L -> L `prefix_of` entries n'.
Proof using Hc Hn Hc' Hok Hmv.
  intros Hs HL. destruct (lv_lead _ _ _ _ _ Hmv Hs) as (Ht & Hpre & Hcase).
  apply held_as_after in HL as [HL|(_ & _ & -> & _)]; [|done]. rewrite Ht in HL.
  destruct Hcase as [Hl|[Hl _]].
  - etrans; [by apply (lg_leader _ _ Hok a n)|done].
  - by destruct (lg_past _ _ Hok a n L Hn HL).
Qed.

Lemma past_after b m L : c_nodes c' !! b = Some m -> leads (c' :: tr) (r_currentTerm m) b L -> r_state m <> Candidate.
Proof using Hc Hn Hc' Hok Hmv.
  intros Hm HL Hs. apply node_after in Hm as [[-> ->]|[Hne Hm]]; apply held_as_after in HL as [HL|(? & _ & _ & Hl)]; try congruence.
  - pose proof (held_stays _ (held_as_held _ _ _ _ _ HL)) as Hst.
    destruct (lv_cand _ _ _ _ _ Hmv Hs) as (_ & [[Hs' _]|Hlt]); [|lia]. rewrite Hst in HL. by destruct (lg_past _ _ Hok a n L Hn HL).
  - by destruct (lg_past _ _ Hok b m L Hm HL).
Qed.

Lemma lead_after T b1 b2 L1 L2 :
  leads (c' :: tr) T b1 L1 -> leads (c' :: tr) T b2 L2 -> L1 `prefix_of` L2 \/ L2 `prefix_of` L1.
Proof using Hc Hn Hc' Hok Hmv Huniq.
  intros H1 H2. assert (b1 = b2) as <- by (eapply Huniq; by eapply leads_led).
  apply held_as_after in H1 as H1'. apply held_as_after in H2 as H2'.
  destruct H1' as [H1'|(-> & -> & -> & Hs)]; [|right; by apply leader_after].
  destruct H2' as [H2'|(-> & -> & -> & Hs)]; [by eapply (lg_lead _ _ Hok)|left; by apply leader_after].
Qed.

Lemma cand_after b m C :
  c_nodes c' !! b = Some m -> r_state m = Candidate -> stands (c' :: tr) (r_currentTerm m) b C -> C = entries m.
Proof using Hc Hn Hc' Hok Hmv.
  intros Hm Hs HC. apply node_after in Hm as [[-> ->]|[Hne Hm]]; apply held_as_after in HC as [HC|(? & _ & -> & _)]; try done.
  - pose proof (held_stays _ (held_as_held _ _ _ _ _ HC)) as Hst.
    destruct (lv_cand _ _ _ _ _ Hmv Hs) as (-> & [[Hs' _]|Hlt]); [|lia]. rewrite Hst in HC. by apply (lg_cand _ _ Hok a n C).
  - by apply (lg_cand _ _ Hok b m C).
Qed.

Lemma below_after T b C : stands (c' :: tr) T b C -> below (T - 1) C.
Proof using Hc Hn Hc' Hok Hmv.
  intros [HC|(-> & -> & -> & Hs)]%held_as_after; [by apply (lg_below _ _ Hok) in HC|].
  destruct (lv_cand _ _ _ _ _ Hmv Hs) as (-> & [[Hs' ->]|Hlt]).
  - apply (lg_below _ _ Hok _ a). by exists c, n.
  - destruct (lg_held _ _ Hok (r_currentTerm n) a (entries n)) as (_ & _ & Hb); [by exists c, n|]. eapply below_mono; [done|lia].
Qed.

Lemma grow_after T b C L : stands (c' :: tr) T b C -> leads (c' :: tr) T b L -> C `prefix_of` L.
Proof using Hc Hn Hc' Hok Hmv.
  intros HC HL. apply held_as_after in HC as HC'. destruct HC' as [HC'|(-> & -> & -> & Hs)].
  2: { exfalso. apply (past_after a n' L); [by rewrite Hc', lookup_insert_eq|done|done]. }
  apply held_as_after in HL as [HL|(-> & -> & -> & Hs)]; [by eapply (lg_grow _ _ Hok)|].
  destruct (lv_lead _ _ _ _ _ Hmv Hs) as (Ht & Hpre & Hcase). rewrite Ht in HC'. destruct Hcase as [Hl|[Hl ->]].
  - etrans; [|done]. apply (lg_grow _ _ Hok (r_currentTerm n) a); [done|]. by exists c, n.
  - by rewrite (lg_cand _ _ Hok a n C).
Qed.

Lemma ack_after z m t P :
  c_nodes c' !! z = Some m -> acked (c' :: tr) z t P ->
  P `prefix_of` entries m \/ overwritten (c' :: tr) P t (r_currentTerm m + 1).
Proof using Hc Hn Hc' Hok Hmv.
  intros [[-> ->]|[Hne Hm]]%node_after Hack; apply acked_after in Hack as [Hold|(? & -> & HP)]; try done; try by left.
  2: { destruct (lg_ack _ _ Hok _ _ _ _ Hm Hold); [by left|right; by apply overwritten_cons]. }
  destruct (lg_ack _ _ Hok _ _ _ _ Hn Hold) as [HP|(T' & b & L' & HT & HL & HnP)].
  2: { right. apply overwritten_cons. exists T', b, L'. pose proof (lv_term _ _ _ _ _ Hmv). split; [lia|done]. }
  destruct (lv_keep _ _ _ _ _ Hmv P HP) as [|(b & L' & HL & Hdis)]; [by left|].
  destruct Hold as (HPne & Ht & L & Hheld & HPL).
  destruct (lg_now _ _ Hok _ _ _ Hheld) as (m & Hm & Hle). rewrite Hn in Hm. injection Hm as <-.
  destruct (decide (t = r_currentTerm n')) as [Heq|Hneq].
  - exfalso. apply Hdis. destruct (lg_held _ _ Hok _ _ _ Hheld) as (Hroot & _).
    destruct (rooted_last tr P) as (b0 & L0 & HL0 & HPL0); [by eapply rooted_prefix|done|]. rewrite Ht, Heq in HL0.
    eapply comparable_agree; [done|]. by eapply (lg_lead _ _ Hok).
  - right. apply overwritten_cons. exists (r_currentTerm n'), b, L'. pose proof (lv_term _ _ _ _ _ Hmv). split; [lia|].
    split; [done|]. intros Hpre. apply Hdis. by eapply prefix_agree.
Qed.

Lemma vote_after T z b : (forall d, ~ led (c' :: tr) T d) -> b ∈ addrs -> voted (c' :: tr) z T (id b) -> snap (c' :: tr) T z b.
Proof using Hc Hn Hc' Hok Hmv.
  intros Hnl Hb Hv. assert (forall d, ~ led tr T d) as Hnl' by (intros d Hd; by apply (Hnl d), led_cons).
  apply (voted_after tr c c' a n') in Hv as Hv'; [|done|done].
  destruct Hv' as [Hold|(-> & -> & Hvote)]; [by apply snap_after, (lg_vote _ _ Hok)|].
  destruct (lv_vote _ _ _ _ _ Hmv) as [[Hsame Ht]|(Hes & Hcand)].
  - destruct Hv as [Hv _]. congruence.
  - apply snap_after, (lg_vote _ _ Hok); [done|done|]. rewrite Ht, Hvote, Hsame. apply (voted_now tr c); [done|done|].
    destruct Hv as [Hv _]. congruence.
  - destruct (Hcand b Hb) as (C & HC & Hup); [done|]. exists (entries n'), C. split_and!; [|done|done|].
    { exists c', n'. split_and!; [left|by rewrite Hc', lookup_insert_eq|done|done]. }
    intros t P [Hack|(_ & -> & _)]%acked_after Hlt; [|lia]. rewrite Hes.
    destruct (lg_ack _ _ Hok _ _ _ _ Hn Hack) as [|(T' & d & L' & HT & HL & HnP)]; [by left|right].
    apply overwritten_cons. exists T', d, L'. split; [|done]. pose proof (lv_term _ _ _ _ _ Hmv).
    destruct (decide (T' = r_currentTerm n')) as [-> |]; [|lia]. exfalso. by eapply (Hnl' d), leads_led.
Qed.

Lemma quorum_after T b : led (c' :: tr) T b -> exists q, majority q /\ forall z, z ∈ q -> snap (c' :: tr) T z b.
Proof using Hc Hn Hc' Hok Hmv Huniq Ha.
  intros Hled.
  assert (led tr T b -> exists q, majority q /\ forall z, z ∈ q -> snap (c' :: tr) T z b) as Hold.
  { intros H. destruct (lg_quorum _ _ Hok _ _ H) as (q & Hq & Hz). exists q. split; [done|]. intros z Hzq. by apply snap_after, Hz. }
  apply (led_after tr c c' a n') in Hled as Hled'; [|done|done]. destruct Hled' as [|(-> & -> & Hs)]; [auto|].
  destruct (lv_lead _ _ _ _ _ Hmv Hs) as (Ht & _ & Hcase).
  destruct (decide (r_state n = Leader)) as [Hl|Hnl].
  { apply Hold. rewrite Ht. by exists c, n. }
  destruct (lv_elect _ _ _ _ _ Hmv Hs Hnl) as (q & Hq & Hz). exists q. split; [done|]. intros z Hzq.
  apply snap_after, (lg_vote _ _ Hok); [|done|auto]. intros d Hd.
  assert (d = a) as -> by (eapply Huniq; [by apply led_cons|done]). destruct (led_leads _ _ _ Hd) as [L HL]. rewrite Ht in HL.
  destruct (lg_past _ _ Hok a n L Hn HL). by destruct Hcase as [|[]].
Qed.

Lemma logs_ok_move : logs_ok (c' :: tr) (c_nodes c').
Proof using Hc Hn Hc' Hok Hmv Huniq Ha.
  split; eauto using now_after, lead_after, past_after, cand_after, below_after, grow_after, ack_after, vote_after, quorum_after.
  - intros b m [[-> ->]|[_ Hm]]%node_after; [split; apply Hmv|by apply (lg_node _ _ Hok) in Hm].
  - intros T z L [H|(-> & -> & ->)]%held_after; [|apply Hmv].
    destruct (lg_held _ _ Hok _ _ _ H) as (? & ? & ?). split_and!; [by apply rooted_cons|done..].
  - intros b m L Hm Hs HL. apply node_after in Hm as [[-> ->]|[Hne Hm]]; [by apply leader_after|].
    apply held_as_after in HL as [HL|(? & _)]; [by apply (lg_leader _ _ Hok b m)|done].
Qed.
End moving.

(** ** Leader completeness *)

Lemma last_term_prefix P L : tsorted L -> P `prefix_of` L -> P <> [] -> last_term P <= last_term L.
Proof.
  intros Hs HP Hne. destruct (last_entry_of P Hne) as (e & He & ->). apply (prefix_lookup _ _ _ _ HP) in He as HeL.
  assert (L <> []) as HneL by (by intros ->). destruct (last_entry_of L HneL) as (e' & He' & ->).
  apply prefix_length in HP. eapply Hs; [|exact HeL|exact He']. lia.
Qed.

(** A log at least as up to date as one that holds [P] holds [P] too. *)
Lemma uptodate_holds tr nodes t P L C T z b :
  logs_ok tr nodes -> P <> [] -> last_term P = t -> 0 < t -> t < T ->
  (forall T' d L', t < T' < T -> leads tr T' d L' -> P `prefix_of` L') ->
  held tr T z L -> P `prefix_of` L -> stands tr T b C -> uptodate C L -> P `prefix_of` C.
Proof.
  intros Hok HPne HPt H0 HtT IH HL HPL HC Hup.
  destruct (lg_held _ _ Hok _ _ _ HL) as (HrL & HsL & _).
  destruct (lg_held _ _ Hok _ _ _ (held_as_held _ _ _ _ _ HC)) as (HrC & HsC & _).
  pose proof (lg_below _ _ Hok _ _ _ HC) as HbC.
  pose proof (last_term_prefix _ _ HsL HPL HPne) as Hle.
  assert (C <> []) as HCne. { intros ->. unfold uptodate, last_term at 2 3 in Hup. simpl in Hup. lia. }
  assert (L <> []) as HLne. { intros ->. by apply prefix_nil_inv in HPL. }
  destruct (rooted_last _ _ HrC HCne) as (d & L1 & HL1 & HCL1).
  destruct (last_entry_of C HCne) as (e & He & HeT). pose proof (HbC _ _ He) as Hbe.
  destruct Hup as [Hlt|[Heq Hlen]].
  - assert (P `prefix_of` L1) as HPL1 by (eapply IH; [|done]; lia).
    apply (prefix_shorter _ _ L1); [done..|]. destruct (le_lt_dec (length P) (length C)) as [|Hgt]; [done|exfalso].
    destruct (lookup_lt_is_Some_2 P (pred (length C))) as [x Hx]; [lia|].
    destruct (last_entry_of P HPne) as (y & Hy & HyT).
    apply (prefix_lookup _ _ _ _ HCL1) in He. apply (prefix_lookup _ _ _ _ HPL1) in Hx as Hx1. rewrite He in Hx1. injection Hx1 as <-.
    apply (prefix_lookup _ _ _ _ HPL) in Hx as Hx2. apply (prefix_lookup _ _ _ _ HPL) in Hy.
    assert (Term e <= Term y) by (eapply HsL; [|exact Hx2|exact Hy]; lia). lia.
  - destruct (rooted_last _ _ HrL HLne) as (d2 & L2 & HL2 & HLL2). rewrite <- Heq in HL2.
    etrans; [exact HPL|]. apply (comparable_shorter _ _ L2 L1); [done|done|by eapply (lg_lead _ _ Hok)|unfold len in Hlen; lia].
Qed.

Lemma leader_complete tr nodes t P q :
  logs_ok tr nodes -> P <> [] -> last_term P = t -> 0 < t -> majority q -> (forall z, z ∈ q -> acked tr z t P) ->
  forall T a L, t < T -> leads tr T a L -> P `prefix_of` L.
Proof.
  intros Hok HPne HPt H0 (N & S & M) Hq T. induction T as [T IH] using (well_founded_induction (Z.lt_wf t)).
  intros a L HtT HL. destruct (lg_quorum _ _ Hok T a (leads_led _ _ _ _ HL)) as (q' & (N' & S' & M') & Hsnap).
  destruct (quorums_meet addrs q q') as (z & Hz & Hz'); try done.
  destruct (Hsnap z Hz') as (Lz & C & HLz & HC & Hup & Hold).
  etrans; [|by eapply (lg_grow _ _ Hok)].
  eapply uptodate_holds; try done.
  - intros T' d L' HT' HL'. apply (IH T' ltac:(lia) d L'); [lia|done].
  - destruct (Hold t P (Hq z Hz) HtT) as [|(T' & d & L' & HT' & HL' & HnP)]; [done|]. destruct HnP. apply (IH T' ltac:(lia) d L'); [lia|done].
Qed.

(** ** Commitment *)

(** A majority held [P] during the term of its last entry. *)
Definition committed (tr : list Cluster) (t : Z) (P : list LogEntry) : Prop :=
  P <> [] /\ last_term P = t /\ 0 < t /\ exists q, majority q /\ forall z, z ∈ q -> acked tr z t P.

Lemma acked_cons tr c z t P : acked tr z t P -> acked (c :: tr) z t P.
Proof. intros (? & ? & L & ? & ?). split_and!; [done..|]. exists L. split; [by apply held_cons|done]. Qed.

Lemma committed_cons tr c t P : committed tr t P -> committed (c :: tr) t P.
Proof.
  intros (? & ? & ? & q & ? & Hq). split_and!; [done..|]. exists q. split; [done|]. intros z Hz. by apply acked_cons, Hq.
Qed.

(** What is committed is held by the leader of its term. *)
Lemma committed_led tr nodes t P : logs_ok tr nodes -> committed tr t P -> exists a L, leads tr t a L /\ P `prefix_of` L.
Proof.
  intros Hok (HPne & HPt & H0 & q & (N & S & M) & Hq). destruct q as [|z q]; [change (len []) with 0 in M; pose proof (len_nonneg addrs); lia|].
  destruct (Hq z (list_elem_of_here _ _)) as (_ & _ & L & HL & HPL). destruct (lg_held _ _ Hok _ _ _ HL) as (Hr & _).
  rewrite <- HPt. apply rooted_last; [by eapply rooted_prefix|done].
Qed.

(** A leader from the term of a commitment on agrees with what is committed. *)
Lemma committed_agree tr nodes t P T a L :
  logs_ok tr nodes -> committed tr t P -> t <= T -> leads tr T a L -> agree P L.
Proof.
  intros Hok HP Hle HL. destruct (decide (t = T)) as [-> |Hne].
  - destruct (committed_led _ _ _ _ Hok HP) as (b & L0 & HL0 & HPL0).
    eapply comparable_agree; [done|]. by eapply (lg_lead _ _ Hok).
  - destruct HP as (HPne & HPt & H0 & q & Hq & Hack). eapply prefix_agree; [|done].
    eapply (leader_complete tr nodes t P q); try done. lia.
Qed.

(** Any two committed prefixes agree. *)
Lemma committed_unique tr nodes t1 P1 t2 P2 :
  logs_ok tr nodes -> committed tr t1 P1 -> committed tr t2 P2 -> agree P1 P2.
Proof.
  assert (forall t1 P1 t2 P2, t1 <= t2 -> logs_ok tr nodes -> committed tr t1 P1 -> committed tr t2 P2 -> agree P1 P2) as Hle.
  { clear. intros t1 P1 t2 P2 Hle Hok H1 H2. destruct (committed_led _ _ _ _ Hok H2) as (a & L & HL & HPL).
    pose proof (committed_agree _ _ _ _ _ _ _ Hok H1 Hle HL) as Hag. intros i x y Hx Hy. eapply Hag; [done|].
    by eapply prefix_lookup. }
  intros Hok H1 H2. destruct (Z.le_ge_cases t1 t2); [by eapply Hle|].
  intros i x y Hx Hy. symmetry. by eapply (Hle t2 P2 t1 P1).
Qed.
End safety.
