(* ===== verification/RaftStateMachine.v ===== *)
(** * State machine safety

    On healthy disks, whatever the network and the scheduler do and however
    often nodes restart, the nodes of a cluster never deliver different entries
    of the same index to their state machines. *)

From S2P Require Import Prelude GoStd Protocol RaftLog Raft RaftSystem RaftLogs RaftElection RaftSafety.

(** ** Prefixes of logs *)

Lemma take_same (es es' : list LogEntry) k j :
  take k es `prefix_of` es' -> (k <= length es)%nat -> (j <= k)%nat -> take j es' = take j es.
Proof.
  intros [q Hq] Hk Hj. rewrite Hq, take_app_le by (rewrite length_take; lia). by rewrite take_take, Nat.min_l.
Qed.

Lemma at_index_lookup L k e : at_index L k = Some e -> 0 < k <= len L /\ L !! Z.to_nat (k - 1) = Some e.
Proof.
  unfold at_index. destruct (Z.ltb_spec 0 k); [|done]. intros H'. split; [|done]. apply lookup_lt_Some in H'. unfold len. lia.
Qed.

Lemma last_term_take L k e : at_index L k = Some e -> take (Z.to_nat k) L <> [] /\ last_term (take (Z.to_nat k) L) = Term e.
Proof.
  intros [Hk He]%at_index_lookup. replace (Z.to_nat k) with (S (Z.to_nat (k - 1))) by lia.
  rewrite (take_S_r _ _ _ He). split; [by destruct (take _ L)|apply last_term_app].
Qed.

Lemma rooted_matching addrs id tr nodes es L :
  logs_ok addrs id tr nodes -> rooted tr es -> rooted tr L -> matching es L.
Proof.
  intros Hok H1 H2 i x y Hx Hy Ht. destruct (H1 i x Hx) as (a & L1 & HL1 & HP1). destruct (H2 i y Hy) as (b & L2 & HL2 & HP2).
  rewrite <- Ht in HL2. apply lookup_lt_Some in Hx. apply lookup_lt_Some in Hy.
  assert (take (S i) es `prefix_of` take (S i) L) as Hpre.
  { eapply comparable_shorter; [done|done|by eapply (lg_lead _ _ _ _ Hok)|rewrite !length_take; lia]. }
  apply prefix_length_eq in Hpre; [done|rewrite !length_take; lia].
Qed.

(** ** Requests *)

(** A request that carries the end of the log [L]. *)
Record carries (args : AppendEntriesArgs) (L : list LogEntry) : Prop := {
  ca_prev : 0 <= aa_PrevLogIndex args <= len L;
  ca_entries : aa_Entries args = drop (Z.to_nat (aa_PrevLogIndex args)) L;
  ca_term : 0 < aa_PrevLogIndex args -> exists e, at_index L (aa_PrevLogIndex args) = Some e /\ Term e = aa_PrevLogTerm args;
  ca_index : from_index 1 L;
  ca_fits : Forall logentry_fits L;
  ca_len : len L + 1 < 2 ^ 64
}.

Lemma carries_args args L : carries args L -> args_ok args.
Proof.
  intros [C1 C2 C3 C4 C5 C6]. split; rewrite ?C2.
  - lia.
  - intros i e. rewrite lookup_drop. intros He. rewrite (C4 _ _ He). lia.
  - by apply Forall_drop.
  - unfold len in *. rewrite length_drop. lia.
Qed.

Lemma carries_last args L e : carries args L -> last (aa_Entries args) = Some e -> Index e = len L.
Proof.
  intros [C1 C2 C3 C4 C5 C6] Hl. rewrite C2, last_lookup, length_drop in Hl. rewrite lookup_drop in Hl.
  apply lookup_lt_Some in Hl as Hlt. rewrite (C4 _ _ Hl). unfold len. lia.
Qed.

Lemma follow_log_spec es L args :
  carries args L -> matching es L ->
  let r := follow_log es args in
  (r.2 = true -> L `prefix_of` r.1) /\ (r.1 = es \/ r.1 = L \/ exists k, r.1 = take k es) /\
  forall P, P `prefix_of` es -> P `prefix_of` r.1 \/ ~ agree P L.
Proof.
  intros [C1 C2 C3 C4 C5 C6] Hm. unfold follow_log.
  assert (forall k, (k <= length es)%nat -> (k <= length L)%nat -> take k es = take k L ->
    (L `prefix_of` reconcile k es (drop k L)) /\ (reconcile k es (drop k L) = es \/ reconcile k es (drop k L) = L) /\
    forall P, P `prefix_of` es -> P `prefix_of` reconcile k es (drop k L) \/ ~ agree P L) as Hrec.
  { intros k Hk HkL Heq. destruct (reconcile_spec es L k Hm Hk HkL Heq) as [[-> Hpre]|[-> Hkeep]]; auto 6. }
  destruct (Z.ltb_spec 0 (aa_PrevLogIndex args)) as [Hp|Hp].
  - destruct (C3 Hp) as (y & Hy & Hyt). apply at_index_lookup in Hy as [_ Hy].
    destruct (at_index es (aa_PrevLogIndex args)) as [x|] eqn:Hx; [|cbn; split_and!; [done|by left|by left]].
    apply at_index_lookup in Hx as [Hxl Hx]. destruct (Z.eqb_spec (Term x) (aa_PrevLogTerm args)) as [Ht|Ht]; cbn.
    + rewrite C2. destruct (Hrec (Z.to_nat (aa_PrevLogIndex args))) as (H1 & H2 & H3); [unfold len in *; lia..| |].
      { replace (Z.to_nat (aa_PrevLogIndex args)) with (S (Z.to_nat (aa_PrevLogIndex args - 1))) by lia.
        apply (Hm _ _ _ Hx Hy). congruence. }
      split; [done|]. split; [|done]. destruct H2; auto.
    + split; [done|]. split; [eauto|]. intros P HP.
      destruct (le_lt_dec (length P) (Z.to_nat (aa_PrevLogIndex args - 1))) as [|Hlt]; [left; by apply prefix_short_take|right].
      intros Hag.
      destruct (lookup_lt_is_Some_2 P _ Hlt) as [z Hz]. pose proof (prefix_lookup _ _ _ _ HP Hz) as Hz'.
      rewrite (Hag _ _ _ Hz Hy) in Hz'. congruence.
  - cbn. rewrite C2. replace (Z.to_nat (aa_PrevLogIndex args)) with 0%nat by lia.
    destruct (Hrec 0%nat) as (H1 & H2 & H3); [lia|lia|done|]. rewrite drop_0 in *. split; [done|]. split; [|done]. destruct H2; auto.
Qed.

Section machine.
Context (addrs : list bytes) (id : bytes -> bytes).
Hypothesis Haddrs : NoDup addrs.
Hypothesis Hinj : forall a b, a ∈ addrs -> b ∈ addrs -> id a = id b -> a = b.
Hypothesis Hid : forall a, a ∈ addrs -> id a <> [] /\ len (id a) + 12 < 2 ^ 32.

(** The first [ci] entries of [L] are committed, by term [T]. *)
Definition ci_ok (tr : list Cluster) (T ci : Z) (L : list LogEntry) : Prop :=
  0 <= ci <= len L /\ (0 < ci -> exists t P, committed addrs tr t P /\ t <= T /\ take (Z.to_nat ci) L `prefix_of` P).

Definition request_ok (tr : list Cluster) (a : bytes) (args : AppendEntriesArgs) (L : list LogEntry) : Prop :=
  leads tr (aa_Term args) a L /\ carries args L /\ ci_ok tr (aa_Term args) (aa_LeaderCommit args) L.

Definition mlog_ok (tr : list Cluster) (m : msg) : Prop :=
  match m with
  | VoteReq src _ args => exists C, stands tr (va_Term args) src C /\ va_LastLogIndex args = len C /\ va_LastLogTerm args = last_term C
  | VoteRep _ _ _ _ => True
  | AppReq src _ args => exists L, request_ok tr src args L
  | AppRep p a args reply => exists L, request_ok tr a args L /\
      (ar_Success reply = true -> exists L', held tr (aa_Term args) p L' /\ L `prefix_of` L')
  end.

(** What a node knows about commitment, and what it delivered. *)
Record commit_ok (tr : list Cluster) (n : Raft) : Prop := {
  co_ci : ci_ok tr (r_currentTerm n) (r_commitIndex n) (entries n);
  co_applied : 0 <= r_lastApplied n <= r_commitIndex n;
  co_applying : forall i k, r_applying n = Some (i, k) -> i = r_lastApplied n + 1 /\ k <= r_commitIndex n;
  co_applyCh : exists k, r_applyCh n = drop k (take (Z.to_nat (r_lastApplied n)) (entries n));
  co_index : from_index 1 (entries n);
  co_lead : r_state n = Leader -> forall p, p ∈ r_peers n ->
    1 <= map_get (r_nextIndex n) p <= len (entries n) + 1 /\ 0 <= map_get (r_matchIndex n) p <= len (entries n) /\
    (0 < map_get (r_matchIndex n) p -> exists L, held tr (r_currentTerm n) p L /\
       take (Z.to_nat (map_get (r_matchIndex n) p)) (entries n) `prefix_of` L)
}.

Record sys (tr : list Cluster) (c : Cluster) : Prop := {
  sy_inv : inv addrs id tr c;
  sy_logs : logs_ok addrs id tr (c_nodes c);
  sy_msgs : forall m, m ∈ c_msgs c -> mlog_ok tr m;
  sy_nodes : forall c0 a n, c0 ∈ tr -> c_nodes c0 !! a = Some n -> commit_ok tr n
}.

(** ** Growing runs *)

Lemma ci_ok_cons tr c T ci L : ci_ok tr T ci L -> ci_ok (c :: tr) T ci L.
Proof.
  intros [H1 H2]. split; [done|]. intros H0. destruct (H2 H0) as (t & P & ? & ? & ?). exists t, P.
  split_and!; [by apply committed_cons|done..].
Qed.

Lemma request_ok_cons tr c a args L : request_ok tr a args L -> request_ok (c :: tr) a args L.
Proof. intros (? & ? & ?). split_and!; [by apply held_as_cons|done|by apply ci_ok_cons]. Qed.

Lemma mlog_ok_cons tr c m : mlog_ok tr m -> mlog_ok (c :: tr) m.
Proof.
  destruct m; cbn.
  - intros (C & ? & ?). exists C. split; [by apply held_as_cons|done].
  - done.
  - intros (L & ?). exists L. by apply request_ok_cons.
  - intros (L & ? & Hs). exists L. split; [by apply request_ok_cons|]. intros Hok. destruct (Hs Hok) as (L' & ? & ?). exists L'.
    split; [by apply held_cons|done].
Qed.

Lemma commit_ok_cons tr c n : commit_ok tr n -> commit_ok (c :: tr) n.
Proof.
  intros [C1 C2 C3 C4 C5 C6]. split; [by apply ci_ok_cons|done..|].
  intros Hs p Hp. destruct (C6 Hs p Hp) as (? & ? & Hm). split_and!; try lia. intros Hpos. destruct (Hm Hpos) as (L & ? & ?).
  exists L. split; [by apply held_cons|done].
Qed.

(** The committed entries survive in another log that keeps them. *)
Lemma ci_ok_keep tr T T' ci L L' :
  ci_ok tr T ci L -> T <= T' -> take (Z.to_nat ci) L `prefix_of` L' -> ci_ok tr T' ci L'.
Proof.
  intros [H1 H2] HT Hpre. split.
  - apply prefix_length in Hpre. rewrite length_take in Hpre. unfold len in *. lia.
  - intros H0. destruct (H2 H0) as (t & P & ? & ? & HP). exists t, P. split_and!; [done|lia|].
    rewrite (take_same L L' (Z.to_nat ci) (Z.to_nat ci)) by (done || unfold len in *; lia). done.
Qed.

Lemma sys_step_node tr c c' a n n' :
  c ∈ tr -> sys tr c -> c_nodes c !! a = Some n -> c_nodes c' = <[a:=n']> (c_nodes c) -> inv addrs id (c' :: tr) c' ->
  lmove addrs id tr (c' :: tr) a n n' -> commit_ok (c' :: tr) n' ->
  (forall m, m ∈ c_msgs c' -> m ∈ c_msgs c \/ mlog_ok (c' :: tr) m) -> sys (c' :: tr) c'.
Proof using Hinj.
  intros Hc [S1 S2 S3 S4] Hn Hc' Hinv Hmv Hco Hm. split; [done| | |].
  - eapply logs_ok_move; [done..| |by apply (vo_nodes _ _ _ _ (inv_votes _ _ _ _ S1) _ _ Hn)|done].
    intros T b1 b2. by eapply led_unique; [|apply Hinv].
  - intros m Hmm. destruct (Hm m Hmm); [by apply mlog_ok_cons, S3|done].
  - intros c0 b m [-> |Hc0]%elem_of_cons Hb; [|by eapply commit_ok_cons, S4].
    rewrite Hc' in Hb. destruct (decide (b = a)) as [-> | Hne].
    + rewrite lookup_insert_eq in Hb. by injection Hb as <-.
    + rewrite lookup_insert_ne in Hb by done. by eapply commit_ok_cons, S4.
Qed.

(** ** Transitions that keep the log *)

Section keeping.
Context (tr : list Cluster) (c : Cluster) (a : bytes) (n n' : Raft).
Hypothesis Hc : c ∈ tr.
Hypothesis Hsys : sys tr c.
Hypothesis Hn : c_nodes c !! a = Some n.

Lemma lmove_keep tr' :
  tr ⊆ tr' -> r_log n' = r_log n -> r_currentTerm n <= r_currentTerm n' -> (r_state n' <> Follower -> 0 < r_currentTerm n') ->
  (r_state n' = Leader -> r_currentTerm n' = r_currentTerm n /\ (r_state n = Leader \/
     r_state n = Candidate /\ exists q, majority addrs q /\ forall z, z ∈ q -> voted tr z (r_currentTerm n') (id a))) ->
  (r_state n' = Candidate -> r_state n = Candidate /\ r_currentTerm n' = r_currentTerm n \/ r_currentTerm n < r_currentTerm n') ->
  (r_votedFor n' <> [] -> r_votedFor n' = r_votedFor n /\ r_currentTerm n' = r_currentTerm n \/
    forall b, b ∈ addrs -> r_votedFor n' = id b -> exists C, stands tr' (r_currentTerm n') b C /\ uptodate C (entries n)) ->
  lmove addrs id tr tr' a n n'.
Proof using Hc Hsys Hn.
  intros Htr Hl Ht Hpos Hlead Hcand Hvote. pose proof (sy_logs _ _ Hsys) as Hok.
  destruct (lg_node _ _ _ _ Hok _ _ Hn) as [Hlog _].
  destruct (lg_held _ _ _ _ Hok (r_currentTerm n) a (entries n)) as (Hr & Hs & Hb); [by exists c, n|].
  split; rewrite ?Hl; try done.
  - split_and!; [|done|by eapply below_mono]. intros i e He. destruct (Hr i e He) as (b & L' & (c0 & m & Hc0 & H) & HP).
    exists b, L'. split; [|done]. exists c0, m. split; [by apply Htr|done].
  - auto.
  - intros HL. destruct (Hlead HL) as [? [?|[? _]]]; auto.
  - auto.
  - intros Hv. destruct (Hvote Hv); auto.
  - intros HL Hnl. by destruct (Hlead HL) as [? [?|[_ ?]]].
Qed.

Lemma lmove_quiet tr' : tr ⊆ tr' -> same_role n n' -> r_log n' = r_log n -> lmove addrs id tr tr' a n n'.
Proof using Hc Hsys Hn.
  intros Htr (_ & Ht & Hv & Hs & _) Hl. destruct (lg_node _ _ _ _ (sy_logs _ _ Hsys) _ _ Hn) as [_ Hpos].
  apply lmove_keep; rewrite ?Ht, ?Hs, ?Hv; auto; lia.
Qed.

Lemma lmove_follower tr' T :
  tr ⊆ tr' -> role_is Follower T [] n n' -> r_currentTerm n <= T -> r_log n' = r_log n -> lmove addrs id tr tr' a n n'.
Proof using Hc Hsys Hn.
  intros Htr (_ & Ht & Hv & Hs & _) Hle Hl. apply lmove_keep; rewrite ?Ht, ?Hs, ?Hv; done.
Qed.

Lemma commit_ok_keep tr' :
  commit_ok tr' n -> same_logs n n' -> same_ids n n' -> r_currentTerm n <= r_currentTerm n' ->
  (r_state n' = Leader -> r_state n = Leader /\ r_currentTerm n' = r_currentTerm n) -> commit_ok tr' n'.
Proof.
  intros [C1 C2 C3 C4 C5 C6] (L1 & L2 & L3 & L4 & L5 & L6 & L7) (_ & I2 & _) Ht Hs.
  split; rewrite ?L1, ?L2, ?L3, ?L4, ?L5, ?L6, ?L7, ?I2; try done.
  - eapply ci_ok_keep; [done|done|apply prefix_take].
  - intros HL. destruct (Hs HL) as [HL' ->]. by apply C6.
Qed.

Lemma commit_now tr' c' : tr' = c' :: tr -> commit_ok tr' n.
Proof using Hc Hsys Hn. intros ->. by eapply commit_ok_cons, (sy_nodes _ _ Hsys). Qed.
End keeping.

(** A step that changes neither logs nor messages. *)
Lemma sys_still tr c c' a n n' :
  c ∈ tr -> sys tr c -> c_nodes c !! a = Some n -> c_nodes c' = <[a:=n']> (c_nodes c) -> inv addrs id (c' :: tr) c' ->
  same_logs n n' -> (same_role n n' \/ exists T, role_is Follower T [] n n' /\ r_currentTerm n <= T) ->
  (forall m, m ∈ c_msgs c' -> m ∈ c_msgs c \/ mlog_ok (c' :: tr) m) -> sys (c' :: tr) c'.
Proof using Hinj.
  intros Hc Hsys Hn Hc' Hinv Hl Hr Hm. assert (tr ⊆ c' :: tr) as Htr by (intros x Hx; by right).
  pose proof Hl as [Hlog _]. eapply sys_step_node; [done..| | |done].
  - destruct Hr as [Hr|(T & Hr & Hle)]; [by eapply lmove_quiet|by eapply lmove_follower].
  - destruct Hr as [(Hids & Ht & _ & Hs & _)|(T & (Hids & Ht & _ & Hs & _) & Hle)];
      (eapply commit_ok_keep; [by eapply commit_now|done|done|lia|rewrite Hs; done]).
Qed.

(** ** Elections *)

Lemma uptodate_refl L : uptodate L L.
Proof. by right. Qed.

Lemma sys_timeout tr c c' a n x n' :
  c ∈ tr -> sys tr c -> c_nodes c !! a = Some n -> r_currentTerm n + 1 < 2 ^ 64 ->
  startElection Written n = (x, n') -> c_nodes c' = <[a:=n']> (c_nodes c) ->
  c_msgs c' = sent x (fun e => (fun p => VoteReq a p (el_args e)) <$> r_peers n) ++ c_msgs c ->
  inv addrs id (c' :: tr) c' -> sys (c' :: tr) c'.
Proof using Hinj.
  intros Hc Hsys Hn HT E Hc' Hmsgs Hinv. assert (tr ⊆ c' :: tr) as Htr by (intros y Hy; by right).
  pose proof (still_startElection _ _ _ _ E) as Hl. pose proof Hl as [Hlog _].
  destruct (vo_nodes _ _ _ _ (inv_votes _ _ _ _ (sy_inv _ _ Hsys)) _ _ Hn) as [N1 (_ & Nid & _) _ N4 _ _].
  destruct (startElection_role n) as (e & n1 & E' & Hr & HTe & _). rewrite E in E'. injection E' as -> ->.
  unfold u64 in *. rewrite Z.mod_small in Hr, HTe by lia. destruct Hr as (Hids & Ht & Hv & Hs & _).
  assert (stands (c' :: tr) (r_currentTerm n1) a (entries n)) as Hst.
  { exists c', n1. split_and!; [left|by rewrite Hc', lookup_insert_eq|done|by rewrite Hlog|done]. }
  eapply sys_step_node; [done..| | |].
  - eapply lmove_keep; [done..|lia| | | |]; rewrite ?Hs, ?Hv, ?Nid.
    + lia.
    + done.
    + right. lia.
    + intros _. right. intros b Hb Heq. apply Hinj in Heq as <-; [|done|done]. exists (entries n). split; [done|apply uptodate_refl].
  - eapply commit_ok_keep; [by eapply commit_now|done|done|lia|by rewrite Hs].
  - intros m. rewrite Hmsgs. intros [Hm|Hm]%elem_of_app; [right|by left].
    apply list_elem_of_fmap in Hm as (p & -> & _). exists (entries n). rewrite HTe, <- Ht. split; [done|].
    by eapply startElection_args, E; apply (lg_node _ _ _ _ (sy_logs _ _ Hsys) _ _ Hn).
Qed.

Lemma sys_vote_request tr c c' src a args n io x n' :
  c ∈ tr -> sys tr c -> VoteReq src a args ∈ c_msgs c -> c_nodes c !! a = Some n -> writes_ok io ->
  handleRequestVote io args n = (x, n') -> c_nodes c' = <[a:=n']> (c_nodes c) ->
  c_msgs c' = sent x (fun reply => [VoteRep a src args reply]) ++ c_msgs c ->
  inv addrs id (c' :: tr) c' -> sys (c' :: tr) c'.
Proof using Hinj.
  intros Hc Hsys Hm Hn Hio E Hc' Hmsgs Hinv. assert (tr ⊆ c' :: tr) as Htr by (intros y Hy; by right).
  pose proof (still_handleRequestVote _ _ _ _ _ E) as Hl. pose proof Hl as [Hlog _].
  assert (forall m, m ∈ c_msgs c' -> m ∈ c_msgs c \/ mlog_ok (c' :: tr) m) as Hms.
  { intros m. rewrite Hmsgs. intros [Hm'|]%elem_of_app; [right|by left].
    destruct x; [|by apply not_elem_of_nil in Hm'..]. by apply list_elem_of_singleton in Hm' as ->. }
  destruct (handleRequestVote_role _ _ _ _ _ Hio E) as [(_ & Hr)|(-> & st & Hr & Hcase)].
  { eapply sys_still; [done..| |done]. destruct Hr as [|[Hr Hlt]]; [by left|right]. exists (va_Term args). split; [done|lia]. }
  destruct (inv_msgs _ _ _ _ (sy_inv _ _ Hsys) _ Hm) as (HT & Hsrc & Hcand).
  destruct (sy_msgs _ _ Hsys _ Hm) as (C & HC & HC1 & HC2).
  pose proof (lg_node _ _ _ _ (sy_logs _ _ Hsys) _ _ Hn) as [Hok Hpos]. destruct Hr as (Hids & Ht & Hv & Hs & _).
  eapply sys_step_node; [done..| | |done].
  - eapply lmove_keep; [done..| | | | |]; rewrite ?Ht, ?Hs, ?Hv.
    + destruct Hcase as [[]|[]]; lia.
    + destruct Hcase as [[_ ->]|(<- & -> & _)]; done.
    + intros ->. destruct Hcase as [[_ ?]|(<- & <- & _)]; [done|auto].
    + intros ->. destruct Hcase as [[? ?]|(<- & <- & _)]; [done|auto].
    + intros _. right. intros b Hb Heq. rewrite Hcand in Heq. apply Hinj in Heq as <-; [|done|done].
      exists C. split; [by apply held_as_cons|]. by eapply handleRequestVote_uptodate.
  - eapply commit_ok_keep; [by eapply commit_now|done|done| |]; rewrite ?Hs, ?Ht.
    + destruct Hcase as [[]|[]]; lia.
    + intros ->. destruct Hcase as [[_ ?]|(<- & <- & _)]; done.
Qed.

Lemma sys_vote_won tr c c' a T p e n x n' :
  c ∈ tr -> sys tr c -> c_elections c !! (a, T) = Some e -> el_phase e !! p = Some Won -> c_nodes c !! a = Some n ->
  vote_won (el_args e) n = (x, n') -> c_nodes c' = <[a:=n']> (c_nodes c) -> c_msgs c' = c_msgs c ->
  inv addrs id (c' :: tr) c' -> sys (c' :: tr) c'.
Proof using Hinj.
  intros Hc Hsys He Hp Hn E Hc' Hmsgs Hinv. assert (tr ⊆ c' :: tr) as Htr by (intros y Hy; by right).
  pose proof (lg_node _ _ _ _ (sy_logs _ _ Hsys) _ _ Hn) as [Hok Hpos].
  assert (forall m, m ∈ c_msgs c' -> m ∈ c_msgs c \/ mlog_ok (c' :: tr) m) as Hms by (rewrite Hmsgs; auto).
  destruct (vote_won_logs _ _ _ _ Hok E) as [-> |(Hids & Ht & Hs & Hs' & Ht' & Hv & L1 & L2 & L3 & L4 & L5 & L6)].
  { eapply sys_still; [done..|by left|done]. }
  destruct (inv_els _ _ _ _ (sy_inv _ _ Hsys) _ _ _ He) as (HTe & Hmaj & q & N & S & L & Hvq & Hph). apply Hph in Hp. cbn in Hp.
  destruct (vo_nodes _ _ _ _ (inv_votes _ _ _ _ (sy_inv _ _ Hsys)) _ _ Hn) as [_ (Na & _ & Np) _ _ _ _].
  eapply sys_step_node; [done..| | |done].
  - eapply lmove_keep; [done..| | | | |]; rewrite ?Ht', ?Hs', ?Hv; auto; try lia.
    + intros _. apply Hpos. by rewrite Hs.
    + intros _. split; [done|]. right. split; [done|]. exists (a :: q). split; [|intros z Hz; rewrite Ht, HTe; auto].
      split_and!; [done..|]. apply majority_quorum. lia.
  - destruct (commit_now tr c a n Hc Hsys Hn _ c' eq_refl) as [C1 C2 C3 C4 C5 C6]. destruct Hids as (_ & I2 & _).
    split; rewrite ?L1, ?L2, ?L3, ?L4, ?L5, ?Ht', ?I2; try done. intros _ p' Hp'.
    assert (p' <> r_addr n) as Hne. { rewrite Na. rewrite Np, list_elem_of_filter in Hp'. apply Hp'. }
    destruct (L6 p' Hp' Hne) as [-> ->]. pose proof (len_nonneg (entries n)). split_and!; lia.
Qed.

(** ** Replication *)

Lemma sys_replicate tr c c' a p n x n' :
  c ∈ tr -> sys tr c -> c_nodes c !! a = Some n -> p ∈ r_peers n -> replicateTo p n = (x, n') ->
  c_nodes c' = <[a:=n']> (c_nodes c) ->
  c_msgs c' = sent x (fun o => match o with Some args => [AppReq a p args] | None => [] end) ++ c_msgs c ->
  inv addrs id (c' :: tr) c' -> sys (c' :: tr) c'.
Proof using Hinj.
  intros Hc Hsys Hn Hp E Hc' Hmsgs Hinv. pose proof (lg_node _ _ _ _ (sy_logs _ _ Hsys) _ _ Hn) as [Hok _].
  destruct (commit_now tr c a n Hc Hsys Hn _ c' eq_refl) as [C1 C2 C3 C4 C5 C6].
  destruct (decide (r_state n = Leader)) as [Hs|Hs].
  2: { revert E. unfold replicateTo. mrun. rewrite bool_decide_false by done. intros [= <- <-].
       eapply sys_still; [done..|by left|]. rewrite Hmsgs. by left. }
  destruct (C6 Hs p Hp) as (Hnx & _). destruct (replicateTo_run p n Hok Hnx Hs) as (pt & E' & Hpt).
  rewrite E in E'. injection E' as -> ->. eapply sys_still; [done..|by left|].
  intros m. rewrite Hmsgs. intros [->%list_elem_of_singleton|]%elem_of_app; [right|by left].
  exists (entries n). split_and!.
  - exists c, n. split_and!; [by right|done..].
  - split; cbn; [lia|done|done|apply Hok|apply Hok|apply Hok].
  - exact C1.
Qed.

Lemma sys_propose tr c c' a cmd data n x n' :
  c ∈ tr -> sys tr c -> c_nodes c !! a = Some n -> len (entries n) + 2 < 2 ^ 64 -> len data < 2 ^ 32 ->
  Propose cmd data n = (x, n') -> c_nodes c' = <[a:=n']> (c_nodes c) -> c_msgs c' = c_msgs c ->
  inv addrs id (c' :: tr) c' -> sys (c' :: tr) c'.
Proof using Hinj.
  intros Hc Hsys Hn Hlen Hd E Hc' Hmsgs Hinv. pose proof (sy_logs _ _ Hsys) as Hlogs.
  pose proof (lg_node _ _ _ _ Hlogs _ _ Hn) as [Hok Hpos].
  destruct (vo_nodes _ _ _ _ (inv_votes _ _ _ _ (sy_inv _ _ Hsys)) _ _ Hn) as [_ (Na & _ & Np) _ N4 _ _].
  assert (forall m, m ∈ c_msgs c' -> m ∈ c_msgs c \/ mlog_ok (c' :: tr) m) as Hms by (rewrite Hmsgs; auto).
  pose proof (quiet_Propose _ _ _ _ _ E) as (Hids & Ht & Hv & Hs & _).
  destruct (Propose_logs _ _ _ _ _ Hok N4 Hlen Hd E) as [-> |(Hlead & Hok' & He & L2 & L3 & L4 & L5 & L6 & L7)].
  { eapply sys_still; [done..|by left|done]. }
  set (e := mkLogEntry (r_currentTerm n) (len (entries n) + 1) cmd data) in *.
  assert (entries n `prefix_of` entries n') as Hpre by (rewrite He; by apply prefix_app_r).
  assert (held tr (r_currentTerm n) a (entries n)) as Hheld by (by exists c, n).
  destruct (lg_held _ _ _ _ Hlogs _ _ _ Hheld) as (Hr & Hsrt & Hb).
  assert (forall i x, (entries n ++ [e]) !! i = Some x -> entries n !! i = Some x \/ i = length (entries n) /\ x = e) as Hlk.
  { intros i y [H|[Hge H]]%lookup_app_Some; [by left|right]. apply list_lookup_singleton_Some in H as [H <-]. split; [lia|done]. }
  assert (0 < r_currentTerm n) as Hp by (apply Hpos; by rewrite Hlead).
  eapply sys_step_node; [done..| | |done].
  - split; rewrite ?Ht, ?Hs, ?Hv; try done; auto; try lia.
    + rewrite He. split_and!.
      * intros i y [Hy|[-> ->]]%Hlk.
        -- destruct (Hr i y Hy) as (b & L' & HL & HP). exists b, L'. split; [by apply held_as_cons|].
           rewrite take_app_le by (apply lookup_lt_Some in Hy; lia). done.
        -- exists a, (entries n'). rewrite He, take_ge by (rewrite length_app; simpl; lia). split; [|done].
           exists c', n'. split_and!; [left|by rewrite Hc', lookup_insert_eq|done|done|congruence].
      * intros i j y z Hij Hy Hz. apply Hlk in Hy as [Hy|[-> ->]]; apply Hlk in Hz as [Hz|[-> ->]].
        -- by eapply Hsrt.
        -- apply (Hb _ _ Hy).
        -- apply lookup_lt_Some in Hz. lia.
        -- done.
      * intros i y [Hy|[-> ->]]%Hlk; [by apply (Hb _ _ Hy)|cbn; lia].
    + intros P HP. left. by etrans.
    + intros HC. congruence.
  - destruct (commit_now tr c a n Hc Hsys Hn _ c' eq_refl) as [C1 C2 C3 C4 C5 C6]. destruct Hids as (_ & I2 & _).
    assert (forall k, k <= len (entries n) -> take (Z.to_nat k) (entries n') = take (Z.to_nat k) (entries n)) as Htk.
    { intros k Hk. rewrite He, take_app_le by (unfold len in Hk; lia). done. }
    split; rewrite ?L2, ?L3, ?L4, ?L5, ?L6, ?Ht, ?I2; try done.
    + eapply ci_ok_keep; [done|done|]. etrans; [apply prefix_take|done].
    + rewrite Htk by (destruct C1; lia). done.
    + apply Hok'.
    + intros _ p Hpp. destruct (C6 Hlead p Hpp) as (Hnx & Hmt & Hh).
      assert (map_get (r_matchIndex n') p = map_get (r_matchIndex n) p) as ->.
      { rewrite L7, map_get_ne; [done|]. intros ->. rewrite Np, list_elem_of_filter, Na in Hpp. by destruct Hpp. }
      rewrite Htk by lia. rewrite He, len_app, len_cons, len_nil. split_and!; [lia..|done].
Qed.

(** What is committed on a node is in the log of any leader it follows. *)
Lemma ci_agree tr nodes T T' ci L a L' :
  logs_ok addrs id tr nodes -> ci_ok tr T ci L -> T <= T' -> leads tr T' a L' -> agree (take (Z.to_nat ci) L) L'.
Proof.
  intros Hok [Hci Hcom] Hle HL'. destruct (decide (0 < ci)) as [Hpos|Hz].
  - destruct (Hcom Hpos) as (t & P & HP & Ht & Hpre).
    assert (agree P L') as Hag by (eapply committed_agree; [done|done| |done]; lia).
    intros i x y Hx Hy. eapply Hag; [by eapply prefix_lookup|done].
  - replace (Z.to_nat ci) with 0%nat by lia. by intros i x y Hx.
Qed.

Lemma sys_append_request tr c c' src a args n io x n' :
  c ∈ tr -> sys tr c -> AppReq src a args ∈ c_msgs c -> c_nodes c !! a = Some n -> healthy_io io ->
  handleAppendEntries io args n = (x, n') -> c_nodes c' = <[a:=n']> (c_nodes c) ->
  c_msgs c' = sent x (fun reply => [AppRep a src args reply]) ++ c_msgs c ->
  inv addrs id (c' :: tr) c' -> sys (c' :: tr) c'.
Proof using Hinj.
  intros Hc Hsys Hm Hn Hio E Hc' Hmsgs Hinv. pose proof (sy_logs _ _ Hsys) as Hlogs.
  pose proof (lg_node _ _ _ _ Hlogs _ _ Hn) as [Hok Hpos]. destruct (sy_msgs _ _ Hsys _ Hm) as (L & Hreq & Hcar & Hlc).
  assert (request_ok (c' :: tr) src args L) as Hrq by (apply request_ok_cons; by split_and!).
  destruct (handleAppendEntries_logs _ _ _ _ _ Hio Hok (carries_args _ _ Hcar) E) as
    [(Hl & -> & Hlt)|(Hle & (L3 & L4 & L5 & L6 & L7) & Hok' & He & -> & Hci)].
  { eapply sys_still; [done..| |].
    - destruct (handleAppendEntries_role _ _ _ _ _ (proj1 Hio) E) as [|[_ [|[? _]]]]; [by left|lia|lia].
    - intros m. rewrite Hmsgs. intros [->%list_elem_of_singleton|]%elem_of_app; [right|by left]. by exists L. }
  destruct (handleAppendEntries_follows _ _ _ _ _ (proj1 Hio) Hle E) as [Hs Ht].
  assert (held tr (r_currentTerm n) a (entries n)) as Hheld by (by exists c, n).
  destruct (lg_held _ _ _ _ Hlogs _ _ _ Hheld) as (Hr & Hsrt & Hb).
  destruct (lg_held _ _ _ _ Hlogs _ _ _ (held_as_held _ _ _ _ _ Hreq)) as (HrL & HsL & HbL).
  destruct (follow_log_spec (entries n) L args Hcar) as (F1 & F2 & F3); [by eapply rooted_matching|]. rewrite <- He in F1, F2, F3.
  pose proof (handleAppendEntries_role _ _ _ _ _ (proj1 Hio) E) as Hrole.
  assert (same_ids n n') as Hids by (destruct Hrole as [[? _]|[[? _] _]]; done).
  eapply sys_step_node; [done..| | |].
  - split; rewrite ?Hs, ?Ht; try done.
    + assert (forall k, rooted tr (take k (entries n)) /\ tsorted (take k (entries n)) /\ below (aa_Term args) (take k (entries n))) as Htake.
      { intros k. assert (forall i y, take k (entries n) !! i = Some y -> entries n !! i = Some y) as Hlk.
        { intros i y. apply prefix_lookup, prefix_take. }
        split_and!; [apply (rooted_prefix _ _ (entries n)); [done|apply prefix_take]| |].
        - intros i j y z Hij Hy Hz. by eapply Hsrt; [done|apply Hlk|apply Hlk].
        - intros i y Hy. specialize (Hb _ _ (Hlk _ _ Hy)). lia. }
      destruct F2 as [-> |[-> |[k ->]]].
      * split_and!; [by apply rooted_cons|done|by eapply below_mono].
      * split_and!; [by apply rooted_cons|done|done].
      * destruct (Htake k) as (? & ? & ?). split_and!; [by apply rooted_cons|done|done].
    + intros P HP. destruct (F3 P HP); [by left|right; by exists src, L].
    + intros Hv. destruct Hrole as [(_ & Ht' & Hv' & _)|((_ & _ & Hv' & _) & _)]; [|congruence]. left. split; congruence.
  - destruct (commit_now tr c a n Hc Hsys Hn _ c' eq_refl) as [C1 C2 C3 C4 C5 C6].
    assert (take (Z.to_nat (r_commitIndex n)) (entries n) `prefix_of` entries n') as Hkeep.
    { destruct (F3 (take (Z.to_nat (r_commitIndex n)) (entries n))) as [|Hdis]; [apply prefix_take|done|]. destruct Hdis.
      eapply ci_agree; [done| |exact Hle|done]. apply (sy_nodes _ _ Hsys c a n Hc Hn). }
    assert (r_commitIndex n <= r_commitIndex n' /\ ci_ok (c' :: tr) (aa_Term args) (r_commitIndex n') (entries n')) as [Hmono Hci'].
    { rewrite Hci. destruct (follow_log (entries n) args).2 eqn:Eok; cbn [andb]; [|split; [lia|by eapply ci_ok_keep]].
      destruct (Z.ltb_spec (r_commitIndex n) (aa_LeaderCommit args)) as [Hlt|]; [|split; [lia|by eapply ci_ok_keep]].
      specialize (F1 eq_refl). assert (aa_LeaderCommit args <= len (entries n')) as Hlen.
      { destruct Hlc as [? _]. apply prefix_length in F1. unfold len in *. lia. }
      rewrite Z.min_l by done. split; [lia|]. eapply ci_ok_keep; [by apply ci_ok_cons|done|]. etrans; [apply prefix_take|done]. }
    split; rewrite ?L3, ?L4, ?L5, ?Ht; try done.
    + lia.
    + intros i k Hik. destruct (C3 i k Hik). split; [done|lia].
    + destruct C4 as [k Hk]. exists k. rewrite Hk. f_equal. symmetry.
      apply (take_same _ _ (Z.to_nat (r_commitIndex n))); [done|destruct C1; unfold len in *; lia|lia].
    + apply Hok'.
    + by rewrite Hs.
  - intros m. rewrite Hmsgs. intros [->%list_elem_of_singleton|]%elem_of_app; [right|by left].
    exists L. split; [done|]. intros Hsuc. cbn in Hsuc. exists (entries n'). split; [|auto].
    exists c', n'. split_and!; [left|by rewrite Hc', lookup_insert_eq|done|done].
Qed.

(** ** Commitment *)

Lemma replicas_count k n :
  replicas k n = 1 + len (filter (fun p => k <= map_get (r_matchIndex n) p) (r_peers n)).
Proof.
  unfold replicas. assert (forall l m, fold_left (fun count peer => if k <=? map_get (r_matchIndex n) peer then count + 1 else count) l m =
    m + len (filter (fun p => k <= map_get (r_matchIndex n) p) l)) as H; [|apply H].
  induction l as [|p l IH]; intros m; cbn [fold_left]; [rewrite filter_nil, len_nil; lia|].
  rewrite IH, filter_cons. destruct (Z.leb_spec k (map_get (r_matchIndex n) p)).
  - rewrite decide_True by done. rewrite len_cons. lia.
  - rewrite decide_False by lia. done.
Qed.

(** The commit index of a leader after it counted its replicas. *)
Lemma counted_commit tr a n k e :
  r_peers n = filter (fun p => p <> a) addrs -> a ∈ addrs -> held tr (r_currentTerm n) a (entries n) -> 0 < r_currentTerm n ->
  (forall p, p ∈ r_peers n -> 0 < map_get (r_matchIndex n) p -> map_get (r_matchIndex n) p <= len (entries n) /\
    exists L, held tr (r_currentTerm n) p L /\ take (Z.to_nat (map_get (r_matchIndex n) p)) (entries n) `prefix_of` L) ->
  at_index (entries n) k = Some e -> Term e = r_currentTerm n -> (len (r_peers n) + 1) / 2 < replicas k n ->
  ci_ok tr (r_currentTerm n) k (entries n).
Proof using Haddrs.
  intros Hpe Ha Hself H0 Hmatch He Ht Hcount. pose proof (at_index_lookup _ _ _ He) as [Hk _]. split; [lia|]. intros _.
  set (P := take (Z.to_nat k) (entries n)). destruct (last_term_take _ _ _ He) as [HPne HPt]. rewrite Ht in HPt.
  exists (r_currentTerm n), P. split_and!; [|lia|done]. split_and!; [done..|].
  exists (a :: filter (fun p => k <= map_get (r_matchIndex n) p) (r_peers n)). rewrite replicas_count in Hcount. split.
  - split_and!.
    + apply NoDup_cons. split; [|apply NoDup_filter; rewrite Hpe; by apply NoDup_filter].
      rewrite Hpe, !list_elem_of_filter. intros (_ & Hne & _). by apply Hne.
    + intros z [-> |Hz]%elem_of_cons; [done|]. rewrite Hpe, !list_elem_of_filter in Hz. by destruct Hz as (_ & _ & Hz).
    + rewrite len_cons. rewrite Hpe in Hcount at 1. rewrite (peers_count addrs Haddrs a Ha) in Hcount.
      pose proof (Z.mod_pos_bound (len addrs) 2). pose proof (Z.div_mod (len addrs) 2). lia.
  - intros z [-> |Hz]%elem_of_cons; (split; [done|]; split; [done|]).
    + exists (entries n). split; [done|apply prefix_take].
    + apply list_elem_of_filter in Hz as [Hkm Hz]. destruct (Hmatch z Hz) as (Hml & L & HL & HPL); [lia|].
      exists L. split; [done|]. etrans; [|done]. unfold P.
      rewrite <- (Nat.min_l (Z.to_nat k) (Z.to_nat (map_get (r_matchIndex n) z))), <- take_take by lia. apply prefix_take.
Qed.

Lemma sys_append_reply tr c c' p a args reply n x n' :
  c ∈ tr -> sys tr c -> AppRep p a args reply ∈ c_msgs c -> c_nodes c !! a = Some n ->
  append_reply Written p args reply n = (x, n') -> c_nodes c' = <[a:=n']> (c_nodes c) -> c_msgs c' = c_msgs c ->
  inv addrs id (c' :: tr) c' -> sys (c' :: tr) c'.
Proof using Haddrs Hinj.
  intros Hc Hsys Hm Hn E Hc' Hmsgs Hinv. pose proof (sy_logs _ _ Hsys) as Hlogs.
  pose proof (lg_node _ _ _ _ Hlogs _ _ Hn) as [Hok Hpos]. destruct (sy_msgs _ _ Hsys _ Hm) as (L & (Hreq & Hcar & Hlc) & Hsuc).
  assert (forall m, m ∈ c_msgs c' -> m ∈ c_msgs c \/ mlog_ok (c' :: tr) m) as Hms by (rewrite Hmsgs; auto).
  destruct (commit_now tr c a n Hc Hsys Hn _ c' eq_refl) as [C1 C2 C3 C4 C5 C6].
  pose proof (append_reply_role _ _ _ _ _ _ E) as Hrole.
  destruct (append_reply_logs p args reply n x n') as [Hl|(Hrole' & Hs & HT & L1 & L3 & L4 & L5 & Hcase)];
    [done|destruct C1; lia| |done| |].
  { intros e He. rewrite (carries_last _ _ _ Hcar He). pose proof (ca_len _ _ Hcar). pose proof (len_nonneg L). lia. }
  { eapply sys_still; [done..| |done]. destruct Hrole as [|[? ?]]; [by left|right; eexists; split; [done|lia]]. }
  clear Hrole. assert (tr ⊆ c' :: tr) as Htr by (intros y Hy; by right).
  destruct (vo_nodes _ _ _ _ (inv_votes _ _ _ _ (sy_inv _ _ Hsys)) _ _ Hn) as [Na (_ & _ & Np) _ N4 _ _].
  pose proof Hrole' as ((_ & I2 & _) & Ht & _ & Hs' & _).
  assert (L `prefix_of` entries n) as HLn by (apply (lg_leader _ _ _ _ Hlogs a n L Hn Hs); by rewrite HT).
  assert (len L <= len (entries n)) as Hlen by (apply prefix_length in HLn; unfold len; lia).
  assert (r_state n' = Leader -> forall q, q ∈ r_peers n' ->
    1 <= map_get (r_nextIndex n') q <= len (entries n') + 1 /\ 0 <= map_get (r_matchIndex n') q <= len (entries n') /\
    (0 < map_get (r_matchIndex n') q -> exists L0, held (c' :: tr) (r_currentTerm n') q L0 /\
       take (Z.to_nat (map_get (r_matchIndex n') q)) (entries n') `prefix_of` L0)) as Hlead.
  { intros _ q. rewrite L1, Ht, I2. intros Hq. specialize (C6 Hs q Hq). destruct Hcase as [(Hnx & _ & -> & ->)|(Hok' & Hidx & _)].
    - split; [|apply C6]. destruct C6 as (Hb & _). destruct (decide (q = p)) as [-> |Hne].
      + rewrite map_get_eq. lia.
      + by rewrite map_get_ne.
    - destruct (last (aa_Entries args)) as [e|] eqn:Hlast; destruct Hidx as [-> ->]; [|done].
      rewrite (carries_last _ _ _ Hcar Hlast). destruct (decide (q = p)) as [-> |Hne].
      + rewrite !map_get_eq. pose proof (len_nonneg L). split; [lia|]. split; [lia|]. intros _.
        destruct (Hsuc Hok') as (L' & HL' & Hpre). exists L'. rewrite HT. split; [by apply held_cons|]. unfold len. rewrite Nat2Z.id.
        destruct HLn as [k ->]. by rewrite take_app_length.
      + rewrite !map_get_ne by done. apply C6. }
  eapply sys_step_node; [done..| | |done].
  - by eapply lmove_quiet.
  - assert (r_commitIndex n <= r_commitIndex n' /\ ci_ok (c' :: tr) (r_currentTerm n') (r_commitIndex n') (entries n')) as [Hmono Hci].
    { assert (r_commitIndex n' = r_commitIndex n -> r_commitIndex n <= r_commitIndex n' /\
        ci_ok (c' :: tr) (r_currentTerm n') (r_commitIndex n') (entries n')) as Hsame by (rewrite L1, Ht; intros ->; split; [lia|done]).
      destruct Hcase as [(_ & Hci & _)|(_ & _ & [Hci|(Hci & (e & He & Het) & Hcnt)])]; auto. split; [lia|].
      apply (counted_commit _ a _ _ e); rewrite ?Ht, ?L1, ?I2; try done.
      - apply held_cons. by exists c, n.
      - apply Hpos. by rewrite Hs.
      - rewrite Ht, L1, I2 in Hlead. intros q Hq Hp. rewrite Hs' in Hlead. destruct (Hlead Hs q Hq) as (_ & Hb & Hh). split; [lia|auto]. }
    split; rewrite ?L3, ?L4, ?L5; try done.
    + lia.
    + intros i k Hik. destruct (C3 i k Hik). split; [done|lia].
    + by rewrite L1.
    + by rewrite L1.
Qed.

(** ** Application *)

Lemma sys_applied tr c c' a n n' :
  c ∈ tr -> sys tr c -> c_nodes c !! a = Some n -> c_nodes c' = <[a:=n']> (c_nodes c) -> c_msgs c' = c_msgs c ->
  inv addrs id (c' :: tr) c' -> same_role n n' -> r_log n' = r_log n -> r_commitIndex n' = r_commitIndex n ->
  r_nextIndex n' = r_nextIndex n -> r_matchIndex n' = r_matchIndex n ->
  0 <= r_lastApplied n' <= r_commitIndex n ->
  (forall i k, r_applying n' = Some (i, k) -> i = r_lastApplied n' + 1 /\ k <= r_commitIndex n) ->
  (exists k, r_applyCh n' = drop k (take (Z.to_nat (r_lastApplied n')) (entries n))) -> sys (c' :: tr) c'.
Proof using Hinj.
  intros Hc Hsys Hn Hc' Hmsgs Hinv Hrole Hl Hci Hnx Hmt Hla Hap Hch. assert (tr ⊆ c' :: tr) as Htr by (intros y Hy; by right).
  destruct (commit_now tr c a n Hc Hsys Hn _ c' eq_refl) as [C1 C2 C3 C4 C5 C6].
  eapply sys_step_node; [done..|by eapply lmove_quiet| |rewrite Hmsgs; auto].
  destruct Hrole as ((_ & I2 & _) & Ht & _ & Hs & _). split; rewrite ?Hl, ?Hci, ?Hnx, ?Hmt, ?Ht, ?I2, ?Hs; done.
Qed.

Lemma sys_apply_one tr c c' a n x n' :
  c ∈ tr -> sys tr c -> c_nodes c !! a = Some n -> apply_one n = (x, n') -> c_nodes c' = <[a:=n']> (c_nodes c) ->
  c_msgs c' = c_msgs c -> inv addrs id (c' :: tr) c' -> sys (c' :: tr) c'.
Proof using Hinj.
  intros Hc Hsys Hn E Hc' Hmsgs Hinv. pose proof (lg_node _ _ _ _ (sy_logs _ _ Hsys) _ _ Hn) as [Hok _].
  destruct (sy_nodes _ _ Hsys c a n Hc Hn) as [C1 C2 C3 C4 C5 C6].
  destruct (apply_one_logs n x n' Hok) as (L1 & L2 & L3 & L4 & Hcase); [|done|].
  { intros i k Hik. destruct (C3 i k Hik). lia. }
  eapply sys_applied; [done..|by eapply quiet_apply_one|done|done|done|done| | |];
    destruct Hcase as [(A1 & A2 & Hap)|(i & k & e & Hik & Hle & He & A1 & A2 & A3)]; rewrite ?A1, ?A2; try done.
  - destruct (C3 i k Hik). lia.
  - intros i k. destruct Hap as [-> | ->]; [apply C3|done].
  - rewrite A3. intros i' k' [= <- <-]. destruct (C3 i k Hik). split; [done|lia].
  - destruct (C3 i k Hik) as [-> _]. apply at_index_lookup in He as [Hlt He]. destruct C4 as [j Hj].
    replace (Z.to_nat (r_lastApplied n + 1)) with (S (Z.to_nat (r_lastApplied n))) by lia.
    replace (r_lastApplied n + 1 - 1) with (r_lastApplied n) in He by lia. rewrite (take_S_r _ _ _ He).
    exists (j `min` length (take (Z.to_nat (r_lastApplied n)) (entries n)))%nat. rewrite Hj, drop_app_le by lia. f_equal.
    destruct (Nat.le_ge_cases j (length (take (Z.to_nat (r_lastApplied n)) (entries n)))) as [Hjl|Hjl].
    + by rewrite Nat.min_l.
    + rewrite Nat.min_r by done. by rewrite !drop_ge.
Qed.

Lemma sys_restart tr c c' a n k n' io :
  c ∈ tr -> sys tr c -> c_nodes c !! a = Some n -> healthy_io io ->
  NewRaft (Ok tt) (rio_open io) (Ok (r_addr n)) None (r_nodeID n) (r_peers n) (crash k (rl_file (r_log n))) (r_stateFile n) = Ok n' ->
  c_nodes c' = <[a:=n']> (c_nodes c) -> c_msgs c' = c_msgs c -> inv addrs id (c' :: tr) c' -> sys (c' :: tr) c'.
Proof using Hinj Hid.
  intros Hc Hsys Hn (_ & _ & Hio) E Hc' Hmsgs Hinv. rewrite Hio in E. assert (tr ⊆ c' :: tr) as Htr by (intros y Hy; by right).
  pose proof (lg_node _ _ _ _ (sy_logs _ _ Hsys) _ _ Hn) as [Hok _].
  destruct (vo_nodes _ _ _ _ (inv_votes _ _ _ _ (sy_inv _ _ Hsys)) _ _ Hn) as [_ _ N3 N4 N5 _].
  assert (role_fits n) as Hfit.
  { split; [done|]. destruct N5 as [-> |(b & Hb & ->)]; [done|by apply Hid]. }
  pose proof (NewRaft_role _ _ _ _ N3 Hfit E) as (Hids & Ht & Hv & Hs & _).
  destruct (NewRaft_logs _ _ _ Hok N3 Hfit E) as (Hok' & He & L2 & L3 & L4 & L5).
  destruct (lg_held _ _ _ _ (sy_logs _ _ Hsys) (r_currentTerm n) a (entries n)) as (Hr & Hsrt & Hb); [by exists c, n|].
  eapply sys_step_node; [done..| | |rewrite Hmsgs; auto].
  - split; rewrite ?Ht, ?Hs, ?Hv, ?He; try done; auto. split_and!; [by apply rooted_cons|done..].
  - split; rewrite ?L2, ?L3, ?L4, ?L5; try done.
    + pose proof (len_nonneg (entries n')). split; lia.
    + exists 0%nat. by rewrite take_0.
    + apply Hok'.
    + by rewrite Hs.
Qed.

(** ** Runs *)

Lemma step_mono (P Q : RIO -> Prop) c c' : (forall io, P io -> Q io) -> step P c c' -> step Q c c'.
Proof.
  intros HPQ Hst. destruct Hst; [eapply step_timeout|eapply step_vote_request|eapply step_vote_reply|eapply step_vote_count
    |eapply step_vote_won|eapply step_replicate|eapply step_append_request|eapply step_append_reply|eapply step_propose
    |eapply step_apply_begin|eapply step_apply_one|eapply step_consume|eapply step_restart]; eauto.
Qed.

Lemma cluster_step tr c c' : c ∈ tr -> sys tr c -> step healthy_io c c' -> sys (c' :: tr) c'.
Proof using Haddrs Hinj Hid.
  intros Hc Hsys Hst. assert (inv addrs id (c' :: tr) c') as Hinv.
  { eapply (inv_step addrs id Haddrs Hinj Hid); [done|apply Hsys|]. by eapply step_mono; [|done]; intros io []. }
  destruct Hst as [a n io x n' Hn [Hio _] HT E | src a args n io x n' Hm Hn [Hio _] E | p a args reply e n io x n' Hm He Hp Hn [Hio _] E
    | a T p e He Hp | a T p e n x n' He Hp Hn E | a p n x n' Hn Hp E | src a args n io x n' Hm Hn Hio E
    | p a args reply n io x n' Hm Hn [Hio _] E | a cmd data n x n' Hn Hlen Hd E | a n x n' Hn _ _ E | a n x n' Hn E | a n e ch Hn Hch
    | a n io k n' Hn Hio E].
  - rewrite Hio in E. by eapply sys_timeout.
  - by eapply sys_vote_request.
  - rewrite Hio in E. eapply (sys_still tr c _ a n n'); [done..|by eapply still_vote_reply| |by left].
    destruct (vote_reply_role _ _ _ _ E) as [[Hr _]|(Hr & Hlt & _)]; [by left|right; eexists; split; [done|lia]].
  - destruct (inv_els _ _ _ _ (sy_inv _ _ Hsys) _ _ _ He) as (_ & _ & q & _ & Sq & _).
    destruct (vo_dom _ _ _ _ (inv_votes _ _ _ _ (sy_inv _ _ Hsys)) a) as [n Hn]; [apply Sq; left|].
    eapply (sys_still tr c _ a n n); [done..|by rewrite insert_id|done|done|by left|by left].
  - by eapply sys_vote_won.
  - by eapply sys_replicate.
  - by eapply sys_append_request.
  - rewrite Hio in E. by eapply sys_append_reply.
  - by eapply sys_propose.
  - destruct (sy_nodes _ _ Hsys c a n Hc Hn) as [C1 C2 C3 C4 C5 C6].
    pose proof (lg_node _ _ _ _ (sy_logs _ _ Hsys) _ _ Hn) as [Hok _]. pose proof (lo_len _ Hok).
    pose proof (quiet_apply_begin _ _ _ E) as Hq.
    apply apply_begin_logs in E as (L1 & L2 & L3 & L4 & L5 & L6 & L7); [|destruct C1; lia|lia].
    eapply sys_applied; [done..| | |]; rewrite ?L3, ?L4, ?L7; try done. intros i k [= <- <-]. split; [done|lia].
  - by eapply sys_apply_one.
  - destruct (sy_nodes _ _ Hsys c a n Hc Hn) as [C1 C2 C3 C4 C5 C6].
    eapply (sys_applied tr c _ a n); [done..|by repeat split|done|done|done|done|done|done|]. cbn.
    destruct C4 as [k Hk]. exists (S k). rewrite Hch in Hk.
    replace (S k) with (k + 1)%nat by lia. by rewrite <- drop_drop, <- Hk.
  - by eapply sys_restart.
Qed.

Lemma sys_boot : sys [boot addrs id] (boot addrs id).
Proof.
  assert (forall c a n, c ∈ [boot addrs id] -> c_nodes c !! a = Some n -> n = fresh_node addrs id a) as Hfresh.
  { intros c a n ->%list_elem_of_singleton H. by apply boot_nodes in H as [_ ->]. }
  assert (forall T z L, held [boot addrs id] T z L -> T = 0 /\ L = []) as Hheld.
  { intros T z L (c & n & Hc & Hn & <- & <-). by rewrite (Hfresh _ _ _ Hc Hn). }
  assert (forall st T z L, held_as st [boot addrs id] T z L -> st = Follower) as Has.
  { intros st T z L (c & n & Hc & Hn & _ & _ & <-). by rewrite (Hfresh _ _ _ Hc Hn). }
  assert (forall z T v, ~ voted [boot addrs id] z T v) as Hnv.
  { intros z T v (Hv & c & n & Hc & Hn & _ & <-). by rewrite (Hfresh _ _ _ Hc Hn) in Hv. }
  split; [apply inv_boot| |by intros m ?%not_elem_of_nil|].
  - split.
    + intros a n [_ ->]%boot_nodes. split; [|done]. split; [by intros i e|done| |done]. by split.
    + intros T z L [-> ->]%Hheld. split_and!; by intros i.
    + intros T z L (c & n & ->%list_elem_of_singleton & Hn & <- & _). exists n. split; [done|lia].
    + intros T a b L1 L2 H. by apply Has in H.
    + intros a n L Hn Hs H. by apply Has in H.
    + intros a n L Hn H. by apply Has in H.
    + intros a n C Hn Hs H. by apply Has in H.
    + intros T a C H. by apply Has in H.
    + intros T a C L H. by apply Has in H.
    + intros z n t P _ (Hne & _ & L & [_ ->]%Hheld & ->%prefix_nil_inv). done.
    + intros T z a _ _ H. by apply Hnv in H.
    + intros T a (L & H)%led_leads. by apply Has in H.
  - intros c a n Hc Hn. rewrite (Hfresh _ _ _ Hc Hn). split; cbn; try done. by exists 0%nat.
Qed.

Lemma sys_trace c0 tr : c0 = boot addrs id -> trace healthy_io c0 tr -> exists c, head tr = Some c /\ sys tr c.
Proof using Haddrs Hinj Hid.
  intros -> Htr. induction Htr as [|c c' tr Htr (c1 & [= <-] & IH) Hst]; [by eexists; split; [|apply sys_boot]|].
  exists c'. split; [done|]. by apply (cluster_step _ c); [left| |].
Qed.

(** Committed prefixes of any two nodes at any two times agree. *)
Lemma ci_unique tr c T1 ci1 L1 T2 ci2 L2 :
  sys tr c -> ci_ok tr T1 ci1 L1 -> ci_ok tr T2 ci2 L2 -> agree (take (Z.to_nat ci1) L1) (take (Z.to_nat ci2) L2).
Proof.
  intros Hsys [H1 C1] [H2 C2] i x y Hx Hy.
  destruct (decide (0 < ci1)) as [P1|]; [|replace (Z.to_nat ci1) with 0%nat in Hx by lia; done].
  destruct (decide (0 < ci2)) as [P2|]; [|replace (Z.to_nat ci2) with 0%nat in Hy by lia; done].
  destruct (C1 P1) as (t1 & Q1 & HQ1 & _ & Hp1). destruct (C2 P2) as (t2 & Q2 & HQ2 & _ & Hp2).
  eapply (committed_unique addrs id tr (c_nodes c) t1 Q1 t2 Q2); [apply Hsys|done|done|by eapply prefix_lookup..].
Qed.

(** What a node delivered is in its committed log, at its index. *)
Lemma delivered tr n e :
  commit_ok tr n -> e ∈ r_applyCh n -> take (Z.to_nat (r_commitIndex n)) (entries n) !! Z.to_nat (Index e - 1) = Some e.
Proof.
  intros [C1 C2 C3 [k Hk] C5 C6] He. rewrite Hk in He. apply list_elem_of_lookup in He as [i Hi].
  rewrite lookup_drop in Hi. apply lookup_take_Some in Hi as [Hi Hlt].
  replace (Z.to_nat (Index e - 1)) with (k + i)%nat by (rewrite (C5 _ _ Hi); lia). rewrite lookup_take_lt by lia. done.
Qed.
End machine.

(** ** The types of a node's fields *)

Record node_typed (addrs : list bytes) (id : bytes -> bytes) (a : bytes) (n : Raft) : Prop := {
  nt_identity : a ∈ addrs /\ r_nodeID n = id a /\ r_addr n = a /\ r_peers n = filter (fun p => p <> a) addrs;
  nt_term : 0 <= r_currentTerm n < 2 ^ 64;
  nt_vote : r_votedFor n = [] \/ exists b, b ∈ addrs /\ r_votedFor n = id b;
  nt_self : r_state n <> Follower -> 0 < r_currentTerm n /\ r_votedFor n = id a;
  nt_entries : forall i e, rl_entries (r_log n) !! i = Some e -> Index e = 1 + Z.of_nat i /\ 0 < Term e <= r_currentTerm n;
  nt_sorted : forall i j x y, (i <= j)%nat -> rl_entries (r_log n) !! i = Some x -> rl_entries (r_log n) !! j = Some y -> Term x <= Term y;
  nt_length : len (rl_entries (r_log n)) + 1 < 2 ^ 64;
  nt_indices : 0 <= r_lastApplied n /\ r_lastApplied n <= r_commitIndex n /\ r_commitIndex n <= len (rl_entries (r_log n));
  nt_applying : forall i k, r_applying n = Some (i, k) -> i = r_lastApplied n + 1 /\ k <= r_commitIndex n;
  nt_leader : r_state n = Leader -> forall p, p ∈ r_peers n ->
    1 <= map_get (r_nextIndex n) p <= len (rl_entries (r_log n)) + 1 /\ 0 <= map_get (r_matchIndex n) p <= len (rl_entries (r_log n));
  nt_disk : contents (rl_file (r_log n)) = encode_log (rl_entries (r_log n)) /\
    synced (rl_file (r_log n)) = length (contents (rl_file (r_log n)))
}.

(** C7.  Every field of a node keeps its type.  In every state of a run on
    healthy disks, with any delays, losses and restarts: terms are 64-bit and
    positive for candidates and leaders, votes are for nobody or for nodes of
    the cluster, and for itself unless the node follows; log entries are
    numbered from 1 without gaps, with terms that never decrease and are at
    most the current one; lastApplied is at most commitIndex and commitIndex at
    most the length of the log, as the apply loop relies on; a leader's next
    and match indices lie inside its log; and the log file holds exactly the
    log, synced. *)
Theorem raft_state_typed :
  forall (addrs : list bytes) (id : bytes -> bytes) (tr : list Cluster) (c : Cluster) (a : bytes) (n : Raft),
  config_ok addrs id -> trace healthy_io (boot addrs id) (c :: tr) -> c_nodes c !! a = Some n -> node_typed addrs id a n.
Proof.
  intros addrs id tr c a n (Haddrs & Hinj & Hid) Htr Ha.
  destruct (sys_trace addrs id Haddrs Hinj Hid _ _ eq_refl Htr) as (c0 & [= <-] & Hsys).
  destruct (vo_nodes _ _ _ _ (inv_votes _ _ _ _ (sy_inv _ _ _ _ Hsys)) a n Ha) as [N1 (N2 & N3 & N4) _ N5 N6 N7].
  destruct (lg_node _ _ _ _ (sy_logs _ _ _ _ Hsys) a n Ha) as [[L1 L2 [L3 L4 _] _] Hpos].
  destruct (lg_held _ _ _ _ (sy_logs _ _ _ _ Hsys) (r_currentTerm n) a (entries n)) as (_ & Hsort & Hbelow); [exists c, n; split; [left|done]|].
  destruct (sy_nodes _ _ _ _ Hsys c a n ltac:(left) Ha) as [[C1 _] C2 C3 _ _ C6].
  split; try done.
  - intros Hs. split; [by apply Hpos|by apply N7].
  - intros i e He. split; [by apply L1|by apply (Hbelow i)].
  - split_and!; lia.
  - intros Hl p Hp. destruct (C6 Hl p Hp) as (? & ? & _). done.
Qed.

(** C8.  Log matching.  In every run on healthy disks, entries of the same
    index and term in the logs of any two nodes, at any two times, are the
    last entries of equal logs. *)
Theorem raft_log_matching :
  forall (addrs : list bytes) (id : bytes -> bytes) (tr : list Cluster) (c1 c2 : Cluster) (a b : bytes) (n1 n2 : Raft)
    (i : nat) (e1 e2 : LogEntry),
  config_ok addrs id -> trace healthy_io (boot addrs id) tr -> c1 ∈ tr -> c2 ∈ tr ->
  c_nodes c1 !! a = Some n1 -> c_nodes c2 !! b = Some n2 ->
  rl_entries (r_log n1) !! i = Some e1 -> rl_entries (r_log n2) !! i = Some e2 -> Term e1 = Term e2 ->
  take (S i) (rl_entries (r_log n1)) = take (S i) (rl_entries (r_log n2)).
Proof.
  intros addrs id tr c1 c2 a b n1 n2 i e1 e2 (Haddrs & Hinj & Hid) Htr Hc1 Hc2 Ha Hb H1 H2 Ht.
  destruct (sys_trace addrs id Haddrs Hinj Hid _ _ eq_refl Htr) as (c & _ & Hsys). pose proof (sy_logs _ _ _ _ Hsys) as Hlogs.
  eapply (rooted_matching addrs id tr (c_nodes c)); [done| | |done|done|done].
  - apply (lg_held _ _ _ _ Hlogs (r_currentTerm n1) a). by exists c1, n1.
  - apply (lg_held _ _ _ _ Hlogs (r_currentTerm n2) b). by exists c2, n2.
Qed.

(** C5.  Leader completeness.  In every run on healthy disks, whatever a node
    knew to be committed in some term is in the log of every leader of a later
    term, at the same indices. *)
Theorem raft_leader_completeness :
  forall (addrs : list bytes) (id : bytes -> bytes) (tr : list Cluster) (c1 c2 : Cluster) (a b : bytes) (n1 n2 : Raft),
  config_ok addrs id -> trace healthy_io (boot addrs id) tr -> c1 ∈ tr -> c2 ∈ tr ->
  c_nodes c1 !! a = Some n1 -> c_nodes c2 !! b = Some n2 -> r_state n2 = Leader -> r_currentTerm n1 < r_currentTerm n2 ->
  take (Z.to_nat (r_commitIndex n1)) (rl_entries (r_log n1)) `prefix_of` rl_entries (r_log n2).
Proof.
  intros addrs id tr c1 c2 a b n1 n2 (Haddrs & Hinj & Hid) Htr Hc1 Hc2 Ha Hb Hs Hlt.
  destruct (sys_trace addrs id Haddrs Hinj Hid _ _ eq_refl Htr) as (c & _ & Hsys).
  destruct (co_ci _ _ _ (sy_nodes _ _ _ _ Hsys c1 a n1 Hc1 Ha)) as [Hci Hcom].
  destruct (decide (0 < r_commitIndex n1)) as [Hpos|]; [|replace (Z.to_nat (r_commitIndex n1)) with 0%nat by lia; apply prefix_nil].
  destruct (Hcom Hpos) as (t & P & (HPne & HPt & H0 & q & Hq & Hack) & Hle & Hpre). etrans; [done|].
  eapply (leader_complete addrs id tr (c_nodes c) t P q); [apply Hsys|done..| |by exists c2, n2]. lia.
Qed.

(** C4.  State machine safety.  In every run on healthy disks, two nodes of a
    cluster, at any two times, hold the same entry at every index both know to
    be committed, and never deliver different entries of one index to their
    state machines. *)
Theorem raft_state_machine_safety :
  forall (addrs : list bytes) (id : bytes -> bytes) (tr : list Cluster) (c1 c2 : Cluster) (a b : bytes) (n1 n2 : Raft),
  config_ok addrs id -> trace healthy_io (boot addrs id) tr -> c1 ∈ tr -> c2 ∈ tr ->
  c_nodes c1 !! a = Some n1 -> c_nodes c2 !! b = Some n2 ->
  (forall k : nat, Z.of_nat k < r_commitIndex n1 -> Z.of_nat k < r_commitIndex n2 ->
     exists e, rl_entries (r_log n1) !! k = Some e /\ rl_entries (r_log n2) !! k = Some e) /\
  (forall e1 e2, e1 ∈ r_applyCh n1 -> e2 ∈ r_applyCh n2 -> Index e1 = Index e2 -> e1 = e2).
Proof.
  intros addrs id tr c1 c2 a b n1 n2 (Haddrs & Hinj & Hid) Htr Hc1 Hc2 Ha Hb.
  destruct (sys_trace addrs id Haddrs Hinj Hid _ _ eq_refl Htr) as (c & _ & Hsys).
  pose proof (sy_nodes _ _ _ _ Hsys c1 a n1 Hc1 Ha) as Hco1. pose proof (sy_nodes _ _ _ _ Hsys c2 b n2 Hc2 Hb) as Hco2.
  pose proof (ci_unique _ _ _ _ _ _ _ _ _ _ Hsys (co_ci _ _ _ Hco1) (co_ci _ _ _ Hco2)) as Hag. split.
  - intros k Hk1 Hk2. destruct (co_ci _ _ _ Hco1) as [Hl1 _]. destruct (co_ci _ _ _ Hco2) as [Hl2 _].
    destruct (lookup_lt_is_Some_2 (entries n1) k) as [e1 He1]; [unfold len in *; lia|].
    destruct (lookup_lt_is_Some_2 (entries n2) k) as [e2 He2]; [unfold len in *; lia|].
    assert (e1 = e2) as <- by (eapply (Hag k); by rewrite lookup_take_lt by lia). eauto.
  - intros e1 e2 He1 He2 Hidx. apply (delivered _ _ _ _ Hco1) in He1. apply (delivered _ _ _ _ Hco2) in He2.
    rewrite Hidx in He1. by eapply Hag.
Qed.

(** ** A run *)

(** Node a commits a command with b, both deliver it, and b is elected next. *)
Definition handover : list event := elect_a ++
  [EvPropose [x61] CmdRaftPut [x78]; EvReplicate [x61] [x62]; EvDeliver 0 rio_ok; EvDeliver 0 rio_ok;
   EvReplicate [x61] [x62]; EvDeliver 0 rio_ok; EvApplyBegin [x61]; EvApplyOne [x61]; EvApplyBegin [x62]; EvApplyOne [x62];
   EvTimeout [x62] rio_ok; EvDeliver 1 rio_ok; EvDeliver 0 rio_ok; EvCount [x62] 2 [x63]; EvWon [x62] 2 [x63]].

Lemma healthy_ok : healthy_io rio_ok.
Proof. by split_and!. Qed.

Lemma handover_trace : exists tr, trace healthy_io trio (last_state trio handover :: tr).
Proof. apply run_ends; [repeat constructor|vm_compute; reflexivity]. Qed.

Lemma raft_log_matching_witness :
  exists tr c n1 n2 e, trace healthy_io trio (c :: tr) /\ c_nodes c !! [x61] = Some n1 /\ c_nodes c !! [x62] = Some n2 /\
    rl_entries (r_log n1) !! 0%nat = Some e /\ Term e = 1 /\
    take 1 (rl_entries (r_log n1)) = take 1 (rl_entries (r_log n2)).
Proof.
  destruct handover_trace as [tr Htr]. set (c := last_state trio handover) in *.
  exists tr, c, (node_of [x61] c), (node_of [x62] c), (mkLogEntry 1 1 CmdRaftPut [x78]).
  split; [exact Htr|]. split; [vm_compute; reflexivity|]. split; [vm_compute; reflexivity|].
  split; [vm_compute; reflexivity|]. split; [reflexivity|].
  apply (raft_log_matching three (fun a => a) (c :: tr) c c [x61] [x62] _ _ 0 (mkLogEntry 1 1 CmdRaftPut [x78])
    (mkLogEntry 1 1 CmdRaftPut [x78]) three_config Htr); [left|left|vm_compute; reflexivity..].
Defined.

Lemma raft_leader_completeness_witness :
  exists tr c n1 n2, trace healthy_io trio (c :: tr) /\ c_nodes c !! [x61] = Some n1 /\ c_nodes c !! [x62] = Some n2 /\
    r_commitIndex n1 = 1 /\ r_state n2 = Leader /\ r_currentTerm n2 = 2 /\
    take 1 (rl_entries (r_log n1)) `prefix_of` rl_entries (r_log n2).
Proof.
  destruct handover_trace as [tr Htr]. set (c := last_state trio handover) in *.
  exists tr, c, (node_of [x61] c), (node_of [x62] c).
  split; [exact Htr|]. split; [vm_compute; reflexivity|]. split; [vm_compute; reflexivity|].
  split; [vm_compute; reflexivity|]. split; [vm_compute; reflexivity|]. split; [vm_compute; reflexivity|].
  refine (raft_leader_completeness three (fun a => a) (c :: tr) c c [x61] [x62] (node_of [x61] c) (node_of [x62] c) three_config Htr _ _ _ _ _ _);
    [left|left|vm_compute; reflexivity..].
Defined.

Lemma raft_state_machine_safety_witness :
  exists tr c n1 n2 e, trace healthy_io trio (c :: tr) /\ c_nodes c !! [x61] = Some n1 /\ c_nodes c !! [x62] = Some n2 /\
    r_applyCh n1 = [e] /\ forall e', e' ∈ r_applyCh n2 -> Index e = Index e' -> e = e'.
Proof.
  destruct handover_trace as [tr Htr]. set (c := last_state trio handover) in *.
  assert (c_nodes c !! [x61] = Some (node_of [x61] c)) as H1 by (vm_compute; reflexivity).
  assert (c_nodes c !! [x62] = Some (node_of [x62] c)) as H2 by (vm_compute; reflexivity).
  assert (r_applyCh (node_of [x61] c) = [mkLogEntry 1 1 CmdRaftPut [x78]]) as Hch by (vm_compute; reflexivity).
  exists tr, c, (node_of [x61] c), (node_of [x62] c), (mkLogEntry 1 1 CmdRaftPut [x78]).
  split; [exact Htr|]. split; [exact H1|]. split; [exact H2|]. split; [exact Hch|]. intros e' He' Hi.
  refine (proj2 (raft_state_machine_safety three (fun a => a) (c :: tr) c c [x61] [x62] _ _ three_config Htr _ _ H1 H2) _ e' _ He' Hi);
    [left|left|rewrite Hch; left].
Defined.

Lemma raft_state_typed_witness :
  exists tr c n, trace healthy_io trio (c :: tr) /\ c_nodes c !! [x62] = Some n /\ r_state n = Leader /\ 0 < r_commitIndex n /\
    r_commitIndex n <= len (rl_entries (r_log n)).
Proof.
  destruct handover_trace as [tr Htr]. set (c := last_state trio handover) in *.
  exists tr, c, (node_of [x62] c). split; [exact Htr|]. split; [vm_compute; reflexivity|]. split; [vm_compute; reflexivity|].
  split; [vm_compute; reflexivity|].
  apply (nt_indices three (fun a => a) [x62]), (raft_state_typed three (fun a => a) tr c [x62] _ three_config Htr). vm_compute. reflexivity.
Defined.
