(* ===== verification/RaftProgress.v ===== *)
(** * A leader can always be elected

    From every state of a cluster of two or more nodes, whatever happened
    before, some continuation without failures elects a leader: a node whose
    log is at least as up to date as every other stands until its term is above
    all others, and every other node grants it the vote.  (A cluster of one
    node has no leader: RaftFaults.) *)

From S2P Require Import Prelude GoStd Protocol RaftLog Raft RaftSystem RaftElection RaftLogs.

(** ** Up-to-date logs *)

(** What [LastTerm] and [LastIndex] answer. *)
Definition lastTerm (n : Raft) : Z := match last (rl_entries (r_log n)) with None => 0 | Some e => Term e end.
Definition lastIndex (n : Raft) : Z := match last (rl_entries (r_log n)) with None => 0 | Some e => Index e end.

(** The log of [m] is at least as up to date as that of [n]. *)
Definition up_to_date (m n : Raft) : Prop := lastTerm n < lastTerm m \/ lastTerm n = lastTerm m /\ lastIndex n <= lastIndex m.

Lemma most_up_to_date (l : list (bytes * Raft)) :
  l <> [] -> exists x, x ∈ l /\ forall y, y ∈ l -> up_to_date x.2 y.2.
Proof.
  unfold up_to_date. induction l as [|z l IH]; [done|]. intros _. destruct l as [|z' l'].
  - exists z. split; [left|]. intros y ->%list_elem_of_singleton. lia.
  - destruct IH as (x & Hx & Hmax); [done|].
    assert (up_to_date z.2 x.2 \/ up_to_date x.2 z.2) as [Hz|Hz] by (unfold up_to_date; lia); unfold up_to_date in Hz.
    + exists z. split; [left|]. intros y [-> |Hy]%elem_of_cons; [lia|]. specialize (Hmax y Hy). lia.
    + exists x. split; [by right|]. intros y [-> |Hy]%elem_of_cons; [lia|auto].
Qed.

Lemma logs_bounded (l : list (bytes * Raft)) : exists B, forall x, x ∈ l -> len (rl_entries (r_log x.2)) < B.
Proof.
  induction l as [|z l [B HB]]; [by exists 0; intros x ?%not_elem_of_nil|].
  exists (Z.max B (len (rl_entries (r_log z.2)) + 1)). intros x [-> |Hx]%elem_of_cons; [lia|]. specialize (HB x Hx). lia.
Qed.

(** ** Standing *)

Lemma startElection_run n :
  let term := u64 (r_currentTerm n + 1) in
  let args := mkVoteArgs term (r_nodeID n) (lastIndex n) (lastTerm n) in
  exists n', startElection Written n =
      (Ok (mkElection args 1 ((len (r_peers n) + 1) / 2 + 1) (list_to_map ((fun p => (p, Asked)) <$> r_peers n))), n') /\
    role_is Candidate term (r_nodeID n) n n' /\ r_log n' = r_log n.
Proof.
  unfold startElection. mrun. rewrite LastIndex_ok, LastTerm_ok. mrun. eexists. split; [done|]. by repeat split.
Qed.

(** Node [a] stands in term [T] with the request [args]; the peers in [todo]
    have not answered yet, their terms are lower and their logs not more up to
    date; [v] votes are counted.  No term is above [T], and all logs are below
    [B]. *)
Definition bounded (B : Z) (c : Cluster) (T : Z) : Prop :=
  forall p m, c_nodes c !! p = Some m -> r_currentTerm m <= T /\ len (entries m) < B.

Record standing (B : Z) (c : Cluster) (a : bytes) (T : Z) (todo : list bytes) (v : Z) : Prop := {
  sd_bounded : bounded B c T;
  sd_node : exists n, c_nodes c !! a = Some n /\ r_state n = Candidate /\ r_currentTerm n = T;
  sd_election : exists e args, c_elections c !! (a, T) = Some e /\ el_args e = args /\ va_Term args = T /\ el_votes e = v /\
    el_majority e <= v + len todo /\ v < el_majority e /\
    forall p, p ∈ todo -> p <> a /\ el_phase e !! p = Some Asked /\ VoteReq a p args ∈ c_msgs c /\
      exists m, c_nodes c !! p = Some m /\ r_currentTerm m < T /\
        (lastTerm m < va_LastLogTerm args \/ lastTerm m = va_LastLogTerm args /\ lastIndex m <= va_LastLogIndex args)
}.

Lemma bounded_insert B T c els ms p m :
  bounded B c T -> r_currentTerm m <= T -> len (entries m) < B -> bounded B (mkCluster (<[p:=m]> (c_nodes c)) els ms) T.
Proof.
  intros Hb Ht Hl q m' Hq. cbn in Hq. apply lookup_insert_Some in Hq as [[<- <-]|[_ Hq]]; [done|by eapply Hb].
Qed.

Lemma rio_ok_writes : writes_ok rio_ok.
Proof. by intros i. Qed.

(** A peer with a lower term and a log that is not more up to date grants its
    vote. *)
Lemma grants args m :
  r_currentTerm m < va_Term args ->
  (lastTerm m < va_LastLogTerm args \/ lastTerm m = va_LastLogTerm args /\ lastIndex m <= va_LastLogIndex args) ->
  exists m', handleRequestVote rio_ok args m = (Ok (mkVoteReply (va_Term args) true), m') /\ r_currentTerm m' = va_Term args /\
    r_log m' = r_log m.
Proof.
  intros Ht Hlog. unfold handleRequestVote. mrun. destruct (Z.ltb_spec (va_Term args) (r_currentTerm m)); [lia|].
  destruct (Z.ltb_spec (r_currentTerm m) (va_Term args)); [|lia]. unfold becomeFollowerLocked, persistState. mrun.
  cbn [rio_write rio_ok]. rewrite (M_bind_run _ _ _ tt (set_stateFile (Some (encode_state (va_Term args) [])) (set_role Follower (va_Term args) [] m))) by done.
  mrun. cbn [r_votedFor set_stateFile set_role]. cbn [r_log]. rewrite bool_decide_eq_true_2 by done. cbn [negb andb].
  rewrite LastTerm_ok, LastIndex_ok. mrun.
  change (r_log (set_stateFile (Some (encode_state (va_Term args) [])) (set_role Follower (va_Term args) [] m))) with (r_log m).
  fold (lastTerm m). fold (lastIndex m).
  destruct (Z.ltb_spec (va_LastLogTerm args) (lastTerm m)); [lia|].
  destruct (Z.eqb_spec (va_LastLogTerm args) (lastTerm m)); cbn [andb].
  - destruct (Z.ltb_spec (va_LastLogIndex args) (lastIndex m)); [lia|]. mrun. eexists. by split_and!.
  - mrun. eexists. by split_and!.
Qed.

(** A reply that grants the vote leaves a candidate of its term alone. *)
Lemma granted_reply T n : r_currentTerm n = T -> vote_reply (rio_write rio_ok 0) (mkVoteReply T true) n = (Ok true, n).
Proof. intros <-. unfold vote_reply. mrun. cbn [vr_Term vr_VoteGranted]. by rewrite Z.ltb_irrefl. Qed.

Lemma wins args n :
  r_state n = Candidate -> r_currentTerm n = va_Term args ->
  exists n', vote_won args n = (Ok tt, n') /\ r_state n' = Leader /\ r_currentTerm n' = va_Term args /\ r_log n' = r_log n.
Proof.
  intros Hs Ht. unfold vote_won. mrun. rewrite bool_decide_eq_true_2 by done. rewrite Ht, Z.eqb_refl. cbn [andb].
  unfold becomeLeaderLocked. mrun. rewrite LastIndex_ok. mrun. eexists. by split_and!.
Qed.

Section progress.
Context (allowed : RIO -> Prop).
Hypothesis Hio : allowed rio_ok.

Abbreviation goes := (rtc (step allowed)).

Definition leads_in (B : Z) (c : Cluster) (a : bytes) (T : Z) : Prop :=
  bounded B c T /\ exists n, c_nodes c !! a = Some n /\ r_state n = Leader /\ r_currentTerm n = T.

(** The next peer votes: the election is won, or one more vote is counted. *)
Lemma next_vote B c a T p todo v :
  standing B c a T (p :: todo) v -> NoDup (p :: todo) ->
  exists c', goes c c' /\ (leads_in B c' a T \/ standing B c' a T todo (v + 1)).
Proof using Hio.
  intros [Hb (n & Hn & Hs & Ht) (e & args & He & Hargs & HT & Hv & Hmaj & Hlt & Hall)] Hnd. apply NoDup_cons in Hnd as [Hni Hnd].
  destruct (Hall p) as (Hpa & Hph & Hmsg & m & Hm & Hmt & Hlog); [left|]. rewrite <- HT in Hmt.
  destruct (grants args m Hmt Hlog) as (m' & Em & Hmt' & Hml). set (reply := mkVoteReply (va_Term args) true) in *.
  (* the peer answers *)
  set (c1 := mkCluster (<[p:=m']> (c_nodes c)) (c_elections c) (VoteRep p a args reply :: c_msgs c)).
  assert (step allowed c c1) as S1 by (eapply (step_vote_request _ _ a p args m rio_ok (Ok reply) m'); [done|done|exact Hio|done]).
  assert (c_nodes c1 !! a = Some n) as Hn1 by (cbn; by rewrite lookup_insert_ne).
  assert (bounded B c1 T) as Hb1 by (apply bounded_insert; [done|lia|rewrite Hml; by eapply Hb]).
  (* the candidate receives the answer *)
  set (c2 := mkCluster (<[a:=n]> (c_nodes c1)) (next_phase a (va_Term args) p (Some Granted) (c_elections c1)) (c_msgs c1)).
  assert (step allowed c1 c2) as S2.
  { eapply (step_vote_reply _ _ p a args reply e n rio_ok (Ok true) n); [left|cbn; by rewrite HT|done|done|exact Hio|].
    apply granted_reply. by rewrite HT. }
  set (e2 := set_phase p (Some Granted) e).
  assert (c_elections c2 !! (a, T) = Some e2) as He2 by (cbn; unfold next_phase; rewrite HT, lookup_alter_eq, He; done).
  (* and counts it *)
  set (won := el_majority e <=? el_votes e + 1).
  set (e3 := set_phase p (if won then Some Won else None) (mkElection (el_args e) (el_votes e + 1) (el_majority e) (el_phase e2))).
  set (c3 := mkCluster (c_nodes c2) (<[(a, T):=e3]> (c_elections c2)) (c_msgs c2)).
  assert (step allowed c2 c3) as S3 by (apply (step_vote_count _ _ a T p e2); [done|cbn; apply lookup_partial_alter_eq]).
  assert (goes c c3) as Hgo by (eapply rtc_l; [exact S1|]; eapply rtc_l; [exact S2|]; by apply rtc_once).
  assert (c_nodes c3 !! a = Some n) as Hn3 by (cbn; apply lookup_insert_eq).
  assert (c_elections c3 !! (a, T) = Some e3) as He3 by (cbn; apply lookup_insert_eq).
  assert (bounded B c3 T) as Hb3 by (apply bounded_insert; [done|lia|by eapply (Hb1 a)]).
  destruct won eqn:Hwon.
  - destruct (wins args n Hs) as (n' & En & Hl & Ht' & Hll); [by rewrite HT|].
    exists (mkCluster (<[a:=n']> (c_nodes c3)) (next_phase a T p None (c_elections c3)) (c_msgs c3)). split.
    + eapply rtc_r; [exact Hgo|]. eapply (step_vote_won _ _ a T p e3 n (Ok tt) n'); [done|cbn; apply lookup_partial_alter_eq|done|].
      cbn. by rewrite Hargs.
    + left. split; [apply bounded_insert; [done|lia|rewrite Hll; by eapply (Hb1 a)]|].
      exists n'. cbn. rewrite lookup_insert_eq. split_and!; [done..|congruence].
  - exists c3. split; [done|right]. split; [done|by exists n|]. exists e3, args. unfold won in Hwon. apply Z.leb_gt in Hwon.
    cbn [e3 set_phase el_args el_votes el_majority el_phase]. split_and!; [done|done|done|lia|unfold len in *; cbn in Hmaj; lia|lia|].
    intros q Hq. destruct (Hall q) as (Hqa & Hqp & Hqm & mq & Hmq & Hqt & Hql); [by right|].
    assert (q <> p) as Hqp' by (by intros ->). split_and!; [done| |by right|].
    + cbn. rewrite !lookup_partial_alter_ne by done. done.
    + exists mq. split_and!; [|done|done]. cbn. by rewrite !lookup_insert_ne.
Qed.

Lemma all_vote B c a T todo v : standing B c a T todo v -> NoDup todo -> exists c', goes c c' /\ leads_in B c' a T.
Proof using Hio.
  revert c v. induction todo as [|p todo IH]; intros c v Hsd Hnd.
  - destruct Hsd as [_ _ (e & args & _ & _ & _ & _ & Hmaj & Hlt & _)]. unfold len in Hmaj. cbn in Hmaj. lia.
  - destruct (next_vote B c a T p todo v Hsd Hnd) as (c' & Hgo & [Hl|Hsd']); [eauto|]. apply NoDup_cons in Hnd as [_ Hnd].
    destruct (IH c' (v + 1) Hsd' Hnd) as (c2 & Hgo2 & Hl). exists c2. split; [by etrans|done].
Qed.

(** Node [a], in state [n'], has just asked its peers for their votes; [n] was
    its state before. *)
Record asked (c : Cluster) (a : bytes) (n n' : Raft) (c' : Cluster) : Prop := {
  as_nodes : c_nodes c' = <[a:=n']> (c_nodes c);
  as_role : r_state n' = Candidate;
  as_same : r_log n' = r_log n /\ r_nodeID n' = r_nodeID n /\ r_peers n' = r_peers n;
  as_election : exists e, c_elections c' !! (a, r_currentTerm n') = Some e /\
    el_args e = mkVoteArgs (r_currentTerm n') (r_nodeID n) (lastIndex n) (lastTerm n) /\ el_votes e = 1 /\
    el_majority e = (len (r_peers n) + 1) / 2 + 1 /\ el_phase e = list_to_map ((fun p => (p, Asked)) <$> r_peers n) /\
    forall p, p ∈ r_peers n -> VoteReq a p (el_args e) ∈ c_msgs c'
}.

Lemma stands_once c a n :
  c_nodes c !! a = Some n -> 0 <= r_currentTerm n -> r_currentTerm n + 1 < 2 ^ 64 ->
  exists c' n', goes c c' /\ asked c a n n' c' /\ r_currentTerm n' = r_currentTerm n + 1.
Proof.
  intros Hn Hpos Hmax. destruct (startElection_run n) as (n' & E & ((Hid & Hp & _) & Ht & _ & Hs & _) & Hl). cbn zeta in *.
  assert (u64 (r_currentTerm n + 1) = r_currentTerm n + 1) as Hu by (unfold u64; apply Z.mod_small; lia).
  rewrite Hu in *. eexists _, n'. split.
  { apply rtc_once. by apply (step_timeout allowed c a n rio_ok _ n' Hn Hio Hmax E). }
  split; [|done]. split; [done..|]. eexists. cbn [c_elections el_args va_Term]. rewrite Ht, lookup_insert_eq.
  split_and!; [done..|]. intros p Hin. cbn [sent c_msgs el_args]. apply elem_of_app. left. by apply (list_elem_of_fmap_2 (fun q => VoteReq a q _)).
Qed.

(** It can stand again and again: its term grows as far as wanted. *)
Lemma campaign (k : nat) c a n :
  c_nodes c !! a = Some n -> 0 <= r_currentTerm n -> r_currentTerm n + Z.of_nat k + 1 < 2 ^ 64 ->
  exists c' n', goes c c' /\ asked c a n n' c' /\ r_currentTerm n' = r_currentTerm n + Z.of_nat k + 1.
Proof.
  revert c n. induction k as [|k IH]; intros c n Hn Hpos Hmax.
  - destruct (stands_once c a n) as (c' & n' & ? & ? & ?); [done|lia..|]. exists c', n'. split_and!; [done..|lia].
  - destruct (stands_once c a n) as (c1 & n1 & Hgo & [Hc1 _ (Hl & Hid & Hp) _] & Ht); [done|lia..|].
    destruct (IH c1 n1) as (c' & n' & Hgo' & [Hc' Hs (Hl' & Hid' & Hp') He] & Ht'); [by rewrite Hc1, lookup_insert_eq|lia..|].
    exists c', n'. split_and!; [by etrans| |lia]. unfold lastIndex, lastTerm in *. rewrite Hl, Hid, Hp in *.
    split; [|done..]. by rewrite Hc', Hc1, insert_insert_eq.
Qed.

Lemma asked_standing B c a n n' c' :
  asked c a n n' c' -> 1 <= len (r_peers n) -> NoDup (r_peers n) -> bounded B c' (r_currentTerm n') ->
  (forall p, p ∈ r_peers n -> p <> a /\ exists m, c_nodes c !! p = Some m /\ r_currentTerm m < r_currentTerm n' /\ up_to_date n m) ->
  standing B c' a (r_currentTerm n') (r_peers n) 1.
Proof.
  intros [Hc Hs _ (e & He & Hargs & Hv & Hmaj & Hph & Hmsg)] Hlen Hnd Hb Hall. split; [done|exists n'; by rewrite Hc, lookup_insert_eq|].
  exists e, (el_args e). rewrite Hmaj, Hv.
  pose proof (Z.mod_pos_bound (len (r_peers n) + 1) 2). pose proof (Z.div_mod (len (r_peers n) + 1) 2).
  split_and!; [done..|by rewrite Hargs|done|lia|lia|]. intros p Hp. destruct (Hall p Hp) as (Hpa & m & Hm & Ht & Hup).
  split_and!; [done| |by apply Hmsg|].
  - rewrite Hph. apply elem_of_list_to_map_1; [|by apply (list_elem_of_fmap_2 (fun q => (q, Asked)))].
    rewrite <- list_fmap_compose. cbn. by rewrite list_fmap_id.
  - exists m. rewrite Hc, lookup_insert_ne by done. rewrite Hargs. split_and!; [done..|]. unfold up_to_date in Hup. cbn. lia.
Qed.

(** ** Every reachable state *)

Lemma goes_trace c0 c c' tr : goes c c' -> trace allowed c0 (c :: tr) -> exists tr', trace allowed c0 (c' :: tr').
Proof.
  intros Hgo. revert tr. induction Hgo as [c|c c1 c' Hs _ IH]; intros tr Htr; [by exists tr|].
  apply (IH (c :: tr)). by constructor.
Qed.

(** The most up-to-date node can be elected in any term above the others'. *)
Lemma can_lead addrs id tr c B T :
  NoDup addrs -> inv addrs id tr c -> (2 <= length addrs)%nat ->
  (forall a n, c_nodes c !! a = Some n -> r_currentTerm n < T /\ len (entries n) < B) -> T < 2 ^ 64 ->
  exists c' a, goes c c' /\ leads_in B c' a T.
Proof using Hio.
  intros Haddrs [[Hdom Hok _ _ _ _] _ _] Hlen Hterms HT.
  destruct (most_up_to_date (map_to_list (c_nodes c))) as ([a n] & Ha & Hmax).
  { destruct addrs as [|b l]; [cbn in Hlen; lia|]. destruct (Hdom b) as [m Hm]; [left|]. apply elem_of_map_to_list in Hm.
    intros E. rewrite E in Hm. by apply not_elem_of_nil in Hm. }
  apply elem_of_map_to_list in Ha. pose proof (Hok _ _ Ha) as [Hin (_ & _ & Hpeers) _ Hpos _ _]. pose proof (Hterms _ _ Ha) as Hlt.
  destruct (campaign (Z.to_nat (T - r_currentTerm n - 1)) c a n) as (c1 & n1 & Hgo & Hask & Ht1); [done|lia..|].
  replace (r_currentTerm n + _ + 1) with T in Ht1 by lia.
  destruct (all_vote B c1 a T (r_peers n) 1) as (c2 & Hgo2 & Hl).
  - rewrite <- Ht1. apply (asked_standing B c a n n1 c1); [done|..]; rewrite ?Hpeers.
    + pose proof (peers_count addrs Haddrs a Hin). unfold len in *. lia.
    + by apply NoDup_filter.
    + intros p m Hp. destruct Hask as [Hc1 _ (Hlog & _) _]. rewrite Hc1, lookup_insert_Some in Hp. rewrite Ht1.
      destruct Hp as [[<- <-]|[_ Hp]]; [rewrite Hlog; split; [lia|by eapply Hterms]|]. destruct (Hterms _ _ Hp). split; [lia|done].
    + intros p [Hpa Hp]%list_elem_of_filter. split; [done|]. destruct (Hdom p Hp) as [m Hm]. exists m. rewrite Ht1.
      split_and!; [done|by eapply Hterms|]. apply (Hmax (p, m)). by apply elem_of_map_to_list.
  - rewrite Hpeers. by apply NoDup_filter.
  - exists c2, a. split; [by etrans|done].
Qed.
End progress.

(** From every state a cluster of two or more nodes can reach, with
    whatever delays, losses, log faults and restarts, and for every term above
    those of its nodes, some continuation elects a leader of that term: no
    reachable state is one the nodes cannot agree on a leader from. *)
Theorem raft_can_elect :
  forall (addrs : list bytes) (id : bytes -> bytes) (tr : list Cluster) (c : Cluster) (T : Z),
  config_ok addrs id -> (2 <= length addrs)%nat -> trace writes_ok (boot addrs id) (c :: tr) ->
  (forall a n, c_nodes c !! a = Some n -> r_currentTerm n < T) -> T < 2 ^ 64 ->
  exists (tr' : list Cluster) (c' : Cluster) (a : bytes) (n : Raft),
    rtc (step writes_ok) c c' /\ trace writes_ok (boot addrs id) (c' :: tr') /\
    c_nodes c' !! a = Some n /\ r_state n = Leader /\ r_currentTerm n = T.
Proof.
  intros addrs id tr c T (Haddrs & Hinj & Hid) Hlen Htr Hterms HT.
  destruct (inv_trace addrs id Haddrs Hinj Hid _ _ eq_refl Htr) as (c1 & [= <-] & Hinv).
  destruct (logs_bounded (map_to_list (c_nodes c))) as [B HB].
  destruct (can_lead writes_ok rio_ok_writes addrs id (c :: tr) c B T) as (c2 & a & Hgo & _ & n2 & Hn2 & Hs2 & Ht2); [done..| |done|].
  - intros a n Ha. split; [by eapply Hterms|]. apply (HB (a, n)). by apply elem_of_map_to_list.
  - destruct (goes_trace _ _ _ _ _ Hgo Htr) as [tr' Htr']. by exists tr', c2, a, n2.
Qed.
