(* ===== verification/RaftCommit.v ===== *)
(** * Proposals can always be committed

    From every state a cluster of two or more nodes reaches on healthy disks,
    some continuation elects a leader, lets it accept a command, and replicates
    it until the leader commits it and the proposer is told so.  A follower's
    log may be any that runs produce: the leader moves its next index down
    until the logs meet. *)

From S2P Require Import Prelude GoStd Protocol RaftLog Raft RaftSystem RaftElection RaftLogs RaftSafety RaftStateMachine RaftProgress.

(** ** Proposals *)

(** The channel [d] is empty or holds the success. *)
Definition chan_ok (d : nat) (dn : list (option (option error))) : Prop :=
  dn !! d = Some None \/ dn !! d = Some (Some None).

(** The proposal is waiting, or its caller has been told it succeeded. *)
Definition answered (pr : proposal) (n : Raft) : Prop := r_done n !! p_done pr = Some (Some None).
Definition pending (pr : proposal) (n : Raft) : Prop :=
  pr ∈ r_proposals n /\ chan_ok (p_done pr) (r_done n) \/ answered pr n.

Lemma offer_chan d ch dn :
  chan_ok d dn -> chan_ok d (offer ch None dn) /\ (d = ch \/ dn !! d = Some (Some None) -> offer ch None dn !! d = Some (Some None)).
Proof.
  unfold chan_ok, offer. intros H. destruct (decide (ch = d)) as [-> |Hne].
  - destruct H as [H|H]; rewrite H; [|auto]. rewrite list_lookup_insert_eq by (by apply lookup_lt_Some in H). auto.
  - assert (match dn !! ch with Some None => <[ch:=Some None]> dn | _ => dn end !! d = dn !! d) as ->.
    { destruct (dn !! ch) as [[]|]; [done| |done]. by rewrite list_lookup_insert_ne. }
    split; [done|]. by intros [|].
Qed.

Lemma resolve_chan d ci ps dn :
  chan_ok d dn -> chan_ok d (resolve ci ps dn).2 /\ (dn !! d = Some (Some None) -> (resolve ci ps dn).2 !! d = Some (Some None)).
Proof.
  revert dn. induction ps as [|q ps IH]; intros dn Hd; cbn [resolve]; [done|]. destruct (p_index q <=? ci).
  - destruct (offer_chan d (p_done q) dn Hd) as [Hd' Hs]. destruct (IH _ Hd') as [? Hs']. auto.
  - specialize (IH dn Hd). by destruct (resolve ci ps dn).
Qed.

Lemma resolve_member pr ci ps dn :
  pr ∈ ps -> chan_ok (p_done pr) dn ->
  if p_index pr <=? ci then (resolve ci ps dn).2 !! p_done pr = Some (Some None) else pr ∈ (resolve ci ps dn).1.
Proof.
  revert dn. induction ps as [|q ps IH]; intros dn Hin Hd; [by apply not_elem_of_nil in Hin|].
  apply elem_of_cons in Hin as [-> |Hin]; cbn [resolve].
  - destruct (p_index q <=? ci).
    + destruct (offer_chan (p_done q) (p_done q) dn Hd) as [Hd' Hs]. apply (resolve_chan _ _ _ _ Hd'). auto.
    + destruct (resolve ci ps dn). left.
  - destruct (p_index q <=? ci); [by apply IH, offer_chan|]. specialize (IH dn Hin Hd). destruct (resolve ci ps dn).
    destruct (p_index pr <=? ci); [done|by right].
Qed.

(** What [resolveProposalsLocked] does for a waiting proposal. *)
Lemma resolve_pending pr n n' :
  resolveProposalsLocked n = (Ok tt, n') -> pending pr n -> pending pr n' /\ (p_index pr <= r_commitIndex n -> answered pr n').
Proof.
  intros [= <-] Hp. unfold pending, answered in *.
  assert (chan_ok (p_done pr) (r_done n)) as Hd by (unfold chan_ok in *; destruct Hp as [[_ ?]|?]; auto).
  destruct (resolve_chan _ (r_commitIndex n) (r_proposals n) _ Hd) as [Hd' Hs].
  pose proof (resolve_member pr (r_commitIndex n) (r_proposals n) (r_done n)) as Hm.
  destruct (resolve (r_commitIndex n) (r_proposals n) (r_done n)) as [ps dn]. cbn in *.
  destruct Hp as [[Hin _]|Ha]; [|auto]. specialize (Hm Hin Hd). destruct (Z.leb_spec (p_index pr) (r_commitIndex n)); [auto|].
  split; [by left|lia].
Qed.

(** ** The leader *)

Definition keeps_pending (pr : proposal) (n n' : Raft) : Prop := pending pr n -> pending pr n'.

#[global] Instance keeps_pending_refl pr : Reflexive (keeps_pending pr).
Proof. intros n Hp. exact Hp. Qed.

#[global] Instance keeps_pending_trans pr : Transitive (keeps_pending pr).
Proof. unfold keeps_pending. intros n1 n2 n3. auto. Qed.

Lemma resolve_keeps_pending pr : keeps (keeps_pending pr) resolveProposalsLocked.
Proof. intros n x n' E. assert (x = Ok tt) as -> by (by injection E). intros Hp. by apply (resolve_pending _ _ _ E Hp). Qed.
#[local] Hint Resolve resolve_keeps_pending : quiet.

Lemma set_commit_keeps_pending pr ci b : keeps (keeps_pending pr) (modify (set_commit ci b)).
Proof. intros n x n' [= _ <-] Hp. exact Hp. Qed.
#[local] Hint Resolve set_commit_keeps_pending : quiet.

Lemma advance_keeps_pending pr fuel k : keeps (keeps_pending pr) (advance_from fuel k).
Proof. revert k. induction fuel as [|fuel IH]; intros k; cbn [advance_from]; quiet. Qed.

Lemma replicas_same k n n' : r_matchIndex n' = r_matchIndex n -> r_peers n' = r_peers n -> replicas k n' = replicas k n.
Proof. intros H1 H2. unfold replicas. by rewrite H1, H2. Qed.

(** The replicas of the last entry are a majority, or not. *)
Definition majority_of (n : Raft) : Z := (len (r_peers n) + 1) / 2.

Lemma advance_top pr n e :
  log_ok (r_log n) -> 0 <= r_commitIndex n < len (entries n) -> last (entries n) = Some e -> Term e = r_currentTerm n ->
  pending pr n -> p_index pr = len (entries n) ->
  exists n', advanceCommitIndexLocked n = (Ok tt, n') /\ same_role n n' /\ same_but_commit n n' /\ pending pr n' /\
    (r_commitIndex n' = len (entries n) /\ answered pr n' \/
     0 <= r_commitIndex n' < len (entries n) /\ replicas (len (entries n)) n' <= majority_of n').
Proof.
  intros Hl Hci Hlast Ht Hp Hidx. unfold advanceCommitIndexLocked. mrun. rewrite LastIndex_len by done. mrun.
  destruct (Z.to_nat (len (entries n) - r_commitIndex n)) as [|fuel] eqn:Hf; [lia|]. cbn [advance_from]. mrun.
  rewrite (proj2 (Z.leb_gt _ _)) by lia. rewrite GetEntry_at by (done || lia). mrun.
  assert (at_index (entries n) (len (entries n)) = Some e) as ->.
  { unfold at_index. rewrite (proj2 (Z.ltb_lt _ _)) by lia. rewrite last_lookup in Hlast.
    rewrite <- Hlast. f_equal. unfold len. lia. }
  rewrite Ht, Z.eqb_refl. cbn [negb]. fold (majority_of n).
  destruct (Z.ltb_spec (majority_of n) (replicas (len (entries n)) n)) as [Hmaj|Hmin].
  - mrun. destruct (resolveProposalsLocked (set_commit (len (entries n)) true n)) as [x n'] eqn:E.
    assert (x = Ok tt) as -> by (by injection E). exists n'. split; [done|].
    destruct (resolve_pending pr _ _ E Hp) as [Hp' Ha]. cbn in Ha.
    pose proof (quiet_resolve _ _ _ E) as Hr. injection E as <-. cbn in *.
    split; [done|]. split; [by destruct (resolve _ _ _); repeat split|]. split; [done|]. left.
    split; [by destruct (resolve _ _ _)|]. apply Ha. lia.
  - destruct (advance_from_run fuel (len (entries n) - 1) n) as (n' & E & Hs & Hc); [done|lia..|].
    exists n'. split; [done|]. pose proof (quiet_advance_from _ _ _ _ _ E) as Hr. split; [done|]. split; [done|].
    split; [by apply (advance_keeps_pending _ _ _ _ _ _ E)|]. right. split; [lia|].
    destruct Hs as (_ & _ & _ & _ & _ & Hm). destruct Hr as ((_ & Hpe & _) & _).
    unfold majority_of in *. rewrite (replicas_same _ _ _ Hm Hpe), Hpe. done.
Qed.

Lemma Propose_run cmd data n :
  log_ok (r_log n) -> 0 <= r_currentTerm n < 2 ^ 64 -> len (entries n) + 2 < 2 ^ 64 -> len data < 2 ^ 32 -> r_state n = Leader ->
  exists pr n', Propose cmd data n = (Ok pr, n') /\ same_role n n' /\ pending pr n' /\ p_index pr = len (entries n) + 1 /\
    entries n' = entries n ++ [mkLogEntry (r_currentTerm n) (len (entries n) + 1) cmd data] /\
    r_commitIndex n' = r_commitIndex n /\ r_nextIndex n' = r_nextIndex n /\
    r_matchIndex n' = <[r_addr n:=len (entries n) + 1]> (r_matchIndex n).
Proof.
  intros Hl Ht Hlen Hd Hs. destruct (Propose cmd data n) as [x n'] eqn:E.
  pose proof (quiet_Propose _ _ _ _ _ E) as Hr. revert E. unfold Propose. mrun. pose proof (len_nonneg (entries n)).
  rewrite bool_decide_true by done. cbn [negb]. rewrite LastIndex_len by done. mrun. unfold u64. rewrite Z.mod_small by lia.
  set (e := mkLogEntry (r_currentTerm n) (len (entries n) + 1) cmd data).
  destruct (Append_app (r_log n) Hl [e]) as (l' & E & He & Hl').
  { intros [|i] e'; [intros [= <-]; cbn; lia|done]. }
  { constructor; [|constructor]. repeat split; cbn; lia. }
  { rewrite len_cons, len_nil. lia. }
  rewrite (M_bind_run _ _ _ tt (set_log l' n)) by (unfold on_log; by rewrite E). mrun. intros [= <- <-].
  eexists _, _. split; [done|]. split; [done|]. split_and!; try done. left. cbn. split; [apply elem_of_app; right; left|].
  left. by rewrite lookup_app_r, Nat.sub_diag by lia.
Qed.

(** The answers of a follower to a leader of its term. *)
Lemma append_refused p args n :
  r_state n = Leader -> r_currentTerm n = aa_Term args -> 1 < map_get (r_nextIndex n) p ->
  append_reply Written p args (mkAppendReply (aa_Term args) false) n =
    (Ok tt, set_indexes (<[p:=map_get (r_nextIndex n) p - 1]> (r_nextIndex n)) (r_matchIndex n) n).
Proof.
  intros Hs Ht Hn. unfold append_reply. mrun. cbn [ar_Term ar_Success]. rewrite <- Ht, Z.ltb_irrefl, Z.eqb_refl.
  rewrite bool_decide_true by done. cbn [negb orb]. by rewrite (proj2 (Z.ltb_lt _ _)) by lia.
Qed.

Lemma append_accepted p pr args n e :
  r_state n = Leader -> r_currentTerm n = aa_Term args -> log_ok (r_log n) -> 0 <= r_commitIndex n < len (entries n) ->
  last (entries n) = Some e -> Term e = r_currentTerm n -> last (aa_Entries args) = Some e ->
  pending pr n -> p_index pr = len (entries n) ->
  exists n', append_reply Written p args (mkAppendReply (aa_Term args) true) n = (Ok tt, n') /\ same_role n n' /\ r_log n' = r_log n /\
    r_nextIndex n' = <[p:=len (entries n) + 1]> (r_nextIndex n) /\ r_matchIndex n' = <[p:=len (entries n)]> (r_matchIndex n) /\
    pending pr n' /\
    (r_commitIndex n' = len (entries n) /\ answered pr n' \/
     0 <= r_commitIndex n' < len (entries n) /\ replicas (len (entries n)) n' <= majority_of n').
Proof.
  intros Hs Ht Hl Hci Hlast HtE Hent Hp Hidx. unfold append_reply. mrun. cbn [ar_Term ar_Success].
  rewrite <- Ht, Z.ltb_irrefl, Z.eqb_refl. rewrite bool_decide_true by done. cbn [negb orb].
  assert (Index e = len (entries n)) as He.
  { rewrite last_lookup in Hlast. rewrite (lo_index _ Hl _ _ Hlast). apply lookup_lt_Some in Hlast. unfold len. lia. }
  set (n1 := set_indexes (<[p:=len (entries n) + 1]> (r_nextIndex n)) (<[p:=len (entries n)]> (r_matchIndex n)) n).
  rewrite (M_bind_run _ _ _ tt n1).
  2: { destruct (aa_Entries args) as [|e' es _] eqn:Ees using rev_ind; [done|]. rewrite last_snoc in Hent. injection Hent as ->.
       pose proof (len_nonneg es). rewrite (proj2 (Z.ltb_lt _ _)) by len_lia.
       replace (len (es ++ [e]) - 1) with (Z.of_nat (length es)) by (unfold len; rewrite length_app; simpl; lia).
       erewrite index_ok by (by rewrite lookup_app_r, Nat.sub_diag by lia). mrun. unfold u64. pose proof (lo_len _ Hl).
       by rewrite He, Z.mod_small by lia. }
  destruct (advance_top pr n1 e Hl Hci Hlast HtE Hp Hidx) as (n' & E & Hr & (S1 & _ & _ & _ & S5 & S6) & Hp' & Hc).
  exists n'. rewrite E. split; [done|]. split; [exact Hr|]. split_and!; [by rewrite S1|by rewrite S5|by rewrite S6|done|exact Hc].
Qed.

(** ** Replication *)

Section commit.
Context (addrs : list bytes) (id : bytes -> bytes).
Hypothesis Hcfg : config_ok addrs id.

Abbreviation goes := (rtc (step healthy_io)).

Definition reach (c : Cluster) : Prop := exists tr, trace healthy_io (boot addrs id) (c :: tr).

Lemma reach_step c c' : reach c -> step healthy_io c c' -> reach c'.
Proof. intros [tr Htr] Hs. exists (c :: tr). by constructor. Qed.

Lemma reach_goes c c' : reach c -> goes c c' -> reach c'.
Proof. intros [tr Htr] Hgo. destruct (goes_trace _ _ _ _ _ Hgo Htr) as [tr' ?]. by exists tr'. Qed.

Lemma reach_sys c : reach c -> exists tr, c ∈ tr /\ sys addrs id tr c.
Proof using Hcfg.
  destruct Hcfg as (H1 & H2 & H3). intros [tr Htr]. destruct (sys_trace addrs id H1 H2 H3 _ _ eq_refl Htr) as (c' & [= <-] & Hsys).
  exists (c :: tr). split; [left|done].
Qed.

Lemma reach_node c a n :
  reach c -> c_nodes c !! a = Some n ->
  log_ok (r_log n) /\ 0 <= r_currentTerm n < 2 ^ 64 /\ 0 <= r_commitIndex n <= len (entries n) /\
  r_addr n = a /\ r_peers n = filter (fun p => p <> a) addrs /\ a ∈ addrs /\
  (r_state n = Leader -> forall p, p ∈ r_peers n ->
     1 <= map_get (r_nextIndex n) p <= len (entries n) + 1 /\ map_get (r_matchIndex n) p <= len (entries n)).
Proof using Hcfg.
  intros Hr Hn. destruct (reach_sys c Hr) as (tr & Hc & Hsys).
  destruct (vo_nodes _ _ _ _ (inv_votes _ _ _ _ (sy_inv _ _ _ _ Hsys)) _ _ Hn) as [N1 (N2 & _ & N3) _ N4 _ _].
  destruct (sy_nodes _ _ _ _ Hsys c a n Hc Hn) as [[Hci _] _ _ _ _ Hlead].
  split; [by apply (lg_node _ _ _ _ (sy_logs _ _ _ _ Hsys) a n)|]. split_and!; try done; try lia.
  intros Hs p Hp. destruct (Hlead Hs p Hp) as (? & ? & _). lia.
Qed.

Lemma reach_peer c a n p :
  reach c -> c_nodes c !! a = Some n -> p ∈ r_peers n -> p <> a /\ exists m, c_nodes c !! p = Some m.
Proof using Hcfg.
  intros Hr Hn Hp. destruct (reach_node c a n Hr Hn) as (_ & _ & _ & _ & Hpeers & _). rewrite Hpeers in Hp.
  apply list_elem_of_filter in Hp as [Hpa Hp]. split; [done|]. destruct (reach_sys c Hr) as (tr & _ & Hsys).
  by apply (vo_dom _ _ _ _ (inv_votes _ _ _ _ (sy_inv _ _ _ _ Hsys)) p) in Hp as [m ?]; eauto.
Qed.

(** The leader [a], in state [n], has appended [e], for the proposal [pr]; the
    peers in [todo] have yet to store it, and it is not committed. *)
Record shipping (c : Cluster) (a : bytes) (n : Raft) (e : LogEntry) (pr : proposal) (todo : list bytes) : Prop := {
  sh_reach : reach c;
  sh_node : c_nodes c !! a = Some n;
  sh_lead : r_state n = Leader /\ r_currentTerm n = Term e;
  sh_last : last (entries n) = Some e;
  sh_pending : pending pr n /\ p_index pr = len (entries n);
  sh_commit : 0 <= r_commitIndex n < len (entries n) /\ replicas (len (entries n)) n <= majority_of n;
  sh_done : forall p, p ∈ r_peers n -> p ∈ todo \/ len (entries n) <= map_get (r_matchIndex n) p;
  sh_todo : forall p, p ∈ todo -> p ∈ r_peers n /\ map_get (r_nextIndex n) p <= len (entries n);
  sh_terms : forall p m, c_nodes c !! p = Some m -> r_currentTerm m <= Term e
}.

(** It is committed, and its proposer knows. *)
Record shipped (c : Cluster) (a : bytes) (n : Raft) (e : LogEntry) (pr : proposal) : Prop := {
  sp_node : c_nodes c !! a = Some n;
  sp_lead : r_state n = Leader /\ r_currentTerm n = Term e;
  sp_last : last (entries n) = Some e;
  sp_commit : r_commitIndex n = len (entries n);
  sp_answered : answered pr n
}.

Lemma follow_refused es args : (follow_log es args).2 = false -> 0 < aa_PrevLogIndex args.
Proof. unfold follow_log. by destruct (Z.ltb_spec 0 (aa_PrevLogIndex args)). Qed.

(** The request of a round and its answer: the leader is unchanged, and the
    reply of its term is on its way. *)
Lemma request_round c a n e pr p todo :
  shipping c a n e pr (p :: todo) ->
  exists c' args b, goes c c' /\ shipping c' a n e pr (p :: todo) /\ AppRep p a args (mkAppendReply (aa_Term args) b) ∈ c_msgs c' /\
    aa_Term args = Term e /\ last (aa_Entries args) = Some e /\ (b = false -> 1 < map_get (r_nextIndex n) p).
Proof using Hcfg.
  intros [Hr Hn [Hs Ht] Hlast Hpend Hci Hdone Htodo Hterms].
  destruct (reach_node c a n Hr Hn) as (Hl & Htn & _ & Haddr & Hpeers & _ & Hidx).
  destruct (Htodo p) as [Hp Hnx]; [left|]. destruct (Hidx Hs p Hp) as [Hnx1 _].
  destruct (reach_peer c a n p Hr Hn Hp) as (Hpa & m & Hm).
  destruct (replicateTo_run p n Hl Hnx1 Hs) as (pt & E1 & _). set (args := mkAppendArgs _ _ _ _ _ _) in E1.
  set (c1 := mkCluster (<[a:=n]> (c_nodes c)) (c_elections c) (AppReq a p args :: c_msgs c)).
  assert (step healthy_io c c1) as S1 by exact (step_replicate healthy_io c a p n _ n Hn Hp E1).
  pose proof (reach_step _ _ Hr S1) as Hr1.
  assert (c_nodes c1 !! p = Some m) as Hm1 by (cbn; by rewrite lookup_insert_ne).
  destruct (reach_node c1 p m Hr1 Hm1) as (Hlm & _). destruct (reach_sys c1 Hr1) as (tr1 & _ & Hsys1).
  destruct (sy_msgs _ _ _ _ Hsys1 (AppReq a p args)) as (L & _ & Hcar & _); [left|].
  destruct (handleAppendEntries rio_ok args m) as [x m'] eqn:E2. pose proof (Hterms p m Hm) as Htm.
  destruct (handleAppendEntries_logs rio_ok args m x m' healthy_ok Hlm (carries_args _ _ Hcar) E2) as [(_ & _ & Hlt)|(Hle & _ & _ & _ & -> & _)].
  { cbn in Hlt. lia. }
  destruct (handleAppendEntries_follows rio_ok args m _ m' (proj1 healthy_ok) Hle E2) as [_ Htm'].
  set (b := (follow_log (entries m) args).2) in *.
  set (c2 := mkCluster (<[p:=m']> (c_nodes c1)) (c_elections c1) (AppRep p a args (mkAppendReply (aa_Term args) b) :: c_msgs c1)).
  assert (step healthy_io c1 c2) as S2.
  { refine (step_append_request healthy_io c1 a p args m rio_ok _ m' _ Hm1 healthy_ok E2). left. }
  exists c2, args, b. split; [eapply rtc_l; [exact S1|by apply rtc_once]|]. split; [|split_and!].
  - split; try done; [by eapply reach_step|cbn; by rewrite lookup_insert_ne, lookup_insert_eq|].
    intros q mq Hq. cbn in Hq. apply lookup_insert_Some in Hq as [[<- <-]|[_ Hq]]; [cbn in Htm'; lia|].
    apply lookup_insert_Some in Hq as [[<- <-]|[_ Hq]]; [lia|by eapply Hterms].
  - left.
  - cbn. done.
  - cbn. rewrite last_lookup, lookup_drop, length_drop. rewrite last_lookup in Hlast. rewrite <- Hlast. f_equal. unfold len in *. lia.
  - intros Hb. apply follow_refused in Hb. cbn in Hb. lia.
Qed.

Lemma terms_insert c a n' T els ms :
  (forall p m, c_nodes c !! p = Some m -> r_currentTerm m <= T) -> r_currentTerm n' = T ->
  forall p m, c_nodes (mkCluster (<[a:=n']> (c_nodes c)) els ms) !! p = Some m -> r_currentTerm m <= T.
Proof. intros H Ht p m Hp. cbn in Hp. apply lookup_insert_Some in Hp as [[<- <-]|[_ Hp]]; [lia|by eapply H]. Qed.

(** A round moves the next index of the peer down, or stores the entry there. *)
Lemma round c a n e pr p todo :
  shipping c a n e pr (p :: todo) -> NoDup (p :: todo) ->
  exists c' n', goes c c' /\
    (shipped c' a n' e pr \/ shipping c' a n' e pr todo \/
     shipping c' a n' e pr (p :: todo) /\ 0 < map_get (r_nextIndex n') p < map_get (r_nextIndex n) p).
Proof using Hcfg.
  intros Hsh Hnd. destruct (request_round _ _ _ _ _ _ _ Hsh) as (c1 & args & b & Hgo & Hsh1 & Hmsg & HT & Hent & Hb). clear Hsh.
  destruct Hsh1 as [Hr Hn [Hs Ht] Hlast [Hpend Hidx] [Hci Hmaj] Hdone Htodo Hterms].
  destruct (reach_node c1 a n Hr Hn) as (Hl & Htn & _ & Haddr & Hpeers & _ & Hnext).
  destruct (Htodo p) as [Hp Hnx]; [left|]. destruct (Hnext Hs p Hp) as [Hnx1 _].
  assert (r_currentTerm n = aa_Term args) as HtA by congruence.
  assert (forall n', append_reply Written p args (mkAppendReply (aa_Term args) b) n = (Ok tt, n') ->
    step healthy_io c1 (mkCluster (<[a:=n']> (c_nodes c1)) (c_elections c1) (c_msgs c1))) as Hstep.
  { intros n' E. by apply (step_append_reply healthy_io c1 p a args _ n rio_ok _ n' Hmsg Hn healthy_ok E). }
  destruct b.
  - destruct (append_accepted p pr args n e Hs HtA Hl Hci Hlast (eq_sym Ht) Hent Hpend Hidx)
      as (n' & E & ((_ & Hpe & _) & Ht' & _ & Hs' & _) & Hlog & Hnx' & Hmt' & Hpend' & Hcase).
    set (c2 := mkCluster (<[a:=n']> (c_nodes c1)) (c_elections c1) (c_msgs c1)).
    exists c2, n'. split; [eapply rtc_r; [done|by apply Hstep]|].
    assert (c_nodes c2 !! a = Some n') as Hn2 by (cbn; apply lookup_insert_eq).
    destruct Hcase as [[Hci' Ha]|Hci'].
    + left. split; rewrite ?Hlog, ?Ht', ?Hs'; done.
    + right. left. apply NoDup_cons in Hnd as [Hni _]. split; rewrite ?Hlog, ?Ht', ?Hs', ?Hpe; try done.
      * eapply reach_step; [done|by apply Hstep].
      * intros q Hq. rewrite Hmt'. destruct (decide (q = p)) as [-> |Hne]; [right; rewrite map_get_eq; lia|].
        rewrite map_get_ne by done. destruct (Hdone q Hq) as [[|]%elem_of_cons|]; [done|by left|by right].
      * intros q Hq. destruct (Htodo q) as [Hqp Hqn]; [by right|]. split; [done|]. rewrite Hnx', map_get_ne; [done|]. by intros ->.
      * apply terms_insert; [done|congruence].
  - specialize (Hb eq_refl). pose proof (append_refused p args n Hs HtA Hb) as E.
    set (n' := set_indexes (<[p:=map_get (r_nextIndex n) p - 1]> (r_nextIndex n)) (r_matchIndex n) n) in *.
    set (c2 := mkCluster (<[a:=n']> (c_nodes c1)) (c_elections c1) (c_msgs c1)).
    exists c2, n'. split; [eapply rtc_r; [done|by apply Hstep]|]. right. right.
    split; [|cbn [n' set_indexes r_nextIndex]; rewrite map_get_eq; lia]. split; try done.
    + eapply reach_step; [done|by apply Hstep].
    + cbn. apply lookup_insert_eq.
    + intros q Hq. destruct (Htodo q Hq) as [Hqp Hqn]. split; [done|]. cbn [n' set_indexes r_nextIndex r_log].
      destruct (decide (q = p)) as [-> |Hne]; [rewrite map_get_eq; lia|by rewrite map_get_ne].
    + by apply terms_insert.
Qed.

(** Rounds with one peer, until it stores the entry. *)
Lemma ship_one (k : nat) c a n e pr p todo :
  shipping c a n e pr (p :: todo) -> NoDup (p :: todo) -> map_get (r_nextIndex n) p <= Z.of_nat k ->
  exists c' n', goes c c' /\ (shipped c' a n' e pr \/ shipping c' a n' e pr todo).
Proof using Hcfg.
  revert c n. induction k as [|k IH]; intros c n Hsh Hnd Hk;
    destruct (round _ _ _ _ _ _ _ Hsh Hnd) as (c1 & n1 & Hgo & [Hd|[Hs1|[Hs1 Hlt]]]); eauto; [lia|].
  destruct (IH c1 n1 Hs1 Hnd) as (c2 & n2 & Hgo2 & H); [lia|]. exists c2, n2. split; [by etrans|done].
Qed.

Lemma ship_all c a n e pr todo :
  shipping c a n e pr todo -> NoDup todo -> exists c' n', goes c c' /\ shipped c' a n' e pr.
Proof using Hcfg.
  revert c n. induction todo as [|p todo IH]; intros c n Hsh Hnd.
  - exfalso. destruct Hsh as [Hr Hn _ _ _ [_ Hmaj] Hdone _ _]. rewrite replicas_count in Hmaj. rewrite filter_keep in Hmaj.
    + unfold majority_of in Hmaj. pose proof (len_nonneg (r_peers n)).
      pose proof (Z.mod_pos_bound (len (r_peers n) + 1) 2). pose proof (Z.div_mod (len (r_peers n) + 1) 2). lia.
    + apply Forall_forall. intros p Hp. by destruct (Hdone p Hp) as [?%not_elem_of_nil|].
  - destruct (ship_one (Z.to_nat (map_get (r_nextIndex n) p)) _ _ _ _ _ _ _ Hsh Hnd) as (c1 & n1 & Hgo & [Hd|Hs1]); [lia|eauto|].
    apply NoDup_cons in Hnd as [_ Hnd]. destruct (IH c1 n1 Hs1 Hnd) as (c2 & n2 & Hgo2 & H). exists c2, n2. split; [by etrans|done].
Qed.

(** The leader accepts a command: nobody else stores it yet. *)
Lemma propose_ships c a n cmd data :
  reach c -> c_nodes c !! a = Some n -> r_state n = Leader -> (2 <= length addrs)%nat ->
  len (entries n) + 2 < 2 ^ 64 -> len data < 2 ^ 32 -> (forall p m, c_nodes c !! p = Some m -> r_currentTerm m <= r_currentTerm n) ->
  exists pr c' n', Propose cmd data n = (Ok pr, n') /\ step healthy_io c c' /\
    shipping c' a n' (mkLogEntry (r_currentTerm n) (len (entries n) + 1) cmd data) pr (r_peers n).
Proof using Hcfg.
  intros Hr Hn Hs Hlen Hfit Hd Hterms. destruct (reach_node c a n Hr Hn) as (Hl & Htn & Hci & Haddr & Hpeers & Hin & Hidx).
  destruct (Propose_run cmd data n Hl Htn Hfit Hd Hs) as (pr & n' & E & ((_ & Hpe & _) & Ht' & _ & Hs' & _) & Hpend & Hpi & He & Hci' & Hnx & Hmt).
  set (c' := mkCluster (<[a:=n']> (c_nodes c)) (c_elections c) (c_msgs c)).
  assert (step healthy_io c c') as Hst by exact (step_propose healthy_io c a cmd data n _ n' Hn Hfit Hd E).
  assert (len (entries n') = len (entries n) + 1) as Hlen' by (rewrite He, len_app, len_cons, len_nil; lia).
  assert (forall p, p ∈ r_peers n -> map_get (r_matchIndex n') p <= len (entries n)) as Hlow.
  { intros p Hp. rewrite Hmt, map_get_ne; [by apply (Hidx Hs p Hp)|]. rewrite Haddr. intros ->.
    rewrite Hpeers, list_elem_of_filter in Hp. by destruct Hp. }
  exists pr, c', n'. split; [done|]. split; [done|]. split; rewrite ?Hs', ?Ht', ?Hpe, ?Hnx, ?Hci', ?Hlen'; try done.
  - by eapply reach_step.
  - cbn. apply lookup_insert_eq.
  - by rewrite He, last_snoc.
  - split; [lia|]. rewrite replicas_count, Hpe.
    destruct (filter _ (r_peers n)) as [|p l] eqn:Ef.
    + unfold majority_of. rewrite Hpe, len_nil. pose proof (peers_count addrs (proj1 Hcfg) a Hin) as Hcount. rewrite <- Hpeers in Hcount.
      pose proof (Z.mod_pos_bound (len (r_peers n) + 1) 2). pose proof (Z.div_mod (len (r_peers n) + 1) 2). unfold len in *. lia.
    + assert (p ∈ filter (fun p => len (entries n) + 1 <= map_get (r_matchIndex n') p) (r_peers n)) as Hp by (rewrite Ef; left).
      apply list_elem_of_filter in Hp as [Hp1 Hp2]. specialize (Hlow p Hp2). lia.
  - intros p Hp. by left.
  - intros p Hp. split; [done|]. apply (Hidx Hs p Hp).
  - by apply terms_insert.
Qed.
End commit.

(** C9.  From every state a cluster of two or more nodes can reach on healthy
    disks, with whatever delays, losses and restarts, and for every command
    and every term above those of the nodes: some continuation elects a leader
    of that term, [Propose] accepts the command there, the leader commits it
    as the last entry of its log, and the waiting [Propose] returns nil. *)
Theorem raft_can_commit :
  forall (addrs : list bytes) (id : bytes -> bytes) (tr : list Cluster) (c : Cluster) (T : Z) (cmd : byte) (data : bytes),
  config_ok addrs id -> (2 <= length addrs)%nat -> trace healthy_io (boot addrs id) (c :: tr) ->
  (forall a n, c_nodes c !! a = Some n -> r_currentTerm n < T /\ len (rl_entries (r_log n)) + 2 < 2 ^ 64) -> T < 2 ^ 64 ->
  len data < 2 ^ 32 ->
  exists (a : bytes) (c1 c2 : Cluster) (n1 n2 : Raft) (pr : proposal) (e : LogEntry),
    rtc (step healthy_io) c c1 /\ c_nodes c1 !! a = Some n1 /\ (Propose cmd data n1).1 = Ok pr /\
    rtc (step healthy_io) c1 c2 /\ c_nodes c2 !! a = Some n2 /\ r_state n2 = Leader /\ r_currentTerm n2 = T /\
    last (rl_entries (r_log n2)) = Some e /\ CmdType e = cmd /\ Data e = data /\ Term e = T /\
    r_commitIndex n2 = Index e /\ Propose_wait WakeDone pr n2 = Some None.
Proof.
  intros addrs id tr c T cmd data Hcfg Hlen Htr Hall HT Hd. assert (reach addrs id c) as Hr by (by exists tr).
  destruct (reach_sys addrs id Hcfg c Hr) as (tr0 & _ & Hsys).
  destruct (can_lead healthy_io healthy_ok addrs id tr0 c (2 ^ 64 - 2) T) as (c1 & a & Hgo1 & Hb & n1 & Hn1 & Hs1 & Ht1);
    [apply Hcfg|apply Hsys|done| |done|].
  { intros a n Hn. destruct (Hall a n Hn). split; [done|lia]. }
  pose proof (reach_goes addrs id _ _ Hr Hgo1) as Hr1. destruct (Hb a n1 Hn1) as [_ Hl1].
  destruct (propose_ships addrs id Hcfg c1 a n1 cmd data) as (pr & c1' & n1' & E & Hst & Hsh); [done..|lia|done| |].
  { intros p m Hp. rewrite Ht1. by apply (Hb p m). }
  destruct (reach_node addrs id Hcfg c1 a n1 Hr1 Hn1) as (_ & _ & _ & _ & Hpeers & _).
  destruct (ship_all addrs id Hcfg c1' a n1' _ pr _ Hsh) as (c2 & n2 & Hgo2 & [Hn2 [Hs2 Ht2] Hlast Hci Hans]).
  { rewrite Hpeers. by apply NoDup_filter, Hcfg. }
  assert (reach addrs id c2) as Hr2.
  { eapply reach_goes; [|exact Hgo2]. by eapply reach_step. }
  destruct (reach_node addrs id Hcfg c2 a n2 Hr2 Hn2) as (Hl2 & _).
  eexists a, c1, c2, n1, n2, pr, _. rewrite E. cbn in Ht2.
  split_and!; try done; [by eapply rtc_l|by rewrite Ht2| |].
  - rewrite Hci. rewrite last_lookup in Hlast. rewrite (lo_index _ Hl2 _ _ Hlast). apply lookup_lt_Some in Hlast. unfold len. lia.
  - unfold Propose_wait. by rewrite Hans.
Qed.

(** A trio whose first node led term 1 and crashed commits a command in
    term 2. *)
Lemma raft_can_commit_witness :
  exists tr c c2 a n2 e, trace healthy_io trio (c :: tr) /\ rtc (step healthy_io) c c2 /\ c_nodes c2 !! a = Some n2 /\
    r_state n2 = Leader /\ last (rl_entries (r_log n2)) = Some e /\ Data e = [x78] /\ r_commitIndex n2 = Index e.
Proof.
  destruct (run_ends healthy_io trio (elect_a ++ [EvRestart [x61] rio_ok 0])) as [tr Htr]; [repeat constructor|vm_compute; reflexivity|].
  set (c := last_state trio (elect_a ++ [EvRestart [x61] rio_ok 0])) in *. exists tr, c.
  destruct (raft_can_commit three (fun a => a) tr c 2 CmdRaftPut [x78] three_config)
    as (a & c1 & c2 & n1 & n2 & pr & e & H1 & _ & _ & H2 & H3 & H4 & _ & H5 & _ & H6 & _ & H7 & _); [cbn; lia|exact Htr| |lia|vm_compute; reflexivity|].
  - intros a n Hn%elem_of_map_to_list.
    assert (forallb (fun kv => (r_currentTerm kv.2 <? 2) && (len (rl_entries (r_log kv.2)) + 2 <? 2 ^ 64)) (map_to_list (c_nodes c)) = true)
      as Hall by (vm_compute; reflexivity).
    rewrite forallb_forall in Hall. specialize (Hall _ (proj1 (list_elem_of_In _ _) Hn)).
    apply andb_true_iff in Hall as [H1%Z.ltb_lt H2%Z.ltb_lt]. split; assumption.
  - exists c2, a, n2, e. split; [exact Htr|]. split; [by etrans|]. split_and!; assumption.
Defined.
