(* ===== verification/Transport.v ===== *)
(** * raft/transport.go: connections between nodes

    A transport keeps one RPC client per peer, dialled on demand and dropped
    when a call fails, and a loop that accepts connections.  Calls run in
    goroutines that share the cache: [getClient] releases the lock while it
    dials.  Clients live in a store, where closing one is visible to every
    goroutine that holds it.  What the network and the peers answer is an
    argument. *)

From S2P Require Import Prelude Raft.

(** A client of net/rpc: whom it was dialled to, and whether it is open. *)
Record conn := mkConn {
  cn_peer : bytes;
  cn_open : bool
}.

(** [t_accepting]: the accept loop runs; [t_served]: the connections it handed
    to the RPC server. *)
Record Transport := mkTransport {
  t_addr : bytes;
  t_listening : bool;
  t_peers : gmap bytes nat;
  t_clients : list conn;
  t_closed : bool;
  t_accepting : bool;
  t_served : nat
}.

Definition set_clients (ps : gmap bytes nat) (cs : list conn) (t : Transport) : Transport :=
  mkTransport (t_addr t) (t_listening t) ps cs (t_closed t) (t_accepting t) (t_served t).
Definition set_loop (accepting : bool) (served : nat) (t : Transport) : Transport :=
  mkTransport (t_addr t) (t_listening t) (t_peers t) (t_clients t) (t_closed t) accepting served.
Definition set_shut (t : Transport) : Transport :=
  mkTransport (t_addr t) false (t_peers t) (t_clients t) true (t_accepting t) (t_served t).

(** ** Start and the accept loop *)

(** [listen]: the address [net.Listen] bound, or its error. *)
Definition NewTransport (listen : res bytes) : res Transport :=
  addr ← ctx "transport: listen" listen;
  Ok (mkTransport addr true ∅ [] false false 0).

Definition Transport_Start (registered : res unit) : M Transport unit :=
  lift (ctx "transport: register" registered);;
  t ← get_st; modify (set_loop true (t_served t)).

(** One round of [acceptLoop]: [true] to go on. *)
Definition acceptLoop_round (accepted : res unit) : M Transport bool :=
  t ← get_st;
  match accepted with
  | Ok _ => modify (set_loop true (S (t_served t)));; mret true
  | _ => if t_closed t then modify (set_loop false (t_served t));; mret false else mret true
  end.

(** ** Clients *)

(** [client.Close()], on the store and as a call: a second one only returns an
    error, which nobody looks at. *)
Definition shut (cl : nat) (cs : list conn) : list conn := alter (fun c => mkConn (cn_peer c) false) cl cs.

Definition close_client (cl : nat) : M Transport unit := modify (fun t =>
  set_clients (t_peers t) (shut cl (t_clients t)) t).

(** [getClient]: the look-up, under the lock. *)
Definition getClient_cached (peer : bytes) : M Transport (option nat) := t ← get_st; mret (t_peers t !! peer).

(** The dialling, without the lock. *)
Definition getClient_dial (peer : bytes) (dialled : res unit) : M Transport nat :=
  lift dialled;;
  t ← get_st;
  modify (set_clients (t_peers t) (t_clients t ++ [mkConn peer true]));;
  mret (length (t_clients t)).

(** The second critical section. *)
Definition getClient_store (peer : bytes) (client : nat) : M Transport nat :=
  t ← get_st;
  match t_peers t !! peer with
  | Some existing => close_client client;; mret existing
  | None => modify (set_clients (<[peer:=client]> (t_peers t)) (t_clients t));; mret client
  end.

Definition getClient (peer : bytes) (dialled : res unit) : M Transport nat :=
  cached ← getClient_cached peer;
  match cached with
  | Some client => mret client
  | None => client ← getClient_dial peer dialled; getClient_store peer client
  end.

Definition removeClient (peer : bytes) : M Transport unit :=
  t ← get_st;
  match t_peers t !! peer with
  | Some client =>
      close_client client;;
      modify (fun t => set_clients (delete peer (t_peers t)) (t_clients t) t)
  | None => mret tt
  end.

(** ** Calls *)

(** net/rpc's [ErrShutdown], the result of calls on a closed client. *)
Definition ErrShutdown : error := Errorf "connection is shut down".

(** [client.Call]; [answer] is what the connection gives while it is open. *)
Definition client_Call {R} (client : nat) (answer : res R) : M Transport R :=
  t ← get_st;
  match t_clients t !! client with
  | Some (mkConn _ true) => lift answer
  | _ => throw ErrShutdown
  end.

(** What follows a call: the client of a failed one is dropped. *)
Definition after_call {R} (peer : bytes) (result : res R) : M Transport R :=
  match result with
  | Ok reply => mret reply
  | _ => removeClient peer;; lift result
  end.

(** The result of a computation as a value. *)
Definition result_of {St A} (m : M St A) : M St (res A) := fun s => let '(x, s) := m s in (Ok x, s).

Definition SendRequestVote (peer : bytes) (dialled : res unit) (answer : res RequestVoteReply) : M Transport RequestVoteReply :=
  client ← getClient peer dialled;
  reply ← result_of (client_Call client answer);
  after_call peer reply.

Definition SendAppendEntries (peer : bytes) (dialled : res unit) (answer : res AppendEntriesReply) : M Transport AppendEntriesReply :=
  client ← getClient peer dialled;
  reply ← result_of (client_Call client answer);
  after_call peer reply.

Definition Transport_Addr (t : Transport) : bytes := t_addr t.

(** ** Shutdown *)

(** [Close] up to [wg.Wait]; closing a closed channel panics. *)
Definition Transport_Close_begin : M Transport unit :=
  t ← get_st;
  if t_closed t then lift Panic else modify set_shut.

(** After it, when the accept loop has ended. *)
Definition Transport_Close_end : M Transport unit := modify (fun t =>
  let cached := (map_to_list (t_peers t)).*2 in
  set_clients ∅ (fold_left (fun cs cl => shut cl cs) cached (t_clients t)) t).

(** ** Calls that run at the same time *)

(** Where the goroutine of a call is; [Storing] and [Calling] hold a client. *)
Inductive phase :=
| Looking
| Dialling
| Storing (client : nat)
| Calling (client : nat)
| Removing
| Ended (ok : bool).

Definition go_on (peer : bytes) (ph : phase) (answer : res unit) : M Transport phase :=
  match ph with
  | Looking => cached ← getClient_cached peer; mret (match cached with Some cl => Calling cl | None => Dialling end)
  | Dialling => x ← result_of (getClient_dial peer answer); mret (match x with Ok cl => Storing cl | _ => Ended false end)
  | Storing cl => cl' ← getClient_store peer cl; mret (Calling cl')
  | Calling cl => x ← result_of (client_Call cl answer); mret (match x with Ok _ => Ended true | _ => Removing end)
  | Removing => removeClient peer;; mret (Ended false)
  | Ended ok => mret (Ended ok)
  end.

Record call := mkCall {
  call_peer : bytes;
  call_phase : phase
}.

Inductive closing := Open | Waiting | Closed.

Record tsys := mkTsys {
  ts_t : Transport;
  ts_calls : list call;
  ts_closing : closing
}.

Inductive tstep (s : tsys) : tsys -> Prop :=
| tstep_call peer :
    tstep s (mkTsys (ts_t s) (ts_calls s ++ [mkCall peer Looking]) (ts_closing s))
| tstep_go i peer ph answer ph' t' :
    ts_calls s !! i = Some (mkCall peer ph) -> go_on peer ph answer (ts_t s) = (Ok ph', t') ->
    tstep s (mkTsys t' (<[i:=mkCall peer ph']> (ts_calls s)) (ts_closing s))
| tstep_accept accepted b t' :
    t_accepting (ts_t s) = true -> acceptLoop_round accepted (ts_t s) = (Ok b, t') ->
    tstep s (mkTsys t' (ts_calls s) (ts_closing s))
| tstep_close t' :
    ts_closing s = Open -> Transport_Close_begin (ts_t s) = (Ok tt, t') ->
    tstep s (mkTsys t' (ts_calls s) Waiting)
| tstep_closed t' :
    ts_closing s = Waiting -> t_accepting (ts_t s) = false -> Transport_Close_end (ts_t s) = (Ok tt, t') ->
    tstep s (mkTsys t' (ts_calls s) Closed).

(** One step of a call that nothing interrupts. *)
Definition alone (peer : bytes) (s s' : phase * Transport) : Prop :=
  exists answer, go_on peer s.1 answer s.2 = (Ok s'.1, s'.2).

Definition ended {R} (x : res R) : phase := Ended (match x with Ok _ => true | _ => false end).

Lemma removing_steps {R} peer t (y x : res R) t' :
  (removeClient peer;; lift y) t = (x, t') -> rtc (alone peer) (Removing, t) (Ended false, t') /\ x = y.
Proof.
  intros E. assert (exists t1, removeClient peer t = (Ok tt, t1)) as [t1 Er].
  { unfold removeClient. unfold mbind at 1, M_bind, get_st. cbn. destruct (t_peers t !! peer); by eexists. }
  rewrite (M_bind_run _ _ _ _ _ Er) in E. injection E as <- <-. split; [|done]. apply rtc_once. exists (Ok tt).
  cbn [go_on fst snd]. by rewrite (M_bind_run _ _ _ _ _ Er).
Qed.

Lemma calling_steps {R} peer cl (answer : res R) t x t' :
  (reply ← result_of (client_Call cl answer); after_call peer reply) t = (x, t') ->
  rtc (alone peer) (Calling cl, t) (ended x, t').
Proof.
  set (o := match t_clients t !! cl with Some (mkConn _ o) => o | None => false end).
  assert (forall A (ans : res A), client_Call cl ans t = (if o then ans else Err ErrShutdown, t)) as Hc.
  { intros A ans. unfold o, client_Call, mbind, M_bind, get_st. by destruct (t_clients t !! cl) as [[? []]|]. }
  clearbody o. set (y := if o then answer else Err ErrShutdown).
  unfold mbind at 1, M_bind at 1, result_of at 1. rewrite Hc. fold y. intros E.
  assert (alone peer (Calling cl, t) (match y with Ok _ => Ended true | _ => Removing end, t)) as Hstep.
  { exists (match answer with Ok _ => Ok tt | _ => Err ErrIO end). cbn [go_on fst snd]. unfold mbind, M_bind, result_of. rewrite Hc.
    unfold y. destruct o; [|done]. by destruct answer. }
  destruct y as [r| | |]; cbn [after_call] in E; [injection E as <- <-; by apply rtc_once|..];
    (eapply rtc_l; [exact Hstep|]); by apply removing_steps in E as [Hr ->].
Qed.

Lemma cached_run peer t : getClient_cached peer t = (Ok (t_peers t !! peer), t).
Proof. done. Qed.

Lemma looking_step peer t : alone peer (Looking, t) (match t_peers t !! peer with Some cl => Calling cl | None => Dialling end, t).
Proof. exists (Ok tt). cbn [go_on fst snd]. by rewrite (M_bind_run _ _ _ _ _ (cached_run peer t)). Qed.

Lemma getClient_hit peer dialled t cl : t_peers t !! peer = Some cl -> getClient peer dialled t = (Ok cl, t).
Proof. intros Hp. unfold getClient. by rewrite (M_bind_run _ _ _ _ _ (cached_run peer t)), Hp. Qed.

Lemma getClient_miss peer dialled t :
  t_peers t !! peer = None -> getClient peer dialled t = (client ← getClient_dial peer dialled; getClient_store peer client) t.
Proof. intros Hp. unfold getClient. by rewrite (M_bind_run _ _ _ _ _ (cached_run peer t)), Hp. Qed.

(** A call that nothing interrupts is [SendRequestVote], or with another type
    of replies [SendAppendEntries]. *)
Lemma send_steps peer dialled answer t x t' :
  SendRequestVote peer dialled answer t = (x, t') -> rtc (alone peer) (Looking, t) (ended x, t').
Proof.
  unfold SendRequestVote. intros E. pose proof (looking_step peer t) as Hlook. destruct (t_peers t !! peer) as [cl|] eqn:Hp; (eapply rtc_l; [exact Hlook|]).
  - rewrite (M_bind_run _ _ _ _ _ (getClient_hit _ _ _ _ Hp)) in E.
    by eapply calling_steps.
  - unfold mbind at 1, M_bind at 1 in E. rewrite getClient_miss in E by done. destruct dialled as [[]| | |].
    2-4: injection E as <- <-; apply rtc_once; by exists (Err ErrIO).
    set (t1 := set_clients (t_peers t) (t_clients t ++ [mkConn peer true]) t).
    set (t2 := set_clients (<[peer:=length (t_clients t)]> (t_peers t)) (t_clients t1) t1).
    eapply (rtc_l _ _ (Storing (length (t_clients t)), t1)); [by exists (Ok tt)|].
    assert (getClient_store peer (length (t_clients t)) t1 = (Ok (length (t_clients t)), t2)) as Est.
    { unfold getClient_store. rewrite (M_bind_run _ _ _ t1 t1) by done. cbn [t_peers t1 set_clients]. by rewrite Hp. }
    eapply (rtc_l _ _ (Calling (length (t_clients t)), t2)).
    { exists (Ok tt). cbn [go_on fst snd]. by rewrite (M_bind_run _ _ _ _ _ Est). }
    eapply calling_steps. rewrite <- E. rewrite (M_bind_run _ _ _ (length (t_clients t)) t1) by done. by rewrite Est.
Qed.

(** ** Who owns a connection *)

Definition open_to (t : Transport) (peer : bytes) (cl : nat) : Prop := t_clients t !! cl = Some (mkConn peer true).
Definition stores (calls : list call) (i : nat) (peer : bytes) (cl : nat) : Prop := calls !! i = Some (mkCall peer (Storing cl)).

Record owned (t : Transport) (calls : list call) : Prop := {
  ow_cached : forall p cl, t_peers t !! p = Some cl -> open_to t p cl;
  ow_open : forall p cl, open_to t p cl -> t_peers t !! p = Some cl \/ exists i, stores calls i p cl;
  ow_stores : forall i p cl, stores calls i p cl -> open_to t p cl /\ t_peers t !! p <> Some cl;
  ow_once : forall i j p q cl, stores calls i p cl -> stores calls j q cl -> i = j
}.

Lemma owned_same t t' calls : t_peers t' = t_peers t -> t_clients t' = t_clients t -> owned t calls -> owned t' calls.
Proof. intros H1 H2 [O1 O2 O3 O4]. split; unfold open_to; rewrite ?H1, ?H2; done. Qed.

(** A call that stores nothing before and after a step. *)
Lemma stores_other calls i p ph ph' :
  calls !! i = Some (mkCall p ph) -> (forall cl, ph <> Storing cl) -> (forall cl, ph' <> Storing cl) ->
  forall j q cl, stores (<[i:=mkCall p ph']> calls) j q cl <-> stores calls j q cl.
Proof.
  intros Hi Hph Hph' j q cl. unfold stores. destruct (decide (j = i)) as [-> |Hne].
  - rewrite list_lookup_insert_eq by (by apply lookup_lt_Some in Hi). rewrite Hi.
    split; intros [= -> Hs]; [by destruct (Hph' cl)|by destruct (Hph cl)].
  - by rewrite list_lookup_insert_ne.
Qed.

Lemma owned_calls t calls calls' : (forall j q cl, stores calls' j q cl <-> stores calls j q cl) -> owned t calls -> owned t calls'.
Proof.
  intros He [O1 O2 O3 O4]. split; [done|..].
  - intros p cl Ho. destruct (O2 p cl Ho) as [|[i Hi]]; [by left|right]. exists i. by apply He.
  - intros i p cl Hi%He. eauto.
  - intros i j p q cl Hi%He Hj%He. eauto.
Qed.

Lemma stores_insert calls i p ph ph' j q cl :
  calls !! i = Some (mkCall p ph) ->
  stores (<[i:=mkCall p ph']> calls) j q cl <-> (j = i /\ q = p /\ ph' = Storing cl) \/ (j <> i /\ stores calls j q cl).
Proof.
  intros Hi. unfold stores. destruct (decide (j = i)) as [-> |Hne].
  - rewrite list_lookup_insert_eq by (by apply lookup_lt_Some in Hi). split; [intros [= -> ->]; auto|intros [(_ & -> & ->)|[]]; done].
  - rewrite list_lookup_insert_ne by done. split; [auto|intros [[]|[]]; done].
Qed.

Lemma owned_dial t calls i p :
  owned t calls -> calls !! i = Some (mkCall p Dialling) ->
  owned (set_clients (t_peers t) (t_clients t ++ [mkConn p true]) t) (<[i:=mkCall p (Storing (length (t_clients t)))]> calls).
Proof.
  intros [O1 O2 O3 O4] Hi. set (new := length (t_clients t)).
  assert (forall q cl, t_clients t !! cl = Some q -> (t_clients t ++ [mkConn p true]) !! cl = Some q) as Hold by (intros; by apply lookup_app_l_Some).
  assert (forall q cl, open_to t q cl -> cl <> new) as Hnew by (intros q cl Ho ->; apply lookup_lt_Some in Ho; unfold new in Ho; lia).
  split; cbn [t_peers t_clients set_clients]; unfold open_to in *; cbn [t_peers t_clients set_clients].
  - intros q cl Hq. by apply Hold, O1.
  - intros q cl Ho. destruct (decide (cl = new)) as [-> |Hne].
    + rewrite lookup_app_r, Nat.sub_diag in Ho by done. injection Ho as <-. right. exists i. rewrite stores_insert by done. auto.
    + apply lookup_app_Some in Ho as [Ho|[Hge Ho]]; [|apply lookup_lt_Some in Ho; cbn in Ho; unfold new in Hne; lia].
      destruct (O2 q cl Ho) as [|[j Hj]]; [by left|right]. exists j. rewrite stores_insert by done. right. split; [|done].
      intros ->. unfold stores in Hj. congruence.
  - intros j q cl. rewrite stores_insert by done. intros [(-> & -> & [= <-])|[Hne Hj]].
    + split; [by rewrite lookup_app_r, Nat.sub_diag|]. intros Hc. apply O1 in Hc. by apply Hnew in Hc.
    + destruct (O3 _ _ _ Hj) as [Ho Hc]. split; [by apply Hold|done].
  - intros j k q q' cl. rewrite !stores_insert by done.
    intros [(-> & -> & [= <-])|[Hne Hj]] [(-> & -> & E)|[Hne' Hk]]; [done| | |by eauto].
    + apply O3 in Hk as [Ho _]. by apply Hnew in Ho.
    + injection E as <-. apply O3 in Hj as [Ho _]. by apply Hnew in Ho.
Qed.

Lemma shut_open cs cl q cl' : shut cl cs !! cl' = Some (mkConn q true) <-> cl' <> cl /\ cs !! cl' = Some (mkConn q true).
Proof.
  unfold shut. destruct (decide (cl' = cl)) as [-> |Hne].
  - rewrite list_lookup_alter_eq. split; [|by intros []]. intros (c & _ & [=])%fmap_Some.
  - rewrite list_lookup_alter_ne by done. split; [done|by intros []].
Qed.

Lemma owned_store_existing t calls i p cl cl0 :
  owned t calls -> stores calls i p cl -> t_peers t !! p = Some cl0 ->
  owned (set_clients (t_peers t) (shut cl (t_clients t)) t) (<[i:=mkCall p (Calling cl0)]> calls).
Proof.
  intros [O1 O2 O3 O4] Hi Hp. destruct (O3 _ _ _ Hi) as [Ho Hc].
  assert (forall j q c, stores (<[i:=mkCall p (Calling cl0)]> calls) j q c <-> j <> i /\ stores calls j q c) as Hst.
  { intros j q c. rewrite stores_insert by done. split; [intros [(_ & _ & [=])|]; done|auto]. }
  split; cbn [t_peers t_clients set_clients]; unfold open_to; cbn [t_peers t_clients set_clients].
  - intros q c Hq. apply shut_open. split; [|by apply O1]. intros ->. pose proof (O1 _ _ Hq) as Hq'. unfold open_to in *. congruence.
  - intros q c [Hne Hq]%shut_open. destruct (O2 q c Hq) as [|[j Hj]]; [by left|right]. exists j. apply Hst. split; [|done].
    intros ->. unfold stores in *. congruence.
  - intros j q c [Hne Hj]%Hst. destruct (O3 _ _ _ Hj) as [Hq Hq']. split; [|done]. apply shut_open. split; [|done].
    intros ->. by apply Hne, (O4 j i q p cl).
  - intros j k q q' c [_ Hj]%Hst [_ Hk]%Hst. eauto.
Qed.

Lemma owned_store_new t calls i p cl :
  owned t calls -> stores calls i p cl -> t_peers t !! p = None ->
  owned (set_clients (<[p:=cl]> (t_peers t)) (t_clients t) t) (<[i:=mkCall p (Calling cl)]> calls).
Proof.
  intros [O1 O2 O3 O4] Hi Hp. destruct (O3 _ _ _ Hi) as [Ho Hc].
  assert (forall j q c, stores (<[i:=mkCall p (Calling cl)]> calls) j q c <-> j <> i /\ stores calls j q c) as Hst.
  { intros j q c. rewrite stores_insert by done. split; [intros [(_ & _ & [=])|]; done|auto]. }
  split; cbn [t_peers t_clients set_clients]; unfold open_to; cbn [t_peers t_clients set_clients].
  - intros q c [[<- <-]|[_ Hq]]%lookup_insert_Some; [done|by apply O1].
  - intros q c Hq. destruct (O2 q c Hq) as [Hq'|[j Hj]].
    + left. rewrite lookup_insert_ne; [done|]. intros ->. congruence.
    + destruct (decide (j = i)) as [-> |Hne]; [|right; exists j; by apply Hst].
      left. assert (q = p /\ c = cl) as [-> ->] by (unfold stores in *; rewrite Hi in Hj; by injection Hj). apply lookup_insert_eq.
  - intros j q c [Hne Hj]%Hst. destruct (O3 _ _ _ Hj) as [Hq Hq']. split; [done|].
    rewrite lookup_insert_Some. intros [[<- <-]|[_ ?]]; [|done]. by apply Hne, (O4 j i p p cl).
  - intros j k q q' c [_ Hj]%Hst [_ Hk]%Hst. eauto.
Qed.

Lemma owned_remove t calls p cl :
  owned t calls -> t_peers t !! p = Some cl -> owned (set_clients (delete p (t_peers t)) (shut cl (t_clients t)) t) calls.
Proof.
  intros [O1 O2 O3 O4] Hp. pose proof (O1 _ _ Hp) as Ho.
  assert (forall q, open_to t q cl -> q = p) as Hsame by (unfold open_to in *; intros q Hq; congruence).
  split; cbn [t_peers t_clients set_clients]; unfold open_to; cbn [t_peers t_clients set_clients].
  - intros q c [Hne Hq]%lookup_delete_Some. apply shut_open. split; [|by apply O1]. intros ->. apply O1, Hsame in Hq. by apply Hne.
  - intros q c [Hne Hq]%shut_open. destruct (O2 q c Hq) as [Hq'|]; [left|by right]. apply lookup_delete_Some. split; [|done].
    intros ->. congruence.
  - intros i q c Hi. destruct (O3 _ _ _ Hi) as [Hq Hq']. split.
    + apply shut_open. split; [|done]. intros ->. apply Hsame in Hq as ->. done.
    + by intros [_ ?]%lookup_delete_Some.
  - done.
Qed.

Lemma shut_all_open cls cs q c :
  (fold_left (fun cs cl => shut cl cs) cls cs) !! c = Some (mkConn q true) <-> (~ c ∈ cls) /\ cs !! c = Some (mkConn q true).
Proof.
  revert cs. induction cls as [|cl cls IH]; intros cs; cbn [fold_left].
  - split; [intros H; split; [apply not_elem_of_nil|done]|by intros []].
  - rewrite IH, shut_open, not_elem_of_cons. tauto.
Qed.

Lemma close_end_open t q c :
  open_to (Transport_Close_end t).2 q c <-> (forall p, t_peers t !! p <> Some c) /\ open_to t q c.
Proof.
  unfold open_to. cbn [Transport_Close_end modify snd t_clients set_clients].
  rewrite shut_all_open.
  split; intros [Hc Ho]; (split; [|done]).
  - intros p Hp. apply Hc. apply list_elem_of_fmap. exists (p, c). split; [done|]. by apply elem_of_map_to_list.
  - intros ([p c'] & -> & Hp%elem_of_map_to_list)%list_elem_of_fmap. by apply (Hc p).
Qed.

Lemma owned_close t calls : owned t calls -> owned (Transport_Close_end t).2 calls.
Proof.
  intros [O1 O2 O3 O4]. split.
  - done.
  - intros p cl [Hc Ho]%close_end_open. destruct (O2 p cl Ho) as [H|]; [by destruct (Hc p)|by right].
  - intros i p cl Hi. destruct (O3 _ _ _ Hi) as [Ho Hn]. split; [|done]. apply close_end_open. split; [|done].
    intros q Hq. pose proof (O1 _ _ Hq) as Hq'. unfold open_to in *. congruence.
  - done.
Qed.

Lemma owned_go t calls i p ph answer ph' t' :
  owned t calls -> calls !! i = Some (mkCall p ph) -> go_on p ph answer t = (Ok ph', t') ->
  owned t' (<[i:=mkCall p ph']> calls).
Proof.
  intros Ho Hi. assert (forall ph', (forall cl, ph <> Storing cl) -> (forall cl, ph' <> Storing cl) -> owned t (<[i:=mkCall p ph']> calls)) as Hsame.
  { intros ph1 H1 H2. eapply owned_calls; [|done]. by apply (stores_other calls i p ph). }
  destruct ph as [| |cl|cl| |ok]; cbn [go_on].
  - rewrite (M_bind_run _ _ _ _ _ (cached_run p t)). intros [= <- <-]. apply Hsame; [done|]. by destruct (t_peers t !! p).
  - destruct answer as [[]| | |]; intros [= <- <-]; [by apply owned_dial|by apply Hsame..].
  - unfold getClient_store, mbind, M_bind, get_st. destruct (t_peers t !! p) as [cl0|] eqn:Hp; intros [= <- <-].
    + by apply owned_store_existing.
    + by apply owned_store_new.
  - unfold client_Call, mbind, M_bind, result_of, get_st.
    destruct (t_clients t !! cl) as [[? []]|]; [destruct answer|..]; intros [= <- <-]; by apply Hsame.
  - unfold removeClient, mbind, M_bind, get_st. destruct (t_peers t !! p) as [cl0|] eqn:Hp; intros [= <- <-]; [|by apply Hsame].
    eapply owned_calls; [by apply (stores_other calls i p Removing)|]. exact (owned_remove t calls p cl0 Ho Hp).
  - intros [= <- <-]. by apply Hsame.
Qed.

Lemma owned_step s s' : owned (ts_t s) (ts_calls s) -> tstep s s' -> owned (ts_t s') (ts_calls s').
Proof.
  intros Ho Hst. destruct Hst as [peer|i peer ph answer ph' t' Hi E|accepted b t' _ E|t' _ E|t' _ _ E]; cbn [ts_t ts_calls].
  - eapply owned_calls; [|done]. intros j q cl. unfold stores. split; [|intros; by apply lookup_app_l_Some].
    intros [|[_ H]]%lookup_app_Some; [done|]. by apply list_lookup_singleton_Some in H as [_ [= _ H]].
  - by eapply owned_go.
  - eapply owned_same; [..|done]; revert E; unfold acceptLoop_round, mbind, M_bind, get_st;
      (destruct accepted; [|destruct (t_closed (ts_t s))..]; by intros [= _ <-]).
  - eapply owned_same; [..|done]; revert E; unfold Transport_Close_begin, mbind, M_bind, get_st;
      (destruct (t_closed (ts_t s)); by intros [= <-]).
  - replace t' with (Transport_Close_end (ts_t s)).2 by (by rewrite E). by apply owned_close.
Qed.

Lemma owned_run s s' : rtc tstep s s' -> owned (ts_t s) (ts_calls s) -> owned (ts_t s') (ts_calls s').
Proof. induction 1 as [|s s1 s' Hst _ IH]; [done|]. intros Ho. by eapply IH, owned_step. Qed.

(** C10.  Connections are accounted for.  In every run of a transport, with any
    number of calls at the same time, failing dials and calls, and [Close] at
    any time: a cached client is an open connection to that peer; an open
    client is the cached one of its peer or belongs to exactly one call, which
    has dialled it and is about to cache or close it; and if no call is
    between its dial and its second critical section when [Close] ends, no
    client is left open. *)
Theorem transport_owns_clients :
  forall (addr : bytes) (t0 t1 : Transport) (s : tsys),
  NewTransport (Ok addr) = Ok t0 -> Transport_Start (Ok tt) t0 = (Ok tt, t1) -> rtc tstep (mkTsys t1 [] Open) s ->
  (forall p cl, t_peers (ts_t s) !! p = Some cl -> t_clients (ts_t s) !! cl = Some (mkConn p true)) /\
  (forall p cl, t_clients (ts_t s) !! cl = Some (mkConn p true) ->
     t_peers (ts_t s) !! p = Some cl \/
     exists i, ts_calls s !! i = Some (mkCall p (Storing cl)) /\ forall j q, ts_calls s !! j = Some (mkCall q (Storing cl)) -> j = i) /\
  ((forall i p cl, ts_calls s !! i <> Some (mkCall p (Storing cl))) ->
     forall p cl, t_clients (Transport_Close_end (ts_t s)).2 !! cl <> Some (mkConn p true)).
Proof.
  intros addr t0 t1 s [= <-] [= <-] Hrun.
  assert (owned (ts_t s) (ts_calls s)) as [O1 O2 O3 O4].
  { eapply owned_run; [exact Hrun|]. by split. }
  split; [done|]. split.
  - intros p cl Ho. destruct (O2 p cl Ho) as [|[i Hi]]; [by left|right]. exists i. split; [done|]. intros j q Hj. by apply (O4 j i q p cl).
  - intros Hnone p cl [Hc Ho]%close_end_open. destruct (O2 p cl Ho) as [H|[i Hi]]; [by apply (Hc p)|by apply (Hnone i p cl)].
Qed.

(** ** A run *)

(** The transport after [Start]; a call that dials [peer] and holds the new
    client. *)
Definition started : Transport := set_loop true 0 (mkTransport [x61] true ∅ [] false false 0).
Definition dialled : Transport := set_clients ∅ [mkConn [x62] true] started.

Lemma dialled_run : rtc tstep (mkTsys started [] Open) (mkTsys dialled [mkCall [x62] (Storing 0)] Open).
Proof.
  eapply rtc_l; [apply (tstep_call _ [x62])|].
  eapply rtc_l; [apply (tstep_go _ 0 [x62] Looking (Ok tt) Dialling started); vm_compute; reflexivity|].
  eapply rtc_l; [apply (tstep_go _ 0 [x62] Dialling (Ok tt) (Storing 0) dialled); vm_compute; reflexivity|].
  apply rtc_refl.
Qed.

Lemma transport_owns_clients_witness :
  exists t0 t1 s, NewTransport (Ok [x61]) = Ok t0 /\ Transport_Start (Ok tt) t0 = (Ok tt, t1) /\ rtc tstep (mkTsys t1 [] Open) s /\
    t_clients (ts_t s) !! 0%nat = Some (mkConn [x62] true) /\
    exists i, ts_calls s !! i = Some (mkCall [x62] (Storing 0)).
Proof.
  exists (mkTransport [x61] true ∅ [] false false 0), started, (mkTsys dialled [mkCall [x62] (Storing 0)] Open).
  split; [reflexivity|]. split; [reflexivity|]. split; [exact dialled_run|]. split; [reflexivity|].
  destruct (proj1 (proj2 (transport_owns_clients [x61] _ started _ eq_refl eq_refl dialled_run)) [x62] 0%nat eq_refl) as [H|(i & Hi & _)].
  - vm_compute in H. discriminate H.
  - exists i. exact Hi.
Defined.

(** The exception is real: [Close] does not wait for calls.  A call that
    has dialled when [Close] runs caches its client in the new map, where
    nothing closes it any more; a second [Close] panics. *)
Theorem transport_close_leaks :
  exists s : tsys, rtc tstep (mkTsys started [] Open) s /\ ts_closing s = Closed /\
    (forall i c, ts_calls s !! i = Some c -> exists ok, call_phase c = Ended ok) /\
    t_clients (ts_t s) !! 0%nat = Some (mkConn [x62] true) /\ (Transport_Close_begin (ts_t s)).1 = Panic.
Proof.
  set (waiting := set_shut dialled). set (ended := set_loop false 0 waiting). set (closed := set_clients ∅ [mkConn [x62] true] ended).
  set (stored := set_clients {[ [x62] := 0%nat ]} [mkConn [x62] true] closed).
  exists (mkTsys stored [mkCall [x62] (Ended true)] Closed). split; [|split_and!; try reflexivity].
  2: { intros [|i] c; [intros [= <-]; by exists true|done]. }
  etrans; [exact dialled_run|].
  eapply rtc_l; [apply (tstep_close _ waiting); reflexivity|].
  eapply rtc_l; [apply (tstep_accept _ (Err ErrIO) false ended); reflexivity|].
  eapply rtc_l; [apply (tstep_closed _ closed); reflexivity|].
  eapply rtc_l; [apply (tstep_go _ 0 [x62] (Storing 0) (Ok tt) (Calling 0) stored); vm_compute; reflexivity|].
  eapply rtc_l; [apply (tstep_go _ 0 [x62] (Calling 0) (Ok tt) (Ended true) stored); vm_compute; reflexivity|].
  apply rtc_refl.
Qed.
