(* ===== verification/Server.v ===== *)
(** * server/tcp.go: the TCP server

    Requests are dispatched to a store behind the interface [KV], which the
    engine implements; a connection is the bytes that arrived and the buffered
    writer of the replies.  Without a complete frame the reading loop blocks, or
    returns if the client has closed its side; it keeps nothing in between. *)

From S2P Require Import Prelude GoStd Protocol Engine.

(** ** The store the server calls *)

(** The methods of [*engine.Engine] the server uses. *)
Class KV (St : Type) := {
  kv_put : bytes -> bytes -> M St unit;
  kv_get : bytes -> St -> res (option bytes);
  kv_delete : bytes -> M St unit;
  kv_batch_put : list bytes -> list bytes -> M St unit;
  kv_range : bytes -> bytes -> St -> res (list KVPair)
}.

(** The engine with the outcomes of the calls to come, and the fuel of its
    range scans. *)
Record Served := mkServed {
  sv_engine : Engine;
  sv_ios : nat -> IO;
  sv_fuel : nat
}.

Definition on_engine {A} (m : IO -> M Engine A) : M Served A := fun s =>
  let '(r, e) := m (sv_ios s 0) (sv_engine s) in (r, mkServed e (fun i => sv_ios s (S i)) (sv_fuel s)).

(** Decoded values are never nil. *)
#[export] Instance Engine_KV : KV Served := {
  kv_put := fun key value => on_engine (fun io => Engine_Put io key (Some value));
  kv_get := fun key s => Engine_Get key (sv_engine s);
  kv_delete := fun key => on_engine (fun io => Engine_Delete io key);
  kv_batch_put := fun keys values => on_engine (fun io => Engine_BatchPut io keys (Some <$> values));
  kv_range := fun a b s => Engine_ReadRange (sv_fuel s) a b (sv_engine s)
}.

(** ** Error texts *)

Definition text (s : string) : bytes := String.list_byte_of_string s.

(** [err.Error()]; [os] is the text of an error of the system. *)
Fixpoint Error (os : bytes) (e : error) : bytes :=
  match e with
  | ErrNotFound => text "key not found"
  | ErrFrozen => text "memtable is frozen"
  | ErrEOF => text "EOF"
  | ErrUnexpectedEOF => text "unexpected EOF"
  | ErrIO => os
  | Errorf msg => text msg
  | Wrap ctx e => text ctx ++ text ": " ++ Error os e
  end.

(** [errors.Is(err, engine.ErrNotFound)] of a returned error. *)
Fixpoint is_not_found (e : error) : bool :=
  match e with ErrNotFound => true | Wrap _ e => is_not_found e | _ => false end.
Definition not_found {A} (r : res A) : bool := match r with Err e => is_not_found e | _ => false end.

(** ** Connections *)

Record Conn (St : Type) := mkConn {
  cn_store : St;
  cn_in : bytes;
  cn_out : Bufio
}.
Arguments mkConn {St} _ _ _.
Arguments cn_store {St} _.
Arguments cn_in {St} _.
Arguments cn_out {St} _.

Section server.
Context {St : Type} `{!KV St} (os : bytes).

Definition on_store {A} (m : M St A) : M (Conn St) A := fun c =>
  let '(r, s) := m (cn_store c) in (r, mkConn s (cn_in c) (cn_out c)).

(** The error of a write is dropped. *)
Definition respond (status : byte) (payload : bytes) : M (Conn St) unit := fun c =>
  let '(r, w) := WriteResponse status payload (cn_out c) in
  (match r with Panic => Panic | OutOfFuel => OutOfFuel | _ => Ok tt end, mkConn (cn_store c) (cn_in c) w).

(** [if err != nil { WriteResponse(w, StatusError, err.Error()); return }] *)
Definition or_error {A} (m : M (Conn St) A) (k : A -> M (Conn St) unit) : M (Conn St) unit := fun c =>
  match m c with
  | (Ok a, c) => k a c
  | (Err e, c) => respond StatusError (Error os e) c
  | (Panic, c) => (Panic, c)
  | (OutOfFuel, c) => (OutOfFuel, c)
  end.

Definition handlePut (payload : bytes) : M (Conn St) unit :=
  or_error (lift (DecodePut payload)) (fun '(key, value) =>
  or_error (on_store (kv_put key value)) (fun _ =>
  respond StatusOK [])).

Definition handleGet (payload : bytes) : M (Conn St) unit :=
  or_error (lift (DecodeKey payload)) (fun key c =>
  let r := kv_get key (cn_store c) in
  if not_found r then respond StatusNotFound [] c
  else or_error (lift r) (fun value => respond StatusOK (EncodeValue (val_bytes value))) c).

Definition handleDelete (payload : bytes) : M (Conn St) unit :=
  or_error (lift (DecodeKey payload)) (fun key =>
  or_error (on_store (kv_delete key)) (fun _ =>
  respond StatusOK [])).

Definition handleBatchPut (payload : bytes) : M (Conn St) unit :=
  or_error (lift (DecodeBatchPut payload)) (fun '(keys, values) =>
  or_error (on_store (kv_batch_put keys values)) (fun _ =>
  respond StatusOK [])).

Definition handleGetRange (payload : bytes) : M (Conn St) unit :=
  or_error (lift (DecodeRange payload)) (fun '(startKey, endKey) c =>
  or_error (lift (kv_range startKey endKey (cn_store c))) (fun pairs =>
    p ← lift (EncodeKVPairs (kv_Key <$> pairs) (kv_Value <$> pairs));
    respond StatusOK p) c).

Definition dispatch (cmd : byte) (payload : bytes) : M (Conn St) unit :=
  if bool_decide (cmd = CmdPut) then handlePut payload
  else if bool_decide (cmd = CmdGet) then handleGet payload
  else if bool_decide (cmd = CmdDelete) then handleDelete payload
  else if bool_decide (cmd = CmdBatchPut) then handleBatchPut payload
  else if bool_decide (cmd = CmdGetRange) then handleGetRange payload
  else respond StatusError (text "unknown command").

(** What [ReadFrame] comes to on the bytes that arrived: a request, an error,
    or a read that waits for more bytes.  [eof]: the client has closed its
    side. *)
Inductive conn_read := Frame (cmd : byte) (payload : bytes) | ReadFails | ReadBlocks.

Definition starved (e : error) : bool := match e with ErrEOF | ErrUnexpectedEOF => true | _ => false end.

Definition next_request (eof : bool) : M (Conn St) conn_read := fun c =>
  match ReadFrame (cn_in c) with
  | Ok (cmd, payload, rest) => (Ok (Frame cmd payload), mkConn (cn_store c) rest (cn_out c))
  | Err e => (Ok (if starved e && negb eof then ReadBlocks else ReadFails), c)
  | Panic => (Panic, c)
  | OutOfFuel => (OutOfFuel, c)
  end.

(** [closing i]: whether [closeCh] is closed before the [i]-th request.  The
    result is [true] when the loop returned (any error of a read ends it) and
    [false] when it blocks. *)
Fixpoint handleConn (fuel : nat) (eof : bool) (closing : nat -> bool) (i : nat) : M (Conn St) bool :=
  if closing i then mret true else
  match fuel with
  | O => lift OutOfFuel
  | S fuel =>
      req ← next_request eof;
      match req with
      | ReadBlocks => mret false
      | ReadFails => mret true
      | Frame cmd payload => dispatch cmd payload;; handleConn fuel eof closing (S i)
      end
  end.
End server.

(** ** Every request is answered once *)

(** A connection that can be written to. *)
Definition open_out (b : Bufio) : Prop := berr b = None /\ healthy (bfile b) /\ bbuf b = [].

Lemma respond_ok {St} status payload (c : Conn St) :
  open_out (cn_out c) -> 1 + len payload < 2 ^ 32 ->
  exists w, respond status payload c = (Ok tt, mkConn (cn_store c) (cn_in c) w) /\ open_out w /\
    contents (bfile w) = contents (bfile (cn_out c)) ++ frame_bytes status payload.
Proof.
  intros (He & Hh & Hb) Hl. destruct (write_frame_healthy status payload (cn_out c) He Hh Hb Hl) as (w & E & ? & ? & ? & Hc).
  exists w. unfold respond, WriteResponse. rewrite E. by split_and!.
Qed.

(** What a request does and what is sent back. *)
Definition outcome {St} (run : M (Conn St) unit) (c : Conn St) (s : St) (status : byte) (payload : bytes) : Prop :=
  exists w, run c = (Ok tt, mkConn s (cn_in c) w) /\ open_out w /\
    contents (bfile w) = contents (bfile (cn_out c)) ++ frame_bytes status payload.

Section outcomes.
Context {St : Type} `{!KV St} (os : bytes) (c : Conn St).
Hypothesis Hout : open_out (cn_out c).

Lemma outcome_respond (s : St) status payload :
  1 + len payload < 2 ^ 32 -> outcome (respond status payload) (mkConn s (cn_in c) (cn_out c)) s status payload.
Proof using Hout.
  intros Hl. destruct (respond_ok status payload (mkConn s (cn_in c) (cn_out c)) Hout Hl) as (w & E & Hw & Hc). by exists w.
Qed.

Lemma or_error_lift {A} (a : A) k (c' : Conn St) : or_error os (lift (Ok a)) k c' = k a c'.
Proof. done. Qed.

(** A write to the store: acknowledged, or its error sent back. *)
Lemma outcome_write (m : M St unit) r s :
  m (cn_store c) = (r, s) -> (forall e, r = Err e -> 1 + len (Error os e) < 2 ^ 32) ->
  match r with
  | Ok _ => outcome (or_error os (on_store m) (fun _ => respond StatusOK [])) c s StatusOK []
  | Err e => outcome (or_error os (on_store m) (fun _ => respond StatusOK [])) c s StatusError (Error os e)
  | _ => True
  end.
Proof using Hout.
  intros E He. unfold outcome, or_error, on_store. rewrite E. destruct r as [[]|e| |]; try done.
  - by apply outcome_respond.
  - apply outcome_respond. by apply He.
Qed.
End outcomes.

(** A store in memory. *)
Definition map_KV : KV (gmap bytes bytes) := {|
  kv_put := fun k v m => (Ok tt, <[k:=v]> m);
  kv_get := fun k m => match m !! k with Some v => Ok (Some v) | None => Err ErrNotFound end;
  kv_delete := fun k m => (Ok tt, delete k m);
  kv_batch_put := fun ks vs m => (Ok tt, list_to_map (zip ks vs) ∪ m);
  kv_range := fun a b m => Ok ((fun kv => mkKV kv.1 kv.2) <$> filter (fun kv => bleb a kv.1 && bleb kv.1 b = true) (map_to_list m))
|}.
