(* ===== verification/Client.v ===== *)
(** * client/client.go: the client, and remote calls

    The client writes a request and reads the reply.  Between the two the
    bytes it wrote reach the server, which handles them, and the bytes the
    server wrote reach the client; a server that panics or leaves the connection
    is gone and the client reads what was sent before.

    [remote_calls_are_local]: over a working connection a sequence of calls
    has the results and the effects of the same calls on the store itself. *)

From stdpp Require Import pretty.
From S2P Require Import Prelude GoStd Protocol Engine EngineRun Server.

(** The client's writer, how many of its bytes the server has been given, how
    many bytes of the server's the client has read, the server's side, and
    whether the server still serves the connection. *)
Record Link (St : Type) := mkLink {
  lk_w : Bufio;
  lk_sent : nat;
  lk_rcvd : nat;
  lk_conn : Conn St;
  lk_up : bool
}.
Arguments mkLink {St} _ _ _ _ _.
Arguments lk_w {St} _.
Arguments lk_sent {St} _.
Arguments lk_rcvd {St} _.
Arguments lk_conn {St} _.
Arguments lk_up {St} _.

Section client.
Context {St : Type} `{!KV St} (os : bytes).

(** [net.Dial] answers the two directions of a new connection, on which the
    server starts with nothing read. *)
Definition Connect (dial : res (File * File)) (st : St) : res (Link St) :=
  match dial with
  | Ok (f, g) => Ok (mkLink (bufio_NewWriter f) 0 0 (mkConn st [] (bufio_NewWriter g)) true)
  | Err e => Err (Wrap "client: connect" e)
  | Panic => Panic
  | OutOfFuel => OutOfFuel
  end.

(** [c.conn.Close()]: later requests meet a closed socket. *)
Definition Client_Close : M (Link St) unit := fun k =>
  let '(r, f) := File_Close (bfile (lk_w k)) in
  (r, mkLink (mkBufio f (bbuf (lk_w k)) (berr (lk_w k))) (lk_sent k) (lk_rcvd k) (lk_conn k) (lk_up k)).

(** The server handles what arrived. *)
Definition serve (k : Link St) : Link St :=
  if lk_up k then
    let sent := contents (bfile (lk_w k)) in
    let c := lk_conn k in
    let c := mkConn (cn_store c) (cn_in c ++ drop (lk_sent k) sent) (cn_out c) in
    match handleConn os (S (length (cn_in c))) false (fun _ => false) 0 c with
    | (Ok false, c) => mkLink (lk_w k) (length sent) (lk_rcvd k) c true
    | (_, c) => mkLink (lk_w k) (length sent) (lk_rcvd k) c false
    end
  else k.

Definition send (ctx : string) (cmd : byte) (payload : bytes) : M (Link St) unit := wrap ctx (fun k =>
  let '(r, w) := WriteRequest cmd payload (lk_w k) in (r, mkLink w (lk_sent k) (lk_rcvd k) (lk_conn k) (lk_up k))).

Definition await (ctx : string) : M (Link St) (byte * bytes) := wrap ctx (fun k =>
  let k := serve k in
  let arrived := contents (bfile (cn_out (lk_conn k))) in
  match ReadResponse (drop (lk_rcvd k) arrived) with
  | Ok (status, payload, rest) =>
      (Ok (status, payload), mkLink (lk_w k) (lk_sent k) (length arrived - length rest) (lk_conn k) (lk_up k))
  | Err e => (Err e, k)
  | Panic => (Panic, k)
  | OutOfFuel => (OutOfFuel, k)
  end).

Definition server_error (payload : bytes) : error :=
  Errorf ("client: server error: " ++ String.string_of_list_byte payload).

Definition checkStatus (status : byte) (payload : bytes) : res unit :=
  if bool_decide (status = StatusOK) then Ok tt
  else if bool_decide (status = StatusNotFound) then Err ErrNotFound
  else if bool_decide (status = StatusError) then Err (server_error payload)
  else Err (Errorf ("client: unknown status: " ++ pretty (Byte.to_N status))).

Definition Client_Put (key value : bytes) : M (Link St) unit :=
  send "client: put write" CmdPut (EncodePut key value);;
  '(status, payload) ← await "client: put read";
  lift (checkStatus status payload).

Definition Client_Get (key : bytes) : M (Link St) bytes :=
  send "client: get write" CmdGet (EncodeKey key);;
  '(status, payload) ← await "client: get read";
  if bool_decide (status = StatusNotFound) then throw ErrNotFound
  else if negb (bool_decide (status = StatusOK)) then throw (server_error payload)
  else wrap "client: get decode" (lift (DecodeValue payload)).

Definition Client_Delete (key : bytes) : M (Link St) unit :=
  send "client: delete write" CmdDelete (EncodeKey key);;
  '(status, payload) ← await "client: delete read";
  lift (checkStatus status payload).

Definition Client_BatchPut (keys values : list bytes) : M (Link St) unit :=
  payload ← lift (EncodeBatchPut keys values);
  send "client: batch write" CmdBatchPut payload;;
  '(status, payload) ← await "client: batch read";
  lift (checkStatus status payload).

Definition Client_GetRange (startKey endKey : bytes) : M (Link St) (list KVPair) :=
  send "client: range write" CmdGetRange (EncodeRange startKey endKey);;
  '(status, payload) ← await "client: range read";
  if bool_decide (status = StatusNotFound) then mret []
  else if negb (bool_decide (status = StatusOK)) then throw (server_error payload)
  else
    '(keys, values) ← wrap "client: range decode" (lift (DecodeKVPairs payload));
    mret (zip_with mkKV keys values).

(** ** Calls *)

Inductive request :=
| RqPut (key value : bytes)
| RqGet (key : bytes)
| RqDelete (key : bytes)
| RqBatchPut (keys values : list bytes)
| RqGetRange (startKey endKey : bytes).

Inductive response :=
| RsDone
| RsValue (value : bytes)
| RsPairs (pairs : list KVPair).

Definition remote (rq : request) : M (Link St) response :=
  match rq with
  | RqPut k v => Client_Put k v;; mret RsDone
  | RqGet k => v ← Client_Get k; mret (RsValue v)
  | RqDelete k => Client_Delete k;; mret RsDone
  | RqBatchPut ks vs => Client_BatchPut ks vs;; mret RsDone
  | RqGetRange a b => l ← Client_GetRange a b; mret (RsPairs l)
  end.

Definition local (rq : request) : M St response :=
  match rq with
  | RqPut k v => kv_put k v;; mret RsDone
  | RqGet k => fun s => (v ← kv_get k s; Ok (RsValue (val_bytes v)), s)
  | RqDelete k => kv_delete k;; mret RsDone
  | RqBatchPut ks vs => kv_batch_put ks vs;; mret RsDone
  | RqGetRange a b => fun s => (l ← kv_range a b s; Ok (RsPairs l), s)
  end.

(** How a result of the store reaches the client: errors as their text, a
    missing key of [Get] as such. *)
Definition seen (rq : request) (x : res response) : res response :=
  match x with
  | Err e =>
      match rq with
      | RqGet _ => if is_not_found e then Err ErrNotFound else Err (server_error (Error os e))
      | _ => Err (server_error (Error os e))
      end
  | x => x
  end.

(** Calls one after the other, whatever they return. *)
Fixpoint calls {S A} (run : request -> M S A) (rqs : list request) (s : S) : list (res A) * S :=
  match rqs with
  | [] => ([], s)
  | rq :: rqs => let '(x, s) := run rq s in let '(xs, s) := calls run rqs s in (x :: xs, s)
  end.

(** ** Sizes *)

Definition batch_ok (keys values : list bytes) : Prop :=
  length keys = length values /\ batch_fits keys values /\
  forall p, EncodeBatchPut keys values = Ok p -> 1 + len p < 2 ^ 32.

Definition rq_fits (rq : request) : Prop :=
  match rq with
  | RqPut k v | RqGetRange k v => 9 + len k + len v < 2 ^ 32
  | RqGet k | RqDelete k => 5 + len k < 2 ^ 32
  | RqBatchPut ks vs => batch_ok ks vs
  end.

Definition rs_fits (x : res response) : Prop :=
  match x with
  | Ok RsDone => True
  | Ok (RsValue v) => 5 + len v < 2 ^ 32
  | Ok (RsPairs l) => batch_ok (kv_Key <$> l) (kv_Value <$> l)
  | Err e => 1 + len (Error os e) < 2 ^ 32
  | Panic | OutOfFuel => False
  end.

(** [EncodeBatchPut] takes as many values as there are keys: surplus values are
    not sent, and too few make it panic.  So [rq_fits (as_sent rq)] asks of a
    batch that it has at least as many values as keys and fits a frame. *)
Definition as_sent (rq : request) : request :=
  match rq with RqBatchPut ks vs => RqBatchPut ks (take (length ks) vs) | _ => rq end.

(** Nothing is under way and both directions work. *)
Record quiescent (k : Link St) : Prop := {
  qu_w : open_out (lk_w k);
  qu_sent : lk_sent k = length (contents (bfile (lk_w k)));
  qu_out : open_out (cn_out (lk_conn k));
  qu_rcvd : lk_rcvd k = length (contents (bfile (cn_out (lk_conn k))));
  qu_in : cn_in (lk_conn k) = [];
  qu_up : lk_up k = true
}.

(** A new connection is ready for calls. *)
Lemma Connect_quiescent f g st :
  healthy f -> healthy g -> contents f = [] -> contents g = [] ->
  exists k, Connect (Ok (f, g)) st = Ok k /\ quiescent k /\ cn_store (lk_conn k) = st.
Proof. intros Hf Hg Ef Eg. eexists. split; [done|]. split; [|done]. split; cbn; rewrite ?Ef, ?Eg; done. Qed.

(** ** One call *)

Lemma handle_one cmd payload (c : Conn St) s w :
  cn_in c = [] -> 1 + len payload < 2 ^ 32 -> dispatch os cmd payload c = (Ok tt, mkConn s (cn_in c) w) ->
  handleConn os (S (length (frame_bytes cmd payload))) false (fun _ => false) 0 (mkConn (cn_store c) (frame_bytes cmd payload) (cn_out c)) =
    (Ok false, mkConn s [] w).
Proof.
  intros Hin Hp E. cbn [handleConn].
  rewrite (M_bind_run _ _ _ (Frame cmd payload) c).
  2: { unfold next_request, ReadFrame. cbn [cn_in cn_store cn_out]. rewrite <- (app_nil_r (frame_bytes cmd payload)).
       rewrite read_frame_bytes by done. destruct c; cbn in *. by rewrite Hin. }
  rewrite (M_bind_run _ _ _ _ _ E), Hin. destruct (length (frame_bytes cmd payload)) as [|m] eqn:Em.
  { unfold frame_bytes in Em. rewrite !length_app in Em. cbn in Em. lia. }
  cbn [handleConn]. by rewrite (M_bind_run _ _ _ ReadBlocks (mkConn s [] w)).
Qed.

Lemma call_ok ctx1 ctx2 cmd payload k s status resp :
  quiescent k -> 1 + len payload < 2 ^ 32 -> 1 + len resp < 2 ^ 32 ->
  outcome (dispatch os cmd payload) (lk_conn k) s status resp ->
  exists k', (send ctx1 cmd payload;; await ctx2) k = (Ok (status, resp), k') /\ quiescent k' /\ cn_store (lk_conn k') = s.
Proof.
  intros [Q1 Q2 Q3 Q4 Q5 Q6] Hp Hr (w & E & Hw & Hc).
  destruct (write_frame_healthy cmd payload (lk_w k)) as (w1 & E1 & He1 & Hh1 & Hb1 & Hc1); [apply Q1..|done|].
  set (k1 := mkLink w1 (lk_sent k) (lk_rcvd k) (lk_conn k) (lk_up k)).
  rewrite (M_bind_run _ _ _ tt k1) by (unfold send, wrap, WriteRequest; by rewrite E1).
  unfold await, wrap, serve. cbn [k1 lk_up lk_w lk_sent lk_conn lk_rcvd cn_in cn_store cn_out]. rewrite Q6, Hc1, Q2, drop_app_length, Q5.
  cbn [app]. rewrite (handle_one cmd payload (lk_conn k) s w) by done.
  assert (ReadResponse (frame_bytes status resp) = Ok (status, resp, [])) as Hread.
  { unfold ReadResponse. rewrite <- (app_nil_r (frame_bytes status resp)). by apply read_frame_bytes. }
  cbn [lk_conn cn_out lk_rcvd]. rewrite Hc, Q4, drop_app_length, Hread. eexists. split; [done|]. split; [|done].
  split; cbn; try done; [by rewrite Hc1|]. rewrite Hc, !length_app. cbn. lia.
Qed.

(** The reply to a call, as the client gets it. *)
Definition reply_of (rq : request) (x : res response) : byte * bytes :=
  match x with
  | Ok (RsValue v) => (StatusOK, EncodeValue v)
  | Ok (RsPairs l) => (StatusOK, default [] (match EncodeKVPairs (kv_Key <$> l) (kv_Value <$> l) with Ok p => Some p | _ => None end))
  | Err e => match rq with
             | RqGet _ => if is_not_found e then (StatusNotFound, []) else (StatusError, Error os e)
             | _ => (StatusError, Error os e)
             end
  | _ => (StatusOK, [])
  end.

Definition command_of (rq : request) : byte * bytes :=
  match rq with
  | RqPut k v => (CmdPut, EncodePut k v)
  | RqGet k => (CmdGet, EncodeKey k)
  | RqDelete k => (CmdDelete, EncodeKey k)
  | RqBatchPut ks vs => (CmdBatchPut, match EncodeBatchPut ks vs with Ok p => p | _ => [] end)
  | RqGetRange a b => (CmdGetRange, EncodeRange a b)
  end.

Lemma len_EncodePut k v : len (EncodePut k v) = 8 + len k + len v.
Proof. unfold EncodePut. len_lia. Qed.

Lemma batch_encoded keys values :
  batch_ok keys values -> exists p, EncodeBatchPut keys values = Ok p /\ DecodeBatchPut p = Ok (keys, values) /\ 1 + len p < 2 ^ 32.
Proof. intros (Hl & Hf & Hp). destruct (DecodeBatchPut_Encode keys values Hl Hf) as (p & E & Hd). exists p. auto. Qed.

Lemma reply_small rq x : rs_fits x -> 1 + len (reply_of rq x).2 < 2 ^ 32.
Proof.
  destruct x as [[|v|l]|e| |]; cbn [rs_fits reply_of snd]; try done.
  - intros H. unfold EncodeValue. rewrite len_app, len_putLE. lia.
  - intros (p & E & _ & Hp)%batch_encoded. unfold EncodeKVPairs. by rewrite E.
  - destruct rq; try done. by destruct (is_not_found e).
Qed.

Lemma command_small rq : rq_fits rq -> 1 + len (command_of rq).2 < 2 ^ 32.
Proof.
  destruct rq; cbn [rq_fits command_of snd].
  - rewrite len_EncodePut. lia.
  - unfold EncodeKey. rewrite len_app, len_putLE. lia.
  - unfold EncodeKey. rewrite len_app, len_putLE. lia.
  - intros (p & -> & _ & Hp)%batch_encoded. done.
  - change (EncodeRange startKey endKey) with (EncodePut startKey endKey). rewrite len_EncodePut. lia.
Qed.

(** A write handler's outcome, from what the store's operation does. *)
Lemma write_outcome rq c x s (m : M St unit) :
  open_out (cn_out c) -> (m;; mret RsDone) (cn_store c) = (x, s) -> rs_fits x ->
  (forall e, reply_of rq (Err e) = (StatusError, Error os e)) ->
  outcome (or_error os (on_store m) (fun _ => respond StatusOK [])) c s (reply_of rq x).1 (reply_of rq x).2.
Proof.
  intros Hout E Hx Hrq. revert E. unfold mbind, M_bind. destruct (m (cn_store c)) as [r s1] eqn:Em.
  pose proof (outcome_write os c Hout m r s1 Em) as Ho.
  destruct r as [[]|e| |]; intros [= <- <-]; try done; [by apply Ho|]. rewrite Hrq. apply Ho. by intros ? [= <-].
Qed.

Lemma dispatch_outcome rq c x s :
  open_out (cn_out c) -> rq_fits rq -> local rq (cn_store c) = (x, s) -> rs_fits x ->
  outcome (dispatch os (command_of rq).1 (command_of rq).2) c s (reply_of rq x).1 (reply_of rq x).2.
Proof.
  intros Hout Hrq E Hx. destruct rq as [k v|k|k|ks vs|a b]; cbn [rq_fits local command_of fst snd] in *.
  - change (dispatch os CmdPut (EncodePut k v)) with (handlePut os (EncodePut k v)). unfold handlePut.
    rewrite DecodePut_Encode by lia. by apply (write_outcome (RqPut k v)).
  - change (dispatch os CmdGet (EncodeKey k)) with (handleGet os (EncodeKey k)). unfold handleGet.
    rewrite DecodeKey_Encode by lia. unfold outcome. rewrite or_error_lift. revert E. injection 1 as <- <-.
    assert (mkConn (cn_store c) (cn_in c) (cn_out c) = c) as Hc by (by destruct c).
    pose proof (outcome_respond c Hout (cn_store c)) as Ho. rewrite Hc in Ho.
    destruct (kv_get k (cn_store c)) as [v|e| |]; cbn [not_found]; try done.
    + apply Ho. by apply (reply_small (RqGet k)) in Hx.
    + cbn [reply_of mbind res_bind]. destruct (is_not_found e); apply Ho; done.
  - change (dispatch os CmdDelete (EncodeKey k)) with (handleDelete os (EncodeKey k)). unfold handleDelete.
    rewrite DecodeKey_Encode by lia. by apply (write_outcome (RqDelete k)).
  - destruct (batch_encoded ks vs Hrq) as (p & Ep & Hd & _). rewrite Ep.
    change (dispatch os CmdBatchPut p) with (handleBatchPut os p). unfold handleBatchPut.
    rewrite Hd. by apply (write_outcome (RqBatchPut ks vs)).
  - change (dispatch os CmdGetRange (EncodeRange a b)) with (handleGetRange os (EncodeRange a b)). unfold handleGetRange.
    rewrite DecodeRange_Encode by lia. unfold outcome. rewrite or_error_lift. revert E. injection 1 as <- <-.
    assert (mkConn (cn_store c) (cn_in c) (cn_out c) = c) as Hc by (by destruct c).
    pose proof (outcome_respond c Hout (cn_store c)) as Ho. rewrite Hc in Ho.
    destruct (kv_range a b (cn_store c)) as [l|e| |]; try done; [|by apply Ho].
    destruct (batch_encoded _ _ Hx) as (p & Ep & _ & Hp). unfold or_error. cbn [lift reply_of mbind res_bind]. unfold EncodeKVPairs.
    rewrite Ep. by apply Ho.
Qed.

Lemma zip_pairs l : zip_with mkKV (kv_Key <$> l) (kv_Value <$> l) = l.
Proof. induction l as [|[k v] l IH]; [done|]. cbn. by rewrite IH. Qed.

(** A call followed by more work is the exchange followed by all of it. *)
Lemma bind_assoc3 {S A B C D} (m : M S A) (n : M S B) (f : B -> M S C) (g : C -> M S D) s :
  ((m;; (n ≫= f)) ≫= g) s = (m;; (n ≫= fun b => f b ≫= g)) s.
Proof.
  unfold mbind, M_bind. destruct (m s) as [[] s1]; try done. by destruct (n s1) as [[] s2].
Qed.

Lemma write_result (m : M St unit) (s : St) x s' :
  (m;; mret RsDone) s = (x, s') -> rs_fits x -> x = Ok RsDone \/ exists e, x = Err e.
Proof.
  unfold mbind, M_bind. destruct (m s) as [[[]|e| |] s1]; intros [= <- <-] Hx; try done; eauto.
Qed.

(** [checkStatus] of a write's reply. *)
Lemma checkStatus_reply rq x (k : Link St) :
  x = Ok RsDone \/ (exists e, x = Err e) -> (forall key, rq <> RqGet key) ->
  ((let '(status, payload) := reply_of rq x in lift (checkStatus status payload));; mret RsDone) k = (seen rq x, k).
Proof. intros [-> |[e ->]] Hng; destruct rq as [| key | | |]; try done; by destruct (Hng key). Qed.

Lemma finish {A} (run run' : M (Link St) A) k s x :
  (exists k', run k = run' k' /\ quiescent k' /\ cn_store (lk_conn k') = s) -> (forall k', run' k' = (x, k')) ->
  exists k', run k = (x, k') /\ quiescent k' /\ cn_store (lk_conn k') = s.
Proof. intros (k' & E & Hk' & Hs) Hx. exists k'. by rewrite E, Hx. Qed.

Lemma remote_call rq k x s :
  quiescent k -> rq_fits rq -> local rq (cn_store (lk_conn k)) = (x, s) -> rs_fits x ->
  exists k', remote rq k = (seen rq x, k') /\ quiescent k' /\ cn_store (lk_conn k') = s.
Proof.
  intros Hq Hrq E Hx. pose proof (dispatch_outcome rq (lk_conn k) x s (qu_out k Hq) Hrq E Hx) as Ho.
  pose proof (command_small rq Hrq) as Hc. pose proof (reply_small rq x Hx) as Hr.
  assert (forall ctx1 ctx2 B (f : byte * bytes -> M (Link St) B) (g : B -> M (Link St) response), exists k',
    ((send ctx1 (command_of rq).1 (command_of rq).2;; (await ctx2 ≫= f)) ≫= g) k = (f (reply_of rq x) ≫= g) k' /\
    quiescent k' /\ cn_store (lk_conn k') = s) as Hcall.
  { intros ctx1 ctx2 B f g. destruct (call_ok ctx1 ctx2 _ _ k s _ _ Hq Hc Hr Ho) as (k' & Ek & Hk' & Hs). exists k'.
    split; [|done]. rewrite bind_assoc3. unfold mbind, M_bind in *. destruct (send ctx1 _ _ k) as [[] k1]; try done. rewrite Ek.
    by destruct (reply_of rq x). }
  destruct rq as [key v|key|key|ks vs|a b]; cbn [remote command_of fst snd local] in *.
  - apply finish with (1 := Hcall _ _ _ _ _). intros k'. apply (checkStatus_reply (RqPut key v)); [by eapply write_result|done].
  - apply finish with (1 := Hcall _ _ _ _ _). intros k'. revert E Hx. injection 1 as <- <-.
    destruct (kv_get key _) as [v|e| |]; cbn [mbind res_bind rs_fits reply_of seen]; try done.
    + intros Hv. cbn. unfold mbind, M_bind, wrap, lift. rewrite DecodeValue_Encode by lia. done.
    + by destruct (is_not_found e).
  - apply finish with (1 := Hcall _ _ _ _ _). intros k'. apply (checkStatus_reply (RqDelete key)); [by eapply write_result|done].
  - destruct (batch_encoded ks vs Hrq) as (p & Ep & _). unfold Client_BatchPut. rewrite Ep in *.
    apply finish with (1 := Hcall _ _ _ _ _). intros k'. apply (checkStatus_reply (RqBatchPut ks vs)); [by eapply write_result|done].
  - apply finish with (1 := Hcall _ _ _ _ _). intros k'. revert E Hx. injection 1 as <- <-.
    destruct (kv_range a b _) as [l|e| |]; cbn [mbind res_bind rs_fits reply_of seen]; try done.
    intros (p & Ep & Hd & _)%batch_encoded. unfold EncodeKVPairs. rewrite Ep. cbn. unfold mbind, M_bind, wrap, lift, DecodeKVPairs.
    rewrite Hd. cbn. by rewrite zip_pairs.
Qed.

Lemma encode_pairs_take ks vs : encode_pairs ks (take (length ks) vs) = encode_pairs ks vs.
Proof. revert vs. induction ks as [|k ks IH]; intros [|v vs]; [done..|]. cbn. by rewrite IH. Qed.

Lemma remote_as_sent rq k : remote (as_sent rq) k = remote rq k.
Proof. destruct rq as [| | |ks vs|]; try done. cbn. unfold Client_BatchPut, EncodeBatchPut. by rewrite encode_pairs_take. Qed.

(** C16. Calls over a connection are calls of the store.  When nothing is under
    way, both directions work, every batch has at least as many values as keys,
    and requests and replies fit a frame, a sequence of calls of the client
    returns what the calls on the store return (an error as the text the server
    sends), leaves the store in the same state, and the connection ready for the
    next call; no reply is taken for that of another request.  The calls are the
    same but for batches with more values than keys, which lose the surplus. *)
Theorem remote_calls_are_local (rqs : list request) (k : Link St) xs s :
  quiescent k -> Forall rq_fits (as_sent <$> rqs) ->
  calls local (as_sent <$> rqs) (cn_store (lk_conn k)) = (xs, s) -> Forall rs_fits xs ->
  exists k', calls remote rqs k = (zip_with seen rqs xs, k') /\ quiescent k' /\ cn_store (lk_conn k') = s.
Proof.
  revert k xs. induction rqs as [|rq rqs IH]; intros k xs Hq Hrqs; cbn [calls fmap list_fmap].
  { intros [= <- <-] _. by exists k. }
  apply Forall_cons in Hrqs as [Hrq Hrqs].
  change (list_fmap request request as_sent rqs) with (as_sent <$> rqs).
  destruct (local (as_sent rq) _) as [x s1] eqn:E. destruct (calls local (as_sent <$> rqs) s1) as [xs' s2] eqn:Ecs.
  intros [= <- <-] [Hx Hxs]%Forall_cons.
  destruct (remote_call (as_sent rq) k x s1 Hq Hrq E Hx) as (k1 & E1 & Hq1 & <-). rewrite remote_as_sent in E1. rewrite E1.
  destruct (IH k1 xs' Hq1 Hrqs Ecs Hxs) as (k2 & -> & Hq2 & Hs). exists k2. split_and!; try done. by destruct rq.
Qed.
End client.

(** C39. Batches of the client are not checked.  [Client.BatchPut] with more values
    than keys sends the pairs without the surplus and returns nil, and with fewer
    it panics before anything is sent, whereas [Engine.BatchPut] refuses both with
    an error and writes nothing. *)
Theorem client_batch_unchecked {St : Type} `{!KV St} (os : bytes) (ks vs : list bytes) (k : Link St) (io : IO) (e : Engine) :
  length ks <> length vs ->
  (exists err, Engine_BatchPut io ks (Some <$> vs) e = (Err err, e)) /\
  ((length ks < length vs)%nat -> Client_BatchPut os ks vs k = Client_BatchPut os ks (take (length ks) vs) k) /\
  ((length vs < length ks)%nat -> Client_BatchPut os ks vs k = (Panic, k)).
Proof.
  intros Hne. split_and!.
  - unfold Engine_BatchPut. rewrite (proj2 (Z.eqb_neq _ _)) by (unfold len; rewrite length_fmap; lia). cbn. by eexists.
  - intros _. unfold Client_BatchPut, EncodeBatchPut. by rewrite encode_pairs_take.
  - intros Hlt. unfold Client_BatchPut, EncodeBatchPut.
    assert (encode_pairs ks vs = Panic) as ->; [|done]. clear Hne. revert vs Hlt.
    induction ks as [|key ks IH]; intros [|v vs] Hlt; cbn in *; try lia; [done|]. by rewrite IH by lia.
Qed.

(** A new connection to a server of the engine. *)
Definition demo_link : Link Served :=
  mkLink (bufio_NewWriter (mkFile [] 0 [] false)) 0 0
    (mkConn (mkServed demo_open (fun _ => demo_io) 3) [] (bufio_NewWriter (mkFile [] 0 [] false))) true.
Definition demo_calls : list request :=
  [RqGet [x61]; RqBatchPut [[x61]] [[x31]; [x32]]; RqGet [x61]; RqGetRange [x61] [x62]].

Lemma remote_calls_are_local_witness :
  exists k', calls (remote []) demo_calls demo_link =
    ([Err ErrNotFound; Ok RsDone; Ok (RsValue [x31]); Ok (RsPairs [mkKV [x61] [x31]])], k').
Proof.
  destruct (remote_calls_are_local [] demo_calls demo_link
    [Err ErrNotFound; Ok RsDone; Ok (RsValue [x31]); Ok (RsPairs [mkKV [x61] [x31]])]
    (calls local (as_sent <$> demo_calls) (cn_store (lk_conn demo_link))).2) as (k' & E & _).
  - split; done.
  - repeat constructor. all: try done. intros p [= <-]. done.
  - vm_compute. reflexivity.
  - repeat constructor. all: try done. intros p [= <-]. done.
  - exists k'. exact E.
Defined.

Lemma client_batch_unchecked_witness :
  Client_BatchPut [] [[x61]; [x62]] [[x31]] demo_link = (Panic, demo_link) /\
  exists err, Engine_BatchPut demo_io [[x61]; [x62]] (Some <$> [[x31]]) demo_open = (Err err, demo_open).
Proof.
  assert (length [[x61]; [x62]] <> length [[x31]]) as Hne by discriminate.
  destruct (client_batch_unchecked [] [[x61]; [x62]] [[x31]] demo_link demo_io demo_open Hne) as (He & _ & Hp).
  split; [apply Hp; cbn; lia|exact He].
Defined.
