(* ===== verification/TcpServer.v ===== *)
(** * server/tcp.go: the life of the TCP server

    [Start], the accept loop, the goroutines of the connections and [Stop] as
    transitions of one shared state, interleaved in any way with what the
    clients do.  The goroutines are those of Server.v, request by request, over
    one store.

    [tcp_stop_drains]: when [Stop] has returned, nothing touches the store any
    more.  [tcp_stop_waits_for_idle_client]: it never returns while a client
    stays connected and silent. *)

From S2P Require Import Prelude GoStd Protocol Engine EngineRun Server.

(** ** State *)

(** Where a connection's goroutine is: before the test of [closeCh], in
    [ReadFrame], or ended. *)
Inductive conn_pc := CTop | CReading | CGone.

(** [ss_in]: the bytes the client sent and [r] has not consumed; [ss_eof]: the
    client has closed its side. *)
Record Session := mkSession {
  ss_in : bytes;
  ss_eof : bool;
  ss_out : Bufio;
  ss_pc : conn_pc
}.

(** The accept loop: not started, in [Accept], with a new connection in hand,
    or ended. *)
Inductive accept_pc := AIdle | AAccepting | AHolding (c : Session) | AGone.

(** [Stop]: not called, past [close(s.closeCh)], in [s.wg.Wait()], returned. *)
Inductive stop_pc := SNone | SClosed | SWaiting (err : res unit) | SReturned (err : res unit).

(** [tcp_listener]: [None] before [Start], then whether it is open.  [tcp_dead]:
    the process has panicked (or the fuel of a range scan was too small). *)
Record TCPServer (St : Type) := mkTCP {
  tcp_store : St;
  tcp_listener : option bool;
  tcp_closeCh : bool;
  tcp_wg : Z;
  tcp_accept : accept_pc;
  tcp_sessions : list Session;
  tcp_stop : stop_pc;
  tcp_dead : bool
}.
Arguments mkTCP {St} _ _ _ _ _ _ _ _.
Arguments tcp_store {St} _.
Arguments tcp_listener {St} _.
Arguments tcp_closeCh {St} _.
Arguments tcp_wg {St} _.
Arguments tcp_accept {St} _.
Arguments tcp_sessions {St} _.
Arguments tcp_stop {St} _.
Arguments tcp_dead {St} _.

Section tcp.
Context {St : Type} `{!KV St} (os : bytes).

Definition NewTCPServer (st : St) : TCPServer St := mkTCP st None false 0 AIdle [] SNone false.

Definition set_accept (pc : accept_pc) (wg : Z) (s : TCPServer St) : TCPServer St :=
  mkTCP (tcp_store s) (tcp_listener s) (tcp_closeCh s) wg pc (tcp_sessions s) (tcp_stop s) (tcp_dead s).
Definition set_sessions (l : list Session) (wg : Z) (s : TCPServer St) : TCPServer St :=
  mkTCP (tcp_store s) (tcp_listener s) (tcp_closeCh s) wg (tcp_accept s) l (tcp_stop s) (tcp_dead s).
Definition set_stop (listener : option bool) (closeCh : bool) (pc : stop_pc) (s : TCPServer St) : TCPServer St :=
  mkTCP (tcp_store s) listener closeCh (tcp_wg s) (tcp_accept s) (tcp_sessions s) pc (tcp_dead s).
Definition panicked (s : TCPServer St) : TCPServer St :=
  mkTCP (tcp_store s) (tcp_listener s) (tcp_closeCh s) (tcp_wg s) (tcp_accept s) (tcp_sessions s) (tcp_stop s) true.

(** [Start], where [net.Listen] answers [listen]. *)
Definition TCPServer_Start (listen : res unit) : M (TCPServer St) unit := fun s =>
  match listen with
  | Ok _ => (Ok tt, mkTCP (tcp_store s) (Some true) (tcp_closeCh s) (tcp_wg s + 1) AAccepting (tcp_sessions s) (tcp_stop s) (tcp_dead s))
  | r => (r, s)
  end.

(** [acceptLoop]: [Accept] returned [conn]. *)
Definition accepted (conn : res Session) (s : TCPServer St) : TCPServer St :=
  match conn with
  | Ok c => set_accept (AHolding c) (tcp_wg s) s
  | _ => if tcp_closeCh s then set_accept AGone (tcp_wg s - 1) s else s
  end.
(** [s.wg.Add(1)] and the new goroutine. *)
Definition spawn (c : Session) (s : TCPServer St) : TCPServer St :=
  set_accept AAccepting (tcp_wg s + 1) (set_sessions (tcp_sessions s ++ [c]) (tcp_wg s + 1) s).

(** The goroutine of connection [i] ends: [conn.Close()] and [s.wg.Done()]. *)
Definition leave (i : nat) (c : Session) (s : TCPServer St) : TCPServer St :=
  set_sessions (<[i := mkSession (ss_in c) (ss_eof c) (ss_out c) CGone]> (tcp_sessions s)) (tcp_wg s - 1) s.

(** One turn of [handleConn]'s loop: the test, then one request.  A frame that
    is too short, or the end of the input, ends the loop; [None]: the read waits
    for more bytes. *)
Definition conn_turn (i : nat) (c : Session) (s : TCPServer St) : option (TCPServer St) :=
  match ss_pc c with
  | CTop => Some (if tcp_closeCh s then leave i c s
                  else set_sessions (<[i := mkSession (ss_in c) (ss_eof c) (ss_out c) CReading]> (tcp_sessions s)) (tcp_wg s) s)
  | CReading =>
      match next_request (ss_eof c) (mkConn (tcp_store s) (ss_in c) (ss_out c)) with
      | (Ok (Frame cmd payload), cn) =>
          Some match dispatch os cmd payload cn with
               | (Ok _, c') | (Err _, c') =>
                   let s := set_sessions (<[i := mkSession (cn_in c') (ss_eof c) (cn_out c') CTop]> (tcp_sessions s)) (tcp_wg s) s in
                   mkTCP (cn_store c') (tcp_listener s) (tcp_closeCh s) (tcp_wg s) (tcp_accept s) (tcp_sessions s) (tcp_stop s) (tcp_dead s)
               | (_, _) => panicked s
               end
      | (Ok ReadFails, _) | (Err _, _) => Some (leave i c s)
      | (Ok ReadBlocks, _) => None
      | (_, _) => Some (panicked s)
      end
  | CGone => None
  end.

(** [Stop] in three parts.  Closing [closeCh] twice and a nil listener
    panic. *)
Definition Stop_begin (s : TCPServer St) : TCPServer St :=
  if tcp_closeCh s then panicked s else set_stop (tcp_listener s) true SClosed s.
Definition Stop_listener (closed : res unit) (s : TCPServer St) : TCPServer St :=
  match tcp_listener s with
  | None => panicked s
  | Some _ => set_stop (Some false) (tcp_closeCh s) (SWaiting closed) s
  end.
Definition Stop_wait (err : res unit) (s : TCPServer St) : option (TCPServer St) :=
  if tcp_wg s =? 0 then Some (set_stop (tcp_listener s) (tcp_closeCh s) (SReturned err) s) else None.

(** ** Runs *)

(** Who moves: the server, or the client of connection [i]. *)
Inductive mover := Server | Peer (i : nat).

Definition fresh_session (out : Bufio) : Session := mkSession [] false out CTop.

Inductive tstep : mover -> TCPServer St -> TCPServer St -> Prop :=
| ts_start s s' : tcp_dead s = false -> tcp_listener s = None -> TCPServer_Start (Ok tt) s = (Ok tt, s') -> tstep Server s s'
| ts_accept out s : tcp_dead s = false -> tcp_accept s = AAccepting -> tcp_listener s = Some true ->
    tstep Server s (accepted (Ok (fresh_session out)) s)
| ts_accept_error e s : tcp_dead s = false -> tcp_accept s = AAccepting -> tstep Server s (accepted (Err e) s)
| ts_spawn c s : tcp_dead s = false -> tcp_accept s = AHolding c -> tstep Server s (spawn c s)
| ts_turn i c s s' : tcp_dead s = false -> tcp_sessions s !! i = Some c -> conn_turn i c s = Some s' -> tstep Server s s'
| ts_stop s : tcp_dead s = false -> tcp_stop s = SNone -> tstep Server s (Stop_begin s)
| ts_stop_listener r s : tcp_dead s = false -> tcp_stop s = SClosed -> tstep Server s (Stop_listener r s)
| ts_stop_wait r s s' : tcp_dead s = false -> tcp_stop s = SWaiting r -> Stop_wait r s = Some s' -> tstep Server s s'
| ts_send i c bs s : tcp_sessions s !! i = Some c -> ss_eof c = false ->
    tstep (Peer i) s (set_sessions (<[i := mkSession (ss_in c ++ bs) false (ss_out c) (ss_pc c)]> (tcp_sessions s)) (tcp_wg s) s)
| ts_hangup i c s : tcp_sessions s !! i = Some c ->
    tstep (Peer i) s (set_sessions (<[i := mkSession (ss_in c) true (ss_out c) (ss_pc c)]> (tcp_sessions s)) (tcp_wg s) s)
(** the connection breaks: the read fails, whatever had arrived *)
| ts_reset i c s : tcp_dead s = false -> tcp_sessions s !! i = Some c -> ss_pc c = CReading -> tstep (Peer i) s (leave i c s).

Inductive tcp_run (ok : mover -> Prop) (s : TCPServer St) : TCPServer St -> Prop :=
| tr_refl : tcp_run ok s s
| tr_step m s1 s2 : tcp_run ok s s1 -> ok m -> tstep m s1 s2 -> tcp_run ok s s2.

(** ** The wait group counts the goroutines *)

Definition live (c : Session) : bool := match ss_pc c with CGone => false | _ => true end.
Definition working (s : TCPServer St) : bool := match tcp_accept s with AAccepting | AHolding _ => true | _ => false end.

Record tcp_inv (s : TCPServer St) : Prop := {
  ti_wg : tcp_wg s = (if working s then 1 else 0) + len (filter live (tcp_sessions s));
  ti_holding : forall c, tcp_accept s = AHolding c -> live c = true;
  ti_closed : tcp_stop s <> SNone -> tcp_closeCh s = true;
  ti_accept : tcp_accept s <> AIdle <-> tcp_listener s <> None;
  ti_stopped : match tcp_stop s with SWaiting _ | SReturned _ => tcp_listener s = Some false | _ => tcp_listener s <> Some false end;
  ti_returned : forall r, tcp_stop s = SReturned r -> tcp_wg s = 0
}.

Definition count (b : bool) : Z := if b then 1 else 0.

Lemma live_insert l i c c' :
  l !! i = Some c -> len (filter live (<[i := c']> l)) = len (filter live l) - count (live c) + count (live c').
Proof using.
  revert i. induction l as [|d l IH]; intros [|i] H; simplify_eq/=.
  - rewrite !filter_cons. destruct (live c), (live c'); repeat (case_decide; try done); rewrite ?len_cons; cbn [count]; lia.
  - rewrite !filter_cons. specialize (IH i H). destruct (live d); case_decide; try done; rewrite ?len_cons; lia.
Qed.

(** A change of one connection. *)
Lemma inv_session s i c c' wg :
  tcp_inv s -> tcp_sessions s !! i = Some c -> wg = tcp_wg s - count (live c) + count (live c') ->
  (live c' = true -> live c = true) -> tcp_inv (set_sessions (<[i := c']> (tcp_sessions s)) wg s).
Proof using.
  intros [I1 Ih I2 I3 I4 I5] Hc -> Hmono. split; cbn [set_sessions tcp_wg tcp_sessions tcp_stop tcp_closeCh tcp_accept tcp_listener]; try done.
  - unfold working in *. cbn [set_sessions tcp_accept]. rewrite (live_insert _ _ _ _ Hc), I1. lia.
  - intros r Hr. specialize (I5 r Hr). rewrite I5 in I1.
    pose proof (len_nonneg (filter live (<[i:=c']> (tcp_sessions s)))). rewrite (live_insert _ _ _ _ Hc) in *.
    assert (len (filter live (tcp_sessions s)) = 0) by (destruct (working s); pose proof (len_nonneg (filter live (tcp_sessions s))); lia).
    destruct (live c), (live c'); cbn [count] in *; try lia.
Qed.

Lemma inv_leave s i c : tcp_inv s -> tcp_sessions s !! i = Some c -> live c = true -> tcp_inv (leave i c s).
Proof using. intros Hs Hc Hl. apply (inv_session _ _ _ _ _ Hs Hc); [rewrite Hl; cbn; lia|done]. Qed.

Lemma inv_same s s' :
  tcp_wg s' = tcp_wg s -> tcp_sessions s' = tcp_sessions s -> tcp_stop s' = tcp_stop s -> tcp_closeCh s' = tcp_closeCh s ->
  tcp_accept s' = tcp_accept s -> tcp_listener s' = tcp_listener s -> tcp_inv s -> tcp_inv s'.
Proof using. intros H1 H2 H3 H4 H5 H6 [I1 Ih I2 I3 I4 I5]. split; unfold working in *; rewrite ?H1, ?H2, ?H3, ?H4, ?H5, ?H6; done. Qed.

Lemma inv_turn s i c s' : tcp_inv s -> tcp_sessions s !! i = Some c -> conn_turn i c s = Some s' -> tcp_inv s'.
Proof using.
  intros Hs Hc. unfold conn_turn. destruct (ss_pc c) eqn:Epc; [| |done].
  - intros [= <-]. assert (live c = true) as Hl by (unfold live; by rewrite Epc). destruct (tcp_closeCh s); [by apply inv_leave|].
    apply (inv_session _ _ _ _ _ Hs Hc); [rewrite Hl; cbn; lia|done].
  - assert (live c = true) as Hl by (unfold live; by rewrite Epc).
    destruct (next_request _ _) as [[[cmd payload| |]|e| |] cn]; intros [= <-]; try (by apply inv_leave); try (by apply (inv_same s)).
    destruct (dispatch _ _ _ _) as [[]  c']; [| |by apply (inv_same s)|by apply (inv_same s)];
      (eapply inv_same; [..|apply (inv_session s i c (mkSession (cn_in c') (ss_eof c) (cn_out c') CTop) (tcp_wg s) Hs Hc);
        [rewrite Hl; cbn; lia|done]]; done).
Qed.

Lemma tcp_inv_step m s s' : tcp_inv s -> tstep m s s' -> tcp_inv s'.
Proof using.
  intros Hs H. pose proof Hs as [I1 Ih I2 I3 I4 I5]. destruct H.
  - injection H1 as <-. assert (tcp_accept s = AIdle) as Ha by (destruct (tcp_accept s); try done; destruct (proj1 I3); done).
    unfold working in I1. rewrite Ha in I1. split; cbn [tcp_wg tcp_sessions tcp_stop tcp_closeCh tcp_accept tcp_listener working]; try done.
    + rewrite I1. cbn. lia.
    + destruct (tcp_stop s); try done; by rewrite H0 in I4.
    + intros r Hr. rewrite Hr in I4. by rewrite H0 in I4.
  - unfold working in I1. rewrite H0 in I1. split; cbn; try done.
    + by intros c [= <-].
    + rewrite <- I3. by rewrite H0.
  - unfold accepted. destruct (tcp_closeCh s) eqn:Ecl; [|done]. unfold working in I1. rewrite H0 in I1. split; cbn; try done.
    + lia.
    + rewrite <- I3. by rewrite H0.
    + intros r Hr. specialize (I5 r Hr). pose proof (len_nonneg (filter live (tcp_sessions s))). lia.
  - unfold working in I1. rewrite H0 in I1. split; cbn; try done.
    + rewrite I1, filter_app, len_app, filter_cons, filter_nil.
      rewrite (Ih c H0). case_decide; [|done]. change (len [c]) with 1. lia.
    + rewrite <- I3. by rewrite H0.
    + intros r Hr. specialize (I5 r Hr). pose proof (len_nonneg (filter live (tcp_sessions s))). lia.
  - by eapply inv_turn.
  - unfold Stop_begin. destruct (tcp_closeCh s); [by apply (inv_same s)|]. split; cbn; try done. by rewrite H0 in I4.
  - unfold Stop_listener. destruct (tcp_listener s) eqn:El; [|by apply (inv_same s)]. split; cbn; try done.
    + intros _. apply I2. by rewrite H0.
    + by rewrite I3.
  - unfold Stop_wait in H1. destruct (Z.eqb_spec (tcp_wg s) 0); [|done]. injection H1 as <-. rewrite H0 in *. split; cbn; try done.
    intros _. by apply I2.
  - apply (inv_session _ _ _ _ _ Hs H); [unfold live; cbn; lia|done].
  - apply (inv_session _ _ _ _ _ Hs H); [unfold live; cbn; lia|done].
  - apply inv_leave; [done..|]. unfold live. by rewrite H1.
Qed.

Lemma tcp_inv_run ok s s' : tcp_inv s -> tcp_run ok s s' -> tcp_inv s'.
Proof using. intros Hs H. induction H as [|m s1 s2 H IH Hok Hstep]; [done|]. by eapply tcp_inv_step. Qed.

Lemma tcp_inv_new st : tcp_inv (NewTCPServer st).
Proof using. by split. Qed.

(** Nobody is left. *)
Definition drained (s : TCPServer St) : Prop :=
  (exists r, tcp_stop s = SReturned r) /\ working s = false /\ Forall (fun c => ss_pc c = CGone) (tcp_sessions s).

Lemma returned_drained s r : tcp_inv s -> tcp_stop s = SReturned r -> drained s.
Proof using.
  intros [I1 _ _ _ _ I5] Hr. rewrite (I5 r Hr) in I1. pose proof (len_nonneg (filter live (tcp_sessions s))).
  split; [eauto|]. destruct (working s); [lia|]. split; [done|]. apply Forall_forall. intros c Hc.
  destruct (ss_pc c) eqn:Epc; [| |done];
    (assert (c ∈ filter live (tcp_sessions s)) as Hin by (apply list_elem_of_filter; split; [unfold live; by rewrite Epc|done]);
     destruct (filter live (tcp_sessions s)); [by apply not_elem_of_nil in Hin|rewrite len_cons in *; pose proof (len_nonneg l); lia]).
Qed.

Lemma drained_step m s s' : tcp_inv s -> drained s -> tstep m s s' -> tcp_store s' = tcp_store s /\ drained s'.
Proof using.
  intros [_ _ _ _ I4 _] ((r & Hr) & Hw & Hc) H. rewrite Hr in I4. unfold working in Hw.
  assert (forall i c c', tcp_sessions s !! i = Some c -> ss_pc c' = ss_pc c ->
    Forall (fun c => ss_pc c = CGone) (<[i := c']> (tcp_sessions s))) as Hins.
  { intros i c c' Hi Hpc. apply Forall_insert; [done|]. rewrite Hpc. by apply (Forall_lookup_1 _ _ _ _ Hc Hi). }
  destruct H as [s s' _ Hl|out s _ Ha|e s _ Ha|c s _ Ha|i c s s' _ Hi Et|s _ Hst|r' s _ Hst|r' s s' _ Hst|i c bs s Hi He|i c s Hi|i c s _ Hi Hpc].
  - by rewrite Hl in I4.
  - by rewrite Ha in Hw.
  - by rewrite Ha in Hw.
  - by rewrite Ha in Hw.
  - unfold conn_turn in Et. by rewrite (Forall_lookup_1 _ _ _ _ Hc Hi) in Et.
  - by rewrite Hr in Hst.
  - by rewrite Hr in Hst.
  - by rewrite Hr in Hst.
  - split; [done|]. split; [by exists r|]. split; [done|]. by eapply Hins.
  - split; [done|]. split; [by exists r|]. split; [done|]. by eapply Hins.
  - by rewrite (Forall_lookup_1 _ _ _ _ Hc Hi) in Hpc.
Qed.

(** C18.  [Stop] drains the server.  In every run of a server with any number of
    clients the wait group counts exactly the goroutines that run, so it never
    becomes negative; when [Stop] has returned, the accept loop and the
    goroutine of every connection accepted at any time have ended, and however
    the run goes on, no request reaches the store any more: it is safe to close
    the engine then. *)
Theorem tcp_stop_drains (st : St) (s : TCPServer St) :
  tcp_run (fun _ => True) (NewTCPServer st) s ->
  tcp_wg s = count (working s) + len (filter live (tcp_sessions s)) /\
  forall r, tcp_stop s = SReturned r ->
    working s = false /\ Forall (fun c => ss_pc c = CGone) (tcp_sessions s) /\
    forall s', tcp_run (fun _ => True) s s' -> tcp_store s' = tcp_store s /\ working s' = false.
Proof using.
  intros Hrun. pose proof (tcp_inv_run _ _ _ (tcp_inv_new st) Hrun) as Hs. split; [apply (ti_wg _ Hs)|].
  intros r Hr. pose proof (returned_drained _ _ Hs Hr) as (He & Hw & Hc). split; [done|]. split; [done|]. intros s' Hrun'.
  assert (tcp_inv s' /\ tcp_store s' = tcp_store s /\ drained s') as (_ & Hst & _ & Hw' & _); [|done].
  induction Hrun' as [|m s1 s2 H IH _ Hstep]; [done|]. destruct IH as (Hs1 & Hst & Hd).
  destruct (drained_step _ _ _ Hs1 Hd Hstep) as [Hst' Hd']. split; [by eapply tcp_inv_step|]. by rewrite Hst'.
Qed.

(** A connected client that sends nothing. *)
Definition silent (i : nat) (s : TCPServer St) : Prop :=
  exists c, tcp_sessions s !! i = Some c /\ ss_pc c = CReading /\ ss_eof c = false /\ ss_in c = [].

(** [Stop] waits for silent clients.  While the goroutine of a connection waits
    for a client that neither sends nor hangs up, [Stop] does not return,
    whatever the server and the other clients do. *)
Theorem tcp_stop_waits_for_idle_client (st : St) (s s' : TCPServer St) (i : nat) :
  tcp_run (fun _ => True) (NewTCPServer st) s -> silent i s -> tcp_run (fun m => m <> Peer i) s s' ->
  silent i s' /\ forall r, tcp_stop s' <> SReturned r.
Proof using.
  intros Hrun Hsil Hrun'. pose proof (tcp_inv_run _ _ _ (tcp_inv_new st) Hrun) as Hs.
  assert (silent i s') as Hsil'.
  { clear Hrun Hs. induction Hrun' as [|m s1 s2 H IH Hm Hstep]; [done|]. destruct IH as (c & Hc & Hpc & He & Hin).
    assert (forall j d d', tcp_sessions s1 !! j = Some d -> j <> i -> <[j := d']> (tcp_sessions s1) !! i = Some c) as Hother.
    { intros j d d' _ Hne. by rewrite list_lookup_insert_ne. }
    destruct Hstep as [s1 s2 _ _ [= <-]|out s1 _ Ha|e s1 _ Ha|d s1 _ Ha|j d s1 s2 _ Hj Et|s1 _ Hst|r' s1 _ Hst|r' s1 s2 _ Hst Et|j d bs s1 Hj Hd|j d s1 Hj|j d s1 _ Hj _].
    - by exists c.
    - by exists c.
    - unfold accepted. destruct (tcp_closeCh s1); by exists c.
    - exists c. cbn. rewrite lookup_app_l by (by eapply lookup_lt_Some). done.
    - destruct (decide (j = i)) as [-> |Hne].
      + rewrite Hc in Hj. injection Hj as <-. unfold conn_turn in Et. by rewrite Hpc, Hin, He in Et.
      + exists c. split; [|done]. unfold conn_turn in Et. destruct (ss_pc d); [| |done].
        * injection Et as <-. destruct (tcp_closeCh s1); by eapply Hother.
        * destruct (next_request _ _) as [[[cmd payload| |]|e| |] cn]; try done; injection Et as <-; try (by eapply Hother); try done.
          destruct (dispatch _ _ _ _) as [[] c']; done || by eapply Hother.
    - unfold Stop_begin. destruct (tcp_closeCh s1); by exists c.
    - unfold Stop_listener. destruct (tcp_listener s1); by exists c.
    - unfold Stop_wait in Et. destruct (_ =? _); [|done]. injection Et as <-. by exists c.
    - exists c. split; [|done]. eapply Hother; [done|]. congruence.
    - exists c. split; [|done]. eapply Hother; [done|]. congruence.
    - exists c. split; [|done]. eapply Hother; [done|]. congruence. }
  split; [done|]. intros r Hr. pose proof (tcp_inv_run _ _ _ Hs Hrun') as Hs'.
  destruct (returned_drained _ _ Hs' Hr) as (_ & _ & Hgone). destruct Hsil' as (c & Hc & Hpc & _).
  by rewrite (Forall_lookup_1 _ _ _ _ Hgone Hc) in Hpc.
Qed.
End tcp.

(** A client that connects and sends a frame of length zero, then [Stop]: the
    connection ends although the client has not closed it. *)
#[local] Existing Instance map_KV.
Definition demo_session (sent : bool) (pc : conn_pc) : Session :=
  mkSession (if sent then [x00; x00; x00; x00] else []) false (bufio_NewWriter (mkFile [] 0 [] false)) pc.
Definition demo_tcp (l : option bool) (cl : bool) (wg : Z) (a : accept_pc) (ss : list Session) (p : stop_pc) : TCPServer (gmap bytes bytes) :=
  mkTCP ∅ l cl wg a ss p false.

Lemma demo_tcp_run :
  tcp_run [] (fun _ => True) (NewTCPServer ∅) (demo_tcp (Some false) true 0 AGone [demo_session true CGone] (SReturned (Ok tt))).
Proof.
  assert (forall m s1 s2 s, tcp_run [] (fun _ => True) s s1 -> tstep [] m s1 s2 -> tcp_run [] (fun _ => True) s s2) as Hstep.
  { intros m s1 s2 s H1 H2. by eapply tr_step. }
  eapply Hstep; [|eapply (ts_stop_wait _ (Ok tt) (demo_tcp (Some false) true 0 AGone [demo_session true CGone] (SWaiting (Ok tt)))); reflexivity].
  eapply Hstep; [|eapply (ts_accept_error _ ErrIO (demo_tcp (Some false) true 1 AAccepting [demo_session true CGone] (SWaiting (Ok tt)))); reflexivity].
  eapply Hstep; [|eapply (ts_stop_listener _ (Ok tt) (demo_tcp (Some true) true 1 AAccepting [demo_session true CGone] SClosed)); reflexivity].
  eapply Hstep; [|eapply (ts_turn _ 0 (demo_session true CReading) (demo_tcp (Some true) true 2 AAccepting [demo_session true CReading] SClosed)); vm_compute; reflexivity].
  eapply Hstep; [|eapply (ts_stop _ (demo_tcp (Some true) false 2 AAccepting [demo_session true CReading] SNone)); reflexivity].
  eapply Hstep; [|eapply (ts_send _ 0 (demo_session false CReading) [x00; x00; x00; x00] (demo_tcp (Some true) false 2 AAccepting [demo_session false CReading] SNone)); reflexivity].
  eapply Hstep; [|eapply (ts_turn _ 0 (demo_session false CTop) (demo_tcp (Some true) false 2 AAccepting [demo_session false CTop] SNone)); vm_compute; reflexivity].
  eapply Hstep; [|eapply (ts_spawn _ (demo_session false CTop) (demo_tcp (Some true) false 1 (AHolding (demo_session false CTop)) [] SNone)); reflexivity].
  eapply Hstep; [|eapply (ts_accept _ (bufio_NewWriter (mkFile [] 0 [] false)) (demo_tcp (Some true) false 1 AAccepting [] SNone)); reflexivity].
  eapply Hstep; [apply tr_refl|eapply (ts_start _ (NewTCPServer ∅)); reflexivity].
Qed.

Lemma tcp_stop_drains_witness :
  exists s, tcp_run [] (fun _ => True) (NewTCPServer ∅) s /\ tcp_stop s = SReturned (Ok tt) /\
    Forall (fun c => ss_pc c = CGone) (tcp_sessions s) /\ length (tcp_sessions s) = 1%nat.
Proof.
  exists (demo_tcp (Some false) true 0 AGone [demo_session true CGone] (SReturned (Ok tt))). split; [exact demo_tcp_run|]. split; [reflexivity|].
  destruct (tcp_stop_drains [] ∅ _ demo_tcp_run) as [_ H]. destruct (H (Ok tt) eq_refl) as (_ & Hgone & _).
  split; [exact Hgone|reflexivity].
Defined.
