(* ===== verification/Cli.v ===== *)
(** * cmd/client/main.go: the command line client

    One run of the program on the arguments left by the flag package: what it
    writes to its two outputs, its exit code, and what it does to the
    connection.

    [cli_shows_store]: a well-formed command line is one call of the store,
    whose result is shown; any other is refused without a call. *)

From S2P Require Import Prelude GoStd Protocol Engine EngineRun Server Client.

(** ** The program *)

Record Exit := mkExit {
  ex_stdout : bytes;
  ex_stderr : bytes;
  ex_code : Z
}.

Definition newline : bytes := [x0a].
Definition line (s : string) : bytes := text s ++ newline.

Definition printUsage : bytes :=
  line "Usage: kvstore-cli -addr <addr> <command> [args]" ++
  line "Commands:" ++
  line "  put <key> <value>" ++
  line "  get <key>" ++
  line "  delete <key>" ++
  line "  scan <start> <end>" ++
  line "  batch <key1> <val1> <key2> <val2> ...".

(** [fmt.Fprintf(os.Stderr, ...); os.Exit(1)] *)
Definition refuse {S} (msg : bytes) : M S Exit := mret (mkExit [] msg 1).
(** The end of [main] after this on the standard output. *)
Definition shown {S} (out : bytes) : M S Exit := mret (mkExit out [] 0).

Section cli.
Context {St : Type} `{!KV St} (os : bytes).

(** [if err != nil { fmt.Fprintf(os.Stderr, "Error: %v\n", err); os.Exit(1) }] *)
Definition or_exit {S A} (m : M S A) (k : A -> M S Exit) : M S Exit := fun s =>
  match m s with
  | (Ok a, s) => k a s
  | (Err e, s) => refuse (text "Error: " ++ Error os e ++ newline) s
  | (Panic, s) => (Panic, s)
  | (OutOfFuel, s) => (OutOfFuel, s)
  end.

(** [args[i]] *)
Definition arg {S} (args : list bytes) (i : Z) : M S bytes :=
  lift (match args !! Z.to_nat i with Some a => Ok a | None => Panic end).

(** The loop of [batch] from pair [i] on: the keys and values it collects. *)
Fixpoint batch_args {S} (args : list bytes) (todo : nat) (i : Z) : M S (list bytes * list bytes) :=
  match todo with
  | O => mret ([], [])
  | S todo =>
      key ← arg args (1 + 2 * i);
      value ← arg args (2 + 2 * i);
      '(keys, values) ← batch_args args todo (i + 1);
      mret (key :: keys, value :: values)
  end.

Definition show_pair (p : KVPair) : bytes := kv_Key p ++ text " = " ++ kv_Value p ++ newline.

(** [connect]: the answer of [client.Connect]; the link is the connection it
    made.  Closing it at the end is not seen by anyone. *)
Definition cli_main (connect : res unit) (args : list bytes) : M (Link St) Exit :=
  if len args <? 1 then refuse printUsage else
  or_exit (lift connect) (fun _ =>
  cmd ← arg args 0;
  if bool_decide (cmd = text "put") then
    if negb (len args =? 3) then refuse (line "Usage: put <key> <value>") else
    key ← arg args 1; value ← arg args 2;
    or_exit (Client_Put os key value) (fun _ => shown (line "OK"))
  else if bool_decide (cmd = text "get") then
    if negb (len args =? 2) then refuse (line "Usage: get <key>") else
    key ← arg args 1;
    or_exit (Client_Get os key) (fun val => shown (val ++ newline))
  else if bool_decide (cmd = text "delete") then
    if negb (len args =? 2) then refuse (line "Usage: delete <key>") else
    key ← arg args 1;
    or_exit (Client_Delete os key) (fun _ => shown (line "OK"))
  else if bool_decide (cmd = text "scan") then
    if negb (len args =? 3) then refuse (line "Usage: scan <start> <end>") else
    start ← arg args 1; end_ ← arg args 2;
    or_exit (Client_GetRange os start end_) (fun pairs => shown (concat (show_pair <$> pairs)))
  else if bool_decide (cmd = text "batch") then
    if (len args <? 3) || negb (Z.rem (len args) 2 =? 1) then refuse (line "Usage: batch <key1> <val1> <key2> <val2> ...") else
    let n := Z.quot (len args - 1) 2 in
    '(keys, values) ← batch_args args (Z.to_nat n) 0;
    or_exit (Client_BatchPut os keys values) (fun _ => shown (line "OK"))
  else refuse (text "Unknown command: " ++ cmd ++ newline ++ printUsage)).

(** ** What a command line means *)

(** Words taken two by two. *)
Fixpoint paired_words (ws : list bytes) : option (list bytes * list bytes) :=
  match ws with
  | [] => Some ([], [])
  | k :: v :: ws => '(ks, vs) ← paired_words ws; Some (k :: ks, v :: vs)
  | [_] => None
  end.

Definition usage (cmd : bytes) : bytes :=
  if bool_decide (cmd = text "put") then line "Usage: put <key> <value>"
  else if bool_decide (cmd = text "get") then line "Usage: get <key>"
  else if bool_decide (cmd = text "delete") then line "Usage: delete <key>"
  else if bool_decide (cmd = text "scan") then line "Usage: scan <start> <end>"
  else if bool_decide (cmd = text "batch") then line "Usage: batch <key1> <val1> <key2> <val2> ..."
  else text "Unknown command: " ++ cmd ++ newline ++ printUsage.

(** The request of a command line, or the text of its refusal. *)
Definition command_line (cmd : bytes) (rest : list bytes) : bytes + request :=
  if bool_decide (cmd = text "put") then match rest with [k; v] => inr (RqPut k v) | _ => inl (usage cmd) end
  else if bool_decide (cmd = text "get") then match rest with [k] => inr (RqGet k) | _ => inl (usage cmd) end
  else if bool_decide (cmd = text "delete") then match rest with [k] => inr (RqDelete k) | _ => inl (usage cmd) end
  else if bool_decide (cmd = text "scan") then match rest with [a; b] => inr (RqGetRange a b) | _ => inl (usage cmd) end
  else if bool_decide (cmd = text "batch") then
    match rest, paired_words rest with
    | _ :: _, Some (ks, vs) => inr (RqBatchPut ks vs)
    | _, _ => inl (usage cmd)
    end
  else inl (usage cmd).

(** What is shown for a result. *)
Definition show_result (x : res response) : res Exit :=
  match x with
  | Ok RsDone => Ok (mkExit (line "OK") [] 0)
  | Ok (RsValue v) => Ok (mkExit (v ++ newline) [] 0)
  | Ok (RsPairs l) => Ok (mkExit (concat (show_pair <$> l)) [] 0)
  | Err e => Ok (mkExit [] (text "Error: " ++ Error os e ++ newline) 1)
  | Panic => Panic
  | OutOfFuel => OutOfFuel
  end.

(** ** Each command *)

Lemma or_exit_shown {A} (m : M (Link St) A) (g : A -> response) (f : A -> bytes) k :
  (forall a, show_result (Ok (g a)) = Ok (mkExit (f a) [] 0)) ->
  or_exit m (fun a => shown (f a)) k = let '(x, k') := (a ← m; mret (g a)) k in (show_result x, k').
Proof using.
  intros H. unfold or_exit, mbind, M_bind. destruct (m k) as [[a|e| |] k1]; try done.
  change ((Ok (mkExit (f a) [] 0), k1) = (show_result (Ok (g a)), k1)). by rewrite H.
Qed.

(** The case distinction on the number of words. *)
Lemma paired_words_len n : forall ws, (length ws <= n)%nat ->
  (exists ks vs, paired_words ws = Some (ks, vs) /\ length ws = (2 * length ks)%nat) \/
  (paired_words ws = None /\ exists m, length ws = (2 * m + 1)%nat).
Proof using.
  induction n as [|n IH]; intros [|k [|v ws]] Hn; cbn [length] in Hn; try lia; [left; by exists [], []..|right; split; [done|by exists 0%nat]|].
  cbn [paired_words]. destruct (IH ws) as [(ks & vs & -> & Hl)|(-> & m & Hl)]; [lia| |].
  - left. exists (k :: ks), (v :: vs). split; [done|]. cbn [length]. lia.
  - right. split; [done|]. exists (S m). cbn [length]. lia.
Qed.

Lemma batch_args_words {S} args : forall ks ws vs i (s : S), 0 <= i -> drop (Z.to_nat (1 + 2 * i)) args = ws ->
  paired_words ws = Some (ks, vs) -> batch_args args (length ks) i s = (Ok (ks, vs), s).
Proof using.
  induction ks as [|k0 ks IH]; intros ws vs i s Hi Hd Hp; destruct ws as [|k [|v ws]]; cbn [paired_words] in Hp; try done.
  - by injection Hp as <-.
  - destruct (paired_words ws) as [[ks' vs']|]; done.
  - destruct (paired_words ws) as [[ks' vs']|] eqn:E; [|done]. injection Hp as <- <- <-. cbn [length batch_args].
    assert (args !! Z.to_nat (1 + 2 * i) = Some k) as Hk by (by rewrite <- (Nat.add_0_r (Z.to_nat _)), <- lookup_drop, Hd).
    assert (args !! Z.to_nat (2 + 2 * i) = Some v) as Hv.
    { replace (Z.to_nat (2 + 2 * i)) with (Z.to_nat (1 + 2 * i) + 1)%nat by lia. by rewrite <- lookup_drop, Hd. }
    unfold arg. rewrite Hk, Hv. unfold mbind at 1 2, M_bind at 1 2, lift.
    rewrite (M_bind_run _ _ _ _ _ (IH ws vs' (i + 1) s ltac:(lia) ltac:(
      replace (Z.to_nat (1 + 2 * (i + 1))) with (Z.to_nat (1 + 2 * i) + 2)%nat by lia; by rewrite <- drop_drop, Hd) E)). done.
Qed.

Lemma cli_batch rest (k : Link St) :
  cli_main (Ok tt) (text "batch" :: rest) k =
  match command_line (text "batch") rest with
  | inl msg => (Ok (mkExit [] msg 1), k)
  | inr rq => let '(x, k') := remote os rq k in (show_result x, k')
  end.
Proof using.
  unfold cli_main, command_line. rewrite (proj2 (Z.ltb_ge _ 1)) by (rewrite len_cons; pose proof (len_nonneg rest); lia).
  unfold or_exit at 1. cbn [lift]. rewrite (M_bind_run (arg _ 0) _ k (text "batch") k) by done.
  change (bool_decide (text "batch" = text "put")) with false. change (bool_decide (text "batch" = text "get")) with false.
  change (bool_decide (text "batch" = text "delete")) with false. change (bool_decide (text "batch" = text "scan")) with false.
  change (bool_decide (text "batch" = text "batch")) with true. cbv zeta iota.
  rewrite len_cons. unfold len. destruct (paired_words_len (length rest) rest ltac:(lia)) as [(ks & vs & Hp & Hl)|(Hp & m & Hl)]; rewrite Hl.
  - destruct rest as [|w rest]; [by injection Hp as <- <-|]. rewrite Hp. cbn [length] in Hl. rewrite (proj2 (Z.ltb_ge _ 3)) by lia.
    assert (Z.rem (1 + Z.of_nat (2 * length ks)) 2 = 1) as -> by (Z.to_euclidean_division_equations; lia). cbn [orb negb Z.eqb Pos.eqb].
    replace (Z.to_nat (Z.quot (1 + Z.of_nat (2 * length ks) - 1) 2)) with (length ks) by (Z.to_euclidean_division_equations; lia).
    rewrite (M_bind_run _ _ _ _ _ (batch_args_words (text "batch" :: w :: rest) ks (w :: rest) vs 0 k ltac:(lia) eq_refl Hp)).
    by apply (or_exit_shown (Client_BatchPut os ks vs) (fun _ => RsDone) (fun _ => line "OK")).
  - assert (Z.rem (1 + Z.of_nat (2 * m + 1)) 2 = 0) as -> by (Z.to_euclidean_division_equations; lia). rewrite orb_true_r. destruct rest; [done|]. by rewrite Hp.
Qed.

Lemma words_differ {A} (l : list A) n : len l <> n -> negb (len l =? n) = true.
Proof using. intros H. by rewrite (proj2 (Z.eqb_neq _ _) H). Qed.

Ltac wrong_count := rewrite words_differ by (unfold len; cbn [length]; lia); done.

Lemma cli_command cmd rest (k : Link St) :
  cli_main (Ok tt) (cmd :: rest) k =
  match command_line cmd rest with
  | inl msg => (Ok (mkExit [] msg 1), k)
  | inr rq => let '(x, k') := remote os rq k in (show_result x, k')
  end.
Proof using.
  destruct (decide (cmd = text "batch")) as [-> |Hb]; [apply cli_batch|].
  unfold cli_main, command_line, usage. rewrite (proj2 (Z.ltb_ge _ 1)) by (rewrite len_cons; pose proof (len_nonneg rest); lia).
  unfold or_exit at 1. cbn [lift]. rewrite (M_bind_run (arg _ 0) _ k cmd k) by done. rewrite (bool_decide_eq_false_2 _ Hb).
  destruct (bool_decide (cmd = text "put")); [|destruct (bool_decide (cmd = text "get")); [|destruct (bool_decide (cmd = text "delete")); [|
    destruct (bool_decide (cmd = text "scan")); [|done]]]]; destruct rest as [|a [|b [|c rest]]]; try done; try wrong_count.
  - by apply (or_exit_shown (Client_Put os a b) (fun _ => RsDone) (fun _ => line "OK")).
  - by apply (or_exit_shown (Client_Get os a) RsValue (fun val => val ++ newline)).
  - by apply (or_exit_shown (Client_Delete os a) (fun _ => RsDone) (fun _ => line "OK")).
  - by apply (or_exit_shown (Client_GetRange os a b) RsPairs (fun pairs => concat (show_pair <$> pairs))).
Qed.

(** C19.  The command line client shows the store.  Over a working connection, a
    command with the right number of words is exactly one call of the store:
    the store ends as after that call, the program shows the value, the pairs
    in order or OK and exits with 0, and shows an error of the store as the
    text of the server and exits with 1.  Any other command line is refused
    with a usage text and code 1, and nothing is sent. *)
Theorem cli_shows_store (cmd : bytes) (rest : list bytes) (k : Link St) :
  quiescent k ->
  match command_line cmd rest with
  | inl msg => cli_main (Ok tt) (cmd :: rest) k = (Ok (mkExit [] msg 1), k)
  | inr rq =>
      forall x s, rq_fits rq -> local rq (cn_store (lk_conn k)) = (x, s) -> rs_fits os x ->
      exists k', cli_main (Ok tt) (cmd :: rest) k = (show_result (seen os rq x), k') /\ quiescent k' /\ cn_store (lk_conn k') = s
  end.
Proof using.
  intros Hk. pose proof (cli_command cmd rest k) as E. destruct (command_line cmd rest) as [msg|rq]; [exact E|].
  intros x s Hrq Hl Hx. destruct (remote_call os rq k x s Hk Hrq Hl Hx) as (k' & Er & Hk' & Hs).
  exists k'. rewrite E, Er. done.
Qed.
End cli.

(** [put a 1] on a new database. *)
Lemma cli_shows_store_witness :
  exists k', cli_main [] (Ok tt) [text "put"; text "a"; text "1"] demo_link = (Ok (mkExit (line "OK") [] 0), k') /\
    kv_get (text "a") (cn_store (lk_conn k')) = Ok (Some (text "1")).
Proof.
  assert (quiescent demo_link) as Hq by (split; done).
  destruct (cli_shows_store [] (text "put") [text "a"; text "1"] demo_link Hq (Ok RsDone)
    (local (RqPut (text "a") (text "1")) (cn_store (lk_conn demo_link))).2) as (k' & E & _ & Hs).
  - vm_compute. reflexivity.
  - vm_compute. reflexivity.
  - done.
  - exists k'. split; [exact E|]. rewrite Hs. vm_compute. reflexivity.
Defined.
