(* ===== verification/CmdBench.v ===== *)
(** * cmd/bench/main.go: the benchmark of the engine

    One run of the program.  Flags, the clock and random draws are arguments
    (a shuffle is the permutation it makes); the lines it prints are kept as
    their numbers, without their layout.

    [bench_needs_keys]: with a hundred keys or fewer the program panics after
    its writes. *)

From S2P Require Import Prelude GoStd Memtable Wal SSTWriter SSTReader Manifest Engine EngineRun Server Cli.

(** [fmt.Sprintf(tag + "%010d", i)] *)
Definition numbered (tag : string) (i : Z) : bytes :=
  let d := digits 20 i in
  text tag ++ replicate (10 - length d) x30 ++ d.

(** A line of the output: its title, the number of operations, the time. *)
Record Report := mkReport {
  rp_title : string;
  rp_ops : Z;
  rp_elapsed : Z
}.

(** An error of the engine in a loop: the message of the program's exit. *)
Definition fail_with {A} (msg : string) (m : M Engine A) : M Engine A := wrap msg m.

(** [for i := range keys { op(keys[i]) }], call [i] meeting [ios i]. *)
Fixpoint each (op : IO -> bytes -> M Engine unit) (ios : nat -> IO) (keys : list bytes) (i : nat) : M Engine unit :=
  match keys with
  | [] => mret tt
  | k :: keys => op (ios i) k;; each op ios keys (S i)
  end.

Definition bench_put (value : bytes) (io : IO) (key : bytes) : M Engine unit :=
  fail_with "put error" (Engine_Put io key (Some value)).

(** A missing key is no error here. *)
Definition bench_get (_ : IO) (key : bytes) : M Engine unit := fun e =>
  match Engine_Get key e with
  | Ok _ | Err ErrNotFound => (Ok tt, e)
  | Err err => (Err (Wrap "get error" err), e)
  | Panic => (Panic, e)
  | OutOfFuel => (OutOfFuel, e)
  end.

Definition bench_delete (io : IO) (key : bytes) : M Engine unit := fail_with "delete error" (Engine_Delete io key).

(** The batches from [b] on. *)
Fixpoint bench_batches (value : bytes) (ios : nat -> IO) (batchSize : Z) (todo b : nat) : M Engine unit :=
  match todo with
  | O => mret tt
  | S todo =>
      fail_with "batch put error" (Engine_BatchPut (ios b)
        ((fun i => numbered "batch-" (Z.of_nat b * batchSize + i)) <$> seqZ 0 batchSize) (replicate (Z.to_nat batchSize) (Some value)));;
      bench_batches value ios batchSize todo (S b)
  end.

(** [rand.Intn(n)], which panics unless [n] is positive. *)
Definition rand_Intn (draw n : Z) : res Z := if n <=? 0 then Panic else Ok (draw mod n).

Fixpoint bench_ranges (fuel : nat) (draws : nat -> Z) (n rangeSize : Z) (todo i : nat) : M Engine unit :=
  match todo with
  | O => mret tt
  | S todo =>
      startIdx ← lift (rand_Intn (draws i) (n - rangeSize));
      e ← get_st;
      _ ← fail_with "range error" (lift (Engine_ReadRange fuel (numbered "key-" startIdx) (numbered "key-" (startIdx + rangeSize)) e));
      bench_ranges fuel draws n rangeSize todo (S i)
  end.

(** [make([]T, n)] *)
Definition make_ok (n : Z) : res unit := if n <? 0 then Panic else Ok tt.

(** What a run meets: the calls of each of its loops, the draws of the range
    reads, the clock, and the permutations of the two shuffles. *)
Record World := mkWorld {
  wd_writes : nat -> IO;
  wd_overwrites : nat -> IO;
  wd_batches : nat -> IO;
  wd_deletes : nat -> IO;
  wd_draws : nat -> Z;
  wd_now : nat -> Z;
  wd_shuffle : list bytes -> list bytes;
  wd_shuffle_reads : list bytes -> list bytes;
  wd_fuel : nat
}.

Definition elapsed (w : World) (i : nat) : Z := wd_now w (S i) - wd_now w i.

(** [main] from the generation of the keys on; [value] is what [rand.Read]
    filled. *)
Definition bench_phases (w : World) (n : Z) (value : bytes) : M Engine (list Report) :=
  lift (make_ok n);;
  let keys := numbered "key-" <$> seqZ 0 n in
  let shuffled := wd_shuffle w keys in
  each (bench_put value) (wd_writes w) keys 0;;
  let keys := wd_shuffle_reads w keys in
  each bench_get (wd_writes w) keys 0;;
  each (bench_put value) (wd_overwrites w) shuffled 0;;
  let batchSize := 100 in
  let batches := Z.quot n batchSize in
  bench_batches value (wd_batches w) batchSize (Z.to_nat batches) 0;;
  let rangeCount := 1000 in
  let rangeSize := 100 in
  bench_ranges (wd_fuel w) (wd_draws w) n rangeSize (Z.to_nat rangeCount) 0;;
  let deleteCount := Z.quot n 10 in
  each bench_delete (wd_deletes w) (take (Z.to_nat deleteCount) keys) 0;;
  mret [mkReport "Sequential Writes" n (elapsed w 0); mkReport "Random Reads" n (elapsed w 2); mkReport "Random Writes" n (elapsed w 4);
        mkReport "Batch Writes" (batches * batchSize) (elapsed w 6); mkReport "Range Reads" rangeCount (elapsed w 8);
        mkReport "Deletes" deleteCount (elapsed w 10)].

(** How the program ends: with its lines, or with a message and code 1. *)
Inductive ending :=
| Reports (lines : list Report)
| Failure (msg : bytes).

Definition bench_opts : Options := mkOptions (4 * 1024 * 1024) 0 0 0.

Definition failed_with (os : bytes) (msg : string) (e : error) : ending := Failure (text msg ++ text ": " ++ Error os e ++ newline).

(** [tempdir]: the answer of [os.MkdirTemp], [None] with the flag [-dir], whose
    directory holds [disk].  The deferred [Close] runs only at the normal end
    of [main], and its error is dropped. *)
Definition bench_main (os : bytes) (tempdir : option (res unit)) (oio : OpenIO) (disk : Disk) (closes : nat -> IO) (w : World)
    (n vsize : Z) (value : bytes) : res ending :=
  match default (Ok tt) tempdir with
  | Err e => Ok (failed_with os "failed to create temp dir" e)
  | Panic => Panic
  | OutOfFuel => OutOfFuel
  | Ok _ =>
      match Engine_Open oio (match tempdir with Some _ => empty_disk | None => disk end) bench_opts with
      | Err e => Ok (failed_with os "failed to open engine" e)
      | Panic => Panic
      | OutOfFuel => OutOfFuel
      | Ok eng =>
          make_ok vsize ≫= fun _ =>
          match bench_phases w n value eng with
          | (Ok lines, eng) =>
              match (Engine_Close (wd_fuel w) closes eng).1 with
              | Ok _ | Err _ => Ok (Reports lines)
              | Panic => Panic
              | OutOfFuel => OutOfFuel
              end
          | (Err e, _) => Ok (Failure (Error os e ++ newline))
          | (Panic, _) => Panic
          | (OutOfFuel, _) => OutOfFuel
          end
      end
  end.

(** ** Few keys *)

Lemma bench_ranges_small fuel draws n rangeSize todo i e :
  n <= rangeSize -> (0 < todo)%nat -> bench_ranges fuel draws n rangeSize todo i e = (Panic, e).
Proof.
  intros Hn Ht. destruct todo as [|todo]; [lia|]. cbn [bench_ranges]. unfold rand_Intn. by rewrite (proj2 (Z.leb_le _ 0)) by lia.
Qed.

(** With at most a hundred keys the program never prints its results: when its
    reads and writes succeed, [rand.Intn] panics in the range reads. *)
Theorem bench_needs_keys (os : bytes) (tempdir : option (res unit)) (oio : OpenIO) (disk : Disk) (closes : nat -> IO) (w : World)
    (n vsize : Z) (value : bytes) (lines : list Report) :
  n <= 100 -> bench_main os tempdir oio disk closes w n vsize value <> Ok (Reports lines).
Proof.
  intros Hn. unfold bench_main. destruct (default (Ok tt) tempdir); try done. destruct (Engine_Open _ _ _) as [eng|e| |]; try done.
  destruct (make_ok vsize); try done. cbn [mbind res_bind].
  assert (forall lines e, bench_phases w n value eng <> (Ok lines, e)) as H.
  2: { destruct (bench_phases w n value eng) as [[l|e| |] e'] eqn:E; try done. by destruct (H l e'). }
  intros l e H. unfold bench_phases in H. repeat (minv H; []).
  match goal with E : bench_ranges _ _ _ _ _ _ ?s = _ |- _ => by rewrite bench_ranges_small in E by lia end.
Qed.

(** One key, and every call succeeds. *)
Definition demo_world : World :=
  mkWorld (fun _ => demo_io) (fun _ => demo_io) (fun _ => demo_io) (fun _ => demo_io) (fun _ => 0) Z.of_nat id id 10.

Example bench_one_key_panics :
  bench_main [] None (open_ok (fun _ => [])) empty_disk (fun _ => demo_io) demo_world 1 1 [x31] = Panic.
Proof. vm_compute. reflexivity. Qed.
