(* ===== verification/Node.v ===== *)
(** * raft/node.go: a Raft node with its storage engine

    A node owns a Raft instance and an engine; committed commands leave the
    Raft instance through its apply channel and are decoded and applied to the
    engine.  What system calls answer is an argument. *)

From S2P Require Import Prelude GoStd Wal Protocol RaftLog Engine EngineRun Recovery Raft.

(** [nd_closed]: whether [closeCh] is closed. *)
Record Node := mkNode {
  nd_raft : Raft;
  nd_eng : option Engine;
  nd_closed : bool
}.

(** [NewNodeWithConfig]; the arguments are those of [NewRaft].  The configuration
    is an argument of [Node_Start], which first uses it. *)
Definition NewNode (mkdir : res unit) (opened : res (list fault)) (listen : res bytes) (failed : option error)
    (nodeID : bytes) (peers : list bytes) (logFile : File) (stateFile : option bytes) : res Node :=
  r ← Raft.ctx "node: create raft" (NewRaft mkdir opened listen failed nodeID peers logFile stateFile);
  Ok (mkNode r None false).

(** [Raft.Start]: the listener, the election timer and the ticker, which panics
    on an interval that is not positive; the loops are transitions of their
    own. *)
Definition Raft_Start (listening : res unit) (rnd : Z -> Z) (c : Config) : res unit :=
  listening ≫= fun _ =>
  randomElectionTimeout rnd c ≫= fun _ =>
  if HeartbeatInterval c <=? 0 then Panic else Ok tt.

Definition on_eng {A} (m : M Engine A) : M Node A := fun n =>
  match nd_eng n with
  | None => (Panic, n)
  | Some e => let '(x, e) := m e in (x, mkNode (nd_raft n) (Some e) (nd_closed n))
  end.

Definition on_raft {A} (m : M Raft A) : M Node A := fun n =>
  let '(x, r) := m (nd_raft n) in (x, mkNode r (nd_eng n) (nd_closed n)).

(** The engine's options are the defaults. *)
Definition node_opts : Options := mkOptions 0 0 0 0.

Definition Node_Start (oio : OpenIO) (disk : Disk) (fuel : nat) (ios : nat -> IO) (listening : res unit) (rnd : Z -> Z) (c : Config)
    : M Node unit :=
  eng ← lift (Raft.ctx "node: open engine" (Engine_Open oio disk node_opts));
  modify (fun n => mkNode (nd_raft n) (Some eng) (nd_closed n));;
  match Raft_Start listening rnd c with
  | Ok _ => mret tt
  | Err e => ignore (on_eng (Engine_Close fuel ios));; throw (Wrap "node: start raft" e)
  | Panic => lift Panic
  | OutOfFuel => lift OutOfFuel
  end.

(** The errors of the engine are dropped; the decoders panic on a malformed
    command. *)
Definition applyEntry (io : IO) (entry : LogEntry) : M Engine unit :=
  if bool_decide (CmdType entry = CmdRaftPut) then
    '(key, value) ← lift (DecodePutCommand (Data entry));
    ignore (Engine_Put io key (Some value))
  else if bool_decide (CmdType entry = CmdRaftDelete) then
    key ← lift (DecodeDeleteCommand (Data entry));
    ignore (Engine_Delete io key)
  else if bool_decide (CmdType entry = CmdRaftBatchPut) then
    '(keys, values) ← lift (DecodeBatchPutCommand (Data entry));
    ignore (Engine_BatchPut io keys (Some <$> values))
  else mret tt.

(** One round of [engineApplyLoop]; [false] when nothing can be received. *)
Definition engineApply (io : IO) : M Node bool :=
  n ← get_st;
  match r_applyCh (nd_raft n) with
  | [] => mret false
  | entry :: ch =>
      on_raft (modify (fun r => set_applied (r_lastApplied r) ch r));;
      on_eng (applyEntry io entry);;
      mret true
  end.

(** Closing [closeCh] a second time panics; [Raft.Stop] returns nil. *)
Definition Node_Stop (fuel : nat) (ios : nat -> IO) : M Node unit :=
  n ← get_st;
  if nd_closed n then lift Panic else
  modify (fun n => mkNode (nd_raft n) (nd_eng n) true);;
  on_raft Raft_Stop;;
  match nd_eng n with
  | None => mret tt
  | Some _ => on_eng (Engine_Close fuel ios)
  end.

(** ** Commands *)

Inductive command :=
| CPut (key value : bytes)
| CDelete (key : bytes)
| CBatchPut (keys values : list bytes).

(** The command of an entry; [None] for another type. *)
Definition decode_entry (entry : LogEntry) : res (option command) :=
  if bool_decide (CmdType entry = CmdRaftPut) then
    '(key, value) ← DecodePutCommand (Data entry); Ok (Some (CPut key value))
  else if bool_decide (CmdType entry = CmdRaftDelete) then
    key ← DecodeDeleteCommand (Data entry); Ok (Some (CDelete key))
  else if bool_decide (CmdType entry = CmdRaftBatchPut) then
    '(keys, values) ← DecodeBatchPutCommand (Data entry); Ok (Some (CBatchPut keys values))
  else Ok None.

Definition command_op (io : IO) (cmd : command) : eop :=
  match cmd with
  | CPut k v => EPut io k (Some v)
  | CDelete k => EDelete io k
  | CBatchPut ks vs => EBatchPut io ks (Some <$> vs)
  end.

(** The writes of a command, in order. *)
Definition command_writes (cmd : command) : list (bytes * option bytes) :=
  match cmd with
  | CPut k v => [(k, Some v)]
  | CDelete k => [(k, None)]
  | CBatchPut ks vs => zip ks (Some <$> vs)
  end.

Definition entry_writes (entry : LogEntry) : list (bytes * option bytes) :=
  match decode_entry entry with Ok (Some cmd) => command_writes cmd | _ => [] end.

(** A command the engine accepts: within the length fields of its log, without
    empty values. *)
Definition command_ok (cmd : command) : Prop :=
  match cmd with
  | CPut k v => v <> [] /\ 9 + len k + len v < 2 ^ 32
  | CDelete k => 9 + len k < 2 ^ 32
  | CBatchPut ks vs => length ks = length vs /\ Forall2 (fun k v => v <> [] /\ 9 + len k + len v < 2 ^ 32) ks vs
  end.

Definition entry_ok (entry : LogEntry) : Prop := exists cmd, decode_entry entry = Ok (Some cmd) /\ command_ok cmd.

Lemma command_op_writes io cmd : eop_writes (command_op io cmd) = command_writes cmd.
Proof. by destruct cmd. Qed.

Lemma command_op_io io cmd : eop_io (command_op io cmd) = io.
Proof. by destruct cmd. Qed.

Lemma command_op_ok io cmd :
  command_ok cmd ->
  clean (eop_writes (command_op io cmd)) /\ Forall record_fits (eop_records (command_op io cmd)) /\ paired (command_op io cmd).
Proof.
  destruct cmd as [k v|k|ks vs]; cbn.
  - intros [Hv Hl]. split_and!; [apply Forall_singleton; cbn; congruence|by apply Forall_singleton|done].
  - intros Hl. split_and!; [by apply Forall_singleton| |done]. apply Forall_singleton. unfold record_fits. cbn. change (len []) with 0. lia.
  - intros [Hl H]. split_and!; [..|by rewrite length_fmap]; clear Hl; unfold clean; induction H as [|k v ks vs [Hv Hl] H IH]; cbn; constructor; try done.
    cbn. congruence.
Qed.

(** What [applyEntry] does with a well-formed entry. *)
Lemma applyEntry_op io entry cmd e :
  decode_entry entry = Ok (Some cmd) -> applyEntry io entry e = ignore (eop_run (command_op io cmd)) e.
Proof.
  unfold decode_entry, applyEntry. repeat case_bool_decide; try done.
  - destruct (DecodePutCommand _) as [[k v]| | |]; intros H'; try done. by injection H' as <-.
  - destruct (DecodeDeleteCommand _) as [k| | |]; intros H'; try done. by injection H' as <-.
  - destruct (DecodeBatchPutCommand _) as [[ks vs]| | |]; intros H'; try done. by injection H' as <-.
Qed.
