(* ===== verification/Replica.v ===== *)
(** * The replicated store

    Every node of a cluster applies the commands its Raft instance delivers to
    its own engine (raft/node.go).  The system of Raft.v, RaftSystem.v and
    CompactRun.v together: messages that are delayed, repeated or lost, the
    stages of flushes and compactions, and restarts in which a node loses what its files had
    not synced, reopens its engine and starts to apply its log again from the
    first entry. *)

From stdpp Require Import functions.
From S2P Require Import Prelude GoStd Wal Protocol RaftLog Engine EngineRun Shelf Recovery CompactRun Raft RaftSystem RaftLogs RaftElection RaftSafety RaftStateMachine Node.

(** ** What a transition keeps *)

Section frame.
Context (P : LogEntry -> Prop).

(** Entries stay in [P]; nothing is delivered or consumed. *)
Definition frame (n n' : Raft) : Prop :=
  (Forall P (entries n) -> Forall P (entries n')) /\ r_lastApplied n' = r_lastApplied n /\ r_applyCh n' = r_applyCh n.

#[local] Instance frame_refl : Reflexive frame.
Proof. by intros n. Qed.

#[local] Instance frame_trans : Transitive frame.
Proof. intros n1 n2 n3 (?&?&?) (?&?&?). split_and!; [auto|congruence..]. Qed.

Lemma frame_on_log {A} (m : M Log A) :
  (forall l x l', m l = (x, l') -> Forall P (rl_entries l) -> Forall P (rl_entries l')) -> keeps frame (on_log m).
Proof.
  intros Hm n x n'. unfold on_log. destruct (m (r_log n)) as [r l] eqn:E. intros [= _ <-]. split_and!; try done. by eapply Hm.
Qed.

Lemma rl_on_file_entries {A} (m : M File A) l x l' : rl_on_file m l = (x, l') -> rl_entries l' = rl_entries l.
Proof. unfold rl_on_file. destruct (m (rl_file l)). by intros [= _ <-]. Qed.

Lemma append_entries_from es l x l' :
  append_entries es l = (x, l') -> Forall P es -> Forall P (rl_entries l) -> Forall P (rl_entries l').
Proof.
  revert l. induction es as [|e es IH]; intros l E Hes Hl; cbn [append_entries] in E; [by injection E as _ <-|].
  apply Forall_cons in Hes as [He Hes]. unfold mbind, M_bind, wrap in E.
  destruct (rl_on_file (writeEntry e) l) as [r l1] eqn:E1. apply rl_on_file_entries in E1.
  destruct r; try (injection E as _ <-; by rewrite E1).
  eapply IH; [exact E|done|]. cbn. rewrite E1. apply Forall_app. by repeat constructor.
Qed.

Lemma frame_Append es : Forall P es -> keeps frame (on_log (Log_Append es)).
Proof.
  intros Hes. apply frame_on_log. intros l x l'. unfold Log_Append, mbind, M_bind.
  destruct (append_entries es l) as [r l1] eqn:E1. pose proof (append_entries_from _ _ _ _ E1 Hes).
  destruct r; try (intros [= _ <-]; done). intros E%rl_on_file_entries. rewrite E. done.
Qed.

Lemma rewriteFile_entries created l x l' : rewriteFile created l = (x, l') -> rl_entries l' = rl_entries l.
Proof.
  unfold rewriteFile. destruct (File_Close (rl_file l)) as [? old]. destruct created; try (by intros [= _ <-]).
  intros E%rl_on_file_entries. exact E.
Qed.

Lemma frame_Truncate created i : keeps frame (on_log (Log_TruncateFrom created i)).
Proof.
  apply frame_on_log. intros l x l'. unfold Log_TruncateFrom. mrun.
  destruct (_ || _); [by intros [= _ <-]|].
  destruct (index _ _) as [first|e| |]; [rewrite M_lift_bind|by intros [= _ <-]..].
  destruct (last_entry l) as [lst|e| |]; [rewrite M_lift_bind|by intros [= _ <-]..].
  destruct (i <? Index first); [intros E%rewriteFile_entries; by rewrite E|].
  destruct (i <=? Index lst); [|by intros [= _ <-]]. unfold entries_upto.
  destruct (_ && _); [rewrite M_lift_bind|by intros [= _ <-]].
  intros E%rewriteFile_entries. rewrite E. cbn. intros. by apply Forall_take.
Qed.
#[local] Hint Resolve frame_Append frame_Truncate frame_refl frame_trans : quiet.

Lemma frame_resolve : keeps frame resolveProposalsLocked.
Proof. apply (keeps_modify _). intros n. destruct (resolve _ _ _). done. Qed.
#[local] Hint Resolve frame_resolve : quiet.

Lemma frame_advance_from fuel n : keeps frame (advance_from fuel n).
Proof. revert n. induction fuel as [|fuel IH]; intros n; cbn [advance_from]; quiet. Qed.
#[local] Hint Resolve frame_advance_from : quiet.

Lemma frame_advance : keeps frame advanceCommitIndexLocked.
Proof. unfold advanceCommitIndexLocked. quiet. Qed.
#[local] Hint Resolve frame_advance : quiet.

Lemma frame_becomeFollower w t i : keeps frame (becomeFollowerLocked w t i).
Proof. unfold becomeFollowerLocked, persistState. quiet. Qed.
#[local] Hint Resolve frame_becomeFollower : quiet.

Lemma frame_startElection w : keeps frame (startElection w).
Proof. unfold startElection, persistState. quiet. Qed.

Lemma frame_vote_reply w reply : keeps frame (vote_reply w reply).
Proof. unfold vote_reply. quiet. Qed.

Lemma frame_vote_won args : keeps frame (vote_won args).
Proof. unfold vote_won, becomeLeaderLocked. quiet. Qed.

Lemma frame_replicateTo p : keeps frame (replicateTo p).
Proof. unfold replicateTo. quiet. Qed.

Lemma frame_append_reply w p args reply : keeps frame (append_reply w p args reply).
Proof. unfold append_reply. quiet. Qed.

Lemma frame_apply_begin : keeps frame apply_begin.
Proof. unfold apply_begin. quiet. Qed.

Lemma frame_handleRequestVote io args : keeps frame (handleRequestVote io args).
Proof. unfold handleRequestVote, persistState. quiet. Qed.

Lemma frame_append_new created es : Forall P es -> keeps frame (append_new created es).
Proof.
  induction 1 as [|e es He Hes IH]; cbn [append_new]; [quiet|]. assert (Forall P (e :: es)) by by constructor. quiet.
Qed.
#[local] Hint Resolve frame_append_new : quiet.

Lemma frame_check_prev created args : keeps frame (check_prev created args).
Proof. unfold check_prev. quiet. Qed.

Lemma frame_follow_commit ci : keeps frame (follow_commit ci).
Proof. unfold follow_commit. quiet. Qed.
#[local] Hint Resolve frame_check_prev frame_follow_commit : quiet.

Lemma frame_handleAppendEntries io args : Forall P (aa_Entries args) -> keeps frame (handleAppendEntries io args).
Proof. intros H. unfold handleAppendEntries. quiet. Qed.

Lemma frame_Propose cmd data : (forall t i, P (mkLogEntry t i cmd data)) -> keeps frame (Propose cmd data).
Proof.
  intros H. assert (forall t i, Forall P [mkLogEntry t i cmd data]) by by repeat constructor. unfold Propose. quiet.
Qed.

(** ** Events *)

(** Every entry in a log or under way satisfies [P]. *)
Record entries_in (c : Cluster) : Prop := {
  in_logs : forall a n, c_nodes c !! a = Some n -> Forall P (entries n);
  in_msgs : forall src dst args, AppReq src dst args ∈ c_msgs c -> Forall P (aa_Entries args)
}.

(** An event of the protocol: neither a delivery to the apply channel, nor a
    receipt from it, nor a restart; proposals are in [P]. *)
Definition protocol (ev : event) : Prop :=
  match ev with
  | EvApplyOne _ | EvConsume _ | EvRestart _ _ _ => False
  | EvPropose _ cmd data => forall t i, P (mkLogEntry t i cmd data)
  | _ => True
  end.

Definition framed (c c' : Cluster) : Prop :=
  entries_in c' /\ forall a n', c_nodes c' !! a = Some n' ->
    exists n, c_nodes c !! a = Some n /\ r_lastApplied n' = r_lastApplied n /\ r_applyCh n' = r_applyCh n.

Lemma framed_insert c a n n' els msgs :
  entries_in c -> c_nodes c !! a = Some n -> frame n n' ->
  (forall src dst args, AppReq src dst args ∈ msgs -> AppReq src dst args ∈ c_msgs c \/ Forall P (aa_Entries args)) ->
  framed c (mkCluster (<[a:=n']> (c_nodes c)) els msgs).
Proof.
  intros [I1 I2] Hn (F1 & F2 & F3) Hm. split; [split|]; cbn.
  - intros b m [[<- <-]|[_ H]]%lookup_insert_Some; eauto.
  - intros src dst args [H|H]%Hm; eauto.
  - intros b m [[<- <-]|[_ H]]%lookup_insert_Some; eauto.
Qed.

Lemma framed_same c els : entries_in c -> framed c (mkCluster (c_nodes c) els (c_msgs c)).
Proof. intros [I1 I2]. split; [by split|]. cbn. eauto. Qed.

Lemma GetEntriesFrom_in i l es : Log_GetEntriesFrom i l = Ok es -> Forall P (rl_entries l) -> Forall P es.
Proof.
  unfold Log_GetEntriesFrom. destruct (_ || _); [by intros [= <-]|].
  intros (first & _ & (lst & _ & H)%res_bind_Ok)%res_bind_Ok Hl. revert H.
  destruct (_ <? _); [by intros [= <-]|]. unfold entries_from. destruct (_ && _); [|done]. intros [= <-]. by apply Forall_drop.
Qed.

Lemma replicateTo_sends p n args n' : replicateTo p n = (Ok (Some args), n') -> Forall P (entries n) -> Forall P (aa_Entries args).
Proof.
  unfold replicateTo. mrun. destruct (negb _); [done|]. intros E Hn.
  apply M_bind_Ok in E as ([pi pt] & n1 & _ & E). apply M_bind_Ok in E as (es & n2 & [= E ->] & [= <- _]). by eapply GetEntriesFrom_in.
Qed.

Lemma deliver_frame m io c c' : m ∈ c_msgs c -> entries_in c -> deliver m io c = Some c' -> framed c c'.
Proof.
  intros Hm Hin. destruct m as [src a args|p a args reply|src a args|p a args reply]; cbn [deliver].
  - intros (n & Hn & H)%bind_Some. destruct (handleRequestVote io args n) as [x n'] eqn:E. injection H as <-.
    eapply framed_insert; [done..|by eapply frame_handleRequestVote|]. intros s d g.
    rewrite elem_of_app. intros [Hs|Hs]; [|by left]. destruct x; cbn in Hs; set_solver.
  - intros (e & He & (ph & Hph & (n & Hn & H)%bind_Some)%bind_Some)%bind_Some. destruct ph; try done.
    destruct (vote_reply _ reply n) as [x n'] eqn:E. injection H as <-.
    eapply framed_insert; [done..|by eapply frame_vote_reply|by left].
  - intros (n & Hn & H)%bind_Some. destruct (handleAppendEntries io args n) as [x n'] eqn:E. injection H as <-.
    eapply framed_insert; [done..|eapply frame_handleAppendEntries; [|done]; by eapply in_msgs|]. intros s d g.
    rewrite elem_of_app. intros [Hs|Hs]; [|by left]. destruct x; cbn in Hs; set_solver.
  - intros (n & Hn & H)%bind_Some. destruct (append_reply _ p args reply n) as [x n'] eqn:E. injection H as <-.
    eapply framed_insert; [done..|by eapply frame_append_reply|by left].
Qed.

Lemma exec_frame ev c c' : protocol ev -> entries_in c -> exec ev c = Some c' -> framed c c'.
Proof.
  intros Hev Hin. destruct ev as [a io|i io|a T p|a T p|a p|a cmd data|a|a|a|a io k]; cbn [exec protocol] in *; unfold local; try done.
  - intros (n & Hn & H)%bind_Some. destruct (_ <? _); [|done].
    destruct (startElection _ n) as [x n'] eqn:E. injection H as <-. eapply framed_insert; [done..|by eapply frame_startElection|].
    intros s d g. rewrite elem_of_app. intros [Hs|Hs]; [|by left]. destruct x; cbn in Hs; [|set_solver..].
    by apply list_elem_of_fmap in Hs as (q & Hq & _).
  - intros (m & Hm%list_elem_of_lookup_2 & H)%bind_Some. by eapply deliver_frame.
  - intros (e & He & (ph & Hph & H)%bind_Some)%bind_Some. destruct ph; try done. injection H as <-. by apply framed_same.
  - intros (e & He & (ph & Hph & (n & Hn & H)%bind_Some)%bind_Some)%bind_Some. destruct ph; try done. injection H as <-.
    eapply framed_insert; [done..|eapply frame_vote_won, surjective_pairing|by left].
  - intros (n & Hn & H)%bind_Some. case_bool_decide; [|done]. destruct (replicateTo p n) as [x n'] eqn:E. injection H as <-.
    eapply framed_insert; [done..|by eapply frame_replicateTo|]. intros s d g.
    rewrite elem_of_app. intros [Hs|Hs]; [|by left]. right. destruct x as [[args|]| | |]; cbn in Hs; try set_solver.
    apply list_elem_of_singleton in Hs as [= _ _ ->]. eapply replicateTo_sends; [done|]. by eapply in_logs.
  - intros (n & Hn & H)%bind_Some. destruct (_ && _); [|done]. rewrite Hn in H. injection H as <-.
    eapply framed_insert; [done..|by eapply frame_Propose, surjective_pairing|by left].
  - intros (n & Hn & H)%bind_Some. destruct (r_applying n); [done|]. destruct (r_commitCh n); [|done].
    rewrite Hn in H. injection H as <-. eapply framed_insert; [done..|eapply frame_apply_begin, surjective_pairing|by left].
Qed.
End frame.

(** ** The content of a log *)

Definition contents_of (es : list LogEntry) : gmap bytes (option bytes) := write_all (es ≫= entry_writes) ∅.

Lemma write_all_out ws m k : k ∉ ws.*1 -> write_all ws m !! k = m !! k.
Proof.
  revert m. induction ws as [|[k' v] ws IH]; intros m Hk; [done|]. cbn in Hk. apply not_elem_of_cons in Hk as [Hne Hk].
  cbn. rewrite IH by done. by apply lookup_insert_ne.
Qed.

Lemma write_all_in ws m1 m2 k : k ∈ ws.*1 -> write_all ws m1 !! k = write_all ws m2 !! k.
Proof.
  induction ws as [|[k' v] ws IH] using rev_ind; [by intros ?%not_elem_of_nil|].
  rewrite fmap_app, !write_all_app. intros [Hk|Hk]%elem_of_app; cbn in *.
  - unfold write1. destruct (decide (k' = k)) as [-> |Hne]; [by rewrite !lookup_insert_eq|]. rewrite !lookup_insert_ne by done. auto.
  - apply list_elem_of_singleton in Hk as ->. unfold write1. cbn. by rewrite !lookup_insert_eq.
Qed.

(** Writes that a later list overwrites have no effect. *)
Lemma write_all_again ws0 ws m : ws0.*1 ⊆ ws.*1 -> write_all ws (write_all ws0 m) = write_all ws m.
Proof.
  intros Hsub. apply map_eq. intros k. destruct (decide (k ∈ ws.*1)) as [Hk|Hk]; [by apply write_all_in|].
  rewrite !write_all_out; try done. intros H. apply Hk, Hsub, H.
Qed.

(** What was applied before the last start, in time order. *)
Definition before (h : list (list LogEntry)) : list LogEntry := concat (reverse (tail h)).
Definition current (h : list (list LogEntry)) : list LogEntry := match h with [] => [] | seg :: _ => seg end.

(** The node has applied again at least as many entries as before any of its
    restarts. *)
Definition caught_up (h : list (list LogEntry)) : Prop := Forall (fun seg => (length seg <= length (current h))%nat) (tail h).

Lemma writes_keys (es es' : list LogEntry) : es ⊆ es' -> (es ≫= entry_writes).*1 ⊆ (es' ≫= entry_writes).*1.
Proof.
  intros Hsub k (kv & -> & Hkv)%list_elem_of_fmap. apply list_elem_of_bind in Hkv as (e & Hkv & He).
  apply list_elem_of_fmap. exists kv. split; [done|]. apply list_elem_of_bind. eauto.
Qed.

(** Applying the log again from the start restores its content. *)
Lemma contents_again h :
  (forall seg, seg ∈ tail h -> seg `prefix_of` current h) -> contents_of (before h ++ current h) = contents_of (current h).
Proof.
  intros Hp. unfold contents_of. rewrite bind_app, write_all_app. apply write_all_again, writes_keys.
  intros e He. unfold before in He. apply list_elem_of_In, in_concat in He as (seg & Hseg & He).
  apply list_elem_of_In in Hseg, He. rewrite elem_of_reverse in Hseg.
  destruct (Hp seg Hseg) as [q ->]. apply elem_of_app. by left.
Qed.

(** ** The system *)

(** The Raft instances and, for each node, its engine and where its flush
    and compaction goroutines stand. *)
Record Store := mkStore {
  so_raft : Cluster;
  so_eng : bytes -> cstate
}.

(** For each node, the entries it applied since each of its starts, the
    current one first. *)
Abbreviation history := (bytes -> list (list LogEntry)).

(** The engine can take an operation: the flush channel has room, the log
    rotates without a fault, numbers do not overflow. *)
Definition ready (io : IO) (e : Engine) : Prop :=
  (length (e_flushCh e) < flushCh_cap)%nat /\ io_rotate io = Opened [] /\ w_fileID (e_wal e) + 1 < 2 ^ 64.

Inductive replicated (addrs : list bytes) (id : bytes -> bytes) : Store -> history -> Prop :=
| rep_boot eng :
    (forall a, exists coins, Engine_Open (open_ok coins) empty_disk node_opts = Ok (eng a)) ->
    replicated addrs id (mkStore (boot addrs id) (fun a => (eng a, FIdle, CIdle))) (fun _ => [[]])
| rep_event c eng h ev c' :
    replicated addrs id (mkStore c eng) h -> protocol entry_ok ev -> healthy_io (event_io ev) -> exec ev c = Some c' ->
    replicated addrs id (mkStore c' eng) h
| rep_deliver c eng h a c' :
    replicated addrs id (mkStore c eng) h -> exec (EvApplyOne a) c = Some c' -> replicated addrs id (mkStore c' eng) h
| rep_apply c eng h a n entry ch e pc cp io x n' e' :
    replicated addrs id (mkStore c eng) h -> c_nodes c !! a = Some n -> r_applyCh n = entry :: ch -> eng a = (e, pc, cp) -> ready io e ->
    engineApply io (mkNode n (Some e) false) = (x, mkNode n' (Some e') false) ->
    replicated addrs id (mkStore (mkCluster (<[a:=n']> (c_nodes c)) (c_elections c) (c_msgs c)) (<[a:=(e', pc, cp)]> eng))
      (<[a:=(current (h a) ++ [entry]) :: tail (h a)]> h)
| rep_flush c eng h a lab e pc cp e' pc' :
    replicated addrs id (mkStore c eng) h -> eng a = (e, pc, cp) -> label_ok e lab -> (forall o, lab <> LOp o) ->
    (forall m, estep lab (e, pc) m (e', pc') m) ->
    replicated addrs id (mkStore c (<[a:=(e', pc', cp)]> eng)) h
| rep_compact c eng h a st :
    replicated addrs id (mkStore c eng) h -> cstep (eng a) st -> replicated addrs id (mkStore c (<[a:=st]> eng)) h
| rep_restart c eng h a io k extra coins nm nt nw e' c' :
    replicated addrs id (mkStore c eng) h -> healthy_io io -> exec (EvRestart a io k) c = Some c' -> unfinished (eng a).1.1 extra ->
    Engine_Open (open_ok coins) (disk_crash nm nt nw (Engine_disk (with_tables extra (eng a).1.1))) node_opts = Ok e' ->
    replicated addrs id (mkStore c' (<[a:=(e', FIdle, CIdle)]> eng)) (<[a:=[] :: h a]> h).

(** *** Its invariant *)

(** A segment is a prefix of what some node knew to be committed. *)
Definition seg_ok (tr : list Cluster) (seg : list LogEntry) : Prop :=
  exists c b n, c ∈ tr /\ c_nodes c !! b = Some n /\ Z.of_nat (length seg) <= r_commitIndex n /\ seg `prefix_of` entries n.

Definition levels : nat := 6.

Record node_inv (tr : list Cluster) (n : Raft) (st : cstate) (h : list (list LogEntry)) : Prop := {
  no_hist : h <> [];
  no_current : current h ++ r_applyCh n = take (Z.to_nat (r_lastApplied n)) (entries n);
  no_segs : Forall (seg_ok tr) h;
  no_eng : sysc levels st.1.1 st.1.2 st.2 (contents_of (before h ++ current h))
}.

Record rep_inv (addrs : list bytes) (id : bytes -> bytes) (s : Store) (h : history) (tr : list Cluster) : Prop := {
  re_trace : trace healthy_io (boot addrs id) (so_raft s :: tr);
  re_entries : entries_in entry_ok (so_raft s);
  re_nodes : forall a n, c_nodes (so_raft s) !! a = Some n -> node_inv (so_raft s :: tr) n (so_eng s a) (h a)
}.

Lemma seg_ok_cons tr c seg : seg_ok tr seg -> seg_ok (c :: tr) seg.
Proof. intros (c1 & b & n & Hc & ?). exists c1, b, n. split; [by right|done]. Qed.

Lemma node_inv_cons tr c n n' eng h :
  node_inv tr n eng h -> r_applyCh n' = r_applyCh n ->
  take (Z.to_nat (r_lastApplied n')) (entries n') = take (Z.to_nat (r_lastApplied n)) (entries n) -> node_inv (c :: tr) n' eng h.
Proof.
  intros [N1 N2 N3 N4] Hch Htake. split; [done|by rewrite Hch, Htake| |done]. eapply Forall_impl; [exact N3|]. intros seg. apply seg_ok_cons.
Qed.

Section replicated.
Context (addrs : list bytes) (id : bytes -> bytes).
Hypothesis Hconfig : config_ok addrs id.

Lemma run_sys c tr : trace healthy_io (boot addrs id) (c :: tr) -> sys addrs id (c :: tr) c.
Proof using Hconfig.
  destruct Hconfig as (Haddrs & Hinj & Hid). intros Htr.
  by destruct (sys_trace addrs id Haddrs Hinj Hid _ _ eq_refl Htr) as (c' & [= <-] & Hsys).
Qed.

Lemma agree_take (L1 L2 : list LogEntry) i j k :
  agree (take i L1) (take j L2) -> (k <= i)%nat -> (k <= j)%nat -> (i <= length L1)%nat -> (j <= length L2)%nat -> take k L1 = take k L2.
Proof.
  intros Hag Hi Hj Hl1 Hl2. apply list_eq_same_length with (n := k); [rewrite length_take; lia..|].
  intros l x y Hl Hx Hy. apply lookup_take_Some in Hx as [Hx _], Hy as [Hy _]. eapply (Hag l); rewrite lookup_take_lt by lia; done.
Qed.

(** What a node applied stays at the start of its log. *)
Lemma applied_stable c c' tr a n n' :
  trace healthy_io (boot addrs id) (c' :: c :: tr) -> c_nodes c !! a = Some n -> c_nodes c' !! a = Some n' ->
  forall k, (k <= Z.to_nat (r_lastApplied n))%nat -> (k <= Z.to_nat (r_lastApplied n'))%nat -> take k (entries n') = take k (entries n).
Proof using Hconfig.
  intros Htr Hn Hn' k Hk Hk'. pose proof (run_sys _ _ Htr) as Hsys.
  destruct (sy_nodes _ _ _ _ Hsys c a n) as [[C1 C1'] C2 _ _ _ _]; [right; left|done|].
  destruct (sy_nodes _ _ _ _ Hsys c' a n') as [[D1 D1'] D2 _ _ _ _]; [left|done|].
  eapply agree_take; [eapply (ci_unique addrs id); [exact Hsys|by split|by split]|..]; unfold len in *; lia.
Qed.

Lemma trace_exec ev c c' tr :
  trace healthy_io (boot addrs id) (c :: tr) -> healthy_io (event_io ev) -> exec ev c = Some c' ->
  trace healthy_io (boot addrs id) (c' :: c :: tr).
Proof. intros Htr Hio E. eapply trace_step; [done|]. by eapply exec_step. Qed.

Lemma rep_inv_event c eng h ev c' tr :
  rep_inv addrs id (mkStore c eng) h tr -> protocol entry_ok ev -> healthy_io (event_io ev) -> exec ev c = Some c' ->
  rep_inv addrs id (mkStore c' eng) h (c :: tr).
Proof using Hconfig.
  intros [R1 R2 R3] Hev Hio E. pose proof (trace_exec _ _ _ _ R1 Hio E) as Htr.
  destruct (exec_frame entry_ok ev c c' Hev R2 E) as [Hin Hsame]. split; [done..|]. cbn in *.
  intros a n' Hn'. destruct (Hsame a n' Hn') as (n & Hn & Hla & Hch). eapply node_inv_cons; [by apply R3|done|].
  rewrite Hla. eapply applied_stable; [done..|lia|lia].
Qed.

Lemma rep_inv_deliver c eng h a c' tr :
  rep_inv addrs id (mkStore c eng) h tr -> exec (EvApplyOne a) c = Some c' -> rep_inv addrs id (mkStore c' eng) h (c :: tr).
Proof using Hconfig.
  intros [R1 R2 R3] E. pose proof (trace_exec (EvApplyOne a) _ _ _ R1 healthy_ok E) as Htr. cbn [so_raft so_eng] in *.
  pose proof (run_sys _ _ R1) as Hsys. revert E. cbn [exec]. unfold local. intros (n & Hn & [= <-])%bind_Some.
  destruct (apply_one n) as [x n'] eqn:E. cbn [snd] in *. pose proof (lg_node _ _ _ _ (sy_logs _ _ _ _ Hsys) _ _ Hn) as [Hok _].
  destruct (sy_nodes _ _ _ _ Hsys c a n) as [C1 C2 C3 _ _ _]; [left|done|].
  destruct (apply_one_logs n x n' Hok) as (L1 & _ & _ & _ & Hcase); [|done|].
  { intros i k Hik. destruct (C3 i k Hik). lia. }
  split; cbn; [done| |].
  { split; cbn; [|apply R2]. intros b m [[<- <-]|[_ H]]%lookup_insert_Some; [rewrite L1|]; by eapply (in_logs _ _ R2). }
  intros b m [[<- <-]|[_ H]]%lookup_insert_Some; [|by eapply node_inv_cons; [apply R3| |]].
  destruct (R3 a n Hn) as [N1 N2 N3 N4].
  destruct Hcase as [(A1 & A2 & _)|(i & k & e & Hik & _ & He & A1 & A2 & _)].
  - eapply node_inv_cons; [by apply R3|done|]. by rewrite A1, L1.
  - split; [done| |eapply Forall_impl; [exact N3|]; intros seg; apply seg_ok_cons|done].
    destruct (C3 i k Hik) as [-> _]. apply at_index_lookup in He as [Hlt He]. rewrite A1, A2, L1, (assoc_L (++)), N2.
    replace (Z.to_nat (r_lastApplied n + 1)) with (S (Z.to_nat (r_lastApplied n))) by lia.
    replace (r_lastApplied n + 1 - 1) with (r_lastApplied n) in He by lia. by rewrite (take_S_r _ _ _ He).
Qed.

(** A received entry is applied as its operation, which succeeds. *)
Lemma engineApply_ok io n e pc cp m entry ch :
  sysc levels e pc cp m -> entry_ok entry -> ready io e -> r_applyCh n = entry :: ch ->
  exists e', engineApply io (mkNode n (Some e) false) = (Ok true, mkNode (set_applied (r_lastApplied n) ch n) (Some e') false) /\
    sysc levels e' pc cp (write_all (entry_writes entry) m).
Proof.
  intros Hinv (cmd & Ecmd & Hcmd) (Hroom & Hrot & Hid) Hch. destruct (command_op_ok io cmd Hcmd) as (Hcl & Hfit & Hp).
  pose proof (sys_op_ok _ _ _ _ _ (sysc_inv _ _ _ _ _ Hinv) Hcl Hfit Hp) as Hr. destruct (eop_run (command_op io cmd) e) as [r e'] eqn:Er. cbn in Hr. subst r.
  exists e'. split.
  - unfold engineApply. mrun. cbn [nd_raft]. rewrite Hch. rewrite (M_bind_run _ _ _ tt (mkNode (set_applied (r_lastApplied n) ch n) (Some e) false)) by done.
    rewrite (M_bind_run _ _ _ tt (mkNode (set_applied (r_lastApplied n) ch n) (Some e') false)); [done|].
    unfold on_eng. cbn [nd_eng]. rewrite (applyEntry_op io entry cmd e Ecmd). unfold ignore. by rewrite Er.
  - unfold entry_writes. rewrite Ecmd, <- (command_op_writes io). refine (sysc_op _ _ _ _ _ _ (Ok tt) _ Hinv _ Hcl Hroom Er).
    split_and!; [done|by rewrite command_op_io|done].
Qed.

Lemma rep_inv_apply c eng h a n entry ch e pc cp io x n' e' tr :
  rep_inv addrs id (mkStore c eng) h tr -> c_nodes c !! a = Some n -> r_applyCh n = entry :: ch -> eng a = (e, pc, cp) -> ready io e ->
  engineApply io (mkNode n (Some e) false) = (x, mkNode n' (Some e') false) ->
  rep_inv addrs id (mkStore (mkCluster (<[a:=n']> (c_nodes c)) (c_elections c) (c_msgs c)) (<[a:=(e', pc, cp)]> eng))
    (<[a:=(current (h a) ++ [entry]) :: tail (h a)]> h) (c :: tr).
Proof using Hconfig.
  intros [R1 R2 R3] Hn Hch He Hready E. cbn [so_raft so_eng] in *. destruct (R3 a n Hn) as [N1 N2 N3 N4]. rewrite He in N4. cbn in N4.
  pose proof (run_sys _ _ R1) as Hsys. destruct (sy_nodes _ _ _ _ Hsys c a n) as [C1 C2 _ _ _ _]; [left|done|].
  pose proof (in_logs _ _ R2 a n Hn) as Hlog. rewrite Hch in N2.
  assert (entry_ok entry) as Hok.
  { rewrite Forall_forall in Hlog. apply Hlog. eapply (subseteq_take (Z.to_nat (r_lastApplied n))). rewrite <- N2. set_solver. }
  destruct (engineApply_ok io n e pc cp _ entry ch N4 Hok Hready Hch) as (e1 & E1 & Hinv). rewrite E1 in E. injection E as <- <- <-.
  assert (exec (EvConsume a) c = Some (mkCluster (<[a:=set_applied (r_lastApplied n) ch n]> (c_nodes c)) (c_elections c) (c_msgs c))) as Eex.
  { cbn [exec]. rewrite Hn. cbn. by rewrite Hch. }
  pose proof (trace_exec (EvConsume a) _ _ _ R1 healthy_ok Eex) as Htr. split; cbn [so_raft so_eng]; [done| |].
  { split; cbn; [|apply R2]. intros b m [[<- <-]|[_ H]]%lookup_insert_Some; [exact (in_logs _ _ R2 a n Hn)|exact (in_logs _ _ R2 b m H)]. }
  cbn [c_nodes]. intros b m [[<- <-]|[Hne H]]%lookup_insert_Some.
  2: { rewrite !fn_lookup_insert_ne by done. by eapply node_inv_cons; [apply R3| |]. }
  rewrite !fn_lookup_insert. destruct (h a) as [|cur past]; [done|]. cbn [current tail] in *. apply Forall_cons in N3 as [N3 N3'].
  split; [done|cbn; by rewrite <- (assoc_L (++))| |].
  - constructor.
    + exists c, a, n. split_and!; [right; left|done| |].
      * assert (length (cur ++ [entry]) <= Z.to_nat (r_lastApplied n))%nat; [|lia].
        apply (f_equal length) in N2. rewrite length_app, length_take in N2. rewrite length_app. cbn [length] in *. lia.
      * exists (ch ++ drop (Z.to_nat (r_lastApplied n)) (entries n)). by rewrite <- (take_drop (Z.to_nat (r_lastApplied n)) (entries n)) at 1; rewrite <- N2, <- !(assoc_L (++)).
    + eapply Forall_impl; [exact N3'|]. intros seg. apply seg_ok_cons.
  - cbn [fst snd current]. unfold before in *. cbn [tail] in *. unfold contents_of in *.
    rewrite (assoc_L (++)), bind_app, write_all_app. unfold before in Hinv. cbn [tail] in Hinv. cbn. by rewrite app_nil_r.
Qed.

Lemma rep_inv_flush c eng h a lab e pc cp e' pc' tr :
  rep_inv addrs id (mkStore c eng) h tr -> eng a = (e, pc, cp) -> label_ok e lab -> (forall m, estep lab (e, pc) m (e', pc') m) ->
  rep_inv addrs id (mkStore c (<[a:=(e', pc', cp)]> eng)) h tr.
Proof.
  intros [R1 R2 R3] He Hok Hst. cbn [so_raft so_eng] in *. split; [done..|]. cbn. intros b n Hn. pose proof (R3 b n Hn) as [N1 N2 N3 N4].
  destruct (decide (a = b)) as [<- |Hne]; [|by rewrite fn_lookup_insert_ne].
  rewrite fn_lookup_insert. split; [done..|]. rewrite He in N4. by eapply sysc_step.
Qed.

Lemma rep_inv_compact c eng h a st tr :
  rep_inv addrs id (mkStore c eng) h tr -> cstep (eng a) st -> rep_inv addrs id (mkStore c (<[a:=st]> eng)) h tr.
Proof.
  intros [R1 R2 R3] Hst. cbn [so_raft so_eng] in *. split; [done..|]. cbn. intros b n Hn. pose proof (R3 b n Hn) as [N1 N2 N3 N4].
  destruct (decide (a = b)) as [<- |Hne]; [|by rewrite fn_lookup_insert_ne].
  rewrite fn_lookup_insert. split; [done..|]. by eapply cstep_sys.
Qed.

Lemma restart_logs c tr a n io k n' :
  trace healthy_io (boot addrs id) (c :: tr) -> c_nodes c !! a = Some n -> healthy_io io ->
  NewRaft (Ok tt) (rio_open io) (Ok (r_addr n)) None (r_nodeID n) (r_peers n) (crash k (rl_file (r_log n))) (r_stateFile n) = Ok n' ->
  entries n' = entries n /\ r_lastApplied n' = 0 /\ r_applyCh n' = [].
Proof using Hconfig.
  intros Htr Hn (_ & _ & Hio) E. rewrite Hio in E. pose proof (run_sys _ _ Htr) as Hsys. destruct Hconfig as (_ & _ & Hid).
  pose proof (lg_node _ _ _ _ (sy_logs _ _ _ _ Hsys) _ _ Hn) as [Hok _].
  destruct (vo_nodes _ _ _ _ (inv_votes _ _ _ _ (sy_inv _ _ _ _ Hsys)) _ _ Hn) as [_ _ N3 N4 N5 _].
  assert (role_fits n) as Hfit.
  { split; [done|]. destruct N5 as [-> |(b & Hb & ->)]; [done|by apply Hid]. }
  destruct (NewRaft_logs _ _ _ Hok N3 Hfit E) as (_ & He & _ & L3 & L4 & _). done.
Qed.

Lemma rep_inv_restart c eng h a io k extra coins nm nt nw e' c' tr :
  rep_inv addrs id (mkStore c eng) h tr -> healthy_io io -> exec (EvRestart a io k) c = Some c' -> unfinished (eng a).1.1 extra ->
  Engine_Open (open_ok coins) (disk_crash nm nt nw (Engine_disk (with_tables extra (eng a).1.1))) node_opts = Ok e' ->
  rep_inv addrs id (mkStore c' (<[a:=(e', FIdle, CIdle)]> eng)) (<[a:=[] :: h a]> h) (c :: tr).
Proof using Hconfig.
  intros [R1 R2 R3] Hio Eex Hx Eop. pose proof (trace_exec (EvRestart a io k) _ _ _ R1 Hio Eex) as Htr. cbn [so_raft so_eng] in *.
  revert Eex. cbn [exec]. intros (n & Hn & H)%bind_Some. destruct (NewRaft _ _ _ _ _ _ _ _) as [n'| | |] eqn:E; try done. injection H as <-.
  destruct (restart_logs c tr a n io k n' R1 Hn Hio E) as (He & Hla & Hch). destruct (R3 a n Hn) as [N1 N2 N3 N4].
  split; cbn [so_raft so_eng]; [done| |].
  { split; cbn; [|apply R2]. intros b m [[<- <-]|[_ H]]%lookup_insert_Some; [rewrite He|]; by eapply (in_logs _ _ R2). }
  cbn [c_nodes]. intros b m [[<- <-]|[Hne H]]%lookup_insert_Some.
  2: { rewrite !fn_lookup_insert_ne by done. by eapply node_inv_cons; [apply R3| |]. }
  rewrite !fn_lookup_insert. split; [done|by rewrite Hla, Hch| |].
  - constructor; [|eapply Forall_impl; [exact N3|]; intros seg; apply seg_ok_cons]. exists c, a, n.
    destruct (sy_nodes _ _ _ _ (run_sys _ _ R1) c a n) as [_ C2 _ _ _ _]; [left|done|].
    split_and!; [right; left|done|cbn; lia|apply prefix_nil].
  - destruct (sys_recover_tables levels _ _ _ extra node_opts coins nm nt nw (sysc_inv _ _ _ _ _ N4) Hx eq_refl) as (e1 & E1 & Hinv). rewrite Eop in E1. injection E1 as <-.
    cbn [fst snd current]. rewrite app_nil_r. unfold before in *. cbn [tail].
    destruct (h a) as [|cur past]; [done|]. cbn [current tail] in *. rewrite reverse_cons, concat_app. cbn [concat]. by rewrite app_nil_r.
Qed.

Lemma rep_inv_boot eng :
  (forall a, exists coins, Engine_Open (open_ok coins) empty_disk node_opts = Ok (eng a)) ->
  rep_inv addrs id (mkStore (boot addrs id) (fun a => (eng a, FIdle, CIdle))) (fun _ => [[]]) [].
Proof.
  intros Heng. split; cbn [so_raft so_eng]; [constructor| |].
  - split; [|by intros ? ? ? ?%not_elem_of_nil]. intros a n [_ ->]%boot_nodes. constructor.
  - intros a n Hn. pose proof Hn as [_ ->]%boot_nodes. split; [done|done| |].
    + constructor; [|done]. exists (boot addrs id), a, (fresh_node addrs id a). split_and!; [left|done|done|apply prefix_nil].
    + destruct (Heng a) as [coins E]. destruct (Engine_Open_new coins node_opts) as (n & w & E' & Hw & Hn').
      rewrite E in E'. injection E' as ->. assert (n = levels) as -> by (cbn in Hn'; unfold levels; lia).
      cbn. by eapply sys_new.
Qed.

Lemma replicated_inv s h : replicated addrs id s h -> exists tr, rep_inv addrs id s h tr.
Proof using Hconfig.
  induction 1 as [eng Heng|c eng h ev c' _ [tr IH] Hev Hio E|c eng h a c' _ [tr IH] E
    |c eng h a n entry ch e pc cp io x n' e' _ [tr IH] Hn Hch He Hr E|c eng h a lab e pc cp e' pc' _ [tr IH] He Hok _ Hst
    |c eng h a st _ [tr IH] Hst    |c eng h a io k extra coins nm nt nw e' c' _ [tr IH] Hio E Hx Eop].
  - exists []. by apply rep_inv_boot.
  - exists (c :: tr). by eapply rep_inv_event.
  - exists (c :: tr). by eapply rep_inv_deliver.
  - exists (c :: tr). by eapply rep_inv_apply.
  - exists tr. by eapply rep_inv_flush.
  - exists tr. by apply rep_inv_compact.
  - exists (c :: tr). by eapply rep_inv_restart.
Qed.

(** Segments of any two nodes are prefixes of one sequence. *)
Lemma segs_comparable c tr s1 s2 :
  trace healthy_io (boot addrs id) (c :: tr) -> seg_ok (c :: tr) s1 -> seg_ok (c :: tr) s2 ->
  (length s1 <= length s2)%nat -> s1 `prefix_of` s2.
Proof using Hconfig.
  intros Htr (c1 & a & n1 & Hc1 & Hn1 & Hl1 & P1) (c2 & b & n2 & Hc2 & Hn2 & Hl2 & P2) Hle. pose proof (run_sys _ _ Htr) as Hsys.
  destruct (sy_nodes _ _ _ _ Hsys c1 a n1 Hc1 Hn1) as [[C1 C1'] _ _ _ _ _].
  destruct (sy_nodes _ _ _ _ Hsys c2 b n2 Hc2 Hn2) as [[D1 D1'] _ _ _ _ _].
  assert (take (length s1) (entries n1) = take (length s1) (entries n2)) as Heq.
  { eapply agree_take; [eapply (ci_unique addrs id); [exact Hsys|by split|by split]|..]; unfold len in *; lia. }
  destruct P1 as [q1 H1]. destruct P2 as [q2 H2]. rewrite H1, H2, take_app_length, take_app_le in Heq by done.
  exists (drop (length s1) s2). rewrite Heq at 1. by rewrite take_drop.
Qed.
End replicated.

(** C3. The replicas agree.  Take any run of a cluster of nodes with their
    engines: any network and scheduling of the nodes, flush stages and compactions
    at any time, and restarts, between two steps of a node or while its engine
    writes table files, which lose unsynced bytes of the log and of the engine's
    files and start to apply the log again.  In such a run proposed values are
    not empty ([entry_ok]), an entry is applied while the engine's flush channel
    has room ([ready]), L0 is compacted only while its tables share no key and no
    flush is between its manifest entry and its publication, files do not fail,
    and the file of a node's term and vote survives a restart as it was written
    (the code never syncs it; [raft_unwritten_vote_two_leaders] shows that election
    safety needs it).  Then an
    engine answers with the content
    of the entries its node applied, in that order;
    what two nodes applied since any of their starts are prefixes of one
    sequence; a node that has caught up with what it had applied before it was
    restarted answers with the content of that prefix, so nodes that have
    applied equally many entries give the same answers; and applying the next
    entry never fails or panics. *)
Theorem replicas_agree :
  forall (addrs : list bytes) (id : bytes -> bytes) (s : Store) (h : history) (a b : bytes) (na nb : Raft),
  config_ok addrs id -> replicated addrs id s h -> c_nodes (so_raft s) !! a = Some na -> c_nodes (so_raft s) !! b = Some nb ->
  (forall k, Engine_Get k (so_eng s a).1.1 = answer (contents_of (before (h a) ++ current (h a)) !! k)) /\
  (forall sa sb, sa ∈ h a -> sb ∈ h b -> sa `prefix_of` sb \/ sb `prefix_of` sa) /\
  (caught_up (h a) -> forall k, Engine_Get k (so_eng s a).1.1 = answer (contents_of (current (h a)) !! k)) /\
  (caught_up (h a) -> caught_up (h b) -> length (current (h a)) = length (current (h b)) ->
     forall k, Engine_Get k (so_eng s a).1.1 = Engine_Get k (so_eng s b).1.1) /\
  (forall io entry ch, r_applyCh na = entry :: ch -> ready io (so_eng s a).1.1 ->
     exists node, engineApply io (mkNode na (Some (so_eng s a).1.1) false) = (Ok true, node)).
Proof.
  intros addrs id s h a b na nb Hconfig Hrep Ha Hb. destruct (replicated_inv addrs id Hconfig s h Hrep) as [tr [R1 R2 R3]].
  assert (forall s1 s2, seg_ok (so_raft s :: tr) s1 -> seg_ok (so_raft s :: tr) s2 -> (length s1 <= length s2)%nat -> s1 `prefix_of` s2) as Hcmp.
  { intros s1 s2. by apply (segs_comparable addrs id Hconfig). }
  assert (forall z nz, c_nodes (so_raft s) !! z = Some nz ->
    (forall k, Engine_Get k (so_eng s z).1.1 = answer (contents_of (before (h z) ++ current (h z)) !! k)) /\
    (caught_up (h z) -> forall k, Engine_Get k (so_eng s z).1.1 = answer (contents_of (current (h z)) !! k))) as Hget.
  { intros z nz Hz. destruct (R3 z nz Hz) as [N1 N2 N3 N4]. rewrite Forall_forall in N3.
    assert (forall k, Engine_Get k (so_eng s z).1.1 = answer (contents_of (before (h z) ++ current (h z)) !! k)) as Hg.
    { intros k. by eapply sys_get, sysc_inv. }
    split; [done|]. intros Hup k. rewrite Hg, contents_again; [done|]. intros seg Hseg. destruct (h z) as [|cur past]; [done|].
    apply Hcmp; [by apply N3; right|apply N3; left|]. unfold caught_up in Hup. rewrite Forall_forall in Hup. by apply Hup. }
  destruct (R3 a na Ha) as [N1 N2 N3 N4]. destruct (R3 b nb Hb) as [M1 M2 M3 M4]. rewrite Forall_forall in N3, M3. split_and!.
  - apply (Hget a na Ha).
  - intros sa sb Hsa Hsb. destruct (Nat.le_ge_cases (length sa) (length sb)); [left|right]; apply Hcmp; auto.
  - apply (Hget a na Ha).
  - intros Hua Hub Hlen k. rewrite (proj2 (Hget a na Ha) Hua), (proj2 (Hget b nb Hb) Hub).
    assert (current (h a) = current (h b)) as ->; [|done]. destruct (h a) as [|ca pa]; [done|]. destruct (h b) as [|cb pb]; [done|].
    cbn [current] in *. apply prefix_length_eq; [|lia]. apply Hcmp; [apply N3; left|apply M3; left|lia].
  - intros io entry ch Hch Hready. rewrite Hch in N2.
    assert (entry_ok entry) as Hok.
    { pose proof (in_logs _ _ R2 a na Ha) as Hlog. rewrite Forall_forall in Hlog. apply Hlog.
      eapply (subseteq_take (Z.to_nat (r_lastApplied na))). rewrite <- N2. apply elem_of_app. right. left. }
    destruct (engineApply_ok io na _ _ _ _ entry ch N4 Hok Hready Hch) as (e' & E & _). eauto.
Qed.

(** *** A run *)

(** Events that do not touch the engines. *)
Definition raft_only (ev : event) : Prop :=
  match ev with EvApplyOne _ => True | _ => protocol entry_ok ev /\ healthy_io (event_io ev) end.

Lemma rep_events addrs id eng h evs c tr c' tr' :
  replicated addrs id (mkStore c eng) h -> Forall raft_only evs -> run evs (c :: tr) = Some (c' :: tr') ->
  replicated addrs id (mkStore c' eng) h.
Proof.
  intros Hrep Hevs. revert c tr Hrep. induction Hevs as [|ev evs Hev Hevs IH]; intros c tr Hrep; [by intros [= <- _]|].
  cbn [run]. intros (c1 & E & Hrun)%bind_Some. eapply IH; [|exact Hrun].
  destruct ev; try (destruct Hev; by eapply rep_event). by eapply rep_deliver.
Qed.

(** Node a leads, commits a Put with b, and both deliver it. *)
Definition put_events : list event := elect_a ++
  [EvPropose [x61] CmdRaftPut (EncodePutCommand [x6b] [x76]); EvReplicate [x61] [x62]; EvDeliver 0 rio_ok; EvDeliver 0 rio_ok;
   EvReplicate [x61] [x62]; EvDeliver 0 rio_ok; EvApplyBegin [x61]; EvApplyOne [x61]; EvApplyBegin [x62]; EvApplyOne [x62]].

Definition put_entry : LogEntry := mkLogEntry 1 1 CmdRaftPut (EncodePutCommand [x6b] [x76]).
Definition node_engine : Engine :=
  match Engine_Open (open_ok (fun _ => [])) empty_disk node_opts with Ok e => e | _ => demo_open end.

Lemma put_events_ok : Forall raft_only put_events.
Proof.
  repeat constructor; try done. intros t i. exists (CPut [x6b] [x76]). split; [vm_compute; reflexivity|]. by split.
Qed.

(** The node and the engine after the entry is applied. *)
Definition applied_raft (n : Raft) : Raft := set_applied (r_lastApplied n) [] n.

(** The state after a and b applied an entry to engines in the same state. *)
Definition both_applied (c : Cluster) (e : Engine) : Store :=
  mkStore (mkCluster (<[[x62]:=applied_raft (node_of [x62] c)]> (<[[x61]:=applied_raft (node_of [x61] c)]> (c_nodes c))) (c_elections c) (c_msgs c))
    (<[[x62]:=((applyEntry demo_io put_entry e).2, FIdle, CIdle)]> (<[[x61]:=((applyEntry demo_io put_entry e).2, FIdle, CIdle)]> (fun _ => (e, FIdle, CIdle)))).

Definition put_store : Store := both_applied (last_state trio put_events) node_engine.

Definition put_history : history := <[[x62]:=[[put_entry]]]> (<[[x61]:=[[put_entry]]]> (fun _ => [[]])).

Lemma run_last c0 evs : runs c0 evs = true -> exists tr, run evs [c0] = Some (last_state c0 evs :: tr).
Proof. unfold last_state, runs. destruct (run evs [c0]) as [[|c tr]|]; try done. eauto. Qed.

Lemma engineApply_one io n e entry :
  r_applyCh n = [entry] -> (applyEntry io entry e).1 = Ok tt ->
  engineApply io (mkNode n (Some e) false) = (Ok true, mkNode (applied_raft n) (Some (applyEntry io entry e).2) false).
Proof.
  intros Hch E. unfold engineApply. mrun. cbn [nd_raft]. rewrite Hch. unfold on_eng, on_raft, modify, mbind, M_bind. cbn [nd_eng nd_raft nd_closed].
  destruct (applyEntry io entry e) as [r e']. cbn in E. by subst r.
Qed.

Lemma both_applied_ok c e :
  replicated three (fun a => a) (mkStore c (fun _ => (e, FIdle, CIdle))) (fun _ => [[]]) ->
  ready demo_io e -> (applyEntry demo_io put_entry e).1 = Ok tt ->
  c_nodes c !! [x61] = Some (node_of [x61] c) -> c_nodes c !! [x62] = Some (node_of [x62] c) ->
  r_applyCh (node_of [x61] c) = [put_entry] -> r_applyCh (node_of [x62] c) = [put_entry] ->
  replicated three (fun a => a) (both_applied c e) put_history.
Proof.
  intros H0 Hready Happ Ha Hb Hcha Hchb. unfold both_applied, put_history.
  pose proof (rep_apply _ _ _ _ _ [x61] _ put_entry [] _ _ _ demo_io _ _ _ H0 Ha Hcha eq_refl Hready (engineApply_one _ _ _ _ Hcha Happ)) as H1.
  refine (rep_apply _ _ _ _ _ [x62] (node_of [x62] c) put_entry [] e FIdle CIdle demo_io _ _ _ H1 _ Hchb _ Hready (engineApply_one _ _ _ _ Hchb Happ)).
  - cbn. by rewrite lookup_insert_ne.
  - by rewrite fn_lookup_insert_ne.
Qed.

Lemma put_delivered : replicated three (fun a => a) (mkStore (last_state trio put_events) (fun _ => (node_engine, FIdle, CIdle))) (fun _ => [[]]).
Proof.
  destruct (run_last trio put_events) as [tr Hrun]; [vm_compute; reflexivity|].
  eapply rep_events; [apply (rep_boot _ _ (fun _ => node_engine))|apply put_events_ok|exact Hrun].
  intros _. exists (fun _ => []). vm_compute. reflexivity.
Qed.

Lemma put_replicated : replicated three (fun a => a) put_store put_history.
Proof.
  apply both_applied_ok; [exact put_delivered|vm_compute; repeat constructor|vm_compute; reflexivity..].
Qed.

Lemma replicas_agree_witness :
  Engine_Get [x6b] (so_eng put_store [x61]).1.1 = Ok (Some [x76]) /\ Engine_Get [x6b] (so_eng put_store [x62]).1.1 = Ok (Some [x76]).
Proof.
  assert (forall b, b = [x61] \/ b = [x62] -> c_nodes (so_raft put_store) !! b = Some (applied_raft (node_of b (last_state trio put_events)))) as Hn.
  { intros b [-> | ->]; cbn; [rewrite lookup_insert_ne by done|]; apply lookup_insert_eq. }
  destruct (replicas_agree three (fun a => a) put_store put_history [x61] [x62] _ _ three_config put_replicated (Hn _ (or_introl eq_refl)) (Hn _ (or_intror eq_refl)))
    as (_ & _ & Ha & Hab & _).
  assert (Engine_Get [x6b] (so_eng put_store [x61]).1.1 = Ok (Some [x76])) as H1.
  { rewrite Ha; [vm_compute; reflexivity|]. constructor. }
  split; [exact H1|]. rewrite <- Hab; [exact H1|constructor|constructor|reflexivity].
Defined.
