(* ===== verification/Events.v ===== *)
(** * server/events.go: the event bus

    Subscribers are channels with room for 64 events; publishing never blocks
    and drops an event for a subscriber that is full.  Channels live in a
    store, so that a subscriber keeps its channel after it is removed from the
    bus. *)

From Stdlib Require Import SpecFloat.
From stdpp Require Import sets.
From S2P Require Import Prelude.

(** ** Values of [interface{}] *)

(** What the program publishes and sends as JSON. *)
#[warnings="-register-all"]
Inductive json :=
| JNull
| JBool (b : bool)
| JInt (z : Z)
| JFloat (f : spec_float)
| JStr (s : bytes)
| JArr (l : list json)
| JObj (fields : list (string * json)).

(** [Time] is in nanoseconds. *)
Record Event := mkEvent {
  ev_Type : string;
  ev_Data : json;
  ev_Time : Z
}.

(** ** Channels and the bus *)

Record chan := mkChan {
  ch_buf : list Event;
  ch_closed : bool
}.

Record EventBus := mkBus {
  eb_chans : list chan;
  eb_clients : list nat
}.

Definition NewEventBus : EventBus := mkBus [] [].

Definition chanRoom : nat := 64.

(** The new channel's name is its position in the store. *)
Definition Subscribe : M EventBus nat := fun b =>
  let ch := length (eb_chans b) in
  (Ok ch, mkBus (eb_chans b ++ [mkChan [] false]) (eb_clients b ++ [ch])).

(** Closing a closed channel panics. *)
Definition Unsubscribe (ch : nat) : M EventBus unit := fun b =>
  let clients := filter (fun c => c <> ch) (eb_clients b) in
  match eb_chans b !! ch with
  | Some c =>
      if ch_closed c then (Panic, mkBus (eb_chans b) clients)
      else (Ok tt, mkBus (<[ch:=mkChan (ch_buf c) true]> (eb_chans b)) clients)
  | None => (Panic, mkBus (eb_chans b) clients)
  end.

(** [select { case ch <- evt: default: }]; sending on a closed channel
    panics. *)
Definition publish_to (evt : Event) (ch : nat) : M EventBus unit := fun b =>
  match eb_chans b !! ch with
  | Some c =>
      if ch_closed c then (Panic, b)
      else if (length (ch_buf c) <? chanRoom)%nat then
        (Ok tt, mkBus (<[ch:=mkChan (ch_buf c ++ [evt]) false]> (eb_chans b)) (eb_clients b))
      else (Ok tt, b)
  | None => (Panic, b)
  end.

(** The order of the map's iteration does not matter. *)
Fixpoint publish_all (evt : Event) (chs : list nat) : M EventBus unit :=
  match chs with
  | [] => mret tt
  | ch :: chs => publish_to evt ch;; publish_all evt chs
  end.

(** [Publish] holds the lock for reading, so that nobody subscribes or leaves
    meanwhile; two publications at the same time, which might reach two
    subscribers in different orders, are taken one after the other. *)
Definition Publish (evt : Event) : M EventBus unit := fun b => publish_all evt (eb_clients b) b.

(** A subscriber receives: the next event, or [None] when the channel is closed
    and empty; the outer [None] when it would block. *)
Definition receive (ch : nat) (b : EventBus) : option (option Event * EventBus) :=
  c ← eb_chans b !! ch;
  match ch_buf c with
  | e :: buf => Some (Some e, mkBus (<[ch:=mkChan buf (ch_closed c)]> (eb_chans b)) (eb_clients b))
  | [] => if ch_closed c then Some (None, b) else None
  end.

(** ** Runs *)

(** For each channel, the events published while it was subscribed and the
    events its subscriber received; a subscriber leaves once, as
    [handleClusterEvents] does. *)
Record ledger := mkLedger {
  lg_offered : list Event;
  lg_received : list Event
}.

Inductive bus_run : EventBus -> list ledger -> Prop :=
| bus_new : bus_run NewEventBus []
| bus_subscribe b ls x b' : bus_run b ls -> Subscribe b = (x, b') -> bus_run b' (ls ++ [mkLedger [] []])
| bus_unsubscribe b ls ch x b' : bus_run b ls -> ch ∈ eb_clients b -> Unsubscribe ch b = (x, b') -> bus_run b' ls
| bus_publish b ls evt x b' :
    bus_run b ls -> Publish evt b = (x, b') ->
    bus_run b' (imap (fun ch l => if decide (ch ∈ eb_clients b) then mkLedger (lg_offered l ++ [evt]) (lg_received l) else l) ls)
| bus_receive b ls ch e b' :
    bus_run b ls -> receive ch b = Some (Some e, b') ->
    bus_run b' (alter (fun l => mkLedger (lg_offered l) (lg_received l ++ [e])) ch ls).

Record bus_inv (b : EventBus) (ls : list ledger) : Prop := {
  bi_len : length ls = length (eb_chans b);
  bi_nodup : NoDup (eb_clients b);
  bi_open : forall ch, ch ∈ eb_clients b -> exists c, eb_chans b !! ch = Some c /\ ch_closed c = false;
  bi_chan : forall ch c l, eb_chans b !! ch = Some c -> ls !! ch = Some l ->
    (length (ch_buf c) <= chanRoom)%nat /\ lg_received l ++ ch_buf c `sublist_of` lg_offered l /\
    ((length (lg_offered l) <= chanRoom)%nat -> lg_received l ++ ch_buf c = lg_offered l)
}.

(** What publishing does to each channel. *)
Lemma publish_all_ok evt chs b :
  NoDup chs -> (forall ch, ch ∈ chs -> exists c, eb_chans b !! ch = Some c /\ ch_closed c = false) ->
  exists b', publish_all evt chs b = (Ok tt, b') /\ eb_clients b' = eb_clients b /\ length (eb_chans b') = length (eb_chans b) /\
    (forall ch, ch ∉ chs -> eb_chans b' !! ch = eb_chans b !! ch) /\
    (forall ch c, ch ∈ chs -> eb_chans b !! ch = Some c ->
       eb_chans b' !! ch = Some (if (length (ch_buf c) <? chanRoom)%nat then mkChan (ch_buf c ++ [evt]) false else c)).
Proof.
  revert b. induction chs as [|ch chs IH]; intros b Hnd Hopen; cbn [publish_all].
  { exists b. split_and!; try done. by intros ch c ?%not_elem_of_nil. }
  apply NoDup_cons in Hnd as [Hni Hnd]. destruct (Hopen ch) as (c & Hc & Hcl); [left|].
  set (b1 := if (length (ch_buf c) <? chanRoom)%nat then mkBus (<[ch:=mkChan (ch_buf c ++ [evt]) false]> (eb_chans b)) (eb_clients b) else b).
  assert (publish_to evt ch b = (Ok tt, b1)) as E1.
  { unfold publish_to, b1. rewrite Hc, Hcl. by destruct (_ <? _)%nat. }
  assert (eb_chans b1 !! ch = Some (if (length (ch_buf c) <? chanRoom)%nat then mkChan (ch_buf c ++ [evt]) false else c)) as Hb1.
  { unfold b1. destruct (_ <? _)%nat; [|done]. cbn. apply list_lookup_insert_eq. by eapply lookup_lt_Some. }
  assert (forall ch', ch' <> ch -> eb_chans b1 !! ch' = eb_chans b !! ch') as Hne.
  { intros ch' Hne. unfold b1. destruct (_ <? _)%nat; [|done]. cbn. by apply list_lookup_insert_ne. }
  destruct (IH b1 Hnd) as (b' & E & Hcl' & Hlen & Hout & Hin).
  { intros ch' Hch'. rewrite Hne by set_solver. apply Hopen. by right. }
  exists b'. rewrite (M_bind_run _ _ _ _ _ E1), E. split_and!; [done|rewrite Hcl'; unfold b1; by destruct (_ <? _)%nat| | |].
  - rewrite Hlen. unfold b1. destruct (_ <? _)%nat; [|done]. cbn. by rewrite length_insert.
  - intros ch' Hch'. rewrite Hout by set_solver. apply Hne. set_solver.
  - intros ch' c' [-> |Hch']%elem_of_cons Hc'; [rewrite Hout by done; rewrite Hc in Hc'; by injection Hc' as <-|].
    apply Hin; [done|]. rewrite Hne; [done|]. by intros ->.
Qed.

Lemma bus_inv_subscribe b ls x b' : bus_inv b ls -> Subscribe b = (x, b') -> bus_inv b' (ls ++ [mkLedger [] []]).
Proof.
  intros [B1 B2 B3 B4] [= _ <-]. split; cbn.
  - by rewrite !length_app, B1.
  - apply NoDup_app. split_and!; [done| |apply NoDup_singleton]. intros ch Hch ->%list_elem_of_singleton.
    destruct (B3 _ Hch) as (c & Hc%lookup_lt_Some & _). lia.
  - intros ch [Hch| ->%list_elem_of_singleton]%elem_of_app.
    + destruct (B3 _ Hch) as (c & Hc & Hcl). exists c. split; [by apply lookup_app_l_Some|done].
    + eexists. split; [by apply list_lookup_middle|done].
  - intros ch c l [Hc|[Hlt Hc]]%lookup_app_Some [Hl|[Hlt' Hl]]%lookup_app_Some; [by eauto|..].
    + apply lookup_lt_Some in Hc. lia.
    + apply lookup_lt_Some in Hl. lia.
    + apply list_lookup_singleton_Some in Hc as [_ <-]. apply list_lookup_singleton_Some in Hl as [_ <-]. cbn. split_and!; [lia|done|done].
Qed.

Lemma bus_inv_unsubscribe b ls ch x b' :
  bus_inv b ls -> ch ∈ eb_clients b -> Unsubscribe ch b = (x, b') -> x = Ok tt /\ bus_inv b' ls.
Proof.
  intros [B1 B2 B3 B4] Hch. destruct (B3 _ Hch) as (c & Hc & Hcl). unfold Unsubscribe. rewrite Hc, Hcl. intros [= <- <-]. split; [done|].
  assert (length (<[ch:=mkChan (ch_buf c) true]> (eb_chans b)) = length (eb_chans b)) as Hlen by apply length_insert. split; cbn.
  - by rewrite Hlen.
  - by apply NoDup_filter.
  - intros ch' [Hne Hch']%list_elem_of_filter. rewrite list_lookup_insert_ne by done. auto.
  - intros ch' c' l [[<- [<- _]]|[_ Hc']]%list_lookup_insert_Some Hl; [exact (B4 ch c l Hc Hl)|by apply (B4 ch' c' l)].
Qed.

Lemma bus_inv_publish b ls evt x b' :
  bus_inv b ls -> Publish evt b = (x, b') ->
  x = Ok tt /\ bus_inv b' (imap (fun ch l => if decide (ch ∈ eb_clients b) then mkLedger (lg_offered l ++ [evt]) (lg_received l) else l) ls).
Proof.
  intros [B1 B2 B3 B4]. unfold Publish. destruct (publish_all_ok evt (eb_clients b) b B2 B3) as (b1 & -> & Hcl & Hlen & Hout & Hin).
  intros [= <- <-]. split; [done|]. split.
  - by rewrite length_imap, Hlen.
  - by rewrite Hcl.
  - intros ch Hch. rewrite Hcl in Hch. destruct (B3 _ Hch) as (c & Hc & Hc'). rewrite (Hin _ _ Hch Hc). eexists. split; [done|]. by destruct (_ <? _)%nat.
  - intros ch c l Hc. rewrite list_lookup_imap. intros (l0 & Hl & ->)%fmap_Some. destruct (decide (ch ∈ eb_clients b)) as [Hch|Hch].
    2: { rewrite Hout in Hc by done. by apply (B4 ch). }
    destruct (B3 _ Hch) as (c0 & Hc0 & Hop). rewrite (Hin _ _ Hch Hc0) in Hc. injection Hc as <-.
    destruct (B4 _ _ _ Hc0 Hl) as (L1 & L2 & L3). cbn [lg_received lg_offered]. destruct (Nat.ltb_spec (length (ch_buf c0)) chanRoom) as [Hlt|Hge]; cbn [ch_buf].
    + rewrite !length_app, (assoc_L (++)). split_and!; [cbn; lia|by apply sublist_app|]. intros Hn. by rewrite L3 by lia.
    + split_and!; [done|by apply sublist_inserts_r|]. rewrite length_app. cbn. intros Hn.
      apply (f_equal length) in L3; [|lia]. rewrite length_app in L3. lia.
Qed.

Lemma bus_inv_receive b ls ch e b' :
  bus_inv b ls -> receive ch b = Some (Some e, b') -> bus_inv b' (alter (fun l => mkLedger (lg_offered l) (lg_received l ++ [e])) ch ls).
Proof.
  intros [B1 B2 B3 B4] (c & Hc & E)%bind_Some. destruct (ch_buf c) as [|e' buf] eqn:Eb; [by destruct (ch_closed c)|]. injection E as -> <-.
  split; cbn.
  - by rewrite length_alter, length_insert.
  - done.
  - intros ch' Hch'. destruct (B3 _ Hch') as (c' & Hc' & Hcl). destruct (decide (ch = ch')) as [<- |Hne].
    + rewrite list_lookup_insert_eq by (by eapply lookup_lt_Some). eexists. split; [done|]. cbn. congruence.
    + rewrite list_lookup_insert_ne by done. eauto.
  - intros ch' c' l [[<- [<- _]]|[Hne Hc']]%list_lookup_insert_Some Hl.
    + rewrite list_lookup_alter_eq in Hl. apply fmap_Some in Hl as (l0 & Hl & ->). cbn.
      destruct (B4 _ _ _ Hc Hl) as (L1 & L2 & L3). rewrite Eb in *. cbn in L1. rewrite <- (assoc_L (++)). cbn. split_and!; [lia|done..].
    + rewrite list_lookup_alter_ne in Hl by done. eauto.
Qed.

Lemma bus_run_inv b ls : bus_run b ls -> bus_inv b ls.
Proof.
  induction 1 as [|b ls x b' _ IH E|b ls ch x b' _ IH Hch E|b ls evt x b' _ IH E|b ls ch e b' _ IH E].
  - split; cbn; [done|constructor|by intros ? ?%not_elem_of_nil|done].
  - by eapply bus_inv_subscribe.
  - by eapply bus_inv_unsubscribe.
  - by eapply bus_inv_publish.
  - by eapply bus_inv_receive.
Qed.

(** C22. Events reach subscribers in order.  In every run of the bus in which
    publications happen one after the other, publishing and leaving never panic; a channel never holds more than 64 events; what a
    subscriber received and what waits for it are, in this order, among the
    events published while it was subscribed, and all of them when they are at
    most 64. *)
Theorem event_bus_delivers :
  forall (b : EventBus) (ls : list ledger),
  bus_run b ls ->
  (forall evt, (Publish evt b).1 = Ok tt) /\
  (forall ch, ch ∈ eb_clients b -> (Unsubscribe ch b).1 = Ok tt) /\
  (forall ch c l, eb_chans b !! ch = Some c -> ls !! ch = Some l ->
     (length (ch_buf c) <= 64)%nat /\ lg_received l ++ ch_buf c `sublist_of` lg_offered l /\
     ((length (lg_offered l) <= 64)%nat -> lg_received l ++ ch_buf c = lg_offered l)).
Proof.
  intros b ls Hinv%bus_run_inv. split_and!.
  - intros evt. destruct (Publish evt b) as [x b'] eqn:E. by destruct (bus_inv_publish _ _ _ _ _ Hinv E) as [-> _].
  - intros ch Hch. destruct (Unsubscribe ch b) as [x b'] eqn:E. by destruct (bus_inv_unsubscribe _ _ _ _ _ Hinv Hch E) as [-> _].
  - apply (bi_chan _ _ Hinv).
Qed.

Definition demo_event (i : Z) : Event := mkEvent "status" (JInt i) i.

Definition demo_bus : EventBus := mkBus [mkChan [demo_event 2] false] [0%nat].
Definition demo_ledger : list ledger := [mkLedger [demo_event 1; demo_event 2] [demo_event 1]].

(** A subscriber, two events, the first received. *)
Lemma demo_bus_run : bus_run demo_bus demo_ledger.
Proof.
  refine (bus_receive (mkBus [mkChan [demo_event 1; demo_event 2] false] [0%nat]) [mkLedger [demo_event 1; demo_event 2] []] 0
    (demo_event 1) demo_bus _ eq_refl).
  refine (bus_publish (mkBus [mkChan [demo_event 1] false] [0%nat]) [mkLedger [demo_event 1] []] (demo_event 2) (Ok tt) _ _ eq_refl).
  refine (bus_publish (mkBus [mkChan [] false] [0%nat]) [mkLedger [] []] (demo_event 1) (Ok tt) _ _ eq_refl).
  exact (bus_subscribe NewEventBus [] (Ok 0%nat) _ bus_new eq_refl).
Qed.

Lemma event_bus_delivers_witness :
  bus_run demo_bus demo_ledger /\ (Publish (demo_event 3) demo_bus).1 = Ok tt /\
  lg_received (mkLedger [demo_event 1; demo_event 2] [demo_event 1]) ++ [demo_event 2] = [demo_event 1; demo_event 2].
Proof.
  destruct (event_bus_delivers demo_bus demo_ledger demo_bus_run) as (Hpub & _ & Hch).
  split; [exact demo_bus_run|]. split; [apply Hpub|].
  apply (Hch 0%nat (mkChan [demo_event 2] false) (mkLedger [demo_event 1; demo_event 2] [demo_event 1])); [reflexivity..|].
  cbn. lia.
Defined.
