(* ===== verification/ClusterManager.v ===== *)
(** * server/cluster.go: a cluster in one process

    The manager creates the nodes, routes operations to the leader and stops
    nodes.  Nodes are shared between the manager and calls under way, so they
    live in a heap and the manager's slice holds pointers into it.  A call that
    waits (for a leader or for a commit) continues in the state it finds
    afterwards, which is an argument.

    [cluster_start_is_boot]: a started cluster is one the theorems on Raft
    clusters and replicas are about. *)

From Stdlib Require Import SpecFloat.
From stdpp Require Import pretty.
From S2P Require Import Prelude GoStd Protocol RaftLog Engine EngineRun Shelf Recovery Server Raft RaftSystem RaftElection Node Replica Events.

(** ** Data *)

Record NodeMetrics := mkMetrics {
  WritesTotal : Z;
  ReadsTotal : Z;
  lastWrites : Z;
  lastReads : Z;
  WritesPerSec : spec_float;
  ReadsPerSec : spec_float
}.

Record NodeInfo := mkNodeInfo {
  ni_ID : bytes;
  ni_State : string;
  ni_Term : Z;
  ni_CommitIndex : Z;
  ni_LogLength : Z;
  ni_LeaderID : bytes;
  ni_KeyCount : Z;
  ni_Addr : bytes;
  ni_WritesPerSec : spec_float;
  ni_ReadsPerSec : spec_float;
  ni_MemtableBytes : Z;
  ni_SSTables : Z
}.

Record ClusterStatus := mkClusterStatus {
  cs_Running : bool;
  cs_Nodes : list NodeInfo;
  cs_Timestamp : Z;
  cs_NodeCount : Z
}.

(** [cm_heap]: every node created so far; a pointer is a position in it.
    [cm_nodes]: the slice of pointers, [None] for nil.  [cm_closed]: whether
    [closeCh] is closed.  [baseDir] is not kept: the directory is new at every
    start. *)
Record ClusterManager := mkCM {
  cm_heap : list Node;
  cm_nodes : list (option nat);
  cm_stopped : gmap bytes bool;
  cm_running : bool;
  cm_events : EventBus;
  cm_keyCount : Z;
  cm_closed : bool;
  cm_nodeMetrics : gmap bytes NodeMetrics;
  cm_nodeCount : Z
}.

Definition NewClusterManager (events : EventBus) : ClusterManager := mkCM [] [] ∅ false events 0 false ∅ 0.

Definition IsRunning (cm : ClusterManager) : bool := cm_running cm.

Definition set_heap (heap : list Node) (cm : ClusterManager) : ClusterManager :=
  mkCM heap (cm_nodes cm) (cm_stopped cm) (cm_running cm) (cm_events cm) (cm_keyCount cm) (cm_closed cm) (cm_nodeMetrics cm) (cm_nodeCount cm).
Definition set_nodes (nodes : list (option nat)) (metrics : gmap bytes NodeMetrics) (cm : ClusterManager) : ClusterManager :=
  mkCM (cm_heap cm) nodes (cm_stopped cm) (cm_running cm) (cm_events cm) (cm_keyCount cm) (cm_closed cm) metrics (cm_nodeCount cm).
Definition set_stopped (stopped : gmap bytes bool) (cm : ClusterManager) : ClusterManager :=
  mkCM (cm_heap cm) (cm_nodes cm) stopped (cm_running cm) (cm_events cm) (cm_keyCount cm) (cm_closed cm) (cm_nodeMetrics cm) (cm_nodeCount cm).
Definition set_run (running closed : bool) (cm : ClusterManager) : ClusterManager :=
  mkCM (cm_heap cm) (cm_nodes cm) (cm_stopped cm) running (cm_events cm) (cm_keyCount cm) closed (cm_nodeMetrics cm) (cm_nodeCount cm).
Definition set_keyCount (n : Z) (cm : ClusterManager) : ClusterManager :=
  mkCM (cm_heap cm) (cm_nodes cm) (cm_stopped cm) (cm_running cm) (cm_events cm) n (cm_closed cm) (cm_nodeMetrics cm) (cm_nodeCount cm).
Definition set_nodeCount (n : Z) (cm : ClusterManager) : ClusterManager :=
  mkCM (cm_heap cm) (cm_nodes cm) (cm_stopped cm) (cm_running cm) (cm_events cm) (cm_keyCount cm) (cm_closed cm) (cm_nodeMetrics cm) n.

Definition on_bus {A} (m : M EventBus A) : M ClusterManager A := fun cm =>
  let '(x, b) := m (cm_events cm) in
  (x, mkCM (cm_heap cm) (cm_nodes cm) (cm_stopped cm) (cm_running cm) b (cm_keyCount cm) (cm_closed cm) (cm_nodeMetrics cm) (cm_nodeCount cm)).

(** A method call on a node. *)
Definition on_node {A} (p : nat) (m : M Node A) : M ClusterManager A := fun cm =>
  match cm_heap cm !! p with
  | None => (Panic, cm)
  | Some n => let '(x, n) := m n in (x, set_heap (<[p:=n]> (cm_heap cm)) cm)
  end.

(** ** Starting *)

Definition node_addr (basePort : Z) (i : nat) : bytes := text ("127.0.0.1:" ++ pretty (basePort + Z.of_nat i)).
Definition node_id (i : nat) : bytes := text ("node-" ++ pretty i).

(** What the system answers while a node is created, started and stopped. *)
Record NodeIO := mkNodeIO {
  nio_mkdir : res unit;
  nio_opened : res (list fault);
  nio_listen : res bytes;
  nio_failed : option error;
  nio_open : OpenIO;
  nio_listening : res unit;
  nio_rnd : Z -> Z;
  nio_fuel : nat;
  nio_ios : nat -> IO
}.

Definition clusterConfig : Config := mkConfig 150000000 300000000 50000000 5000000000.

(** The directory of a node is new and empty. *)
Definition no_file : File := mkFile [] 0 [] true.

Definition stop_node (io : NodeIO) (p : option nat) : M ClusterManager unit :=
  match p with
  | None => lift Panic
  | Some p => on_node p (Node_Stop (nio_fuel io) (nio_ios io))
  end.

(** [for k := 0; k < i; k++ { cm.nodes[k].Stop() }] *)
Fixpoint stop_each (ios : nat -> NodeIO) (k : nat) (ps : list (option nat)) : M ClusterManager unit :=
  match ps with
  | [] => mret tt
  | p :: ps => ignore (stop_node (ios k) p);; stop_each ios (S k) ps
  end.

Definition add_node (i : nat) (node : Node) (cm : ClusterManager) : ClusterManager :=
  set_nodes (<[i:=Some (length (cm_heap cm))]> (cm_nodes cm))
    (<[node_id i:=mkMetrics 0 0 0 0 (S754_zero false) (S754_zero false)]> (cm_nodeMetrics cm))
    (set_heap (cm_heap cm ++ [node]) cm).

(** The creation loop from node [i] on. *)
Fixpoint create_nodes (ios : nat -> NodeIO) (addrs : list bytes) (todo i : nat) : M ClusterManager unit :=
  match todo with
  | O => mret tt
  | S todo =>
      match NewNode (nio_mkdir (ios i)) (nio_opened (ios i)) (nio_listen (ios i)) (nio_failed (ios i))
              (node_id i) (take i addrs ++ drop (S i) addrs) no_file None with
      | Ok node => modify (add_node i node);; create_nodes ios addrs todo (S i)
      | Err e =>
          cm ← get_st;
          stop_each ios 0 (take i (cm_nodes cm));; throw (Wrap ("cluster: create node " ++ pretty i) e)
      | Panic => lift Panic
      | OutOfFuel => lift OutOfFuel
      end
  end.

(** The loop that starts the nodes, from node [i] on. *)
Fixpoint start_nodes (ios : nat -> NodeIO) (i : nat) (ps : list (option nat)) : M ClusterManager unit :=
  match ps with
  | [] => mret tt
  | None :: _ => lift Panic
  | Some p :: ps => fun cm =>
      match on_node p (Node_Start (nio_open (ios i)) empty_disk (nio_fuel (ios i)) (nio_ios (ios i)) (nio_listening (ios i)) (nio_rnd (ios i)) clusterConfig) cm with
      | (Ok _, cm) => start_nodes ios (S i) ps cm
      | (Err e, cm) => (stop_each ios 0 (take i (cm_nodes cm));; throw (Wrap ("cluster: start node " ++ pretty i) e)) cm
      | (Panic, cm) => (Panic, cm)
      | (OutOfFuel, cm) => (OutOfFuel, cm)
      end
  end.

(** [mkdir]: the answer of [os.MkdirTemp]; [port]: what [rand.Intn(900)] draws. *)
Definition StartWithNodes (mkdir : res unit) (port : Z) (ios : nat -> NodeIO) (now : Z) (count : Z) : M ClusterManager unit :=
  let count := if count <? 1 then 1 else count in
  let count := if 7 <? count then 7 else count in
  let n := Z.to_nat count in
  cm ← get_st;
  if cm_running cm then mret tt else
  wrap "cluster: create temp dir" (lift mkdir);;
  let basePort := 17000 + port in
  let addrs := node_addr basePort <$> seq 0 n in
  modify (set_nodes (replicate n None) ∅);;
  create_nodes ios addrs n 0;;
  cm ← get_st;
  start_nodes ios 0 (cm_nodes cm);;
  modify (fun cm => set_keyCount 0 (set_stopped ∅ (set_nodeCount count (set_run true false cm))));;
  on_bus (Publish (mkEvent "cluster_started" (JObj [("nodeCount"%string, JInt count)]) now)).

Definition ClusterManager_Start (mkdir : res unit) (port : Z) (ios : nat -> NodeIO) (now : Z) : M ClusterManager unit :=
  StartWithNodes mkdir port ios now 3.

(** ** Stopping *)

Definition not_running : error := Errorf "cluster not running".

(** [for _, node := range cm.nodes { if err := node.Stop(); ... }] *)
Fixpoint stop_all (ios : nat -> NodeIO) (k : nat) (ps : list (option nat)) (firstErr : option error) : M ClusterManager (option error) :=
  match ps with
  | [] => mret firstErr
  | None :: ps => stop_all ios (S k) ps firstErr
  | Some p :: ps => fun cm =>
      match stop_node (ios k) (Some p) cm with
      | (Ok _, cm) => stop_all ios (S k) ps firstErr cm
      | (Err e, cm) => stop_all ios (S k) ps (match firstErr with None => Some e | _ => firstErr end) cm
      | (Panic, cm) => (Panic, cm)
      | (OutOfFuel, cm) => (OutOfFuel, cm)
      end
  end.

(** The wait for [statusLoop] is the subject of [stop_race] below; here it
    has ended.  Closing [closeCh] a second time panics. *)
Definition ClusterManager_Stop (ios : nat -> NodeIO) (now : Z) : M ClusterManager unit :=
  cm ← get_st;
  if negb (cm_running cm) then throw not_running else
  if cm_closed cm then lift Panic else
  modify (set_run true true);;
  firstErr ← stop_all ios 0 (cm_nodes cm) None;
  modify (fun cm => set_stopped ∅ (set_run false true (set_nodes [] (cm_nodeMetrics cm) cm)));;
  on_bus (Publish (mkEvent "cluster_stopped" JNull now));;
  match firstErr with
  | None => mret tt
  | Some e => throw e
  end.

Definition is_stopped (stopped : gmap bytes bool) (id : bytes) : bool := default false (stopped !! id).

(** The pointer of the node with this identifier. *)
Fixpoint find_node (cm : ClusterManager) (id : bytes) (ps : list (option nat)) : res (option nat) :=
  match ps with
  | [] => Ok None
  | None :: ps => find_node cm id ps
  | Some p :: ps =>
      match cm_heap cm !! p with
      | None => Panic
      | Some n => if bool_decide (r_nodeID (nd_raft n) = id) then Ok (Some p) else find_node cm id ps
      end
  end.

Definition StopNode (io : NodeIO) (now : Z) (id : bytes) : M ClusterManager unit :=
  cm ← get_st;
  if negb (cm_running cm) then throw not_running else
  found ← lift (find_node cm id (cm_nodes cm));
  match found with
  | None => throw (Errorf ("node " ++ String.string_of_list_byte id ++ " not found"))
  | Some p =>
      if is_stopped (cm_stopped cm) id
      then throw (Errorf ("node " ++ String.string_of_list_byte id ++ " already stopped")) else
      stop_node io (Some p);;
      modify (fun cm => set_stopped (<[id:=true]> (cm_stopped cm)) cm);;
      on_bus (Publish (mkEvent "node_stopped" (JObj [("id"%string, JStr id)]) now))
  end.

(** ** Status *)

Definition node_info (cm : ClusterManager) (n : Node) : res NodeInfo :=
  rs ← Raft_Status (nd_raft n);
  match nd_eng n with
  | None => Panic
  | Some e =>
      eStats ← Engine_Stats e;
      let m := cm_nodeMetrics cm !! rs_NodeID rs in
      Ok (mkNodeInfo (rs_NodeID rs)
            (if is_stopped (cm_stopped cm) (rs_NodeID rs) then "Stopped" else rs_State rs)
            (rs_Term rs) (rs_CommitIndex rs) (rs_LogLength rs) (rs_LeaderID rs) (cm_keyCount cm) (r_addr (nd_raft n))
            (match m with Some m => WritesPerSec m | None => S754_zero false end)
            (match m with Some m => ReadsPerSec m | None => S754_zero false end)
            (st_MemoryBytes eStats) (st_TotalSSTables eStats))
  end.

Fixpoint node_infos (cm : ClusterManager) (ps : list (option nat)) : res (list NodeInfo) :=
  match ps with
  | [] => Ok []
  | None :: ps => node_infos cm ps
  | Some p :: ps =>
      match cm_heap cm !! p with
      | None => Panic
      | Some n => ni ← node_info cm n; l ← node_infos cm ps; Ok (ni :: l)
      end
  end.

Definition ClusterManager_Status (now : Z) (cm : ClusterManager) : res ClusterStatus :=
  if negb (cm_running cm) then Ok (mkClusterStatus (cm_running cm) [] now (cm_nodeCount cm)) else
  infos ← node_infos cm (cm_nodes cm);
  Ok (mkClusterStatus (cm_running cm) infos now (cm_nodeCount cm)).

(** ** Operations through the leader *)

(** The first node that is not stopped and says it leads. *)
Fixpoint leader_among (heap : list Node) (stopped : gmap bytes bool) (ps : list (option nat)) : res (option nat) :=
  match ps with
  | [] => Ok None
  | None :: ps => leader_among heap stopped ps
  | Some p :: ps =>
      match heap !! p with
      | None => Panic
      | Some n =>
          if is_stopped stopped (r_nodeID (nd_raft n)) then leader_among heap stopped ps
          else if Raft_IsLeader (nd_raft n) then Ok (Some p)
          else leader_among heap stopped ps
      end
  end.

(** The waiting loop over copies of the slice and of the map: [later] are the
    states found after each sleep before the deadline. *)
Fixpoint poll (ps : list (option nat)) (stopped : gmap bytes bool) (later : list ClusterManager) : M ClusterManager nat :=
  match later with
  | [] => throw (Errorf "no leader elected within 2s")
  | cm :: later =>
      put_st cm;;
      leader ← lift (leader_among (cm_heap cm) stopped ps);
      match leader with
      | Some p => mret p
      | None => poll ps stopped later
      end
  end.

Definition findLeader (later : list ClusterManager) : M ClusterManager nat :=
  cm ← get_st;
  leader ← lift (leader_among (cm_heap cm) (cm_stopped cm) (cm_nodes cm));
  match leader with
  | Some p => mret p
  | None => poll (cm_nodes cm) (cm_stopped cm) later
  end.

Definition with_leader (later : list ClusterManager) : M ClusterManager nat :=
  cm ← get_st;
  if negb (cm_running cm) then throw not_running else findLeader later.

Definition raft_of (p : nat) : M ClusterManager Raft := fun cm =>
  match cm_heap cm !! p with Some n => (Ok (nd_raft n), cm) | None => (Panic, cm) end.

(** [if m, ok := cm.nodeMetrics[leaderID]; ok { ... }] *)
Definition add_metrics (p : nat) (writes reads : Z) : M ClusterManager unit :=
  r ← raft_of p;
  modify (fun cm =>
    set_nodes (cm_nodes cm)
      (alter (fun m => mkMetrics (i64 (WritesTotal m + writes)) (i64 (ReadsTotal m + reads)) (lastWrites m) (lastReads m) (WritesPerSec m) (ReadsPerSec m))
         (r_nodeID r) (cm_nodeMetrics cm)) cm).

(** A write up to the wait for its commit. *)
Definition propose_on (p : nat) (cmd : byte) (data : bytes) : M ClusterManager (nat * proposal) :=
  prop ← on_node p (on_raft (Propose cmd data));
  mret (p, prop).

(** From there on, in the state found when the wait ends; [OutOfFuel] when the
    chosen case of the [select] is not ready. *)
Definition write_end (by_ : wake) (pp : nat * proposal) (writes keys : Z) : M ClusterManager unit :=
  r ← raft_of pp.1;
  match Propose_wait by_ pp.2 r with
  | None => lift OutOfFuel
  | Some (Some e) => throw e
  | Some None =>
      add_metrics pp.1 writes 0;;
      modify (fun cm => set_keyCount (i64 (cm_keyCount cm + keys)) cm)
  end.

Definition Put_begin (later : list ClusterManager) (key value : bytes) : M ClusterManager (nat * proposal) :=
  leader ← with_leader later; propose_on leader CmdRaftPut (EncodePutCommand key value).
Definition Put_end (by_ : wake) (pp : nat * proposal) : M ClusterManager unit := write_end by_ pp 1 1.

Definition Delete_begin (later : list ClusterManager) (key : bytes) : M ClusterManager (nat * proposal) :=
  leader ← with_leader later; propose_on leader CmdRaftDelete (EncodeDeleteCommand key).
Definition Delete_end (by_ : wake) (pp : nat * proposal) : M ClusterManager unit := write_end by_ pp 1 (-1).

Definition BatchPut_begin (later : list ClusterManager) (keys values : list bytes) : M ClusterManager (nat * proposal) :=
  leader ← with_leader later;
  if negb (len keys =? len values) then throw (Errorf "keys and values length mismatch") else
  data ← lift (EncodeBatchPutCommand keys values);
  propose_on leader CmdRaftBatchPut data.
Definition BatchPut_end (by_ : wake) (pp : nat * proposal) (keys : list bytes) : M ClusterManager unit :=
  write_end by_ pp (len keys) (len keys).

(** [leader.Engine()] *)
Definition engine_of (p : nat) : M ClusterManager Engine := fun cm =>
  match cm_heap cm !! p ≫= nd_eng with Some e => (Ok e, cm) | None => (Panic, cm) end.

(** The value and whether the key was found. *)
Definition ClusterManager_Get (later : list ClusterManager) (key : bytes) : M ClusterManager (bytes * bool) :=
  leader ← with_leader later;
  e ← engine_of leader;
  add_metrics leader 0 1;;
  match Engine_Get key e with
  | Ok v => mret (val_bytes v, true)
  | Err err => if is_not_found err then mret ([], false) else throw err
  | Panic => lift Panic
  | OutOfFuel => lift OutOfFuel
  end.

Definition ClusterManager_GetRange (later : list ClusterManager) (fuel : nat) (start end_ : bytes) : M ClusterManager (list KVPair) :=
  leader ← with_leader later;
  e ← engine_of leader;
  add_metrics leader 0 1;;
  lift (Engine_ReadRange fuel start end_ e).

(** ** The status loop *)

(** [float64(d) * 2] *)
Definition float64 (z : Z) : spec_float := binary_normalize 53 1024 z 0 false.
Definition rate (current last : Z) : spec_float := SFmul 53 1024 (float64 (i64 (current - last))) (float64 2).

Definition tick_metrics (m : NodeMetrics) : NodeMetrics :=
  mkMetrics (WritesTotal m) (ReadsTotal m) (WritesTotal m) (ReadsTotal m)
    (rate (WritesTotal m) (lastWrites m)) (rate (ReadsTotal m) (lastReads m)).

Definition info_json (ni : NodeInfo) : json :=
  JObj [("id"%string, JStr (ni_ID ni)); ("state"%string, JStr (text (ni_State ni))); ("term"%string, JInt (ni_Term ni));
        ("commitIndex"%string, JInt (ni_CommitIndex ni)); ("logLength"%string, JInt (ni_LogLength ni));
        ("leaderId"%string, JStr (ni_LeaderID ni)); ("keyCount"%string, JInt (ni_KeyCount ni)); ("addr"%string, JStr (ni_Addr ni));
        ("writesPerSec"%string, JFloat (ni_WritesPerSec ni)); ("readsPerSec"%string, JFloat (ni_ReadsPerSec ni));
        ("memtableBytes"%string, JInt (ni_MemtableBytes ni)); ("sstables"%string, JInt (ni_SSTables ni))].

(** An empty slice is nil here. *)
Definition status_json (s : ClusterStatus) : json :=
  JObj [("running"%string, JBool (cs_Running s));
        ("nodes"%string, match cs_Nodes s with [] => JNull | infos => JArr (info_json <$> infos) end);
        ("timestamp"%string, JInt (cs_Timestamp s)); ("nodeCount"%string, JInt (cs_NodeCount s))].

(** One tick: the rates, then the status; [ms] and [now] are the clock's
    readings. *)
Definition statusLoop_tick (ms now : Z) : M ClusterManager unit :=
  modify (fun cm => set_nodes (cm_nodes cm) (tick_metrics <$> cm_nodeMetrics cm) cm);;
  cm ← get_st;
  status ← lift (ClusterManager_Status ms cm);
  on_bus (Publish (mkEvent "status" (status_json status) now)).

(** ** A started cluster *)

Lemma text_inj s1 s2 : text s1 = text s2 -> s1 = s2.
Proof. intros H%(f_equal String.string_of_list_byte). unfold text in H. by rewrite !String.string_of_list_byte_of_string in H. Qed.

Lemma node_addr_inj port i j : node_addr port i = node_addr port j -> i = j.
Proof. intros H%text_inj. apply (inj (String.append _)) in H. apply (inj pretty) in H. lia. Qed.

Lemma node_id_inj i j : node_id i = node_id j -> i = j.
Proof. intros H%text_inj. apply (inj (String.append _)) in H. by apply (inj pretty) in H. Qed.

(** The addresses of a cluster and the identifier of each. *)
Definition addrs_of (basePort : Z) (n : nat) : list bytes := node_addr basePort <$> seq 0 n.
Definition id_of (basePort : Z) (n : nat) (a : bytes) : bytes :=
  match list_find (fun b => b = a) (addrs_of basePort n) with Some (i, _) => node_id i | None => [] end.

Lemma addrs_lookup port n i : (i < n)%nat -> addrs_of port n !! i = Some (node_addr port i).
Proof. intros Hi. unfold addrs_of. by rewrite list_lookup_fmap, lookup_seq_lt. Qed.

Lemma addrs_elem port n a : a ∈ addrs_of port n <-> exists i, (i < n)%nat /\ a = node_addr port i.
Proof.
  unfold addrs_of. rewrite list_elem_of_fmap. setoid_rewrite elem_of_seq. split; intros (i & H1 & H2); exists i; split; lia || done.
Qed.

Lemma addrs_nodup port n : NoDup (addrs_of port n).
Proof.
  unfold addrs_of. apply (NoDup_fmap_2_strong (node_addr port)); [|apply NoDup_seq]. intros i j _ _. apply node_addr_inj.
Qed.

Lemma id_of_addr port n i : (i < n)%nat -> id_of port n (node_addr port i) = node_id i.
Proof.
  intros Hi. unfold id_of. rewrite (proj2 (list_find_Some (fun b => b = node_addr port i) _ i (node_addr port i))); [done|].
  split_and!; [by apply addrs_lookup|done|]. intros j b Hj Hlt ->.
  rewrite (addrs_lookup port n j) in Hj by lia. apply (inj Some), node_addr_inj in Hj. lia.
Qed.

Lemma node_id_fits i : (i < 7)%nat -> node_id i <> [] /\ len (node_id i) + 12 < 2 ^ 32.
Proof. intros Hi. do 7 (destruct i as [|i]; [by vm_compute|]). lia. Qed.

Lemma addrs_config port n : (n <= 7)%nat -> config_ok (addrs_of port n) (id_of port n).
Proof.
  intros Hn. split_and!; [apply addrs_nodup|..].
  - intros a b (i & Hi & ->)%addrs_elem (j & Hj & ->)%addrs_elem. rewrite !id_of_addr by done. by intros ->%node_id_inj.
  - intros a (i & Hi & ->)%addrs_elem. rewrite id_of_addr by done. apply node_id_fits. lia.
Qed.

(** The peers the manager computes. *)
Lemma peers_filter (l : list bytes) i a : NoDup l -> l !! i = Some a -> take i l ++ drop (S i) l = filter (fun p => p <> a) l.
Proof.
  intros Hnd Hi. pose proof (take_drop_middle l i a Hi) as Hl.
  assert (filter (fun p => p <> a) l = filter (fun p => p <> a) (take i l ++ a :: drop (S i) l)) as -> by by rewrite Hl.
  assert (NoDup (take i l ++ a :: drop (S i) l)) as Hnd' by by rewrite Hl. apply NoDup_app in Hnd' as (_ & H1 & H2). apply NoDup_cons in H2 as [H2 _].
  assert (forall k : list bytes, a ∉ k -> filter (fun p => p <> a) k = k) as Hout.
  { intros k Hk. induction k as [|x k IH]; [done|]. apply not_elem_of_cons in Hk as [? ?]. rewrite filter_cons_True by done. by rewrite IH. }
  rewrite filter_app, filter_cons_False by (intros H; by apply H). rewrite !Hout; [done|done|]. intros H. apply (H1 a H). left.
Qed.

(** Nothing fails, and every node listens where it was told to. *)
Definition calm (basePort : Z) (ios : nat -> NodeIO) : Prop := forall i,
  nio_mkdir (ios i) = Ok tt /\ nio_opened (ios i) = Ok [] /\ nio_listen (ios i) = Ok (node_addr basePort i) /\ nio_failed (ios i) = None /\
  (exists coins, nio_open (ios i) = open_ok coins) /\ nio_listening (ios i) = Ok tt.

Section start.
Context (basePort : Z) (ios : nat -> NodeIO) (n : nat).
Hypothesis Hcalm : calm basePort ios.

Definition fresh (i : nat) : Raft := fresh_node (addrs_of basePort n) (id_of basePort n) (node_addr basePort i).

Lemma NewNode_fresh i :
  (i < n)%nat ->
  NewNode (nio_mkdir (ios i)) (nio_opened (ios i)) (nio_listen (ios i)) (nio_failed (ios i)) (node_id i)
    (take i (addrs_of basePort n) ++ drop (S i) (addrs_of basePort n)) no_file None = Ok (mkNode (fresh i) None false).
Proof using Hcalm.
  intros Hi. destruct (Hcalm i) as (-> & -> & -> & -> & _ & _).
  rewrite (peers_filter _ i (node_addr basePort i)); [|apply addrs_nodup|by apply addrs_lookup].
  unfold fresh, fresh_node. by rewrite id_of_addr.
Qed.

(** The state after the first [i] nodes are created. *)
Lemma create_nodes_ok h0 todo i cm :
  (i + todo = n)%nat -> cm_heap cm = h0 ++ ((fun j => mkNode (fresh j) None false) <$> seq 0 i) ->
  cm_nodes cm = (Some <$> seq (length h0) i) ++ replicate todo None ->
  exists cm', create_nodes ios (addrs_of basePort n) todo i cm = (Ok tt, cm') /\
    cm_heap cm' = h0 ++ ((fun j => mkNode (fresh j) None false) <$> seq 0 n) /\ cm_nodes cm' = Some <$> seq (length h0) n /\
    cm_events cm' = cm_events cm.
Proof using Hcalm.
  revert i cm. induction todo as [|todo IH]; intros i cm Hn Hh Hp; cbn [create_nodes].
  { exists cm. replace n with i by lia. rewrite app_nil_r in Hp. done. }
  rewrite NewNode_fresh by lia. mrun.
  edestruct (IH (S i) (add_node i (mkNode (fresh i) None false) cm)) as (cm' & E & H1 & H2 & H3); [lia|..].
  - cbn [add_node set_nodes set_heap cm_heap]. rewrite Hh, seq_S, fmap_app, (assoc_L (++)). done.
  - cbn [add_node set_nodes set_heap cm_heap cm_nodes]. rewrite Hp, Hh, length_app, length_fmap, length_seq, seq_S, fmap_app, <- (assoc_L (++)). cbn [replicate].
    rewrite <- (Nat.add_0_r i) at 1. replace i with (length (Some <$> seq (length h0) i)) at 1 by (by rewrite length_fmap, length_seq).
    by rewrite insert_app_r.
  - exists cm'. split_and!; [exact E|done..].
Qed.

(** A started node: its Raft instance as created, its engine newly opened. *)
Definition started (i : nat) (node : Node) : Prop :=
  exists e coins, node = mkNode (fresh i) (Some e) false /\ Engine_Open (open_ok coins) empty_disk node_opts = Ok e.

Lemma Node_Start_fresh i :
  exists node, Node_Start (nio_open (ios i)) empty_disk (nio_fuel (ios i)) (nio_ios (ios i)) (nio_listening (ios i)) (nio_rnd (ios i)) clusterConfig
    (mkNode (fresh i) None false) = (Ok tt, node) /\ started i node.
Proof using Hcalm.
  destruct (Hcalm i) as (_ & _ & _ & _ & [coins ->] & ->). 
  assert (exists e, Engine_Open (open_ok coins) empty_disk node_opts = Ok e) as [e E].
  { destruct (Engine_Open_new coins node_opts) as (k & w & E & _). eauto. }
  exists (mkNode (fresh i) (Some e) false). unfold Node_Start. rewrite E. split; [done|]. exists e, coins. split; [reflexivity|exact E].
Qed.

Lemma start_nodes_ok h0 done_ todo i cm :
  (i + todo = n)%nat -> length done_ = i -> (forall j node, done_ !! j = Some node -> started j node) ->
  cm_heap cm = h0 ++ done_ ++ ((fun j => mkNode (fresh j) None false) <$> seq i todo) ->
  exists cm' nodes, start_nodes ios i (Some <$> seq (length h0 + i) todo) cm = (Ok tt, cm') /\
    cm_heap cm' = h0 ++ nodes /\ length nodes = n /\ (forall j node, nodes !! j = Some node -> started j node) /\
    cm_nodes cm' = cm_nodes cm /\ cm_events cm' = cm_events cm.
Proof using Hcalm.
  revert done_ i cm. induction todo as [|todo IH]; intros done_ i cm Hn Hlen Hdone Hh; cbn [seq fmap list_fmap start_nodes].
  { exists cm, done_. rewrite app_nil_r in Hh. split_and!; try done. lia. }
  destruct (Node_Start_fresh i) as (node & En & Hnode). cbn [seq fmap list_fmap] in Hh. rewrite (assoc_L (++)) in Hh.
  assert (length (h0 ++ done_) = length h0 + i)%nat as Hl by (rewrite length_app; lia).
  assert (cm_heap cm !! (length h0 + i)%nat = Some (mkNode (fresh i) None false)) as Hlook by (rewrite Hh; by apply list_lookup_middle).
  unfold on_node. rewrite Hlook, En.
  assert (<[(length h0 + i)%nat:=node]> (cm_heap cm) = h0 ++ (done_ ++ [node]) ++ ((fun j => mkNode (fresh j) None false) <$> seq (S i) todo)) as Hins.
  { rewrite Hh, <- Hl. rewrite <- (Nat.add_0_r (length (h0 ++ done_))), insert_app_r, <- !(assoc_L (++)). done. }
  destruct (IH (done_ ++ [node]) (S i) (set_heap (<[(length h0 + i)%nat:=node]> (cm_heap cm)) cm)) as (cm' & nodes & E & H); [lia| | |exact Hins|].
  - rewrite length_app. cbn. lia.
  - intros j m [[_ Hj]|[-> <-]]%lookup_snoc_Some; [by apply Hdone|by rewrite Hlen].
  - exists cm', nodes. rewrite <- Nat.add_succ_r. by rewrite E.
Qed.
End start.

Lemma boot_lookup addrs id a : a ∈ addrs -> c_nodes (boot addrs id) !! a = Some (fresh_node addrs id a).
Proof.
  intros Ha. destruct (c_nodes (boot addrs id) !! a) as [r|] eqn:E; [by apply boot_nodes in E as [_ ->]|]. cbn in E.
  apply not_elem_of_list_to_map_2 in E. destruct E. rewrite <- list_fmap_compose. apply list_elem_of_fmap. by exists a.
Qed.

(** The clamped number of nodes. *)
Definition clamp (count : Z) : Z := if 7 <? (if count <? 1 then 1 else count) then 7 else if count <? 1 then 1 else count.

(** C15. What a started cluster is.  When no system call fails, [StartWithNodes]
    on a manager that is not running succeeds with between one and seven nodes,
    at distinct addresses and with distinct identifiers; their Raft instances
    are those of a booted cluster and their engines are newly opened, so that
    the runs of this cluster are the runs of a replicated store. *)
Theorem cluster_start_is_boot :
  forall (port : Z) (ios : nat -> NodeIO) (now count : Z) (cm : ClusterManager) (ls : list ledger),
  calm (17000 + port) ios -> bus_run (cm_events cm) ls -> cm_running cm = false ->
  exists cm' eng, let n := Z.to_nat (clamp count) in
    let addrs := addrs_of (17000 + port) n in
    let id := id_of (17000 + port) n in
    StartWithNodes (Ok tt) port ios now count cm = (Ok tt, cm') /\ cm_running cm' = true /\
    1 <= cm_nodeCount cm' <= 7 /\ length (cm_nodes cm') = n /\ config_ok addrs id /\
    replicated addrs id (mkStore (boot addrs id) (fun a => (eng a, FIdle, CIdle))) (fun _ => [[]]) /\
    forall i, (i < n)%nat -> exists p r,
      cm_nodes cm' !! i = Some (Some p) /\ cm_heap cm' !! p = Some (mkNode r (Some (eng (node_addr (17000 + port) i))) false) /\
      c_nodes (boot addrs id) !! node_addr (17000 + port) i = Some r /\ r_nodeID r = node_id i.
Proof.
  intros port ios now count cm ls Hcalm Hbus Hrun. set (n := Z.to_nat (clamp count)). set (bp := 17000 + port) in *.
  assert (1 <= clamp count <= 7) as Hclamp by (unfold clamp; destruct (Z.ltb_spec count 1); destruct (Z.ltb_spec 7 count); cbn; lia).
  destruct (create_nodes_ok bp ios n Hcalm (cm_heap cm) n 0 (set_nodes (replicate n None) ∅ cm)) as (cm1 & E1 & Hh1 & Hp1 & He1); [lia|by rewrite app_nil_r|done|].
  destruct (start_nodes_ok bp ios n Hcalm (cm_heap cm) [] n 0 cm1) as (cm2 & nodes & E2 & Hh2 & Hl2 & Hst & Hp2 & He2); [lia|done|done|done|].
  assert (length (cm_heap cm) + 0 = length (cm_heap cm))%nat as Hz by lia. rewrite Hz in E2.
  set (cm3 := set_keyCount 0 (set_stopped ∅ (set_nodeCount (clamp count) (set_run true false cm2)))).
  destruct (Publish (mkEvent "cluster_started" (JObj [("nodeCount"%string, JInt (clamp count))]) now) (cm_events cm3)) as [x b] eqn:Ep.
  assert (x = Ok tt) as ->.
  { destruct (bus_inv_publish _ ls _ _ _ (bus_run_inv _ _ Hbus) (eq_trans (f_equal _ (eq_sym (eq_trans He2 He1))) Ep)) as [Hx _]. exact Hx. }
  pose (eng := fun a => match list_find (fun b => b = a) (addrs_of bp n) with
    | Some (i, _) => match nodes !! i with Some (mkNode _ (Some e) _) => e | _ => node_engine end | None => node_engine end).
  exists (mkCM (cm_heap cm3) (cm_nodes cm3) (cm_stopped cm3) (cm_running cm3) b (cm_keyCount cm3) (cm_closed cm3) (cm_nodeMetrics cm3) (cm_nodeCount cm3)), eng.
  assert (forall i, (i < n)%nat -> exists e coins, nodes !! i = Some (mkNode (fresh bp n i) (Some e) false) /\
    eng (node_addr bp i) = e /\ Engine_Open (open_ok coins) empty_disk node_opts = Ok e) as Heng.
  { intros i Hi. destruct (lookup_lt_is_Some_2 nodes i) as [node Hnode]; [lia|]. destruct (Hst i node Hnode) as (e & coins & -> & Ee).
    exists e, coins. split_and!; [done| |exact Ee]. unfold eng.
    rewrite (proj2 (list_find_Some (fun b => b = node_addr bp i) _ i (node_addr bp i))); [by rewrite Hnode|].
    split_and!; [by apply addrs_lookup|done|]. intros j c Hj Hlt ->. rewrite (addrs_lookup bp n j) in Hj by lia.
    apply (inj Some), node_addr_inj in Hj. lia. }
  cbn zeta. split_and!; [|done|cbn; lia..|cbn; by rewrite Hp2, Hp1, length_fmap, length_seq|apply addrs_config; lia| |].
  - unfold StartWithNodes. fold (clamp count). cbn zeta. fold n bp. mrun. rewrite Hrun.
    rewrite (M_bind_run _ _ _ tt cm) by done. mrun. rewrite (M_bind_run _ _ _ _ _ E1). mrun. rewrite Hp1.
    rewrite (M_bind_run _ _ _ _ _ E2). mrun. unfold on_bus. fold cm3. by rewrite Ep.
  - apply rep_boot. intros a. unfold eng. destruct (list_find _ _) as [[i ?]|] eqn:Ef.
    + apply list_find_Some in Ef as (Hi & -> & _). assert (i < n)%nat as Hlt.
      { apply lookup_lt_Some in Hi. unfold addrs_of in Hi. by rewrite length_fmap, length_seq in Hi. }
      destruct (Heng i Hlt) as (e & coins & -> & _ & Ee). by exists coins.
    + exists (fun _ => []). vm_compute. reflexivity.
  - intros i Hi. destruct (Heng i Hi) as (e & coins & Hnode & <- & _). exists (length (cm_heap cm) + i)%nat, (fresh bp n i).
    split_and!.
    + cbn. by rewrite Hp2, Hp1, list_lookup_fmap, lookup_seq_lt.
    + cbn. rewrite Hh2, lookup_app_r by lia. by replace (length (cm_heap cm) + i - length (cm_heap cm))%nat with i by lia.
    + apply boot_lookup, addrs_elem. eauto.
    + cbn. by apply id_of_addr.
Qed.

(** Nothing fails, on base port 17000. *)
Definition calm_io (i : nat) : NodeIO :=
  mkNodeIO (Ok tt) (Ok []) (Ok (node_addr 17000 i)) None (open_ok (fun _ => [])) (Ok tt) (fun _ => 0) 1 (fun _ => demo_io).

Lemma cluster_start_is_boot_witness :
  exists cm', StartWithNodes (Ok tt) 0 calm_io 0 3 (NewClusterManager NewEventBus) = (Ok tt, cm') /\
    cm_running cm' = true /\ length (cm_nodes cm') = 3%nat.
Proof.
  destruct (cluster_start_is_boot 0 calm_io 0 3 (NewClusterManager NewEventBus) []) as (cm' & eng & E & Hr & _ & Hl & _).
  - intros i. repeat split. exists (fun _ => []). reflexivity.
  - apply bus_new.
  - reflexivity.
  - exists cm'. split; [exact E|]. split; [exact Hr|exact Hl].
Defined.
