(* ===== verification/ClusterFaults.v ===== *)
(** * Stopping and reading a cluster

    Three behaviours of server/cluster.go that its callers do not expect: a
    manager one of whose nodes was stopped can never be stopped, stopping can
    wait for ever for the status loop, and a read can miss a write the same
    manager has acknowledged. *)

From stdpp Require Import pretty.
From S2P Require Import Prelude GoStd Protocol RaftLog Engine EngineRun Server Raft RaftSystem RaftLogs RaftElection RaftStateMachine Node Replica Events ClusterManager.

(** ** Stop after StopNode *)

(** Stopping a node that is closed panics. *)
Lemma stop_closed io p n cm : cm_heap cm !! p = Some n -> nd_closed n = true -> (stop_node io (Some p) cm).1 = Panic.
Proof. intros Hn Hc. unfold stop_node, on_node, Node_Stop. rewrite Hn. mrun. by rewrite Hc. Qed.

Lemma on_node_frame {A} p (m : M Node A) cm x cm' :
  on_node p m cm = (x, cm') -> cm_running cm' = cm_running cm /\ forall q, q <> p -> cm_heap cm' !! q = cm_heap cm !! q.
Proof.
  unfold on_node. destruct (cm_heap cm !! p) as [n|]; [|by intros [= _ <-]]. destruct (m n) as [y n']. intros [= _ <-].
  split; [done|]. intros q Hq. cbn. by rewrite list_lookup_insert_ne.
Qed.

(** The loop of [Stop] does not get past a closed node. *)
Lemma stop_all_closed ios k ps firstErr cm p n :
  Some p ∈ ps -> cm_heap cm !! p = Some n -> nd_closed n = true ->
  exists x cm', stop_all ios k ps firstErr cm = (x, cm') /\ (x = Panic \/ x = OutOfFuel) /\ cm_running cm' = cm_running cm.
Proof.
  intros Hp Hn Hc. revert k firstErr cm Hn. induction ps as [|q ps IH]; intros k firstErr cm Hn; [by apply not_elem_of_nil in Hp|].
  destruct q as [q|]; cbn [stop_all].
  2: { apply elem_of_cons in Hp as [|Hp]; [done|]. by apply IH. }
  destruct (stop_node (ios k) (Some q) cm) as [x cm1] eqn:E. pose proof E as Hf. apply on_node_frame in Hf as [Hr Hh].
  destruct (decide (q = p)) as [-> |Hne].
  { pose proof (stop_closed (ios k) p n cm Hn Hc) as Hx. rewrite E in Hx. cbn in Hx. subst x.
    exists Panic, cm1. auto. }
  apply elem_of_cons in Hp as [[= ->]|Hp]; [done|]. rewrite <- Hr. rewrite <- (Hh p) in Hn by done.
  destruct x; [by apply IH|by apply IH|by exists Panic, cm1; auto|by exists OutOfFuel, cm1; auto].
Qed.

(** A stopped node is closed. *)
Lemma Node_Stop_closed fuel ios n x n' : Node_Stop fuel ios n = (x, n') -> x = Ok tt -> nd_closed n' = true.
Proof.
  unfold Node_Stop. mrun. destruct (nd_closed n); [by intros [= <- _]|]. mrun. intros E ->.
  apply M_bind_Ok in E as ([] & n1 & E1 & E2). unfold on_raft in E1. cbn [nd_raft nd_eng nd_closed] in E1.
  destruct (Raft_Stop _) as [y r]. injection E1 as _ <-. destruct (nd_eng n) as [e|]; cbn in E2.
  - unfold on_eng in E2. cbn in E2. destruct (Engine_Close fuel ios e). by injection E2 as _ <-.
  - by injection E2 as <-.
Qed.

Lemma find_node_in cm id ps p : find_node cm id ps = Ok (Some p) -> Some p ∈ ps.
Proof.
  induction ps as [|[q|] ps IH]; cbn [find_node]; [done| |intros H; right; auto].
  destruct (cm_heap cm !! q); [|done]. case_bool_decide; [intros [= ->]; left|intros; right; auto].
Qed.

(** A manager that stopped one node cannot be stopped.  After a successful
    [StopNode], [Stop] closes the node's channel a second time and panics (or
    hangs before that); it never returns, and the manager still counts as
    running, so that it cannot be started again either. *)
Theorem cluster_stop_after_stop_node :
  forall (io : NodeIO) (now : Z) (id : bytes) (cm cm1 : ClusterManager),
  StopNode io now id cm = (Ok tt, cm1) ->
  forall (ios : nat -> NodeIO) (later : Z), exists x cm2,
    ClusterManager_Stop ios later cm1 = (x, cm2) /\ (x = Panic \/ x = OutOfFuel) /\ cm_running cm2 = true /\
    forall mkdir port ios' now' count, StartWithNodes mkdir port ios' now' count cm2 = (Ok tt, cm2).
Proof.
  intros io now id cm cm1 E ios later. revert E. unfold StopNode. mrun. destruct (cm_running cm) eqn:Hr; [|done]. cbn [negb]. intros E.
  apply M_bind_Ok in E as (found & cm0 & [= Ef <-] & E). destruct found as [p|]; [|done]. destruct (is_stopped _ _); [done|].
  apply M_bind_Ok in E as ([] & cm3 & Es & E). pose proof Es as Hf. apply on_node_frame in Hf as [Hr3 _].
  assert (cm_nodes cm3 = cm_nodes cm /\ exists n, cm_heap cm3 !! p = Some n /\ nd_closed n = true) as (Hn3 & n & Hn & Hc).
  { revert Es. unfold stop_node, on_node. destruct (cm_heap cm !! p) as [n|] eqn:Hn; [|done].
    destruct (Node_Stop _ _ n) as [y n'] eqn:En. intros [= -> <-]. split; [done|]. exists n'. cbn.
    rewrite list_lookup_insert_eq by (by eapply lookup_lt_Some). split; [done|]. by eapply Node_Stop_closed. }
  clear Es. revert E. mrun. unfold on_bus. cbn [set_stopped cm_events]. destruct (Publish _ _) as [y b]. intros [= -> <-].
  unfold ClusterManager_Stop. mrun. cbn [cm_running cm_closed cm_nodes]. rewrite Hr3, Hr. cbn [negb].
  destruct (cm_closed cm3) eqn:Hcl.
  { eexists _, _. split_and!; [done|by left|done|]. intros. unfold StartWithNodes. by mrun. }
  mrun. match goal with |- exists x cm2, (stop_all _ _ _ _ ≫= _) ?s = _ /\ _ =>
    destruct (stop_all_closed ios 0 (cm_nodes cm3) None s p n) as (x & cm2 & E & Hx & Hrun) end; [by rewrite Hn3; eapply find_node_in|done|done|].
  unfold mbind, M_bind. rewrite E. exists (match x with OutOfFuel => OutOfFuel | _ => Panic end), cm2.
  cbn in Hrun. split_and!; [by destruct Hx as [-> | ->]|by destruct Hx as [-> | ->]; auto|done|].
  intros. unfold StartWithNodes. mrun. by rewrite Hrun.
Qed.

(** A started cluster of three, one of whose nodes is stopped. *)
Definition demo_cm : ClusterManager := (ClusterManager_Start (Ok tt) 0 calm_io 0 (NewClusterManager NewEventBus)).2.
Definition stopped_cm : ClusterManager := (StopNode (calm_io 1) 1 (node_id 1) demo_cm).2.

Lemma stop_node_runs : StopNode (calm_io 1) 1 (node_id 1) demo_cm = (Ok tt, stopped_cm).
Proof.
  unfold stopped_cm. destruct (StopNode _ _ _ demo_cm) as [x cm] eqn:E. apply (f_equal fst) in E. cbn [fst snd] in *.
  assert ((StopNode (calm_io 1) 1 (node_id 1) demo_cm).1 = Ok tt) as Hx by (vm_compute; reflexivity). congruence.
Qed.

Lemma cluster_stop_after_stop_node_witness :
  exists x cm2, ClusterManager_Stop calm_io 2 stopped_cm = (x, cm2) /\ (x = Panic \/ x = OutOfFuel) /\ cm_running cm2 = true.
Proof.
  destruct (cluster_stop_after_stop_node (calm_io 1) 1 (node_id 1) demo_cm stopped_cm stop_node_runs calm_io 2) as (x & cm2 & E & Hx & Hr & _).
  exists x, cm2. split; [exact E|]. split; [exact Hx|exact Hr].
Defined.

(** ** Stop and the status loop *)

(** [Stop] holds [cm.mu] while it waits for [statusLoop]; a round of
    [statusLoop] takes the same lock for reading, twice. *)
Module stop_race.

(** Where [statusLoop] stands. *)
Inductive loop_pc :=
| LoopSelect
| LoopRates
| LoopInRates
| LoopStatus
| LoopInStatus
| LoopPublish
| LoopDone.

(** Where [Stop] stands: before [Lock], holding it, in [wg.Wait], returned. *)
Inductive manager_stop_pc :=
| StopLock
| StopClose
| StopWait
| StopReturned.

Record race := mkRace {
  ra_loop : loop_pc;
  ra_stop : manager_stop_pc;
  ra_tick : bool;
  ra_closed : bool;
  ra_readers : nat;
  ra_writer : bool
}.

Inductive race_step : race -> race -> Prop :=
| race_tick l s t c r w : race_step (mkRace l s t c r w) (mkRace l s true c r w)
| race_take_tick s c r w : race_step (mkRace LoopSelect s true c r w) (mkRace LoopRates s false c r w)
| race_take_close s t r w : race_step (mkRace LoopSelect s t true r w) (mkRace LoopDone s t true r w)
| race_rlock s t c r : race_step (mkRace LoopRates s t c r false) (mkRace LoopInRates s t c (S r) false)
| race_runlock s t c r w : race_step (mkRace LoopInRates s t c (S r) w) (mkRace LoopStatus s t c r w)
| race_rlock_status s t c r : race_step (mkRace LoopStatus s t c r false) (mkRace LoopInStatus s t c (S r) false)
| race_runlock_status s t c r w : race_step (mkRace LoopInStatus s t c (S r) w) (mkRace LoopPublish s t c r w)
| race_publish s t c r w : race_step (mkRace LoopPublish s t c r w) (mkRace LoopSelect s t c r w)
| race_lock l t c : race_step (mkRace l StopLock t c 0 false) (mkRace l StopClose t c 0 true)
| race_close l t r w : race_step (mkRace l StopClose t false r w) (mkRace l StopWait t true r w)
| race_wait t c r : race_step (mkRace LoopDone StopWait t c r true) (mkRace LoopDone StopReturned t c r false).

Definition race_start : race := mkRace LoopSelect StopLock false false 0 false.

(** The loop has taken a tick and waits for the lock [Stop] holds. *)
Definition stuck (x : race) : Prop :=
  (ra_loop x = LoopRates \/ ra_loop x = LoopStatus) /\ ra_stop x = StopWait /\ ra_writer x = true.

Lemma stuck_step x y : stuck x -> race_step x y -> stuck y.
Proof. intros (Hl & Hs & Hw) Hst. destruct Hst; cbn in *; try done; destruct Hl; done. Qed.

Lemma stuck_rtc x y : stuck x -> rtc race_step x y -> stuck y.
Proof. intros Hx Hrun. induction Hrun as [|x y z Hst _ IH]; [done|]. apply IH. by eapply stuck_step. Qed.

(** C40. [Stop] can wait for ever.  There is a run in which the status loop has
    taken a tick just before [Stop] takes the lock; from then on, whatever
    happens, [Stop] stays in its wait and the lock is never released. *)
Theorem cluster_stop_deadlocks :
  exists x, rtc race_step race_start x /\ ra_stop x = StopWait /\
    forall y, rtc race_step x y -> ra_stop y = StopWait /\ ra_writer y = true.
Proof.
  exists (mkRace LoopRates StopWait false true 0 true). split_and!; [|done|].
  - eapply rtc_l; [apply race_tick|]. eapply rtc_l; [apply race_take_tick|]. eapply rtc_l; [apply race_lock|].
    eapply rtc_l; [apply race_close|]. done.
  - intros y Hy. apply stuck_rtc in Hy as (_ & ? & ?); [done|]. by repeat split; left.
Qed.
End stop_race.

(** ** A read after an acknowledged write *)

Definition A (i : nat) : bytes := node_addr 17000 i.
Definition demo_boot : Cluster := boot (addrs_of 17000 3) (id_of 17000 3).

(** The manager of a started cluster whose nodes have reached the states of
    [c]; nothing was applied to their engines. *)
Definition cm_at (c : Cluster) : ClusterManager :=
  set_heap ((fun i => mkNode (node_of (A i) c) (Some node_engine) false) <$> seq 0 3) demo_cm.

Lemma result_is {St X} (m : M St X) s r : (m s).1 = r -> m s = (r, (m s).2).
Proof. intros <-. by destruct (m s). Qed.

Definition put_data : bytes := EncodePutCommand [x6b] [x76].

(** Node 0 is elected; then it proposes; then node 1 stores the entry and node
    0 learns of it. *)
Definition elect_0 : list event :=
  [EvTimeout (A 0) rio_ok; EvDeliver 0 rio_ok; EvDeliver 0 rio_ok; EvCount (A 0) 1 (A 1); EvWon (A 0) 1 (A 1)].
Definition propose_0 : list event := elect_0 ++ [EvPropose (A 0) CmdRaftPut put_data].
Definition commit_0 : list event := propose_0 ++ [EvReplicate (A 0) (A 1); EvDeliver 0 rio_ok; EvDeliver 0 rio_ok].

(** A read can miss an acknowledged write.  In a run without any failure, a
    [Put] through the manager returns nil once its entry is committed, and a
    following [Get] of the same key through the same leader answers that the
    key does not exist: commitment does not wait for the entry to be applied,
    and reads do not wait either. *)
Theorem cluster_read_misses_write :
  exists pp cm2 cm3,
    (exists tr, trace healthy_io demo_boot (last_state demo_boot commit_0 :: tr)) /\
    Put_begin [] [x6b] [x76] (cm_at (last_state demo_boot elect_0)) = (Ok pp, cm2) /\
    nd_raft <$> cm_heap cm2 = nd_raft <$> cm_heap (cm_at (last_state demo_boot propose_0)) /\
    Put_end WakeDone pp (cm_at (last_state demo_boot commit_0)) = (Ok tt, cm3) /\
    (ClusterManager_Get [] [x6b] cm3).1 = Ok ([], false).
Proof.
  exists (0%nat, mkProposal 1 0), (Put_begin [] [x6b] [x76] (cm_at (last_state demo_boot elect_0))).2,
    (Put_end WakeDone (0%nat, mkProposal 1 0) (cm_at (last_state demo_boot commit_0))).2. split_and!.
  - apply run_ends; [repeat constructor|vm_compute; reflexivity].
  - apply result_is. vm_compute. reflexivity.
  - vm_compute. reflexivity.
  - apply result_is. vm_compute. reflexivity.
  - vm_compute. reflexivity.
Qed.
