(* ===== verification/Api.v ===== *)
(** * server/api.go: the JSON API

    The key-value and cluster endpoints.  A request is its method, its query
    and what decoding its body left in the handler's struct; a response is a
    status and a JSON value.  Handlers of writes to the cluster are split at
    the wait for the commit.  The benchmarks are in ApiBench; the embedded pages
    are not modelled.

    [api_answers_like_store]: every accepted request is one call of the store,
    with the status that belongs to its result. *)

From stdpp Require Import pretty.
From S2P Require Import Prelude GoStd Protocol RaftLog Engine EngineRun Server Client Raft Node Events ClusterManager.

(** ** Requests and responses *)

(** What [Decode] left in the request struct: an error's text, and the fields
    (zero when absent). *)
Record Body := mkBody {
  bd_err : option bytes;
  bd_key : bytes;
  bd_value : bytes;
  bd_keys : list bytes;
  bd_values : list bytes;
  bd_pairs : list (bytes * bytes);
  bd_start : bytes;
  bd_end : bytes;
  bd_id : bytes;
  bd_nodeCount : Z
}.

Definition empty_body : Body := mkBody None [] [] [] [] [] [] [] [] 0.

Record Request := mkRequest {
  rq_method : string;
  rq_query : string -> bytes;
  rq_body : Body
}.

Record Response := mkResponse {
  rp_headers : list (string * string);
  rp_status : Z;
  rp_body : option json
}.

Definition set_header (k v : string) (r : Response) : Response := mkResponse ((k, v) :: rp_headers r) (rp_status r) (rp_body r).

Definition content_json : list (string * string) := [("Content-Type"%string, "application/json"%string)].

Definition jsonOK (v : json) : Response := mkResponse content_json 200 (Some v).

Definition jsonErr (status : Z) (msg : bytes) : Response :=
  mkResponse content_json status (Some (JObj [("ok"%string, JBool false); ("error"%string, JStr msg)])).

Definition jsonMissing : Response :=
  mkResponse content_json 404
    (Some (JObj [("ok"%string, JBool false); ("found"%string, JBool false); ("error"%string, JStr (text "not found"))])).

(** The headers [cors] adds; an OPTIONS request goes no further. *)
Definition cors {St} (next : Request -> M St Response) (r : Request) : M St Response :=
  resp ← (if bool_decide (rq_method r = "OPTIONS"%string) then mret (mkResponse [] 204 None) else next r);
  mret (set_header "Access-Control-Allow-Origin" "*"
    (set_header "Access-Control-Allow-Methods" "GET, POST, PUT, DELETE, OPTIONS"
      (set_header "Access-Control-Allow-Headers" "Content-Type" resp))).

Section kv.
Context {St : Type} `{!KV St} (os : bytes).

(** [if err := m(); err != nil { jsonErr(w, 500, err.Error()); return }] *)
Definition or_500 {S A} (m : M S A) (k : A -> M S Response) : M S Response := fun s =>
  match m s with
  | (Ok a, s) => k a s
  | (Err e, s) => (Ok (jsonErr 500 (Error os e)), s)
  | (Panic, s) => (Panic, s)
  | (OutOfFuel, s) => (OutOfFuel, s)
  end.

Definition api_handlePut (r : Request) : M St Response :=
  match bd_err (rq_body r) with
  | Some err => mret (jsonErr 400 err)
  | None =>
      if bool_decide (bd_key (rq_body r) = []) then mret (jsonErr 400 (text "key is required")) else
      or_500 (kv_put (bd_key (rq_body r)) (bd_value (rq_body r))) (fun _ =>
      mret (jsonOK (JObj [("ok"%string, JBool true)])))
  end.

(** The key of a GET is in the query; decoding errors of a body are dropped. *)
Definition api_handleGet (r : Request) : M St Response :=
  let key := if bool_decide (rq_method r = "GET"%string) then rq_query r "key" else bd_key (rq_body r) in
  if bool_decide (key = []) then mret (jsonErr 400 (text "key is required")) else fun s =>
  match kv_get key s with
  | Ok v => (Ok (jsonOK (JObj [("ok"%string, JBool true); ("found"%string, JBool true); ("value"%string, JStr (val_bytes v))])), s)
  | Err e => (Ok (if is_not_found e then jsonMissing else jsonErr 500 (Error os e)), s)
  | Panic => (Panic, s)
  | OutOfFuel => (OutOfFuel, s)
  end.

Definition api_handleDelete (r : Request) : M St Response :=
  let key := if bool_decide (rq_method r = "GET"%string) || bool_decide (rq_method r = "DELETE"%string)
             then rq_query r "key" else bd_key (rq_body r) in
  if bool_decide (key = []) then mret (jsonErr 400 (text "key is required")) else
  or_500 (kv_delete key) (fun _ => mret (jsonOK (JObj [("ok"%string, JBool true)]))).

Definition api_handleBatch (r : Request) : M St Response :=
  let b := rq_body r in
  match bd_err b with
  | Some err => mret (jsonErr 400 err)
  | None =>
      let put keys values :=
        or_500 (kv_batch_put keys values) (fun _ =>
        mret (jsonOK (JObj [("ok"%string, JBool true); ("count"%string, JInt (len keys))]))) in
      if 0 <? len (bd_keys b) then
        if negb (len (bd_keys b) =? len (bd_values b)) then mret (jsonErr 400 (text "keys and values must have equal length"))
        else put (bd_keys b) (bd_values b)
      else if 0 <? len (bd_pairs b) then put (bd_pairs b).*1 (bd_pairs b).*2
      else mret (jsonErr 400 (text "keys/values or pairs required"))
  end.

Definition pairs_json (pairs : list KVPair) : json :=
  JArr ((fun p => JObj [("key"%string, JStr (kv_Key p)); ("value"%string, JStr (kv_Value p))]) <$> pairs).

Definition api_handleRange (r : Request) : M St Response :=
  let '(start, end_) := if bool_decide (rq_method r = "GET"%string) then (rq_query r "start", rq_query r "end")
                        else (bd_start (rq_body r), bd_end (rq_body r)) in
  if bool_decide (start = []) || bool_decide (end_ = []) then mret (jsonErr 400 (text "start and end are required")) else fun s =>
  or_500 (lift (kv_range start end_ s)) (fun pairs =>
    mret (jsonOK (JObj [("ok"%string, JBool true); ("pairs"%string, pairs_json pairs); ("count"%string, JInt (len pairs))]))) s.
End kv.

(** ** Cluster endpoints *)

Section cluster.
Context (os : bytes).

Definition cm_or_500 {A} := @or_500 os ClusterManager A.

Definition api_handleClusterStart (mkdir : res unit) (port : Z) (ios : nat -> NodeIO) (now : Z) (r : Request) : M ClusterManager Response :=
  let count := if bd_nodeCount (rq_body r) <=? 0 then 3 else bd_nodeCount (rq_body r) in
  cm_or_500 (StartWithNodes mkdir port ios now count) (fun _ =>
  mret (jsonOK (JObj [("ok"%string, JBool true); ("nodeCount"%string, JInt count)]))).

Definition api_handleClusterStop (ios : nat -> NodeIO) (now : Z) (r : Request) : M ClusterManager Response :=
  cm_or_500 (ClusterManager_Stop ios now) (fun _ => mret (jsonOK (JObj [("ok"%string, JBool true)]))).

Definition api_handleClusterStatus (ms : Z) (r : Request) : M ClusterManager Response := fun cm =>
  (status ← lift (ClusterManager_Status ms cm); mret (jsonOK (status_json status))) cm.

(** A handler whose body must decode and name a key. *)
Definition with_key {A} (ret : Response -> A) (r : Request) (missing : string) (key : bytes) (k : M ClusterManager A) : M ClusterManager A :=
  match bd_err (rq_body r) with
  | Some err => mret (ret (jsonErr 400 err))
  | None => if bool_decide (key = []) then mret (ret (jsonErr 400 (text missing))) else k
  end.

(** The first half of a write: a response, or a proposal to wait for. *)
Definition begin_write (m : M ClusterManager (nat * proposal)) : M ClusterManager (Response + (nat * proposal)) := fun cm =>
  match m cm with
  | (Ok pp, cm) => (Ok (inr pp), cm)
  | (Err e, cm) => (Ok (inl (jsonErr 500 (Error os e))), cm)
  | (Panic, cm) => (Panic, cm)
  | (OutOfFuel, cm) => (OutOfFuel, cm)
  end.

Definition api_handleClusterPut_begin (later : list ClusterManager) (r : Request) : M ClusterManager (Response + (nat * proposal)) :=
  with_key inl r "key is required" (bd_key (rq_body r)) (begin_write (Put_begin later (bd_key (rq_body r)) (bd_value (rq_body r)))).
Definition api_handleClusterPut_end (by_ : wake) (pp : nat * proposal) : M ClusterManager Response :=
  cm_or_500 (Put_end by_ pp) (fun _ => mret (jsonOK (JObj [("ok"%string, JBool true)]))).

Definition api_handleClusterGet (later : list ClusterManager) (r : Request) : M ClusterManager Response :=
  with_key id r "key is required" (bd_key (rq_body r)) (
  cm_or_500 (ClusterManager_Get later (bd_key (rq_body r))) (fun '(val, found) =>
  mret (if negb found then jsonMissing
        else jsonOK (JObj [("ok"%string, JBool true); ("found"%string, JBool true); ("value"%string, JStr val)])))).

Definition api_handleClusterDelete_begin (later : list ClusterManager) (r : Request) : M ClusterManager (Response + (nat * proposal)) :=
  with_key inl r "key is required" (bd_key (rq_body r)) (begin_write (Delete_begin later (bd_key (rq_body r)))).
Definition api_handleClusterDelete_end (by_ : wake) (pp : nat * proposal) : M ClusterManager Response :=
  cm_or_500 (Delete_end by_ pp) (fun _ => mret (jsonOK (JObj [("ok"%string, JBool true)]))).

Definition api_handleClusterBatch_begin (later : list ClusterManager) (r : Request) : M ClusterManager (Response + (nat * proposal)) :=
  let b := rq_body r in
  match bd_err b with
  | Some err => mret (inl (jsonErr 400 err))
  | None =>
      if len (bd_keys b) =? 0 then mret (inl (jsonErr 400 (text "keys are required")))
      else if negb (len (bd_keys b) =? len (bd_values b)) then mret (inl (jsonErr 400 (text "keys and values must have equal length")))
      else begin_write (BatchPut_begin later (bd_keys b) (bd_values b))
  end.
Definition api_handleClusterBatch_end (by_ : wake) (pp : nat * proposal) (r : Request) : M ClusterManager Response :=
  cm_or_500 (BatchPut_end by_ pp (bd_keys (rq_body r))) (fun _ =>
  mret (jsonOK (JObj [("ok"%string, JBool true); ("count"%string, JInt (len (bd_keys (rq_body r))))]))).

Definition api_handleClusterRange (later : list ClusterManager) (fuel : nat) (r : Request) : M ClusterManager Response :=
  match bd_err (rq_body r) with
  | Some err => mret (jsonErr 400 err)
  | None =>
      if bool_decide (bd_start (rq_body r) = []) || bool_decide (bd_end (rq_body r) = [])
      then mret (jsonErr 400 (text "start and end are required")) else
      cm_or_500 (ClusterManager_GetRange later fuel (bd_start (rq_body r)) (bd_end (rq_body r))) (fun pairs =>
      mret (jsonOK (JObj [("ok"%string, JBool true); ("pairs"%string, pairs_json pairs); ("count"%string, JInt (len pairs))])))
  end.

Definition api_handleClusterStopNode (io : NodeIO) (now : Z) (r : Request) : M ClusterManager Response :=
  with_key id r "id is required" (bd_id (rq_body r)) (
  cm_or_500 (StopNode io now (bd_id (rq_body r))) (fun _ => mret (jsonOK (JObj [("ok"%string, JBool true)])))).

(** The event stream: the headers or a refusal (a plain text), and the
    subscription. *)
Definition stream_headers : list (string * string) :=
  [("Content-Type", "text/event-stream"); ("Cache-Control", "no-cache"); ("Connection", "keep-alive");
   ("Access-Control-Allow-Origin", "*")]%string.

Definition handleClusterEvents_open (flusher : bool) : M ClusterManager (Response + nat) :=
  if negb flusher then mret (inl (mkResponse [("Content-Type", "text/plain; charset=utf-8")]%string 500 None))
  else ch ← on_bus Subscribe; mret (inr ch).

(** One turn of its loop: [cancelled] chooses the case of the [select] that is
    ready.  The result is the event sent; [None] when the client has left and
    the deferred [Unsubscribe] has run.  [OutOfFuel]: the case is not ready. *)
Definition handleClusterEvents_turn (ch : nat) (cancelled : bool) : M ClusterManager (option Event) :=
  if cancelled then on_bus (Unsubscribe ch);; mret None else
  on_bus (fun b =>
    match receive ch b with
    | None => (OutOfFuel, b)
    | Some (Some e, b) => (Ok (Some e), b)
    | Some (None, b) => (Ok (Some (mkEvent "" JNull 0)), b)
    end).
End cluster.

(** ** Routes *)

Inductive endpoint :=
| EpPut | EpGet | EpDelete | EpBatch | EpRange
| EpBenchWrites | EpBenchReads | EpBenchBatch | EpBenchRange | EpBenchMixed | EpCrashRecovery
| EpInfo
| EpClusterStart | EpClusterStop | EpClusterStatus | EpClusterPut | EpClusterGet | EpClusterDelete | EpClusterBatch | EpClusterRange
| EpClusterStopNode | EpClusterEvents.

(** The table of [NewAPIServer]; other paths are files of the dashboard. *)
Definition routes : list (string * endpoint) :=
  [("/api/put", EpPut); ("/api/get", EpGet); ("/api/delete", EpDelete); ("/api/batch", EpBatch); ("/api/batch-put", EpBatch);
   ("/api/range", EpRange);
   ("/api/benchmark/writes", EpBenchWrites); ("/api/benchmark/seq-write", EpBenchWrites); ("/api/benchmark/reads", EpBenchReads);
   ("/api/benchmark/rand-read", EpBenchReads); ("/api/benchmark/batch", EpBenchBatch); ("/api/benchmark/batch-write", EpBenchBatch);
   ("/api/benchmark/range", EpBenchRange); ("/api/benchmark/range-scan", EpBenchRange); ("/api/benchmark/mixed", EpBenchMixed);
   ("/api/benchmark/crash-recovery", EpCrashRecovery); ("/api/demo/crash-recovery", EpCrashRecovery);
   ("/api/info", EpInfo);
   ("/api/cluster/start", EpClusterStart); ("/api/cluster/stop", EpClusterStop); ("/api/cluster/status", EpClusterStatus);
   ("/api/cluster/put", EpClusterPut); ("/api/cluster/get", EpClusterGet); ("/api/cluster/delete", EpClusterDelete);
   ("/api/cluster/batch", EpClusterBatch); ("/api/cluster/range", EpClusterRange); ("/api/cluster/stop-node", EpClusterStopNode);
   ("/api/cluster/events", EpClusterEvents)]%string.

(** A request to a key-value endpoint; [None]: another path. *)
Definition serve_kv {St} `{!KV St} (os : bytes) (path : string) (r : Request) : option (M St Response) :=
  ep ← (snd <$> list_find (fun e => e.1 = path) routes);
  match ep.2 with
  | EpPut => Some (cors (api_handlePut os) r)
  | EpGet => Some (cors (api_handleGet os) r)
  | EpDelete => Some (cors (api_handleDelete os) r)
  | EpBatch => Some (cors (api_handleBatch os) r)
  | EpRange => Some (cors (api_handleRange os) r)
  | _ => None
  end.

(** ** The API and the store *)

(** What a request asks of the store, or why it is refused. *)
Definition asked (ep : endpoint) (r : Request) : bytes + request :=
  let b := rq_body r in
  let q k := rq_query r k in
  let meth m := bool_decide (rq_method r = m) in
  let need_key key rq := if bool_decide (key = []) then inl (text "key is required") else inr rq in
  match ep with
  | EpPut => match bd_err b with Some err => inl err | None => need_key (bd_key b) (RqPut (bd_key b) (bd_value b)) end
  | EpGet => let key := if meth "GET"%string then q "key"%string else bd_key b in need_key key (RqGet key)
  | EpDelete => let key := if meth "GET"%string || meth "DELETE"%string then q "key"%string else bd_key b in need_key key (RqDelete key)
  | EpBatch =>
      match bd_err b with
      | Some err => inl err
      | None =>
          match bd_keys b, bd_pairs b with
          | _ :: _, _ => if decide (length (bd_keys b) = length (bd_values b)) then inr (RqBatchPut (bd_keys b) (bd_values b))
                         else inl (text "keys and values must have equal length")
          | [], _ :: _ => inr (RqBatchPut (bd_pairs b).*1 (bd_pairs b).*2)
          | [], [] => inl (text "keys/values or pairs required")
          end
      end
  | _ =>
      let start := if meth "GET"%string then q "start"%string else bd_start b in
      let end_ := if meth "GET"%string then q "end"%string else bd_end b in
      if bool_decide (start = []) || bool_decide (end_ = []) then inl (text "start and end are required") else inr (RqGetRange start end_)
  end.

(** The response to a call of the store. *)
Definition reply_json (os : bytes) (rq : request) (x : res response) : res Response :=
  match x with
  | Ok RsDone =>
      Ok (jsonOK (JObj (("ok"%string, JBool true) :: match rq with RqBatchPut ks _ => [("count"%string, JInt (len ks))] | _ => [] end)))
  | Ok (RsValue v) => Ok (jsonOK (JObj [("ok"%string, JBool true); ("found"%string, JBool true); ("value"%string, JStr v)]))
  | Ok (RsPairs l) => Ok (jsonOK (JObj [("ok"%string, JBool true); ("pairs"%string, pairs_json l); ("count"%string, JInt (len l))]))
  | Err e =>
      match rq with
      | RqGet _ => if is_not_found e then Ok jsonMissing else Ok (jsonErr 500 (Error os e))
      | _ => Ok (jsonErr 500 (Error os e))
      end
  | Panic => Panic
  | OutOfFuel => OutOfFuel
  end.

Definition with_cors (resp : Response) : Response :=
  set_header "Access-Control-Allow-Origin" "*"
    (set_header "Access-Control-Allow-Methods" "GET, POST, PUT, DELETE, OPTIONS"
      (set_header "Access-Control-Allow-Headers" "Content-Type" resp)).

Section api.
Context {St : Type} `{!KV St} (os : bytes).

Definition kv_endpoint (ep : endpoint) : bool :=
  match ep with EpPut | EpGet | EpDelete | EpBatch | EpRange => true | _ => false end.

Definition handler (ep : endpoint) : Request -> M St Response :=
  match ep with
  | EpPut => api_handlePut os
  | EpGet => api_handleGet os
  | EpDelete => api_handleDelete os
  | EpBatch => api_handleBatch os
  | _ => api_handleRange os
  end.

(** Writes: the call of the store, then its response. *)
Lemma or_500_write (m : M St unit) rq resp s :
  reply_json os rq (Ok RsDone) = Ok resp -> (forall e, reply_json os rq (Err e) = Ok (jsonErr 500 (Error os e))) ->
  or_500 os m (fun _ => mret resp) s = let '(x, s') := (m;; mret RsDone) s in (reply_json os rq x, s').
Proof.
  intros Hok Herr. unfold or_500, mbind, M_bind. destruct (m s) as [[[]|e| |] s1]; try done.
  - change ((Ok resp, s1) = (reply_json os rq (Ok RsDone), s1)). by rewrite Hok.
  - by rewrite Herr.
Qed.

Lemma handler_ok ep r s :
  kv_endpoint ep = true ->
  handler ep r s = match asked ep r with
                   | inl msg => (Ok (jsonErr 400 msg), s)
                   | inr rq => let '(x, s') := local rq s in (reply_json os rq x, s')
                   end.
Proof.
  destruct ep; try done; intros _; cbn [handler asked].
  - unfold api_handlePut. destruct (bd_err _); [done|]. case_bool_decide; [done|]. by apply or_500_write.
  - unfold api_handleGet. cbv zeta. set (key := if bool_decide (rq_method r = "GET"%string) then _ else _).
    destruct (bool_decide (key = [])); [done|]. cbn [local]. destruct (kv_get key s) as [v|e| |]; try done. cbn. by destruct (is_not_found e).
  - unfold api_handleDelete. cbv zeta. set (key := if _ || _ then _ else _). destruct (bool_decide (key = [])); [done|]. by apply or_500_write.
  - unfold api_handleBatch. cbv zeta. destruct (bd_err _); [done|]. destruct (bd_keys (rq_body r)) as [|k ks]; [destruct (bd_pairs (rq_body r)) as [|p ps]; [done|]|].
    + assert ((0 <? len (p :: ps)) = true) as -> by (apply Z.ltb_lt; unfold len; cbn; lia). by apply or_500_write.
    + assert ((0 <? len (k :: ks)) = true) as -> by (apply Z.ltb_lt; unfold len; cbn; lia).
      assert ((len (k :: ks) =? len (bd_values (rq_body r))) = bool_decide (length (k :: ks) = length (bd_values (rq_body r)))) as ->.
      { unfold len. case_bool_decide as Hl; [rewrite Hl; apply Z.eqb_refl|apply Z.eqb_neq; lia]. }
      case_bool_decide as Hl; [rewrite decide_True by done|by rewrite decide_False]. by apply or_500_write.
  - unfold api_handleRange. cbv zeta. destruct (bool_decide (rq_method r = _)); (destruct (_ || _); [done|]); cbn [local];
      unfold or_500, lift; by destruct (kv_range _ _ s).
Qed.

(** C20. The JSON API and the store.  A request to a key-value endpoint, other
    than OPTIONS, either is refused with status 400 and leaves the store alone,
    or is one call of the store, the same as the binary protocol makes for it:
    200 with the result, 404 for a missing key of a get, 500 with the error's
    text otherwise. *)
Theorem api_answers_like_store (path : string) (r : Request) (i : nat) (ep : endpoint) (s : St) :
  list_find (fun e => e.1 = path) routes = Some (i, (path, ep)) -> kv_endpoint ep = true -> rq_method r <> "OPTIONS"%string ->
  exists run, serve_kv os path r = Some run /\
    run s = match asked ep r with
            | inl msg => (Ok (with_cors (jsonErr 400 msg)), s)
            | inr rq => let '(x, s') := local rq s in (reply_json os rq x ≫= fun resp => Ok (with_cors resp), s')
            end.
Proof.
  intros Hep Hkv Hm. exists (cors (handler ep) r). split.
  - unfold serve_kv. rewrite Hep. by destruct ep.
  - unfold cors. rewrite bool_decide_eq_false_2 by done. unfold mbind, M_bind. rewrite handler_ok by done.
    destruct (asked ep r) as [msg|rq]; [done|]. destruct (local rq s) as [x s']. by destruct (reply_json os rq x).
Qed.
End api.

(** A get over HTTP. *)
Definition demo_get : Request := mkRequest "GET" (fun _ => [x61]) empty_body.

Lemma api_answers_like_store_witness :
  exists run, serve_kv [] "/api/get" demo_get = Some run /\
    run (mkServed demo1 (fun _ => demo_io) 3) =
      (Ok (with_cors (jsonOK (JObj [("ok"%string, JBool true); ("found"%string, JBool true); ("value"%string, JStr [x31])]))),
       mkServed demo1 (fun _ => demo_io) 3).
Proof.
  destruct (api_answers_like_store [] "/api/get" demo_get 1 EpGet (mkServed demo1 (fun _ => demo_io) 3)) as (run & Er & E).
  - vm_compute. reflexivity.
  - reflexivity.
  - discriminate.
  - exists run. split; [exact Er|]. rewrite E. vm_compute. reflexivity.
Defined.
