(* ===== verification/ApiBench.v ===== *)
(** * server/api.go: benchmarks and the crash recovery demo

    The benchmark handlers are written against what they use of the server
    (the class [Bench]); [APIServer] is the instance that picks the leader's
    engine or the server's own, with what the other goroutines do before each
    call as an argument.  Clock readings and random draws are arguments.

    [crash_recovery_reports_all]: the demo opens a database, writes, closes,
    opens it again and finds everything. *)

From Stdlib Require Import SpecFloat.
From stdpp Require Import pretty.
From S2P Require Import Prelude GoStd SkipList Memtable Wal SSTWriter SSTReader MergeIterator Manifest Engine EngineRun Shelf Recovery CompactRun EngineClose Server Client Raft Node Events ClusterManager Api.

(** ** Numbers and texts *)

(** [fmt.Sprintf("%.0f", f)]: to the nearest integer, ties to even. *)
Definition round_scaled (m e : Z) : Z :=
  if 0 <=? e then m * 2 ^ e else
  let q := m / 2 ^ (- e) in
  let r := m mod 2 ^ (- e) in
  match Z.compare (2 * r) (2 ^ (- e)) with
  | Lt => q
  | Gt => q + 1
  | Eq => if Z.even q then q else q + 1
  end.
Definition format0 (f : spec_float) : string :=
  match f with
  | S754_zero s => if s then "-0" else "0"
  | S754_infinity s => if s then "-Inf" else "+Inf"
  | S754_nan => "NaN"
  | S754_finite s m e => (if s then "-" else "") ++ pretty (round_scaled (Zpos m) e)
  end.

Definition fdiv : spec_float -> spec_float -> spec_float := SFdiv 53 1024.

(** [Duration.Seconds] of a duration in nanoseconds. *)
Definition Seconds (d : Z) : spec_float :=
  SFadd 53 1024 (float64 (Z.quot d 1000000000)) (fdiv (float64 (Z.rem d 1000000000)) (float64 1000000000)).

Definition finite (f : spec_float) : bool :=
  match f with S754_zero _ | S754_finite _ _ _ => true | _ => false end.

(** [rand.Intn(n)] for positive [n], from a draw. *)
Definition Intn (draw n : Z) : Z := draw mod n.

(** [draws]: the numbers drawn. *)
Definition randValue (draws : nat -> Z) (n : nat) : bytes :=
  (fun i => Zbyte (97 + Intn (draws i) 26)) <$> seq 0 n.

(** [fmt.Sprintf(tag + "%d", time.Now().UnixNano())] for a date after 1970. *)
Definition stamped (tag : string) (nano : Z) : bytes := text tag ++ digits 20 nano.

(** [%08d] of a number that is not negative. *)
Definition bkey (prefix : bytes) (i : Z) : bytes :=
  let d := digits 20 i in
  prefix ++ [x2d] ++ replicate (8 - length d) x30 ++ d.

(** ** What the benchmarks use of the server *)

Class Bench (St : Type) := {
  bench_running : St -> bool;
  bench_publish : Event -> M St unit;
  benchPut : bytes -> bytes -> M St unit;
  benchGet : bytes -> M St unit;
  benchBatchPut : list bytes -> list bytes -> M St unit;
  benchRange : bytes -> bytes -> M St unit
}.

Section bench.
Context {St : Type} `{!Bench St} (os : bytes).

Definition via : M St string := fun s => (Ok (if bench_running s then "engine (leader)" else "engine"), s).

Definition announce (now : Z) (msg : string) : M St unit := bench_publish (mkEvent "benchmark" (JStr (text msg)) now).

(** The loop that writes [count] keys in batches, from key [i] on. *)
Fixpoint fill (put : list bytes -> list bytes -> M St unit) (pfx val : bytes) (count batchSize : Z) (fuel : nat) (i : Z) : M St unit :=
  if i <? count then
    match fuel with
    | O => lift OutOfFuel
    | S fuel =>
        let sz := if count <? i + batchSize then count - i else batchSize in
        put ((fun j => bkey pfx (i + j)) <$> seqZ 0 sz) (replicate (Z.to_nat sz) val);;
        fill put pfx val count batchSize fuel (i + batchSize)
    end
  else mret tt.

(** Writes whose errors are dropped. *)
Definition quiet_batch (keys vals : list bytes) : M St unit := ignore (benchBatchPut keys vals).

Definition opsPerSec (count elapsed : Z) : spec_float := fdiv (float64 count) (Seconds elapsed).

(** The encoder refuses infinite numbers, and then the body is empty. *)
Definition bench_report (count elapsed : Z) : Response :=
  let ops := opsPerSec count elapsed in
  let lat := fdiv (float64 (Z.quot elapsed 1000)) (float64 count) in
  if finite ops && finite lat then
    jsonOK (JObj [("opsPerSec"%string, JFloat ops); ("avgLatencyUs"%string, JFloat lat);
                  ("totalMs"%string, JFloat (float64 (Z.quot elapsed 1000000))); ("count"%string, JInt count)])
  else mkResponse content_json 200 None.

(** [now i]: the [i]-th reading of the clock. *)
Definition handleBenchWrites (now : nat -> Z) (letters : nat -> Z) : M St Response :=
  let count := 10000 in
  let batchSize := 100 in
  let pfx := stamped "bw-" (now 0%nat) in
  let val := randValue letters 512 in
  via ← via;
  announce (now 1%nat) ("Starting writes benchmark (" ++ pretty count ++ " ops in batches of " ++ pretty batchSize ++ " via " ++ via ++ ")");;
  or_500 os (fill benchBatchPut pfx val count batchSize 100 0) (fun _ =>
  let elapsed := now 3%nat - now 2%nat in
  announce (now 4%nat) ("Writes: " ++ format0 (opsPerSec count elapsed) ++ " ops/sec (" ++ pretty count ++ " keys via " ++ via ++ ")");;
  mret (bench_report count elapsed)).

(** [for i := 0; i < todo; i++], the [i]-th run with the [i]-th draw. *)
Fixpoint repeat_draw (draws : nat -> Z) (body : Z -> M St unit) (todo i : nat) : M St unit :=
  match todo with
  | O => mret tt
  | S todo => body (draws i);; repeat_draw draws body todo (S i)
  end.

Definition handleBenchReads (now : nat -> Z) (letters draws : nat -> Z) : M St Response :=
  let count := 10000 in
  via ← via;
  let pfx := stamped "br-" (now 0%nat) in
  let val := randValue letters 512 in
  announce (now 1%nat) ("Pre-populating " ++ pretty count ++ " keys (512B each) via " ++ via ++ "...");;
  fill quiet_batch pfx val count 50 200 0;;
  announce (now 2%nat) ("Starting random reads benchmark (" ++ pretty count ++ " ops via " ++ via ++ ")");;
  repeat_draw draws (fun d => ignore (benchGet (bkey pfx (Intn d count)))) (Z.to_nat count) 0;;
  let elapsed := now 4%nat - now 3%nat in
  announce (now 5%nat) ("Random reads: " ++ format0 (opsPerSec count elapsed) ++ " ops/sec via " ++ via);;
  mret (bench_report count elapsed).

Definition handleBenchBatch (now : nat -> Z) (letters : nat -> Z) : M St Response :=
  let count := 10000 in
  let batchSize := 200 in
  via ← via;
  announce (now 0%nat) ("Starting batch writes benchmark (" ++ pretty count ++ " ops, batch size " ++ pretty batchSize ++ ", via " ++ via ++ ")");;
  let pfx := stamped "bb-" (now 1%nat) in
  let val := randValue letters 512 in
  or_500 os (fill benchBatchPut pfx val count batchSize 50 0) (fun _ =>
  let elapsed := now 3%nat - now 2%nat in
  announce (now 4%nat) ("Batch writes: " ++ format0 (opsPerSec count elapsed) ++ " ops/sec via " ++ via);;
  mret (bench_report count elapsed)).

Definition handleBenchRange (now : nat -> Z) (letters draws : nat -> Z) : M St Response :=
  let scanCount := 500 in
  let rangeSize := 100 in
  let totalKeys := 10000 in
  via ← via;
  let pfx := stamped "brs-" (now 0%nat) in
  let val := randValue letters 512 in
  announce (now 1%nat) ("Pre-populating " ++ pretty totalKeys ++ " keys for range scan via " ++ via ++ "...");;
  fill quiet_batch pfx val totalKeys 50 200 0;;
  announce (now 2%nat) ("Starting range scan benchmark (" ++ pretty scanCount ++ " scans via " ++ via ++ ")");;
  repeat_draw draws (fun d =>
    let si := Intn d (totalKeys - rangeSize) in
    ignore (benchRange (bkey pfx si) (bkey pfx (si + rangeSize)))) (Z.to_nat scanCount) 0;;
  let elapsed := now 4%nat - now 3%nat in
  announce (now 5%nat) ("Range scans: " ++ format0 (opsPerSec scanCount elapsed) ++ " scans/sec via " ++ via);;
  mret (bench_report scanCount elapsed).

(** The pending writes of the mixed workload: [writeBatch] (its values are all
    the same), [writeIdx] and [totalOps]. *)
Record Pending := mkPending { pd_batch : list bytes; pd_vals : list bytes; pd_writeIdx : Z; pd_totalOps : Z }.

Definition flush_pending (p : Pending) : M St Pending :=
  quiet_batch (pd_batch p) (pd_vals p);;
  mret (mkPending [] [] (pd_writeIdx p) (pd_totalOps p + len (pd_batch p))).

(** One turn: [read] when the coin says so. *)
Definition mixed_turn (pfx val : bytes) (prepop : Z) (read : bool) (draw : Z) (p : Pending) : M St Pending :=
  if read then
    p ← (if 0 <? len (pd_batch p) then flush_pending p else mret p);
    ignore (benchGet (bkey pfx (Intn draw prepop)));;
    mret (mkPending (pd_batch p) (pd_vals p) (pd_writeIdx p) (pd_totalOps p + 1))
  else
    let p := mkPending (pd_batch p ++ [bkey pfx (pd_writeIdx p)]) (pd_vals p ++ [val]) (pd_writeIdx p + 1) (pd_totalOps p) in
    if 20 <=? len (pd_batch p) then flush_pending p else mret p.

Fixpoint mixed_loop (pfx val : bytes) (prepop : Z) (coins : nat -> bool) (draws : nat -> Z) (todo i : nat) (p : Pending) : M St Pending :=
  match todo with
  | O => mret p
  | S todo => p ← mixed_turn pfx val prepop (coins i) (draws i) p; mixed_loop pfx val prepop coins draws todo (S i) p
  end.

Definition handleBenchMixed (now : nat -> Z) (letters : nat -> Z) (coins : nat -> bool) (draws : nat -> Z) : M St Response :=
  let count := 5000 in
  via ← via;
  let pfx := stamped "bm-" (now 0%nat) in
  let val := randValue letters 512 in
  let prepop := Z.quot count 2 in
  announce (now 1%nat) ("Pre-populating " ++ pretty prepop ++ " keys for mixed benchmark via " ++ via ++ "...");;
  fill quiet_batch pfx val prepop 50 50 0;;
  announce (now 2%nat) ("Starting mixed workload (" ++ pretty count ++ " ops, 50/50 read/write via " ++ via ++ ")");;
  p ← mixed_loop pfx val prepop coins draws (Z.to_nat count) 0 (mkPending [] [] prepop 0);
  (if 0 <? len (pd_batch p) then _ ← flush_pending p; mret tt else mret tt);;
  let elapsed := now 4%nat - now 3%nat in
  announce (now 5%nat) ("Mixed workload: " ++ format0 (opsPerSec count elapsed) ++ " ops/sec via " ++ via);;
  mret (bench_report count elapsed).
End bench.

(** ** The server *)

(** [api_others]: what the other goroutines did to the engine and the cluster
    before each of the calls to come; [api_later]: the states met while waiting
    for a leader in them; [api_ios]: the outcomes of the system calls in them. *)
Record APIServer := mkAPI {
  api_engine : Engine;
  api_cluster : ClusterManager;
  api_others : nat -> Engine * ClusterManager -> Engine * ClusterManager;
  api_later : nat -> list ClusterManager;
  api_ios : nat -> IO;
  api_fuel : nat
}.

Definition set_api (e : Engine) (cm : ClusterManager) (s : APIServer) : APIServer :=
  mkAPI e cm (api_others s) (api_later s) (api_ios s) (api_fuel s).

(** The next call begins. *)
Definition api_turn : M APIServer (list ClusterManager * IO) := fun s =>
  let '(e, cm) := api_others s 0%nat (api_engine s, api_cluster s) in
  (Ok (api_later s 0%nat, api_ios s 0%nat),
   mkAPI e cm (fun i => api_others s (S i)) (fun i => api_later s (S i)) (fun i => api_ios s (S i)) (api_fuel s)).

(** The leader's engine, or [None] for the server's own. *)
Definition benchEngine (later : list ClusterManager) : M APIServer (option nat) := fun s =>
  if IsRunning (api_cluster s) then
    match findLeader later (api_cluster s) with
    | (Ok p, cm) => (Ok (Some p), set_api (api_engine s) cm s)
    | (Err _, cm) => (Ok None, set_api (api_engine s) cm s)
    | (Panic, cm) => (Panic, set_api (api_engine s) cm s)
    | (OutOfFuel, cm) => (OutOfFuel, set_api (api_engine s) cm s)
    end
  else (Ok None, s).

(** A method call on the engine benchmarked. *)
Definition on_chosen {A} (eng : option nat) (m : M Engine A) : M APIServer A := fun s =>
  match eng with
  | None => let '(x, e) := m (api_engine s) in (x, set_api e (api_cluster s) s)
  | Some p => let '(x, cm) := on_node p (on_eng m) (api_cluster s) in (x, set_api (api_engine s) cm s)
  end.

Definition on_bench {A} (m : IO -> M Engine A) : M APIServer A :=
  '(later, io) ← api_turn;
  eng ← benchEngine later;
  on_chosen eng (m io).

Definition api_publish (evt : Event) : M APIServer unit := fun s =>
  let '(x, cm) := on_bus (Publish evt) (api_cluster s) in (x, set_api (api_engine s) cm s).

(** [m] in which only the error counts. *)
Definition read_only {A} (m : Engine -> res A) : M Engine unit := fun e =>
  (match m e with Ok _ => Ok tt | Err err => Err err | Panic => Panic | OutOfFuel => OutOfFuel end, e).

#[export] Instance APIServer_Bench : Bench APIServer := {
  bench_running := fun s => IsRunning (api_cluster s);
  bench_publish := api_publish;
  benchPut := fun key val => on_bench (fun io => Engine_Put io key (Some val));
  benchGet := fun key => on_bench (fun _ => read_only (Engine_Get key));
  benchBatchPut := fun keys vals => on_bench (fun io => Engine_BatchPut io keys (Some <$> vals));
  benchRange := fun start end_ s => on_bench (fun _ => read_only (Engine_ReadRange (api_fuel s) start end_)) s
}.

(** ** The crash recovery demo *)

(** What the system answers: [ci_mkdir] is that of [os.MkdirTemp]; [ci_puts],
    [ci_close] and [ci_close2] belong to the writes and to the two [Close]. *)
Record CrashIO := mkCrashIO {
  ci_mkdir : res unit;
  ci_open : OpenIO;
  ci_puts : nat -> IO;
  ci_close : nat -> IO;
  ci_open2 : OpenIO;
  ci_close2 : nat -> IO;
  ci_fuel : nat
}.

Definition crash_opts : Options := mkOptions (4 * 1024 * 1024) 0 0 0.

(** [for i := 0; i < todo; i++ { eng.Put(bkey(pfx, i), randValue(64)) }];
    [letters i]: the draws of value [i]. *)
Fixpoint crash_puts (ios : nat -> IO) (letters : nat -> nat -> Z) (pfx : bytes) (todo i : nat) : M Engine unit :=
  match todo with
  | O => mret tt
  | S todo =>
      ignore (Engine_Put (ios i) (bkey pfx (Z.of_nat i)) (Some (randValue (letters i) 64)));;
      crash_puts ios letters pfx todo (S i)
  end.

Fixpoint crash_gets (e : Engine) (pfx : bytes) (todo i : nat) (recovered : Z) : res Z :=
  match todo with
  | O => Ok recovered
  | S todo =>
      match Engine_Get (bkey pfx (Z.of_nat i)) e with
      | Ok _ => crash_gets e pfx todo (S i) (recovered + 1)
      | Err _ => crash_gets e pfx todo (S i) recovered
      | Panic => Panic
      | OutOfFuel => OutOfFuel
      end
  end.

(** The files as the process finds them again: every byte written. *)
Definition file_len (f : option File) : nat := from_option (fun f => length (contents f)) 0%nat f.
Definition at_rest (d : Disk) : Disk :=
  disk_crash (length (contents (d_manifest d))) (fun k => file_len (d_tables d !! k)) (fun k => file_len (d_wal d !! k)) d.

(** [if err != nil { jsonErr(w, 500, err.Error()); return }] without state. *)
Definition res_500 {A} (os : bytes) (r : res A) (k : A -> res Response) : res Response :=
  match r with
  | Ok a => k a
  | Err e => Ok (jsonErr 500 (Error os e))
  | Panic => Panic
  | OutOfFuel => OutOfFuel
  end.

(** The error of a deferred [Close] is dropped. *)
Definition deferred (r : res unit) (resp : Response) : res Response :=
  match r with Ok _ | Err _ => Ok resp | Panic => Panic | OutOfFuel => OutOfFuel end.

(** [now]: the clock.  The result of [Close] is dropped; the manifest's own
    [Close] at its end writes nothing. *)
Definition handleCrashRecovery (os : bytes) (io : CrashIO) (now : nat -> Z) (letters : nat -> nat -> Z) : res Response :=
  let keyCount := 100 in
  res_500 os (ci_mkdir io) (fun _ =>
  res_500 os (Engine_Open (ci_open io) empty_disk crash_opts) (fun eng =>
  let pfx := stamped "crash-" (now 0%nat) in
  match (crash_puts (ci_puts io) letters pfx (Z.to_nat keyCount) 0;; close_engine (ci_fuel io) (ci_close io)) eng with
  | (Ok _, eng) | (Err _, eng) =>
      let recTime := now 2%nat - now 1%nat in
      res_500 os (Engine_Open (ci_open2 io) (at_rest (Engine_disk eng)) crash_opts) (fun eng2 =>
      recovered ← crash_gets eng2 pfx (Z.to_nat keyCount) 0 0;
      deferred (fst (Engine_Close (ci_fuel io) (ci_close2 io) eng2))
        (jsonOK (JObj [("keysWritten"%string, JInt keyCount); ("keysRecovered"%string, JInt recovered);
                       ("recoveryTimeMs"%string, JFloat (fdiv (float64 (Z.quot recTime 1000)) (float64 1000)));
                       ("dataLost"%string, JBool (recovered <? keyCount))])))
  | (Panic, _) => Panic
  | (OutOfFuel, _) => OutOfFuel
  end)).

(** ** System info *)

(** The runtime's answers are arguments; [strings.TrimPrefix(version, "go")]. *)
Definition trim_go (version : bytes) : bytes :=
  match version with x67 :: x6f :: rest => rest | _ => version end.

Definition handleInfo (version goos goarch : bytes) (numCPU : Z) : Response :=
  jsonOK (JObj [("goVersion"%string, JStr (trim_go version)); ("os"%string, JStr goos); ("arch"%string, JStr goarch); ("numCPU"%string, JInt numCPU);
    ("features"%string, JArr ((fun f => JStr (text f)) <$>
      ["Put"; "Read"; "ReadKeyRange"; "BatchPut"; "Delete"; "WAL"; "SSTable"; "BloomFilter"; "Compaction"; "Raft"]%string))]).

(** ** The demo finds everything *)

(** Calls that all succeed. *)
Definition io_sound (io : IO) : Prop := io_good io /\ io_rotate io = Opened [].

Lemma length_digits fuel n : (length (digits fuel n) <= fuel)%nat.
Proof. revert n. induction fuel as [|fuel IH]; intros n; [done|]. cbn [digits]. rewrite length_app. simpl. destruct (n <? 10); [simpl; lia|]. specialize (IH (n / 10)). lia. Qed.

Lemma len_bkey pfx i : len (bkey pfx i) <= len pfx + 29.
Proof. unfold bkey, len. rewrite !length_app, length_replicate. pose proof (length_digits 20 i). cbn [length]. lia. Qed.

Lemma len_stamped tag nano : len (stamped tag nano) <= len (text tag) + 20.
Proof. unfold stamped, len. rewrite length_app. pose proof (length_digits 20 nano). lia. Qed.

Lemma len_randValue draws n : len (randValue draws n) = Z.of_nat n.
Proof. unfold randValue, len. by rewrite length_fmap, length_seq. Qed.

(** The entries of a memtable take less room than its counter says. *)
Lemma len_entries_weight l : len (entries_bytes (mem_entries l)) <= weight 9 l.
Proof.
  induction l as [|[k v] l IH]; [done|]. unfold mem_entries in *. cbn [fmap list_fmap]. rewrite entries_bytes_cons, len_app, len_entry_bytes, weight_cons.
  cbn [mem_entry e_key e_tombstone e_value fst snd]. destruct v as [v|]; [rewrite bool_decide_eq_false_2 by done|rewrite bool_decide_eq_true_2 by done];
    cbn [vlen]; unfold val_bytes; cbn [default from_option id]; [|change (len []) with 0]; lia.
Qed.

Lemma weight_mono c d l : c <= d -> weight c l <= weight d l.
Proof. intros H. induction l as [|kv l IH]; [done|]. rewrite !weight_cons. lia. Qed.

Lemma weight_ains_all c ws : 0 <= c -> forall l, weight c (ains_all ws l) <= weight c ws + weight c l.
Proof.
  intros Hc. induction ws as [|[k v] ws IH]; intros l; [done|]. rewrite weight_cons. simpl.
  specialize (IH (ains k v l)). pose proof (weight_ains c k v l Hc). lia.
Qed.

(** The memtable replayed from a log is no larger than the log. *)
Lemma weight_records rs : weight 17 (rec_write <$> rs) <= len (encode_all rs).
Proof.
  induction rs as [|r rs IH]; [done|]. cbn [fmap list_fmap]. rewrite weight_cons. unfold encode_all in *. cbn [fmap list_fmap concat].
  rewrite len_app, len_encodeRecord. change (rec_write r).1 with (r_key r).
  assert (vlen (rec_write r).2 <= len (val_bytes (r_value r))); [|lia].
  unfold rec_write, val_bytes. cbn [snd]. pose proof (len_nonneg (default [] (r_value r))). destruct (bool_decide _); [done|]. by destruct (r_value r).
Qed.

(** An engine that has written only to its first memtable and log file. *)
Record small (e : Engine) (i : Z) : Prop := {
  sm_queue : e_flushCh e = [];
  sm_open : e_closed e = false;
  sm_next : e_nextFileNum e = 1;
  sm_wal : w_files (e_wal e) = ∅ /\ w_fileID (e_wal e) = 1 /\ w_size (e_wal e) <= i * 400;
  sm_mem : exists mt l, e_mems e = [mt] /\ e_memtable e = 0%nat /\ mt_repr mt l /\ m_frozen mt = false /\
    m_maxSize mt = 4 * 1024 * 1024 /\ weight 224 l <= i * 400
}.

Lemma small_fit e i : small e i -> i <= 1000 -> mems_fit e.
Proof.
  intros [_ _ _ _ (mt & l & He & _ & Hr & _ & _ & Hw)] Hi p mt' l'. rewrite He. intros Hp%list_elem_of_lookup_2%list_elem_of_singleton Hs. subst mt'.
  rewrite (Memtable_scan_spec _ _ Hr) in Hs. injection Hs as <-. unfold table_fits.
  pose proof (len_entries_weight l). pose proof (weight_mono 9 224 l ltac:(lia)). lia.
Qed.

(** A write that does not fill the memtable. *)
Lemma small_put io e i k v s n m :
  small e i -> sys_inv n e FIdle m -> wal_repr (e_wal e) s -> io_sound io -> 0 <= i < 1000 -> len k + len v <= 150 -> v <> [] ->
  exists e', Engine_Put io k (Some v) e = (Ok tt, e') /\ small e' (i + 1) /\ sys_inv n e' FIdle (<[k := Some v]> m).
Proof.
  intros [Hq Ho Hn (Hf & Hid & Hsz) (mt & l & He & Ha & Hr & Hfr & Hmax & Hwt)] Hsys Hw (_ & Hrot) Hi Hlen Hv.
  pose proof (len_nonneg k). pose proof (len_nonneg v).
  assert (record_fits (mkRecord RecordPut k (Some v))) as Hfit by (unfold record_fits; simpl; lia).
  destruct (WAL_AppendBatch_repr _ _ [mkRecord RecordPut k (Some v)] Hw) as (w & EW & Hw'); [by constructor|].
  destruct (Memtable_Put_spec mt l (io_coins io 0) k (Some v) Hr Hfr) as (mt' & EM & Hr' & Hfr' & Hmax').
  pose proof (weight_ains 224 k (Some v) l ltac:(lia)) as Hwt'. cbn [vlen] in Hwt'.
  assert (Memtable_ShouldFlush mt' = false) as Hsf.
  { unfold Memtable_ShouldFlush. apply Z.leb_gt. pose proof (sl_repr_size _ _ Hr'). lia. }
  assert (Engine_Put io k (Some v) e = (Ok tt, set_mems [mt'] (set_wal w e))) as E.
  { unfold Engine_Put, wrap, on_wal, on_memtable, maybeScheduleFlush, mbind, M_bind. rewrite WAL_Append_batch, EW.
    cbn [set_wal e_mems e_memtable]. rewrite He, Ha. cbn [lookup list_lookup]. rewrite EM. cbn [insert list_insert].
    unfold get_st, lift, mem_at. cbn [set_mems e_mems e_memtable set_wal]. rewrite Ha. cbn [lookup list_lookup]. by rewrite Hsf. }
  eexists. split; [exact E|]. split.
  - split; try done; [split_and!|exists mt', (ains k (Some v) l); split_and!; try done; [by rewrite Hmax'|lia]].
    + apply dom_empty_iff_L. cbn [set_mems set_wal e_wal]. rewrite (wr_dom _ _ Hw'). cbn [wop_spec ws_closed]. rewrite <- (wr_dom _ _ Hw). by rewrite Hf, dom_empty_L.
    + cbn [set_mems set_wal e_wal]. rewrite (wr_fileID _ _ Hw'), <- Hid, (wr_fileID _ _ Hw). done.
    + cbn [set_mems set_wal e_wal]. rewrite (wr_size _ _ Hw'). rewrite (wr_size _ _ Hw) in Hsz. cbn [wop_spec ws_active].
      rewrite encode_all_app, len_app. unfold encode_all at 2. cbn [fmap list_fmap concat]. rewrite app_nil_r, len_encodeRecord. simpl. lia.
  - apply (sys_op n (EPut io k (Some v)) e FIdle m (Ok tt)); try done.
    + split; [by constructor|]. split; [done|]. rewrite Hid. lia.
    + constructor; [by intros [= ->]|done].
    + rewrite Hq. unfold flushCh_cap. simpl. lia.
Qed.

Lemma sys_wal n e pc m : sys_inv n e pc m -> exists s, wal_repr (e_wal e) s.
Proof.
  intros (cp & act & imms & S0 & D & deep & xs & ys & _ & _ & _ & _ & _ & mt & s & dn & grps & pre & HL & _). exists s. apply (li_wal _ _ _ _ _ _ _ _ _ HL).
Qed.

(** Keys [0] to [i - 1] have values. *)
Definition has_keys (pfx : bytes) (i : nat) (m : gmap bytes (option bytes)) : Prop :=
  forall j, (j < i)%nat -> exists v, m !! bkey pfx (Z.of_nat j) = Some (Some v).

Lemma crash_puts_good ios letters pfx n : len pfx <= 40 -> (forall i, io_sound (ios i)) -> forall todo i e m,
  small e (Z.of_nat i) -> sys_inv n e FIdle m -> (i + todo <= 1000)%nat -> has_keys pfx i m ->
  exists e' m', crash_puts ios letters pfx todo i e = (Ok tt, e') /\ small e' (Z.of_nat (i + todo)) /\ sys_inv n e' FIdle m' /\
    has_keys pfx (i + todo) m'.
Proof.
  intros Hpfx Hio. induction todo as [|todo IH]; intros i e m Hsm Hsys Hi Hm.
  { exists e, m. by rewrite Nat.add_0_r. }
  destruct (sys_wal _ _ _ _ Hsys) as (s & Hw). pose proof (len_bkey pfx (Z.of_nat i)). pose proof (len_randValue (letters i) 64) as Hlen.
  destruct (small_put (ios i) e (Z.of_nat i) (bkey pfx (Z.of_nat i)) (randValue (letters i) 64) s n m Hsm Hsys Hw (Hio i))
    as (e1 & E1 & Hsm1 & Hsys1); [lia|lia|by intros Hv; rewrite Hv in Hlen|].
  destruct (IH (S i) e1 (<[bkey pfx (Z.of_nat i) := Some (randValue (letters i) 64)]> m)) as (e2 & m2 & E2 & H2);
    [by replace (Z.of_nat (S i)) with (Z.of_nat i + 1) by lia|done|lia| |].
  { intros j Hj. destruct (decide (bkey pfx (Z.of_nat i) = bkey pfx (Z.of_nat j))) as [->|Hne]; [rewrite lookup_insert_eq; eauto|].
    rewrite lookup_insert_ne by done. apply Hm. assert (j <> i) by congruence. lia. }
  replace (i + S todo)%nat with (S i + todo)%nat by lia. exists e2, m2. split; [|done].
  cbn [crash_puts]. rewrite (M_bind_run _ _ _ tt e1); [exact E2|]. unfold ignore. by rewrite E1.
Qed.

Lemma crash_gets_all e pfx : forall todo i acc,
  (forall j, (j < i + todo)%nat -> exists v, Engine_Get (bkey pfx (Z.of_nat j)) e = Ok v) ->
  crash_gets e pfx todo i acc = Ok (acc + Z.of_nat todo).
Proof.
  induction todo as [|todo IH]; intros i acc H; cbn [crash_gets]; [f_equal; lia|].
  destruct (H i ltac:(lia)) as (v & ->). rewrite IH; [f_equal; lia|]. intros j Hj. apply H. lia.
Qed.

Lemma small_new n w : wal_repr w (ws_open []) -> small (new_engine (applyDefaults crash_opts) n w) 0.
Proof.
  intros Hw. split; try done.
  - cbn [new_engine e_wal]. split_and!; [|exact (wr_fileID _ _ Hw)|by rewrite (wr_size _ _ Hw)]. apply dom_empty_iff_L. exact (wr_dom _ _ Hw).
  - exists (NewMemtable (4 * 1024 * 1024)), []. split_and!; try done. apply NewMemtable_repr.
Qed.

(** The engine opened from one log file is small. *)
Lemma reopened_fit e s e' :
  reopened e s e' -> wal_repr (e_wal e) s -> w_files (e_wal e) = ∅ -> w_size (e_wal e) < 2 ^ 30 -> mems_fit e'.
Proof.
  intros [_ _ _ (mtb & He & Hr)] Hw Hf Hsz p mt l. rewrite He. intros Hp%list_elem_of_lookup_2%list_elem_of_singleton Hs. subst mt.
  rewrite (Memtable_scan_spec _ _ Hr) in Hs. injection Hs as <-. unfold table_fits.
  assert (ws_closed s = []) as Hc.
  { destruct (ws_closed s) as [|[id rs] segs] eqn:E; [done|]. destruct (wr_closed _ _ Hw id rs) as (f & Hlk & _); [rewrite E; left|].
    by rewrite Hf, lookup_empty in Hlk. }
  rewrite (wr_size _ _ Hw) in Hsz. unfold ws_records. rewrite Hc. cbn [fmap list_fmap concat app].
  match goal with |- len (entries_bytes (mem_entries ?l)) < _ => pose proof (len_entries_weight l) end.
  pose proof (weight_ains_all 9 (rec_write <$> ws_active s) ltac:(lia) []). change (weight 9 []) with 0 in *.
  pose proof (weight_mono 9 17 (rec_write <$> ws_active s) ltac:(lia)). pose proof (weight_records (ws_active s)). lia.
Qed.

(** The first run of the demo: the engine written and closed. *)
Lemma crash_first_run n e ios closes fuel letters pfx :
  len pfx <= 40 -> small e 0 -> sys_inv n e FIdle ∅ -> (forall i, io_sound (ios i)) -> (forall i, io_good (closes i)) ->
  exists ed e1 m, (crash_puts ios letters pfx 100 0;; close_engine (S fuel) closes) e = (Ok None, e1) /\
    restorable n ed m /\ has_keys pfx 100 m /\ e_nextFileNum ed <= 2 /\ w_files (e_wal ed) = ∅ /\ w_size (e_wal ed) < 2 ^ 30 /\
    forall nm nt nw, disk_crash nm nt nw (Engine_disk e1) = disk_crash nm nt nw (Engine_disk ed).
Proof.
  intros Hpfx Hsm Hsys Hios Hcl.
  destruct (crash_puts_good ios letters pfx n Hpfx Hios 100 0 e ∅ Hsm Hsys ltac:(lia)) as (e0 & m & E0 & Hsm0 & Hsys0 & Hm); [by intros j Hj; lia|].
  pose proof Hsm0 as [Hq _ Hn (Hf & _ & Hsz) _].
  destruct (close_engine_good n fuel closes e0 m Hcl Hsys0) as (ed & e1 & Hres & _ & _ & E1 & _ & Hd & Hsame);
    [rewrite Hq, Hn; vm_compute; reflexivity|apply (small_fit _ _ Hsm0); lia|].
  destruct (Hsame Hq) as [Hw Hnx]. exists ed, e1, m. rewrite (M_bind_run _ _ _ _ _ E0). split_and!; try done; [lia|by rewrite Hw|rewrite Hw; lia].
Qed.

(** The second: opened again, read and closed. *)
Lemma crash_second_run n ed m coins nm nt nw closes fuel pfx :
  MaxLevels (applyDefaults crash_opts) = Z.of_nat (S n) ->
  restorable n ed m -> has_keys pfx 100 m -> e_nextFileNum ed <= 2 -> w_files (e_wal ed) = ∅ -> w_size (e_wal ed) < 2 ^ 30 ->
  (forall i, io_good (closes i)) ->
  exists e2, Engine_Open (open_ok coins) (disk_crash nm nt nw (Engine_disk ed)) crash_opts = Ok e2 /\
    crash_gets e2 pfx 100 0 0 = Ok 100 /\ (Engine_Close (S fuel) closes e2).1 = Ok tt.
Proof.
  intros Hn (mt & s & S0 & D & deep & HL & HD) Hm Hnx Hf Hsz Hcl.
  destruct (disk_recover n ed m mt s S0 D deep crash_opts coins nm nt nw HL HD Hn) as (e2 & E & Hsys%sysc_inv & Hre).
  exists e2. split; [exact E|]. split.
  - apply (crash_gets_all e2 pfx 100 0 0). intros j Hj. destruct (Hm j Hj) as (v & Hv). exists (Some v).
    by rewrite (sys_get _ _ _ _ Hsys), Hv.
  - pose proof (reopened_fit _ _ _ Hre (ld_wal _ _ _ _ HL) Hf Hsz) as Hfit. destruct Hre as [Hq Hopen Hnext _].
    destruct (close_engine_good n fuel closes e2 m Hcl Hsys) as (ed2 & e3 & _ & _ & _ & E3 & Hmf & _); [rewrite Hq; change (len []) with 0; lia|done|].
    by destruct (Engine_Close_good n (S fuel) closes e2 e3 Hopen E3 Hmf) as (e4 & ->).
Qed.

(** C21.  The crash recovery demo.  When no system call fails, the handler
    answers that all 100 keys it wrote were found again and that nothing was
    lost, whatever values it drew: the database it opened in a new directory,
    wrote and closed gives them back when it is opened again, and both [Close]
    return. *)
Theorem crash_recovery_reports_all :
  forall (os : bytes) (io : CrashIO) (now : nat -> Z) (letters : nat -> nat -> Z) (coins coins2 : nat -> list bool),
  ci_mkdir io = Ok tt -> ci_open io = open_ok coins -> ci_open2 io = open_ok coins2 -> (0 < ci_fuel io)%nat ->
  (forall i, io_sound (ci_puts io i)) -> (forall i, io_good (ci_close io i)) -> (forall i, io_good (ci_close2 io i)) ->
  exists ms, handleCrashRecovery os io now letters =
    Ok (jsonOK (JObj [("keysWritten"%string, JInt 100); ("keysRecovered"%string, JInt 100);
                      ("recoveryTimeMs"%string, JFloat ms); ("dataLost"%string, JBool false)])).
Proof.
  intros os io now letters coins coins2 Hmk Ho Ho2 Hfuel Hp Hc Hc2. unfold handleCrashRecovery. rewrite Hmk, Ho, Ho2.
  destruct (ci_fuel io) as [|fuel]; [lia|]. cbn [res_500].
  destruct (Engine_Open_new coins crash_opts) as (n & w & -> & Hw & Hn). cbn [res_500]. set (pfx := stamped "crash-" (now 0%nat)).
  assert (len pfx <= 40) as Hpfx by (pose proof (len_stamped "crash-" (now 0%nat)) as H; change (len (text "crash-")) with 6 in H; unfold pfx; lia).
  destruct (crash_first_run n _ (ci_puts io) (ci_close io) fuel letters pfx Hpfx (small_new n w Hw) (sysc_inv _ _ _ _ _ (sys_new _ n w Hw Hn)) Hp Hc)
    as (ed & e1 & m & E1 & Hres & Hm & Hnx & Hf & Hsz & Hd).
  change (Z.to_nat 100) with 100%nat. rewrite E1. unfold at_rest. rewrite Hd.
  match goal with |- context [disk_crash ?nm ?nt ?nw _] =>
    destruct (crash_second_run n ed m coins2 nm nt nw (ci_close2 io) fuel pfx Hn Hres Hm Hnx Hf Hsz Hc2) as (e2 & -> & E2 & E3) end.
  cbn [res_500]. rewrite E2. rstep. change (?x.1) with (fst x) in E3. rewrite E3. eexists. reflexivity.
Qed.

Definition demo_crash : CrashIO :=
  mkCrashIO (Ok tt) (open_ok (fun _ => [])) (fun _ => demo_io) (fun _ => demo_io) (open_ok (fun _ => [])) (fun _ => demo_io) 1.

Lemma crash_recovery_reports_all_witness :
  exists ms, handleCrashRecovery [] demo_crash (fun _ => 1700000000000000000) (fun i j => Z.of_nat (i + j)) =
    Ok (jsonOK (JObj [("keysWritten"%string, JInt 100); ("keysRecovered"%string, JInt 100);
                      ("recoveryTimeMs"%string, JFloat ms); ("dataLost"%string, JBool false)])).
Proof.
  apply (crash_recovery_reports_all [] demo_crash (fun _ => 1700000000000000000) (fun i j => Z.of_nat (i + j)) (fun _ => []) (fun _ => []));
    [reflexivity|reflexivity|reflexivity|simpl; lia|intros i; split; [split; [reflexivity|split; reflexivity]|reflexivity]|
     intros i; split; [reflexivity|split; reflexivity]|intros i; split; [reflexivity|split; reflexivity]].
Defined.

(** ** The write benchmarks *)

(** A store whose batches succeed, with its contents [seen]. *)
Class BenchStore (St : Type) `{!Bench St} (seen : St -> gmap bytes bytes) : Prop := {
  bs_publish : forall evt s, exists s', bench_publish evt s = (Ok tt, s') /\ seen s' = seen s;
  bs_batch : forall ks vs s, length ks = length vs ->
    exists s', benchBatchPut ks vs s = (Ok tt, s') /\ seen s' = foldl (fun m kv => <[kv.1 := kv.2]> m) (seen s) (zip ks vs)
}.

Section writes.
Context {St : Type} `{!Bench St} (seen : St -> gmap bytes bytes) `{!BenchStore St seen}.

(** The keys of numbers from [i] to [count - 1], each with the value. *)
Definition filled (pfx val : bytes) (i count : Z) (m : gmap bytes bytes) : gmap bytes bytes :=
  foldl (fun m j => <[bkey pfx j := val]> m) m (seqZ i (count - i)).

Lemma batch_filled (pfx val : bytes) (i sz : Z) (m : gmap bytes bytes) : 0 <= sz ->
  foldl (fun m kv => <[kv.1 := kv.2]> m) m (zip ((fun j => bkey pfx (i + j)) <$> seqZ 0 sz) (replicate (Z.to_nat sz) val)) =
  filled pfx val i (i + sz) m.
Proof.
  intros Hsz. unfold filled. replace (i + sz - i) with sz by lia.
  assert (seqZ i sz = Z.add i <$> seqZ 0 sz) as -> by (rewrite fmap_add_seqZ; f_equal; lia).
  assert (length (seqZ 0 sz) = Z.to_nat sz) as Hl by apply length_seqZ. revert Hl m. generalize (Z.to_nat sz) as k, (seqZ 0 sz) as l. clear.
  intros k l. revert k. induction l as [|j l IH]; intros [|k] Hl m; simplify_eq/=; [done|]. by apply IH.
Qed.

Lemma filled_app pfx val i j count m : i <= j <= count -> filled pfx val j count (filled pfx val i j m) = filled pfx val i count m.
Proof.
  intros H. unfold filled. rewrite <- foldl_app. f_equal.
  replace (count - i) with ((j - i) + (count - j)) by lia. rewrite seqZ_app by lia. do 2 f_equal; lia.
Qed.

Lemma fill_ok pfx val count batchSize : 0 < batchSize -> forall fuel i s,
  0 <= i -> count - i <= Z.of_nat fuel * batchSize ->
  exists s', fill benchBatchPut pfx val count batchSize fuel i s = (Ok tt, s') /\ seen s' = filled pfx val i count (seen s).
Proof using Type*.
  intros Hb. induction fuel as [|fuel IH]; intros i s Hi Hf; cbn [fill]; destruct (Z.ltb_spec i count) as [Hlt|Hge].
  1: lia. 1, 3: (exists s; split; [done|]; unfold filled; rewrite seqZ_nil by lia; done).
  set (sz := if count <? i + batchSize then count - i else batchSize).
  assert (0 < sz <= batchSize /\ i + sz <= count /\ (i + sz = count \/ sz = batchSize)) as (Hsz & Hc & Hor).
  { unfold sz. destruct (Z.ltb_spec count (i + batchSize)); lia. }
  edestruct (bs_batch ((fun j => bkey pfx (i + j)) <$> seqZ 0 sz) (replicate (Z.to_nat sz) val) s) as (s1 & E1 & H1);
    [by rewrite length_fmap, length_replicate, length_seqZ|].
  rewrite batch_filled in H1 by lia. cbv zeta. fold sz. rewrite (M_bind_run _ _ _ _ _ E1).
  destruct (IH (i + batchSize) s1 ltac:(lia) ltac:(lia)) as (s2 & E2 & H2). exists s2. split; [exact E2|]. rewrite H2, H1.
  destruct Hor as [Hor| ->]; [|by apply filled_app; lia].
  unfold filled at 1. by rewrite seqZ_nil, Hor by lia.
Qed.

(** The write benchmark stores each of its 10000 keys, in batches that leave
    none out, changes no other key, and reports the count. *)
Theorem bench_writes_every_key (os : bytes) (now letters : nat -> Z) (s : St) :
  exists s', handleBenchWrites os now letters s = (Ok (bench_report 10000 (now 3%nat - now 2%nat)), s') /\
    seen s' = filled (stamped "bw-" (now 0%nat)) (randValue letters 512) 0 10000 (seen s).
Proof using Type*.
  unfold handleBenchWrites. cbv zeta. rewrite (M_bind_run via _ s (if bench_running s then "engine (leader)"%string else "engine"%string) s) by done.
  unfold announce. edestruct bs_publish as (s1 & E1 & H1). rewrite (M_bind_run _ _ _ _ _ E1).
  destruct (fill_ok (stamped "bw-" (now 0%nat)) (randValue letters 512) 10000 100 ltac:(lia) 100 0 s1 ltac:(lia) ltac:(lia)) as (s2 & E2 & H2).
  unfold or_500. rewrite E2. edestruct bs_publish as (s3 & E3 & H3). rewrite (M_bind_run _ _ _ _ _ E3).
  exists s3. split; [done|]. by rewrite H3, H2, H1.
Qed.
End writes.

(** ** Benchmarks bypass Raft *)

(** A benchmark's call changes no node's Raft state: what it writes is on one
    engine and in no log. *)
Theorem bench_bypasses_raft {A} (m : IO -> M Engine A) (s : APIServer) (r : res A) (s' : APIServer) :
  (forall i x, api_others s i x = x) -> (forall i, api_later s i = []) -> on_bench m s = (r, s') ->
  nd_raft <$> cm_heap (api_cluster s') = nd_raft <$> cm_heap (api_cluster s).
Proof.
  intros Ho Hl. unfold on_bench, mbind, M_bind, api_turn, benchEngine. rewrite Ho, Hl. cbn [api_cluster api_engine set_api].
  assert (forall x cm, findLeader [] (api_cluster s) = (x, cm) -> cm = api_cluster s) as Hfind.
  { intros x cm. unfold findLeader, mbind, M_bind, get_st, lift. destruct (leader_among _ _ _) as [[p|]| | |]; simpl; by intros [= _ <-]. }
  assert (forall eng c t, api_cluster t = api_cluster s -> on_chosen eng (m c) t = (r, s') ->
    nd_raft <$> cm_heap (api_cluster s') = nd_raft <$> cm_heap (api_cluster s)) as Hon.
  { intros [p|] c t Ht; unfold on_chosen; rewrite Ht; [|by destruct (m c _) as [x e]; intros [= _ <-]].
    unfold on_node. destruct (cm_heap (api_cluster s) !! p) as [nd|] eqn:E; [|by intros [= _ <-]].
    unfold on_eng. destruct (nd_eng nd) as [e|]; [destruct (m c e) as [x e']|]; intros [= _ <-]; simpl; rewrite list_fmap_insert;
      apply list_insert_id; by rewrite list_lookup_fmap, E. }
  destruct (IsRunning (api_cluster s)); [|by apply Hon].
  destruct (findLeader [] (api_cluster s)) as [[p|e| |] cm] eqn:E; rewrite ?E in Hfind; specialize (Hfind _ _ eq_refl) as ->; [by apply Hon|by apply Hon|by intros [= _ <-]..].
Qed.
