(* ===== verification/HttpServer.v ===== *)
(** * server/http.go and the serving half of server/api.go

    Both HTTP servers of the program listen, hand their listener to a goroutine
    that calls [Serve], and stop with [Shutdown] under a timeout of five
    seconds.  What they use of net/http is the state machine [Http]: listeners,
    connections and the progress of [Shutdown], as its documentation and Go
    1.25 have them.  [http_drained]: when [Stop] returns without having timed
    out, no request is being handled and none will be, whatever is called
    later. *)

From S2P Require Import Prelude GoStd Engine Server Events ClusterManager Api.

(** ** net/http's Server *)

(** A connection: nothing read yet, in a handler, or between two requests. *)
Inductive hconn := HNew | HBusy (path : string) (r : Request) | HIdle.

(** A listener: bound, its [Serve] goroutine yet to run; accepting; closed by
    [Shutdown], [Serve] yet to notice; closed. *)
Inductive hlisten := LBound | LServing | LClosing | LClosed.

#[global] Instance hlisten_eq_dec : EqDecision hlisten.
Proof. solve_decision. Defined.

Inductive hstop := HRunning | HWaiting | HReturned (r : res unit).

Record Http := mkHttp {
  ht_inShutdown : bool;
  ht_listeners : list hlisten;
  ht_conns : list hconn;
  ht_stop : hstop
}.

Definition Http_new : Http := mkHttp false [] [] HRunning.

Definition set_listener (i : nat) (l : hlisten) (h : Http) : Http :=
  mkHttp (ht_inShutdown h) (<[i := l]> (ht_listeners h)) (ht_conns h) (ht_stop h).
Definition set_conns (cs : list hconn) (h : Http) : Http := mkHttp (ht_inShutdown h) (ht_listeners h) cs (ht_stop h).

(** [net.Listen], then [go server.Serve(ln)]; [ln] is what [Listen] returns. *)
Definition listen_and_serve (ln : res unit) : M Http nat := fun h =>
  match ln with
  | Ok _ => (Ok (length (ht_listeners h)), mkHttp (ht_inShutdown h) (ht_listeners h ++ [LBound]) (ht_conns h) (ht_stop h))
  | Err e => (Err e, h)
  | Panic => (Panic, h)
  | OutOfFuel => (OutOfFuel, h)
  end.

(** The goroutine calls [Serve], which returns ErrServerClosed at once when the
    server is shutting down. *)
Definition Serve_begin (i : nat) (h : Http) : Http := set_listener i (if ht_inShutdown h then LClosed else LServing) h.

(** The end of a request: the connection is closed when the server is shutting
    down or the client asks for it ([keep] is false). *)
Definition answered (i : nat) (keep : bool) (h : Http) : Http :=
  set_conns (if ht_inShutdown h || negb keep then delete i (ht_conns h) else <[i := HIdle]> (ht_conns h)) h.

(** [Shutdown] first closes the listeners that serve. *)
Definition shut_listener (l : hlisten) : hlisten := match l with LServing => LClosing | _ => l end.
Definition Shutdown_begin (h : Http) : Http := mkHttp true (shut_listener <$> ht_listeners h) (ht_conns h) HWaiting.

(** [closeIdleConns]: connections that have sent nothing for five seconds
    ([old]) count as idle. *)
Fixpoint closeIdleConns (old : nat -> bool) (cs : list hconn) : list hconn :=
  match cs with
  | [] => []
  | c :: cs =>
      let rest := closeIdleConns (fun i => old (S i)) cs in
      match c with
      | HIdle => rest
      | HNew => if old 0%nat then rest else c :: rest
      | HBusy _ _ => c :: rest
      end
  end.

Definition DeadlineExceeded : error := Errorf "context deadline exceeded".

(** Once the [Serve] calls have returned it closes idle connections, again and
    again, until none is left or the context ends.  [lnerr] is the result of
    closing the listeners. *)
Definition Shutdown_turn (old : nat -> bool) (timeout : bool) (lnerr : res unit) (h : Http) : option Http :=
  if bool_decide (LClosing ∈ ht_listeners h) then None else
  let cs := closeIdleConns old (ht_conns h) in
  Some (mkHttp (ht_inShutdown h) (ht_listeners h) cs
    match cs with
    | [] => HReturned lnerr
    | _ => if timeout then HReturned (Err DeadlineExceeded) else HWaiting
    end).

(** ** The program's servers *)

(** The JSON API: the engine it serves, the clusters it manages with their
    event bus, and its server, which is all [Start] and [Stop] use.  [Stop] begins
    a [Shutdown], whose turns follow; its timeout is that of the context. *)
Definition NewAPIServer (eng : Engine) : Engine * ClusterManager * Http := (eng, NewClusterManager NewEventBus, Http_new).

Definition APIServer_Start (ln : res unit) : M Http unit := _ ← listen_and_serve ln; mret tt.
Definition APIServer_Stop : Http -> Http := Shutdown_begin.

(** The admin server. *)
Record HTTPServer := mkHTTPServer {
  h_engine : Engine;
  h_addr : bytes;
  h_server : Http;
  h_listener : option nat
}.

Definition status_body (s : string) : Response := mkResponse content_json 200 (Some (JObj [("status"%string, JStr (text s))])).
Definition handleHealth : Response := status_body "ok".
Definition handleStats : Response := status_body "running".
Definition admin_routes : list (string * Response) := [("/health", handleHealth); ("/stats", handleStats)]%string.

Definition NewHTTPServer (addr : bytes) (eng : Engine) : HTTPServer := mkHTTPServer eng addr Http_new None.

Definition HTTPServer_Start (ln : res unit) : M HTTPServer unit := fun s =>
  match listen_and_serve ln (h_server s) with
  | (Ok l, h) => (Ok tt, mkHTTPServer (h_engine s) (h_addr s) h (Some l))
  | (Err e, h) => (Err e, mkHTTPServer (h_engine s) (h_addr s) h (h_listener s))
  | (Panic, _) => (Panic, s)
  | (OutOfFuel, _) => (OutOfFuel, s)
  end.

Definition HTTPServer_Stop (s : HTTPServer) : HTTPServer :=
  mkHTTPServer (h_engine s) (h_addr s) (Shutdown_begin (h_server s)) (h_listener s).

(** ** Its goroutines and clients *)

(** What happens besides the calls of [Start] and [Stop] and the handlers. *)
Inductive hstep (h : Http) : Http -> Prop :=
| hs_serve i : ht_listeners h !! i = Some LBound -> hstep h (Serve_begin i h)
| hs_accept i : ht_listeners h !! i = Some LServing -> hstep h (set_conns (ht_conns h ++ [HNew]) h)
(** the listener was closed while a connection was being accepted, or not *)
| hs_accept_last i : ht_listeners h !! i = Some LClosing -> hstep h (set_listener i LClosed (set_conns (ht_conns h ++ [HNew]) h))
| hs_serve_end i : ht_listeners h !! i = Some LClosing -> hstep h (set_listener i LClosed h)
| hs_request i c path r : ht_conns h !! i = Some c -> (c = HNew \/ c = HIdle) -> hstep h (set_conns (<[i := HBusy path r]> (ht_conns h)) h)
| hs_hangup i c : ht_conns h !! i = Some c -> (c = HNew \/ c = HIdle) -> hstep h (set_conns (delete i (ht_conns h)) h).

Inductive hcall (h : Http) : Http -> Prop :=
| hc_step h' : hstep h h' -> hcall h h'
| hc_start r h' : APIServer_Start (Ok tt) h = (r, h') -> hcall h h'
| hc_handler i path r keep : ht_conns h !! i = Some (HBusy path r) -> hcall h (answered i keep h)
| hc_stop : ht_stop h = HRunning -> hcall h (APIServer_Stop h)
| hc_stop_turn old timeout lnerr h' : ht_stop h = HWaiting -> lnerr <> Err DeadlineExceeded ->
    Shutdown_turn old timeout lnerr h = Some h' -> hcall h h'.

(** ** Stopping *)

(** No connection is open and none can be. *)
Definition off (h : Http) : Prop :=
  ht_conns h = [] /\ (LServing ∉ ht_listeners h) /\ (LClosing ∉ ht_listeners h) /\ (LBound ∈ ht_listeners h -> ht_inShutdown h = true).

Definition http_inv (h : Http) : Prop :=
  match ht_stop h with
  | HRunning => ht_inShutdown h = false /\ (LClosing ∉ ht_listeners h)
  | HWaiting => ht_inShutdown h = true /\ (LServing ∉ ht_listeners h)
  | HReturned r => ht_inShutdown h = true /\ (LServing ∉ ht_listeners h) /\ (LClosing ∉ ht_listeners h) /\
      (r <> Err DeadlineExceeded -> ht_conns h = [])
  end.

Lemma http_inv_new : http_inv Http_new.
Proof. split; [done|]. apply not_elem_of_nil. Qed.

Lemma insert_keeps i l x (ls : list hlisten) : x ∉ ls -> x <> l -> x ∉ <[i := l]> ls.
Proof.
  intros Hx Hne (j & Hj)%list_elem_of_lookup. apply list_lookup_insert_Some in Hj as [(_ & -> & _)|(_ & Hj)]; [done|].
  by apply Hx, list_elem_of_lookup_2 with j.
Qed.

Lemma snoc_keeps l x (ls : list hlisten) : x ∉ ls -> x <> l -> x ∉ ls ++ [l].
Proof. set_solver. Qed.

Create HintDb http discriminated.
#[local] Hint Resolve insert_keeps snoc_keeps : http.

(** A step leaves a drained server drained. *)
Lemma hstep_off h h' : off h -> hstep h h' -> off h' /\ ht_stop h' = ht_stop h.
Proof.
  intros (Hc & Hs & Hcl & Hb) H. split; [|by destruct H].
  destruct H as [i Hi|i Hi|i Hi|i Hi|i c path r Hi _|i c Hi _]; try (by rewrite Hc in Hi); apply list_elem_of_lookup_2 in Hi; try done.
  specialize (Hb Hi). unfold off, Serve_begin, set_listener. rewrite Hb. simpl. split_and!; auto with http.
Qed.

Lemma hstep_inv h h' : http_inv h -> hstep h h' -> http_inv h'.
Proof.
  intros Hinv H. destruct (ht_stop h) as [| |r] eqn:Es; unfold http_inv in Hinv; rewrite Es in Hinv.
  - destruct Hinv as [Hf Hcl]. assert (ht_stop h' = HRunning) as Es' by (by destruct H). unfold http_inv. rewrite Es'.
    destruct H; simpl in *; rewrite ?Hf; auto with http.
  - destruct Hinv as [Hf Hcl]. assert (ht_stop h' = HWaiting) as Es' by (by destruct H). unfold http_inv. rewrite Es'.
    destruct H; simpl in *; rewrite ?Hf; auto with http.
  - destruct Hinv as (Hf & Hs & Hcl & Hr). assert (ht_stop h' = HReturned r) as Es' by (by destruct H). unfold http_inv. rewrite Es'.
    destruct H as [i Hi|i Hi|i Hi|i Hi|i c path r' Hi _|i c Hi _]; simpl in *; rewrite ?Hf;
      try (by apply list_elem_of_lookup_2 in Hi); split_and!; auto with http; intros Hne; by rewrite Hr in Hi.
Qed.

Lemma shut_serving (ls : list hlisten) : LServing ∉ shut_listener <$> ls.
Proof. intros (l & E & _)%list_elem_of_fmap. by destruct l. Qed.

Lemma hcall_inv h h' : http_inv h -> hcall h h' -> http_inv h'.
Proof.
  intros Hinv [h1 H|r h1 [= _ <-]|i path r keep Hi|Hs|old timeout lnerr h1 Hs Hne E].
  - by eapply hstep_inv.
  - unfold http_inv in *. cbn. destruct (ht_stop h); destruct_and?; split_and!; try done; by apply snoc_keeps.
  - unfold http_inv in *. cbn. destruct (ht_stop h) as [| |r']; try done. destruct Hinv as (? & ? & ? & Hr). split_and!; try done.
    intros Hne. by rewrite (Hr Hne) in Hi.
  - split; [done|apply shut_serving].
  - unfold http_inv in Hinv. rewrite Hs in Hinv. destruct Hinv as [Hf Hsv]. unfold Shutdown_turn in E.
    case_bool_decide as Hcl; [done|]. injection E as <-. unfold http_inv. cbn.
    destruct (closeIdleConns old (ht_conns h)); [done|]. by destruct timeout.
Qed.

Lemma hcalls_inv h h' : http_inv h -> rtc hcall h h' -> http_inv h'.
Proof. intros Hi H. revert Hi. induction H; eauto using hcall_inv. Qed.

Lemma stopped_off h r : http_inv h -> ht_stop h = HReturned r -> r <> Err DeadlineExceeded -> off h.
Proof.
  unfold http_inv. intros Hinv Hs Hr. rewrite Hs in Hinv. destruct Hinv as (Hf & H1 & H2 & H3). by split_and!; auto.
Qed.

(** Once [Stop] has returned, and not because of its timeout, there is no
    connection and never will be one; a later [Start] that can bind its address
    reports success all the same. *)
Lemma http_drained h r h' :
  rtc hcall Http_new h -> ht_stop h = HReturned r -> r <> Err DeadlineExceeded -> rtc hcall h h' ->
  off h /\ off h' /\ exists h2, APIServer_Start (Ok tt) h' = (Ok tt, h2) /\ off h2.
Proof.
  intros H0 Hs Hr H. pose proof (hcalls_inv _ _ http_inv_new H0) as Hi. pose proof (stopped_off _ _ Hi Hs Hr) as Hoff.
  assert (ht_stop h' = HReturned r) as Hs'.
  { clear Hoff H0 Hi. induction H as [h|h h1 h2 Hc H IH]; [done|]. apply IH.
    destruct Hc as [h1 Hst|? h1 [= _ <-]|i path r' keep Hi|Hs'|? ? ? ? Hs']; try done; [by destruct Hst|by rewrite Hs in Hs'..]. }
  pose proof (hcalls_inv _ _ Hi H) as Hi'. pose proof (stopped_off _ _ Hi' Hs' Hr) as Hoff'. split_and!; try done.
  eexists. split; [reflexivity|]. apply (stopped_off _ r); [|done|done]. eapply hcall_inv; [exact Hi'|]. by eapply (hc_start _ (Ok tt)).
Qed.

(** [Stop] returns within its timeout, however many handlers run on. *)
Lemma serves_end (h : Http) : exists h', rtc hcall h h' /\ (LClosing ∉ ht_listeners h') /\ ht_stop h' = ht_stop h /\ ht_conns h' = ht_conns h.
Proof.
  remember (length (filter (fun l => l = LClosing) (ht_listeners h))) as n eqn:Hn. revert h Hn.
  induction n as [|n IH]; intros h Hn.
  - exists h. split_and!; try done. intros Hin. symmetry in Hn. apply nil_length_inv in Hn.
    assert (LClosing ∈ filter (fun l => l = LClosing) (ht_listeners h)) as H by (by apply list_elem_of_filter). by rewrite Hn in H; apply not_elem_of_nil in H.
  - assert (LClosing ∈ ht_listeners h) as (l1 & l2 & Hl)%list_elem_of_split.
    { destruct (filter (fun l => l = LClosing) (ht_listeners h)) as [|l ls] eqn:E; [done|].
      assert (l ∈ filter (fun l => l = LClosing) (ht_listeners h)) as [-> Hl]%list_elem_of_filter by (rewrite E; left). done. }
    destruct (IH (set_listener (length l1) LClosed h)) as (h' & H & ?).
    + cbn [set_listener ht_listeners]. rewrite Hl in Hn |- *.
      rewrite <- (Nat.add_0_r (length l1)), insert_app_r, filter_app, length_app. cbn [insert list_insert]. rewrite filter_cons_False by done.
      rewrite filter_app, length_app, filter_cons_True in Hn by done. cbn [length] in Hn. lia.
    + exists h'. split; [|done]. eapply rtc_l; [|exact H]. apply hc_step, hs_serve_end. by rewrite Hl, list_lookup_middle.
Qed.

Lemma stop_returns h : ht_stop h = HWaiting -> exists h' r, rtc hcall h h' /\ ht_stop h' = HReturned r.
Proof.
  intros Hs. destruct (serves_end h) as (h1 & H & Hcl & Hs1 & _). rewrite Hs in Hs1.
  destruct (Shutdown_turn (fun _ => false) true (Ok tt) h1) as [h2|] eqn:E.
  - assert (exists r, ht_stop h2 = HReturned r) as [r Hr].
    { unfold Shutdown_turn in E. destruct (bool_decide _); [done|]. injection E as <-. cbn. destruct (closeIdleConns _ _); eauto. }
    exists h2, r. split; [|done]. eapply rtc_r; [exact H|]. by eapply (hc_stop_turn _ (fun _ => false) true (Ok tt)).
  - unfold Shutdown_turn in E. by rewrite bool_decide_eq_false_2 in E.
Qed.
