(* ===== verification/ServerMain.v ===== *)
(** * cmd/server/main.go: the server program

    [main] opens the engine, starts the TCP server and the JSON API on it,
    waits for a signal, stops both and closes the engine.  A process is the TCP
    server of TcpServer.v, the HTTP server of HttpServer.v with the handlers of
    Api.v, the flush goroutine
    of EngineRun.v, the compaction goroutine of CompactRun.v and the position of
    [main]; they interleave in any way.  The
    store is the engine, with a log of the write operations the servers called
    (which the answers do not depend on, [logged_op_answer]).

    [server_shutdown_keeps_data]: when a signal ends the process, nothing
    acknowledged is lost. *)

From S2P Require Import Prelude GoStd Protocol Wal Memtable Manifest Engine EngineRun Shelf Recovery CompactWrite CompactRun EngineClose Server TcpServer Api HttpServer.

(** ** What requests do to a store *)

Section requests.
Context {St : Type} `{!KV St} (os : bytes) (R : relation St).
Context `{!PreOrder R}.
Hypothesis Hput : forall k v s, R s (kv_put k v s).2.
Hypothesis Hdelete : forall k s, R s (kv_delete k s).2.
Hypothesis Hbatch : forall ks vs s, R s (kv_batch_put ks vs s).2.

Definition moves {A} (m : M (Conn St) A) : Prop := forall c, R (cn_store c) (cn_store (m c).2).

Lemma moves_respond status payload : moves (respond status payload : M (Conn St) unit).
Proof using PreOrder0. intros c. unfold respond. by destruct (WriteResponse status payload (cn_out c)). Qed.

Lemma moves_lift {A} (r : res A) : moves (lift r : M (Conn St) A).
Proof using PreOrder0. intros c. done. Qed.

Lemma moves_on_store {A} (m : M St A) : (forall s, R s (m s).2) -> moves (on_store m).
Proof using. intros Hm c. unfold on_store. specialize (Hm (cn_store c)). by destruct (m (cn_store c)). Qed.

Lemma moves_or_error {A} (m : M (Conn St) A) k : moves m -> (forall a, moves (k a)) -> moves (or_error os m k).
Proof using PreOrder0.
  intros Hm Hk c. unfold or_error. specialize (Hm c). destruct (m c) as [[a|e| |] c1]; cbn in *; try done.
  - etrans; [exact Hm|apply Hk].
  - etrans; [exact Hm|apply moves_respond].
Qed.

Lemma moves_dispatch cmd payload : moves (dispatch os cmd payload : M (Conn St) unit).
Proof using All.
  pose proof moves_respond as Hr. unfold dispatch. repeat case_bool_decide; try apply Hr.
  - apply moves_or_error; [apply moves_lift|]. intros [k v]. apply moves_or_error; [by apply moves_on_store|auto].
  - apply moves_or_error; [apply moves_lift|]. intros k c. cbv beta zeta. destruct (not_found (kv_get k (cn_store c))); [apply Hr|].
    refine (moves_or_error (lift (kv_get k (cn_store c))) _ _ _ c); [apply moves_lift|auto].
  - apply moves_or_error; [apply moves_lift|]. intros k. apply moves_or_error; [by apply moves_on_store|auto].
  - apply moves_or_error; [apply moves_lift|]. intros [ks vs]. apply moves_or_error; [by apply moves_on_store|auto].
  - apply moves_or_error; [apply moves_lift|]. intros [a b] c.
    refine (moves_or_error (lift (kv_range a b (cn_store c))) _ _ _ c); [apply moves_lift|].
    intros pairs c'. unfold lift, mbind, M_bind. destruct (EncodeKVPairs _ _); [apply Hr|done..].
Qed.

(** A step of the TCP server. *)
Lemma tstep_moves mv s s' : tstep os mv s s' -> R (tcp_store s) (tcp_store s').
Proof using All.
  destruct 1 as [s s' _ _ [= <-]|out s _ _|e s _ _|c s _ _|i c s s' _ _ Et|s _ _|r s _ _|r s s' _ _ Et|i c bs s _ _|i c s _|i c s _ _ _]; try done.
  - unfold accepted. by destruct (tcp_closeCh s).
  - unfold conn_turn in Et. destruct (ss_pc c); [| |done].
    + injection Et as <-. by destruct (tcp_closeCh s).
    + unfold next_request in Et. cbn [cn_in cn_store cn_out] in Et.
      destruct (ReadFrame (ss_in c)) as [[[cmd payload] rest]|e| |]; [|destruct (_ && _)| |]; try done; injection Et as <-; try done.
      pose proof (moves_dispatch cmd payload (mkConn (tcp_store s) rest (ss_out c))) as H.
      by destruct (dispatch _ _ _ _) as [[] c'].
  - unfold Stop_begin. by destruct (tcp_closeCh s).
  - unfold Stop_listener. by destruct (tcp_listener s).
  - unfold Stop_wait in Et. destruct (_ =? _); [|done]. by injection Et as <-.
Qed.

Lemma or_500_moves {A} (m : M St A) k s : R s (m s).2 -> (forall a s, R s ((k a : M St Response) s).2) -> R s (or_500 os m k s).2.
Proof using PreOrder0.
  intros Hm Hk. unfold or_500. destruct (m s) as [[a|e| |] s1]; cbn in *; try done. etrans; [exact Hm|apply Hk].
Qed.

Lemma cors_moves next r s : R s ((next r : M St Response) s).2 -> R s (cors next r s).2.
Proof using PreOrder0.
  intros Hn. unfold cors, mbind, M_bind. destruct (bool_decide _); [done|]. by destruct (next r s) as [[] s'].
Qed.

(** A request of the JSON API. *)
Lemma serve_kv_moves path r run s : serve_kv os path r = Some run -> R s (run s).2.
Proof using All.
  unfold serve_kv. destruct (snd <$> list_find _ _) as [[p ep]|]; [|done]. cbn. intros Hrun.
  assert (forall m : M St unit, (forall s, R s (m s).2) -> forall v s, R s (or_500 os m (fun _ => mret v) s).2) as Hw.
  { intros m Hm v s'. by apply or_500_moves. }
  destruct ep; try done; injection Hrun as <-; apply cors_moves.
  - unfold api_handlePut. destruct (bd_err _); [done|]. destruct (bool_decide _); [done|]. by apply Hw.
  - unfold api_handleGet. destruct (bool_decide (_ = [])); [done|]. by destruct (kv_get _ s).
  - unfold api_handleDelete. destruct (bool_decide (_ = [])); [done|]. by apply Hw.
  - unfold api_handleBatch. destruct (bd_err _); [done|]. destruct (_ <? _); [destruct (negb _); [done|by apply Hw]|].
    destruct (_ <? _); [by apply Hw|done].
  - unfold api_handleRange. destruct (if bool_decide _ then _ else _) as [a b]. destruct (_ || _); [done|].
    by apply or_500_moves.
Qed.
End requests.

(** ** The engine with a log of its writes *)

(** A write operation a server called: the engine it met, and whether it was
    acknowledged. *)
Record call := mkCall {
  ca_engine : Engine;
  ca_op : eop;
  ca_ok : bool
}.

Record Logged := mkLogged {
  lg_served : Served;
  lg_calls : list call
}.

Definition lg_engine (s : Logged) : Engine := sv_engine (lg_served s).

Definition logged (op : IO -> eop) : M Logged unit := fun s =>
  let sv := lg_served s in
  let '(r, sv') := on_engine (fun io => eop_run (op io)) sv in
  (r, mkLogged sv' (lg_calls s ++ [mkCall (sv_engine sv) (op (sv_ios sv 0)) (match r with Ok _ => true | _ => false end)])).

#[export] Instance Logged_KV : KV Logged := {
  kv_put := fun key value => logged (fun io => EPut io key (Some value));
  kv_get := fun key s => kv_get key (lg_served s);
  kv_delete := fun key => logged (fun io => EDelete io key);
  kv_batch_put := fun keys values => logged (fun io => EBatchPut io keys (Some <$> values));
  kv_range := fun a b s => kv_range a b (lg_served s)
}.

(** The log changes neither answers nor the engine. *)
Lemma logged_op_answer op s :
  (logged op s).1 = (on_engine (fun io => eop_run (op io)) (lg_served s)).1 /\
  lg_served (logged op s).2 = (on_engine (fun io => eop_run (op io)) (lg_served s)).2.
Proof. unfold logged. by destruct (on_engine _ _). Qed.

(** A client is told of success exactly when the log says so. *)
Lemma reply_logged os op c :
  open_out (cn_out c) -> (forall err, (logged op (cn_store c)).1 = Err err -> 1 + len (Error os err) < 2 ^ 32) ->
  exists ca, lg_calls (logged op (cn_store c)).2 = lg_calls (cn_store c) ++ [ca] /\
    match (logged op (cn_store c)).1 with
    | Ok _ => ca_ok ca = true /\
        outcome (or_error os (on_store (logged op)) (fun _ => respond StatusOK [])) c (logged op (cn_store c)).2 StatusOK []
    | Err err => ca_ok ca = false /\
        outcome (or_error os (on_store (logged op)) (fun _ => respond StatusOK [])) c (logged op (cn_store c)).2 StatusError (Error os err)
    | _ => ca_ok ca = false
    end.
Proof.
  intros Hout Hlen. destruct (logged op (cn_store c)) as [r s] eqn:E. pose proof (outcome_write os c Hout (logged op) r s E Hlen) as Ho.
  unfold logged in E. destruct (on_engine _ _) as [r' sv'] eqn:Eo. injection E as <- <-. eexists. split; [done|].
  cbn [fst ca_ok]. by destruct r'.
Qed.

Definition with_engine (e : Engine) (s : Logged) : Logged :=
  mkLogged (mkServed e (sv_ios (lg_served s)) (sv_fuel (lg_served s))) (lg_calls s).

(** The acknowledged writes. *)
Definition acked (calls : list call) (m : gmap bytes (option bytes)) : gmap bytes (option bytes) :=
  foldl (fun m ca => if ca_ok ca then write_all (eop_writes (ca_op ca)) m else m) m calls.

(** A call within the limits of the store: no empty value, a record that fits,
    a sound log device, and room in the flush channel. *)
Definition call_ok (ca : call) : Prop :=
  clean (eop_writes (ca_op ca)) /\ label_ok (ca_engine ca) (LOp (ca_op ca)) /\
  (length (e_flushCh (ca_engine ca)) < flushCh_cap)%nat.

(** An operation does not close the engine. *)
Lemma sys_op_closed n o e pc m :
  sys_inv n e pc m -> label_ok e (LOp o) -> clean (eop_writes o) -> e_closed (eop_run o e).2 = e_closed e.
Proof.
  intros (cp & act & imms & S0 & D & deep & xs & ys & Hinv & _ & _ & _ & _ & mt & s & dn & grps & pre & HL & HD) (Hfit & _ & _) Hcl.
  destruct (eop_state o e act imms s (ri_mems _ _ _ _ _ _ Hinv) (li_wal _ _ _ _ _ _ _ _ _ HL) Hcl Hfit)
    as [(_ & err & ->)|(w & e1 & mtb & _ & (ms & -> & _) & _ & _ & ->)]; [done|].
  destruct (Memtable_ShouldFlush mtb); [|done]. unfold scheduled, send_task.
  destruct (WAL_Rotate _ _) as [r w']. by destruct (_ <? _)%nat.
Qed.

(** Nor does a stage of a flush. *)
Definition opens_still {A} (m : M Engine A) : Prop := forall e, e_closed (m e).2 = e_closed e.

Lemma opens_bind {A B} (m : M Engine A) (k : A -> M Engine B) :
  opens_still m -> (forall a, opens_still (k a)) -> opens_still (m ≫= k).
Proof.
  intros Hm Hk e. unfold mbind, M_bind. specialize (Hm e). destruct (m e) as [[a|err| |] e1]; cbn in *; try done. by rewrite Hk.
Qed.

Lemma opens_or_fail {A B} (m : M Engine A) (c : M Engine B) k :
  opens_still m -> opens_still c -> (forall a, opens_still (k a)) -> opens_still (or_fail m c k).
Proof.
  intros Hm Hc Hk e. unfold or_fail. specialize (Hm e). destruct (m e) as [[a|err| |] e1]; cbn in *; try done; [by rewrite Hk|].
  rewrite <- Hm. by apply opens_bind.
Qed.

Lemma opens_lift {A} (r : res A) : opens_still (lift r).
Proof. done. Qed.

Lemma opens_mret {A} (a : A) : opens_still (mret a).
Proof. done. Qed.

Lemma opens_remove io n : opens_still (remove_table io n).
Proof. intros e. unfold remove_table. by destruct (io_remove io). Qed.

Lemma opens_on_writer n w m : opens_still (on_writer n w m).
Proof. intros e. unfold on_writer. by destruct (m w) as [[] ]. Qed.

Lemma opens_on_manifest {A} (m : M Manifest A) : opens_still (on_manifest m).
Proof. intros e. unfold on_manifest. by destruct (m _). Qed.

Create HintDb opens discriminated.
#[local] Hint Resolve opens_lift opens_mret opens_remove opens_on_writer opens_on_manifest : opens.

Lemma flush_write_opens io mem : opens_still (flush_write io mem).
Proof.
  unfold flush_write. apply opens_bind; [done|]. intros n. apply opens_bind; [done|]. intros e. apply opens_or_fail; auto with opens. intros w.
  apply opens_bind; [done|]. intros mt. apply opens_bind; [done|]. intros kvs. apply opens_or_fail; auto with opens. intros w2.
  destruct (_ =? _); [apply opens_bind; auto with opens|]. apply opens_or_fail; auto with opens. intros w3.
  apply opens_bind; [done|]. intros e1. apply opens_or_fail; auto with opens. intros r. apply opens_or_fail; auto with opens.
  intros _. apply opens_bind; [done|]. auto with opens.
Qed.

Lemma flush_step_open lab e pc m e' pc' m' :
  match lab with LOp _ => False | _ => True end -> estep lab (e, pc) m (e', pc') m' -> e_closed e' = e_closed e.
Proof.
  intros Hlab H. assert (forall io mem q r, flush_write io mem (set_flushCh q e) = (r, e') -> e_closed e' = e_closed e) as Hw.
  { intros io mem q r E. pose proof (flush_write_opens io mem (set_flushCh q e)) as Ho. by rewrite E in Ho. }
  inversion H; subst; try done; eauto.
  - unfold flush_publish in *. destruct (e_levels e); by simplify_eq/=.
  - unfold removeImmutable in *. by simplify_eq/=.
  - unfold removeImmutable in *. by simplify_eq/=.
  - unfold flush_finish in *. simplify_eq/=. by destruct (_ <? _).
Qed.

(** What holds of the store while the process runs; [m0] is what the database
    held at the start. *)
Definition holds (n : nat) (pc : fpc) (cp : cpc) (m0 : gmap bytes (option bytes)) (s : Logged) : Prop :=
  sysc n (lg_engine s) pc cp (acked (lg_calls s) m0) /\ e_closed (lg_engine s) = false.

(** Calls were made; if all were within the limits, the invariant still holds. *)
Definition called (s s' : Logged) : Prop :=
  lg_calls s `prefix_of` lg_calls s' /\
  forall n pc cp m0, Forall call_ok (lg_calls s') -> holds n pc cp m0 s -> holds n pc cp m0 s'.

#[local] Instance called_preorder : PreOrder called.
Proof.
  split; [by intros s|]. intros s1 s2 s3 [P1 H1] [P2 H2]. split; [by etrans|]. intros n pc cp m0 Hok Hs. apply H2; [done|].
  apply H1; [|done]. destruct P2 as [l Hl]. rewrite Hl in Hok. by apply Forall_app in Hok as [? _].
Qed.

Lemma logged_called op s : called s (logged op s).2.
Proof.
  unfold logged, on_engine. set (o := op (sv_ios (lg_served s) 0)). destruct (eop_run o (sv_engine (lg_served s))) as [r e'] eqn:E.
  split; [by eexists|]. cbn [snd lg_calls]. intros n pc cp m0 Hok [Hsys Hcl].
  apply Forall_app in Hok as [_ (Hclean & Hlab & Hroom)%Forall_singleton]. cbn [ca_op ca_engine] in *.
  split; cbn [lg_engine lg_served sv_engine lg_calls] in *.
  - pose proof (sysc_op n o (sv_engine (lg_served s)) pc cp _ r e' Hsys Hlab Hclean Hroom E) as H. unfold acked in *. rewrite foldl_app. by destruct r.
  - pose proof (sys_op_closed n o (sv_engine (lg_served s)) pc _ (sysc_inv _ _ _ _ _ Hsys) Hlab Hclean) as H. rewrite E in H. cbn in H. by rewrite H.
Qed.

(** ** The process *)

(** Where [main] is: before the TCP server's [Start]; before the API's; waiting
    for the signal; in [apiServer.Stop()]; in [tcpServer.Stop()]; in
    [eng.Close()]; ended.  [code] is the exit status to come. *)
Inductive main_pc :=
| MOpened | MTcpUp | MServing | MShutdown | MStopping (code : Z) | MClosing (code : Z) | MExited (code : Z).

(** [p_api]: the HTTP server of the JSON API. *)
Record Process := mkProcess {
  p_tcp : TCPServer Logged;
  p_flush : fpc;
  p_compact : cpc;
  p_api : Http;
  p_main : main_pc
}.

Definition p_store (p : Process) : Logged := tcp_store (p_tcp p).

Definition store_tcp (s : Logged) (t : TCPServer Logged) : TCPServer Logged :=
  mkTCP s (tcp_listener t) (tcp_closeCh t) (tcp_wg t) (tcp_accept t) (tcp_sessions t) (tcp_stop t) (tcp_dead t).

Definition main_at (t : TCPServer Logged) (pc : main_pc) (p : Process) : Process :=
  mkProcess t (p_flush p) (p_compact p) (p_api p) pc.

Definition api_at (h : Http) (pc : main_pc) (p : Process) : Process := mkProcess (p_tcp p) (p_flush p) (p_compact p) h pc.

(** Paths whose handlers do not use the engine: files of the dashboard, the
    system information, the clusters (which have engines of their own) and the
    crash demo (likewise). *)
Definition keeps_store (path : string) : bool :=
  match snd <$> list_find (fun e => e.1 = path) routes with
  | Some (_, (EpPut | EpGet | EpDelete | EpBatch | EpRange)) => false
  | Some (_, (EpBenchWrites | EpBenchReads | EpBenchBatch | EpBenchRange | EpBenchMixed)) => false
  | _ => true
  end.

(** [engine.Open]: on an error the process exits at once. *)
Definition main_open (opened : res Engine) (ios : nat -> IO) (fuel : nat) : Process + Z :=
  match opened with
  | Ok e => inl (mkProcess (NewTCPServer (mkLogged (mkServed e ios fuel) [])) FIdle CIdle (NewAPIServer e).2 MOpened)
  | _ => inr 1
  end.

Section process.
Context (os : bytes) (fuel : nat) (closes : nat -> IO).

Inductive mstep (p : Process) : Process -> Prop :=
(** [main] *)
| ms_tcp_started t : p_main p = MOpened -> TCPServer_Start (Ok tt) (p_tcp p) = (Ok tt, t) -> mstep p (main_at t MTcpUp p)
| ms_tcp_failed err : p_main p = MOpened -> mstep p (main_at (TCPServer_Start (Err err) (p_tcp p)).2 (MClosing 1) p)
| ms_api_started h : p_main p = MTcpUp -> APIServer_Start (Ok tt) (p_api p) = (Ok tt, h) -> mstep p (api_at h MServing p)
| ms_api_failed err : p_main p = MTcpUp -> APIServer_Start (Err err) (p_api p) = (Err err, p_api p) ->
    mstep p (main_at (Stop_begin (p_tcp p)) (MStopping 1) p)
| ms_signal : p_main p = MServing -> mstep p (api_at (APIServer_Stop (p_api p)) MShutdown p)
| ms_shutdown_turn old timeout lnerr h : p_main p = MShutdown -> ht_stop (p_api p) = HWaiting -> lnerr <> Err DeadlineExceeded ->
    Shutdown_turn old timeout lnerr (p_api p) = Some h -> mstep p (api_at h MShutdown p)
| ms_shutdown r : p_main p = MShutdown -> ht_stop (p_api p) = HReturned r -> mstep p (main_at (Stop_begin (p_tcp p)) (MStopping 0) p)
| ms_stop_listener code r : p_main p = MStopping code -> tcp_stop (p_tcp p) = SClosed ->
    mstep p (main_at (Stop_listener r (p_tcp p)) (MStopping code) p)
| ms_stop_wait code r t : p_main p = MStopping code -> tcp_stop (p_tcp p) = SWaiting r -> Stop_wait r (p_tcp p) = Some t ->
    mstep p (main_at t (MClosing code) p)
| ms_close code r e : p_main p = MClosing code -> p_flush p = FIdle -> p_compact p = CIdle ->
    Engine_Close fuel closes (lg_engine (p_store p)) = (r, e) -> (r = Ok tt \/ exists err, r = Err err) ->
    mstep p (main_at (store_tcp (with_engine e (p_store p)) (p_tcp p)) (MExited code) p)
(** the TCP server's goroutines and clients *)
| ms_tcp mv t : tstep os mv (p_tcp p) t -> tcp_stop t = tcp_stop (p_tcp p) -> tcp_listener t = tcp_listener (p_tcp p) ->
    mstep p (main_at t (p_main p) p)
(** the API's: its connections, and the end of a handler *)
| ms_api h : hstep (p_api p) h -> mstep p (api_at h (p_main p) p)
| ms_handler i path r run keep : ht_conns (p_api p) !! i = Some (HBusy path r) -> serve_kv os path r = Some run ->
    mstep p (mkProcess (store_tcp (run (p_store p)).2 (p_tcp p)) (p_flush p) (p_compact p) (answered i keep (p_api p)) (p_main p))
| ms_other i path r keep : ht_conns (p_api p) !! i = Some (HBusy path r) -> keeps_store path = true ->
    mstep p (api_at (answered i keep (p_api p)) (p_main p) p)
(** the flush goroutine *)
| ms_flush lab e pc : match lab with LOp _ => False | _ => label_ok (lg_engine (p_store p)) lab end ->
    match p_main p with MExited _ => False | _ => True end ->
    (forall m, estep lab (lg_engine (p_store p), p_flush p) m (e, pc) m) ->
    mstep p (mkProcess (store_tcp (with_engine e (p_store p)) (p_tcp p)) pc (p_compact p) (p_api p) (p_main p))
(** the compaction goroutine *)
| ms_compact e cp : match p_main p with MExited _ => False | _ => True end ->
    cstep (lg_engine (p_store p), p_flush p, p_compact p) (e, p_flush p, cp) ->
    mstep p (mkProcess (store_tcp (with_engine e (p_store p)) (p_tcp p)) (p_flush p) cp (p_api p) (p_main p)).

Inductive mrun (p : Process) : Process -> Prop :=
| mr_refl : mrun p p
| mr_step p1 p2 : mrun p p1 -> tcp_dead (p_tcp p1) = false -> mstep p1 p2 -> mrun p p2.

(** ** Invariants *)

(** No goroutine of the TCP server is left, and none can start. *)
Definition quiet (t : TCPServer Logged) : Prop :=
  working t = false /\ Forall (fun c => ss_pc c = CGone) (tcp_sessions t).

(** [main] and the servers. *)
Definition api_down (h : Http) : Prop := h = Http_new \/ exists r, ht_stop h = HReturned r.

Definition phase_ok (p : Process) : Prop :=
  match p_main p with
  | MOpened => tcp_listener (p_tcp p) = None /\ tcp_stop (p_tcp p) = SNone /\ quiet (p_tcp p) /\ p_api p = Http_new
  | MTcpUp => tcp_listener (p_tcp p) = Some true /\ tcp_stop (p_tcp p) = SNone /\ p_api p = Http_new
  | MServing => tcp_listener (p_tcp p) = Some true /\ tcp_stop (p_tcp p) = SNone
  | MShutdown => tcp_listener (p_tcp p) = Some true /\ tcp_stop (p_tcp p) = SNone
  | MStopping _ => api_down (p_api p)
  | MClosing _ | MExited _ => quiet (p_tcp p) /\ api_down (p_api p)
  end.

Lemma new_idle h : ~ hstep Http_new h.
Proof using. intros []; done. Qed.

Lemma down_off h : http_inv h -> api_down h -> ht_stop h <> HReturned (Err DeadlineExceeded) -> off h.
Proof using.
  intros Hi [-> |(r & Hr)] Hd; [split_and!; [done|apply not_elem_of_nil..|by intros ?%not_elem_of_nil]|]. eapply stopped_off; [done|exact Hr|congruence].
Qed.

Lemma down_step h h' : api_down h -> hstep h h' -> api_down h'.
Proof using. intros [-> |(r & Hr)] H; [by apply new_idle in H|]. right. exists r. by destruct H. Qed.

Lemma down_answered h i path r keep : api_down h -> ht_conns h !! i = Some (HBusy path r) -> api_down (answered i keep h).
Proof using. intros [-> |(r' & Hr)] Hi; [done|]. right. by exists r'. Qed.

Lemma quiet_step mv t t' :
  quiet t -> tstep os mv t t' -> tcp_stop t' = tcp_stop t -> tcp_listener t' = tcp_listener t -> quiet t' /\ tcp_store t' = tcp_store t.
Proof using.
  intros [Hw Hc] H Hst Hli. pose proof Hw as Hw'. unfold working in Hw'.
  assert (forall i c c', tcp_sessions t !! i = Some c -> ss_pc c' = ss_pc c ->
    Forall (fun c => ss_pc c = CGone) (<[i := c']> (tcp_sessions t))) as Hins.
  { intros i c c' Hi Hpc. apply Forall_insert; [done|]. rewrite Hpc. by apply (Forall_lookup_1 _ _ _ _ Hc Hi). }
  destruct H as [s s' _ Hl [= <-]|out s _ Ha|e s _ Ha|c s _ Ha|i c s s' _ Hi Et|s _ Hs|r s _ Hs|r s s' _ Hs Et|i c bs s Hi He|i c s Hi|i c s _ Hi Hpc].
  - by rewrite Hl in Hli.
  - by rewrite Ha in Hw'.
  - by rewrite Ha in Hw'.
  - by rewrite Ha in Hw'.
  - unfold conn_turn in Et. by rewrite (Forall_lookup_1 _ _ _ _ Hc Hi) in Et.
  - unfold Stop_begin. by destruct (tcp_closeCh s).
  - unfold Stop_listener. by destruct (tcp_listener s).
  - unfold Stop_wait in Et. destruct (_ =? _); [|done]. by injection Et as <-.
  - split; [|done]. split; [done|]. by eapply Hins.
  - split; [|done]. split; [done|]. by eapply Hins.
  - by rewrite (Forall_lookup_1 _ _ _ _ Hc Hi) in Hpc.
Qed.

Lemma phase_step p p' :
  tcp_inv (p_tcp p) -> phase_ok p -> tcp_dead (p_tcp p) = false -> mstep p p' -> tcp_inv (p_tcp p') /\ phase_ok p'.
Proof using.
  intros Hi Hp Hd H. unfold phase_ok in Hp.
  assert (forall mv t, tstep os mv (p_tcp p) t -> tcp_inv t) as Hstep by (intros mv t; by apply tcp_inv_step).
  destruct H as [t Hm E|err Hm|h Hm E|err Hm _|Hm|old timeout lnerr h Hm _ _ _|r Hm Hr|code r Hm Hs|code r t Hm Hs E|code r e Hm _ _ _ _|mv t Ht Hs Hl
    |h Hh|i path r run keep Hc _|i path r keep Hc _|lab e pc _ Hx _|e cp Hx _];
    try (rewrite Hm in Hp); unfold phase_ok; cbn [main_at api_at p_tcp p_main p_api p_store].
  - destruct Hp as (Hl & Hs & _ & Hn). split; [by apply (Hstep Server); apply ts_start|]. by injection E as <-.
  - destruct Hp as (_ & _ & ? & ?). split; [done|]. split; [done|by left].
  - by destruct Hp as (? & ? & _).
  - destruct Hp as (_ & Hs & Hn). split; [|by left]. by apply (Hstep Server), ts_stop.
  - by destruct Hp.
  - by destruct Hp.
  - destruct Hp as (_ & Hs). split; [by apply (Hstep Server), ts_stop|]. right. by exists r.
  - split; [|done]. by apply (Hstep Server), ts_stop_listener.
  - assert (tcp_inv t) as Ht by (by apply (Hstep Server), (ts_stop_wait _ r)). split; [done|]. split; [|done].
    assert (tcp_stop t = SReturned r) as Hr by (unfold Stop_wait in E; destruct (_ =? _); [|done]; by injection E as <-).
    by destruct (returned_drained _ _ Ht Hr) as (_ & ? & ?).
  - destruct Hp as [Hq Hn]. split; [by apply (inv_same (p_tcp p))|]. done.
  - split; [by eapply Hstep|]. rewrite Hl, Hs. destruct (p_main p); try done.
    + destruct Hp as (? & ? & Hq & ?). by destruct (quiet_step _ _ _ Hq Ht Hs Hl).
    + destruct Hp as (Hq & ?). by destruct (quiet_step _ _ _ Hq Ht Hs Hl).
    + destruct Hp as (Hq & ?). by destruct (quiet_step _ _ _ Hq Ht Hs Hl).
  - split; [done|]. destruct (p_main p); try done; destruct_and?; split_and?; try done; try (by eapply down_step);
      by match goal with E : p_api p = Http_new |- _ => rewrite E in Hh; apply new_idle in Hh end.
  - split; [by apply (inv_same (p_tcp p))|]. destruct (p_main p); try done; destruct_and?; split_and?; try done; try (by eapply down_answered);
      by match goal with E : p_api p = Http_new |- _ => rewrite E in Hc end.
  - split; [done|]. destruct (p_main p); try done; destruct_and?; split_and?; try done; try (by eapply down_answered);
      by match goal with E : p_api p = Http_new |- _ => rewrite E in Hc end.
  - split; [by apply (inv_same (p_tcp p))|done].
  - split; [by apply (inv_same (p_tcp p))|done].
Qed.

Lemma api_step p p' : http_inv (p_api p) -> mstep p p' -> http_inv (p_api p').
Proof using.
  intros Hi H. destruct H; cbn [main_at api_at p_api]; try done.
  - eapply hcall_inv; [exact Hi|]. by eapply hc_start.
  - split; [done|apply shut_serving].
  - eapply hcall_inv; [exact Hi|]. by eapply hc_stop_turn.
  - by eapply hstep_inv.
  - eapply hcall_inv; [exact Hi|]. by eapply hc_handler.
  - eapply hcall_inv; [exact Hi|]. by eapply hc_handler.
Qed.

Lemma api_run p p' : http_inv (p_api p) -> mrun p p' -> http_inv (p_api p').
Proof using. intros Hi H. induction H as [|p1 p2 H IH Hd Hstep]; [done|]. by eapply api_step. Qed.

Lemma phase_run p p' : tcp_inv (p_tcp p) -> phase_ok p -> mrun p p' -> tcp_inv (p_tcp p') /\ phase_ok p'.
Proof using. intros Hi Hp H. induction H as [|p1 p2 H [Hi1 Hp1] Hd Hstep]; [done|]. by apply (phase_step p1). Qed.

(** A step calls the store, flushes, compacts, or is the end of [Close]. *)
Lemma step_store p p' :
  mstep p p' ->
  (called (p_store p) (p_store p') /\ p_flush p' = p_flush p /\ p_compact p' = p_compact p) \/
  (exists lab e, p_store p' = with_engine e (p_store p) /\ match lab with LOp _ => False | _ => label_ok (lg_engine (p_store p)) lab end /\
     (forall m, estep lab (lg_engine (p_store p), p_flush p) m (e, p_flush p') m) /\ p_compact p' = p_compact p) \/
  (exists e, p_store p' = with_engine e (p_store p) /\ p_flush p' = p_flush p /\
     cstep (lg_engine (p_store p), p_flush p, p_compact p) (e, p_flush p, p_compact p')) \/
  (exists e code, p_store p' = with_engine e (p_store p) /\ p_main p' = MExited code).
Proof using.
  assert (forall k v (s : Logged), called s (kv_put k v s).2) as Hput by (intros; apply logged_called).
  assert (forall k (s : Logged), called s (kv_delete k s).2) as Hdel by (intros; apply logged_called).
  assert (forall ks vs (s : Logged), called s (kv_batch_put ks vs s).2) as Hbatch by (intros; apply logged_called).
  intros H. unfold p_store.
  destruct H as [t Hm E|err Hm|h Hm _|err Hm _|Hm|old timeout lnerr h Hm _ _ _|r Hm _|code r Hm _|code r t Hm _ E|code r e Hm _ _ _ _|mv t Ht _ _
    |h _|i path r run keep _ Hr|i path r keep _ _|lab e pc Hlab _ Hstep|e cp _ Hstep];
    cbn [main_at api_at p_tcp p_main p_flush p_compact]; try (left; split_and!; done).
  - left. by injection E as <-.
  - left. unfold Stop_begin. by destruct (tcp_closeCh _).
  - left. unfold Stop_begin. by destruct (tcp_closeCh _).
  - left. unfold Stop_listener. by destruct (tcp_listener _).
  - left. unfold Stop_wait in E. destruct (_ =? _); [|done]. by injection E as <-.
  - right. right. right. by exists e, code.
  - left. split; [|done]. exact (tstep_moves os called Hput Hdel Hbatch mv (p_tcp p) t Ht).
  - left. split; [|done]. exact (serve_kv_moves os called Hput Hdel Hbatch path r run (tcp_store (p_tcp p)) Hr).
  - right. left. by exists lab, e.
  - right. right. left. by exists e.
Qed.

Lemma step_exited p p' : mstep p p' -> match p_main p with MExited _ => True | _ => False end -> p_main p' = p_main p.
Proof using. intros H. destruct H; cbn [main_at api_at p_main]; try done; match goal with H : p_main p = _ |- _ => by rewrite H end. Qed.

(** Up to the end of [Close] the store holds what was acknowledged. *)
Lemma store_run p p' n m0 :
  mrun p p' -> Forall call_ok (lg_calls (p_store p')) -> match p_main p' with MExited _ => False | _ => True end ->
  holds n (p_flush p) (p_compact p) m0 (p_store p) -> holds n (p_flush p') (p_compact p') m0 (p_store p').
Proof using.
  intros H. induction H as [|p1 p2 H IH Hd Hstep]; [done|]. intros Hok Hx Hs.
  assert (match p_main p1 with MExited _ => False | _ => True end) as Hx1.
  { destruct (p_main p1) eqn:E1; try done. by rewrite (step_exited p1 p2 Hstep), E1 in Hx by (by rewrite E1). }
  destruct (step_store p1 p2 Hstep) as [([[l Hl] Hc] & -> & ->)|[(lab & e & Est & Hlab & Hes & ->)|[(e & Est & -> & Hcs)|(e & code & _ & E)]]]; [| | |by rewrite E in Hx].
  - apply Hc; [done|]. apply IH; [|done|done]. rewrite Hl in Hok. by apply Forall_app in Hok as [? _].
  - rewrite Est in Hok |- *. destruct (IH Hok Hx1 Hs) as [Hsys Hcl]. split; cbn.
    + eapply sysc_step; [exact Hsys| |apply Hes]. by destruct lab.
    + rewrite <- Hcl. eapply flush_step_open; [|apply (Hes ∅)]. by destruct lab.
  - rewrite Est in Hok |- *. destruct (IH Hok Hx1 Hs) as [Hsys Hcl]. split; cbn.
    + exact (cstep_sys n (_, _, _) (_, _, _) _ Hsys Hcs).
    + rewrite <- Hcl. exact (cstep_closed n (_, _, _) (_, _, _) _ Hsys Hcs).
Qed.

(** After the servers have stopped, nothing calls the store. *)
Definition stopped (p : Process) : Prop :=
  off (p_api p) /\ match p_main p with MClosing _ | MExited _ => True | _ => False end.

Lemma stopped_step p p' : phase_ok p -> stopped p -> mstep p p' -> stopped p' /\ lg_calls (p_store p') = lg_calls (p_store p).
Proof using.
  intros Hp [Hoff Hm] H. unfold phase_ok in Hp. unfold stopped, p_store.
  assert (quiet (p_tcp p)) as Hq by (by destruct (p_main p), Hp). clear Hp. pose proof Hoff as [Hcs _].
  destruct H as [t E _|err E|h E _|err E _|E|old timeout lnerr h E _ _ _|r E _|code r E _|code r t E _ _|code r e E _ _ _ _|mv t Ht Hs Hl
    |h Hh|i path r run keep Hi _|i path r keep Hi _|lab e pc _ _ _|e cp _ _];
    cbn [main_at api_at p_tcp p_main p_api]; try (by rewrite E in Hm); try (by rewrite Hcs in Hi); try done.
  - destruct (quiet_step _ _ _ Hq Ht Hs Hl) as [_ ->]. done.
  - by destruct (hstep_off _ _ Hoff Hh).
Qed.

Lemma stopped_run p p' :
  tcp_inv (p_tcp p) -> phase_ok p -> stopped p -> mrun p p' -> lg_calls (p_store p') = lg_calls (p_store p).
Proof using.
  intros Hi Hp Hs H. assert (stopped p' /\ lg_calls (p_store p') = lg_calls (p_store p)) as [_ ?]; [|done].
  induction H as [|p1 p2 H [Hs1 Hc1] Hd Hstep]; [done|]. destruct (phase_run p p1 Hi Hp H) as [_ Hp1].
  destruct (stopped_step p1 p2 Hp1 Hs1 Hstep) as [Hs2 Hc2]. split; [done|]. by rewrite Hc2.
Qed.
End process.

(** ** Properties *)

(** C17. A signal loses nothing.  Start the server program on a database in any
    state of C1 ([drun]) and let TCP clients, HTTP clients (of all endpoints but the
    benchmarks and the demo, which have no step here), the flush goroutine and the
    compaction goroutine interleave in any way until [main] is about to close the
    engine.  Conditions: no request made the process panic ([main] got this far);
    the API's [Stop] ended before its timeout; both goroutines are between two
    tasks; L0 was compacted only while its tables shared no key and no flush was
    between its manifest entry and its publication
    ([compact_l0_resurrects_old_value] is what an overwrite does otherwise); no value written was empty, and writes had records within
    their widths, started with room in the flush channel and met a log device
    that does not fail ([call_ok]); tables and file numbers are within their
    widths; and the remaining flushes succeed.  Then [Close] returns nil; the files it leaves, whatever a power
    failure does to them, open to a database that answers every key with the
    last write acknowledged to any client of either server; and however the
    process goes on, no request reaches the store any more. *)
Theorem server_shutdown_keeps_data :
  forall (os : bytes) (fuel rfuel : nat) (closes ios : nat -> IO) (opts : Options) (e0 : Engine) (m0 : gmap bytes (option bytes))
    (p0 p : Process) (code : Z),
  drun opts (e0, FIdle, CIdle) m0 -> e_closed e0 = false -> main_open (Ok e0) ios rfuel = inl p0 ->
  mrun os (S fuel) closes p0 p -> p_main p = MClosing code -> ht_stop (p_api p) <> HReturned (Err DeadlineExceeded) -> p_flush p = FIdle -> p_compact p = CIdle ->
  Forall call_ok (lg_calls (p_store p)) -> (forall i, io_good (closes i)) -> mems_fit (lg_engine (p_store p)) ->
  e_nextFileNum (lg_engine (p_store p)) + len (e_flushCh (lg_engine (p_store p))) + 1 < 2 ^ 64 ->
  (exists e1 e2, close_engine (S fuel) closes (lg_engine (p_store p)) = (Ok None, e1) /\
    Engine_Close (S fuel) closes (lg_engine (p_store p)) = (Ok tt, e2) /\
    forall coins nm nt nw, exists e', Engine_Open (open_ok coins) (disk_crash nm nt nw (Engine_disk e1)) opts = Ok e' /\
      answers e' (acked (lg_calls (p_store p)) m0)) /\
  forall p', mrun os (S fuel) closes p p' -> lg_calls (p_store p') = lg_calls (p_store p).
Proof.
  intros os fuel rfuel closes ios opts e0 m0 p0 p code Hd Hcl0 [= <-] Hrun Hm Hin Hfl Hcp Hok Hio Hfit Hnum.
  destruct (Engine_Open_new (fun _ => []) opts) as (n & _ & _ & _ & Hn).
  assert (holds n FIdle CIdle m0 (p_store p)) as [Hsys%sysc_inv Hcl].
  { rewrite <- Hfl, <- Hcp. eapply store_run; [exact Hrun|done|by rewrite Hm|]. split; [exact (drun_inv opts n _ _ Hn Hd)|done]. }
  assert (tcp_inv (p_tcp p) /\ phase_ok p) as [Hi Hp].
  { eapply phase_run; [| |exact Hrun]; [apply tcp_inv_new|]. by repeat split; try constructor. }
  split; [|intros p' Hrun'; eapply stopped_run; [done|done| |done]; split; [|by rewrite Hm]].
  2: { assert (http_inv (p_api p)) as Ha by (eapply api_run; [|exact Hrun]; exact http_inv_new).
    apply down_off; [exact Ha| |exact Hin]. unfold phase_ok in Hp. rewrite Hm in Hp. apply Hp. }
  destruct (close_engine_good n fuel closes _ _ Hio Hsys Hnum Hfit) as (ed & e1 & (mt & s & S0 & D & deep & HL & HD) & _ & _ & E1 & Hmf & Hdk & _).
  destruct (Engine_Close_good n (S fuel) closes _ e1 Hcl E1 Hmf) as (e2 & E2). exists e1, e2. split; [exact E1|]. split; [exact E2|].
  intros coins nm nt nw. rewrite Hdk.
  destruct (disk_recover n ed _ mt s S0 D deep opts coins nm nt nw HL HD Hn) as (e' & E & Hs' & _).
  exists e'. split; [exact E|]. by eapply sys_answers.
Qed.

(** A put over HTTP, then the signal. *)
Definition demo_body : Body := mkBody None [x61] [x31] [] [] [] [] [] [] 0.
Definition demo_req : Request := mkRequest "POST" (fun _ => []) demo_body.
Definition demo_store : Logged := mkLogged (mkServed demo_open (fun _ => demo_io) 3) [].
Definition demo_stored : Logged := (cors (api_handlePut []) demo_req demo_store).2.
Definition demo_proc (s : Logged) (l : option bool) (cl : bool) (wg : Z) (a : accept_pc) (st : stop_pc)
    (h : Http) (pc : main_pc) : Process :=
  mkProcess (mkTCP s l cl wg a [] st false) FIdle CIdle h pc.

(** The HTTP server on the way: bound, serving, with a connection, a request, an
    idle connection, then stopping and stopped. *)
Definition demo_api (c : option hconn) : Http := mkHttp false [LServing] (option_list c) HRunning.
Definition demo_down (l : hlisten) (cs : list hconn) (st : hstop) : Http := mkHttp true [l] cs st.
Definition demo_end : Http := demo_down LClosed [] (HReturned (Ok tt)).

Lemma demo_mrun closes :
  mrun [] 1 closes (demo_proc demo_store None false 0 AIdle SNone Http_new MOpened)
    (demo_proc demo_stored (Some false) true 0 AGone (SReturned (Ok tt)) demo_end (MClosing 0)).
Proof.
  assert (forall p p1 p2, mrun [] 1 closes p p1 -> tcp_dead (p_tcp p1) = false -> mstep [] 1 closes p1 p2 -> mrun [] 1 closes p p2) as Hstep.
  { intros p p1 p2 H1 H2 H3. by eapply mr_step. }
  set (up s h := demo_proc s (Some true) false 1 AAccepting SNone h).
  eapply Hstep; [| |eapply (ms_stop_wait _ _ _ (demo_proc demo_stored (Some false) true 0 AGone (SWaiting (Ok tt)) demo_end (MStopping 0))); reflexivity]; [|reflexivity].
  eapply Hstep; [| |eapply (ms_tcp _ _ _ (demo_proc demo_stored (Some false) true 1 AAccepting (SWaiting (Ok tt)) demo_end (MStopping 0)) Server);
    [exact (ts_accept_error [] ErrIO (mkTCP demo_stored (Some false) true 1 AAccepting [] (SWaiting (Ok tt)) false) eq_refl eq_refl)|reflexivity|reflexivity]]; [|reflexivity].
  eapply Hstep; [| |eapply (ms_stop_listener _ _ _ (demo_proc demo_stored (Some true) true 1 AAccepting SClosed demo_end (MStopping 0)) 0 (Ok tt)); reflexivity]; [|reflexivity].
  eapply Hstep; [| |eapply (ms_shutdown _ _ _ (up demo_stored demo_end MShutdown)); reflexivity]; [|reflexivity].
  eapply Hstep; [| |eapply (ms_shutdown_turn _ _ _ (up demo_stored (demo_down LClosed [HIdle] HWaiting) MShutdown) (fun _ => false) false (Ok tt));
    [reflexivity|reflexivity|discriminate|vm_compute; reflexivity]]; [|reflexivity].
  eapply Hstep; [| |exact (ms_api _ _ _ (up demo_stored (demo_down LClosing [HIdle] HWaiting) MShutdown) _ (hs_serve_end (demo_down LClosing [HIdle] HWaiting) 0%nat eq_refl))]; [|reflexivity].
  eapply Hstep; [| |exact (ms_signal _ _ _ (up demo_stored (demo_api (Some HIdle)) MServing) eq_refl)]; [|reflexivity].
  eapply Hstep; [| |exact (ms_handler _ _ _ (up demo_store (demo_api (Some (HBusy "/api/put" demo_req))) MServing) 0 "/api/put" demo_req _ true eq_refl eq_refl)]; [|reflexivity].
  eapply Hstep; [| |exact (ms_api _ _ _ (up demo_store (demo_api (Some HNew)) MServing) _ (hs_request (demo_api (Some HNew)) 0%nat HNew "/api/put" demo_req eq_refl (or_introl eq_refl)))]; [|reflexivity].
  eapply Hstep; [| |exact (ms_api _ _ _ (up demo_store (demo_api None) MServing) _ (hs_accept (demo_api None) 0%nat eq_refl))]; [|reflexivity].
  eapply Hstep; [| |exact (ms_api _ _ _ (up demo_store (mkHttp false [LBound] [] HRunning) MServing) _ (hs_serve (mkHttp false [LBound] [] HRunning) 0%nat eq_refl))]; [|reflexivity].
  eapply Hstep; [| |eapply (ms_api_started _ _ _ (up demo_store Http_new MTcpUp)); reflexivity]; [|reflexivity].
  eapply Hstep; [apply mr_refl|reflexivity|]. eapply (ms_tcp_started _ _ _ (demo_proc demo_store None false 0 AIdle SNone Http_new MOpened)); reflexivity.
Qed.

Lemma server_shutdown_keeps_data_witness :
  exists p e1 e2, mrun [] 1 (fun _ => demo_io) (demo_proc demo_store None false 0 AIdle SNone Http_new MOpened) p /\ p_main p = MClosing 0 /\
    close_engine 1 (fun _ => demo_io) (lg_engine (p_store p)) = (Ok None, e1) /\
    Engine_Close 1 (fun _ => demo_io) (lg_engine (p_store p)) = (Ok tt, e2) /\
    exists e', Engine_Open (open_ok (fun _ => [])) (disk_crash 2 (fun _ => 1%nat) (fun _ => 0%nat) (Engine_disk e1)) demo_opts = Ok e' /\
      Engine_Get [x61] e' = Ok (Some [x31]).
Proof.
  assert (lg_engine demo_stored = demo1) as He by (vm_compute; reflexivity).
  set (p := demo_proc demo_stored (Some false) true 0 AGone (SReturned (Ok tt)) demo_end (MClosing 0)). exists p.
  destruct (server_shutdown_keeps_data [] 0 3 (fun _ => demo_io) (fun _ => demo_io) demo_opts demo_open ∅
    (demo_proc demo_store None false 0 AIdle SNone Http_new MOpened) p 0) as [(e1 & e2 & E1 & E2 & H) _].
  - apply (drun_open _ (fun _ => [])). vm_compute. reflexivity.
  - vm_compute. reflexivity.
  - reflexivity.
  - apply demo_mrun.
  - reflexivity.
  - discriminate.
  - reflexivity.
  - reflexivity.
  - constructor; [|constructor]. split; [by repeat constructor|]. split; [|vm_compute; lia].
    apply (demo_label_ok demo_open x31). vm_compute. reflexivity.
  - intros i. by split_and!.
  - change (mems_fit (lg_engine demo_stored)). rewrite He. exact demo1_fit.
  - change (e_nextFileNum (lg_engine demo_stored) + len (e_flushCh (lg_engine demo_stored)) + 1 < 2 ^ 64). rewrite He. vm_compute. reflexivity.
  - exists e1, e2. split; [apply demo_mrun|]. split; [reflexivity|]. split; [exact E1|]. split; [exact E2|].
    destruct (H (fun _ => []) 2%nat (fun _ => 1%nat) (fun _ => 0%nat)) as (e' & E & Hget & _).
    exists e'. split; [exact E|]. rewrite (Hget [x61]). vm_compute. reflexivity.
Defined.
